(* ===== verification/_CoqProject ===== *)
-Q . S2P
Prelude.v
Bits.v
Positions.v
PositionIters.v
Hash.v
MerkleSpec.v
InMemAccumulator.v
AccumulatorProofs.v
Consistency.v
StorageAccumulator.v
HashValues.v
SparseMerkle.v
Nibbles.v
JellyfishNodes.v
JellyfishSpec.v
JellyfishHash.v
TreeCache.v
Jellyfish.v
JellyfishRep.v
JellyfishCache.v
JellyfishPut.v
JellyfishUpdate.v
JellyfishRanges.v
JellyfishBatch.v
JellyfishTheorems.v
JellyfishIterator.v
JellyfishTraversal.v
JellyfishCodec.v
JellyfishExample.v
Primitives.v
ValidatorVerifier.v
LedgerInfo.v
EpochChange.v
TrustedState.v
TransactionProofs.v
ConsensusTypes.v
Blocks.v
ConsensusMsgs.v
SafetyRules.v
SafetySpec.v
ConsensusExample.v
SafetyRuns.v
CommitSafety.v
PendingVotes.v
RoundState.v
ProposerElection.v
BlockTree.v
ProposalGenerator.v
BlockTreeInv.v
BlockStore.v
BlockStoreTasks.v
BlockStoreRuns.v
Recovery.v
BlockStoreExample.v
LivenessExample.v
