(* ===== verification/Prelude.v ===== *)
(** * Diem core: a verification library

    The repository is a fork of Diem, a replicated ledger. Validators agree on
    a chain of blocks (consensus/), execute them (execution/, diem-move/) and
    store the result in authenticated data structures (storage/); clients check
    what they are told against signatures of the validators and Merkle proofs
    (types/). This library is about the parts whose correctness the others rest
    on: the Merkle accumulators and proofs, the versioned state tree, validator
    sets and epoch changes, the light client, and of consensus the safety rules,
    the votes and rounds, leaders and proposals, and the block tree. All paths
    below are relative to src/.

    ** Conventions

    Definitions are translated from the Rust code and evaluate. A Rust module or
    type with methods is a Module of the same name whose record is [t]. A
    function that returns a [Result] or may panic is in [outcome] (below):
    [Ok], [Err] or [Panic]; [&mut self] methods that can fail are in the state
    monad [action], which keeps the state on failure, and simpler ones return
    the new state. A [u64] is a [Z]; the operators of [u64_scope] wrap as in the
    release profile. [HashMap]s are [gmap]s; a [BTreeMap] is a [gmap] that is
    iterated in the order of its keys; the iteration order of a [HashSet] or
    [HashMap] is a parameter ([HashSetOrder]). Error messages are the text of
    the source without the formatted arguments. Logging, counters, [Display],
    serde and test-only code are left out.

    ** Merkle structures

    - Bits.v: bit counting on [u64].
    - Positions.v, PositionIters.v: types/src/proof/position/mod.rs, in-order
      positions and the four iterators. Post-order numbering is a bijection; the
      iterators over frozen subtrees tile intervals of leaves.
    - Hash.v, HashValues.v: crates/diem-crypto/src/hash.rs. [MerkleHasher] is the
      interface between the Merkle code and the hash functions.
    - MerkleSpec.v: the specification, a Merkle tree over a list of leaves.
    - InMemAccumulator.v: types/src/proof/accumulator/mod.rs. Appending leaves or
      subtrees computes the accumulator of the longer list.
    - StorageAccumulator.v: storage/accumulator/src/lib.rs over a [HashReader].
      What it returns to be stored keeps the store complete, and the proofs it
      reads off the store verify.
    - AccumulatorProofs.v, Consistency.v, SparseMerkle.v, TransactionProofs.v:
      types/src/proof/definition.rs and mod.rs. Soundness of inclusion, range,
      consistency, sparse and transaction proofs, up to an explicit collision of
      the hash function, and completeness.

    ** The Jellyfish Merkle tree

    The state of the ledger is a map from 256-bit keys to values, of which every
    version is kept (storage/jellyfish-merkle/src). Nodes are stored under the
    version that wrote them and the path of nibbles that leads to them.

    - Nibbles.v: types/src/nibble, paths packed two nibbles to a byte and the
      iterators over them, each operation related to a plain list of nibbles.
    - JellyfishNodes.v: node_type/mod.rs, nodes, node keys, their hashes and stored
      forms. TreeCache.v: tree_cache/mod.rs, the nodes of an update in progress.
      Jellyfish.v: lib.rs, insertion key by key and in batches, and reading.
    - JellyfishSpec.v: the specification, the sparse Merkle tree of a finite map.
      JellyfishHash.v: the hash and the siblings of an internal node are those of
      four levels of it. JellyfishRep.v: when stored nodes represent a map, and
      that reading such a version gives the value and its proof.
    - JellyfishCache.v, JellyfishPut.v, JellyfishUpdate.v: the tree seen through
      the cache, insertion of a key, and updates of many versions.
      JellyfishRanges.v, JellyfishBatch.v: the same for sorted batches.
    - JellyfishTheorems.v: [put_value_sets] refines the update of a map;
      [batch_put_value_sets] is equivalent to it; pruning the nodes marked stale is
      safe; range proofs verify; leaf counts are exact. They hold for stores with
      and without the nodes of before the migration of leaf counts (the section
      variable [counted]).
    - JellyfishCodec.v: what is stored is read back, in the order of the keys, and
      decoding arbitrary bytes does not panic and yields well-formed nodes.
    - JellyfishIterator.v: iterator/mod.rs. JellyfishTraversal.v: it returns exactly
      the entries of a version from a key or an index on, in order.
    - JellyfishExample.v: a concrete store on which the theorems are applied.

    ** Validator sets and light clients

    - Primitives.v: interfaces of what is defined elsewhere: addresses, keys,
      signatures ([Primitives]), the derived hashes ([CryptoHash]).
    - ValidatorVerifier.v: types/src/validator_verifier.rs. Quorums intersect in
      more than a third of the power, if twice the total fits a u64; beyond that a
      little more than a third of the power is a quorum.
    - LedgerInfo.v, EpochChange.v: block_info.rs, ledger_info.rs, epoch_state.rs,
      waypoint.rs, epoch_change.rs of types/src. An accepted epoch change proof
      ends in a ledger info that was committed, that is, signed by a quorum of its
      epoch. What the client relies on is the class [History]: the committed blocks
      of an epoch are on one chain, and the next validators are those they carry.
    - TrustedState.v: types/src/trusted_state.rs, state_proof.rs. Ratcheting only
      reaches committed states and never goes back.

    ** Consensus

    - ConsensusTypes.v, Blocks.v, ConsensusMsgs.v: consensus/consensus-types/src.
    - SafetyRules.v: consensus/safety-rules/src, what a validator may sign, over a
      [Storage] that may fail. SafetySpec.v has the abstract contract, a step
      relation on the persisted data, and the refinement theorem; SafetyRuns.v
      what a validator can have signed over any run with restarts; CommitSafety.v
      composes them, for an epoch of the 2-chain protocol in which at most a third
      of the power is faulty and timeout certificates are of this epoch: committed
      blocks do not conflict. That the code does not check the epoch of a timeout
      certificate is a theorem of SafetyRuns.v.
    - PendingVotes.v, RoundState.v: consensus/src/pending_votes.rs and
      liveness/round_state.rs. The certificates formed from verified votes
      verify, are of the current round, and are formed when a quorum has voted;
      rounds are monotone.
    - BlockTree.v, BlockTreeInv.v: consensus/src/block_storage/block_tree.rs, with
      the exact result of pruning and of path search and the invariant of the
      tree. BlockStore.v: block_store.rs, the decisions of sync_manager.rs and
      ExecutionProxy of state_computer.rs. BlockStoreTasks.v: the operations that
      change the tree, cut at each access to the store; run alone, they are those of
      BlockStore.v. BlockStoreRuns.v: the consensus task and the task of the commit
      callbacks, interleaved at any of these points. As long as consensus is safe,
      the tree stays consistent and no assertion fails but the one that a commit is
      persisted.
    - Recovery.v: RecoveryData of consensus/src/persistent_liveness_storage.rs and
      the start of the block store. What is recovered is exactly the branch below
      the last commit, and the store is built from it without a failure.
    - ProposerElection.v: proposer_election.rs, rotating_proposer_election.rs,
      round_proposer_election.rs and leader_reputation.rs of consensus/src/liveness.
      A leader is picked by its share of the weights, and at most one proposal of an
      author and round is accepted.
    - ProposalGenerator.v: proposal_generator.rs. Proposals have increasing rounds,
      are well formed for their receivers and repeat no pending transaction.
    - ConsensusExample.v, BlockStoreExample.v, LivenessExample.v: a concrete epoch,
      a concrete store and concrete leaders, on which the theorems are applied.

    Components meet in type classes: [MerkleHasher], [HashReader], [TreeReader]
    with [StoredNodes], [ByteOrder] with [ByteOrderLaws], [Bcs], [Verifier],
    [Storage] with [StorageLaws], [ProposerElection], [MetadataBackend],
    [ReputationHeuristic], [EventReader], [ExecutionCorrectness] and
    [LivenessStorage] with [ServicesTotal].

    ** Bounds

    Loops of the code that are not structurally recursive carry fuel. Each bound
    is computed from the input and theorems show that it is enough: the depth of
    a 64-bit tree for the loops over positions and levels, the number of hashes
    and siblings for range proofs, the number of blocks of the tree for pruning
    and path search, which visit a block at most once, 65 for the recursion of the
    Jellyfish Merkle tree (a key has 64 nibbles), the length of the batch for the
    ranges and the binary search in it, the number of weights for the search of a
    leader, 4 for the levels inside an internal node and 8 for the bytes of a
    variable-length integer before the last. Theorems about u64 values state the
    ranges they need; the wrap-around cases are modelled. Durations and points in
    time of the round state are unbounded.

    ** Not modelled

    - Cryptography (Ed25519, SHA3, BCS serialization): parameters. Theorems assume
      of them only what is stated as a hypothesis, such as that the inputs hashed
      for a tree and a proof do not collide.
    - The network layer, mempool, JSON-RPC and REST interfaces, configuration,
      command line tools, test harnesses: input and output, or glue around
      asynchronous runtimes.
    - The Move VM, the framework and the executor: reached only through
      [ExecutionCorrectness].
    - RocksDB schemas, backup and state synchronization of storage/ and
      state-sync/: input and output around the proofs and trees above.
    - Of the Jellyfish Merkle tree: restore/ (restoration from a backup). The hashes that the caller
      of [batch_put_value_sets] may pass in are modelled; the theorems are about
      calls without them.
    - Of consensus: epoch_manager.rs and round_manager.rs (they dispatch messages
      to the components above), block retrieval over the network, the database
      access of consensusdb, and the decoupled execution pipeline in
      experimental/. The theorems about the block store are for the coupled mode
      and do not cover [rebuild]; the one about the restart ends with [build] and
      does not cover the [try_commit] of [BlockStore::new]. The reads of the block
      tree in one call of the proposal generator see the same tree: a commit
      between two of them is not modelled. *)
From stdpp Require Import prelude gmap strings sorting.
From Stdlib Require Import ZArith Lia.
#[global] Open Scope Z_scope.

(** ** Fallible computations

    A Rust function that returns [Result<A, E>] and may also panic
    ([assert!], [expect], index out of range) is a value of [outcome E A]. *)
Inductive outcome (E A : Type) : Type :=
| Ok (a : A)
| Err (e : E)
| Panic.
Arguments Ok {E A} a.
Arguments Err {E A} e.
Arguments Panic {E A}.

#[global] Instance outcome_ret {E} : MRet (outcome E) := fun A a => Ok a.
#[global] Instance outcome_bind {E} : MBind (outcome E) := fun A B f m =>
  match m with Ok a => f a | Err e => Err e | Panic => Panic end.
#[global] Instance outcome_fmap {E} : FMap (outcome E) := fun A B f m =>
  match m with Ok a => Ok (f a) | Err e => Err e | Panic => Panic end.

#[global] Instance outcome_eq_dec {E A} `{!EqDecision E, !EqDecision A} :
  EqDecision (outcome E A).
Proof. solve_decision. Defined.

(** [ensure!(cond, msg)] *)
Definition ensure {E} (b : bool) (e : E) : outcome E unit :=
  if b then Ok tt else Err e.

(** [opt.ok_or(e)?] *)
Definition ok_or {E A} (o : option A) (e : E) : outcome E A :=
  match o with Some a => Ok a | None => Err e end.

(** [opt.expect(..)] *)
Definition expect {E A} (o : option A) : outcome E A :=
  match o with Some a => Ok a | None => Panic end.

(** [assert!(cond)] *)
Definition assert_ {E} (b : bool) : outcome E unit :=
  if b then Ok tt else Panic.

(** [res.map_err(f)] *)
Definition map_err {E F A} (f : E -> F) (m : outcome E A) : outcome F A :=
  match m with Ok a => Ok a | Err e => Err (f e) | Panic => Panic end.

Definition is_ok {E A} (m : outcome E A) : bool :=
  match m with Ok _ => true | _ => false end.

(** [iter.map(f).collect::<Result<Vec<_>>>()]: stops at the first failure. *)
Fixpoint collect {E A B} (f : A -> outcome E B) (l : list A) : outcome E (list B) :=
  match l with
  | [] => Ok []
  | x :: r => y ← f x; ys ← collect f r; Ok (y :: ys)
  end.

Lemma bind_Ok {E A B} (a : A) (f : A -> outcome E B) : (Ok a ≫= f) = f a.
Proof. reflexivity. Qed.

Lemma bind_Ok_inv {E A B} (m : outcome E A) (f : A -> outcome E B) b :
  (m ≫= f) = Ok b -> exists a, m = Ok a /\ f a = Ok b.
Proof. destruct m; simpl; intros H; [eauto | discriminate..]. Qed.

Lemma ensure_Ok_inv {E} b (e : E) u : ensure b e = Ok u -> b = true.
Proof. destruct b; [done | discriminate]. Qed.

Lemma ok_or_Ok_inv {E A} (o : option A) (e : E) a : ok_or o e = Ok a -> o = Some a.
Proof. destruct o; simpl; congruence. Qed.

Lemma expect_Ok_inv {E A} (o : option A) a : expect (E := E) o = Ok a -> o = Some a.
Proof. destruct o; simpl; congruence. Qed.

Lemma assert_Ok_inv {E} b u : assert_ (E := E) b = Ok u -> b = true.
Proof. destruct b; [done | discriminate]. Qed.

Lemma map_err_Ok_inv {E F A} (f : E -> F) (m : outcome E A) a :
  map_err f m = Ok a -> m = Ok a.
Proof. destruct m; simpl; congruence. Qed.

Lemma collect_Ok_Forall2 {E A B} (f : A -> outcome E B) l ys :
  collect f l = Ok ys <-> Forall2 (fun x y => f x = Ok y) l ys.
Proof.
  revert ys; induction l as [|x l IH]; intros ys; simpl.
  - split; [intros [= <-]; constructor | inversion 1; done].
  - split.
    + intros (y & Hy & (zs & Hzs & [= <-])%bind_Ok_inv)%bind_Ok_inv.
      constructor; [done | by apply IH].
    + inversion 1 as [|? y ? zs Hy Hzs]; subst. rewrite Hy. simpl.
      apply IH in Hzs. by rewrite Hzs.
Qed.

Lemma collect_map_Ok {E A B} (f : A -> outcome E B) (g : A -> B) l :
  (forall x, x ∈ l -> f x = Ok (g x)) -> collect f l = Ok (g <$> l).
Proof.
  intros H. apply collect_Ok_Forall2. apply Forall2_fmap_r.
  apply Forall_Forall2_diag, Forall_forall. auto.
Qed.

(** Peels a monadic computation known to succeed into the facts of its steps. *)
Ltac outcome_inv :=
  repeat match goal with
  | H : Ok _ = Ok _ |- _ => injection H as H; try subst
  | H : Err _ = Ok _ |- _ => discriminate H
  | H : Panic = Ok _ |- _ => discriminate H
  | H : (_ ≫= _) = Ok _ |- _ =>
      let a := fresh "a" in let Ha := fresh "Ha" in
      apply bind_Ok_inv in H; destruct H as (a & Ha & H)
  | H : ensure _ _ = Ok _ |- _ => apply ensure_Ok_inv in H
  | H : ok_or _ _ = Ok _ |- _ => apply ok_or_Ok_inv in H
  | H : expect _ = Ok _ |- _ => apply expect_Ok_inv in H
  | H : assert_ _ = Ok _ |- _ => apply assert_Ok_inv in H
  | H : map_err _ _ = Ok _ |- _ => apply map_err_Ok_inv in H
  end.

(** ** Stateful code

    A method with [&mut self] that returns a [Result]: the state is kept when
    the method fails. *)
Definition action (S E A : Type) : Type := S -> S * outcome E A.

#[global] Instance action_ret S E : MRet (action S E) := fun A a s => (s, Ok a).

#[global] Instance action_bind S E : MBind (action S E) := fun A B f m s =>
  match m s with
  | (s, Ok a) => f a s
  | (s, Err e) => (s, Err e)
  | (s, Panic) => (s, Panic)
  end.

(** A computation that does not touch the state. *)
Definition lift {S E A} (m : outcome E A) : action S E A := fun s => (s, m).

Definition gets {S E A} (f : S -> A) : action S E A := fun s => (s, Ok (f s)).

Definition modify {S E} (f : S -> S) : action S E unit := fun s => (f s, Ok tt).

(** [res.map_err(|error| ..)] with a closure that changes the state. *)
Definition catch {S E A} (m : action S E A) (handler : E -> action S E A) : action S E A := fun s =>
  match m s with
  | (s, Err e) => handler e s
  | r => r
  end.

Definition map_error {S E F A} (f : E -> F) (m : action S E A) : action S F A := fun s =>
  let (s, r) := m s in (s, map_err f r).

(** A method of a field. *)
Definition zoom {S T E A} (get : S -> T) (set : S -> T -> S) (m : action T E A) : action S E A := fun s =>
  let (t, r) := m (get s) in (set s t, r).

(** [iter.try_fold(init, f)], and a loop with [?] in its body that changes local
    variables: stops at the first failure. *)
Fixpoint try_fold {S E A B} (f : B -> A -> action S E B) (b : B) (l : list A) : action S E B :=
  match l with
  | [] => mret b
  | x :: l => b ← f b x; try_fold f b l
  end.

Lemma bind_run {S E A B} (m : action S E A) (f : A -> action S E B) s s' a :
  m s = (s', Ok a) -> (m ≫= f) s = f a s'.
Proof. intros H. unfold mbind, action_bind. by rewrite H. Qed.

Lemma bind_lift {S E A B} (o : outcome E A) (f : A -> action S E B) s a : o = Ok a -> (lift o ≫= f) s = f a s.
Proof. by intros ->. Qed.

Lemma bind_gets {S E A B} (f : S -> A) (k : A -> action S E B) s : (gets f ≫= k) s = k (f s) s.
Proof. reflexivity. Qed.

Lemma bind_modify {S E B} (f : S -> S) (k : unit -> action S E B) s : (modify f ≫= k) s = k tt (f s).
Proof. reflexivity. Qed.

(** ** Machine integers

    A [u64] is a [Z] in [0, 2^64). The operators wrap, as they do in the
    release profile of the workspace (Cargo.toml turns no overflow check on);
    [checked_*] and [saturating_*] are the std methods of that name. *)
Abbreviation u64_max := 18446744073709551615 (only parsing).

Definition in_u64 (z : Z) : Prop := 0 <= z <= u64_max.

Definition wrap64 (z : Z) : Z := z mod 2 ^ 64.
Definition u64_add (a b : Z) : Z := wrap64 (a + b).
Definition u64_sub (a b : Z) : Z := wrap64 (a - b).
Definition u64_mul (a b : Z) : Z := wrap64 (a * b).
(** [!a] *)
Definition u64_not (a : Z) : Z := u64_max - a.
(** [a << n]: the shift amount is taken modulo the width, bits shifted out
    of the word are lost. *)
Definition u64_shl (a n : Z) : Z := wrap64 (Z.shiftl a (n mod 64)).
Definition u64_shr (a n : Z) : Z := Z.shiftr a (n mod 64).
(** [a + b] on [u32] *)
Definition u32_add (a b : Z) : Z := (a + b) mod 2 ^ 32.

Definition checked_add (a b : Z) : option Z :=
  if a + b <=? u64_max then Some (a + b) else None.
Definition checked_sub (a b : Z) : option Z :=
  if b <=? a then Some (a - b) else None.
Definition saturating_add (a b : Z) : Z := Z.min (a + b) u64_max.
Definition saturating_sub (a b : Z) : Z := Z.max (a - b) 0.

Declare Scope u64_scope.
Delimit Scope u64_scope with u64.
(** The operands are read in [u64_scope] too, so that nested operators are
    the wrapping ones. *)
Arguments u64_add (a b)%_u64_scope.
Arguments u64_sub (a b)%_u64_scope.
Arguments u64_mul (a b)%_u64_scope.
Arguments u64_shl (a n)%_u64_scope.
Arguments u64_shr (a n)%_u64_scope.
Arguments u64_not a%_u64_scope.
Infix "+" := u64_add : u64_scope.
Infix "-" := u64_sub : u64_scope.
Infix "*" := u64_mul : u64_scope.
Infix "<<" := u64_shl (at level 54, left associativity) : u64_scope.
Infix ">>" := u64_shr (at level 54, left associativity) : u64_scope.
Notation "a .& b" := (Z.land a%u64 b%u64) (at level 56, left associativity) : u64_scope.
Notation "a .^ b" := (Z.lxor a%u64 b%u64) (at level 57, left associativity) : u64_scope.
Notation "a .| b" := (Z.lor a%u64 b%u64) (at level 58, left associativity) : u64_scope.
Notation "~. a" := (u64_not a) (at level 35, right associativity) : u64_scope.

(** ** Finite maps *)

(** Distinct keys are at most as many as the map has. *)
Lemma NoDup_length_size `{Countable K} {A} (m : gmap K A) (l : list K) :
  NoDup l -> (forall x, x ∈ l -> is_Some (m !! x)) -> (length l <= size m)%nat.
Proof.
  intros Hn Hin. rewrite <- size_dom, <- (size_list_to_set (C := gset K) l Hn). apply subseteq_size.
  intros x. rewrite elem_of_list_to_set, elem_of_dom. apply Hin.
Qed.
