(* ===== verification/Bits.v ===== *)
(** * Bit counting on u64

    The std methods [trailing_zeros], [leading_zeros] and [count_ones] of
    [u64], and the facts about them and about the wrapping shift operators
    that the position arithmetic and the accumulators share. *)
From stdpp Require Import prelude.
From Stdlib Require Import ZArith Lia Btauto.
From S2P Require Import Prelude.

Fixpoint pos_trailing_zeros (p : positive) : Z :=
  match p with
  | xO q => 1 + pos_trailing_zeros q
  | _ => 0
  end.

(** [v.trailing_zeros()]: 64 on zero. *)
Definition trailing_zeros (v : Z) : Z :=
  match v with Zpos p => pos_trailing_zeros p | _ => 64 end.

(** [v.leading_zeros()]: 64 on zero. *)
Definition leading_zeros (v : Z) : Z :=
  if v =? 0 then 64 else 63 - Z.log2 v.

Fixpoint pos_count_ones (p : positive) : Z :=
  match p with
  | xH => 1
  | xO q => pos_count_ones q
  | xI q => 1 + pos_count_ones q
  end.

(** [v.count_ones()] *)
Definition count_ones (v : Z) : Z :=
  match v with Zpos p => pos_count_ones p | _ => 0 end.

(** ** Wrapping operators in range *)

Lemma pow2_pos n : 0 <= n -> 0 < 2 ^ n.
Proof. intros. apply Z.pow_pos_nonneg; lia. Qed.

Lemma pow2_S n : 0 <= n -> 2 ^ (n + 1) = 2 * 2 ^ n.
Proof. intros. rewrite Z.pow_add_r by lia. lia. Qed.

Lemma pow2_split a b : 0 <= a <= b -> 2 ^ b = 2 ^ (b - a) * 2 ^ a.
Proof. intros. rewrite <- Z.pow_add_r by lia. f_equal; lia. Qed.

Lemma wrap64_small z : in_u64 z -> wrap64 z = z.
Proof. unfold in_u64, wrap64. intros. apply Z.mod_small. lia. Qed.

Lemma wrap64_range z : in_u64 (wrap64 z).
Proof.
  unfold in_u64, wrap64. pose proof (Z.mod_pos_bound z (2 ^ 64) ltac:(lia)). lia.
Qed.

Lemma u64_add_small a b : 0 <= a -> 0 <= b -> a + b <= u64_max -> (a + b)%u64 = a + b.
Proof. intros. unfold u64_add. apply wrap64_small. red; lia. Qed.

Lemma u32_add_small a b : 0 <= a + b < 2 ^ 32 -> u32_add a b = a + b.
Proof. intros. unfold u32_add. apply Z.mod_small. lia. Qed.

Lemma u64_sub_small a b : a <= u64_max -> 0 <= b <= a -> (a - b)%u64 = a - b.
Proof. intros. unfold u64_sub. apply wrap64_small. red; lia. Qed.

Lemma u64_shl_small a n :
  0 <= n < 64 -> 0 <= a -> a * 2 ^ n <= u64_max -> (a << n)%u64 = a * 2 ^ n.
Proof.
  intros. unfold u64_shl. rewrite Z.mod_small, Z.shiftl_mul_pow2 by lia.
  apply wrap64_small. pose proof (pow2_pos n). red; nia.
Qed.

Lemma u64_shr_div a n : 0 <= n < 64 -> (a >> n)%u64 = a / 2 ^ n.
Proof. intros. unfold u64_shr. rewrite Z.mod_small, Z.shiftr_div_pow2 by lia. done. Qed.

(** ** Bits of words *)

Lemma wrap64_testbit z i : 0 <= i -> Z.testbit (wrap64 z) i = (i <? 64) && Z.testbit z i.
Proof.
  intros. unfold wrap64. destruct (Z.ltb_spec i 64).
  - rewrite Z.mod_pow2_bits_low by lia. done.
  - rewrite Z.mod_pow2_bits_high by lia. done.
Qed.

Lemma u64_not_lnot a : in_u64 a -> (~. a)%u64 = wrap64 (Z.lnot a).
Proof.
  intros [??]. unfold u64_not, wrap64, Z.lnot.
  replace (Z.pred (- a)) with (u64_max - a + (-1) * 2 ^ 64) by lia.
  rewrite Z.mod_add, Z.mod_small by lia. done.
Qed.

Lemma u64_not_testbit a i :
  in_u64 a -> 0 <= i -> Z.testbit (~. a)%u64 i = (i <? 64) && negb (Z.testbit a i).
Proof. intros. rewrite u64_not_lnot, wrap64_testbit, Z.lnot_spec by done. done. Qed.

Lemma u64_shl_testbit a n i :
  0 <= n < 64 -> 0 <= i -> Z.testbit (a << n)%u64 i = (i <? 64) && Z.testbit a (i - n).
Proof.
  intros. unfold u64_shl. rewrite wrap64_testbit, Z.shiftl_spec, Z.mod_small by lia. done.
Qed.

Lemma u64_shr_testbit a n i :
  0 <= n < 64 -> 0 <= i -> Z.testbit (a >> n)%u64 i = Z.testbit a (i + n).
Proof. intros. unfold u64_shr. rewrite Z.shiftr_spec, Z.mod_small by lia. done. Qed.

Lemma pow2_testbit n i : 0 <= n -> 0 <= i -> Z.testbit (2 ^ n) i = (i =? n).
Proof.
  intros. rewrite Z.pow2_bits_eqb by lia. apply Z.eqb_sym.
Qed.

Lemma one_testbit i : 0 <= i -> Z.testbit 1 i = (i =? 0).
Proof. intros. by apply (pow2_testbit 0). Qed.

Lemma testbit_small a n i : 0 <= a < 2 ^ n -> 0 <= n <= i -> Z.testbit a i = false.
Proof.
  intros [? ?] ?. destruct (Z.eq_dec a 0) as [->|]; [apply Z.bits_0|].
  apply Z.bits_above_log2; [lia|]. apply Z.log2_lt_pow2; [lia|].
  apply Z.lt_le_trans with (2 ^ n); [lia|]. apply Z.pow_le_mono_r; lia.
Qed.

Lemma double_testbit p b i :
  Z.testbit (2 * p + Z.b2z b) i = if i =? 0 then b else Z.testbit p (i - 1).
Proof.
  destruct (Z.eqb_spec i 0) as [->|].
  - apply Z.testbit_0_r.
  - destruct (Z.lt_ge_cases i 0).
    + by rewrite !Z.testbit_neg_r by lia.
    + replace i with (Z.succ (i - 1)) at 1 by lia. apply Z.testbit_succ_r; lia.
Qed.

Lemma testbit_neg_false a i : i < 0 -> Z.testbit a i = false.
Proof. intros. by apply Z.testbit_neg_r. Qed.

(** ** trailing_zeros *)

Lemma pos_trailing_zeros_nonneg p : 0 <= pos_trailing_zeros p.
Proof. induction p; simpl; lia. Qed.

Lemma trailing_zeros_odd a : 0 <= a -> trailing_zeros (2 * a + 1) = 0.
Proof. intros. destruct a; [done | done | lia]. Qed.

Lemma trailing_zeros_double a : 0 < a -> trailing_zeros (2 * a) = 1 + trailing_zeros a.
Proof. intros. destruct a; [lia | done | lia]. Qed.

Lemma trailing_zeros_spec l a :
  0 <= l -> 0 <= a -> trailing_zeros (2 ^ l * (2 * a + 1)) = l.
Proof.
  intros Hl Ha. revert l Hl. apply natlike_ind.
  - rewrite Z.mul_1_l. by apply trailing_zeros_odd.
  - intros l Hl IH. rewrite <- Z.add_1_r, pow2_S by lia.
    replace (2 * 2 ^ l * (2 * a + 1)) with (2 * (2 ^ l * (2 * a + 1))) by lia.
    pose proof (pow2_pos l Hl). rewrite trailing_zeros_double by nia. lia.
Qed.

(** Every positive number is a power of two times an odd number. *)
Lemma odd_part_ex n :
  0 < n -> exists l a, 0 <= l /\ 0 <= a /\ n = 2 ^ l * (2 * a + 1).
Proof.
  intros Hn. destruct n as [|p|p]; try lia. clear Hn.
  induction p as [p _|p (l & a & Hl & Ha & E)|].
  - exists 0, (Zpos p). split_and!; lia.
  - exists (l + 1), a. rewrite pow2_S by lia. split_and!; lia.
  - exists 0, 0. split_and!; lia.
Qed.

(** ** count_ones *)

Lemma count_ones_nonneg a : 0 <= count_ones a.
Proof. destruct a; simpl; try lia. induction p; simpl; lia. Qed.

Lemma count_ones_double a : count_ones (2 * a) = count_ones a.
Proof. by destruct a. Qed.

Lemma count_ones_odd a : 0 <= a -> count_ones (2 * a + 1) = 1 + count_ones a.
Proof. intros. destruct a; [done | done | lia]. Qed.

Lemma count_ones_shift a n : 0 <= n -> count_ones (a * 2 ^ n) = count_ones a.
Proof.
  intros Hn. revert n Hn. apply natlike_ind.
  - f_equal; lia.
  - intros n Hn IH. rewrite <- Z.add_1_r, pow2_S by lia.
    replace (a * (2 * 2 ^ n)) with (2 * (a * 2 ^ n)) by lia.
    by rewrite count_ones_double.
Qed.

Lemma count_ones_div2 a : 0 <= a -> count_ones a = count_ones (a / 2) + a mod 2.
Proof.
  intros Ha. pose proof (Z.div_mod a 2 ltac:(lia)).
  pose proof (Z.mod_pos_bound a 2 ltac:(lia)).
  assert (0 <= a / 2) by (apply Z.div_pos; lia).
  destruct (Z.eq_dec (a mod 2) 0) as [E|E].
  - rewrite E in *. replace a with (2 * (a / 2)) at 1 by lia.
    rewrite count_ones_double. lia.
  - replace a with (2 * (a / 2) + 1) at 1 by lia. rewrite count_ones_odd by lia. lia.
Qed.

Lemma count_ones_le a : 0 <= a -> count_ones a <= a.
Proof.
  intros Ha. destruct a as [|p|p]; [done | | lia]. clear Ha.
  cbn [count_ones]. induction p; cbn [pos_count_ones]; lia.
Qed.

Lemma count_ones_0 a : 0 <= a -> count_ones a = 0 -> a = 0.
Proof.
  intros Ha. destruct a as [|p|p]; [done | | lia]. intros H. exfalso. clear Ha.
  cbn [count_ones] in H.
  induction p; cbn [pos_count_ones] in H; try lia.
  pose proof (count_ones_nonneg (Zpos p)). simpl in *. lia.
Qed.

(** ** leading_zeros *)

Lemma leading_zeros_log2 a : 0 < a -> leading_zeros a = 63 - Z.log2 a.
Proof. intros. unfold leading_zeros. destruct (Z.eqb_spec a 0); lia. Qed.

Create Rewrite HintDb testbit.
#[export] Hint Rewrite wrap64_testbit u64_not_testbit u64_shl_testbit u64_shr_testbit
  Z.land_spec Z.lor_spec Z.lxor_spec Z.bits_0 pow2_testbit
  using (first [assumption | unfold in_u64 in *; lia]) : testbit.

Lemma count_ones_top (m : nat) q : 0 <= q < 2 ^ Z.of_nat m ->
  count_ones (2 ^ Z.of_nat m + q) = 1 + count_ones q.
Proof.
  revert q. induction m as [|m IH]; intros q Hq.
  { replace q with 0 by (simpl in Hq; lia). done. }
  rewrite Nat2Z.inj_succ, <- Z.add_1_r, pow2_S in * by lia.
  rewrite (count_ones_div2 (_ + q)), (count_ones_div2 q) by lia.
  replace (2 * 2 ^ Z.of_nat m + q) with (q + 2 ^ Z.of_nat m * 2) by lia.
  pose proof (Z.div_mod q 2 ltac:(lia)). pose proof (Z.mod_pos_bound q 2 ltac:(lia)).
  rewrite Z.div_add, Z.mod_add, (Z.add_comm (q / 2)), IH by lia. lia.
Qed.

(** ** Doubling *)

Lemma trailing_zeros_nonneg a : 0 <= trailing_zeros a.
Proof. destruct a; simpl; [lia|apply pos_trailing_zeros_nonneg|lia]. Qed.

(** The number of carries of [n + 1]. *)
Lemma trailing_ones_even a : 0 <= a < 2 ^ 63 -> trailing_zeros (~. (2 * a)%Z)%u64 = 0.
Proof.
  intros. unfold u64_not. rewrite <- (trailing_zeros_odd (2 ^ 63 - 1 - a)) by lia.
  f_equal. lia.
Qed.

Lemma trailing_ones_odd a : 0 <= a < 2 ^ 63 - 1 ->
  trailing_zeros (~. (2 * a + 1)%Z)%u64 = 1 + trailing_zeros (~. a)%u64.
Proof.
  intros Ha. unfold u64_not.
  destruct (odd_part_ex (2 ^ 63 - 1 - a)) as (l & b & Hl & Hb & E); [lia|].
  assert (l < 63).
  { apply Z.pow_lt_mono_r_iff with 2; [lia..|]. pose proof (pow2_pos l Hl). nia. }
  replace (u64_max - (2 * a + 1)) with (2 * (2 ^ 63 - 1 - a)) by lia.
  rewrite trailing_zeros_double, E, trailing_zeros_spec by lia. f_equal.
  rewrite <- (trailing_zeros_spec l (b + 2 ^ (62 - l))).
  - f_equal. pose proof (pow2_split l 62 ltac:(lia)). lia.
  - lia.
  - pose proof (pow2_pos (62 - l)). lia.
Qed.

Lemma land_double a b : Z.land (2 * a) (2 * b) = 2 * Z.land a b.
Proof. rewrite !(Z.mul_comm 2), <- !(Z.shiftl_mul_pow2 _ 1) by lia. by rewrite Z.shiftl_land. Qed.

Lemma lxor_1_even a : Z.lxor (2 * a) 1 = 2 * a + 1.
Proof. by destruct a as [|[]|[]]. Qed.

Lemma lxor_1_odd a : Z.lxor (2 * a + 1) 1 = 2 * a.
Proof. rewrite <- lxor_1_even, Z.lxor_assoc, Z.lxor_nilpotent. apply Z.lxor_0_r. Qed.
