(* ===== verification/Positions.v ===== *)
(** * Positions in a binary Merkle tree (types/src/proof/position/mod.rs)

    A [Position.t] is the in-order number of a node. Module [Position] holds
    the methods of [Position] and the free helper functions of the file;
    Modules [AncestorSiblingIterator], [AncestorIterator],
    [FrozenSubTreeIterator] and [FrozenSubtreeSiblingIterator] the iterators.

    The proofs go through [node l p], the in-order number of the [p]-th node
    of level [l]: every number below [u64::MAX] is [node l p] for exactly one
    pair, and each bit trick of the source is an operation on that pair. *)
From stdpp Require Import prelude strings.
From Stdlib Require Import ZArith Lia Btauto.
From S2P Require Import Prelude Bits.

(** [LeafCount = u64], [MAX_ACCUMULATOR_PROOF_DEPTH], [MAX_ACCUMULATOR_LEAVES]
    of types/src/proof/definition.rs *)
Definition MAX_ACCUMULATOR_PROOF_DEPTH : Z := 63.
Definition MAX_ACCUMULATOR_LEAVES : Z := (1 << MAX_ACCUMULATOR_PROOF_DEPTH)%u64.

Module Position.

Record t := mk { inorder : Z }.

#[global] Instance t_eq_dec : EqDecision t.
Proof. solve_decision. Defined.

Inductive NodeDirection := Left | Right.

(** ** Bit helpers *)

(** [fn smear_ones_for_u64] *)
Definition smear_ones_for_u64 (v : Z) : Z :=
  (let n := v in
   let n := n .| (n >> 1) in
   let n := n .| (n >> 2) in
   let n := n .| (n >> 4) in
   let n := n .| (n >> 8) in
   let n := n .| (n >> 16) in
   n .| (n >> 32))%u64.

(** [fn turn_off_right_most_n_bits] *)
Definition turn_off_right_most_n_bits (v n : Z) : Z := ((v >> n) << n)%u64.

(** [fn isolate_rightmost_zero_bit] *)
Definition isolate_rightmost_zero_bit (v : Z) : Z := ((~. v) .& (v + 1))%u64.

(** ** Methods *)

Definition level (self : t) : Z := trailing_zeros (~. inorder self)%u64.

Definition is_leaf (self : t) : bool := (inorder self .& 1)%u64 =? 0.

Definition from_level_and_pos (level pos : Z) : t :=
  let level_one_bits := ((1 << level) - 1)%u64 in
  let shifted_pos := if level =? 63 then 0 else (pos << u32_add level 1)%u64 in
  mk (shifted_pos .| level_one_bits)%u64.

Definition from_inorder_index (index : Z) : t := mk index.

Definition to_inorder_index (self : t) : Z := inorder self.

Definition parent (self : t) : t :=
  mk ((inorder self .| isolate_rightmost_zero_bit (inorder self))
        .& ~. (isolate_rightmost_zero_bit (inorder self) << 1))%u64.

Definition child (self : t) (dir : NodeDirection) : t :=
  let direction_bit :=
    match dir with
    | Left => 0
    | Right => isolate_rightmost_zero_bit (inorder self)
    end in
  mk ((inorder self .| direction_bit)
        .& ~. (isolate_rightmost_zero_bit (inorder self) >> 1))%u64.

(** [checked_precondition!] is an [assert!]: on a leaf the call panics. *)
Definition left_child {E} (self : t) : outcome E t :=
  assert_ (negb (is_leaf self)) ;; Ok (child self Left).

Definition right_child {E} (self : t) : outcome E t :=
  assert_ (negb (is_leaf self)) ;; Ok (child self Right).

Definition is_left_child (self : t) : bool :=
  (inorder self .& (isolate_rightmost_zero_bit (inorder self) << 1))%u64 =? 0.

Definition is_right_child (self : t) : bool := negb (is_left_child self).

Definition from_leaf_index (leaf_index : Z) : t := from_level_and_pos 0 leaf_index.

Definition sibling (self : t) : t :=
  mk (inorder self .^ (isolate_rightmost_zero_bit (inorder self) << 1))%u64.

Definition root_from_leaf_index (leaf_index : Z) : t :=
  let leaf := from_leaf_index leaf_index in
  mk (smear_ones_for_u64 (inorder leaf) >> 1)%u64.

Definition root_from_leaf_count {E} (leaf_count : Z) : outcome E t :=
  assert_ (0 <? leaf_count) ;; Ok (root_from_leaf_index (leaf_count - 1)%u64).

Definition root_level_from_leaf_count {E} (leaf_count : Z) : outcome E Z :=
  assert_ (0 <? leaf_count) ;;
  let index := (leaf_count - 1)%u64 in
  Ok (MAX_ACCUMULATOR_PROOF_DEPTH + 1 - leading_zeros index).

Definition right_most_child (self : t) : t :=
  let level := level self in
  mk ((inorder self + (1 << level)) - 1)%u64.

Definition left_most_child (self : t) : t :=
  let level := level self in
  mk (turn_off_right_most_n_bits (inorder self) level).

Definition is_freezable (self : t) (leaf_index : Z) : bool :=
  let leaf := from_leaf_index leaf_index in
  let right_most_child := right_most_child self in
  inorder right_most_child <=? inorder leaf.

Definition is_placeholder (self : t) (leaf_index : Z) : bool :=
  let leaf := from_leaf_index leaf_index in
  if inorder self <=? inorder leaf then false
  else if inorder (left_most_child self) <=? inorder leaf then false
  else true.

(** ** Post-order numbering *)

(** [fn children_of_node] *)
Definition children_of_node (node : Z) : Z :=
  ((isolate_rightmost_zero_bit node << 1) - 2)%u64.

(** [fn nodes_to_left_of] *)
Definition nodes_to_left_of (node : Z) : Z :=
  let ones_up_to_level := (isolate_rightmost_zero_bit node - 1)%u64 in
  let unset_level_zeros := (node .^ ones_up_to_level)%u64 in
  (unset_level_zeros - count_ones unset_level_zeros)%u64.

Definition inorder_to_postorder (node : Z) : Z :=
  let children := children_of_node node in
  let left_nodes := nodes_to_left_of node in
  (children + left_nodes)%u64.

(** The loop [for i in (0..64).rev()]: [n] iterations left, [i = n - 1]. *)
Fixpoint postorder_loop (n : nat) (node full_binary_size bitmap : Z) : Z * Z :=
  match n with
  | O => (node, bitmap)
  | S i =>
      let '(node, bitmap) :=
        if full_binary_size <=? node
        then ((node - full_binary_size)%u64, (bitmap .| (1 << Z.of_nat i))%u64)
        else (node, bitmap) in
      postorder_loop i node (full_binary_size >> 1)%u64 bitmap
  end.

Definition postorder_to_inorder (node : Z) : Z :=
  let '(node, bitmap) := postorder_loop 64 node (~. 0)%u64 0 in
  let level := node mod 2 ^ 32 in
  let pos := (bitmap >> level)%u64 in
  to_inorder_index (from_level_and_pos level pos).

Definition from_postorder_index (index : Z) : outcome string t :=
  ensure (index <? ~. 0)%u64 "node index is invalid (equal to 2^64 - 1)"%string ;;
  Ok (mk (postorder_to_inorder index)).

Definition to_postorder_index (self : t) : Z :=
  inorder_to_postorder (to_inorder_index self).

End Position.

(** [iter.take(n).collect()] on an iterator that never ends. *)
Fixpoint iter_take {St A} (next : St -> A * St) (n : nat) (st : St) : list A :=
  match n with
  | O => []
  | S n => let '(a, st') := next st in a :: iter_take next n st'
  end.

(** [iter.collect()] on an iterator that may end; [n] bounds the number of
    items taken. *)
Fixpoint iter_collect {St A} (next : St -> option (A * St)) (n : nat) (st : St) : list A :=
  match n with
  | O => []
  | S n => match next st with None => [] | Some (a, st') => a :: iter_collect next n st' end
  end.

Module AncestorSiblingIterator.
Definition next (position : Position.t) : Position.t * Position.t :=
  let current_sibling_position := Position.sibling position in
  (current_sibling_position, Position.parent position).
End AncestorSiblingIterator.

Module AncestorIterator.
Definition next (position : Position.t) : Position.t * Position.t :=
  (position, Position.parent position).
End AncestorIterator.

Module FrozenSubTreeIterator.

Record t := mk { bitmap : Z; seen_leaves : Z }.

Definition new (num_leaves : Z) : t := mk num_leaves 0.

Definition next (self : t) : option (Position.t * t) :=
  if bitmap self =? 0 then None
  else
    let root_offset := (Position.smear_ones_for_u64 (bitmap self) >> 1)%u64 in
    let num_leaves := (root_offset + 1)%u64 in
    let leftmost_leaf := Position.from_leaf_index (seen_leaves self) in
    let root := Position.from_inorder_index
                  (Position.to_inorder_index leftmost_leaf + root_offset)%u64 in
    Some (root, mk (bitmap self .& ~. num_leaves)%u64 (seen_leaves self + num_leaves)%u64).

(** At most 64 items: one per set bit of [num_leaves]. *)
Definition positions (num_leaves : Z) : list Position.t :=
  iter_collect next 64 (new num_leaves).

End FrozenSubTreeIterator.

Module FrozenSubtreeSiblingIterator.

Record t := mk { current_num_leaves : Z; remaining_new_leaves : Z }.

Definition new {E} (current_num_leaves new_num_leaves : Z) : outcome E t :=
  assert_ (new_num_leaves <=? MAX_ACCUMULATOR_LEAVES) ;;
  assert_ (current_num_leaves <=? new_num_leaves) ;;
  Ok (mk current_num_leaves (new_num_leaves - current_num_leaves)%u64).

Definition next_new_leaf_batch (self : t) : Z :=
  let zeros := leading_zeros (remaining_new_leaves self) in
  (1 << (MAX_ACCUMULATOR_PROOF_DEPTH - zeros))%u64.

Definition next (self : t) : option (Position.t * t) :=
  if remaining_new_leaves self =? 0 then None
  else
    let next_subtree_leaves :=
      if 0 <? current_num_leaves self then
        let rightmost_frozen_subtree_leaves :=
          (1 << trailing_zeros (current_num_leaves self))%u64 in
        if rightmost_frozen_subtree_leaves <=? remaining_new_leaves self
        then rightmost_frozen_subtree_leaves
        else next_new_leaf_batch self
      else next_new_leaf_batch self in
    let first_leaf_index := current_num_leaves self in
    let last_leaf_index := ((first_leaf_index + next_subtree_leaves) - 1)%u64 in
    Some (Position.from_inorder_index (first_leaf_index + last_leaf_index)%u64,
          mk (current_num_leaves self + next_subtree_leaves)%u64
             (remaining_new_leaves self - next_subtree_leaves)%u64).

(** At most 128 items: the subtree sizes first grow, then shrink. *)
Definition positions (self : t) : list Position.t := iter_collect next 128 self.

End FrozenSubtreeSiblingIterator.

(** ** The node of a level

    [node l p] is the in-order number of the [p]-th node (from the left) of
    level [l]; [valid l p] says that it fits the 64-bit tree. *)
Definition node (l p : Z) : Z := p * 2 ^ (l + 1) + 2 ^ l - 1.

Definition valid (l p : Z) : Prop := 0 <= l <= 63 /\ 0 <= p < 2 ^ (63 - l).

Lemma node_lor l p : 0 <= l -> node l p = Z.lor (Z.shiftl p (l + 1)) (Z.ones l).
Proof.
  intros Hl. unfold node. rewrite Z.ones_equiv, <- Z.sub_1_r.
  rewrite <- Z.add_nocarry_lor; [rewrite Z.shiftl_mul_pow2 by lia; lia|].
  apply Z.bits_inj'. intros i Hi.
  rewrite Z.land_spec, Z.bits_0, Z.shiftl_spec by lia.
  change (Z.sub (2 ^ l) 1) with (Z.pred (2 ^ l)) || rewrite Z.sub_1_r.
  rewrite <- Z.ones_equiv.
  destruct (Z.lt_ge_cases i l).
  - rewrite testbit_neg_false by lia. done.
  - rewrite Z.ones_spec_high by lia. btauto.
Qed.

Lemma node_testbit l p i :
  0 <= l -> 0 <= i ->
  Z.testbit (node l p) i =
    if i <? l then true else if i =? l then false else Z.testbit p (i - (l + 1)).
Proof.
  intros. rewrite node_lor, Z.lor_spec, Z.shiftl_spec by lia.
  destruct (Z.ltb_spec i l).
  - rewrite Z.ones_spec_low by lia. btauto.
  - rewrite Z.ones_spec_high by lia. destruct (Z.eqb_spec i l).
    + rewrite testbit_neg_false by lia. done.
    + btauto.
Qed.

Lemma valid_pow l p : valid l p -> 2 ^ 64 = 2 ^ (63 - l) * 2 ^ (l + 1).
Proof. intros [? ?]. rewrite <- Z.pow_add_r by lia. f_equal; lia. Qed.

Lemma valid_bound l p : valid l p -> (p + 1) * 2 ^ (l + 1) <= 2 ^ 64.
Proof.
  intros H. rewrite (valid_pow l p H). destruct H. pose proof (pow2_pos (l + 1)).
  apply Z.mul_le_mono_nonneg_r; lia.
Qed.

Lemma node_range l p : valid l p -> 0 <= node l p < u64_max.
Proof.
  intros H. pose proof (valid_bound l p H). destruct H as [? ?].
  unfold node. rewrite pow2_S in * by lia. pose proof (pow2_pos l). nia.
Qed.

Lemma node_in_u64 l p : valid l p -> in_u64 (node l p).
Proof. intros H%node_range. red; lia. Qed.

Lemma node_succ l p : 0 <= l -> node l p + 1 = 2 ^ l * (2 * p + 1).
Proof. intros. unfold node. rewrite pow2_S by lia. lia. Qed.

(** The pair of a number below [u64::MAX]. *)
Lemma node_ex n : 0 <= n < u64_max -> exists l p, valid l p /\ n = node l p.
Proof.
  intros Hn. destruct (odd_part_ex (n + 1)) as (l & p & Hl & Hp & E); [lia|].
  exists l, p. pose proof (pow2_pos l Hl).
  assert (Hl' : l <= 63).
  { destruct (Z.le_gt_cases l 63); [done|].
    pose proof (Z.pow_le_mono_r 2 64 l ltac:(lia) ltac:(lia)). nia. }
  split; [|pose proof (node_succ l p Hl); lia]. split; [lia|]. split; [lia|].
  pose proof (pow2_split (l + 1) 64 ltac:(lia)) as E2.
  replace (64 - (l + 1)) with (63 - l) in E2 by lia.
  rewrite pow2_S in E2 by lia.
  pose proof (pow2_pos (63 - l)). nia.
Qed.

Lemma node_inj l p l' p' : 0 <= l -> 0 <= l' -> 0 <= p -> 0 <= p' ->
  node l p = node l' p' -> l = l' /\ p = p'.
Proof.
  intros Hl Hl' Hp Hp' E.
  assert (E2 : 2 ^ l * (2 * p + 1) = 2 ^ l' * (2 * p' + 1)).
  { rewrite <- !node_succ by lia. lia. }
  assert (l = l') as <-.
  { rewrite <- (trailing_zeros_spec l p), <- (trailing_zeros_spec l' p') by lia.
    by rewrite E2. }
  pose proof (pow2_pos l Hl). split; [done|]. nia.
Qed.

(** ** The bit tricks on nodes *)

Ltac bit_cases :=
  repeat match goal with
  | |- context [?a <? ?b] => destruct (Z.ltb_spec a b)
  | |- context [?a =? ?b] => destruct (Z.eqb_spec a b)
  end; try lia; subst.

(** Equality of two words by their bits. *)
Ltac bitwise :=
  apply Z.bits_inj'; intros i Hi; autorewrite with testbit.

Lemma level_node l p : valid l p -> Position.level (Position.mk (node l p)) = l.
Proof.
  intros H. unfold Position.level, u64_not; simpl.
  pose proof (valid_pow l p H) as E. destruct H as [? ?].
  pose proof (node_succ l p ltac:(lia)) as E1. rewrite pow2_S in E by lia.
  replace (u64_max - node l p) with (2 ^ l * (2 * (2 ^ (63 - l) - p - 1) + 1)) by lia.
  apply trailing_zeros_spec; lia.
Qed.

Lemma isolate_node l p :
  valid l p -> Position.isolate_rightmost_zero_bit (node l p) = 2 ^ l.
Proof.
  intros H. unfold Position.isolate_rightmost_zero_bit.
  pose proof (node_range l p H). pose proof (node_in_u64 l p H).
  rewrite u64_add_small by lia. destruct H as [? ?].
  rewrite node_succ by lia. rewrite Z.mul_comm, <- Z.shiftl_mul_pow2 by lia.
  bitwise. rewrite Z.shiftl_spec, node_testbit by lia.
  bit_cases.
  - rewrite Z.sub_diag, Z.testbit_odd_0. done.
  - replace (i - l) with (Z.succ (i - (l + 1))) by lia.
    rewrite Z.testbit_odd_succ by lia. btauto.
Qed.

Lemma shl_pow2 l : 0 <= l < 63 -> (2 ^ l << 1)%u64 = 2 ^ (l + 1).
Proof.
  intros. rewrite u64_shl_small; [rewrite pow2_S by lia; lia | lia | |].
  - pose proof (pow2_pos l); lia.
  - pose proof (Z.pow_le_mono_r 2 l 62). lia.
Qed.

Lemma pow2_in_u64 l : 0 <= l <= 63 -> in_u64 (2 ^ l).
Proof.
  intros. pose proof (pow2_pos l). pose proof (Z.pow_le_mono_r 2 l 63). red; lia.
Qed.

Lemma half_testbit p i : 0 <= i -> Z.testbit (p / 2) i = Z.testbit p (i + 1).
Proof. intros. change 2 with (2 ^ 1). by rewrite Z.div_pow2_bits by lia. Qed.

Lemma valid_parent l p : valid l p -> l < 63 -> valid (l + 1) (p / 2).
Proof.
  intros [? [? ?]] ?. split; [lia|].
  replace (63 - l) with (63 - (l + 1) + 1) in * by lia.
  rewrite pow2_S in * by lia. split; [apply Z.div_pos; lia|].
  apply Z.div_lt_upper_bound; lia.
Qed.

Lemma parent_node l p : valid l p -> l < 63 ->
  Position.parent (Position.mk (node l p)) = Position.mk (node (l + 1) (p / 2)).
Proof.
  intros H Hl. unfold Position.parent; simpl. f_equal.
  pose proof (node_in_u64 l p H). rewrite isolate_node by done.
  destruct H as [? ?]. rewrite shl_pow2 by lia.
  pose proof (pow2_in_u64 (l + 1) ltac:(lia)).
  pose proof (node_range (l + 1) (p / 2) (valid_parent l p ltac:(by split) Hl)).
  bitwise. rewrite !node_testbit by lia. bit_cases; try done.
  - rewrite half_testbit by lia. replace (i - (l + 1 + 1) + 1) with (i - (l + 1)) by lia. btauto.
  - rewrite half_testbit, andb_false_l, andb_false_r by lia. symmetry.
    apply testbit_small with (63 - l); lia.
Qed.

Lemma sibling_node l p : valid l p -> l < 63 ->
  Position.sibling (Position.mk (node l p)) = Position.mk (node l (Z.lxor p 1)).
Proof.
  intros H Hl. unfold Position.sibling; simpl. f_equal.
  rewrite isolate_node by done. destruct H as [? ?]. rewrite shl_pow2 by lia.
  bitwise. rewrite !node_testbit, Z.lxor_spec by lia. bit_cases; try done.
  - by rewrite Z.sub_diag.
  - rewrite one_testbit by lia. bit_cases. done.
Qed.

Lemma is_left_child_node l p : valid l p -> l < 63 ->
  Position.is_left_child (Position.mk (node l p)) = Z.even p.
Proof.
  intros H Hl. unfold Position.is_left_child; simpl. rewrite isolate_node by done.
  destruct H as [? ?]. rewrite shl_pow2 by lia.
  assert (Z.land (node l p) (2 ^ (l + 1)) = if Z.even p then 0 else 2 ^ (l + 1)) as ->.
  { bitwise. rewrite node_testbit by lia.
    assert (E : Z.even p = negb (Z.testbit p 0)) by (rewrite Z.bit0_odd, Z.negb_odd; done).
    destruct (Z.even p) eqn:Ev; autorewrite with testbit; bit_cases; try btauto.
    - rewrite Z.sub_diag. destruct (Z.testbit p 0); [done|by rewrite andb_false_l].
    - rewrite Z.sub_diag. destruct (Z.testbit p 0); done. }
  destruct (Z.even p); [done|]. pose proof (pow2_pos (l + 1)).
  destruct (Z.eqb_spec (2 ^ (l + 1)) 0); lia.
Qed.

Lemma valid_child l p q : valid (l + 1) p -> 0 <= l -> q = 2 * p \/ q = 2 * p + 1 -> valid l q.
Proof.
  intros [? [? ?]] ? ?. split; [lia|].
  replace (63 - l) with (63 - (l + 1) + 1) in * by lia. rewrite pow2_S in * by lia. lia.
Qed.

Lemma child_node l p dir : valid (l + 1) p -> 0 <= l ->
  Position.child (Position.mk (node (l + 1) p)) dir =
  Position.mk (node l (match dir with Position.Left => 2 * p | Position.Right => 2 * p + 1 end)).
Proof.
  intros H Hl. unfold Position.child; simpl. f_equal.
  pose proof (node_in_u64 _ _ H) as Hr. rewrite isolate_node by done.
  assert (Hs : (2 ^ (l + 1) >> 1)%u64 = 2 ^ l).
  { rewrite u64_shr_div, pow2_S by (destruct H; lia). change (2 ^ 1) with 2.
    rewrite Z.mul_comm, Z.div_mul; lia. }
  rewrite Hs. pose proof (pow2_in_u64 l ltac:(destruct H; lia)).
  set (b := match dir with Position.Left => false | Position.Right => true end).
  assert (Hq : (match dir with Position.Left => 2 * p | Position.Right => 2 * p + 1 end)
               = 2 * p + Z.b2z b) by (destruct dir; simpl; lia).
  assert (Hd : (match dir with Position.Left => 0 | Position.Right => 2 ^ (l + 1) end)
               = if b then 2 ^ (l + 1) else 0) by (destruct dir; done).
  rewrite Hq, Hd. destruct H as [? ?]. bitwise.
  rewrite !node_testbit, double_testbit by lia.
  assert (Hb : Z.testbit (if b then 2 ^ (l + 1) else 0) i = b && (i =? l + 1)).
  { destruct b; autorewrite with testbit; done. }
  rewrite Hb. bit_cases; try (destruct b; done).
  - replace (i - (l + 1) - 1) with (i - (l + 1 + 1)) by lia. destruct b; btauto.
  - replace (i - (l + 1) - 1) with (i - (l + 1 + 1)) by lia.
    rewrite (testbit_small p (63 - (l + 1))) by lia. destruct b; done.
Qed.

Lemma is_leaf_node l p : 0 <= l -> Position.is_leaf (Position.mk (node l p)) = (l =? 0).
Proof.
  intros. unfold Position.is_leaf; simpl.
  assert (E : Z.land (node l p) 1 = if l =? 0 then 0 else 1).
  { destruct (Z.eqb_spec l 0) as [->|]; bitwise; rewrite node_testbit, one_testbit by lia;
      bit_cases; btauto. }
  rewrite E. by destruct (l =? 0).
Qed.

Lemma from_level_and_pos_node l p :
  valid l p -> Position.from_level_and_pos l p = Position.mk (node l p).
Proof.
  intros H. unfold Position.from_level_and_pos. f_equal. rewrite node_lor by (destruct H; lia).
  pose proof (valid_bound l p H) as Hb. destruct H as [? ?].
  pose proof (pow2_in_u64 l ltac:(lia)) as [? ?]. pose proof (pow2_pos l).
  f_equal.
  - destruct (Z.eqb_spec l 63) as [->|].
    + assert (2 ^ (63 - 63) = 1) by done. assert (p = 0) as -> by lia. done.
    + pose proof (pow2_pos (l + 1)).
      rewrite u32_add_small, u64_shl_small, Z.shiftl_mul_pow2 by lia. done.
  - rewrite u64_shl_small, u64_sub_small by lia. rewrite Z.ones_equiv. lia.
Qed.

Lemma from_leaf_index_node i :
  0 <= i < 2 ^ 63 -> Position.from_leaf_index i = Position.mk (2 * i).
Proof.
  intros. unfold Position.from_leaf_index. rewrite from_level_and_pos_node by (split; lia).
  unfold node. simpl. f_equal. lia.
Qed.

Lemma from_leaf_index_valid i : 0 <= i < 2 ^ 63 -> valid 0 i.
Proof. intros. split; lia. Qed.

Lemma node_0 p : node 0 p = 2 * p.
Proof. unfold node. simpl. lia. Qed.

Lemma right_most_child_node l p : valid l p ->
  Position.right_most_child (Position.mk (node l p)) = Position.mk (node 0 ((p + 1) * 2 ^ l - 1)).
Proof.
  intros H. unfold Position.right_most_child. rewrite level_node by done. simpl. f_equal.
  pose proof (valid_bound l p H). pose proof (node_range l p H). destruct H as [? ?].
  pose proof (pow2_in_u64 l ltac:(lia)) as [? ?]. pose proof (pow2_pos l).
  rewrite node_0, u64_shl_small by lia. rewrite pow2_S in * by lia.
  assert (node l p + 2 ^ l = 2 * ((p + 1) * 2 ^ l) - 1) by (unfold node; rewrite pow2_S; lia).
  rewrite u64_add_small, u64_sub_small by lia. lia.
Qed.

Lemma left_most_child_node l p : valid l p ->
  Position.left_most_child (Position.mk (node l p)) = Position.mk (node 0 (p * 2 ^ l)).
Proof.
  intros H. unfold Position.left_most_child, Position.turn_off_right_most_n_bits.
  rewrite level_node by done. simpl. f_equal.
  pose proof (valid_bound l p H). pose proof (node_range l p H). destruct H as [? ?].
  pose proof (pow2_pos l ltac:(lia)). rewrite u64_shr_div by lia.
  assert (node l p / 2 ^ l = 2 * p) as ->.
  { symmetry. apply Z.div_unique with (2 ^ l - 1); [lia|].
    unfold node. rewrite pow2_S by lia. lia. }
  rewrite pow2_S in * by lia. rewrite node_0, u64_shl_small by lia. lia.
Qed.

(** A node is freezable when its subtree is full: the last leaf below it is
    not beyond the last leaf of the accumulator. *)
Lemma is_freezable_node l p i : valid l p -> 0 <= i < 2 ^ 63 ->
  Position.is_freezable (Position.mk (node l p)) i = ((p + 1) * 2 ^ l <=? i + 1).
Proof.
  intros H Hi. unfold Position.is_freezable.
  rewrite right_most_child_node, from_leaf_index_node by done. simpl. rewrite node_0.
  destruct (Z.leb_spec ((p + 1) * 2 ^ l) (i + 1)); [apply Z.leb_le | apply Z.leb_gt]; lia.
Qed.

(** A node is a placeholder when no leaf of the accumulator is below it. *)
Lemma is_placeholder_node l p i : valid l p -> 0 <= i < 2 ^ 63 ->
  Position.is_placeholder (Position.mk (node l p)) i = (i <? p * 2 ^ l).
Proof.
  intros H Hi. unfold Position.is_placeholder.
  rewrite left_most_child_node, from_leaf_index_node by done. simpl. rewrite node_0.
  pose proof (pow2_pos l ltac:(destruct H; lia)).
  assert (2 * (p * 2 ^ l) <= node l p).
  { unfold node. destruct H. rewrite pow2_S by lia. lia. }
  destruct (Z.leb_spec (node l p) (2 * i)); [symmetry; apply Z.ltb_ge; lia|].
  destruct (Z.leb_spec (2 * (p * 2 ^ l)) (2 * i)); [symmetry; apply Z.ltb_ge; lia|].
  symmetry; apply Z.ltb_lt; lia.
Qed.

(** ** Smearing and roots *)

(** The [k] bits up to bit [m] are set and no bit above [m] is. *)
Definition top_set (n m k : Z) : Prop :=
  (forall i, 0 <= i -> m - k < i <= m -> Z.testbit n i = true) /\
  (forall i, m < i -> Z.testbit n i = false).

Lemma top_set_smear n m k :
  0 <= m -> 0 < k < 64 -> top_set n m k -> top_set (n .| (n >> k))%u64 m (2 * k).
Proof.
  intros Hm Hk [H1 H2]. split; intros i.
  - intros Hi Hr. autorewrite with testbit. destruct (Z.lt_ge_cases (m - k) i).
    + rewrite H1 by lia. done.
    + rewrite (H1 (i + k)) by lia. btauto.
  - intros Hr. autorewrite with testbit. rewrite !H2 by lia. done.
Qed.

Lemma smear_ones v : 0 < v <= u64_max ->
  Position.smear_ones_for_u64 v = 2 ^ (Z.log2 v + 1) - 1.
Proof.
  intros Hv. set (m := Z.log2 v). pose proof (Z.log2_nonneg v).
  assert (m < 64) by (apply Z.log2_lt_pow2; lia).
  assert (H1 : top_set v m 1).
  { split; intros i; intros; [|apply Z.bits_above_log2; lia].
    replace i with m by lia. apply Z.bit_log2; lia. }
  assert (Ht : top_set (Position.smear_ones_for_u64 v) m 64).
  { unfold Position.smear_ones_for_u64.
    do 6 (apply top_set_smear in H1; [|lia|lia]). exact H1. }
  destruct Ht as [Ha Hb].
  replace (2 ^ (m + 1) - 1) with (Z.ones (m + 1)) by (rewrite Z.ones_equiv; lia).
  apply Z.bits_inj'. intros i Hi. destruct (Z.le_gt_cases i m).
  - rewrite Ha, Z.ones_spec_low by lia. done.
  - rewrite Hb, Z.ones_spec_high by lia. done.
Qed.

Lemma smear_half v : 0 < v <= u64_max ->
  (Position.smear_ones_for_u64 v >> 1)%u64 = 2 ^ Z.log2 v - 1.
Proof.
  intros Hv. rewrite smear_ones, u64_shr_div by lia. pose proof (Z.log2_nonneg v).
  rewrite pow2_S by lia. symmetry. apply Z.div_unique with 1; lia.
Qed.

(** The number of levels above the leaves in a tree of [n] leaves. *)
Definition depth (n : Z) : Z := Z.log2_up n.

Lemma depth_range n : 0 < n <= 2 ^ 63 -> 0 <= depth n <= 63.
Proof.
  intros. unfold depth. split; [apply Z.log2_up_nonneg|].
  rewrite <- (Z.log2_up_pow2 63) by lia. apply Z.log2_up_le_mono; lia.
Qed.

Lemma depth_bound n : 0 < n -> n <= 2 ^ depth n.
Proof.
  intros. unfold depth. destruct (Z.eq_dec n 1) as [->|]; [done|].
  pose proof (Z.log2_up_spec n). lia.
Qed.

Lemma root_from_leaf_index_node i : 0 <= i < 2 ^ 63 ->
  Position.root_from_leaf_index i = Position.mk (node (depth (i + 1)) 0).
Proof.
  intros. unfold Position.root_from_leaf_index. rewrite from_leaf_index_node by done. simpl.
  f_equal. destruct (Z.eq_dec i 0) as [->|]; [done|].
  rewrite smear_half by lia. unfold node, depth. rewrite Z.log2_up_eqn by lia.
  replace (Z.pred (i + 1)) with i by lia. rewrite Z.log2_double by lia. lia.
Qed.

Lemma root_from_leaf_count_node {E} n : 0 < n <= 2 ^ 63 ->
  Position.root_from_leaf_count (E := E) n = Ok (Position.mk (node (depth n) 0)).
Proof.
  intros. unfold Position.root_from_leaf_count.
  destruct (Z.ltb_spec 0 n); [|lia]. simpl. rewrite u64_sub_small by lia.
  rewrite root_from_leaf_index_node by lia. do 4 f_equal. lia.
Qed.

Lemma root_level_from_leaf_count_depth {E} n : 0 < n <= 2 ^ 63 ->
  Position.root_level_from_leaf_count (E := E) n = Ok (depth n).
Proof.
  intros. unfold Position.root_level_from_leaf_count.
  destruct (Z.ltb_spec 0 n); [|lia]. simpl. rewrite u64_sub_small by lia. f_equal.
  unfold MAX_ACCUMULATOR_PROOF_DEPTH, depth. destruct (Z.eq_dec n 1) as [->|]; [done|].
  rewrite leading_zeros_log2, Z.log2_up_eqn by lia. replace (Z.pred n) with (n - 1) by lia. lia.
Qed.

Lemma valid_root n : 0 < n <= 2 ^ 63 -> valid (depth n) 0.
Proof.
  intros. pose proof (depth_range n ltac:(lia)). split; [lia|].
  pose proof (pow2_pos (63 - depth n)). lia.
Qed.

(** ** Post-order numbers *)

(** The post-order number of the [p]-th node of level [l]: all the nodes
    over the leaves to its left, then its own descendants. *)
Definition postorder (l p : Z) : Z := (p + 1) * 2 ^ (l + 1) - 2 - count_ones p.

Lemma postorder_nonneg l p : 0 <= l -> 0 <= p -> 0 <= postorder l p.
Proof.
  intros. unfold postorder. pose proof (count_ones_le p ltac:(lia)).
  rewrite pow2_S by lia. pose proof (pow2_pos l). nia.
Qed.

Lemma postorder_range l p : valid l p -> 0 <= postorder l p < u64_max.
Proof.
  intros H. pose proof (valid_bound l p H). destruct H as [? ?]. unfold postorder.
  pose proof (count_ones_le p). pose proof (count_ones_nonneg p).
  rewrite pow2_S in * by lia. pose proof (pow2_pos l). nia.
Qed.

Lemma inorder_to_postorder_node l p :
  valid l p -> Position.inorder_to_postorder (node l p) = postorder l p.
Proof.
  intros H. unfold Position.inorder_to_postorder.
  pose proof (valid_bound l p H) as Hb. pose proof (postorder_range l p H) as Hr.
  assert (Hc : Position.children_of_node (node l p) = 2 ^ (l + 1) - 2).
  { unfold Position.children_of_node. rewrite isolate_node by done. destruct H as [? ?].
    destruct (Z.eq_dec l 63) as [->|]; [done|].
    pose proof (pow2_S l). pose proof (pow2_pos l). pose proof (pow2_in_u64 (l + 1) ltac:(lia)) as [? ?].
    rewrite shl_pow2, u64_sub_small; lia. }
  assert (Hl : Position.nodes_to_left_of (node l p) = p * 2 ^ (l + 1) - count_ones p).
  { unfold Position.nodes_to_left_of. rewrite isolate_node by done. destruct H as [? ?].
    pose proof (pow2_in_u64 l ltac:(lia)) as [? ?]. pose proof (pow2_pos l).
    rewrite (u64_sub_small (2 ^ l) 1) by lia.
    assert (Z.lxor (node l p) (2 ^ l - 1) = p * 2 ^ (l + 1)) as ->.
    { rewrite <- Z.shiftl_mul_pow2 by lia.
      replace (2 ^ l - 1) with (Z.ones l) by (rewrite Z.ones_equiv; lia).
      bitwise. rewrite node_testbit, Z.shiftl_spec, Z.testbit_ones_nonneg by lia.
      bit_cases; try done; rewrite ?testbit_neg_false by lia; btauto. }
    rewrite count_ones_shift by lia. pose proof (count_ones_le p).
    pose proof (count_ones_nonneg p). rewrite pow2_S in * by lia.
    apply u64_sub_small; nia. }
  rewrite Hc, Hl. unfold postorder in *. pose proof (count_ones_le p).
  destruct H as [? ?]. rewrite pow2_S in * by lia. pose proof (pow2_pos l).
  rewrite u64_add_small; nia.
Qed.

Lemma full_half n : 0 <= n < 64 -> ((2 ^ (n + 1) - 1)%Z >> 1)%u64 = 2 ^ n - 1.
Proof.
  intros. rewrite u64_shr_div, pow2_S by lia. change (2 ^ 1) with 2. symmetry.
  apply Z.div_unique with 1; lia.
Qed.

Lemma one_shl n : 0 <= n < 64 -> (1 << n)%u64 = 2 ^ n.
Proof.
  intros. pose proof (pow2_in_u64 n ltac:(lia)) as [? ?]. rewrite u64_shl_small; lia.
Qed.

(** Below the level of the node the loop subtracts at every step. *)
Lemma postorder_loop_low (n : nat) k bm : 0 <= k -> Z.of_nat n + k <= 63 ->
  Position.postorder_loop n (2 * (2 ^ Z.of_nat n - 1) + k) (2 ^ Z.of_nat n - 1) bm
  = (Z.of_nat n + k, Z.lor bm (Z.ones (Z.of_nat n))).
Proof.
  revert k bm. induction n as [|n IH]; intros k bm Hn Hk.
  { simpl. by rewrite Z.lor_0_r. }
  cbn [Position.postorder_loop]. rewrite Nat2Z.inj_succ, <- Z.add_1_r in *.
  pose proof (pow2_S (Z.of_nat n) ltac:(lia)). pose proof (pow2_pos (Z.of_nat n)).
  pose proof (pow2_in_u64 (Z.of_nat n + 1) ltac:(lia)) as [? ?].
  assert (2 * (2 ^ (Z.of_nat n + 1) - 1) + k <= u64_max).
  { pose proof (Z.pow_le_mono_r 2 (Z.of_nat n + 1) (63 - k) ltac:(lia) ltac:(lia)).
    destruct (Z.eq_dec k 0) as [->|]; [change (63 - 0) with 63 in *; lia|].
    pose proof (Z.pow_le_mono_r 2 (63 - k) 62). lia. }
  destruct (Z.leb_spec (2 ^ (Z.of_nat n + 1) - 1) (2 * (2 ^ (Z.of_nat n + 1) - 1) + k)); [|lia].
  rewrite full_half, one_shl, u64_sub_small by lia.
  replace (2 * (2 ^ (Z.of_nat n + 1) - 1) + k - (2 ^ (Z.of_nat n + 1) - 1))
    with (2 * (2 ^ Z.of_nat n - 1) + (k + 1)) by lia.
  rewrite IH by lia. f_equal; [lia|]. bitwise.
  rewrite !Z.testbit_ones_nonneg by lia.
  bit_cases; btauto.
Qed.

Lemma lor_shift_top l m q : 0 <= l -> 0 <= m -> 0 <= q < 2 ^ m ->
  Z.lor (2 ^ (l + m)) (Z.shiftl q l) = Z.shiftl (2 ^ m + q) l.
Proof.
  intros. rewrite <- (Z.add_nocarry_lor (2 ^ (l + m))).
  - rewrite !Z.shiftl_mul_pow2, Z.pow_add_r by lia. lia.
  - bitwise. rewrite Z.shiftl_spec by lia.
    bit_cases; rewrite ?testbit_small with (n := m) by lia; btauto.
Qed.

(** At and above the level of the node the loop reads off its position. *)
Lemma postorder_loop_high l (m : nat) p bm : 0 <= l -> l + Z.of_nat m <= 64 ->
  0 <= p < 2 ^ Z.of_nat m -> postorder l p <= u64_max ->
  Position.postorder_loop (m + Z.to_nat l) (postorder l p) (2 ^ (Z.of_nat m + l) - 1) bm
  = Position.postorder_loop (Z.to_nat l) (2 * (2 ^ l - 1)) (2 ^ l - 1)
      (Z.lor bm (Z.shiftl p l)).
Proof.
  intros Hl. revert p bm. induction m as [|m IH]; intros p bm Hm Hp Hu.
  { replace p with 0 by (simpl in Hp; lia). unfold postorder. cbn [count_ones].
    rewrite Z.shiftl_0_l, Z.lor_0_r, pow2_S by lia. f_equal; lia. }
  rewrite Nat2Z.inj_succ, <- Z.add_1_r, pow2_S in Hp by lia.
  replace (Z.of_nat (S m) + l) with ((Z.of_nat m + l) + 1) by lia.
  pose proof (pow2_S (Z.of_nat m + l) ltac:(lia)).
  pose proof (Z.pow_add_r 2 (Z.of_nat m) l ltac:(lia) ltac:(lia)).
  pose proof (pow2_S l Hl). pose proof (pow2_pos l Hl).
  pose proof (count_ones_nonneg p).
  cbn [Nat.add Position.postorder_loop].
  rewrite full_half by lia.
  destruct (Z.lt_ge_cases p (2 ^ Z.of_nat m)) as [Hlt|Hge].
  - destruct (Z.leb_spec (2 ^ (Z.of_nat m + l + 1) - 1) (postorder l p)) as [Hle|_].
    { unfold postorder in Hle. nia. }
    apply IH; lia.
  - destruct (Z.le_exists_sub _ _ Hge) as (q & -> & _). rewrite (Z.add_comm q) in *.
    assert (Hq : 0 <= q < 2 ^ Z.of_nat m) by lia.
    assert (E : postorder l (2 ^ Z.of_nat m + q) = 2 ^ (Z.of_nat m + l + 1) - 1 + postorder l q).
    { unfold postorder. rewrite count_ones_top by lia. lia. }
    pose proof (postorder_nonneg l q Hl ltac:(lia)).
    destruct (Z.leb_spec (2 ^ (Z.of_nat m + l + 1) - 1) (postorder l (2 ^ Z.of_nat m + q))); [|lia].
    rewrite one_shl, u64_sub_small by lia.
    replace (postorder l (2 ^ Z.of_nat m + q) - (2 ^ (Z.of_nat m + l + 1) - 1))
      with (postorder l q) by lia.
    rewrite IH by lia. f_equal. rewrite <- Z.lor_assoc. f_equal.
    rewrite Nat2Z.inj_add, Z2Nat.id, (Z.add_comm _ l) by lia. apply lor_shift_top; lia.
Qed.

Lemma postorder_to_inorder_postorder l p :
  valid l p -> Position.postorder_to_inorder (postorder l p) = node l p.
Proof.
  intros H. pose proof H as [Hl Hp].
  assert (Hlow : 0 <= p * 2 ^ l < 2 ^ 63).
  { replace 63 with ((63 - l) + l) by lia. rewrite Z.pow_add_r by lia.
    pose proof (pow2_pos l). nia. }
  unfold Position.postorder_to_inorder.
  change (~. 0)%u64 with (2 ^ 64 - 1).
  pose proof (postorder_loop_high l (64 - Z.to_nat l) p 0) as Hhi.
  replace (64 - Z.to_nat l + Z.to_nat l)%nat with 64%nat in Hhi by lia.
  replace (Z.of_nat (64 - Z.to_nat l) + l) with 64 in Hhi by lia.
  rewrite Hhi; [|lia|lia| |pose proof (postorder_range l p H); lia].
  2: { pose proof (Z.pow_le_mono_r 2 (63 - l) (Z.of_nat (64 - Z.to_nat l))). lia. }
  pose proof (postorder_loop_low (Z.to_nat l) 0) as Hlo. rewrite Z2Nat.id, !Z.add_0_r in Hlo by lia.
  rewrite Hlo, Z.lor_0_l, Z.mod_small by lia.
  assert (Z.shiftr (Z.lor (Z.shiftl p l) (Z.ones l)) l = p) as E.
  { apply Z.bits_inj'. intros i Hi.
    rewrite Z.shiftr_spec, Z.lor_spec, Z.shiftl_spec, Z.ones_spec_high by lia.
    replace (i + l - l) with i by lia. btauto. }
  unfold u64_shr. rewrite (Z.mod_small l), E by lia.
  by rewrite from_level_and_pos_node.
Qed.

(** An injective function on a finite range is onto. *)
Lemma range_surjective (f : Z -> Z) n :
  (forall i, 0 <= i < n -> 0 <= f i < n) ->
  (forall i j, 0 <= i < n -> 0 <= j < n -> f i = f j -> i = j) ->
  forall k, 0 <= k < n -> exists i, 0 <= i < n /\ f i = k.
Proof.
  intros Hr Hi k Hk.
  assert (P : f <$> seqZ 0 n ≡ₚ seqZ 0 n).
  { apply submseteq_length_Permutation; [|by rewrite length_fmap].
    apply NoDup_submseteq.
    - apply NoDup_fmap_2_strong; [|apply NoDup_seqZ].
      intros i j Hin Hjn. apply elem_of_seqZ in Hin, Hjn. apply Hi; lia.
    - intros x (i & -> & Hin)%list_elem_of_fmap. apply elem_of_seqZ in Hin.
      apply elem_of_seqZ. pose proof (Hr i). lia. }
  assert (Hin : k ∈ seqZ 0 n) by (apply elem_of_seqZ; lia).
  rewrite <- P in Hin. apply list_elem_of_fmap in Hin as (i & -> & Hin).
  apply elem_of_seqZ in Hin. exists i. split; [lia|done].
Qed.

Lemma postorder_inorder_inv i : 0 <= i < u64_max ->
  Position.postorder_to_inorder (Position.inorder_to_postorder i) = i.
Proof.
  intros Hi. destruct (node_ex i Hi) as (l & p & Hv & ->).
  rewrite inorder_to_postorder_node by done. by apply postorder_to_inorder_postorder.
Qed.

Lemma inorder_to_postorder_range i : 0 <= i < u64_max ->
  0 <= Position.inorder_to_postorder i < u64_max.
Proof.
  intros Hi. destruct (node_ex i Hi) as (l & p & Hv & ->).
  rewrite inorder_to_postorder_node by done. by apply postorder_range.
Qed.

Lemma inorder_postorder_inv i : 0 <= i < u64_max ->
  Position.inorder_to_postorder (Position.postorder_to_inorder i) = i.
Proof.
  intros Hi.
  destruct (range_surjective Position.inorder_to_postorder u64_max) with (k := i)
    as (j & Hj & <-); [apply inorder_to_postorder_range| |done|].
  - intros a b Ha Hb E. rewrite <- (postorder_inorder_inv a), <- (postorder_inorder_inv b) by done.
    by rewrite E.
  - by rewrite postorder_inorder_inv.
Qed.
