(* ===== verification/PositionIters.v ===== *)
(** * What the position iterators enumerate (types/src/proof/position/mod.rs)

    The iterators of [Positions] against their contracts: the frozen subtrees
    of an accumulator are the set bits of its number of leaves, most
    significant first; both subtree iterators tile an interval of leaves with
    complete subtrees; the ancestors of a leaf are the nodes above it. *)
From stdpp Require Import prelude strings.
From Stdlib Require Import ZArith Lia Btauto.
From S2P Require Import Prelude Bits Positions.

(** ** Tilings *)

(** [tiles a ps b]: [ps] are roots of complete subtrees whose leaves, in
    order, are exactly the leaves [a], ..., [b - 1]. *)
Inductive tiles : Z -> list Position.t -> Z -> Prop :=
| tiles_nil a : tiles a [] a
| tiles_cons l p ps b :
    valid l p -> tiles ((p + 1) * 2 ^ l) ps b ->
    tiles (p * 2 ^ l) (Position.mk (node l p) :: ps) b.

Lemma tiles_le a ps b : tiles a ps b -> a <= b.
Proof.
  induction 1 as [|l p ps b [? ?] _ IH]; [lia|]. pose proof (pow2_pos l). nia.
Qed.

(** ** The frozen subtrees of [n] leaves *)

(** The frozen subtrees of level below [k] of an accumulator of [n] leaves,
    as (level, position) pairs from left to right. *)
Fixpoint frozen_below (k : nat) (n : Z) : list (Z * Z) :=
  match k with
  | O => []
  | S l => (if Z.testbit n (Z.of_nat l)
            then [(Z.of_nat l, 2 * (n / 2 ^ (Z.of_nat l + 1)))] else [])
             ++ frozen_below l n
  end.

Definition node_of (lp : Z * Z) : Position.t := Position.mk (node lp.1 lp.2).

Lemma mod_pow2_S n (k : nat) : 0 <= n ->
  n mod 2 ^ (Z.of_nat k + 1) = n mod 2 ^ Z.of_nat k
    + (if Z.testbit n (Z.of_nat k) then 2 ^ Z.of_nat k else 0).
Proof.
  intros Hn. rewrite pow2_S, (Z.mul_comm 2), Z.rem_mul_r by (pose proof (pow2_pos (Z.of_nat k)); lia).
  rewrite <- Z.testbit_spec' by lia. destruct (Z.testbit _ _); simpl; lia.
Qed.

Lemma mod_div_pow2 n k : 0 <= k -> n - n mod 2 ^ k = 2 ^ k * (n / 2 ^ k).
Proof. intros. pose proof (pow2_pos k). pose proof (Z.div_mod n (2 ^ k)). lia. Qed.

Lemma clear_top r k : 0 <= k <= 63 -> 0 <= r < 2 ^ k ->
  ((r + 2 ^ k)%Z .& ~. (2 ^ k))%u64 = r.
Proof.
  intros Hk Hr. pose proof (pow2_in_u64 k Hk).
  rewrite Z.add_comm, Z.add_nocarry_lxor, Z.lxor_lor.
  2-3: bitwise; bit_cases; rewrite ?testbit_small with (n := k) by lia; btauto.
  bitwise. bit_cases; rewrite ?testbit_small with (n := k) by lia; btauto.
Qed.

Lemma frozen_step (k : nat) n : (k <= 63)%nat -> 0 <= n <= 2 ^ 63 ->
  Z.testbit n (Z.of_nat k) = true ->
  FrozenSubTreeIterator.next
    (FrozenSubTreeIterator.mk (n mod 2 ^ (Z.of_nat k + 1)) (n - n mod 2 ^ (Z.of_nat k + 1)))
  = Some (Position.mk (node (Z.of_nat k) (2 * (n / 2 ^ (Z.of_nat k + 1)))),
          FrozenSubTreeIterator.mk (n mod 2 ^ Z.of_nat k) (n - n mod 2 ^ Z.of_nat k)).
Proof.
  intros Hk Hn Hb. set (kz := Z.of_nat k) in *.
  pose proof (mod_pow2_S n k ltac:(lia)) as Hm. fold kz in Hm. rewrite Hb in Hm.
  pose proof (pow2_pos kz ltac:(lia)). pose proof (pow2_S kz ltac:(lia)).
  pose proof (Z.mod_pos_bound n (2 ^ kz) ltac:(lia)).
  pose proof (pow2_in_u64 kz ltac:(lia)) as [_ Hu].
  pose proof (Z.mod_le n (2 ^ (kz + 1)) ltac:(lia) ltac:(lia)).
  pose proof (mod_div_pow2 n (kz + 1) ltac:(lia)) as Hd.
  assert (Hlog : Z.log2 (n mod 2 ^ (kz + 1)) = kz) by (apply Z.log2_unique; lia).
  unfold FrozenSubTreeIterator.next.
  cbn [FrozenSubTreeIterator.bitmap FrozenSubTreeIterator.seen_leaves].
  destruct (Z.eqb_spec (n mod 2 ^ (kz + 1)) 0); [lia|].
  rewrite smear_half, Hlog by lia.
  rewrite (u64_add_small (2 ^ kz - 1) 1) by lia.
  replace (2 ^ kz - 1 + 1) with (2 ^ kz) by lia.
  rewrite from_leaf_index_node by lia. cbn [Position.to_inorder_index Position.inorder].
  rewrite !u64_add_small by lia.
  assert ((n mod 2 ^ (kz + 1) .& ~. (2 ^ kz))%u64 = n mod 2 ^ kz) as ->.
  { rewrite Hm. apply clear_top; lia. }
  do 3 f_equal; [unfold Position.from_inorder_index, node; f_equal|]; lia.
Qed.

Lemma frozen_collect (k fuel : nat) n : (k <= 64)%nat -> (k <= fuel)%nat -> 0 <= n <= 2 ^ 63 ->
  iter_collect FrozenSubTreeIterator.next fuel
    (FrozenSubTreeIterator.mk (n mod 2 ^ Z.of_nat k) (n - n mod 2 ^ Z.of_nat k))
  = node_of <$> frozen_below k n.
Proof.
  intros Hk Hf Hn. revert fuel Hf. induction k as [|k IH]; intros fuel Hf.
  { simpl. rewrite Z.mod_1_r. by destruct fuel. }
  rewrite Nat2Z.inj_succ, <- Z.add_1_r. cbn [frozen_below]. rewrite fmap_app.
  destruct (Z.testbit n (Z.of_nat k)) eqn:Hb.
  - destruct fuel as [|fuel]; [lia|]. cbn [iter_collect].
    rewrite frozen_step, IH by (done || lia). done.
  - rewrite mod_pow2_S, Hb, Z.add_0_r by lia. apply IH; lia.
Qed.

(** [FrozenSubTreeIterator] returns the set bits of the number of leaves. *)
Lemma frozen_positions n : 0 <= n <= 2 ^ 63 ->
  FrozenSubTreeIterator.positions n = node_of <$> frozen_below 64 n.
Proof.
  intros Hn. rewrite <- (frozen_collect 64 64 n) by lia.
  change (Z.of_nat 64) with 64. rewrite Z.mod_small by lia.
  by rewrite Z.sub_diag.
Qed.

Definition up (lp : Z * Z) : Z * Z := (lp.1 + 1, lp.2).

(** The frozen subtrees of [n] leaves are those of the [n / 2] nodes one
    level up, and the last leaf when [n] is odd. *)
Lemma frozen_below_S (k : nat) n : 0 <= n ->
  frozen_below (S k) n
  = (up <$> frozen_below k (n / 2)) ++ (if Z.odd n then [(0, n - 1)] else []).
Proof.
  intros Hn. induction k as [|k IH].
  { simpl. rewrite app_nil_r. change (2 ^ (Z.of_nat 0 + 1)) with 2.
    destruct (Z.odd n) eqn:Ho; [|done]. pose proof (Z.div_mod n 2 ltac:(lia)).
    rewrite Zmod_odd, Ho in *. do 2 f_equal. lia. }
  change (frozen_below (S (S k)) n) with
    ((if Z.testbit n (Z.of_nat (S k))
      then [(Z.of_nat (S k), 2 * (n / 2 ^ (Z.of_nat (S k) + 1)))] else [])
       ++ frozen_below (S k) n).
  rewrite IH. cbn [frozen_below]. rewrite fmap_app, <- app_assoc. f_equal.
  rewrite <- Z.div2_div, Z.div2_spec, Z.shiftr_spec by lia.
  rewrite Nat2Z.inj_succ, <- Z.add_1_r. destruct (Z.testbit _ _); [|done].
  unfold up. cbn [fmap list_fmap fst snd]. do 3 f_equal.
  rewrite <- Z.div2_spec, Z.div2_div, Z.div_div by (try apply pow2_pos; lia).
  f_equal. rewrite <- pow2_S by lia. f_equal; lia.
Qed.

Lemma frozen_below_tiles (k : nat) n : (k <= 64)%nat -> 0 <= n <= 2 ^ 63 ->
  tiles (n - n mod 2 ^ Z.of_nat k) (node_of <$> frozen_below k n) n.
Proof.
  intros Hk Hn. induction k as [|k IH].
  { simpl. rewrite Z.mod_1_r, Z.sub_0_r. constructor. }
  rewrite Nat2Z.inj_succ, <- Z.add_1_r. cbn [frozen_below]. rewrite fmap_app.
  pose proof (pow2_pos (Z.of_nat k) ltac:(lia)). pose proof (pow2_S (Z.of_nat k) ltac:(lia)).
  destruct (Z.testbit n (Z.of_nat k)) eqn:Hb;
    [|rewrite mod_pow2_S, Hb, Z.add_0_r by lia; apply IH; lia].
  pose proof (mod_div_pow2 n (Z.of_nat k + 1) ltac:(lia)) as Hd.
  replace (n - n mod 2 ^ (Z.of_nat k + 1))
    with (2 * (n / 2 ^ (Z.of_nat k + 1)) * 2 ^ Z.of_nat k) by lia.
  constructor.
  - split; [lia|].
    pose proof (mod_pow2_S n k ltac:(lia)) as Hm. rewrite Hb in Hm.
    pose proof (Z.mod_pos_bound n (2 ^ Z.of_nat k) ltac:(lia)).
    assert (2 ^ 63 = 2 ^ (63 - Z.of_nat k) * 2 ^ Z.of_nat k)
      by (rewrite <- Z.pow_add_r by lia; f_equal; lia).
    split; [|nia]. pose proof (Z.div_pos n (2 ^ (Z.of_nat k + 1))). lia.
  - rewrite mod_pow2_S, Hb in Hd by lia.
    replace ((2 * (n / 2 ^ (Z.of_nat k + 1)) + 1) * 2 ^ Z.of_nat k)
      with (n - n mod 2 ^ Z.of_nat k) by lia.
    apply IH; lia.
Qed.

(** One frozen subtree per set bit. *)
Lemma frozen_below_length (k : nat) n : 0 <= n ->
  Z.of_nat (length (frozen_below k n)) = count_ones (n mod 2 ^ Z.of_nat k).
Proof.
  intros Hn. induction k as [|k IH]; [by rewrite Z.mod_1_r|].
  cbn [frozen_below]. rewrite length_app, Nat2Z.inj_add, IH.
  rewrite Nat2Z.inj_succ, <- Z.add_1_r, mod_pow2_S by lia.
  destruct (Z.testbit n (Z.of_nat k)); simpl; [|by rewrite Z.add_0_r].
  rewrite (Z.add_comm (_ mod _)), count_ones_top; [lia|].
  apply Z.mod_pos_bound, pow2_pos. lia.
Qed.

(** ** The subtrees that extend [c] leaves by [r] *)

(** The level of the next subtree: the rightmost frozen subtree when it can be
    completed to its parent, the largest subtree that fits otherwise. *)
Definition sib_level (c r : Z) : Z :=
  if (0 <? c) && (2 ^ trailing_zeros c <=? r) then trailing_zeros c else Z.log2 r.

Definition sib_state (c r : Z) : FrozenSubtreeSiblingIterator.t :=
  FrozenSubtreeSiblingIterator.mk c r.

Lemma trailing_zeros_divide c : 0 < c -> 0 <= trailing_zeros c /\ (2 ^ trailing_zeros c | c).
Proof.
  intros Hc. destruct (odd_part_ex c Hc) as (l & a & Hl & Ha & ->).
  rewrite trailing_zeros_spec by lia. split; [done|]. apply Z.divide_factor_l.
Qed.

Lemma trailing_zeros_63 c : 0 < c <= 2 ^ 63 -> 0 <= trailing_zeros c <= 63.
Proof.
  intros Hc. destruct (trailing_zeros_divide c ltac:(lia)) as [? Hd].
  apply Z.divide_pos_le in Hd; [|lia]. split; [done|].
  apply Z.pow_le_mono_r_iff with 2; lia.
Qed.

(** Both choices of the iterator give a subtree that is aligned with the
    leaves before it and fits the leaves that remain. *)
Lemma sib_level_spec c r : 0 <= c -> 0 < r -> c + r <= 2 ^ 63 ->
  0 <= sib_level c r <= 63 /\ (2 ^ sib_level c r | c) /\ 2 ^ sib_level c r <= r.
Proof.
  intros Hc Hr Hs. unfold sib_level.
  pose proof (Z.log2_nonneg r). pose proof (Z.log2_spec r ltac:(lia)) as [Hlog Hlog2].
  pose proof (Z.log2_le_mono r (2 ^ 63) ltac:(lia)) as H63. rewrite Z.log2_pow2 in H63 by lia.
  destruct (Z.ltb_spec 0 c) as [Hc0|Hc0]; simpl.
  - pose proof (trailing_zeros_divide c Hc0) as [Htz Hd].
    destruct (Z.leb_spec (2 ^ trailing_zeros c) r) as [Hle|Hgt].
    + pose proof (trailing_zeros_63 c ltac:(lia)). tauto.
    + split_and!; [lia|lia| |lia]. etrans; [|exact Hd].
      exists (2 ^ (trailing_zeros c - Z.log2 r)). rewrite <- Z.pow_add_r; [f_equal; lia| |lia].
      enough (Z.log2 r < trailing_zeros c) by lia.
      apply Z.pow_lt_mono_r_iff with 2; lia.
  - replace c with 0 by lia. split_and!; [lia|lia|apply Z.divide_0_r|lia].
Qed.

Lemma next_new_leaf_batch_log2 c r : 0 < r <= 2 ^ 63 ->
  FrozenSubtreeSiblingIterator.next_new_leaf_batch (sib_state c r) = 2 ^ Z.log2 r.
Proof.
  intros. unfold FrozenSubtreeSiblingIterator.next_new_leaf_batch, MAX_ACCUMULATOR_PROOF_DEPTH.
  cbn [sib_state FrozenSubtreeSiblingIterator.remaining_new_leaves].
  pose proof (Z.log2_le_mono r (2 ^ 63) ltac:(lia)) as H63. rewrite Z.log2_pow2 in H63 by lia.
  rewrite leading_zeros_log2 by lia. pose proof (Z.log2_nonneg r).
  rewrite u64_sub_small, one_shl by lia. f_equal. lia.
Qed.

Lemma sib_next c r : 0 <= c -> 0 < r -> c + r <= 2 ^ 63 ->
  let k := sib_level c r in
  FrozenSubtreeSiblingIterator.next (sib_state c r)
  = Some (Position.mk (node k (c / 2 ^ k)), sib_state (c + 2 ^ k) (r - 2 ^ k)).
Proof.
  intros Hc Hr Hs k. destruct (sib_level_spec c r Hc Hr Hs) as (Hk & Hd & Hle).
  fold k in Hk, Hd, Hle. pose proof (pow2_pos k ltac:(lia)).
  unfold FrozenSubtreeSiblingIterator.next.
  cbn [sib_state FrozenSubtreeSiblingIterator.current_num_leaves
       FrozenSubtreeSiblingIterator.remaining_new_leaves].
  change (FrozenSubtreeSiblingIterator.mk c r) with (sib_state c r).
  destruct (Z.eqb_spec r 0); [lia|]. rewrite next_new_leaf_batch_log2 by lia.
  assert (Hsz : (if 0 <? c then
            if (1 << trailing_zeros c)%u64 <=? r then (1 << trailing_zeros c)%u64
            else 2 ^ Z.log2 r else 2 ^ Z.log2 r) = 2 ^ k).
  { unfold k, sib_level. destruct (Z.ltb_spec 0 c); [|done].
    rewrite one_shl by (pose proof (trailing_zeros_63 c ltac:(lia)); lia).
    simpl. by destruct (_ <=? _). }
  rewrite Hsz. clear Hsz. clearbody k. rewrite (u64_add_small c (2 ^ k)), !u64_sub_small, u64_add_small by lia.
  do 3 f_equal. unfold Position.from_inorder_index, node. f_equal.
  destruct Hd as [q ->]. rewrite Z.div_mul, pow2_S by lia. lia.
Qed.

(** Steps left: the level of [c] grows until the remaining leaves are fewer
    than the rightmost subtree, then the level of [r] falls. *)
Definition sib_fuel (c r : Z) : Z :=
  if (0 <? c) && (2 ^ trailing_zeros c <=? r) then 128 - trailing_zeros c
  else if r =? 0 then 0 else Z.log2 r + 1.

Lemma trailing_zeros_ge k c : 0 <= k -> 0 < c -> (2 ^ k | c) -> k <= trailing_zeros c.
Proof.
  intros Hk Hc Hd. destruct (odd_part_ex c Hc) as (l & a & Hl & Ha & ->).
  rewrite trailing_zeros_spec by lia. destruct (Z.le_gt_cases k l) as [|Hgt]; [done|].
  destruct Hd as [q Hq]. replace k with ((k - l - 1) + 1 + l) in Hq by lia.
  rewrite Z.pow_add_r, pow2_S in Hq by lia. pose proof (pow2_pos l Hl).
  assert (2 * a + 1 = 2 * (q * 2 ^ (k - l - 1))) by (apply Z.mul_reg_l with (2 ^ l); lia).
  lia.
Qed.

(** Completing the rightmost subtree of [c] leaves clears its bit. *)
Lemma trailing_zeros_carry c : 0 < c ->
  trailing_zeros c + 1 <= trailing_zeros (c + 2 ^ trailing_zeros c).
Proof.
  intros Hc. destruct (odd_part_ex c Hc) as (l & a & Hl & Ha & ->).
  rewrite trailing_zeros_spec by lia. pose proof (pow2_pos l Hl).
  apply trailing_zeros_ge; [lia|lia|]. exists (a + 1). rewrite pow2_S by lia. lia.
Qed.

Lemma sib_fuel_decreases c r : 0 <= c -> 0 < r -> c + r <= 2 ^ 63 ->
  sib_fuel (c + 2 ^ sib_level c r) (r - 2 ^ sib_level c r) < sib_fuel c r.
Proof.
  intros Hc Hr Hs. destruct (sib_level_spec c r Hc Hr Hs) as (Hk & Hd & Hle).
  pose proof (pow2_pos (sib_level c r) ltac:(lia)).
  pose proof (Z.log2_spec r Hr) as [_ Hlog]. rewrite Z.pow_succ_r in Hlog by apply Z.log2_nonneg.
  pose proof (Z.log2_le_mono (r - 2 ^ sib_level c r) (2 ^ 63) ltac:(lia)) as H63.
  rewrite Z.log2_pow2 in H63 by lia.
  set (c' := c + 2 ^ sib_level c r) in *. set (r' := r - 2 ^ sib_level c r) in *.
  assert (Hc' : 0 < c' <= 2 ^ 63) by lia. pose proof (trailing_zeros_63 c' Hc').
  unfold sib_fuel. unfold sib_level in Hk, Hd, Hle, c', r'.
  destruct (Z.ltb_spec 0 c') as [_|]; [|lia].
  destruct ((0 <? c) && (2 ^ trailing_zeros c <=? r)) eqn:EA; simpl.
  - apply andb_true_iff in EA as [EA%Z.ltb_lt _].
    pose proof (trailing_zeros_carry c EA) as Hcar. fold c' in Hcar.
    destruct (Z.leb_spec (2 ^ trailing_zeros c') r') as [|_]; [lia|].
    destruct (Z.eqb_spec r' 0); [lia|]. lia.
  - assert (Hge : Z.log2 r <= trailing_zeros c').
    { apply trailing_zeros_ge; [lia..|]. apply Z.divide_add_r; [done|reflexivity]. }
    pose proof (Z.pow_le_mono_r 2 _ _ ltac:(lia) Hge).
    destruct (Z.leb_spec (2 ^ trailing_zeros c') r'); [lia|].
    destruct (Z.eqb_spec r' 0); destruct (Z.eqb_spec r 0); try lia.
    enough (Z.log2 r' < Z.log2 r) by lia. apply Z.log2_lt_pow2; lia.
Qed.

Lemma sib_fuel_range c r : 0 <= c -> 0 <= r -> c + r <= 2 ^ 63 -> 0 <= sib_fuel c r <= 128.
Proof.
  intros Hc Hr Hs. unfold sib_fuel.
  pose proof (Z.log2_le_mono r (2 ^ 63) ltac:(lia)) as H63. rewrite Z.log2_pow2 in H63 by lia.
  pose proof (Z.log2_nonneg r).
  destruct (Z.ltb_spec 0 c); simpl; [|destruct (Z.eqb_spec r 0); lia].
  pose proof (trailing_zeros_63 c ltac:(lia)).
  destruct (_ <=? _); [lia|]. destruct (Z.eqb_spec r 0); lia.
Qed.

Lemma sib_collect_tiles (fuel : nat) c r :
  0 <= c -> 0 <= r -> c + r <= 2 ^ 63 -> sib_fuel c r <= Z.of_nat fuel ->
  tiles c (iter_collect FrozenSubtreeSiblingIterator.next fuel (sib_state c r)) (c + r).
Proof.
  revert c r. induction fuel as [|fuel IH]; intros c r Hc Hr Hs Hf;
    (destruct (Z.eq_dec r 0) as [->|Hr0]; [rewrite Z.add_0_r; constructor|]);
    pose proof (sib_fuel_decreases c r Hc ltac:(lia) Hs) as Hdec;
    destruct (sib_level_spec c r Hc ltac:(lia) Hs) as (Hk & Hd & Hle);
    pose proof (pow2_pos (sib_level c r) ltac:(lia));
    pose proof (sib_fuel_range (c + 2 ^ sib_level c r) (r - 2 ^ sib_level c r)
      ltac:(lia) ltac:(lia) ltac:(lia)); [lia|].
  cbn [iter_collect]. rewrite sib_next by lia. set (k := sib_level c r) in *.
  specialize (IH (c + 2 ^ k) (r - 2 ^ k) ltac:(lia) ltac:(lia) ltac:(lia) ltac:(lia)).
  clearbody k. destruct Hd as [q ->]. rewrite Z.div_mul by lia.
  replace (q * 2 ^ k + 2 ^ k) with ((q + 1) * 2 ^ k) in * by lia.
  replace (q * 2 ^ k + r) with ((q + 1) * 2 ^ k + (r - 2 ^ k)) by lia.
  constructor; [|done]. split; [lia|].
  assert (2 ^ 63 = 2 ^ (63 - k) * 2 ^ k) by (rewrite <- Z.pow_add_r by lia; f_equal; lia).
  nia.
Qed.

(** ** Ancestors *)

(** One step of the ancestor-sibling iterator on the [p]-th node of a level. *)
Lemma ancestor_sibling_step l p : valid l p -> l < 63 ->
  AncestorSiblingIterator.next (Position.mk (node l p))
  = (Position.mk (node l (Z.lxor p 1)), Position.mk (node (l + 1) (p / 2))).
Proof.
  intros. unfold AncestorSiblingIterator.next. by rewrite sibling_node, parent_node.
Qed.

(** The ancestors of leaf [i], from the leaf up: node [i / 2^j] of level [j]. *)
Lemma ancestors_of_node (n : nat) l p : l + Z.of_nat n <= 63 -> valid l p ->
  iter_take AncestorIterator.next n (Position.mk (node l p))
  = (fun j => Position.mk (node (l + Z.of_nat j) (p / 2 ^ Z.of_nat j))) <$> seq 0 n.
Proof.
  revert l p. induction n as [|n IH]; intros l p Hn Hv; [done|].
  cbn [iter_take AncestorIterator.next]. pose proof Hv as [? ?].
  unfold AncestorIterator.next. rewrite parent_node, IH by (try apply valid_parent; done || lia).
  cbn [seq]. rewrite fmap_cons, Z.add_0_r, Z.div_1_r. f_equal.
  rewrite <- fmap_S_seq, <- list_fmap_compose. apply list_fmap_ext. intros j x _. simpl.
  f_equal. f_equal; [lia|]. rewrite Z.div_div by (try apply pow2_pos; lia).
  f_equal. rewrite <- pow2_S by lia. f_equal; lia.
Qed.

(** ** Contracts *)

(** The post-order number of a node is a bijection of the 64-bit tree:
    [from_postorder_index] inverts [to_postorder_index] on every position,
    [to_postorder_index] inverts [from_postorder_index] on every index, and
    the one index that names no node, [u64::MAX], is refused. *)
Theorem postorder_index_bijection i :
  0 <= i < u64_max ->
  Position.from_postorder_index (Position.to_postorder_index (Position.mk i)) = Ok (Position.mk i)
  /\ (exists p, Position.from_postorder_index i = Ok p /\ Position.to_postorder_index p = i)
  /\ exists e, Position.from_postorder_index u64_max = Err e.
Proof.
  intros Hi. unfold Position.from_postorder_index, Position.to_postorder_index. simpl.
  change (~. 0)%u64 with u64_max. pose proof (inorder_to_postorder_range i Hi) as Hr.
  split; [|split].
  - destruct (Z.ltb_spec (Position.inorder_to_postorder i) u64_max); [|lia]. simpl.
    by rewrite postorder_inorder_inv.
  - destruct (Z.ltb_spec i u64_max); [|lia]. eexists. split; [done|].
    by apply inorder_postorder_inv.
  - by eexists.
Qed.

Lemma postorder_index_bijection_witness :
  Position.from_postorder_index (Position.to_postorder_index (Position.mk 5)) = Ok (Position.mk 5).
Proof. refine (proj1 (postorder_index_bijection 5 _)). lia. Defined.

(** [FrozenSubTreeIterator] yields, left to right, complete subtrees whose
    leaves are exactly the leaves [0 .. num_leaves), one subtree for every set
    bit of [num_leaves] (so that [InMemoryAccumulator::new] can compare
    [count_ones] with the number of roots). *)
Theorem frozen_subtrees_tile n :
  0 <= n <= MAX_ACCUMULATOR_LEAVES ->
  tiles 0 (FrozenSubTreeIterator.positions n) n
  /\ Z.of_nat (length (FrozenSubTreeIterator.positions n)) = count_ones n.
Proof.
  change MAX_ACCUMULATOR_LEAVES with (2 ^ 63). intros Hn.
  rewrite frozen_positions, length_fmap, frozen_below_length by lia.
  change (Z.of_nat 64) with 64. rewrite Z.mod_small by lia. split; [|done].
  pose proof (frozen_below_tiles 64 n) as Ht. change (Z.of_nat 64) with 64 in Ht.
  rewrite Z.mod_small, Z.sub_diag in Ht by lia. apply Ht; lia.
Qed.

Lemma frozen_subtrees_tile_witness : tiles 0 (FrozenSubTreeIterator.positions 11) 11.
Proof. refine (proj1 (frozen_subtrees_tile 11 _)). split; by vm_compute. Defined.

(** [FrozenSubtreeSiblingIterator] yields complete subtrees whose leaves,
    in order, are exactly the leaves the accumulator gains between
    [current_num_leaves] and [new_num_leaves]; it is never stuck (128 items
    are enough) and [new] panics exactly when the counts are out of range. *)
Theorem sibling_subtrees_tile {E} c n :
  0 <= c -> 0 <= n <= u64_max ->
  match FrozenSubtreeSiblingIterator.new (E := E) c n with
  | Ok it => c <= n <= MAX_ACCUMULATOR_LEAVES
             /\ tiles c (FrozenSubtreeSiblingIterator.positions it) n
  | Panic => n < c \/ MAX_ACCUMULATOR_LEAVES < n
  | Err _ => False
  end.
Proof.
  intros Hc Hn. unfold FrozenSubtreeSiblingIterator.new.
  change MAX_ACCUMULATOR_LEAVES with (2 ^ 63).
  destruct (Z.leb_spec n (2 ^ 63)); simpl; [|by right].
  destruct (Z.leb_spec c n); simpl; [|by left]. split; [done|].
  rewrite u64_sub_small by lia. replace n with (c + (n - c)) at 2 by lia.
  apply sib_collect_tiles; try lia. pose proof (sib_fuel_range c (n - c)). lia.
Qed.

Lemma sibling_subtrees_tile_witness :
  exists it, FrozenSubtreeSiblingIterator.new (E := string) 10 21 = Ok it
             /\ tiles 10 (FrozenSubtreeSiblingIterator.positions it) 21.
Proof.
  pose proof (sibling_subtrees_tile (E := string) 10 21 ltac:(lia) ltac:(lia)) as H.
  eexists. split; [reflexivity|]. exact (proj2 H).
Defined.
