(* ===== verification/Hash.v ===== *)
(** * Hash values and the hashing interface of the Merkle structures

    [MerkleHasher] is what the accumulators and their proofs use of
    crates/diem-crypto: the hash of an internal node from the hashes of its
    two children and the placeholder hashes. *)
From stdpp Require Import prelude strings.
From Stdlib Require Import ZArith Lia.
From S2P Require Import Prelude.

(** [MerkleTreeInternalNode::<H>::new(l, r).hash()] for a [CryptoHasher] [H],
    and the two placeholders of crates/diem-crypto/src/hash.rs. *)
Class MerkleHasher (HashValue : Type) := {
  hash_eq_dec :: EqDecision HashValue;
  hash_internal_node : HashValue -> HashValue -> HashValue;
  ACCUMULATOR_PLACEHOLDER_HASH : HashValue;
  SPARSE_MERKLE_PLACEHOLDER_HASH : HashValue
}.

(** [collision_free hs]: no two different pairs of [hs] have the same hash. *)
Definition collision_free {HashValue} `{MerkleHasher HashValue}
    (hs : list (HashValue * HashValue)) : Prop :=
  forall x y, x ∈ hs -> y ∈ hs ->
    hash_internal_node x.1 x.2 = hash_internal_node y.1 y.2 -> x = y.

(** A check by evaluation: each pair is hashed once. *)
Lemma collision_free_check {HashValue} `{MerkleHasher HashValue} (hs : list (HashValue * HashValue)) :
  NoDup ((fun x => hash_internal_node x.1 x.2) <$> remove_dups hs) -> collision_free hs.
Proof.
  intros Hn x y Hx Hy Heq. rewrite <- elem_of_remove_dups in Hx, Hy.
  apply list_elem_of_lookup in Hx as [i Hi], Hy as [j Hj].
  assert (i = j) as ->; [|congruence].
  eapply NoDup_lookup; [exact Hn | by rewrite list_lookup_fmap, Hi |].
  by rewrite list_lookup_fmap, Hj; simpl; rewrite Heq.
Qed.

(** ** A symbolic hasher

    Hash values as the terms they were computed from: an instance of the
    interface without collisions, on which the definitions can be run. *)
Inductive symbol :=
| SymLeaf (n : Z)
| SymNode (l r : symbol)
| SymAccumulatorPlaceholder
| SymSparsePlaceholder.

#[global] Instance symbol_eq_dec : EqDecision symbol.
Proof. solve_decision. Defined.

#[global] Instance symbolic_hasher : MerkleHasher symbol := {
  hash_internal_node := SymNode;
  ACCUMULATOR_PLACEHOLDER_HASH := SymAccumulatorPlaceholder;
  SPARSE_MERKLE_PLACEHOLDER_HASH := SymSparsePlaceholder
}.

Lemma symbolic_collision_free hs : collision_free hs.
Proof. intros [] [] _ _ [= -> ->]. done. Qed.
