(* ===== verification/MerkleSpec.v ===== *)
(** * What a Merkle accumulator over a list of leaves is

    The reference definitions the accumulator code is proved against. A level
    of the tree is the list of its nodes; [parents] is the level above, the
    missing right sibling of a last odd node being the placeholder, and
    [merkle_root] the one node of level [depth]. [full_parents] keeps only the
    parents with two real children, so that [frozen] lists the roots of the
    complete subtrees from left to right. *)
From stdpp Require Import prelude.
From Stdlib Require Import ZArith Lia.
From S2P Require Import Prelude Bits Positions PositionIters Hash.

Section spec.
Context {HashValue : Type} `{MerkleHasher HashValue}.
Implicit Types (ls ms : list HashValue) (a b : HashValue).

Fixpoint parents ls : list HashValue :=
  match ls with
  | a :: b :: r => hash_internal_node a b :: parents r
  | [a] => [hash_internal_node a ACCUMULATOR_PLACEHOLDER_HASH]
  | [] => []
  end.

Fixpoint full_parents ls : list HashValue :=
  match ls with
  | a :: b :: r => hash_internal_node a b :: full_parents r
  | _ => []
  end.

(** The first node of the [k]-th level above [ls]. *)
Fixpoint root_at (k : nat) ls : HashValue :=
  match k with
  | O => default ACCUMULATOR_PLACEHOLDER_HASH (head ls)
  | S k => root_at k (parents ls)
  end.

Definition num (ls : list HashValue) : Z := Z.of_nat (length ls).

(** The root hash of the accumulator over the leaves [ls]. *)
Definition merkle_root ls : HashValue := root_at (Z.to_nat (depth (num ls))) ls.

(** The frozen subtree roots, at most [k] levels high. *)
Fixpoint frozen (k : nat) ls : list HashValue :=
  match k with
  | O => []
  | S k => frozen k (full_parents ls) ++ (if Nat.odd (length ls) then option_list (last ls) else [])
  end.

(** The nodes [t] levels above [ls] that have all their leaves. *)
Fixpoint levels (t : nat) ls : list HashValue :=
  match t with O => ls | S t => levels t (full_parents ls) end.

(** ** Levels *)

Lemma list_pair_ind (P : list HashValue -> Prop) :
  P [] -> (forall a, P [a]) -> (forall a b ls, P ls -> P (a :: b :: ls)) -> forall ls, P ls.
Proof.
  intros H0 H1 H2 ls. assert (P ls /\ forall a, P (a :: ls)) as [? _]; [|done].
  induction ls as [|b ls [IH1 IH2]]; split; auto.
Qed.

(** A level is an even number of nodes and maybe one more. *)
Lemma even_split ls : exists es o, ls = es ++ option_list o /\ Nat.even (length es) = true.
Proof.
  induction ls as [|a|a b ls (es & o & -> & He)] using list_pair_ind.
  - by exists [], None.
  - by exists [], (Some a).
  - by exists (a :: b :: es), o.
Qed.

Lemma full_parents_app ls ms : Nat.even (length ls) = true ->
  full_parents (ls ++ ms) = full_parents ls ++ full_parents ms.
Proof. induction ls using list_pair_ind; simpl; intros E; [done..|]. by rewrite IHls. Qed.

Lemma parents_app ls ms : Nat.even (length ls) = true ->
  parents (ls ++ ms) = full_parents ls ++ parents ms.
Proof. induction ls using list_pair_ind; simpl; intros E; [done..|]. by rewrite IHls. Qed.

Lemma length_full_parents ls : length (full_parents ls) = Nat.div2 (length ls).
Proof. induction ls using list_pair_ind; simpl; congruence. Qed.

Lemma length_parents ls : length (parents ls) = Nat.div2 (S (length ls)).
Proof. induction ls using list_pair_ind; simpl in *; congruence. Qed.

Lemma full_parents_odd es o : Nat.even (length es) = true ->
  full_parents (es ++ option_list o) = full_parents es.
Proof. intros. rewrite full_parents_app by done. destruct o; apply app_nil_r. Qed.

Lemma frozen_split (k : nat) es o : Nat.even (length es) = true ->
  frozen (S k) (es ++ option_list o) = frozen k (full_parents es) ++ option_list o.
Proof.
  intros He. cbn [frozen]. rewrite full_parents_odd, length_app by done. f_equal.
  rewrite Nat.odd_add, <- (Nat.negb_even (length es)), He. simpl.
  destruct o; simpl; [|done]. by rewrite last_snoc.
Qed.

(** Enough levels list all the frozen roots. *)
Lemma frozen_enough (k k' : nat) ls : Z.of_nat (length ls) < 2 ^ Z.of_nat k -> (k <= k')%nat ->
  frozen k ls = frozen k' ls.
Proof.
  revert k' ls. induction k as [|k IH]; intros k' ls Hk Hk'.
  - assert (ls = []) as -> by (destruct ls; simpl in *; [done|lia]).
    clear. induction k' as [|k' IH]; [done|]. simpl. by rewrite <- IH.
  - destruct k' as [|k']; [lia|]. cbn [frozen]. f_equal. apply IH; [|lia].
    rewrite length_full_parents, Nat.div2_div. rewrite Nat2Z.inj_succ, Z.pow_succ_r in Hk by lia.
    pose proof (Nat.div_mod_eq (length ls) 2). lia.
Qed.

(** All the frozen subtree roots: no accumulator has 65 levels. *)
Definition frozen_roots ls : list HashValue := frozen 64 ls.

Lemma frozen_roots_at (k : nat) ls : Z.of_nat (length ls) < 2 ^ Z.of_nat k -> (k <= 64)%nat ->
  frozen_roots ls = frozen k ls.
Proof. intros. symmetry. by apply frozen_enough. Qed.

(** The subtrees by which the leaves [ms] extend an accumulator of [c] leaves:
    as long as the rightmost frozen subtree can be completed to its parent, its
    sibling; then the frozen subtrees of the leaves that remain. *)
Fixpoint sub_hashes (n : nat) (c : Z) ms : list HashValue :=
  match n with
  | O => []
  | S n =>
      let t := Z.to_nat (trailing_zeros c) in
      if 2 ^ trailing_zeros c <=? num ms
      then levels t (take (2 ^ t) ms) ++ sub_hashes n (c + 2 ^ trailing_zeros c) (drop (2 ^ t) ms)
      else frozen_roots ms
  end.

Definition new_subtrees (c : Z) ms : list HashValue := sub_hashes (S (length ms)) c ms.

(** ** Nodes of the padded tree *)

(** The [k]-th level of the tree over [ls], placeholders left out. *)
Fixpoint plevel (k : nat) ls : list HashValue :=
  match k with O => ls | S k => plevel k (parents ls) end.

(** A node of the tree or the placeholder to the right of the last one. *)
Definition at_or_placeholder ls (i : nat) : HashValue :=
  default ACCUMULATOR_PLACEHOLDER_HASH (ls !! i).

Lemma root_at_plevel (k : nat) ls : root_at k ls = at_or_placeholder (plevel k ls) 0.
Proof. revert ls. induction k; intros ls; [by destruct ls|]. simpl. auto. Qed.

Lemma plevel_S (k : nat) ls : plevel (S k) ls = parents (plevel k ls).
Proof. revert ls. induction k; intros ls; [done|]. simpl in *. auto. Qed.

Lemma parents_lookup ls (i : nat) :
  parents ls !! i =
    (fun a => hash_internal_node a (at_or_placeholder ls (2 * i + 1))) <$> ls !! (2 * i)%nat.
Proof.
  revert i. induction ls as [|a|a b ls IH] using list_pair_ind; intros i.
  - done.
  - destruct i as [|i]; [done|]. by replace (2 * S i)%nat with (S (S (2 * i))) by lia.
  - destruct i as [|i]; [done|].
    replace (2 * S i)%nat with (S (S (2 * i))) by lia. cbn [parents lookup list_lookup].
    rewrite IH. unfold at_or_placeholder. done.
Qed.

(** The sibling of position [i] on its level. *)
Definition sibling_index (i : nat) : nat := if Nat.even i then S i else pred i.

(** The siblings of the path from node [i] of level [ls] up [k] levels. *)
Fixpoint sibs (k : nat) (i : nat) ls : list HashValue :=
  match k with
  | O => []
  | S k => at_or_placeholder ls (sibling_index i) :: sibs k (Nat.div2 i) (parents ls)
  end.

(** Of these, the ones to the left, and the ones to the right. *)
Fixpoint left_sibs (k : nat) (i : nat) ls : list HashValue :=
  match k with
  | O => []
  | S k => (if Nat.odd i then [at_or_placeholder ls (pred i)] else [])
             ++ left_sibs k (Nat.div2 i) (parents ls)
  end.

Fixpoint right_sibs (k : nat) (i : nat) ls : list HashValue :=
  match k with
  | O => []
  | S k => (if Nat.even i then [at_or_placeholder ls (S i)] else [])
             ++ right_sibs k (Nat.div2 i) (parents ls)
  end.

(** The pairs hashed to compute the level above [ls], and all levels. *)
Fixpoint level_pairs ls : list (HashValue * HashValue) :=
  match ls with
  | a :: b :: r => (a, b) :: level_pairs r
  | [a] => [(a, ACCUMULATOR_PLACEHOLDER_HASH)]
  | [] => []
  end.

Fixpoint tree_pairs (k : nat) ls : list (HashValue * HashValue) :=
  match k with O => [] | S k => level_pairs ls ++ tree_pairs k (parents ls) end.

Lemma level_pairs_lookup ls (i : nat) a : ls !! (2 * i)%nat = Some a ->
  (a, at_or_placeholder ls (2 * i + 1)) ∈ level_pairs ls.
Proof.
  revert i. induction ls as [|x|x y ls IH] using list_pair_ind; intros i; [done|..].
  - destruct i as [|i]; [intros [= ->]; set_solver|].
    by replace (2 * S i)%nat with (S (S (2 * i))) by lia.
  - destruct i as [|i]; [intros [= ->]; set_solver|].
    replace (2 * S i)%nat with (S (S (2 * i))) by lia. intros Ha. right.
    apply (IH i Ha).
Qed.

Lemma tree_pairs_plevel (k j : nat) ls : (j < k)%nat ->
  level_pairs (plevel j ls) ⊆ tree_pairs k ls.
Proof.
  revert j ls. induction k as [|k IH]; intros j ls Hj; [lia|]. simpl.
  destruct j as [|j]; simpl; [set_solver|]. specialize (IH j (parents ls)). set_solver by lia.
Qed.

End spec.

#[global] Opaque frozen_roots.

#[global] Arguments frozen : simpl never.
#[global] Arguments merkle_root : simpl never.
