(* ===== verification/InMemAccumulator.v ===== *)
(** * The in-memory accumulator (types/src/proof/accumulator/mod.rs)

    [InMemoryAccumulator] keeps the roots of the frozen subtrees of an
    append-only Merkle tree, the number of leaves and the root hash. Module
    [InMemoryAccumulator] has its operations; the theorems say that they
    compute what [MerkleSpec] defines on the list of all leaves, which the
    code no longer has. *)
From stdpp Require Import prelude strings.
From Stdlib Require Import ZArith Lia.
From S2P Require Import Prelude Bits Positions PositionIters Hash MerkleSpec.

(** [vec.pop()] *)
Definition vec_pop {A} (l : list A) : option (list A * A) :=
  match reverse l with
  | [] => None
  | x :: r => Some (reverse r, x)
  end.

Lemma vec_pop_snoc {A} (l : list A) x : vec_pop (l ++ [x]) = Some (l, x).
Proof. unfold vec_pop. by rewrite reverse_snoc, reverse_involutive. Qed.

Module InMemoryAccumulator.
Section accumulator.
Context {HashValue : Type} `{MerkleHasher HashValue}.

Record t := mk {
  frozen_subtree_roots : list HashValue;
  num_leaves : Z;
  root_hash : HashValue
}.

(** The loop of [compute_root_hash], [while bitmap > 0]: every iteration
    drops a bit of the word, so 64 iterations empty it. [frozen_subtree_iter]
    is the list still to be consumed, rightmost root first. *)
Fixpoint root_loop (n : nat) (bitmap : Z) (current_hash : HashValue)
    (frozen_subtree_iter : list HashValue) : outcome string HashValue :=
  match n with
  | O => Ok current_hash
  | S n =>
      if 0 <? bitmap then
        if negb ((bitmap .& 1)%u64 =? 0) then
          match frozen_subtree_iter with
          | [] => Panic
          | frozen_root :: rest =>
              root_loop n (bitmap >> 1)%u64 (hash_internal_node frozen_root current_hash) rest
          end
        else
          root_loop n (bitmap >> 1)%u64
            (hash_internal_node current_hash ACCUMULATOR_PLACEHOLDER_HASH) frozen_subtree_iter
      else Ok current_hash
  end.

Definition compute_root_hash (frozen_subtree_roots : list HashValue) (num_leaves : Z)
    : outcome string HashValue :=
  match frozen_subtree_roots with
  | [] => Ok ACCUMULATOR_PLACEHOLDER_HASH
  | [r] => Ok r
  | _ =>
      let bitmap := (num_leaves >> trailing_zeros num_leaves)%u64 in
      root_loop 64 bitmap ACCUMULATOR_PLACEHOLDER_HASH (reverse frozen_subtree_roots)
  end.

Definition new (frozen_subtree_roots : list HashValue) (num_leaves : Z) : outcome string t :=
  ensure (Z.of_nat (length frozen_subtree_roots) =? count_ones num_leaves)
    "The number of frozen subtrees does not match the number of leaves."%string ;;
  root_hash ← compute_root_hash frozen_subtree_roots num_leaves;
  Ok (mk frozen_subtree_roots num_leaves root_hash).

Definition new_empty : t := mk [] 0 SPARSE_MERKLE_PLACEHOLDER_HASH.

(** [res.expect(..)]: an error becomes a panic. *)
Definition unwrap {A} (m : outcome string A) : outcome string A :=
  match m with Ok a => Ok a | _ => Panic end.

(** [impl Default] *)
Definition default_ : outcome string t := unwrap (new [] 0).

(** [for _i in 0..num_trailing_ones] of [append_one]. *)
Fixpoint merge_loop (n : nat) (frozen_subtree_roots : list HashValue)
    : outcome string (list HashValue) :=
  match n with
  | O => Ok frozen_subtree_roots
  | S n =>
      '(frozen_subtree_roots, right_hash) ← expect (vec_pop frozen_subtree_roots);
      '(frozen_subtree_roots, left_hash) ← expect (vec_pop frozen_subtree_roots);
      let parent_hash := hash_internal_node left_hash right_hash in
      merge_loop n (frozen_subtree_roots ++ [parent_hash])
  end.

Definition append_one (frozen_subtree_roots : list HashValue) (num_existing_leaves : Z)
    (leaf : HashValue) : outcome string (list HashValue) :=
  let frozen_subtree_roots := frozen_subtree_roots ++ [leaf] in
  let num_trailing_ones := trailing_zeros (~. num_existing_leaves)%u64 in
  merge_loop (Z.to_nat num_trailing_ones) frozen_subtree_roots.

(** [for leaf in leaves] of [append]. *)
Fixpoint append_loop (leaves : list HashValue) (frozen_subtree_roots : list HashValue)
    (num_leaves : Z) : outcome string (list HashValue * Z) :=
  match leaves with
  | [] => Ok (frozen_subtree_roots, num_leaves)
  | leaf :: leaves =>
      frozen_subtree_roots ← append_one frozen_subtree_roots num_leaves leaf;
      append_loop leaves frozen_subtree_roots (num_leaves + 1)%u64
  end.

Definition append (self : t) (leaves : list HashValue) : outcome string t :=
  '(frozen_subtree_roots, num_leaves) ←
    append_loop leaves (frozen_subtree_roots self) (num_leaves self);
  unwrap (new frozen_subtree_roots num_leaves).

Definition from_leaves (leaves : list HashValue) : outcome string t :=
  acc ← default_; append acc leaves.

(** The inner loop of [append_subtrees], [while current_num_leaves & mask != 0].
    [current_subtree_roots] is the vector with its last element first. *)
Fixpoint carry_loop (current_subtree_roots : list HashValue) (current_num_leaves mask : Z)
    (current_hash : HashValue) : outcome string (list HashValue * Z * HashValue) :=
  if negb ((current_num_leaves .& mask)%u64 =? 0) then
    match current_subtree_roots with
    | [] => Panic
    | left_hash :: current_subtree_roots =>
        carry_loop current_subtree_roots current_num_leaves (mask << 1)%u64
          (hash_internal_node left_hash current_hash)
    end
  else Ok (current_subtree_roots, mask, current_hash).

(** The outer loop, [while remaining_new_leaves >= rightmost_frozen_subtree_size],
    and what follows it; every iteration consumes a subtree. *)
Fixpoint subtree_loop (subtree_iter : list HashValue) (current_subtree_roots : list HashValue)
    (current_num_leaves remaining_new_leaves rightmost_frozen_subtree_size : Z)
    : outcome string t :=
  if rightmost_frozen_subtree_size <=? remaining_new_leaves then
    match subtree_iter with
    | [] => Err "Too few subtrees."%string
    | current_hash :: subtree_iter =>
        '(roots, mask, current_hash) ←
          carry_loop (reverse current_subtree_roots) current_num_leaves
            rightmost_frozen_subtree_size current_hash;
        subtree_loop subtree_iter (reverse roots ++ [current_hash])
          (current_num_leaves + rightmost_frozen_subtree_size)%u64
          (remaining_new_leaves - rightmost_frozen_subtree_size)%u64 mask
    end
  else
    new (current_subtree_roots ++ subtree_iter) (current_num_leaves + remaining_new_leaves)%u64.

Definition append_subtrees (self : t) (subtrees : list HashValue) (num_new_leaves : Z)
    : outcome string t :=
  ensure (num_new_leaves <=? (MAX_ACCUMULATOR_LEAVES - num_leaves self)%u64)
    "Too many new leaves."%string ;;
  if num_leaves self =? 0 then new subtrees num_new_leaves
  else
    let rightmost_frozen_subtree_size := (1 << trailing_zeros (num_leaves self))%u64 in
    subtree_loop subtrees (frozen_subtree_roots self) (num_leaves self) num_new_leaves
      rightmost_frozen_subtree_size.

Definition version (self : t) : Z :=
  if num_leaves self =? 0 then 0 else (num_leaves self - 1)%u64.

Definition is_empty (self : t) : bool := num_leaves self =? 0.

(** [impl PartialEq] *)
Definition eqb (self other : t) : bool :=
  (num_leaves self =? num_leaves other)
  && bool_decide (root_hash self = root_hash other)
  && bool_decide (frozen_subtree_roots self = frozen_subtree_roots other).

End accumulator.
Arguments t HashValue : clear implicits.
End InMemoryAccumulator.

Section proofs.
Context {HashValue : Type} `{MerkleHasher HashValue}.
Import InMemoryAccumulator.
Implicit Types (ls ms : list HashValue).

(** ** Appending one leaf is a carry *)

Lemma num_app ls ms : num (ls ++ ms) = num ls + num ms.
Proof. unfold num. rewrite length_app. lia. Qed.

Lemma num_even es : Nat.even (length es) = true -> num es = 2 * num (full_parents es).
Proof.
  intros He. unfold num. rewrite length_full_parents.
  apply Nat.even_spec, Nat.Even_double in He. unfold Nat.double in He. lia.
Qed.

Lemma frozen_carry (k : nat) es y x : Nat.even (length es) = true ->
  frozen (S k) ((es ++ [y]) ++ [x]) = frozen k (full_parents es ++ [hash_internal_node y x]).
Proof.
  intros He. rewrite <- app_assoc. change ([y] ++ [x]) with [y; x].
  pose proof (frozen_split k (es ++ [y; x]) None) as Hs. simpl option_list in Hs.
  rewrite !app_nil_r in Hs. rewrite Hs, full_parents_app by done || by rewrite length_app, Nat.even_add, He.
  done.
Qed.

Lemma merge_loop_frozen (k : nat) ls x : num ls + 1 < 2 ^ Z.of_nat k -> (k <= 64)%nat ->
  merge_loop (Z.to_nat (trailing_zeros (~. (num ls))%u64)) (frozen k ls ++ [x])
  = Ok (frozen k (ls ++ [x])).
Proof.
  revert ls x. induction k as [|k IH]; intros ls x Hk Hk'.
  { unfold num in *. simpl in *. lia. }
  assert (2 ^ Z.of_nat (S k) <= 2 ^ 64) by (apply Z.pow_le_mono_r; lia).
  destruct (even_split ls) as (es & o & -> & He). rewrite num_app in *.
  pose proof (num_even es He) as E. assert (Hn : 0 <= num (full_parents es)) by (unfold num; lia).
  rewrite Nat2Z.inj_succ, Z.pow_succ_r in * by lia.
  rewrite frozen_split by done. destruct o as [y|]; simpl option_list in *.
  - change (num [y]) with 1 in *. rewrite E, trailing_ones_odd, Z.add_1_l, Z2Nat.inj_succ by
      (try apply trailing_zeros_nonneg; lia).
    cbn [merge_loop]. rewrite frozen_carry, vec_pop_snoc by done. simpl.
    rewrite vec_pop_snoc. simpl. apply IH; lia.
  - change (num []) with 0 in *. rewrite E, Z.add_0_r, trailing_ones_even by lia. simpl.
    rewrite !app_nil_r. f_equal. symmetry. apply (frozen_split k es (Some x) He).
Qed.

(** ** The root hash *)

Lemma root_at_parents (k : nat) ls : root_at (S k) ls = root_at k (parents ls).
Proof. done. Qed.

Lemma depth_half n : 2 <= n -> depth n = 1 + depth ((n + 1) / 2).
Proof.
  intros Hn. unfold depth. destruct (Z.eq_dec n 2) as [->|]; [done|].
  rewrite !Z.log2_up_eqn by (try apply Z.div_lt_upper_bound; Z.div_mod_to_equations; lia).
  replace (Z.pred ((n + 1) / 2)) with (Z.pred n / 2) by (Z.div_mod_to_equations; lia).
  rewrite <- (Z.shiftr_div_pow2 _ 1), Z.log2_shiftr by lia.
  pose proof (Z.log2_le_mono 2 (Z.pred n) ltac:(lia)) as Hm. change (Z.log2 2) with 1 in Hm. lia.
Qed.

(** From two leaves on, the root of a level is the root of the next. *)
Lemma merkle_root_parents ls : 2 <= num ls -> merkle_root ls = merkle_root (parents ls).
Proof.
  intros Hn. unfold merkle_root. rewrite depth_half by done.
  assert (num (parents ls) = (num ls + 1) / 2) as ->.
  { unfold num. rewrite length_parents, Nat.div2_div, Nat2Z.inj_div, Nat2Z.inj_succ.
    f_equal; lia. }
  rewrite Z.add_1_l, Z2Nat.inj_succ by apply Z.log2_up_nonneg. done.
Qed.

Lemma odd_word_bit a : (a .& 1)%u64 = a mod 2.
Proof. apply (Z.land_ones a 1). lia. Qed.

(** The loop on the whole of [num_leaves]: the leaves and one more node. *)
Lemma root_loop_frozen (n k : nat) ls c : (k <= n)%nat -> num ls < 2 ^ Z.of_nat k ->
  root_loop n (num ls) c (reverse (frozen k ls)) = Ok (merkle_root (ls ++ [c])).
Proof.
  revert n ls c. induction k as [|k IH]; intros n ls c Hkn Hk.
  { destruct ls; [|unfold num in *; simpl in *; lia]. by destruct n. }
  destruct n as [|n]; [lia|].
  destruct (even_split ls) as (es & o & -> & He). rewrite frozen_split by done.
  rewrite num_app in *. pose proof (num_even es He) as E.
  assert (Hn : 0 <= num (full_parents es)) by (unfold num; lia).
  rewrite Nat2Z.inj_succ, Z.pow_succ_r in * by lia. cbn [root_loop].
  rewrite odd_word_bit, u64_shr_div by lia. change (2 ^ 1) with 2.
  destruct o as [y|]; simpl option_list in *.
  - change (num [y]) with 1 in *. destruct (Z.ltb_spec 0 (num es + 1)); [|lia].
    rewrite E, Z.add_comm, Z.mul_comm, Z.mod_add, Z.div_add by lia. simpl negb.
    cbv iota. rewrite reverse_snoc, Z.add_0_l, IH by lia. f_equal.
    rewrite <- app_assoc. change ([y] ++ [c]) with [y; c].
    rewrite (merkle_root_parents (es ++ [y; c])), parents_app; [done..|].
    rewrite num_app. change (num [y; c]) with 2. lia.
  - change (num []) with 0 in *. rewrite !app_nil_r, Z.add_0_r in *.
    destruct (Z.ltb_spec 0 (num es)).
    + rewrite E, Z.mul_comm, Z.mod_mul, Z.div_mul by lia. simpl negb. cbv iota.
      rewrite IH by lia. f_equal.
      rewrite (merkle_root_parents (es ++ [c])), parents_app; [done..|].
      rewrite num_app. change (num [c]) with 1. lia.
    + destruct es as [|? ?]; [|unfold num in *; simpl in *; lia]. simpl.
      by destruct n.
Qed.

(** One frozen root for every set bit of the number of leaves. *)
Lemma frozen_length (k : nat) ls : num ls < 2 ^ Z.of_nat k ->
  Z.of_nat (length (frozen k ls)) = count_ones (num ls).
Proof.
  revert ls. induction k as [|k IH]; intros ls Hk.
  { destruct ls; [done|unfold num in *; simpl in *; lia]. }
  destruct (even_split ls) as (es & o & -> & He).
  rewrite frozen_split, num_app, length_app, Nat2Z.inj_add in * by done.
  pose proof (num_even es He) as E. assert (0 <= num (full_parents es)) by (unfold num; lia).
  rewrite Nat2Z.inj_succ, Z.pow_succ_r in Hk by lia. rewrite IH by (destruct o; unfold num in *; simpl in *; lia).
  destruct o as [y|]; simpl option_list.
  - change (num [y]) with 1. rewrite E, count_ones_odd by lia. simpl. lia.
  - change (num []) with 0. simpl length. rewrite E, !Z.add_0_r, count_ones_double. done.
Qed.

Lemma compute_root_hash_double (roots : list HashValue) n : 0 < n < 2 ^ 63 ->
  compute_root_hash roots (2 * n) = compute_root_hash roots n.
Proof.
  intros Hn. unfold compute_root_hash.
  destruct (trailing_zeros_divide n ltac:(lia)) as [? [q Hq]].
  pose proof (trailing_zeros_63 n ltac:(lia)). pose proof (pow2_pos (trailing_zeros n)).
  assert (trailing_zeros n < 63).
  { assert (2 ^ trailing_zeros n <= n) by (apply Z.divide_pos_le; [lia|by exists q]).
    apply Z.pow_lt_mono_r_iff with 2; lia. }
  assert (((2 * n)%Z >> trailing_zeros (2 * n))%u64 = (n >> trailing_zeros n)%u64) as ->; [|done].
  rewrite trailing_zeros_double, !u64_shr_div, Z.add_1_l, Z.pow_succ_r by lia.
  apply Z.div_mul_cancel_l; lia.
Qed.

Lemma parents_even es : Nat.even (length es) = true -> parents es = full_parents es.
Proof. intros He. rewrite <- (app_nil_r es) at 1. rewrite parents_app by done. apply app_nil_r. Qed.

Lemma num_nonneg ls : 0 <= num ls.
Proof. unfold num. lia. Qed.

Lemma num_0 ls : num ls = 0 -> ls = [].
Proof. destruct ls; unfold num; simpl; [done|lia]. Qed.

(** The root of an odd level of at least three nodes: completing it with a
    placeholder changes nothing. *)
Lemma merkle_root_pad es y : Nat.even (length es) = true -> 0 < num es ->
  merkle_root ((es ++ [y]) ++ [ACCUMULATOR_PLACEHOLDER_HASH]) = merkle_root (es ++ [y]).
Proof.
  intros He Hn. pose proof (num_even es He).
  rewrite <- app_assoc. rewrite merkle_root_parents, (merkle_root_parents (es ++ [y])).
  - by rewrite (parents_app es), (parents_app es [y]).
  - rewrite num_app. change (num [y]) with 1. lia.
  - rewrite !num_app. change (num [y]) with 1. pose proof (num_nonneg [ACCUMULATOR_PLACEHOLDER_HASH]). lia.
Qed.

Lemma compute_root_hash_frozen (k : nat) ls : (k <= 64)%nat -> num ls < 2 ^ Z.of_nat k ->
  compute_root_hash (frozen k ls) (num ls) = Ok (merkle_root ls).
Proof.
  revert ls. induction k as [|k IH]; intros ls Hk64 Hk.
  { by assert (ls = []) as -> by (apply num_0; pose proof (num_nonneg ls); simpl in *; lia). }
  destruct (even_split ls) as (es & o & -> & He).
  pose proof (frozen_length (S k) _ Hk) as Hlen. rewrite frozen_split in Hlen |- * by done.
  pose proof (num_even es He) as E. pose proof (num_nonneg (full_parents es)).
  assert (2 ^ Z.of_nat (S k) <= 2 ^ 64) by (apply Z.pow_le_mono_r; lia).
  rewrite Nat2Z.inj_succ, Z.pow_succ_r in * by lia.
  destruct o as [y|]; simpl option_list in *.
  - rewrite num_app in *. change (num [y]) with 1 in *.
    destruct (Z.eq_dec (num es) 0) as [He0|He0].
    { rewrite (num_0 es He0). cbn [full_parents].
      by rewrite <- (frozen_enough 0 k []) by (simpl; lia). }
    rewrite E, count_ones_odd in Hlen by lia.
    pose proof (count_ones_nonneg (num (full_parents es))).
    assert (count_ones (num (full_parents es)) <> 0) by (intros ?%count_ones_0; lia).
    unfold compute_root_hash.
    destruct (frozen k (full_parents es) ++ [y]) as [|r0 [|r1 rs]] eqn:Er;
      [simpl in Hlen; lia..|]. rewrite <- Er. clear r0 r1 rs Er Hlen.
    assert (trailing_zeros (num es + 1) = 0) as -> by (rewrite E; apply trailing_zeros_odd; lia).
    rewrite u64_shr_div, Z.div_1_r by lia.
    pose proof (frozen_split k es (Some y) He) as Hs. simpl option_list in Hs.
    pose proof (root_loop_frozen 64 (S k) (es ++ [y]) ACCUMULATOR_PLACEHOLDER_HASH) as Hr.
    rewrite Hs, num_app in Hr. change (num [y]) with 1 in Hr.
    rewrite Hr, merkle_root_pad; [done|done|lia|lia|].
    rewrite Nat2Z.inj_succ, Z.pow_succ_r; lia.
  - rewrite !app_nil_r in *. destruct (Z.eq_dec (num es) 0) as [He0|He0].
    { rewrite (num_0 es He0). cbn [full_parents].
      by rewrite <- (frozen_enough 0 k []) by (simpl; lia). }
    rewrite E, compute_root_hash_double, IH by lia. f_equal.
    by rewrite (merkle_root_parents es), parents_even by (done || lia).
Qed.

(** ** The representation invariant *)

(** The accumulator over the leaves [ls]. *)
Definition acc_of (ls : list HashValue) : t HashValue :=
  mk (frozen_roots ls) (num ls) (merkle_root ls).

Lemma new_frozen ls : num ls < 2 ^ 64 -> new (frozen_roots ls) (num ls) = Ok (acc_of ls).
Proof.
  intros Hn. unfold new, acc_of. rewrite (frozen_roots_at 64) by (done || lia).
  rewrite frozen_length, compute_root_hash_frozen, Z.eqb_refl by (done || lia). reflexivity.
Qed.

Lemma append_one_frozen ls x : num ls + 1 < 2 ^ 64 ->
  append_one (frozen_roots ls) (num ls) x = Ok (frozen_roots (ls ++ [x])).
Proof.
  intros Hn. unfold append_one.
  rewrite !(frozen_roots_at 64) by (rewrite ?length_app; unfold num in *; simpl; lia).
  by apply merge_loop_frozen.
Qed.

Lemma append_loop_frozen ms ls : num ls + num ms < 2 ^ 64 ->
  append_loop ms (frozen_roots ls) (num ls) = Ok (frozen_roots (ls ++ ms), num (ls ++ ms)).
Proof.
  revert ls. induction ms as [|x ms IH]; intros ls Hn; simpl; [by rewrite app_nil_r|].
  assert (num (x :: ms) = 1 + num ms) as E by (unfold num; simpl; lia).
  pose proof (num_nonneg ls). pose proof (num_nonneg ms).
  rewrite append_one_frozen by lia. simpl. rewrite u64_add_small by lia.
  assert (num ls + 1 = num (ls ++ [x])) as -> by by rewrite num_app.
  rewrite IH by (rewrite num_app; change (num [x]) with 1; lia). by rewrite <- app_assoc.
Qed.

(** ** Appending subtrees *)

Lemma land_double_odd a b o : 0 <= a -> (o = 0 \/ o = 1) -> Z.land (2 * a + o) (2 * b) = 2 * Z.land a b.
Proof.
  intros Ha Ho. rewrite <- land_double.
  destruct Ho as [->| ->]; [by rewrite Z.add_0_r|].
  apply Z.bits_inj'. intros i Hi. rewrite !Z.land_spec.
  destruct (Z.eq_dec i 0) as [->|].
  - by rewrite !(Z.testbit_even_0 b), !andb_false_r.
  - replace i with (Z.succ (Z.pred i)) by lia.
    by rewrite Z.testbit_odd_succ, !Z.testbit_even_succ by lia.
Qed.

Lemma land_pow2_le m j : 0 <= m -> 0 <= j -> (m .& 2 ^ j)%u64 <> 0 -> 2 ^ j <= m.
Proof.
  intros Hm Hj Hne. destruct (Z.le_gt_cases (2 ^ j) m) as [|Hlt]; [done|].
  destruct Hne. apply Z.bits_inj'. intros i Hi. rewrite Z.land_spec, Z.bits_0, Z.pow2_bits_eqb by lia.
  destruct (Z.eqb_spec j i) as [<-|]; [|apply andb_false_r].
  by rewrite testbit_small with (n := j) by lia.
Qed.

Lemma carry_loop_stop (roots : list HashValue) n mask h : (n .& mask)%u64 = 0 ->
  carry_loop roots n mask h = Ok (roots, mask, h).
Proof. intros E. destruct roots; simpl; by rewrite E. Qed.

Definition double_mask (r : list HashValue * Z * HashValue) : list HashValue * Z * HashValue :=
  let '(roots, mask, h) := r in (roots, 2 * mask, h).

(** The carry loop one level up. *)
Lemma carry_loop_double roots m o j h : 0 <= m < 2 ^ 62 -> (o = 0 \/ o = 1) -> 0 <= j ->
  carry_loop roots (2 * m + o) (2 * 2 ^ j) h = double_mask <$> carry_loop roots m (2 ^ j) h.
Proof.
  intros Hm Ho. revert j h. induction roots as [|r roots IH]; intros j h Hj; cbn [carry_loop].
  all: rewrite land_double_odd by (done || lia).
  all: destruct (Z.eqb_spec (m .& 2 ^ j)%u64 0) as [->|Hne]; [done|].
  all: destruct (Z.eqb_spec (2 * (m .& 2 ^ j)%u64) 0); [lia|].
  { done. }
  simpl. pose proof (land_pow2_le m j ltac:(lia) Hj Hne). pose proof (pow2_pos j Hj).
  rewrite !u64_shl_small, !Z.pow_1_r by lia.
  rewrite (Z.mul_comm (2 * 2 ^ j)), (Z.mul_comm (2 ^ j)), <- pow2_S by lia. apply IH. lia.
Qed.

Lemma land_1_double m : ((2 * m)%Z .& 1)%u64 = 0.
Proof. rewrite odd_word_bit, Z.mul_comm. apply Z.mod_mul. lia. Qed.

Lemma land_1_odd m : ((2 * m + 1)%Z .& 1)%u64 = 1.
Proof. rewrite odd_word_bit, Z.add_comm, Z.mul_comm. rewrite Z.mod_add by lia. done. Qed.

(** Carrying a new node [x] at the lowest level is appending it. *)
Lemma carry_one (k : nat) ls x : (k <= 63)%nat -> num ls < 2 ^ Z.of_nat k ->
  exists R h, carry_loop (reverse (frozen (S k) ls)) (num ls) 1 x
              = Ok (reverse R, 2 ^ trailing_zeros (num ls + 1), h)
              /\ R ++ [h] = frozen (S k) (ls ++ [x]).
Proof.
  revert ls x. induction k as [|k IH]; intros ls x Hk Hn.
  { pose proof (num_nonneg ls). assert (ls = []) as -> by (apply num_0; simpl in *; lia).
    exists [], x. done. }
  assert (2 ^ Z.of_nat (S k) <= 2 ^ 63) by (apply Z.pow_le_mono_r; lia).
  destruct (even_split ls) as (es & o & -> & He).
  rewrite num_app, frozen_split in * by done. pose proof (num_even es He) as E.
  pose proof (num_nonneg (full_parents es)). rewrite Nat2Z.inj_succ, Z.pow_succ_r in * by lia.
  destruct o as [y|]; simpl option_list in *.
  - change (num [y]) with 1 in *. rewrite reverse_snoc, frozen_carry by done.
    destruct (IH (full_parents es) (hash_internal_node y x)) as (R & h & HR & Hf); [lia..|].
    exists R, h. split; [|done]. cbn [carry_loop]. rewrite E, land_1_odd. cbn [negb].
    change (1 << 1)%u64 with (2 * 2 ^ 0). rewrite carry_loop_double by lia.
    change (2 ^ 0) with 1. rewrite HR. simpl. f_equal. f_equal. f_equal.
    replace (2 * num (full_parents es) + 1 + 1) with (2 * (num (full_parents es) + 1)) by lia.
    rewrite trailing_zeros_double, Z.add_1_l, Z.pow_succ_r; [done|apply trailing_zeros_nonneg|lia].
  - exists (frozen (S k) (full_parents es)), x. change (num []) with 0 in *.
    rewrite !app_nil_r, Z.add_0_r, E. split.
    + rewrite carry_loop_stop by apply land_1_double. by rewrite trailing_zeros_odd by lia.
    + symmetry. apply (frozen_split (S k) es (Some x) He).
Qed.

Lemma levels_even (t : nat) ls : Z.of_nat (length ls) = 2 ^ Z.of_nat (S t) ->
  Nat.even (length ls) = true /\ Z.of_nat (length (full_parents ls)) = 2 ^ Z.of_nat t.
Proof.
  rewrite Nat2Z.inj_succ, Z.pow_succ_r by lia. intros Hl.
  assert (length ls = 2 * Nat.pow 2 t)%nat as E
    by (apply Nat2Z.inj; rewrite Nat2Z.inj_mul, Nat2Z.inj_pow; exact Hl).
  split; [rewrite E; apply Nat.even_even|].
  rewrite length_full_parents, E, Nat.div2_double, Nat2Z.inj_pow. done.
Qed.

(** Carrying the root [h] of a complete subtree as large as the rightmost
    frozen subtree is appending its leaves. *)
Lemma carry_subtree (t k : nat) ls ts h : (k + t <= 63)%nat ->
  0 < num ls -> num ls < 2 ^ Z.of_nat (k + t) ->
  trailing_zeros (num ls) = Z.of_nat t -> num ts = 2 ^ Z.of_nat t -> levels t ts = [h] ->
  exists R h', carry_loop (reverse (frozen (S (k + t)) ls)) (num ls) (2 ^ Z.of_nat t) h
               = Ok (reverse R, 2 ^ trailing_zeros (num ls + 2 ^ Z.of_nat t), h')
               /\ R ++ [h'] = frozen (S (k + t)) (ls ++ ts).
Proof.
  revert k ls ts. induction t as [|t IH]; intros k ls ts Hk Hpos Hn Ht Hts Hh.
  { simpl in Hh. subst ts. apply carry_one; lia || done. }
  assert (Hmax : 2 ^ Z.of_nat (k + S t) <= 2 ^ 63) by (apply Z.pow_le_mono_r; lia).
  destruct (even_split ls) as (es & o & -> & He). pose proof (num_even es He) as E.
  pose proof (num_nonneg (full_parents es)). rewrite num_app in *.
  destruct o as [y|]; simpl option_list in *.
  { change (num [y]) with 1 in *. rewrite E, trailing_zeros_odd in Ht by lia. lia. }
  change (num []) with 0 in *. rewrite !app_nil_r, Z.add_0_r in *.
  destruct (levels_even t ts Hts) as [Hte Htl].
  rewrite E, trailing_zeros_double in Ht by lia. rewrite Nat.add_succ_r in *.
  rewrite Nat2Z.inj_succ, Z.pow_succ_r in Hn, Hmax by lia.
  destruct (IH k (full_parents es) (full_parents ts)) as (R & h' & HR & Hf); try done; try lia.
  exists R, h'. pose proof (frozen_split (S (k + t)) es None He) as Hs.
  pose proof (frozen_split (S (k + t)) (es ++ ts) None) as Hs2.
  simpl option_list in Hs, Hs2. rewrite !app_nil_r in Hs, Hs2.
  rewrite Hs, Hs2, full_parents_app by (done || by rewrite length_app, Nat.even_add, He, Hte).
  split; [|done]. rewrite E, Nat2Z.inj_succ, Z.pow_succ_r by lia.
  pose proof (carry_loop_double (reverse (frozen (S (k + t)) (full_parents es)))
    (num (full_parents es)) 0 (Z.of_nat t) h) as Hd.
  rewrite Z.add_0_r in Hd. rewrite Hd, HR by lia. simpl. do 3 f_equal.
  rewrite <- Z.mul_add_distr_l, trailing_zeros_double, Z.add_1_l, Z.pow_succ_r;
    [done|apply trailing_zeros_nonneg|]. pose proof (pow2_pos (Z.of_nat t)). lia.
Qed.

(** The subtrees below the rightmost frozen one are just listed after it. *)
Lemma frozen_app_small (k : nat) ls ms : num ms < 2 ^ trailing_zeros (num ls) ->
  frozen k (ls ++ ms) = frozen k ls ++ frozen k ms.
Proof.
  revert ls ms. induction k as [|k IH]; intros ls ms Hm; [done|].
  destruct (even_split ls) as (es & o & -> & He). pose proof (num_even es He) as E.
  pose proof (num_nonneg (full_parents es)). pose proof (num_nonneg ms). rewrite num_app in *.
  destruct o as [y|]; simpl option_list in *.
  { change (num [y]) with 1 in *. rewrite E, trailing_zeros_odd in Hm by lia.
    assert (ms = []) as -> by (apply num_0; simpl in *; lia).
    rewrite app_nil_r, <- (frozen_enough 0 (S k) []) by (simpl; lia). by rewrite app_nil_r. }
  change (num []) with 0 in *. rewrite !app_nil_r, Z.add_0_r in *.
  destruct (even_split ms) as (fs & o & -> & Hf).
  pose proof (frozen_split k es None He) as Hs. simpl option_list in Hs. rewrite !app_nil_r in Hs.
  rewrite app_assoc, frozen_split, full_parents_app, IH, Hs, (frozen_split k fs o), app_assoc;
    try done; [|by rewrite length_app, Nat.even_add, He, Hf].
  rewrite num_app in Hm. pose proof (num_even fs Hf). pose proof (num_nonneg (option_list o)).
  destruct (Z.eq_dec (num es) 0) as [E0|E0].
  - assert (num (full_parents es) = 0) as -> by lia. rewrite E0 in Hm.
    change (trailing_zeros 0) with 64 in *. pose proof (num_nonneg (full_parents fs)). lia.
  - rewrite E, trailing_zeros_double, Z.add_1_l, Z.pow_succ_r in Hm;
      [lia|apply trailing_zeros_nonneg|lia].
Qed.

Lemma levels_single (t : nat) ts : num ts = 2 ^ Z.of_nat t -> exists h, levels t ts = [h].
Proof.
  revert ts. induction t as [|t IH]; intros ts Ht.
  - destruct ts as [|h [|]]; unfold num in Ht; simpl in Ht; [lia|by exists h|lia].
  - apply IH. by apply levels_even.
Qed.

Lemma subtree_loop_frozen (n : nat) ls ms : (length ms < n)%nat ->
  0 < num ls -> num ls + num ms <= 2 ^ 63 ->
  subtree_loop (sub_hashes n (num ls) ms) (frozen_roots ls) (num ls) (num ms)
    (2 ^ trailing_zeros (num ls)) = Ok (acc_of (ls ++ ms)).
Proof.
  revert ls ms. induction n as [|n IH]; intros ls ms Hn Hpos Hmax; [lia|].
  pose proof (num_nonneg ms). cbn [sub_hashes].
  pose proof (trailing_zeros_63 (num ls) ltac:(lia)) as Htz.
  set (t := Z.to_nat (trailing_zeros (num ls))).
  assert (Et : trailing_zeros (num ls) = Z.of_nat t) by lia.
  assert (Ep : 2 ^ trailing_zeros (num ls) = Z.of_nat (2 ^ t)%nat) by (rewrite Et, Nat2Z.inj_pow; done).
  pose proof (pow2_pos (trailing_zeros (num ls)) ltac:(lia)).
  destruct (Z.leb_spec (2 ^ trailing_zeros (num ls)) (num ms)) as [Hle|Hgt].
  - destruct (levels_single t (take (2 ^ t) ms)) as [h Hh].
    { rewrite <- Et, Ep. unfold num in *. rewrite length_take. lia. }
    rewrite Hh. cbn [app subtree_loop].
    destruct (Z.leb_spec (2 ^ trailing_zeros (num ls)) (num ms)); [|lia].
    assert (Hts : num (take (2 ^ t) ms) = 2 ^ trailing_zeros (num ls)).
    { rewrite Ep. unfold num in *. rewrite length_take. lia. }
    assert (Hd : num (drop (2 ^ t) ms) = num ms - 2 ^ trailing_zeros (num ls)).
    { rewrite Ep. unfold num in *. rewrite length_drop. lia. }
    assert (Ht63 : (t <= 63)%nat).
    { enough (trailing_zeros (num ls) <= 63) by lia. apply Z.pow_le_mono_r_iff with 2; lia. }
    destruct (carry_subtree t (63 - t) ls (take (2 ^ t) ms) h) as (R & h' & HR & Hf);
      try done; try lia; [..|by rewrite Hts, Et|].
    { replace (63 - t + t)%nat with 63%nat by lia. simpl. lia. }
    replace (63 - t + t)%nat with 63%nat in * by lia.
    rewrite <- (frozen_roots_at 64 ls) in HR by (unfold num in *; simpl; lia).
    rewrite <- (frozen_roots_at 64 (ls ++ take (2 ^ t) ms)) in Hf
      by (rewrite ?length_app; unfold num in *; simpl in *; lia).
    rewrite Et. rewrite HR. cbn [mbind outcome_bind]. rewrite reverse_involutive, Hf, <- Et.
    rewrite u64_add_small, u64_sub_small, <- Hd, <- Hts, <- num_app by lia.
    rewrite IH.
    + by rewrite <- app_assoc, take_drop.
    + rewrite length_drop. unfold num in *. lia.
    + rewrite num_app. lia.
    + rewrite num_app. lia.
  - destruct (frozen_roots ms) eqn:Ef; cbn [subtree_loop].
    all: destruct (Z.leb_spec (2 ^ trailing_zeros (num ls)) (num ms)); [lia|].
    all: rewrite u64_add_small, <- Ef, <- num_app by lia.
    all: rewrite !(frozen_roots_at 64), <- frozen_app_small by (unfold num in *; simpl; lia).
    all: rewrite <- (frozen_roots_at 64) by (rewrite ?length_app; unfold num in *; simpl; lia).
    all: apply new_frozen; rewrite num_app; lia.
Qed.

(** ** Contracts *)

Lemma append_frozen ls ms : num ls + num ms < 2 ^ 64 -> append (acc_of ls) ms = Ok (acc_of (ls ++ ms)).
Proof.
  intros Hn. unfold append. cbn [acc_of frozen_subtree_roots num_leaves].
  rewrite append_loop_frozen by done. cbn [mbind outcome_bind].
  rewrite new_frozen; [done|]. by rewrite num_app.
Qed.

(** C24: The accumulator built and extended leaf by leaf is the Merkle
    accumulator of the list of all leaves: [default] has none, and [append]
    never panics and adds the new leaves at the end. The frozen roots, the
    number of leaves and the root hash are those of [MerkleSpec], whatever
    the batches in which the leaves arrived. *)
Theorem append_spec ls ms : num ls + num ms < 2 ^ 64 ->
  append (acc_of ls) ms = Ok (acc_of (ls ++ ms)) /\ from_leaves ms = Ok (acc_of ms)
  /\ default_ = Ok (acc_of []).
Proof.
  intros Hn. assert (Hd : default_ = Ok (acc_of [])) by done.
  split_and!; [by apply append_frozen| |done]. unfold from_leaves. rewrite Hd. simpl.
  apply (append_frozen []). pose proof (num_nonneg ls). change (num []) with 0. lia.
Qed.

Lemma append_subtrees_frozen ls ms : num ls + num ms <= 2 ^ 63 ->
  append_subtrees (acc_of ls) (new_subtrees (num ls) ms) (num ms) = Ok (acc_of (ls ++ ms)).
Proof.
  intros Hn. unfold append_subtrees. cbn [acc_of num_leaves frozen_subtree_roots].
  pose proof (num_nonneg ls). pose proof (num_nonneg ms).
  change MAX_ACCUMULATOR_LEAVES with (2 ^ 63). rewrite u64_sub_small by lia.
  destruct (Z.leb_spec (num ms) (2 ^ 63 - num ls)); [|lia]. simpl.
  destruct (Z.eqb_spec (num ls) 0) as [E0|].
  - rewrite (num_0 ls E0). unfold new_subtrees.
    cbn [sub_hashes]. change (2 ^ trailing_zeros (num [])) with (2 ^ 64).
    destruct (Z.leb_spec (2 ^ 64) (num ms)); [lia|]. apply (new_frozen ms). lia.
  - rewrite one_shl by (pose proof (trailing_zeros_63 (num ls) ltac:(lia)); lia).
    apply subtree_loop_frozen; lia.
Qed.

(** [append_subtrees], given the roots of the subtrees by which the leaves
    [ms] extend the accumulator, returns the accumulator of all the leaves
    without knowing any of them; it refuses to exceed [MAX_ACCUMULATOR_LEAVES]. *)
Theorem append_subtrees_spec ls ms subtrees n :
  num ls <= MAX_ACCUMULATOR_LEAVES ->
  (num ls + num ms <= MAX_ACCUMULATOR_LEAVES ->
   append_subtrees (acc_of ls) (new_subtrees (num ls) ms) (num ms) = Ok (acc_of (ls ++ ms)))
  /\ (MAX_ACCUMULATOR_LEAVES < num ls + n ->
      exists e, append_subtrees (acc_of ls) subtrees n = Err e).
Proof.
  intros Hl. split; [apply append_subtrees_frozen|].
  change MAX_ACCUMULATOR_LEAVES with (2 ^ 63) in *. intros Hn. unfold append_subtrees.
  change MAX_ACCUMULATOR_LEAVES with (2 ^ 63). cbn [acc_of num_leaves].
  pose proof (num_nonneg ls). rewrite u64_sub_small by lia.
  destruct (Z.leb_spec n (2 ^ 63 - num ls)); [lia|]. by eexists.
Qed.

End proofs.

Lemma append_spec_witness :
  InMemoryAccumulator.append (acc_of [SymLeaf 1; SymLeaf 2; SymLeaf 3]) [SymLeaf 4; SymLeaf 5]
  = Ok (acc_of [SymLeaf 1; SymLeaf 2; SymLeaf 3; SymLeaf 4; SymLeaf 5]).
Proof.
  refine (proj1 (append_spec [SymLeaf 1; SymLeaf 2; SymLeaf 3] [SymLeaf 4; SymLeaf 5] _)). reflexivity.
Defined.

Lemma append_subtrees_spec_witness :
  InMemoryAccumulator.append_subtrees (acc_of [SymLeaf 1; SymLeaf 2; SymLeaf 3])
    [SymLeaf 4; hash_internal_node (SymLeaf 5) (SymLeaf 6)] 3
  = Ok (acc_of [SymLeaf 1; SymLeaf 2; SymLeaf 3; SymLeaf 4; SymLeaf 5; SymLeaf 6]).
Proof.
  refine (proj1 (append_subtrees_spec [SymLeaf 1; SymLeaf 2; SymLeaf 3] [SymLeaf 4; SymLeaf 5; SymLeaf 6] [] 0 _) _);
    by vm_compute.
Defined.
