(* ===== verification/AccumulatorProofs.v ===== *)
(** * Proofs against an accumulator root (types/src/proof/definition.rs)

    [AccumulatorProof] authenticates one leaf, [AccumulatorRangeProof] a run of
    consecutive leaves, [AccumulatorExtensionProof] an accumulator and the
    leaves appended to it. The theorems are completeness (the proof read off
    the tree is accepted) and soundness: an accepted proof pins down the leaf,
    unless two of the pairs hashed on the way are a collision or a leaf is at
    once the hash of an internal node. *)
From stdpp Require Import prelude strings.
From Stdlib Require Import ZArith Lia.
From S2P Require Import Prelude Bits Positions PositionIters Hash MerkleSpec InMemAccumulator.

Module AccumulatorProof.
Section proof.
Context {HashValue : Type} `{MerkleHasher HashValue}.

Record t := new { siblings : list HashValue }.

(** The closure of [fold] in [verify]. *)
Definition fold_step (acc : HashValue * Z) (sibling_hash : HashValue) : HashValue * Z :=
  let '(hash, index) := acc in
  (if index mod 2 =? 0 then hash_internal_node hash sibling_hash
   else hash_internal_node sibling_hash hash,
   index / 2).

Definition verify (self : t) (expected_root_hash element_hash : HashValue) (element_index : Z)
    : outcome string unit :=
  ensure (Z.of_nat (length (siblings self)) <=? MAX_ACCUMULATOR_PROOF_DEPTH)
    "Accumulator proof has too many siblings."%string ;;
  let actual_root_hash :=
    (foldl fold_step (element_hash, element_index) (siblings self)).1 in
  ensure (bool_decide (actual_root_hash = expected_root_hash))
    "Root hashes do not match."%string.

Definition eqb (self other : t) : bool := bool_decide (siblings self = siblings other).

End proof.
Arguments t HashValue : clear implicits.
End AccumulatorProof.

Module AccumulatorRangeProof.
Section proof.
Context {HashValue : Type} `{MerkleHasher HashValue}.

Record t := new { left_siblings : list HashValue; right_siblings : list HashValue }.

Definition new_empty : t := new [] [].

(** The [chunks_exact(2)] iterator and its remainder: the parents of the
    pairs, and the last child when their number is odd. *)
Fixpoint chunks (children : list HashValue) : list HashValue * list HashValue :=
  match children with
  | left_hash :: right_hash :: rest =>
      let '(parent_hashes, remainder) := chunks rest in
      (hash_internal_node left_hash right_hash :: parent_hashes, remainder)
  | _ => ([], children)
  end.

(** The body of the loop: the parents of [current_hashes] and the siblings not
    yet consumed. *)
Definition combine (first_pos : Position.t) (current_hashes lefts rights : list HashValue)
    : outcome string (list HashValue * list HashValue * list HashValue) :=
  '(parent_hashes, children, lefts) ←
    (if Position.is_right_child first_pos then
       match lefts with
       | [] => Err "First child is a right child, but missing sibling on the left."%string
       | left_hash :: lefts =>
           match current_hashes with
           | [] => Panic
           | right_hash :: children => Ok ([hash_internal_node left_hash right_hash], children, lefts)
           end
       end
     else Ok ([], current_hashes, lefts));
  let '(pairs, remainder) := chunks children in
  match remainder with
  | [] => Ok (parent_hashes ++ pairs, lefts, rights)
  | left_hash :: _ =>
      match rights with
      | [] => Err "Last child is a left child, but missing sibling on the right."%string
      | right_hash :: rights =>
          Ok (parent_hashes ++ pairs ++ [hash_internal_node left_hash right_hash], lefts, rights)
      end
  end.

(** [current_hashes.len() > 1 || left_sibling_iter.peek().is_some()
    || right_sibling_iter.peek().is_some()] *)
Definition unfinished (current_hashes lefts rights : list HashValue) : bool :=
  (1 <? Z.of_nat (length current_hashes))
  || negb (bool_decide (lefts = [])) || negb (bool_decide (rights = [])).

(** The [while] loop, [fuel] iterations at most; [range_loop_terminates] shows
    that the number of hashes and siblings is enough. *)
Fixpoint range_loop (fuel : nat) (first_pos : Position.t)
    (current_hashes lefts rights : list HashValue) : outcome string (list HashValue) :=
  match fuel with
  | O => Ok current_hashes
  | S fuel =>
      if unfinished current_hashes lefts rights then
        '(current_hashes, lefts, rights) ← combine first_pos current_hashes lefts rights;
        range_loop fuel (Position.parent first_pos) current_hashes lefts rights
      else Ok current_hashes
  end.

Definition measure (current_hashes lefts rights : list HashValue) : nat :=
  length current_hashes + length lefts + length rights.

Definition verify (self : t) (expected_root_hash : HashValue) (first_leaf_index : option Z)
    (leaf_hashes : list HashValue) : outcome string unit :=
  match first_leaf_index with
  | None =>
      ensure (bool_decide (leaf_hashes = []))
        "first_leaf_index indicated empty list while leaf_hashes is not empty."%string ;;
      ensure (bool_decide (left_siblings self = []) && bool_decide (right_siblings self = []))
        "No siblings are needed."%string ;;
      Ok tt
  | Some first_leaf_index =>
      ensure (Z.of_nat (length (left_siblings self)) <=? MAX_ACCUMULATOR_PROOF_DEPTH)
        "Proof has too many left siblings."%string ;;
      ensure (Z.of_nat (length (right_siblings self)) <=? MAX_ACCUMULATOR_PROOF_DEPTH)
        "Proof has too many right siblings."%string ;;
      ensure (negb (bool_decide (leaf_hashes = [])))
        "leaf_hashes is empty while first_leaf_index indicated non-empty list."%string ;;
      let first_pos := Position.from_leaf_index first_leaf_index in
      current_hashes ←
        range_loop (measure leaf_hashes (left_siblings self) (right_siblings self)) first_pos
          leaf_hashes (left_siblings self) (right_siblings self);
      root ← expect (current_hashes !! 0%nat);
      ensure (bool_decide (root = expected_root_hash)) "Root hashes do not match."%string ;;
      Ok tt
  end.

End proof.
Arguments t HashValue : clear implicits.
End AccumulatorRangeProof.

Module AccumulatorExtensionProof.
Section proof.
Context {HashValue : Type} `{MerkleHasher HashValue}.

Record t := new {
  frozen_subtree_roots : list HashValue;
  num_leaves : Z;
  leaves : list HashValue
}.

Definition verify (self : t) (original_root : HashValue)
    : outcome string (InMemoryAccumulator.t HashValue) :=
  original_tree ← InMemoryAccumulator.new (frozen_subtree_roots self) (num_leaves self);
  ensure (bool_decide (InMemoryAccumulator.root_hash original_tree = original_root))
    "Root hashes do not match."%string ;;
  InMemoryAccumulator.append original_tree (leaves self).

End proof.
Arguments t HashValue : clear implicits.
End AccumulatorExtensionProof.

(** ** One leaf *)

Section single.
Context {HashValue : Type} `{MerkleHasher HashValue}.
Import AccumulatorProof.
Implicit Types (ls : list HashValue).

Lemma fold_step_even a s (i : nat) : Nat.even i = true ->
  fold_step (a, Z.of_nat i) s = (hash_internal_node a s, Z.of_nat (Nat.div2 i)).
Proof.
  intros He. unfold fold_step. apply Nat.even_spec, Nat.Even_double in He.
  unfold Nat.double in He. rewrite He at 1 2.
  replace (Z.of_nat (Nat.div2 i + Nat.div2 i)) with (Z.of_nat (Nat.div2 i) * 2) by lia.
  by rewrite Z.mod_mul, Z.div_mul by lia.
Qed.

Lemma fold_step_odd a s (i : nat) : Nat.even i = false ->
  fold_step (a, Z.of_nat i) s = (hash_internal_node s a, Z.of_nat (Nat.div2 i)).
Proof.
  intros He. unfold fold_step. rewrite <- Nat.negb_odd in He. apply negb_false_iff in He.
  apply Nat.odd_spec, Nat.Odd_double in He. unfold Nat.double in He. rewrite He at 1 2.
  replace (Z.of_nat (S (Nat.div2 i + Nat.div2 i))) with (1 + Z.of_nat (Nat.div2 i) * 2) by lia.
  by rewrite Z.mod_add, Z.div_add, Z.add_0_l by lia.
Qed.

(** A node and its sibling on a level hash to their parent. *)
Lemma parent_of_siblings ls (i : nat) a : ls !! i = Some a ->
  parents ls !! Nat.div2 i = Some
    (if Nat.even i then hash_internal_node a (at_or_placeholder ls (sibling_index i))
     else hash_internal_node (at_or_placeholder ls (sibling_index i)) a).
Proof.
  intros Ha. unfold sibling_index. rewrite parents_lookup. destruct (Nat.even i) eqn:He.
  - apply Nat.even_spec, Nat.Even_double in He. unfold Nat.double in He.
    replace (2 * Nat.div2 i)%nat with i by lia. rewrite Ha. simpl.
    do 3 f_equal. lia.
  - rewrite <- Nat.negb_odd in He. apply negb_false_iff in He.
    apply Nat.odd_spec, Nat.Odd_double in He. unfold Nat.double in He.
    destruct (lookup_lt_is_Some_2 ls (2 * Nat.div2 i)%nat) as [b Hb].
    { apply lookup_lt_Some in Ha. lia. }
    rewrite Hb. cbn [fmap option_fmap option_map]. unfold at_or_placeholder.
    replace (2 * Nat.div2 i + 1)%nat with i by lia.
    replace (pred i) with (2 * Nat.div2 i)%nat by lia. by rewrite Ha, Hb.
Qed.

Lemma fold_sibs (k i : nat) ls a : ls !! i = Some a ->
  plevel k ls !! Nat.div i (2 ^ k) = Some (foldl fold_step (a, Z.of_nat i) (sibs k i ls)).1.
Proof.
  revert i ls a. induction k as [|k IH]; intros i ls a Ha.
  { change (2 ^ 0)%nat with 1%nat. by rewrite Nat.div_1_r. }
  cbn [plevel sibs foldl]. pose proof (parent_of_siblings ls i a Ha) as Hp.
  rewrite Nat.pow_succ_r', <- Nat.Div0.div_div, <- Nat.div2_div.
  rewrite (IH (Nat.div2 i) _ _ Hp).
  destruct (Nat.even i) eqn:He; [by rewrite fold_step_even | by rewrite fold_step_odd].
Qed.

(** The pairs hashed by the fold. *)
Fixpoint path_pairs (e : HashValue) (i : Z) (siblings : list HashValue)
    : list (HashValue * HashValue) :=
  match siblings with
  | [] => []
  | s :: r =>
      (if i mod 2 =? 0 then (e, s) else (s, e)) :: path_pairs (fold_step (e, i) s).1 (i / 2) r
  end.

(** [x] is a node of the tree, the [q]-th of the [n]-th level over [ls], or a
    placeholder. *)
Definition located ls (n : nat) (q : Z) (x : HashValue) : Prop :=
  plevel n ls !! Z.to_nat q = Some x \/ x = ACCUMULATOR_PLACEHOLDER_HASH.

Lemma located_at ls n q q' x : q = q' -> located ls n q x -> located ls n q' x.
Proof. by intros ->. Qed.

(** No pair of [hs] hashes to one of [xs]. *)
Definition separated (hs : list (HashValue * HashValue)) (xs : list HashValue) : Prop :=
  forall x, x ∈ hs -> hash_internal_node x.1 x.2 ∉ xs.

Section sound.
Context (ls : list HashValue) (hs : list (HashValue * HashValue)) (d : nat).
Context (Hcf : collision_free hs) (Htree : tree_pairs d ls ⊆ hs).
Context (Hsep : separated hs (ACCUMULATOR_PLACEHOLDER_HASH :: ls)).

(** The children of a located hash of [hs] are located. *)
Lemma located_children (n : nat) q x : x ∈ hs -> 0 <= q -> (n <= d)%nat ->
  located ls n q (hash_internal_node x.1 x.2) ->
  exists n', n = S n' /\ located ls n' (2 * q) x.1 /\ located ls n' (2 * q + 1) x.2.
Proof.
  intros Hx Hq Hn [Hl|Hl]; [|destruct (Hsep x Hx); rewrite Hl; set_solver].
  destruct n as [|n'].
  { destruct (Hsep x Hx). right. by eapply list_elem_of_lookup_2. }
  exists n'. split; [done|]. rewrite plevel_S, parents_lookup in Hl.
  apply fmap_Some in Hl as (a & Ha & Hh).
  assert (Hp : (a, at_or_placeholder (plevel n' ls) (2 * Z.to_nat q + 1)) ∈ hs).
  { apply Htree, (tree_pairs_plevel d n'); [lia|]. by apply level_pairs_lookup. }
  pose proof (Hcf _ _ Hx Hp Hh) as ->. unfold located. cbn [fst snd].
  replace (Z.to_nat (2 * q)) with (2 * Z.to_nat q)%nat by lia.
  replace (Z.to_nat (2 * q + 1)) with (2 * Z.to_nat q + 1)%nat by lia.
  split; [by left|]. unfold at_or_placeholder. 
  destruct (plevel n' ls !! (2 * Z.to_nat q + 1)%nat); [by left|by right].
Qed.

Lemma fold_located siblings e i q : 0 <= i -> 0 <= q ->
  path_pairs e i siblings ⊆ hs ->
  located ls d q (foldl fold_step (e, i) siblings).1 ->
  exists n, (d = n + length siblings)%nat
            /\ located ls n (q * 2 ^ Z.of_nat (length siblings)
                             + i mod 2 ^ Z.of_nat (length siblings)) e.
Proof.
  revert e i. induction siblings as [|s r IH]; intros e i Hi Hq Hp Hr.
  { exists d. simpl. rewrite Z.mod_1_r, Z.mul_1_r, Z.add_0_r. split; [lia|done]. }
  cbn [path_pairs foldl] in Hp, Hr. unfold fold_step at 2 in Hr. cbn [fst] in Hr.
  apply IH in Hr as (n & Hn & Hloc); [|apply Z.div_pos; lia|done|set_solver].
  set (m := Z.of_nat (length r)) in *. pose proof (pow2_pos m ltac:(lia)).
  assert (Hx : (if i mod 2 =? 0 then (e, s) else (s, e)) ∈ hs) by set_solver.
  assert (Hi' : i mod 2 ^ (m + 1) = 2 * ((i / 2) mod 2 ^ m) + i mod 2).
  { rewrite pow2_S, Z.rem_mul_r by lia. lia. }
  replace (Z.of_nat (length (s :: r))) with (m + 1) by (simpl; lia).
  pose proof (Z.mod_pos_bound (i / 2) (2 ^ m) ltac:(lia)).
  pose proof (Z.mod_pos_bound i 2 ltac:(lia)).
  destruct (located_children n (q * 2 ^ m + (i / 2) mod 2 ^ m) _ Hx)
    as (n' & -> & HL & HR); [nia|lia|by destruct (i mod 2 =? 0)|].
  exists n'. split; [simpl; lia|]. rewrite Hi', pow2_S by lia.
  destruct (Z.eqb_spec (i mod 2) 0) as [E|E]; cbn [fst snd] in *.
  - eapply located_at; [|exact HL]. lia.
  - eapply located_at; [|exact HR]. lia.
Qed.

End sound.

Lemma plevel_nonempty (k : nat) ls : ls <> [] -> exists x, plevel k ls !! 0%nat = Some x.
Proof.
  revert ls. induction k as [|k IH]; intros ls Hn; destruct ls as [|a ls]; try done; [by exists a|].
  simpl. apply IH. destruct ls; done.
Qed.

Definition depth_nat ls : nat := Z.to_nat (depth (num ls)).

Lemma num_le_depth ls : num ls <= 2 ^ Z.of_nat (depth_nat ls).
Proof.
  unfold depth_nat. rewrite Z2Nat.id by apply Z.log2_up_nonneg.
  destruct ls as [|a ls]; [done|]. apply depth_bound. unfold num. simpl. lia.
Qed.

(** The root is the one node of the top level. *)
Lemma merkle_root_top ls x : plevel (depth_nat ls) ls !! 0%nat = Some x -> merkle_root ls = x.
Proof.
  intros Hx. unfold merkle_root. fold (depth_nat ls).
  rewrite root_at_plevel. unfold at_or_placeholder. by rewrite Hx.
Qed.

(** The proof of leaf [i] read off the tree. *)
Definition proof_of ls (i : nat) : AccumulatorProof.t HashValue :=
  AccumulatorProof.new (sibs (depth_nat ls) i ls).

Lemma length_sibs (k i : nat) ls : length (sibs k i ls) = k.
Proof. revert i ls. induction k; intros; simpl; [done|]. by rewrite IHk. Qed.

(** The inclusion proof of every leaf, its siblings from the bottom up with
    placeholders where the tree has no node, is accepted against the root. *)
Lemma proof_of_verifies ls (i : nat) e :
  num ls <= MAX_ACCUMULATOR_LEAVES -> ls !! i = Some e ->
  verify (proof_of ls i) (merkle_root ls) e (Z.of_nat i) = Ok tt.
Proof.
  change MAX_ACCUMULATOR_LEAVES with (2 ^ 63). intros Hn Hi. unfold verify, proof_of. simpl.
  assert (Hd : (depth_nat ls <= 63)%nat).
  { unfold depth_nat. pose proof (depth_range (num ls)). apply lookup_lt_Some in Hi.
    unfold num in *. lia. }
  rewrite length_sibs. destruct (Z.leb_spec (Z.of_nat (depth_nat ls)) MAX_ACCUMULATOR_PROOF_DEPTH)
    as [_|Hc]; [|unfold MAX_ACCUMULATOR_PROOF_DEPTH in Hc; lia]. simpl.
  pose proof (fold_sibs (depth_nat ls) i ls e Hi) as Hf.
  pose proof (num_le_depth ls) as Hle. apply lookup_lt_Some in Hi.
  rewrite Nat.div_small in Hf.
  - rewrite (merkle_root_top ls _ Hf). by rewrite bool_decide_eq_true_2.
  - apply Nat2Z.inj_lt. rewrite Nat2Z.inj_pow. unfold num in *. simpl. lia.
Qed.

Lemma proof_located ls p e i :
  let hs := path_pairs e i (siblings p) ++ tree_pairs (depth_nat ls) ls in
  ls <> [] -> 0 <= i -> collision_free hs ->
  separated hs (ACCUMULATOR_PLACEHOLDER_HASH :: e :: ls) -> e <> ACCUMULATOR_PLACEHOLDER_HASH ->
  verify p (merkle_root ls) e i = Ok tt ->
  length (siblings p) = depth_nat ls
  /\ ls !! Z.to_nat (i mod 2 ^ Z.of_nat (depth_nat ls)) = Some e.
Proof.
  intros hs Hne Hi Hcf Hsep He Hv. unfold verify in Hv. outcome_inv.
  apply bool_decide_eq_true_1 in Hv.
  destruct (plevel_nonempty (depth_nat ls) ls Hne) as [x Hx].
  destruct (fold_located ls hs (depth_nat ls) Hcf) with (siblings := siblings p) (e := e) (i := i)
    (q := 0) as (n & Hn & [Hloc|Hloc]); try done.
  - set_solver.
  - intros y Hy Hin. apply (Hsep y Hy). apply elem_of_cons in Hin as [->|Hin]; [left|by do 2 right].
  - set_solver.
  - left. rewrite Hv. by rewrite (merkle_root_top ls _ Hx).
  - destruct n as [|n].
    + simpl in Hn, Hloc. rewrite <- Hn in Hloc. by split.
    + exfalso. rewrite plevel_S, parents_lookup in Hloc.
      apply fmap_Some in Hloc as (b & Hb & Heq).
      apply level_pairs_lookup in Hb.
      apply (tree_pairs_plevel (depth_nat ls) n) in Hb; [|lia].
      refine (Hsep _ (proj2 (elem_of_app _ _ _) (or_intror Hb)) _).
      cbn [fst snd]. rewrite <- Heq. set_solver.
Qed.

(** C22: An accepted inclusion proof is sound. Whatever the siblings, if the
    pairs hashed to check the proof and to build the tree have no collision
    among them and no leaf (nor the placeholder) is the hash of such a pair,
    then the proof has as many siblings as the tree has levels and the element
    is the leaf at [element_index], reduced modulo the width of the tree
    because [verify] never looks at the higher bits of the index. *)
Theorem accumulator_proof_sound ls p e i :
  let hs := path_pairs e i (siblings p) ++ tree_pairs (depth_nat ls) ls in
  ls <> [] -> 0 <= i -> collision_free hs ->
  separated hs (ACCUMULATOR_PLACEHOLDER_HASH :: e :: ls) -> e <> ACCUMULATOR_PLACEHOLDER_HASH ->
  verify p (merkle_root ls) e i = Ok tt ->
  length (siblings p) = depth_nat ls
  /\ ls !! Z.to_nat (i mod 2 ^ Z.of_nat (depth_nat ls)) = Some e.
Proof. apply proof_located. Qed.

End single.

Lemma symbolic_separated hs xs :
  forallb (fun x => match x with SymNode _ _ => false | _ => true end) xs = true -> separated hs xs.
Proof.
  intros Hf%Is_true_true%forallb_True [a b] _ Hin.
  rewrite Forall_forall in Hf. apply (Hf _ Hin).
Qed.

Lemma accumulator_proof_sound_witness :
  [SymLeaf 1; SymLeaf 2; SymLeaf 3] !! Z.to_nat (6 mod 2 ^ 2) = Some (SymLeaf 3).
Proof.
  refine (proj2 (accumulator_proof_sound [SymLeaf 1; SymLeaf 2; SymLeaf 3]
    (proof_of [SymLeaf 1; SymLeaf 2; SymLeaf 3] 2) (SymLeaf 3) 6 _ _ _ _ _ _)).
  - done.
  - done.
  - apply symbolic_collision_free.
  - by apply symbolic_separated.
  - done.
  - by vm_compute.
Defined.

(** ** A run of leaves *)

Section range.
Context {HashValue : Type} `{MerkleHasher HashValue}.
Import AccumulatorRangeProof.
Implicit Types (ls cur lefts rights : list HashValue).

Lemma chunks_spec es (o : option HashValue) : Nat.even (length es) = true ->
  chunks (es ++ option_list o) = (full_parents es, option_list o).
Proof.
  induction es as [|a|a b es IH] using list_pair_ind; simpl; intros He; [by destruct o|done|].
  by rewrite IH.
Qed.

(** What an iteration hashes: the first child's left sibling if it is a right
    child, the children, the last child's right sibling if it is a left one. *)
Definition children (pos : Position.t) cur lefts rights : list HashValue :=
  let l := if Position.is_right_child pos then take 1 lefts else [] in
  l ++ cur ++ (if Nat.odd (length (l ++ cur)) then take 1 rights else []).

Lemma combine_inv pos cur lefts rights cur' lefts' rights' :
  combine pos cur lefts rights = Ok (cur', lefts', rights') -> cur <> [] ->
  cur' = full_parents (children pos cur lefts rights)
  /\ Nat.even (length (children pos cur lefts rights)) = true
  /\ lefts = (if Position.is_right_child pos then take 1 lefts else []) ++ lefts'
  /\ rights = (if Nat.odd (length ((if Position.is_right_child pos then take 1 lefts else []) ++ cur))
               then take 1 rights else []) ++ rights'
  /\ length (if Position.is_right_child pos then take 1 lefts else [])
     = Nat.b2n (Position.is_right_child pos).
Proof.
  intros Hc Hne. unfold combine in Hc. apply bind_Ok_inv in Hc as ([[ps ch] ls] & Hl & Hc).
  set (lo := if Position.is_right_child pos then take 1 lefts else []) in *.
  assert (Hlo : lefts = lo ++ ls /\ ps ++ full_parents ch = full_parents (lo ++ cur)
                /\ length (lo ++ cur) = (2 * length ps + length ch)%nat
                /\ length lo = Nat.b2n (Position.is_right_child pos)
                /\ (forall ms, full_parents (lo ++ cur ++ ms) = ps ++ full_parents (ch ++ ms))).
  { subst lo. destruct (Position.is_right_child pos).
    - destruct lefts as [|l lefts]; [done|]. destruct cur as [|c cur]; [done|].
      injection Hl as <- <- <-. done.
    - injection Hl as <- <- <-. done. }
  destruct Hlo as (El & _ & Elen & Elo & Efp).
  destruct (even_split ch) as (es & o & -> & He). rewrite chunks_spec in Hc by done.
  assert (Ho : Nat.odd (length (lo ++ cur)) = bool_decide (is_Some o)).
  { rewrite Elen, length_app, Nat.add_assoc, Nat.odd_add, Nat.odd_add.
    rewrite <- (Nat.negb_even (2 * length ps)), Nat.even_even.
    rewrite <- (Nat.negb_even (length es)), He. by destruct o. }
  unfold children. fold lo. rewrite Ho, Efp, !length_app in *.
  destruct o as [x|]; simpl in Hc.
  - destruct rights as [|r rights]; [done|]. injection Hc as <- <- <-.
    rewrite bool_decide_eq_true_2 in * by eauto. split_and!; [|..|done|done|done].
    + rewrite <- app_assoc, full_parents_app by done. done.
    + by rewrite Nat.add_assoc, Nat.even_add, <- Nat.negb_odd, Ho.
  - injection Hc as <- <- <-. rewrite bool_decide_eq_false_2 in * by (by intros [? ?]).
    rewrite !app_nil_r in *. split_and!; [done| |done|done|done].
    by rewrite Nat.add_assoc, Nat.even_add, <- Nat.negb_odd, Ho.
Qed.

Lemma combine_decreases pos cur lefts rights cur' lefts' rights' :
  combine pos cur lefts rights = Ok (cur', lefts', rights') -> cur <> [] ->
  cur' <> [] /\ (measure cur' lefts' rights' < measure cur lefts rights)%nat.
Proof.
  intros Hc Hne. destruct (combine_inv _ _ _ _ _ _ _ Hc Hne) as (-> & He & El & Er & _).
  set (lo := if Position.is_right_child pos then take 1 lefts else []) in *.
  set (ro := if Nat.odd _ then take 1 rights else []) in Er.
  assert (Hch : length (children pos cur lefts rights) = (length lo + length cur + length ro)%nat).
  { unfold children. fold lo. fold ro. rewrite !length_app. lia. }
  assert (Hcur : (0 < length cur)%nat) by (destruct cur; [done|simpl; lia]).
  apply Nat.even_spec, Nat.Even_double in He. unfold Nat.double in He.
  pose proof (length_full_parents (children pos cur lefts rights)) as Hfp.
  apply (f_equal length) in El, Er. rewrite length_app in El, Er. split.
  - intros E. rewrite E in Hfp. simpl in Hfp. lia.
  - unfold measure. lia.
Qed.

Lemma finished_small cur lefts rights : (measure cur lefts rights <= 1)%nat -> cur <> [] ->
  unfinished cur lefts rights = false.
Proof.
  unfold measure, unfinished. intros Hm Hne. destruct cur as [|? cur]; [done|].
  destruct lefts, rights, cur; simpl in *; lia || done.
Qed.

Lemma range_loop_enough (fuel : nat) pos cur lefts rights : cur <> [] ->
  (measure cur lefts rights <= S fuel)%nat ->
  range_loop fuel pos cur lefts rights = range_loop (S fuel) pos cur lefts rights.
Proof.
  revert pos cur lefts rights. induction fuel as [|fuel IH]; intros pos cur lefts rights Hne Hm.
  - cbn [range_loop]. by rewrite finished_small.
  - cbn [range_loop]. destruct (unfinished cur lefts rights); [|done].
    destruct (combine pos cur lefts rights) as [[[c' l'] r']| |] eqn:Hc; [|done..].
    destruct (combine_decreases _ _ _ _ _ _ _ Hc Hne). apply IH; [done|lia].
Qed.

(** With enough iterations the loop ends because its condition is false. *)
Lemma range_loop_finished (fuel : nat) pos cur lefts rights r : cur <> [] ->
  (measure cur lefts rights <= fuel)%nat -> range_loop fuel pos cur lefts rights = Ok r ->
  length r = 1%nat.
Proof.
  revert pos cur lefts rights. induction fuel as [|fuel IH]; intros pos cur lefts rights Hne Hm.
  - unfold measure in Hm. destruct cur; simpl in *; [done|lia].
  - cbn [range_loop]. destruct (unfinished cur lefts rights) eqn:Hu.
    + destruct (combine pos cur lefts rights) as [[[c' l'] r']| |] eqn:Hc; [|done..].
      destruct (combine_decreases _ _ _ _ _ _ _ Hc Hne). apply IH; [done|lia].
    + intros [= <-]. unfold unfinished in Hu. apply orb_false_iff in Hu as [[Hu _]%orb_false_iff _].
      destruct cur as [|x [|y cur]]; [done..|].
      apply Z.ltb_ge in Hu. cbn [length] in Hu. lia.
Qed.

(** The loop of [AccumulatorRangeProof::verify] terminates: every
    iteration leaves fewer hashes and siblings than it found, so the model's
    bound on the number of iterations is never what ends it, and when the loop
    succeeds a single hash is left. *)
Theorem range_loop_terminates (fuel : nat) pos cur lefts rights :
  cur <> [] -> (measure cur lefts rights <= fuel)%nat ->
  range_loop fuel pos cur lefts rights
  = range_loop (measure cur lefts rights) pos cur lefts rights /\
  (forall r, range_loop fuel pos cur lefts rights = Ok r -> length r = 1%nat).
Proof.
  intros Hne Hm. split; [|intros r; by apply range_loop_finished].
  induction Hm as [|fuel Hm IH]; [done|].
  rewrite <- IH. symmetry. apply range_loop_enough; [done|lia].
Qed.

(** The pairs hashed by the loop. *)
Fixpoint range_pairs (fuel : nat) (pos : Position.t) cur lefts rights
    : list (HashValue * HashValue) :=
  match fuel with
  | O => []
  | S fuel =>
      if unfinished cur lefts rights then
        level_pairs (children pos cur lefts rights)
        ++ match combine pos cur lefts rights with
           | Ok (cur, lefts, rights) =>
               range_pairs fuel (Position.parent pos) cur lefts rights
           | _ => []
           end
      else []
  end.

(** The position, within the subtree [k] levels high that holds it, of the
    leftmost leaf below [pos]. *)
Fixpoint path_index (k : nat) (pos : Position.t) : Z :=
  match k with
  | O => 0
  | S k => 2 * path_index k (Position.parent pos) + Z.b2z (Position.is_right_child pos)
  end.

Lemma path_index_nonneg (k : nat) pos : 0 <= path_index k pos.
Proof.
  revert pos. induction k as [|k IH]; intros pos; simpl; [lia|].
  specialize (IH (Position.parent pos)). destruct (Position.is_right_child pos); simpl; lia.
Qed.

Lemma path_index_node (k : nat) l p : valid l p -> l + Z.of_nat k <= 63 ->
  path_index k (Position.mk (node l p)) = p mod 2 ^ Z.of_nat k.
Proof.
  revert l p. induction k as [|k IH]; intros l p Hv Hk; [by rewrite Z.mod_1_r|].
  cbn [path_index]. rewrite parent_node, IH by (try apply valid_parent; done || lia).
  unfold Position.is_right_child. rewrite is_left_child_node by (done || lia).
  rewrite Z.negb_even, Nat2Z.inj_succ, Z.pow_succ_r by lia.
  pose proof (pow2_pos (Z.of_nat k)). rewrite Z.rem_mul_r by lia.
  rewrite (Zmod_odd p). destruct (Z.odd p); simpl; lia.
Qed.

Lemma full_parents_lookup_Some ls (j : nat) v : full_parents ls !! j = Some v ->
  exists a b, ls !! (2 * j)%nat = Some a /\ ls !! (2 * j + 1)%nat = Some b
              /\ v = hash_internal_node a b /\ (a, b) ∈ level_pairs ls.
Proof.
  revert j. induction ls as [|x|x y ls IH] using list_pair_ind; intros j; [done|done|].
  destruct j as [|j]; simpl.
  - intros [= <-]. exists x, y. split_and!; try done. left.
  - intros (a & b & Ha & Hb & -> & Hin)%IH. exists a, b.
    replace (j + S (j + 0))%nat with (S (2 * j)) by lia.
    replace (j + S (j + 0) + 1)%nat with (S (2 * j + 1)) by lia. split_and!; try done. by right.
Qed.

Section range_sound.
Context (ls : list HashValue) (hs : list (HashValue * HashValue)) (d : nat).
Context (Hcf : collision_free hs) (Htree : tree_pairs d ls ⊆ hs).
Context (Hsep : separated hs (ACCUMULATOR_PLACEHOLDER_HASH :: ls)).

(** If the parents computed by an iteration are consecutive nodes of a level,
    its children are consecutive nodes of the level below. *)
Lemma children_located (n : nat) q ch :
  full_parents ch <> [] -> Nat.even (length ch) = true -> level_pairs ch ⊆ hs -> 0 <= q ->
  (n <= d)%nat ->
  (forall (j : nat) v, full_parents ch !! j = Some v -> located ls n (q + Z.of_nat j) v) ->
  exists n', n = S n' /\
    forall (j : nat) v, ch !! j = Some v -> located ls n' (2 * q + Z.of_nat j) v.
Proof.
  intros Hne He Hin Hq Hn Hloc.
  assert (Hstep : forall (j : nat) a b, ch !! (2 * j)%nat = Some a -> ch !! (2 * j + 1)%nat = Some b ->
    exists n', n = S n' /\ located ls n' (2 * q + Z.of_nat (2 * j)) a
               /\ located ls n' (2 * q + Z.of_nat (2 * j + 1)) b).
  { intros j a b Ha Hb. destruct (lookup_lt_is_Some_2 (full_parents ch) j) as [v Hv].
    { rewrite length_full_parents. apply lookup_lt_Some in Hb. rewrite Nat.div2_div.
      apply Nat.div_le_lower_bound with (q := S j); lia. }
    destruct (full_parents_lookup_Some ch j v Hv) as (a' & b' & Ha' & Hb' & -> & Hp).
    rewrite Ha in Ha'. rewrite Hb in Hb'. injection Ha' as <-. injection Hb' as <-.
    destruct (located_children ls hs d Hcf Htree Hsep n (q + Z.of_nat j) (a, b))
      as (n' & -> & H1 & H2); [by apply Hin|lia|lia|by apply Hloc|].
    exists n'. split; [done|]. split; (eapply located_at; [|done]); lia. }
  assert (Hn0 : exists n', n = S n').
  { destruct (full_parents ch) as [|v vs] eqn:Ef; [done|].
    destruct (full_parents_lookup_Some ch 0 v) as (a & b & Ha & Hb & _); [by rewrite Ef|].
    destruct (Hstep 0%nat a b Ha Hb) as (n' & -> & _). eauto. }
  destruct Hn0 as [n' ->]. exists n'. split; [done|]. intros j v Hv.
  pose proof (lookup_lt_Some _ _ _ Hv). apply Nat.even_spec, Nat.Even_double in He.
  unfold Nat.double in He. destruct (Nat.even j) eqn:Hj.
  - apply Nat.even_spec, Nat.Even_double in Hj. unfold Nat.double in Hj.
    destruct (lookup_lt_is_Some_2 ch (2 * Nat.div2 j + 1)%nat) as [b Hb]; [lia|].
    replace j with (2 * Nat.div2 j)%nat in Hv |- * by lia.
    destruct (Hstep _ _ _ Hv Hb) as (n'' & [= <-] & Ha & _). done.
  - rewrite <- Nat.negb_odd in Hj. apply negb_false_iff, Nat.odd_spec, Nat.Odd_double in Hj.
    unfold Nat.double in Hj. destruct (lookup_lt_is_Some_2 ch (2 * Nat.div2 j)%nat) as [a Ha]; [lia|].
    replace j with (2 * Nat.div2 j + 1)%nat in Hv |- * by lia.
    destruct (Hstep _ _ _ Ha Hv) as (n'' & [= <-] & _ & Hb). done.
Qed.

Lemma range_located (fuel : nat) pos cur lefts rights x :
  cur <> [] -> (measure cur lefts rights <= fuel)%nat ->
  range_pairs fuel pos cur lefts rights ⊆ hs ->
  (exists res, range_loop fuel pos cur lefts rights = Ok res /\ res !! 0%nat = Some x) ->
  located ls d 0 x ->
  exists n k, (d = n + k)%nat /\
    forall (j : nat) v, cur !! j = Some v -> located ls n (path_index k pos + Z.of_nat j) v.
Proof.
  revert pos cur lefts rights. induction fuel as [|fuel IH];
    intros pos cur lefts rights Hne Hm Hin (res & Hr & Hx) Hloc.
  { unfold measure in Hm. destruct cur; simpl in *; [done|lia]. }
  cbn [range_loop range_pairs] in *. destruct (unfinished cur lefts rights) eqn:Hu.
  - apply bind_Ok_inv in Hr as ([[c' l'] r'] & Hc & Hr). rewrite Hc in Hin.
    destruct (combine_decreases _ _ _ _ _ _ _ Hc Hne) as [Hne' Hdec].
    destruct (IH (Position.parent pos) c' l' r') as (n & k & Hd & Hl);
      [done|lia|set_solver|by exists res|done|].
    destruct (combine_inv _ _ _ _ _ _ _ Hc Hne) as (Ec & He & _ & _ & Elo). subst c'.
    destruct (children_located n (path_index k (Position.parent pos))
      (children pos cur lefts rights)) as (n' & -> & Hch);
      [done|done|set_solver|apply path_index_nonneg|lia|done|].
    exists n', (S k). split; [lia|]. intros j v Hv. cbn [path_index].
    specialize (Hch (Nat.b2n (Position.is_right_child pos) + j)%nat v).
    eapply located_at; [|apply Hch].
    + destruct (Position.is_right_child pos); simpl; lia.
    + unfold children. rewrite lookup_app_r, Elo by lia.
      rewrite Nat.add_comm, Nat.add_sub, lookup_app_l; [done|]. by eapply lookup_lt_Some.
  - injection Hr as <-. exists d, 0%nat. split; [lia|]. intros j v Hv.
    unfold unfinished in Hu. apply orb_false_iff in Hu as [[Hu _]%orb_false_iff _].
    apply Z.ltb_ge in Hu. pose proof (lookup_lt_Some _ _ _ Hv).
    replace j with 0%nat in * by lia. rewrite Hx in Hv. injection Hv as <-. done.
Qed.

End range_sound.

(** The pairs hashed by [verify]. *)
Definition verify_pairs (p : t HashValue) (f : Z) (leaves : list HashValue)
    : list (HashValue * HashValue) :=
  range_pairs (measure leaves (left_siblings p) (right_siblings p))
    (Position.from_leaf_index f) leaves (left_siblings p) (right_siblings p).

Lemma range_proof_located ls p f leaves :
  let hs := verify_pairs p f leaves ++ tree_pairs (depth_nat ls) ls in
  ls <> [] -> num ls <= MAX_ACCUMULATOR_LEAVES -> 0 <= f < MAX_ACCUMULATOR_LEAVES ->
  collision_free hs -> separated hs (ACCUMULATOR_PLACEHOLDER_HASH :: leaves ++ ls) ->
  ACCUMULATOR_PLACEHOLDER_HASH ∉ leaves ->
  verify p (merkle_root ls) (Some f) leaves = Ok tt ->
  forall (j : nat) v, leaves !! j = Some v ->
    ls !! Z.to_nat (f mod 2 ^ Z.of_nat (depth_nat ls) + Z.of_nat j) = Some v.
Proof.
  change MAX_ACCUMULATOR_LEAVES with (2 ^ 63).
  intros hs Hne Hn Hf Hcf Hsep Hph Hv. unfold verify in Hv. outcome_inv.
  apply negb_true_iff, bool_decide_eq_false_1 in Ha1. apply bool_decide_eq_true_1 in Ha4. subst.
  destruct (plevel_nonempty (depth_nat ls) ls Hne) as [x Hx].
  destruct (range_located ls hs (depth_nat ls)) with
    (fuel := measure leaves (left_siblings p) (right_siblings p))
    (pos := Position.from_leaf_index f) (cur := leaves) (lefts := left_siblings p)
    (rights := right_siblings p) (x := merkle_root ls)
    as (n & k & Hd & Hloc); try done.
  - by apply list_subseteq_app_r.
  - intros y Hy Hin. apply (Hsep y Hy). apply elem_of_cons in Hin as [->|Hin]; [left|].
    right. apply elem_of_app. by right.
  - by apply list_subseteq_app_l.
  - by eexists.
  - left. by rewrite (merkle_root_top ls _ Hx).
  - assert (n = 0%nat) as ->.
    { destruct n as [|n]; [done|]. exfalso. destruct leaves as [|v leaves]; [done|].
      destruct (Hloc 0%nat v eq_refl) as [Hl|Hl]; [|destruct Hph; rewrite Hl; left].
      rewrite plevel_S, parents_lookup in Hl. apply fmap_Some in Hl as (b & Hb & Heq).
      apply level_pairs_lookup, (tree_pairs_plevel (depth_nat ls) n) in Hb; [|lia].
      refine (Hsep _ (proj2 (elem_of_app _ _ _) (or_intror Hb)) _).
      cbn [fst snd]. rewrite <- Heq. right; left. }
    simpl in Hd. subst k. intros j v Hj. destruct (Hloc j v Hj) as [Hl| ->].
    + rewrite from_leaf_index_node, <- node_0 in Hl by lia.
      rewrite path_index_node in Hl; [done|..].
      * split; lia.
      * unfold depth_nat. pose proof (depth_range (num ls)). destruct ls; [done|].
        unfold num in *. simpl in *. lia.
    + destruct Hph. by eapply list_elem_of_lookup_2.
Qed.

(** C34: An accepted range proof is sound: under the same conditions on the
    hashed pairs as for one leaf, [leaf_hashes] are consecutive leaves of the
    accumulator from [first_leaf_index] on (modulo the width of the tree). *)
Theorem range_proof_sound ls p f leaves :
  let hs := verify_pairs p f leaves ++ tree_pairs (depth_nat ls) ls in
  ls <> [] -> num ls <= MAX_ACCUMULATOR_LEAVES -> 0 <= f < MAX_ACCUMULATOR_LEAVES ->
  collision_free hs -> separated hs (ACCUMULATOR_PLACEHOLDER_HASH :: leaves ++ ls) ->
  ACCUMULATOR_PLACEHOLDER_HASH ∉ leaves ->
  verify p (merkle_root ls) (Some f) leaves = Ok tt ->
  forall (j : nat) v, leaves !! j = Some v ->
    ls !! Z.to_nat (f mod 2 ^ Z.of_nat (depth_nat ls) + Z.of_nat j) = Some v.
Proof. apply range_proof_located. Qed.

(** *** Completeness *)

(** [n] consecutive nodes of a level from position [a] on. *)
Fixpoint window ls (a n : nat) : list HashValue :=
  match n with O => [] | S n => at_or_placeholder ls a :: window ls (S a) n end.

Lemma window_snoc ls (a n : nat) : window ls a n ++ [at_or_placeholder ls (a + n)] = window ls a (S n).
Proof.
  revert a. induction n as [|n IH]; intros a; simpl; [by rewrite Nat.add_0_r|].
  by rewrite <- Nat.add_succ_comm, IH.
Qed.

Lemma length_window ls (a n : nat) : length (window ls a n) = n.
Proof. revert a. induction n; intros a; simpl; auto. Qed.

Lemma at_parents ls (i : nat) : (2 * i < length ls)%nat ->
  at_or_placeholder (parents ls) i
  = hash_internal_node (at_or_placeholder ls (2 * i)) (at_or_placeholder ls (2 * i + 1)).
Proof.
  intros [a Ha]%lookup_lt_is_Some_2. unfold at_or_placeholder at 1 2.
  by rewrite parents_lookup, Ha.
Qed.

Lemma full_parents_window ls (a m : nat) : (2 * (a + m) <= S (length ls))%nat ->
  full_parents (window ls (2 * a) (2 * m)) = window (parents ls) a m.
Proof.
  revert a. induction m as [|m IH]; intros a Hm; [done|].
  replace (2 * S m)%nat with (S (S (2 * m))) by lia. cbn [window full_parents].
  rewrite at_parents by lia. replace (S (S (2 * a))) with (2 * S a)%nat by lia.
  rewrite IH by lia. by replace (S (2 * a)) with (2 * a + 1)%nat by lia.
Qed.

Lemma combine_ok pos cur lo ro lefts rights : cur <> [] ->
  length lo = Nat.b2n (Position.is_right_child pos) ->
  length ro = Nat.b2n (Nat.odd (length (lo ++ cur))) ->
  combine pos cur (lo ++ lefts) (ro ++ rights)
  = Ok (full_parents (lo ++ cur ++ ro), lefts, rights).
Proof.
  intros Hne Hlo Hro. unfold combine.
  assert (exists ps ch, (if Position.is_right_child pos then
       match lo ++ lefts with
       | [] => Err "First child is a right child, but missing sibling on the left."%string
       | left_hash :: lefts =>
           match cur with
           | [] => Panic
           | right_hash :: children => Ok ([hash_internal_node left_hash right_hash], children, lefts)
           end
       end
     else Ok ([], cur, lo ++ lefts)) = Ok (ps, ch, lefts)
    /\ (forall ms, full_parents (lo ++ cur ++ ms) = ps ++ full_parents (ch ++ ms))
    /\ length (lo ++ cur) = (2 * length ps + length ch)%nat) as (ps & ch & -> & Efp & Elen).
  { destruct (Position.is_right_child pos).
    - destruct lo as [|x [|]]; simpl in Hlo; try lia. destruct cur as [|c cur]; [done|]. simpl.
      by eexists _, _.
    - destruct lo; simpl in Hlo; [|lia]. by eexists _, _. }
  cbn [mbind outcome_bind]. destruct (even_split ch) as (es & o & -> & He).
  rewrite chunks_spec by done.
  assert (Ho : Nat.odd (length (lo ++ cur)) = bool_decide (is_Some o)).
  { rewrite Elen, length_app, Nat.add_assoc, Nat.odd_add, Nat.odd_add.
    rewrite <- (Nat.negb_even (2 * length ps)), Nat.even_even.
    rewrite <- (Nat.negb_even (length es)), He. by destruct o. }
  rewrite Ho in Hro. rewrite Efp. destruct o as [x|]; simpl option_list.
  - destruct ro as [|r [|]]; simpl in Hro; try lia. simpl.
    by rewrite <- app_assoc, full_parents_app by done.
  - destruct ro; simpl in Hro; [|lia]. by rewrite !app_nil_r.
Qed.

Lemma half_of_nat (f : nat) : Z.of_nat f / 2 = Z.of_nat (Nat.div2 f).
Proof. by rewrite Nat.div2_div, Nat2Z.inj_div. Qed.

Lemma right_child_node l (f : nat) : valid l (Z.of_nat f) -> l < 63 ->
  Position.is_right_child (Position.mk (node l (Z.of_nat f))) = Nat.odd f.
Proof.
  intros Hv Hl. unfold Position.is_right_child. rewrite is_left_child_node by done.
  rewrite Z.negb_even. pose proof (Nat.div2_odd f) as E. rewrite E at 1.
  rewrite Nat2Z.inj_add, Nat2Z.inj_mul, Z.odd_add, Z.odd_mul. by destruct (Nat.odd f).
Qed.

(** The children of an iteration, completed by their siblings, are pairs. *)
Lemma window_children ls (f n l : nat) : (0 < n)%nat -> (f + n = S l)%nat ->
  (if Nat.odd f then [at_or_placeholder ls (pred f)] else []) ++ window ls f n
    ++ (if Nat.even l then [at_or_placeholder ls (S l)] else [])
  = window ls (2 * Nat.div2 f) (2 * (Nat.div2 l - Nat.div2 f + 1)).
Proof.
  intros Hn El.
  pose proof (Nat.div2_odd f) as Ef. pose proof (Nat.div2_odd l) as Elo.
  rewrite <- Nat.negb_odd. destruct (Nat.odd f) eqn:Hf; destruct (Nat.odd l) eqn:Hl;
    simpl Nat.b2n in *; cbn [negb]; rewrite ?app_nil_l, ?app_nil_r.
  - replace (pred f) with (2 * Nat.div2 f)%nat by lia.
    replace f with (S (2 * Nat.div2 f)) at 2 by lia.
    replace (2 * (Nat.div2 l - Nat.div2 f + 1))%nat with (S n) by lia. done.
  - replace (2 * (Nat.div2 l - Nat.div2 f + 1))%nat with (S (S n)) by lia.
    rewrite <- El, window_snoc. replace (pred f) with (2 * Nat.div2 f)%nat by lia.
    replace f with (S (2 * Nat.div2 f)) at 2 by lia. done.
  - f_equal; lia.
  - rewrite <- El, window_snoc. f_equal; lia.
Qed.

Lemma unfinished_level ls (k f n : nat) : (0 < n)%nat ->
  unfinished (window ls f n) (left_sibs (S k) f ls) (right_sibs (S k) (f + n - 1) ls) = true.
Proof.
  intros Hn. unfold unfinished. rewrite length_window.
  destruct (Z.ltb_spec 1 (Z.of_nat n)); [done|]. replace n with 1%nat by lia.
  rewrite Nat.add_sub. cbn [left_sibs right_sibs orb]. rewrite <- Nat.negb_odd.
  destruct (Nat.odd f); simpl; [done|]. apply orb_true_r.
Qed.

Lemma range_complete_loop (k fuel f n : nat) ls lvl :
  num ls <= 2 ^ Z.of_nat k -> (0 < n)%nat -> (f + n <= length ls)%nat ->
  valid lvl (Z.of_nat f) -> lvl + Z.of_nat k <= 63 ->
  (measure (window ls f n) (left_sibs k f ls) (right_sibs k (f + n - 1) ls) <= fuel)%nat ->
  range_loop fuel (Position.mk (node lvl (Z.of_nat f))) (window ls f n)
    (left_sibs k f ls) (right_sibs k (f + n - 1) ls) = Ok [root_at k ls].
Proof.
  revert fuel f n ls lvl. induction k as [|k IH]; intros fuel f n ls lvl Hk Hn Hf Hv Hl Hm.
  { unfold num in Hk. simpl in Hk. assert (f = 0 /\ n = 1)%nat as [-> ->] by lia.
    destruct fuel; [unfold measure in Hm; simpl in Hm; lia|]. cbn [range_loop].
    rewrite finished_small by (unfold measure; simpl; done || lia). by destruct ls. }
  destruct fuel as [|fuel]; [unfold measure in Hm; rewrite length_window in Hm; lia|].
  cbn [range_loop]. rewrite unfinished_level by done. cbn [left_sibs right_sibs] in *.
  pose proof (Nat.div2_odd f) as Ef. pose proof (Nat.div2_odd (f + n - 1)) as Elo.
  remember (f + n - 1)%nat as l eqn:El.
  assert (Hne : window ls f n <> []) by (destruct n; [lia|done]).
  pose proof (combine_ok (Position.mk (node lvl (Z.of_nat f))) (window ls f n)
    (if Nat.odd f then [at_or_placeholder ls (pred f)] else [])
    (if Nat.even l then [at_or_placeholder ls (S l)] else [])
    (left_sibs k (Nat.div2 f) (parents ls)) (right_sibs k (Nat.div2 l) (parents ls)) Hne) as Hc.
  assert (Hodd : Nat.odd (length ((if Nat.odd f then [at_or_placeholder ls (pred f)] else [])
                                  ++ window ls f n)) = Nat.even l).
  { rewrite length_app, length_window. replace n with (S l - f)%nat by lia.
    rewrite <- (Nat.negb_odd l). destruct (Nat.odd f) eqn:Hof, (Nat.odd l) eqn:Hol;
      simpl Nat.b2n in *; simpl length.
    - replace (1 + (S l - f))%nat with (2 * (Nat.div2 l - Nat.div2 f + 1))%nat by lia. apply Nat.odd_even.
    - replace (1 + (S l - f))%nat with (2 * (Nat.div2 l - Nat.div2 f) + 1)%nat by lia. apply Nat.odd_odd.
    - replace (0 + (S l - f))%nat with (2 * (Nat.div2 l - Nat.div2 f + 1))%nat by lia. apply Nat.odd_even.
    - replace (0 + (S l - f))%nat with (2 * (Nat.div2 l - Nat.div2 f) + 1)%nat by lia. apply Nat.odd_odd. }
  specialize (Hc ltac:(rewrite right_child_node by (done || lia); by destruct (Nat.odd f))
    ltac:(rewrite Hodd; by destruct (Nat.even l))).
  destruct (combine_decreases _ _ _ _ _ _ _ Hc Hne) as [_ Hdec]. rewrite Hc. clear Hc.
  cbn [mbind outcome_bind]. rewrite window_children in * by lia.
  assert (Hlen : (2 * (Nat.div2 f + (Nat.div2 l - Nat.div2 f + 1)) <= S (length ls))%nat)
    by (destruct (Nat.odd f), (Nat.odd l); simpl Nat.b2n in *; lia).
  rewrite full_parents_window in * by done. rewrite parent_node, half_of_nat by (done || lia).
  assert (El' : Nat.div2 l = (Nat.div2 f + (Nat.div2 l - Nat.div2 f + 1) - 1)%nat)
    by (destruct (Nat.odd f), (Nat.odd l); simpl Nat.b2n in *; lia).
  rewrite El' at 2. rewrite El' in Hdec at 2. apply IH; [..|lia|lia].
  - rewrite Nat2Z.inj_succ, Z.pow_succ_r in Hk by lia. unfold num in *.
    rewrite length_parents. pose proof (Nat.div2_odd (S (length ls))). lia.
  - lia.
  - rewrite length_parents. pose proof (Nat.div2_odd (S (length ls))).
    destruct (Nat.odd (S (length ls))); simpl Nat.b2n in *; lia.
  - rewrite <- half_of_nat. apply valid_parent; [done|lia].
Qed.

Lemma window_slice ls (f n : nat) : (f + n <= length ls)%nat ->
  window ls f n = take n (drop f ls).
Proof.
  revert f. induction n as [|n IH]; intros f Hn; [done|]. cbn [window].
  destruct (lookup_lt_is_Some_2 ls f) as [a Ha]; [lia|].
  unfold at_or_placeholder. rewrite Ha, IH by lia. by rewrite (drop_S ls a f Ha).
Qed.

Lemma length_left_sibs (k i : nat) ls : (length (left_sibs k i ls) <= k)%nat.
Proof.
  revert i ls. induction k as [|k IH]; intros i ls; simpl; [lia|]. rewrite length_app.
  specialize (IH (Nat.div2 i) (parents ls)). destruct (Nat.odd i); simpl; lia.
Qed.

Lemma length_right_sibs (k i : nat) ls : (length (right_sibs k i ls) <= k)%nat.
Proof.
  revert i ls. induction k as [|k IH]; intros i ls; simpl; [lia|]. rewrite length_app.
  specialize (IH (Nat.div2 i) (parents ls)). destruct (Nat.even i); simpl; lia.
Qed.

(** The range proof of the [n] leaves from [f] on, read off the tree. *)
Definition range_proof_of ls (f n : nat) : t HashValue :=
  new (left_sibs (depth_nat ls) f ls) (right_sibs (depth_nat ls) (f + n - 1) ls).

Lemma depth_nat_63 ls : ls <> [] -> num ls <= 2 ^ 63 -> (depth_nat ls <= 63)%nat.
Proof.
  intros Hne Hn. unfold depth_nat. pose proof (depth_range (num ls)) as Hd.
  destruct ls; [done|]. unfold num in *. simpl in *. lia.
Qed.

(** The range proof of any run of leaves (the left siblings of the first
    leaf's path, the right siblings of the last leaf's path, leaf level first)
    is accepted. *)
Lemma range_proof_of_verifies ls (f n : nat) :
  num ls <= MAX_ACCUMULATOR_LEAVES -> (0 < n)%nat -> (f + n <= length ls)%nat ->
  verify (range_proof_of ls f n) (merkle_root ls) (Some (Z.of_nat f)) (take n (drop f ls)) = Ok tt.
Proof.
  change MAX_ACCUMULATOR_LEAVES with (2 ^ 63). intros Hm Hn Hf.
  assert (Hne : ls <> []) by (destruct ls; simpl in *; [lia|done]).
  pose proof (depth_nat_63 ls Hne Hm).
  pose proof (length_left_sibs (depth_nat ls) f ls).
  pose proof (length_right_sibs (depth_nat ls) (f + n - 1) ls).
  rewrite <- window_slice by done. unfold verify, range_proof_of. cbn [left_siblings right_siblings].
  unfold MAX_ACCUMULATOR_PROOF_DEPTH.
  destruct (Z.leb_spec (Z.of_nat (length (left_sibs (depth_nat ls) f ls))) 63); [|lia].
  destruct (Z.leb_spec (Z.of_nat (length (right_sibs (depth_nat ls) (f + n - 1) ls))) 63); [|lia].
  rewrite bool_decide_eq_false_2 by (destruct n; [lia|done]). cbn [ensure mbind outcome_bind negb].
  unfold num in Hm.
  rewrite from_leaf_index_node, <- node_0, range_complete_loop; try done; try lia.
  - cbn [mbind outcome_bind]. simpl. unfold merkle_root, depth_nat.
    by rewrite bool_decide_eq_true_2.
  - apply num_le_depth.
  - split; lia.
Qed.

End range.

Lemma range_loop_terminates_witness :
  AccumulatorRangeProof.range_loop 9 (Position.from_leaf_index 1) [SymLeaf 2; SymLeaf 3]
    [SymLeaf 1] [SymLeaf 4]
  = AccumulatorRangeProof.range_loop 4 (Position.from_leaf_index 1) [SymLeaf 2; SymLeaf 3]
    [SymLeaf 1] [SymLeaf 4].
Proof.
  refine (proj1 (range_loop_terminates 9 (Position.from_leaf_index 1) [SymLeaf 2; SymLeaf 3]
    [SymLeaf 1] [SymLeaf 4] _ _)); [done|vm_compute; lia].
Defined.

Lemma range_proof_sound_witness :
  [SymLeaf 1; SymLeaf 2; SymLeaf 3; SymLeaf 4; SymLeaf 5] !! Z.to_nat (1 mod 2 ^ 3 + 1)
  = Some (SymLeaf 3).
Proof.
  refine (range_proof_sound [SymLeaf 1; SymLeaf 2; SymLeaf 3; SymLeaf 4; SymLeaf 5]
    (range_proof_of [SymLeaf 1; SymLeaf 2; SymLeaf 3; SymLeaf 4; SymLeaf 5] 1 2) 1
    [SymLeaf 2; SymLeaf 3] _ _ _ _ _ _ _ 1 (SymLeaf 3) _); try (by vm_compute).
  - apply symbolic_collision_free.
  - by apply symbolic_separated.
  - rewrite !not_elem_of_cons. split_and!; try done. apply not_elem_of_nil.
Defined.
