(* ===== verification/Consistency.v ===== *)
(** * Consistency proofs are binding

    [InMemoryAccumulator::append_subtrees] is how a client checks an
    [AccumulatorConsistencyProof] (types/src/proof/definition.rs): it extends
    its accumulator by subtrees it cannot see into and compares root hashes.
    Here: two extensions that reach the same root hash started from the same
    leaves, so that an accepted consistency proof means the old accumulator is
    a prefix of the new one. The [_pairs] functions list what the code hashes. *)
From stdpp Require Import prelude strings.
From Stdlib Require Import ZArith Lia.
From S2P Require Import Prelude Bits Positions PositionIters Hash MerkleSpec InMemAccumulator.

Section pairs.
Context {HashValue : Type} `{MerkleHasher HashValue}.
Import InMemoryAccumulator.
Implicit Types (ls ms roots subs : list HashValue).

Fixpoint root_loop_pairs (n : nat) (bitmap : Z) (current_hash : HashValue)
    (iter : list HashValue) : list (HashValue * HashValue) :=
  match n with
  | O => []
  | S n =>
      if 0 <? bitmap then
        if negb ((bitmap .& 1)%u64 =? 0) then
          match iter with
          | [] => []
          | r :: rest =>
              (r, current_hash)
                :: root_loop_pairs n (bitmap >> 1)%u64 (hash_internal_node r current_hash) rest
          end
        else
          (current_hash, ACCUMULATOR_PLACEHOLDER_HASH)
            :: root_loop_pairs n (bitmap >> 1)%u64
                 (hash_internal_node current_hash ACCUMULATOR_PLACEHOLDER_HASH) iter
      else []
  end.

Definition compute_root_pairs roots (n : Z) : list (HashValue * HashValue) :=
  match roots with
  | [] | [_] => []
  | _ => root_loop_pairs 64 (n >> trailing_zeros n)%u64 ACCUMULATOR_PLACEHOLDER_HASH (reverse roots)
  end.

Fixpoint carry_pairs roots (n mask : Z) (h : HashValue) : list (HashValue * HashValue) :=
  if negb ((n .& mask)%u64 =? 0) then
    match roots with
    | [] => []
    | l :: roots => (l, h) :: carry_pairs roots n (mask << 1)%u64 (hash_internal_node l h)
    end
  else [].

Fixpoint subtree_pairs subs roots (n remaining size : Z) : list (HashValue * HashValue) :=
  if size <=? remaining then
    match subs with
    | [] => []
    | h :: subs =>
        carry_pairs (reverse roots) n size h
        ++ match carry_loop (reverse roots) n size h with
           | Ok (roots, mask, h) =>
               subtree_pairs subs (reverse roots ++ [h]) (n + size)%u64 (remaining - size)%u64 mask
           | _ => []
           end
    end
  else compute_root_pairs (roots ++ subs) (n + remaining)%u64.

Definition append_subtrees_pairs (self : t HashValue) subs (n : Z) : list (HashValue * HashValue) :=
  if num_leaves self =? 0 then compute_root_pairs subs n
  else subtree_pairs subs (frozen_subtree_roots self) (num_leaves self) n
         (1 << trailing_zeros (num_leaves self))%u64.

Fixpoint full_pairs ls : list (HashValue * HashValue) :=
  match ls with a :: b :: r => (a, b) :: full_pairs r | _ => [] end.

(** The pairs hashed to compute the frozen subtree roots. *)
Fixpoint frozen_pairs (k : nat) ls : list (HashValue * HashValue) :=
  match k with O => [] | S k => full_pairs ls ++ frozen_pairs k (full_parents ls) end.

(** ** Injectivity, given a set of pairs without collision *)

Section inj.
Context (hs : list (HashValue * HashValue)) (Hcf : collision_free hs).

Lemma hash_inj a b c d : (a, b) ∈ hs -> (c, d) ∈ hs ->
  hash_internal_node a b = hash_internal_node c d -> a = c /\ b = d.
Proof. intros H1 H2 E. pose proof (Hcf _ _ H1 H2 E) as [= -> ->]. done. Qed.

Lemma root_loop_inj (n : nat) bitmap c1 c2 it1 it2 x : 0 <= bitmap < 2 ^ Z.of_nat n ->
  Z.of_nat (length it1) = count_ones bitmap -> Z.of_nat (length it2) = count_ones bitmap ->
  root_loop_pairs n bitmap c1 it1 ⊆ hs -> root_loop_pairs n bitmap c2 it2 ⊆ hs ->
  root_loop n bitmap c1 it1 = Ok x -> root_loop n bitmap c2 it2 = Ok x ->
  c1 = c2 /\ it1 = it2.
Proof.
  revert bitmap c1 c2 it1 it2. induction n as [|n IH]; intros b c1 c2 it1 it2 Hb H1 H2 P1 P2 R1 R2.
  { assert (b = 0) as -> by (simpl in Hb; lia). simpl in *.
    destruct it1, it2; simpl in *; try lia. split; congruence. }
  cbn [root_loop root_loop_pairs] in *. destruct (Z.ltb_spec 0 b) as [Hpos|Hz].
  2: { assert (b = 0) as -> by lia. simpl in H1, H2. destruct it1, it2; simpl in *; try lia.
       split; congruence. }
  rewrite count_ones_div2 in H1, H2 by lia. rewrite odd_word_bit, u64_shr_div in * by lia.
  change (2 ^ 1) with 2 in *.
  assert (Hb2 : 0 <= b / 2 < 2 ^ Z.of_nat n).
  { rewrite Nat2Z.inj_succ, Z.pow_succ_r in Hb by lia.
    split; [apply Z.div_pos; lia|apply Z.div_lt_upper_bound; lia]. }
  pose proof (Z.mod_pos_bound b 2 ltac:(lia)).
  destruct (Z.eqb_spec (b mod 2) 0) as [E|E]; cbn [negb] in *.
  - apply list_subseteq_cons_iff in P1 as [I1 P1], P2 as [I2 P2].
    destruct (IH (b / 2) (hash_internal_node c1 ACCUMULATOR_PLACEHOLDER_HASH)
      (hash_internal_node c2 ACCUMULATOR_PLACEHOLDER_HASH) it1 it2) as [Eh ->]; try done; try lia.
    split; [|done]. by destruct (hash_inj _ _ _ _ I1 I2 Eh).
  - destruct it1 as [|r1 it1], it2 as [|r2 it2]; try done. simpl in H1, H2.
    apply list_subseteq_cons_iff in P1 as [I1 P1], P2 as [I2 P2].
    destruct (IH (b / 2) (hash_internal_node r1 c1) (hash_internal_node r2 c2) it1 it2)
      as [Eh ->]; try done; try lia.
    by destruct (hash_inj _ _ _ _ I1 I2 Eh) as [-> ->].
Qed.

#[local] Opaque root_loop root_loop_pairs.

Lemma count_ones_shift_out n : 0 <= n <= u64_max ->
  count_ones (n >> trailing_zeros n)%u64 = count_ones n /\ 0 <= (n >> trailing_zeros n)%u64 < 2 ^ 64.
Proof.
  intros Hn. destruct (Z.eq_dec n 0) as [->|]; [done|].
  destruct (odd_part_ex n ltac:(lia)) as (l & a & Hl & Ha & E).
  assert (Ht : trailing_zeros n = l) by (rewrite E; by apply trailing_zeros_spec).
  pose proof (pow2_pos l Hl).
  assert (l < 64) by (apply Z.pow_lt_mono_r_iff with 2; nia).
  rewrite Ht, u64_shr_div, E, (Z.mul_comm (2 ^ l)), Z.div_mul by lia.
  rewrite count_ones_shift by lia. split; [done|nia].
Qed.

Lemma compute_root_hash_inj roots1 roots2 n x : 0 <= n <= u64_max ->
  Z.of_nat (length roots1) = count_ones n -> Z.of_nat (length roots2) = count_ones n ->
  compute_root_pairs roots1 n ⊆ hs -> compute_root_pairs roots2 n ⊆ hs ->
  compute_root_hash roots1 n = Ok x -> compute_root_hash roots2 n = Ok x -> roots1 = roots2.
Proof.
  intros Hn H1 H2 P1 P2 R1 R2. destruct (count_ones_shift_out n Hn) as [Ec Er].
  destruct roots1 as [|a [|b l1]], roots2 as [|c [|d l2]]; simpl in H1, H2; try lia; [done|simpl in *; congruence|].
  apply (inj reverse). unfold compute_root_pairs, compute_root_hash in *.
  refine (proj2 (root_loop_inj 64 _ _ _ _ _ x Er _ _ P1 P2 R1 R2)).
  all: rewrite length_reverse, Ec; simpl length; lia.
Qed.

Lemma carry_loop_inj roots1 roots2 n mask h1 h2 R1 R2 m1 m2 x1 x2 :
  length roots1 = length roots2 ->
  carry_pairs roots1 n mask h1 ⊆ hs -> carry_pairs roots2 n mask h2 ⊆ hs ->
  carry_loop roots1 n mask h1 = Ok (R1, m1, x1) -> carry_loop roots2 n mask h2 = Ok (R2, m2, x2) ->
  m1 = m2 /\ length R1 = length R2 /\ (R1 = R2 -> x1 = x2 -> roots1 = roots2 /\ h1 = h2).
Proof.
  revert roots2 mask h1 h2. induction roots1 as [|a roots1 IH];
    intros [|b roots2] mask h1 h2 Hl P1 P2 E1 E2; try done.
  all: cbn [carry_loop carry_pairs] in *; destruct (_ =? 0); cbn [negb] in *; try done.
  - injection E1 as <- <- <-. injection E2 as <- <- <-. done.
  - injection E1 as <- <- <-. injection E2 as <- <- <-. done.
  - injection Hl as Hl. apply list_subseteq_cons_iff in P1 as [I1 P1], P2 as [I2 P2].
    destruct (IH roots2 _ _ _ Hl P1 P2 E1 E2) as (-> & Hlen & Hinj).
    split_and!; [done|done|]. intros HR Hx. destruct (Hinj HR Hx) as [-> Eh].
    by destruct (hash_inj _ _ _ _ I1 I2 Eh) as [-> ->].
Qed.

Lemma new_inj roots1 roots2 n (acc1 acc2 : t HashValue) : 0 <= n <= u64_max ->
  compute_root_pairs roots1 n ⊆ hs -> compute_root_pairs roots2 n ⊆ hs ->
  new roots1 n = Ok acc1 -> new roots2 n = Ok acc2 -> root_hash acc1 = root_hash acc2 ->
  roots1 = roots2.
Proof.
  intros Hn P1 P2 E1 E2 Hr. unfold new in E1, E2.
  apply bind_Ok_inv in E1 as ([] & L1%ensure_Ok_inv%Z.eqb_eq & (x1 & R1 & [= <-])%bind_Ok_inv).
  apply bind_Ok_inv in E2 as ([] & L2%ensure_Ok_inv%Z.eqb_eq & (x2 & R2 & [= <-])%bind_Ok_inv).
  simpl in Hr. subst x2. by eapply compute_root_hash_inj.
Qed.

Lemma subtree_loop_inj subs1 subs2 roots1 roots2 n remaining size (acc1 acc2 : t HashValue) :
  length roots1 = length roots2 ->
  subtree_pairs subs1 roots1 n remaining size ⊆ hs ->
  subtree_pairs subs2 roots2 n remaining size ⊆ hs ->
  subtree_loop subs1 roots1 n remaining size = Ok acc1 ->
  subtree_loop subs2 roots2 n remaining size = Ok acc2 ->
  root_hash acc1 = root_hash acc2 -> roots1 = roots2 /\ subs1 = subs2.
Proof.
  assert (Hend : forall s1 s2 (r1 r2 : list HashValue) m, length r1 = length r2 ->
    compute_root_pairs (r1 ++ s1) (wrap64 m) ⊆ hs -> compute_root_pairs (r2 ++ s2) (wrap64 m) ⊆ hs ->
    new (r1 ++ s1) (wrap64 m) = Ok acc1 -> new (r2 ++ s2) (wrap64 m) = Ok acc2 ->
    root_hash acc1 = root_hash acc2 -> r1 = r2 /\ s1 = s2).
  { intros s1 s2 r1 r2 m Hl P1 P2 E1 E2 Hr. apply app_inj_1; [done|].
    exact (new_inj _ _ _ _ _ (wrap64_range m) P1 P2 E1 E2 Hr). }
  revert subs2 roots1 roots2 n remaining size. induction subs1 as [|h1 subs1 IH];
    intros [|h2 subs2] roots1 roots2 n rem size Hl P1 P2 E1 E2 Hr;
    cbn [subtree_loop subtree_pairs] in *; destruct (size <=? rem);
    try discriminate; try (eapply Hend; eassumption).
  apply bind_Ok_inv in E1 as ([[R1 m1] x1] & C1 & E1).
  apply bind_Ok_inv in E2 as ([[R2 m2] x2] & C2 & E2). rewrite C1 in P1. rewrite C2 in P2.
  apply list_subseteq_app_iff_l in P1 as [I1 P1], P2 as [I2 P2].
  destruct (carry_loop_inj (reverse roots1) (reverse roots2) n size h1 h2 R1 R2 m1 m2 x1 x2)
    as (-> & Hlen & Hinj); [by rewrite !length_reverse|done..|].
  assert (Hl' : length (reverse R1 ++ [x1]) = length (reverse R2 ++ [x2]))
    by (rewrite !length_app, !length_reverse; simpl; lia).
  destruct (IH subs2 _ _ _ _ _ Hl' P1 P2 E1 E2 Hr) as [HR ->].
  apply app_inj_2 in HR as [HR [= ->]]; [|done]. apply (inj reverse) in HR as ->.
  destruct Hinj as [HR ->]; [done..|]. apply (inj reverse) in HR as ->. done.
Qed.

(** Different lists of leaves have different frozen roots. *)
Lemma full_parents_inj es1 es2 : length es1 = length es2 -> Nat.even (length es1) = true ->
  full_pairs es1 ⊆ hs -> full_pairs es2 ⊆ hs -> full_parents es1 = full_parents es2 -> es1 = es2.
Proof.
  revert es2. induction es1 as [|a|a b es1 IH] using list_pair_ind;
    intros [|c [|d es2]] Hl He P1 P2 E; try done.
  cbn [full_pairs full_parents] in *. injection E as Eh E. injection Hl as Hl.
  apply list_subseteq_cons_iff in P1 as [I1 P1], P2 as [I2 P2].
  destruct (hash_inj _ _ _ _ I1 I2 Eh) as [-> ->]. f_equal. f_equal. by apply IH.
Qed.

Lemma full_pairs_split es (o : option HashValue) : Nat.even (length es) = true ->
  full_pairs (es ++ option_list o) = full_pairs es.
Proof.
  induction es as [|a|a b es IH] using list_pair_ind; simpl; intros He; [by destruct o|done|].
  by rewrite IH.
Qed.

Lemma frozen_inj (k : nat) ls1 ls2 : length ls1 = length ls2 -> num ls1 < 2 ^ Z.of_nat k ->
  frozen_pairs k ls1 ⊆ hs -> frozen_pairs k ls2 ⊆ hs -> frozen k ls1 = frozen k ls2 -> ls1 = ls2.
Proof.
  revert ls1 ls2. induction k as [|k IH]; intros ls1 ls2 Hl Hn P1 P2 E.
  { pose proof (num_nonneg ls1). assert (ls1 = []) as -> by (apply num_0; simpl in *; lia).
    by destruct ls2. }
  destruct (even_split ls1) as (es1 & o1 & -> & He1), (even_split ls2) as (es2 & o2 & -> & He2).
  cbn [frozen_pairs] in P1, P2. rewrite full_pairs_split, full_parents_odd in P1, P2 by done.
  rewrite !frozen_split in E by done. rewrite !length_app in Hl. rewrite num_app in Hn.
  apply list_subseteq_app_iff_l in P1 as [I1 P1], P2 as [I2 P2].
  assert (Hlen : length es1 = length es2).
  { apply Nat.even_spec, Nat.Even_double in He1, He2. unfold Nat.double in *.
    destruct o1, o2; simpl in *; lia. }
  apply app_inj_2 in E as [E ->]; [|lia]. f_equal.
  apply full_parents_inj; [done..|]. apply IH; [by rewrite !length_full_parents, Hlen| |done..].
  rewrite Nat2Z.inj_succ, Z.pow_succ_r in Hn by lia. pose proof (num_even es1 He1).
  pose proof (num_nonneg (option_list o1)). lia.
Qed.

End inj.

Lemma append_subtrees_pairs_eq ls subs n : 0 < num ls <= 2 ^ 63 ->
  append_subtrees_pairs (acc_of ls) subs n
  = subtree_pairs subs (frozen_roots ls) (num ls) n (2 ^ trailing_zeros (num ls)).
Proof.
  intros Hn. unfold append_subtrees_pairs. cbn [acc_of num_leaves frozen_subtree_roots].
  destruct (Z.eqb_spec (num ls) 0); [lia|].
  rewrite one_shl by (pose proof (trailing_zeros_63 (num ls) Hn); lia). done.
Qed.

(** C23: Consistency proofs are sound. When the accumulator of the leaves [ls],
    extended by any subtrees for [n] more leaves, has the root hash of the
    accumulator of [ls'], the old leaves are a prefix of the new ones, unless
    two of the pairs hashed by the check or to build the two trees collide.
    A client that extends its trusted accumulator cannot be moved to a fork. *)
Theorem consistency_sound ls ls' subtrees n acc :
  let k := length ls in
  collision_free (append_subtrees_pairs (acc_of ls) subtrees n
    ++ append_subtrees_pairs (acc_of (take k ls')) (new_subtrees (num ls) (drop k ls')) n
    ++ frozen_pairs 64 ls ++ frozen_pairs 64 (take k ls')) ->
  0 <= n -> num ls' = num ls + n -> num ls' <= MAX_ACCUMULATOR_LEAVES ->
  append_subtrees (acc_of ls) subtrees n = Ok acc -> root_hash acc = merkle_root ls' ->
  ls = take k ls'.
Proof.
  intros k Hcf Hn Hl' Hmax Ha Hr.
  change MAX_ACCUMULATOR_LEAVES with (2 ^ 63) in Hmax. pose proof (num_nonneg ls).
  destruct (Z.eq_dec (num ls) 0) as [E0|E0].
  { unfold k. by rewrite (num_0 ls E0). }
  assert (Hk : length (take k ls') = k) by (rewrite length_take; unfold num in *; lia).
  assert (Hn1 : num (take k ls') = num ls) by (unfold num; by rewrite Hk).
  assert (Hn2 : num (drop k ls') = n) by (unfold num in *; rewrite length_drop; lia).
  pose proof (subtree_loop_frozen (S (length (drop k ls'))) (take k ls') (drop k ls')) as Hh.
  rewrite Hn1, Hn2, take_drop in Hh. specialize (Hh ltac:(lia) ltac:(lia) ltac:(lia)).
  unfold append_subtrees in Ha. apply bind_Ok_inv in Ha as ([] & _ & Ha).
  rewrite !append_subtrees_pairs_eq, Hn1 in Hcf by lia. set (hs := _ ++ _) in Hcf.
  cbn [acc_of num_leaves frozen_subtree_roots] in Ha.
  destruct (Z.eqb_spec (num ls) 0); [lia|].
  rewrite one_shl in Ha by (pose proof (trailing_zeros_63 (num ls) ltac:(lia)); lia).
  destruct (subtree_loop_inj hs Hcf subtrees (new_subtrees (num ls) (drop k ls'))
    (frozen_roots ls) (frozen_roots (take k ls')) (num ls) n
    (2 ^ trailing_zeros (num ls)) acc (acc_of ls')) as [Hroots _]; try done.
  - apply Nat2Z.inj. rewrite !(frozen_roots_at 64), !frozen_length; [by rewrite Hn1|..];
      unfold num in *; rewrite ?Hk; simpl; lia.
  - apply list_subseteq_app_l. done.
  - apply list_subseteq_app_r, list_subseteq_app_l. done.
  - rewrite !(frozen_roots_at 64) in Hroots by (unfold num in *; rewrite ?Hk; simpl; lia).
    eapply (frozen_inj hs Hcf 64); [done|unfold num in *; simpl; lia|..|done];
      do 2 apply list_subseteq_app_r; [by apply list_subseteq_app_l|by apply list_subseteq_app_r].
Qed.

End pairs.

Lemma consistency_sound_witness :
  [SymLeaf 1; SymLeaf 2; SymLeaf 3]
  = take 3 [SymLeaf 1; SymLeaf 2; SymLeaf 3; SymLeaf 4; SymLeaf 5; SymLeaf 6].
Proof.
  refine (consistency_sound [SymLeaf 1; SymLeaf 2; SymLeaf 3]
    [SymLeaf 1; SymLeaf 2; SymLeaf 3; SymLeaf 4; SymLeaf 5; SymLeaf 6]
    [SymLeaf 4; hash_internal_node (SymLeaf 5) (SymLeaf 6)] 3
    (acc_of [SymLeaf 1; SymLeaf 2; SymLeaf 3; SymLeaf 4; SymLeaf 5; SymLeaf 6]) _ _ _ _ _ _);
    [apply symbolic_collision_free|by vm_compute..].
Defined.
