(* ===== verification/StorageAccumulator.v ===== *)
(** * The accumulator over storage (storage/accumulator/src/lib.rs)

    [MerkleAccumulator] computes on an accumulator of which only the frozen
    nodes are stored, behind the trait [HashReader]: it appends leaves and
    returns the nodes to store, and it reads root hashes, inclusion, range and
    consistency proofs. Module [MerkleAccumulatorView] is the implementation;
    the functions of [MerkleAccumulator] build a view and call it.

    The theorems are stated for a reader that stores the frozen nodes of the
    leaves [ls] ([stores]): every read returns what [MerkleSpec] defines on
    [ls], and storing what [append] returns restores the property. *)
From stdpp Require Import prelude strings.
From Stdlib Require Import ZArith Lia.
From S2P Require Import Prelude Bits Positions PositionIters Hash MerkleSpec InMemAccumulator.
From S2P Require Import AccumulatorProofs.

(** [trait HashReader] *)
Class HashReader (R HashValue : Type) :=
  reader_get : R -> Position.t -> outcome string HashValue.

Module MerkleAccumulatorView.

(** [type Node = (Position, HashValue)] *)
Abbreviation Node A := (Position.t * A)%type.

Section view.
Context {HashValue : Type} `{MerkleHasher HashValue}.
Context {R : Type} `{!HashReader R HashValue}.

Record t := new { reader : R; num_leaves : Z }.

Definition rightmost_leaf_index (self : t) : Z := (num_leaves self - 1)%u64.

(** [get_hash] goes down one level per call, and a leaf is either a
    placeholder or frozen: 64 calls reach the leaves from any node. *)
Fixpoint get_hash_rec (fuel : nat) (self : t) (position : Position.t) : outcome string HashValue :=
  match fuel with
  | O => Panic
  | S fuel =>
      let idx := rightmost_leaf_index self in
      if Position.is_placeholder position idx then Ok ACCUMULATOR_PLACEHOLDER_HASH
      else if Position.is_freezable position idx then reader_get (reader self) position
      else
        left ← Position.left_child position;
        left_hash ← get_hash_rec fuel self left;
        right ← Position.right_child position;
        right_hash ← get_hash_rec fuel self right;
        Ok (hash_internal_node left_hash right_hash)
  end.

Definition get_hash (self : t) (position : Position.t) : outcome string HashValue :=
  get_hash_rec 64 self position.

Definition get_hashes (self : t) (positions : list Position.t) : outcome string (list HashValue) :=
  collect (get_hash self) positions.

Definition get_root_hash (self : t) : outcome string HashValue :=
  root ← Position.root_from_leaf_count (num_leaves self); get_hash self root.

(** ** Appending *)

(** The [match left_siblings.pop()] of [append]: the left sibling is on top of
    the stack, or was stored by an earlier call. *)
Definition left_sibling (self : t) (left_siblings : list (Node HashValue)) (sibling : Position.t)
    : outcome string (list (Node HashValue) * HashValue) :=
  match vec_pop left_siblings with
  | Some (left_siblings, (x, left_hash)) =>
      assert_ (bool_decide (x = sibling)) ;; Ok (left_siblings, left_hash)
  | None => left_hash ← reader_get (reader self) sibling; Ok (left_siblings, left_hash)
  end.

(** [while pos.is_right_child()]: a position has at most 64 ancestors that are
    right children. *)
Fixpoint freeze_loop (fuel : nat) (self : t) (pos : Position.t) (hash : HashValue)
    (left_siblings to_freeze : list (Node HashValue))
    : outcome string (Position.t * HashValue * list (Node HashValue) * list (Node HashValue)) :=
  match fuel with
  | O => Panic
  | S fuel =>
      if Position.is_right_child pos then
        let sibling := Position.sibling pos in
        '(left_siblings, left_hash) ← left_sibling self left_siblings sibling;
        let hash := hash_internal_node left_hash hash in
        let pos := Position.parent pos in
        freeze_loop fuel self pos hash left_siblings (to_freeze ++ [(pos, hash)])
      else Ok (pos, hash, left_siblings, to_freeze)
  end.

(** [for (leaf_offset, leaf) in new_leaves.iter().enumerate()] *)
Fixpoint append_leaves (self : t) (leaf_offset : Z) (new_leaves : list HashValue)
    (left_siblings to_freeze : list (Node HashValue)) : outcome string (list (Node HashValue) * list (Node HashValue)) :=
  match new_leaves with
  | [] => Ok (left_siblings, to_freeze)
  | leaf :: new_leaves =>
      let leaf_pos := Position.from_leaf_index (num_leaves self + leaf_offset)%u64 in
      '(pos, hash, left_siblings, to_freeze) ←
        freeze_loop 65 self leaf_pos leaf left_siblings (to_freeze ++ [(leaf_pos, leaf)]);
      append_leaves self (leaf_offset + 1) new_leaves (left_siblings ++ [(pos, hash)]) to_freeze
  end.

(** [for _ in pos.level()..root_level] *)
Fixpoint root_loop (n : nat) (self : t) (pos : Position.t) (hash : HashValue)
    (left_siblings : list (Node HashValue)) : outcome string (HashValue * list (Node HashValue)) :=
  match n with
  | O => Ok (hash, left_siblings)
  | S n =>
      '(left_siblings, hash) ←
        (if Position.is_left_child pos
         then Ok (left_siblings, hash_internal_node hash ACCUMULATOR_PLACEHOLDER_HASH)
         else
           let sibling := Position.sibling pos in
           '(left_siblings, left_hash) ← left_sibling self left_siblings sibling;
           Ok (left_siblings, hash_internal_node left_hash hash));
      root_loop n self (Position.parent pos) hash left_siblings
  end.

Definition append (self : t) (new_leaves : list HashValue) : outcome string (HashValue * list (Node HashValue)) :=
  if bool_decide (new_leaves = []) then
    if num_leaves self =? 0 then Ok (ACCUMULATOR_PLACEHOLDER_HASH, [])
    else
      root ← Position.root_from_leaf_count (num_leaves self);
      root_hash ← get_hash self root;
      Ok (root_hash, [])
  else
    let num_new_leaves := Z.of_nat (length new_leaves) in
    let last_new_leaf_count := (num_leaves self + num_new_leaves)%u64 in
    root_level ← Position.root_level_from_leaf_count last_new_leaf_count;
    '(left_siblings, to_freeze) ← append_leaves self 0 new_leaves [] [];
    '(left_siblings, (pos, hash)) ← expect (vec_pop left_siblings);
    '(hash, left_siblings) ←
      root_loop (Z.to_nat (root_level - Position.level pos)) self pos hash left_siblings;
    assert_ (bool_decide (left_siblings = [])) ;;
    Ok (hash, to_freeze).

(** ** Proofs *)

Definition get_sibling_positions (self : t) (leaf_index : Z) (filter : Position.t -> bool)
    : outcome string (list Position.t) :=
  root_pos ← Position.root_from_leaf_count (num_leaves self);
  Ok (List.filter filter
        (iter_take AncestorSiblingIterator.next (Z.to_nat (Position.level root_pos))
           (Position.from_leaf_index leaf_index))).

Definition get_siblings (self : t) (leaf_index : Z) (filter : Position.t -> bool)
    : outcome string (list HashValue) :=
  positions ← get_sibling_positions self leaf_index filter; get_hashes self positions.

Definition get_proof (self : t) (leaf_index : Z) : outcome string (AccumulatorProof.t HashValue) :=
  ensure (leaf_index <? num_leaves self) "invalid leaf_index"%string ;;
  siblings ← get_siblings self leaf_index (fun _ => true);
  Ok (AccumulatorProof.new siblings).

(** An [AccumulatorConsistencyProof] is its list of subtrees. *)
Definition get_consistency_proof (self : t) (sub_acc_leaves : Z) : outcome string (list HashValue) :=
  ensure (sub_acc_leaves <=? num_leaves self)
    "Can't get accumulator consistency proof for a version newer than the local version."%string ;;
  it ← FrozenSubtreeSiblingIterator.new sub_acc_leaves (num_leaves self);
  collect (reader_get (reader self)) (FrozenSubtreeSiblingIterator.positions it).

Definition get_range_proof_positions (self : t) (first_leaf_index : option Z) (num_leaves' : Z)
    : outcome string (list Position.t * list Position.t) :=
  match first_leaf_index with
  | None =>
      ensure (num_leaves' =? 0) "num_leaves is not zero while first_leaf_index is None."%string ;;
      Ok ([], [])
  | Some first_leaf_index =>
      ensure (0 <? num_leaves') "num_leaves is zero while first_leaf_index is not None."%string ;;
      last_leaf_index ← ok_or (checked_add first_leaf_index (num_leaves' - 1)%u64)
                          "Requesting too many leaves."%string;
      ensure (last_leaf_index <? num_leaves self) "Invalid last_leaf_index"%string ;;
      left_siblings ← get_sibling_positions self first_leaf_index Position.is_left_child;
      right_siblings ← get_sibling_positions self last_leaf_index Position.is_right_child;
      Ok (left_siblings, right_siblings)
  end.

Definition get_range_proof (self : t) (first_leaf_index : option Z) (num_leaves' : Z)
    : outcome string (AccumulatorRangeProof.t HashValue) :=
  '(left_siblings, right_siblings) ← get_range_proof_positions self first_leaf_index num_leaves';
  left_hashes ← get_hashes self left_siblings;
  right_hashes ← get_hashes self right_siblings;
  Ok (AccumulatorRangeProof.new left_hashes right_hashes).

Definition get_frozen_subtree_hashes (self : t) : outcome string (list HashValue) :=
  collect (reader_get (reader self)) (FrozenSubTreeIterator.positions (num_leaves self)).

End view.
Arguments t R : clear implicits.
End MerkleAccumulatorView.

Module MerkleAccumulator.
Section api.
Context {HashValue : Type} `{MerkleHasher HashValue}.
Context {R : Type} `{!HashReader R HashValue}.
Import MerkleAccumulatorView.

Definition append (reader : R) (num_existing_leaves : Z) (new_leaves : list HashValue)
    : outcome string (HashValue * list (Node HashValue)) :=
  append (new reader num_existing_leaves) new_leaves.

Definition get_proof (reader : R) (num_leaves leaf_index : Z) : outcome string (AccumulatorProof.t HashValue) :=
  get_proof (new reader num_leaves) leaf_index.

Definition get_consistency_proof (reader : R) (full_acc_leaves sub_acc_leaves : Z)
    : outcome string (list HashValue) :=
  get_consistency_proof (new reader full_acc_leaves) sub_acc_leaves.

Definition get_range_proof (reader : R) (full_acc_leaves : Z) (first_leaf_index : option Z)
    (num_leaves : Z) : outcome string (AccumulatorRangeProof.t HashValue) :=
  get_range_proof (new reader full_acc_leaves) first_leaf_index num_leaves.

Definition get_range_proof_positions (reader : R) (full_acc_leaves : Z) (first_leaf_index : option Z)
    (num_leaves : Z) : outcome string (list Position.t * list Position.t) :=
  get_range_proof_positions (new reader full_acc_leaves) first_leaf_index num_leaves.

Definition get_frozen_subtree_hashes (reader : R) (num_leaves : Z) : outcome string (list HashValue) :=
  get_frozen_subtree_hashes (new reader num_leaves).

Definition get_root_hash (reader : R) (num_leaves : Z) : outcome string HashValue :=
  get_root_hash (new reader num_leaves).

End api.
End MerkleAccumulator.

Section proofs.
Context {HashValue : Type} `{MerkleHasher HashValue}.
Context {R : Type} `{!HashReader R HashValue}.
Import MerkleAccumulatorView.
Implicit Types (ls ms : list HashValue).

(** ** The nodes of the tree by position *)

(** The hash of the [p]-th node of level [l] over [ls]. *)
Definition node_hash ls (l p : Z) : HashValue :=
  at_or_placeholder (plevel (Z.to_nat l) ls) (Z.to_nat p).

(** All the leaves below the node exist. *)
Definition full (n l p : Z) : Prop := (p + 1) * 2 ^ l <= n.

(** The reader has the frozen nodes of the accumulator over [ls]. *)
Definition stores (r : R) ls : Prop :=
  forall l p, valid l p -> full (num ls) l p ->
    reader_get r (Position.mk (node l p)) = Ok (node_hash ls l p).

Lemma plevel_lookup_lt (l p : nat) ls :
  (p < length (plevel l ls))%nat <-> Z.of_nat p * 2 ^ Z.of_nat l < num ls.
Proof.
  revert p. induction l as [|l IH]; intros p; [unfold num; simpl; lia|].
  rewrite plevel_S, length_parents. transitivity (2 * p < length (plevel l ls))%nat.
  - pose proof (Nat.div2_odd (S (length (plevel l ls)))).
    destruct (Nat.odd _); simpl Nat.b2n in *; lia.
  - rewrite IH, Nat2Z.inj_succ, Z.pow_succ_r by lia. lia.
Qed.

Lemma node_hash_placeholder ls l p : 0 <= l -> 0 <= p -> num ls <= p * 2 ^ l ->
  node_hash ls l p = ACCUMULATOR_PLACEHOLDER_HASH.
Proof.
  intros Hl Hp Hn. unfold node_hash, at_or_placeholder.
  destruct (_ !! _) eqn:E; [|done]. apply lookup_lt_Some, plevel_lookup_lt in E.
  rewrite !Z2Nat.id in E by lia. lia.
Qed.

Lemma node_hash_children ls l p : 0 <= l -> 0 <= p -> p * 2 ^ (l + 1) < num ls ->
  node_hash ls (l + 1) p = hash_internal_node (node_hash ls l (2 * p)) (node_hash ls l (2 * p + 1)).
Proof.
  intros Hl Hp Hn. unfold node_hash. rewrite Z2Nat.inj_add, Nat.add_1_r, plevel_S by lia.
  rewrite at_parents.
  - do 2 f_equal; lia.
  - replace (2 * Z.to_nat p)%nat with (Z.to_nat (2 * p)) by lia. apply plevel_lookup_lt.
    rewrite !Z2Nat.id by lia. rewrite pow2_S in Hn by lia. lia.
Qed.

Lemma get_hash_rec_spec r ls (fuel : nat) l p :
  stores r ls -> 0 < num ls <= 2 ^ 63 -> valid l p -> l < Z.of_nat fuel ->
  get_hash_rec fuel (new r (num ls)) (Position.mk (node l p)) = Ok (node_hash ls l p).
Proof.
  intros Hs Hn. revert l p. induction fuel as [|fuel IH]; intros l p Hv Hf; [destruct Hv; lia|].
  cbn [get_hash_rec]. unfold rightmost_leaf_index. cbn [num_leaves reader].
  rewrite u64_sub_small, is_placeholder_node, is_freezable_node by (done || lia).
  pose proof Hv as [Hl Hp].
  destruct (Z.ltb_spec (num ls - 1) (p * 2 ^ l)); [by rewrite node_hash_placeholder by lia|].
  destruct (Z.leb_spec ((p + 1) * 2 ^ l) (num ls - 1 + 1)).
  { apply Hs; [done|]. red. lia. }
  assert (l <> 0) by (intros ->; lia). pose proof (pow2_pos l ltac:(lia)).
  assert (exists k, l = k + 1) as [k ->] by (exists (l - 1); lia).
  unfold Position.left_child, Position.right_child.
  rewrite is_leaf_node by lia. destruct (Z.eqb_spec (k + 1) 0); [lia|].
  cbn [negb assert_ mbind outcome_bind]. rewrite !child_node by (done || lia).
  rewrite !IH; try lia; try (eapply valid_child; [exact Hv|lia|lia]).
  cbn [mbind outcome_bind]. rewrite node_hash_children; [done|lia..].
Qed.

Lemma get_hash_spec r ls l p : stores r ls -> 0 < num ls <= 2 ^ 63 -> valid l p ->
  get_hash (new r (num ls)) (Position.mk (node l p)) = Ok (node_hash ls l p).
Proof. intros Hs Hn Hv. apply get_hash_rec_spec; [done..|]. destruct Hv; lia. Qed.

(** ** Siblings *)







Section reads.
Context (r : R) (ls : list HashValue).
Context (Hs : stores r ls) (Hn : 0 < num ls <= 2 ^ 63).


Lemma root_position : Position.root_from_leaf_count (E := string) (num ls)
  = Ok (Position.mk (node (Z.of_nat (depth_nat ls)) 0)).
Proof.
  rewrite root_from_leaf_count_node by done. unfold depth_nat.
  rewrite Z2Nat.id; [done|]. apply Z.log2_up_nonneg.
Qed.

Lemma root_valid : valid (Z.of_nat (depth_nat ls)) 0.
Proof.
  assert (ls <> []) by (intros ->; unfold num in Hn; simpl in *; lia).
  pose proof (depth_nat_63 ls ltac:(done) ltac:(lia)).
  split; [lia|]. split; [lia|]. apply pow2_pos. lia.
Qed.










Lemma root_hash_read :
  get_hash (new r (num ls)) (Position.mk (node (Z.of_nat (depth_nat ls)) 0)) = Ok (merkle_root ls).
Proof.
  rewrite get_hash_spec by (done || apply root_valid). f_equal.
  unfold node_hash, merkle_root. rewrite Nat2Z.id. fold (depth_nat ls). by rewrite root_at_plevel.
Qed.


End reads.

(** ** Frozen subtrees *)

(** A level depends on the leaves below it only. *)
Lemma plevel_agree (l m : nat) ls ms : (forall i, (i < m * 2 ^ l)%nat -> ls !! i = ms !! i) ->
  forall p, (p < m)%nat -> plevel l ls !! p = plevel l ms !! p.
Proof.
  revert m. induction l as [|l IH]; intros m Hag p Hp; [apply Hag; simpl; lia|].
  rewrite !plevel_S, !parents_lookup. unfold at_or_placeholder.
  assert (IH' : forall q, (q < 2 * m)%nat -> plevel l ls !! q = plevel l ms !! q).
  { apply IH. intros i Hi. apply Hag. simpl. lia. }
  by rewrite !IH' by lia.
Qed.

Lemma node_hash_agree ls ms l p : 0 <= l -> 0 <= p ->
  (forall i : nat, Z.of_nat i < (p + 1) * 2 ^ l -> ls !! i = ms !! i) ->
  node_hash ls l p = node_hash ms l p.
Proof.
  intros Hl Hp Hag. unfold node_hash, at_or_placeholder.
  rewrite (plevel_agree (Z.to_nat l) (Z.to_nat p + 1) ls ms); [done| |lia].
  intros i Hi. apply Hag. apply Nat2Z.inj_lt in Hi.
  rewrite Nat2Z.inj_mul, Nat2Z.inj_pow in Hi. simpl in Hi. rewrite Z2Nat.id in Hi by lia.
  replace (p + 1) with (Z.of_nat (Z.to_nat p + 1)) by lia. done.
Qed.

Lemma node_hash_full_parents ls l p : 0 <= l -> 0 <= p -> full (num (full_parents ls)) l p ->
  node_hash ls (l + 1) p = node_hash (full_parents ls) l p.
Proof.
  intros Hl Hp Hf. transitivity (node_hash (parents ls) l p).
  { unfold node_hash. by rewrite Z2Nat.inj_add, Nat.add_1_r by lia. }
  apply node_hash_agree; [done..|]. intros i Hi. red in Hf.
  destruct (even_split ls) as (es & o & -> & He).
  rewrite parents_app, full_parents_odd in * by done.
  apply lookup_app_l. unfold num in Hf. lia.
Qed.

Lemma frozen_below_full (k : nat) n l p : 0 <= n -> (l, p) ∈ frozen_below k n ->
  0 <= l < Z.of_nat k /\ 0 <= p /\ full n l p.
Proof.
  intros Hn. induction k as [|k IH]; simpl; intros Hin; [by apply not_elem_of_nil in Hin|].
  apply elem_of_app in Hin as [Hin|Hin]; [|destruct (IH Hin) as (? & ? & ?); split_and!; done || lia].
  destruct (Z.testbit n (Z.of_nat k)) eqn:Hb; [|by apply not_elem_of_nil in Hin].
  apply list_elem_of_singleton in Hin as [= -> ->].
  pose proof (mod_pow2_S n k Hn) as Hm. rewrite Hb in Hm.
  pose proof (pow2_pos (Z.of_nat k) ltac:(lia)). pose proof (pow2_S (Z.of_nat k) ltac:(lia)).
  pose proof (mod_div_pow2 n (Z.of_nat k + 1) ltac:(lia)).
  pose proof (Z.mod_pos_bound n (2 ^ Z.of_nat k) ltac:(lia)).
  pose proof (Z.div_pos n (2 ^ (Z.of_nat k + 1)) ltac:(lia) ltac:(lia)).
  unfold full. split_and!; lia.
Qed.

Lemma frozen_below_split (k : nat) es (o : option HashValue) : Nat.even (length es) = true ->
  frozen_below (S k) (num (es ++ option_list o))
  = (up <$> frozen_below k (num (full_parents es))) ++ ((fun _ => (0, num es)) <$> option_list o).
Proof.
  intros He. rewrite frozen_below_S by apply num_nonneg. pose proof (num_even es He) as E.
  rewrite num_app, E. destruct o as [y|]; simpl option_list.
  - change (num [y]) with 1. rewrite Z.odd_add, Z.odd_mul. simpl. do 2 f_equal.
    + f_equal. symmetry. apply Z.div_unique with 1; lia.
    + f_equal. lia.
  - change (num []) with 0. rewrite Z.add_0_r, Z.odd_mul. simpl.
    by rewrite Z.mul_comm, Z.div_mul by lia.
Qed.

Lemma node_hash_up (k : nat) es (o : option HashValue) lp : Nat.even (length es) = true ->
  lp ∈ frozen_below k (num (full_parents es)) ->
  node_hash (es ++ option_list o) (up lp).1 (up lp).2 = node_hash (full_parents es) lp.1 lp.2.
Proof.
  intros He Hin. destruct lp as [l p].
  apply frozen_below_full in Hin as (Hl & Hp & Hf); [|apply num_nonneg]. simpl.
  rewrite node_hash_full_parents, full_parents_odd by (rewrite ?full_parents_odd; done || lia). done.
Qed.

Lemma node_hash_last es y : node_hash (es ++ [y]) 0 (num es) = y.
Proof.
  unfold node_hash, at_or_placeholder, num. rewrite Nat2Z.id. simpl plevel.
  by rewrite list_lookup_middle.
Qed.

(** The frozen subtree roots, by position. *)
Lemma frozen_below_hashes (k : nat) ls :
  (fun lp => node_hash ls lp.1 lp.2) <$> frozen_below k (num ls) = frozen k ls.
Proof.
  revert ls. induction k as [|k IH]; intros ls; [done|].
  destruct (even_split ls) as (es & o & -> & He).
  rewrite frozen_split, frozen_below_split, fmap_app, <- IH, <- !list_fmap_compose by done. f_equal.
  - apply list_fmap_ext. intros i lp Hlp%list_elem_of_lookup_2. by eapply node_hash_up.
  - destruct o; simpl; [by rewrite node_hash_last|done].
Qed.

(** ** Consistency *)

Lemma length_levels (l : nat) ls : Z.of_nat (length (levels l ls)) = num ls / 2 ^ Z.of_nat l.
Proof.
  revert ls. induction l as [|l IH]; intros ls; [by rewrite Z.div_1_r|]. cbn [levels].
  rewrite IH. unfold num. rewrite length_full_parents, <- half_of_nat.
  rewrite Z.div_div by (try apply pow2_pos; lia). f_equal.
  rewrite Nat2Z.inj_succ, Z.pow_succ_r; lia.
Qed.

(** Above aligned leaves, the levels are those of the two parts. *)
Lemma plevel_app (l : nat) ls ms : (2 ^ Z.of_nat l | num ls) ->
  plevel l (ls ++ ms) = levels l ls ++ plevel l ms.
Proof.
  revert ls ms. induction l as [|l IH]; intros ls ms Hd; [done|].
  rewrite Nat2Z.inj_succ, Z.pow_succ_r in Hd by lia. destruct Hd as [q Hq].
  assert (He : Nat.even (length ls) = true).
  { unfold num in Hq. apply Nat.even_spec. exists (Z.to_nat (q * 2 ^ Z.of_nat l)).
    pose proof (pow2_pos (Z.of_nat l)). lia. }
  cbn [plevel levels]. rewrite parents_app by done. apply IH.
  exists q. pose proof (num_even ls He). lia.
Qed.

Lemma node_hash_app ls ms l p : 0 <= l -> 0 <= p -> (2 ^ l | num ls) ->
  node_hash (ls ++ ms) l (num ls / 2 ^ l + p) = node_hash ms l p.
Proof.
  intros Hl Hp Hd. unfold node_hash. rewrite plevel_app by by rewrite Z2Nat.id.
  pose proof (length_levels (Z.to_nat l) ls) as Hlen. rewrite Z2Nat.id in Hlen by done.
  unfold at_or_placeholder. rewrite lookup_app_r; [do 2 f_equal|]; lia.
Qed.

Lemma sib_level_top (k : nat) c r : 0 <= c -> 0 <= r < 2 ^ (Z.of_nat k + 1) ->
  (2 ^ (Z.of_nat k + 1) | c) -> Z.testbit r (Z.of_nat k) = true -> sib_level c r = Z.of_nat k.
Proof.
  intros Hc Hr Hd Hb. unfold sib_level.
  assert (Hlog : Z.log2 r = Z.of_nat k).
  { pose proof (mod_pow2_S r k ltac:(lia)) as Hm. rewrite Hb, Z.mod_small in Hm by lia.
    pose proof (Z.mod_pos_bound r (2 ^ Z.of_nat k) ltac:(apply pow2_pos; lia)).
    apply Z.log2_unique; lia. }
  destruct (Z.ltb_spec 0 c); [|done]. simpl.
  pose proof (trailing_zeros_ge (Z.of_nat k + 1) c ltac:(lia) ltac:(lia) Hd) as Ht.
  pose proof (Z.pow_le_mono_r 2 _ _ ltac:(lia) Ht).
  destruct (Z.leb_spec (2 ^ trailing_zeros c) r); [lia|done].
Qed.

(** Below the rightmost frozen subtree the new subtrees are the frozen subtrees
    of the remaining leaves, shifted. *)
Lemma sib_collect_low (k fuel : nat) c r :
  0 <= c -> 0 <= r -> c + r <= 2 ^ 63 -> (k <= fuel)%nat -> (2 ^ Z.of_nat k | c) ->
  iter_collect FrozenSubtreeSiblingIterator.next fuel
    (sib_state (c + (r - r mod 2 ^ Z.of_nat k)) (r mod 2 ^ Z.of_nat k))
  = (fun lp => Position.mk (node lp.1 (c / 2 ^ lp.1 + lp.2))) <$> frozen_below k r.
Proof.
  intros Hc Hr Hs. revert fuel. induction k as [|k IH]; intros fuel Hf Hd.
  { simpl. rewrite Z.mod_1_r. by destruct fuel. }
  rewrite Nat2Z.inj_succ, <- Z.add_1_r in *. cbn [frozen_below]. rewrite fmap_app.
  pose proof (pow2_pos (Z.of_nat k) ltac:(lia)). pose proof (pow2_S (Z.of_nat k) ltac:(lia)) as HS.
  assert (Hdk : (2 ^ Z.of_nat k | c)) by (etrans; [|exact Hd]; rewrite HS; apply Z.divide_factor_r).
  pose proof (mod_pow2_S r k Hr) as Hm. destruct (Z.testbit r (Z.of_nat k)) eqn:Hb.
  2: { rewrite Hm, Z.add_0_r. apply IH; [lia|done]. }
  destruct fuel as [|fuel]; [lia|]. cbn [iter_collect].
  set (c' := c + (r - r mod 2 ^ (Z.of_nat k + 1))). set (r' := r mod 2 ^ (Z.of_nat k + 1)).
  pose proof (Z.mod_pos_bound r (2 ^ (Z.of_nat k + 1)) ltac:(lia)) as Hr'. fold r' in Hr', Hm.
  pose proof (Z.mod_pos_bound r (2 ^ Z.of_nat k) ltac:(lia)).
  pose proof (Z.mod_le r (2 ^ (Z.of_nat k + 1)) ltac:(lia) ltac:(lia)). fold r' in H2.
  assert (Hc' : (2 ^ (Z.of_nat k + 1) | c')).
  { unfold c'. apply Z.divide_add_r; [done|]. rewrite mod_div_pow2 by lia. apply Z.divide_factor_l. }
  rewrite sib_next by lia. rewrite (sib_level_top k); [|lia|done|done|].
  2: { unfold r'. rewrite Z.mod_pow2_bits_low by lia. done. }
  cbn [app fmap list_fmap fst snd]. f_equal.
  - unfold c'. rewrite mod_div_pow2, HS by lia.
    replace (c + 2 * 2 ^ Z.of_nat k * (r / (2 * 2 ^ Z.of_nat k)))
      with (c + 2 * (r / (2 * 2 ^ Z.of_nat k)) * 2 ^ Z.of_nat k) by lia.
    by rewrite Z.div_add by lia.
  - replace (c' + 2 ^ Z.of_nat k) with (c + (r - r mod 2 ^ Z.of_nat k)) by lia.
    replace (r' - 2 ^ Z.of_nat k) with (r mod 2 ^ Z.of_nat k) by lia.
    apply IH; [lia|done].
Qed.

Section subtrees.
Context (r : R) (ls : list HashValue).
Context (Hs : stores r ls) (Hn : num ls <= 2 ^ 63).

Lemma full_valid l p : 0 <= l <= 63 -> 0 <= p -> full (2 ^ 63) l p -> valid l p.
Proof.
  intros Hl Hp Hf. split; [done|]. red in Hf. pose proof (pow2_pos l ltac:(lia)).
  rewrite (pow2_split l 63) in Hf by lia. nia.
Qed.

Lemma read_full l p : 0 <= l <= 63 -> 0 <= p -> full (num ls) l p ->
  reader_get r (Position.mk (node l p)) = Ok (node_hash ls l p).
Proof. intros. apply Hs; [|done]. apply full_valid; [done..|]. unfold full in *. lia. Qed.


Lemma read_low (k fuel : nat) ls0 ms : ls = ls0 ++ ms -> (k <= 64)%nat -> (k <= fuel)%nat ->
  num ms < 2 ^ Z.of_nat k -> (2 ^ Z.of_nat k | num ls0) ->
  collect (reader_get r) (iter_collect FrozenSubtreeSiblingIterator.next fuel
                            (sib_state (num ls0) (num ms))) = Ok (frozen_roots ms).
Proof.
  intros Els Hk Hf Hm Hd. assert (Hn' := Hn). rewrite Els, num_app in Hn'.
  pose proof (num_nonneg ls0). pose proof (num_nonneg ms).
  pose proof (sib_collect_low k fuel (num ls0) (num ms)) as Hc.
  rewrite Z.mod_small, Z.sub_diag, Z.add_0_r in Hc by lia. rewrite Hc by (done || lia).
  rewrite (frozen_roots_at k), <- frozen_below_hashes by done.
  apply collect_Ok_Forall2, Forall2_fmap_l, Forall2_fmap_r, Forall_Forall2_diag, Forall_forall.
  intros [l p] Hin. apply frozen_below_full in Hin as (Hl & Hp & Hfu); [|done]. simpl.
  pose proof (pow2_pos l ltac:(lia)).
  assert (Hdl : (2 ^ l | num ls0)).
  { etrans; [|exact Hd]. exists (2 ^ (Z.of_nat k - l)). rewrite <- Z.pow_add_r by lia. f_equal; lia. }
  pose proof (Z.div_pos (num ls0) (2 ^ l) ltac:(lia) ltac:(lia)).
  rewrite read_full; [by rewrite Els, node_hash_app by (done || lia)|lia|lia|].
  red in Hfu |- *. rewrite Els, num_app. destruct Hdl as [q Hq]. rewrite Hq, Z.div_mul by lia. lia.
Qed.

(** When the rightmost frozen subtree cannot be completed. *)
Lemma low_fuel c r' : 0 <= c -> 0 <= r' -> c + r' <= 2 ^ 63 ->
  r' < 2 ^ trailing_zeros c -> exists k : nat,
    (k <= 64)%nat /\ sib_fuel c r' = Z.of_nat k /\ r' < 2 ^ Z.of_nat k /\ (2 ^ Z.of_nat k | c).
Proof.
  intros Hc Hr Hsum Hlt. exists (Z.to_nat (sib_fuel c r')).
  pose proof (sib_fuel_range c r' Hc Hr Hsum) as Hrange. rewrite Z2Nat.id by lia.
  unfold sib_fuel in *. destruct (Z.leb_spec (2 ^ trailing_zeros c) r'); [lia|].
  rewrite andb_false_r in *. destruct (Z.eqb_spec r' 0) as [->|].
  { split_and!; try lia. apply Z.divide_1_l. }
  pose proof (Z.log2_nonneg r'). pose proof (Z.log2_spec r' ltac:(lia)) as [Hlog Hlog2].
  pose proof (Z.log2_le_mono r' (2 ^ 63) ltac:(lia)) as H63. rewrite Z.log2_pow2 in H63 by lia.
  split_and!; [lia|done|by rewrite Z.add_1_r|].
  destruct (Z.eq_dec c 0) as [->|]; [apply Z.divide_0_r|].
  destruct (trailing_zeros_divide c ltac:(lia)) as [Ht Hd]. etrans; [|exact Hd].
  assert (Z.log2 r' < trailing_zeros c) by (apply Z.pow_lt_mono_r_iff with 2; lia).
  exists (2 ^ (trailing_zeros c - (Z.log2 r' + 1))). rewrite <- Z.pow_add_r by lia. f_equal; lia.
Qed.

Lemma read_subtrees (n fuel : nat) ls0 ms : ls = ls0 ++ ms -> (length ms < n)%nat ->
  sib_fuel (num ls0) (num ms) <= Z.of_nat fuel ->
  collect (reader_get r) (iter_collect FrozenSubtreeSiblingIterator.next fuel
                            (sib_state (num ls0) (num ms))) = Ok (sub_hashes n (num ls0) ms).
Proof.
  revert fuel ls0 ms. induction n as [|n IH]; intros fuel ls0 ms Els Hlen Hf; [lia|].
  assert (Hn' := Hn). rewrite Els, num_app in Hn'. pose proof (num_nonneg ls0). pose proof (num_nonneg ms).
  cbn [sub_hashes]. destruct (Z.leb_spec (2 ^ trailing_zeros (num ls0)) (num ms)) as [Hle|Hgt].
  2: { destruct (low_fuel (num ls0) (num ms)) as (k & Hk & Ek & Hr & Hd); [lia..|].
       apply (read_low k); [done|done|lia|done|done]. }
  assert (Hpos : 0 < num ls0).
  { destruct (Z.eq_dec (num ls0) 0) as [E0|]; [|lia]. rewrite E0 in Hle.
    change (2 ^ trailing_zeros 0) with (2 ^ 64) in Hle. lia. }
  set (t := Z.to_nat (trailing_zeros (num ls0))).
  pose proof (trailing_zeros_63 (num ls0) ltac:(lia)) as Htz.
  assert (Et : trailing_zeros (num ls0) = Z.of_nat t) by lia.
  assert (Ep : 2 ^ trailing_zeros (num ls0) = Z.of_nat (2 ^ t)%nat) by (rewrite Et, Nat2Z.inj_pow; done).
  assert (Elev : sib_level (num ls0) (num ms) = trailing_zeros (num ls0)).
  { unfold sib_level. destruct (Z.ltb_spec 0 (num ls0)); [|lia].
    destruct (Z.leb_spec (2 ^ trailing_zeros (num ls0)) (num ms)); [done|lia]. }
  pose proof (pow2_pos (trailing_zeros (num ls0)) ltac:(lia)).
  pose proof (sib_fuel_decreases (num ls0) (num ms) ltac:(lia) ltac:(lia) Hn') as Hdec.
  rewrite Elev in Hdec.
  assert (Hts : num (take (2 ^ t) ms) = 2 ^ trailing_zeros (num ls0)).
  { rewrite Ep. unfold num in *. rewrite length_take. lia. }
  assert (Hdr : num (drop (2 ^ t) ms) = num ms - 2 ^ trailing_zeros (num ls0)).
  { rewrite Ep. unfold num in *. rewrite length_drop. lia. }
  destruct (levels_single t (take (2 ^ t) ms)) as [h Hh]; [by rewrite Hts, Et|].
  pose proof (sib_fuel_range (num ls0 + 2 ^ trailing_zeros (num ls0))
    (num ms - 2 ^ trailing_zeros (num ls0)) ltac:(lia) ltac:(lia) ltac:(lia)).
  destruct fuel as [|fuel]; [lia|].
  rewrite Hh. cbn [app iter_collect]. rewrite sib_next, Elev by lia. cbn [collect].
  assert (Hdiv : (2 ^ trailing_zeros (num ls0) | num ls0)) by (apply trailing_zeros_divide; lia).
  pose proof (Z.div_pos (num ls0) (2 ^ trailing_zeros (num ls0)) ltac:(lia) ltac:(lia)).
  rewrite read_full; [|lia|lia|].
  2: { red. rewrite Els, num_app. destruct Hdiv as [q Hq].
       rewrite Hq at 1. rewrite Z.div_mul by lia. lia. }
  assert (node_hash ls (trailing_zeros (num ls0)) (num ls0 / 2 ^ trailing_zeros (num ls0)) = h) as ->.
  { rewrite Els, <- (Z.add_0_r (num ls0 / _)), node_hash_app by (done || lia).
    rewrite <- (take_drop (2 ^ t) ms). unfold node_hash. fold t.
    rewrite plevel_app, Hh by (rewrite Hts, Et; reflexivity). done. }
  cbn [mbind outcome_bind]. rewrite <- Hdr, <- Hts, <- num_app.
  rewrite IH; [done|by rewrite <- app_assoc, take_drop| |].
  - rewrite length_drop. unfold num in *. lia.
  - rewrite num_app, Hts, Hdr. lia.
Qed.

Lemma get_consistency_proof_spec (k : nat) : (k <= length ls)%nat ->
  get_consistency_proof (new r (num ls)) (Z.of_nat k)
  = Ok (new_subtrees (Z.of_nat k) (drop k ls)).
Proof.
  intros Hk. unfold get_consistency_proof. cbn [num_leaves reader].
  destruct (Z.leb_spec (Z.of_nat k) (num ls)); [|unfold num in *; lia].
  cbn [ensure mbind outcome_bind]. unfold FrozenSubtreeSiblingIterator.new.
  change MAX_ACCUMULATOR_LEAVES with (2 ^ 63).
  destruct (Z.leb_spec (num ls) (2 ^ 63)); [|lia].
  destruct (Z.leb_spec (Z.of_nat k) (num ls)); [|lia]. cbn [assert_ mbind outcome_bind].
  assert (E1 : Z.of_nat k = num (take k ls)) by (unfold num; rewrite length_take; lia).
  assert (E2 : num ls - Z.of_nat k = num (drop k ls)) by (unfold num; rewrite length_drop; lia).
  rewrite u64_sub_small, E2, E1 by lia.
  apply read_subtrees; [by rewrite take_drop|lia|].
  pose proof (sib_fuel_range (num (take k ls)) (num (drop k ls))). lia.
Qed.
End subtrees.

(** ** Appending leaves *)

(** The frozen subtree roots over the nodes [L] of level [l], with their
    positions: what is on the stack or in storage to the left of the next node. *)
Fixpoint fnodes (k : nat) (l : Z) (L : list HashValue) : list (Node HashValue) :=
  match k with
  | O => []
  | S k =>
      fnodes k (l + 1) (full_parents L)
      ++ (if Nat.odd (length L) then (fun y => (Position.mk (node l (num L - 1)), y)) <$> option_list (last L)
          else [])
  end.

Lemma fnodes_split (k : nat) l es o : Nat.even (length es) = true ->
  fnodes (S k) l (es ++ option_list o)
  = fnodes k (l + 1) (full_parents es) ++ ((fun y => (Position.mk (node l (num es)), y)) <$> option_list o).
Proof.
  intros He. cbn [fnodes]. rewrite full_parents_odd, length_app by done. f_equal.
  rewrite Nat.odd_add, <- (Nat.negb_even (length es)), He. cbn [negb].
  destruct o as [y|]; simpl; [|done].
  rewrite last_snoc, num_app. change (num [y]) with 1. simpl. do 3 f_equal. f_equal. lia.
Qed.

(** The nodes that become frozen when the node [x] follows [L] on level [l]:
    [x], and its ancestors as long as [x] completes them. *)
Fixpoint path_nodes (k : nat) (l : Z) (L : list HashValue) (x : HashValue) : list (Node HashValue) :=
  (Position.mk (node l (num L)), x)
  :: match k with
     | O => []
     | S k =>
         if Nat.odd (length L)
         then match last L with
              | Some y => path_nodes k (l + 1) (full_parents L) (hash_internal_node y x)
              | None => []
              end
         else []
     end.

Lemma path_nodes_even (k : nat) l es x : Nat.even (length es) = true ->
  path_nodes (S k) l es x = [(Position.mk (node l (num es)), x)].
Proof. intros He. cbn [path_nodes]. by rewrite <- Nat.negb_even, He. Qed.

Lemma path_nodes_odd (k : nat) l es y x : Nat.even (length es) = true ->
  path_nodes (S k) l (es ++ [y]) x
  = (Position.mk (node l (num (es ++ [y]))), x)
    :: path_nodes k (l + 1) (full_parents es) (hash_internal_node y x).
Proof.
  intros He. cbn [path_nodes]. pose proof (full_parents_odd es (Some y) He) as Ef.
  simpl option_list in Ef. rewrite last_snoc, Ef, length_app, Nat.odd_add.
  by rewrite <- (Nat.negb_even (length es)), He.
Qed.

(** All the nodes frozen by appending [ms] to [ls]. *)
Fixpoint new_nodes ls ms : list (Node HashValue) :=
  match ms with
  | [] => []
  | x :: ms => path_nodes 64 0 ls x ++ new_nodes (ls ++ [x]) ms
  end.

Lemma right_child_num l (L : list HashValue) : valid l (num L) ->
  Position.is_right_child (Position.mk (node l (num L))) = Nat.odd (length L).
Proof.
  intros Hv. destruct (Z.eq_dec l 63) as [->|].
  - destruct Hv as [_ Hp]. assert (L = []) as -> by (apply num_0; simpl in *; lia). done.
  - apply right_child_node; [done|]. destruct Hv; lia.
Qed.

(** The next node of an odd level, [es ++ [y]], is a right child: its sibling
    is the position of [y] and its parent follows [full_parents es]. *)
Lemma right_child_step l (es : list HashValue) (y : HashValue) : Nat.even (length es) = true ->
  valid l (num (es ++ [y])) -> l < 63 /\
  Position.sibling (Position.mk (node l (num (es ++ [y])))) = Position.mk (node l (num es)) /\
  Position.parent (Position.mk (node l (num (es ++ [y]))))
  = Position.mk (node (l + 1) (num (full_parents es))).
Proof.
  intros He Hv. pose proof (num_even es He) as E. pose proof (num_nonneg (full_parents es)).
  rewrite num_app in *. change (num [y]) with 1 in *. rewrite E in *.
  assert (l < 63).
  { destruct Hv as [Hl Hp]. destruct (Z.eq_dec l 63) as [->|]; [simpl in Hp; lia|lia]. }
  split; [done|]. rewrite sibling_node, parent_node, lxor_1_odd by done. split; [done|].
  do 3 f_equal. symmetry. apply Z.div_unique with 1; lia.
Qed.

Lemma left_child_step l (es : list HashValue) : Nat.even (length es) = true -> valid l (num es) -> l < 63 ->
  Position.parent (Position.mk (node l (num es))) = Position.mk (node (l + 1) (num (full_parents es))).
Proof.
  intros He Hv Hl. rewrite parent_node, (num_even es He), Z.mul_comm, Z.div_mul by (done || lia). done.
Qed.

Section append.
Context (r : R) (n0 : Z).

Definition readable (P : list (Node HashValue)) : Prop :=
  Forall (fun '(pos, h) => reader_get r pos = Ok h) P.

Lemma left_sibling_spec P S F x h : readable P -> P ++ S = F ++ [(x, h)] ->
  exists P' S', left_sibling (new r n0) S x = Ok (S', h) /\ P' ++ S' = F /\ readable P'.
Proof.
  intros HP E. unfold left_sibling.
  destruct (decide (S = [])) as [->|HS].
  - rewrite app_nil_r in E. subst P. apply Forall_app in HP as [HF Hx].
    apply Forall_cons in Hx as [Hx _]. exists F, []. simpl. rewrite Hx. simpl.
    by rewrite app_nil_r.
  - destruct (exists_last HS) as (S0 & [x' h'] & ->). rewrite app_assoc in E.
    apply app_inj_2 in E as [E [= -> ->]]; [|done].
    exists P, S0. rewrite vec_pop_snoc, bool_decide_eq_true_2 by done. done.
Qed.

Lemma freeze_loop_spec (k fuel : nat) l L x P S tf :
  0 <= l -> l + Z.of_nat k = 64 -> (k <= fuel)%nat -> num L + 1 <= 2 ^ (63 - l) ->
  readable P -> P ++ S = fnodes k l L ->
  exists pos h P' S',
    freeze_loop fuel (new r n0) (Position.mk (node l (num L))) x S tf
    = Ok (pos, h, S', tf ++ tail (path_nodes k l L x))
    /\ P' ++ S' ++ [(pos, h)] = fnodes k l (L ++ [x]) /\ readable P'.
Proof.
  revert fuel l L x P S tf. induction k as [|k IH];
    intros fuel l L x P S tf Hl Hk Hf Hb HP Hst.
  { assert (2 ^ (63 - l) = 0) by (apply Z.pow_neg_r; lia). pose proof (num_nonneg L). lia. }
  destruct fuel as [|fuel]; [lia|]. cbn [freeze_loop].
  pose proof (num_nonneg L). assert (Hv : valid l (num L)) by (split; lia).
  rewrite right_child_num by done.
  destruct (even_split L) as (es & o & -> & He). rewrite fnodes_split in Hst by done.
  rewrite length_app, Nat.odd_add, <- (Nat.negb_even (length es)), He. cbn [negb].
  destruct o as [y|]; simpl option_list in *.
  - destruct (right_child_step l es y He Hv) as (Hl63 & -> & ->).
    destruct (left_sibling_spec P S _ _ _ HP Hst) as (P1 & S1 & -> & HS1 & HP1).
    simpl Nat.odd. cbn [mbind outcome_bind].
    rewrite path_nodes_odd by done. cbn [tail].
    destruct (IH fuel (l + 1) (full_parents es) (hash_internal_node y x) P1 S1
      (tf ++ [(Position.mk (node (l + 1) (num (full_parents es))), hash_internal_node y x)]))
      as (pos & h & P' & S' & HR & HS & HP'); [lia..| |done|done|].
    { pose proof (num_even es He). rewrite num_app in Hb. change (num [y]) with 1 in Hb.
      replace (63 - l) with (63 - (l + 1) + 1) in Hb by lia. rewrite pow2_S in Hb by lia. lia. }
    exists pos, h, P', S'. rewrite HR. split_and!; [|rewrite HS|done].
    + rewrite <- app_assoc. do 3 f_equal. by destruct k.
    + rewrite <- app_assoc. change ([y] ++ [x]) with [y; x].
      pose proof (fnodes_split k l (es ++ [y; x]) None) as Hs. simpl option_list in Hs.
      rewrite !app_nil_r in Hs. rewrite Hs by (by rewrite length_app, Nat.even_add, He).
      by rewrite full_parents_app.
  - simpl Nat.odd. cbn [xorb]. rewrite !app_nil_r in *. exists (Position.mk (node l (num es))), x, P, S.
    rewrite path_nodes_even by done. cbn [tail]. rewrite app_nil_r. split_and!; [done| |done].
    rewrite app_assoc, Hst. symmetry. apply (fnodes_split k l es (Some x) He).
Qed.

Lemma append_leaves_spec off ms L P S tf :
  0 <= n0 -> 0 <= off -> n0 + off = num L -> num L + num ms <= 2 ^ 63 ->
  readable P -> P ++ S = fnodes 64 0 L ->
  exists P' S', append_leaves (new r n0) off ms S tf = Ok (S', tf ++ new_nodes L ms)
    /\ P' ++ S' = fnodes 64 0 (L ++ ms) /\ readable P' /\ (ms <> [] \/ S <> [] -> S' <> []).
Proof.
  intros Hn0. revert off L P S tf. induction ms as [|x ms IH]; intros off L P S tf Ho Hoff Hmax HP Hst.
  { exists P, S. rewrite !app_nil_r. split_and!; try done. by intros [|]. }
  cbn [append_leaves num_leaves new_nodes].
  assert (num (x :: ms) = 1 + num ms) as Ex by (unfold num; simpl; lia).
  pose proof (num_nonneg ms). pose proof (num_nonneg L).
  rewrite u64_add_small, Hoff, from_leaf_index_node, <- node_0 by lia.
  destruct (freeze_loop_spec 64 65 0 L x P S (tf ++ [(Position.mk (node 0 (num L)), x)]))
    as (pos & h & P1 & S1 & -> & HS1 & HP1); [lia..|done|done|].
  cbn [mbind outcome_bind].
  destruct (IH (off + 1) (L ++ [x]) P1 (S1 ++ [(pos, h)])
    ((tf ++ [(Position.mk (node 0 (num L)), x)]) ++ tail (path_nodes 64 0 L x)))
    as (P' & S' & HR & HS' & HP' & Hne); [lia| | |done|done|].
  { rewrite num_app. change (num [x]) with 1. lia. }
  { rewrite num_app. change (num [x]) with 1. lia. }
  exists P', S'. split_and!; [|by rewrite <- app_assoc in HS'|done|].
  - etrans; [exact HR|]. rewrite <- !app_assoc. reflexivity.
  - intros _. apply Hne. right. by destruct S1.
Qed.

Lemma root_loop_spec (n k : nat) l L c P S :
  0 <= l -> l + Z.of_nat k = 64 -> l + Z.of_nat n <= 63 -> num L + 1 <= 2 ^ Z.of_nat n ->
  readable P -> P ++ S = fnodes k l L ->
  root_loop n (new r n0) (Position.mk (node l (num L))) c S = Ok (root_at n (L ++ [c]), []).
Proof.
  revert k l L c P S. induction n as [|n IH]; intros k l L c P S Hl Hk Hn Hb HP Hst;
    pose proof (num_nonneg L).
  { assert (L = []) as -> by (apply num_0; simpl in *; lia).
    assert (fnodes k l [] = []) as E0 by (clear; revert l; induction k; intros; simpl; [done|]; by rewrite IHk).
    rewrite E0 in Hst. apply app_eq_nil in Hst as [_ ->]. done. }
  destruct k as [|k]; [lia|].
  assert (Hv : valid l (num L)).
  { split; [lia|]. pose proof (Z.pow_le_mono_r 2 (Z.of_nat (Datatypes.S n)) (63 - l)). lia. }
  cbn [root_loop]. pose proof (right_child_num l L Hv) as Hrc.
  unfold Position.is_right_child in Hrc. apply (f_equal negb) in Hrc. rewrite negb_involutive in Hrc.
  rewrite Hrc. destruct (even_split L) as (es & o & -> & He). rewrite fnodes_split in Hst by done.
  rewrite length_app, Nat.odd_add, <- (Nat.negb_even (length es)), He. cbn [negb].
  rewrite Nat2Z.inj_succ, Z.pow_succ_r, num_app in Hb by lia. pose proof (num_even es He).
  destruct o as [y|]; simpl option_list in *.
  - change (negb (xorb false (Nat.odd (length [y])))) with false.
    destruct (right_child_step l es y He Hv) as (Hl63 & -> & ->).
    destruct (left_sibling_spec P S _ _ _ HP Hst) as (P1 & S1 & -> & HS1 & HP1).
    cbn [mbind outcome_bind]. change (num [y]) with 1 in Hb.
    rewrite (IH k (l + 1) (full_parents es) (hash_internal_node y c) P1 S1); [|lia..|done|done].
    rewrite <- app_assoc, root_at_parents, parents_app by done. done.
  - change (negb (xorb false (Nat.odd (@length HashValue [])))) with true.
    rewrite !app_nil_r in *. cbn [mbind outcome_bind]. rewrite left_child_step by (done || lia).
    change (num []) with 0 in Hb.
    rewrite (IH k (l + 1) (full_parents es) _ P S); [|lia..|done|done].
    rewrite root_at_parents, parents_app by done. done.
Qed.
End append.

(** The last frozen root of a non-empty level, and the nodes before it on its
    own level. *)
Lemma fnodes_top (k : nat) l L : L <> [] -> num L < 2 ^ Z.of_nat k ->
  exists (j k' : nat) L' c, k = (j + k')%nat /\ num L = 2 ^ Z.of_nat j * (num L' + 1)
    /\ fnodes k l L = fnodes k' (l + Z.of_nat j) L' ++ [(Position.mk (node (l + Z.of_nat j) (num L')), c)]
    /\ forall n : nat, (j <= n)%nat -> root_at n L = root_at (n - j) (L' ++ [c]).
Proof.
  revert l L. induction k as [|k IH]; intros l L Hne Hk.
  { destruct L; [done|]. unfold num in Hk. simpl in Hk. lia. }
  destruct (even_split L) as (es & o & -> & He). rewrite fnodes_split, num_app in * by done.
  pose proof (num_even es He) as E. rewrite Nat2Z.inj_succ, Z.pow_succ_r in Hk by lia.
  destruct o as [y|]; simpl option_list in *.
  - exists 0%nat, (S k), es, y. change (num [y]) with 1. simpl. rewrite Z.add_0_r.
    split_and!; [done|lia| |].
    + pose proof (fnodes_split k l es None He) as Hs. simpl option_list in Hs.
      rewrite !app_nil_r in Hs. simpl in Hs. by rewrite Hs.
    + intros n _. by rewrite Nat.sub_0_r.
  - rewrite !app_nil_r in *. change (num []) with 0 in *.
    assert (Hfp : full_parents es <> []).
    { intros E0. rewrite E0 in E. change (num []) with 0 in E. apply Hne. apply num_0. lia. }
    destruct (IH (l + 1) (full_parents es) Hfp ltac:(lia)) as (j & k' & L' & c & -> & En & Ef & Er).
    exists (S j), k', L', c. split_and!; [done| | |].
    + rewrite Nat2Z.inj_succ, Z.pow_succ_r; lia.
    + rewrite Ef. by replace (l + Z.of_nat (S j)) with (l + 1 + Z.of_nat j) by lia.
    + intros [|n] Hn; [lia|]. rewrite root_at_parents, parents_even by done. apply Er. lia.
Qed.

(** The frozen roots with their positions are the nodes of [frozen_below]. *)
Lemma fnodes_frozen_below (k : nat) l L :
  fnodes k l L = (fun lp => (Position.mk (node (l + lp.1) lp.2), node_hash L lp.1 lp.2))
                   <$> frozen_below k (num L).
Proof.
  revert l L. induction k as [|k IH]; intros l L; [done|].
  destruct (even_split L) as (es & o & -> & He).
  rewrite fnodes_split, frozen_below_split, fmap_app, IH, <- !list_fmap_compose by done. f_equal.
  - apply list_fmap_ext. intros i lp Hlp%list_elem_of_lookup_2. simpl.
    rewrite <- (node_hash_up k es o lp) by done. simpl.
    by replace (l + 1 + lp.1) with (l + (lp.1 + 1)) by lia.
  - destruct o; simpl; [|done]. by rewrite node_hash_last, Z.add_0_r.
Qed.

Lemma stored_readable r ls : stores r ls -> num ls <= 2 ^ 63 -> readable r (fnodes 64 0 ls).
Proof.
  intros Hs Hn. rewrite fnodes_frozen_below. apply Forall_fmap, Forall_forall. intros [l p] Hin.
  apply frozen_below_full in Hin as (Hl & Hp & Hf); [|apply num_nonneg]. simpl.
  rewrite Z.add_0_l. eapply read_full; [done|done|lia|done|done].
Qed.

#[local] Opaque fnodes path_nodes new_nodes freeze_loop get_hash_rec.

(** The end of [append]: from the last frozen root up to the root. *)
Lemma root_loop_top r n0 L P St : L <> [] -> num L <= 2 ^ 63 -> readable r P ->
  P ++ St = fnodes 64 0 L -> St <> [] -> exists St' pos h,
    vec_pop St = Some (St', (pos, h))
    /\ root_loop (Z.to_nat (depth (num L) - Position.level pos)) (new r n0) pos h St'
       = Ok (merkle_root L, []).
Proof.
  intros HL Hmax HP HSt Hst.
  assert (Hpos : 0 < num L) by (destruct L; [done|unfold num; simpl; lia]).
  destruct (exists_last Hst) as (St' & [pos h] & ->). rewrite vec_pop_snoc.
  exists St', pos, h. split; [done|].
  destruct (fnodes_top 64 0 L) as (j & k' & L' & c & Ek & En & Ef & Er); [done|simpl; lia|].
  rewrite Ef, app_assoc in HSt. apply app_inj_2 in HSt as [HSt [= -> ->]]; [|done].
  pose proof (depth_bound (num L) Hpos) as Hd.
  pose proof (depth_range (num L) ltac:(lia)) as Hdr.
  pose proof (num_nonneg L'). pose proof (pow2_pos (Z.of_nat j)).
  assert (Hj : Z.of_nat j <= depth (num L)) by (apply Z.pow_le_mono_r_iff with 2; nia).
  rewrite Z.add_0_l in *. rewrite level_node.
  2: { apply full_valid; [lia..|]. red. lia. }
  rewrite (root_loop_spec r n0 _ k' (Z.of_nat j) L' c P St'); [|lia|lia|lia| |done|done].
  - unfold merkle_root. rewrite (Er (Z.to_nat (depth (num L)))) by lia.
    replace (Z.to_nat (depth (num L)) - j)%nat with (Z.to_nat (depth (num L) - Z.of_nat j)) by lia.
    done.
  - rewrite Z2Nat.id by lia. apply Z.mul_le_mono_pos_l with (2 ^ Z.of_nat j); [lia|].
    rewrite <- Z.pow_add_r by lia.
    replace (Z.of_nat j + (depth (num L) - Z.of_nat j)) with (depth (num L)) by lia.
    lia.
Qed.

Lemma append_nothing r ls : stores r ls -> num ls <= 2 ^ 63 ->
  append (new r (num ls)) [] = Ok (merkle_root ls, []).
Proof.
  intros Hs Hn. pose proof (num_nonneg ls). unfold append.
  rewrite bool_decide_eq_true_2 by done. cbn [num_leaves].
  destruct (Z.eqb_spec (num ls) 0) as [E|]; [by rewrite (num_0 ls E)|].
  assert (Hb : 0 < num ls <= 2 ^ 63) by lia. rewrite root_position by done.
  by rewrite bind_Ok, root_hash_read, bind_Ok by done.
Qed.

(** What [append] returns. *)
Lemma append_view_spec r ls ms : stores r ls -> num ls + num ms <= 2 ^ 63 ->
  append (new r (num ls)) ms = Ok (merkle_root (ls ++ ms), new_nodes ls ms).
Proof.
  intros Hs Hn. pose proof (num_nonneg ls). pose proof (num_nonneg ms).
  destruct (decide (ms = [])) as [->|Hne].
  { rewrite app_nil_r. apply append_nothing; [done|lia]. }
  unfold append. rewrite bool_decide_eq_false_2 by done. cbn [num_leaves].
  change (Z.of_nat (length ms)) with (num ms). rewrite u64_add_small, <- num_app by lia.
  assert (HL : ls ++ ms <> []) by (by destruct ls, ms).
  assert (Hmax : num (ls ++ ms) <= 2 ^ 63) by (by rewrite num_app).
  assert (Hpos : 0 < num (ls ++ ms)) by (destruct (ls ++ ms); [done|unfold num; simpl; lia]).
  rewrite root_level_from_leaf_count_depth, bind_Ok by done.
  destruct (append_leaves_spec r (num ls) 0 ms ls (fnodes 64 0 ls) [] [])
    as (P & St & -> & HSt & HP & Hst);
    [lia..|apply stored_readable; [done|lia]|by rewrite app_nil_r|].
  destruct (root_loop_top r (num ls) (ls ++ ms) P St) as (St' & pos & h & Epop & Eroot);
    [done..|by apply Hst; left|].
  rewrite bind_Ok, Epop. cbn [expect]. by rewrite bind_Ok, Eroot, bind_Ok.
Qed.

(** ** The nodes to freeze *)

#[local] Transparent path_nodes new_nodes.

(** A level above a completed node. *)
Lemma node_hash_carry es y x j p : Nat.even (length es) = true -> 0 <= j ->
  node_hash ((es ++ [y]) ++ [x]) (j + 1) p
  = node_hash (full_parents es ++ [hash_internal_node y x]) j p.
Proof.
  intros He Hj. unfold node_hash. rewrite Z2Nat.inj_add, Nat.add_1_r by lia. cbn [plevel].
  by rewrite <- app_assoc, parents_app by done.
Qed.

Lemma path_nodes_complete (k : nat) l L x j p :
  0 <= j <= Z.of_nat k -> 0 <= p -> (p + 1) * 2 ^ j = num L + 1 ->
  (Position.mk (node (l + j) p), node_hash (L ++ [x]) j p) ∈ path_nodes k l L x.
Proof.
  revert l L x j. induction k as [|k IH]; intros l L x j Hj Hp Hn.
  { assert (j = 0) as -> by lia. simpl in Hn. assert (p = num L) as -> by lia.
    rewrite node_hash_last, Z.add_0_r. left. }
  destruct (Z.eq_dec j 0) as [->|].
  { simpl in Hn. assert (p = num L) as -> by lia.
    rewrite node_hash_last, Z.add_0_r. simpl. left. }
  assert (exists i, j = i + 1) as [i ->] by (exists (j - 1); lia).
  rewrite pow2_S in Hn by lia.
  destruct (even_split L) as (es & o & -> & He). pose proof (num_even es He) as E.
  rewrite num_app in Hn. destruct o as [y|]; simpl option_list in *.
  2: { change (num []) with 0 in Hn. lia. }
  change (num [y]) with 1 in Hn. rewrite path_nodes_odd, node_hash_carry by (done || lia).
  right. replace (l + (i + 1)) with (l + 1 + i) by lia. apply IH; lia.
Qed.

Lemma path_nodes_only (k : nat) l L x pos h : (pos, h) ∈ path_nodes k l L x ->
  exists j p, pos = Position.mk (node (l + j) p) /\ 0 <= j /\ 0 <= p /\ (p + 1) * 2 ^ j = num L + 1 /\
    h = node_hash (L ++ [x]) j p.
Proof.
  revert l L x. induction k as [|k IH]; intros l L x Hin; pose proof (num_nonneg L).
  { apply list_elem_of_singleton in Hin as [= -> ->]. exists 0, (num L).
    rewrite Z.add_0_r, node_hash_last. split_and!; done || lia. }
  destruct (even_split L) as (es & o & -> & He). pose proof (num_even es He) as E.
  assert (Hhead : (pos, h) = (Position.mk (node l (num (es ++ option_list o))), x) ->
    exists j p, pos = Position.mk (node (l + j) p) /\ 0 <= j /\ 0 <= p
                /\ (p + 1) * 2 ^ j = num (es ++ option_list o) + 1
                /\ h = node_hash ((es ++ option_list o) ++ [x]) j p).
  { intros [= -> ->]. exists 0, (num (es ++ option_list o)). rewrite Z.add_0_r, node_hash_last. split_and!; done || lia. }
  destruct o as [y|]; simpl option_list in *.
  - rewrite path_nodes_odd in Hin by done. apply elem_of_cons in Hin as [Hin|Hin]; [auto|].
    apply IH in Hin as (j & p & -> & Hj & Hp & Hn & ->). exists (j + 1), p.
    rewrite num_app. change (num [y]) with 1. rewrite pow2_S, node_hash_carry by (done || lia).
    split_and!; [do 2 f_equal; lia|lia..|done].
  - rewrite !app_nil_r in *. rewrite path_nodes_even in Hin by done.
    apply list_elem_of_singleton in Hin. auto.
Qed.

Lemma new_nodes_complete ls ms l p : valid l p ->
  full (num (ls ++ ms)) l p -> ~ full (num ls) l p ->
  (Position.mk (node l p), node_hash (ls ++ ms) l p) ∈ new_nodes ls ms.
Proof.
  intros Hv. revert ls. induction ms as [|x ms IH]; intros ls Hf Hnf.
  { by rewrite app_nil_r in Hf. }
  pose proof Hv as [Hl Hp]. cbn [new_nodes]. apply elem_of_app.
  replace (ls ++ x :: ms) with ((ls ++ [x]) ++ ms) in * by by rewrite <- app_assoc.
  destruct (Z_le_dec ((p + 1) * 2 ^ l) (num (ls ++ [x]))) as [Hx|Hx]; [left|right; by apply IH].
  unfold full in *. rewrite num_app in Hx. change (num [x]) with 1 in Hx.
  rewrite (node_hash_agree _ (ls ++ [x])); [|lia..|].
  - apply (path_nodes_complete 64 0 ls x l p); lia.
  - intros i Hi. apply lookup_app_l. rewrite length_app. unfold num in Hx. simpl. lia.
Qed.

Lemma new_nodes_only ls ms pos h : num ls + num ms <= 2 ^ 63 -> (pos, h) ∈ new_nodes ls ms ->
  exists l p, pos = Position.mk (node l p) /\ valid l p /\ full (num (ls ++ ms)) l p /\ ~ full (num ls) l p /\
    h = node_hash (ls ++ ms) l p.
Proof.
  revert ls. induction ms as [|x ms IH]; intros ls Hn Hin; [by apply not_elem_of_nil in Hin|].
  assert (num (x :: ms) = 1 + num ms) as Ex by (unfold num; simpl; lia).
  pose proof (num_nonneg ms). cbn [new_nodes] in Hin.
  replace (ls ++ x :: ms) with ((ls ++ [x]) ++ ms) by by rewrite <- app_assoc.
  apply elem_of_app in Hin as [Hin|Hin].
  - apply path_nodes_only in Hin as (j & p & -> & Hj & Hp & E & ->). exists j, p.
    rewrite Z.add_0_l. split_and!; [done| |unfold full; rewrite !num_app; change (num [x]) with 1; lia|unfold full; lia|].
    + apply full_valid; [|done|red; lia].
      split; [done|]. pose proof (pow2_pos j Hj). apply Z.pow_le_mono_r_iff with 2; nia.
    + apply node_hash_agree; [done..|]. intros i Hi. symmetry. apply lookup_app_l.
      rewrite length_app. unfold num in E. simpl. lia.
  - apply IH in Hin as (l & p & -> & Hv & Hf & Hnf & ->); [|rewrite num_app; change (num [x]) with 1; lia].
    exists l, p. split_and!; [done..| |done]. unfold full in *. rewrite num_app in Hnf.
    change (num [x]) with 1 in Hnf. lia.
Qed.

(** *** Post-order *)

Lemma seqZ_cons_S a (n : nat) : seqZ a (Z.of_nat (S n)) = a :: seqZ (a + 1) (Z.of_nat n).
Proof. rewrite seqZ_cons by lia. do 2 f_equal; lia. Qed.

Lemma path_nodes_postorder (k : nat) l L x : 0 <= l -> valid l (num L) -> l + Z.of_nat k = 64 ->
  (fun nd => Position.to_postorder_index nd.1) <$> path_nodes k l L x
  = seqZ (postorder l (num L)) (Z.of_nat (length (path_nodes k l L x)))
  /\ postorder l (num L) + Z.of_nat (length (path_nodes k l L x))
     = (num L + 1) * 2 ^ (l + 1) - count_ones (num L + 1).
Proof.
  revert l L x. induction k as [|k IH]; intros l L x Hl Hv Hk; [destruct Hv; lia|].
  pose proof (inorder_to_postorder_node l (num L) Hv) as Epo.
  destruct (even_split L) as (es & o & -> & He). pose proof (num_even es He) as E.
  pose proof (num_nonneg (full_parents es)). destruct o as [y|]; simpl option_list in *.
  - destruct (right_child_step l es y He Hv) as (Hl63 & _ & _).
    rewrite path_nodes_odd by done.
    assert (Hv' : valid (l + 1) (num (full_parents es))).
    { pose proof (valid_parent _ _ Hv Hl63) as Hv'. rewrite num_app, E in Hv'.
      change (num [y]) with 1 in Hv'.
      by assert ((2 * num (full_parents es) + 1) / 2 = num (full_parents es)) as <-
        by (symmetry; apply Z.div_unique with 1; lia). }
    destruct (IH (l + 1) (full_parents es) (hash_internal_node y x)) as [IH1 IH2]; [lia|done|lia|].
    assert (Epost : postorder (l + 1) (num (full_parents es)) = postorder l (num (es ++ [y])) + 1).
    { unfold postorder. rewrite num_app, E. change (num [y]) with 1.
      rewrite count_ones_odd, (pow2_S (l + 1)) by lia. lia. }
    rewrite fmap_cons, IH1. cbn [length fst]. rewrite seqZ_cons_S. split.
    + f_equal; [exact Epo|]. by rewrite Epost.
    + rewrite Nat2Z.inj_succ, num_app, E in *. change (num [y]) with 1 in *.
      replace (2 * num (full_parents es) + 1 + 1) with (2 * (num (full_parents es) + 1)) by lia.
      rewrite count_ones_double. rewrite (pow2_S (l + 1)) in IH2 by lia. lia.
  - rewrite !app_nil_r in *. rewrite path_nodes_even by done. split.
    + simpl. rewrite seqZ_cons by lia. simpl. by f_equal.
    + unfold postorder. rewrite E, count_ones_odd, count_ones_double by lia. simpl. lia.
Qed.

(** The number of frozen nodes over [n] leaves. *)
Definition num_frozen (n : Z) : Z := 2 * n - count_ones n.

Lemma new_nodes_postorder ls ms : num ls + num ms <= 2 ^ 63 ->
  (fun nd => Position.to_postorder_index nd.1) <$> new_nodes ls ms
  = seqZ (num_frozen (num ls)) (Z.of_nat (length (new_nodes ls ms)))
  /\ num_frozen (num ls) + Z.of_nat (length (new_nodes ls ms)) = num_frozen (num (ls ++ ms)).
Proof.
  revert ls. induction ms as [|x ms IH]; intros ls Hn; [rewrite app_nil_r; simpl; split; [done|lia]|].
  assert (num (x :: ms) = 1 + num ms) as Ex by (unfold num; simpl; lia).
  pose proof (num_nonneg ms). pose proof (num_nonneg ls). cbn [new_nodes].
  destruct (IH (ls ++ [x])) as [IH1 IH2]; [rewrite num_app; change (num [x]) with 1; lia|].
  rewrite fmap_app, length_app, Nat2Z.inj_add, IH1.
  destruct (path_nodes_postorder 64 0 ls x) as [-> Hlen]; [lia|split; lia|done|].
  assert (Ep : postorder 0 (num ls) = num_frozen (num ls)) by (unfold postorder, num_frozen; simpl; lia).
  rewrite Ep in *. change (2 ^ (0 + 1)) with 2 in Hlen.
  assert (num_frozen (num (ls ++ [x])) = num_frozen (num ls) + Z.of_nat (length (path_nodes 64 0 ls x))) as Enext
    by (unfold num_frozen at 1; rewrite num_app; change (num [x]) with 1; lia).
  rewrite <- app_assoc in IH2. split; [|simpl in IH2; lia].
  rewrite seqZ_app by lia. by rewrite Enext.
Qed.

#[local] Opaque path_nodes new_nodes.

(** ** Contracts *)

(** [r'] is [r] after the batch [nodes] was written to the store. *)
Definition written (r r' : R) (nodes : list (Node HashValue)) : Prop :=
  (forall pos h, (pos, h) ∈ nodes -> reader_get r' pos = Ok h)
  /\ (forall pos, pos ∉ nodes.*1 -> reader_get r' pos = reader_get r pos).

Lemma stores_written r r' ls ms : stores r ls -> num ls + num ms <= 2 ^ 63 ->
  written r r' (new_nodes ls ms) -> stores r' (ls ++ ms).
Proof.
  intros Hs Hn [Hnew Hold] l p Hv Hf. pose proof Hv as [? ?].
  destruct (Z_le_dec ((p + 1) * 2 ^ l) (num ls)) as [Hfl|Hfl].
  - rewrite Hold, Hs; [|done..|].
    + f_equal. apply node_hash_agree; [lia..|]. intros i Hi. symmetry. apply lookup_app_l.
      unfold num in Hfl. lia.
    + intros ([pos h] & Epos & Hin)%list_elem_of_fmap. simpl in Epos. subst pos.
      apply new_nodes_only in Hin as (l' & p' & [= E] & Hv' & _ & Hnf & _); [|done].
      apply node_inj in E as [-> ->]; destruct Hv'; try lia. done.
  - apply Hnew. by apply new_nodes_complete.
Qed.

(** C25: Appending to the stored accumulator is appending to its leaves.
    If the store has the frozen nodes of [ls] and the new total is at most
    [MAX_ACCUMULATOR_LEAVES], [append] never panics and returns the root hash of
    all the leaves. The nodes it returns to be stored are exactly those that the
    new leaves complete, with their hashes: the positions whose subtree has only
    leaves of [ls ++ ms], and not only leaves of [ls]. They come in post-order,
    numbered consecutively from the number of nodes already stored to the number
    of frozen nodes of the new accumulator, so that storage is append-only; and
    writing them gives a store of all the frozen nodes of [ls ++ ms]. *)
Theorem storage_append_spec r ls ms :
  stores r ls -> num ls + num ms <= MAX_ACCUMULATOR_LEAVES ->
  exists nodes,
    MerkleAccumulator.append r (num ls) ms = Ok (merkle_root (ls ++ ms), nodes)
    /\ (forall pos h, (pos, h) ∈ nodes <-> exists l p, pos = Position.mk (node l p) /\ valid l p /\
          full (num (ls ++ ms)) l p /\ ~ full (num ls) l p /\ h = node_hash (ls ++ ms) l p)
    /\ (fun nd => Position.to_postorder_index nd.1) <$> nodes
       = seqZ (num_frozen (num ls)) (num_frozen (num (ls ++ ms)) - num_frozen (num ls))
    /\ forall r', written r r' nodes -> stores r' (ls ++ ms).
Proof.
  change MAX_ACCUMULATOR_LEAVES with (2 ^ 63). intros Hs Hn. exists (new_nodes ls ms).
  destruct (new_nodes_postorder ls ms Hn) as [Hpost Hlen].
  split_and!; [by apply append_view_spec| |rewrite Hpost; f_equal; lia|].
  - intros pos h. split; [by apply new_nodes_only|]. intros (l & p & -> & Hv & Hf & Hnf & ->).
    by apply new_nodes_complete.
  - intros r'. by apply stores_written.
Qed.


(** The consistency proof produced from storage between any two sizes,
    applied to the accumulator of the first leaves, yields the accumulator of
    all the leaves; a proof for a larger accumulator is refused. *)
Theorem storage_consistency_verifies r ls (k : nat) :
  stores r ls -> num ls <= MAX_ACCUMULATOR_LEAVES ->
  ((k <= length ls)%nat ->
   exists subtrees, MerkleAccumulator.get_consistency_proof r (num ls) (Z.of_nat k) = Ok subtrees
     /\ InMemoryAccumulator.append_subtrees (acc_of (take k ls)) subtrees (num ls - Z.of_nat k)
        = Ok (acc_of ls))
  /\ ((length ls < k)%nat ->
      exists e, MerkleAccumulator.get_consistency_proof r (num ls) (Z.of_nat k) = Err e).
Proof.
  change MAX_ACCUMULATOR_LEAVES with (2 ^ 63). intros Hs Hn. split; intros Hk.
  - exists (new_subtrees (Z.of_nat k) (drop k ls)). split; [by apply get_consistency_proof_spec|].
    assert (E1 : Z.of_nat k = num (take k ls)) by (unfold num; rewrite length_take; lia).
    assert (E2 : num ls - Z.of_nat k = num (drop k ls)) by (unfold num; rewrite length_drop; lia).
    rewrite E2, E1, append_subtrees_frozen; [by rewrite take_drop|]. lia.
  - unfold MerkleAccumulator.get_consistency_proof, get_consistency_proof. cbn [num_leaves].
    destruct (Z.leb_spec (Z.of_nat k) (num ls)); [unfold num in *; lia|]. by eexists.
Qed.

End proofs.

(** ** A store to run the definitions on: the list of the nodes written *)

Fixpoint node_lookup (r : list (Position.t * symbol)) (pos : Position.t) : outcome string symbol :=
  match r with
  | [] => Err "missing"%string
  | (p, h) :: r => if bool_decide (p = pos) then Ok h else node_lookup r pos
  end.

#[global] Instance list_reader : HashReader (list (Position.t * symbol)) symbol := node_lookup.

Lemma empty_stores : stores (R := list (Position.t * symbol)) [] [].
Proof.
  intros l p [Hl Hp] Hf. red in Hf. pose proof (pow2_pos l). change (num []) with 0 in Hf. nia.
Qed.

Definition sample : list symbol := [SymLeaf 1; SymLeaf 2; SymLeaf 3; SymLeaf 4; SymLeaf 5].

Lemma sample_stores : stores (new_nodes [] sample) sample.
Proof.
  apply (stores_written [] (new_nodes [] sample) [] sample); [apply empty_stores|by vm_compute|].
  split.
  - assert (Hall : Forall (fun nd => node_lookup (new_nodes [] sample) nd.1 = Ok nd.2)
                     (new_nodes [] sample)) by (apply (bool_decide_unpack _); by vm_compute).
    rewrite Forall_forall in Hall. intros pos h Hin. exact (Hall _ Hin).
  - intros pos Hnin. induction (new_nodes [] sample) as [|[p h] nds IH]; [done|].
    rewrite fmap_cons, not_elem_of_cons in Hnin. destruct Hnin as [Hne Hnin]. simpl.
    change (reader_get ((p, h) :: nds) pos) with
      (if bool_decide (p = pos) then Ok h else node_lookup nds pos).
    rewrite bool_decide_eq_false_2 by done. by apply IH.
Qed.

Lemma storage_append_spec_witness :
  exists nodes, MerkleAccumulator.append (R := list (Position.t * symbol)) [] 0 sample
                = Ok (merkle_root sample, nodes).
Proof.
  destruct (storage_append_spec (R := list (Position.t * symbol)) [] [] sample) as (nodes & E & _);
    [apply empty_stores|by vm_compute|]. exists nodes. exact E.
Defined.


Lemma storage_consistency_verifies_witness :
  exists subtrees, MerkleAccumulator.get_consistency_proof (new_nodes [] sample) 5 3 = Ok subtrees
    /\ InMemoryAccumulator.append_subtrees (acc_of (take 3 sample)) subtrees (5 - 3)
       = Ok (acc_of sample).
Proof.
  refine (proj1 (storage_consistency_verifies (new_nodes [] sample) sample 3 sample_stores _) _);
    [by vm_compute|simpl; lia].
Defined.
