(* ===== verification/HashValues.v ===== *)
(** * Hash values and hashers (crates/diem-crypto/src/hash.rs)

    A [HashValue] is 32 bytes. Module [HashValue] has its bit-level methods,
    Module [DefaultHasher] the salted hashers. SHA3-256 is code of another
    crate: it is the parameter [sha3_256], a function from byte strings to 32
    bytes. *)
From stdpp Require Import prelude countable strings.
From Stdlib Require Import ZArith Lia.
From S2P Require Import Prelude Bits Hash.

Module HashValue.

Definition LENGTH : nat := 32.
Definition LENGTH_IN_BITS : nat := (LENGTH * 8)%nat.

Record t := mk { hash : list Z }.

#[global] Instance t_eq_dec : EqDecision t.
Proof. solve_decision. Defined.

#[global] Instance t_countable : Countable t.
Proof. apply (inj_countable' hash mk). by intros []. Defined.

(** The bytes of a [[u8; 32]]. *)
Definition wf (h : t) : Prop := length (hash h) = LENGTH /\ Forall (fun b => 0 <= b < 256) (hash h).

Inductive ParseError : Set := HashValueParseError.

Definition from_slice (bytes : list Z) : outcome ParseError t :=
  if bool_decide (length bytes = LENGTH) then Ok (mk bytes) else Err HashValueParseError.

Definition zero : t := mk (replicate LENGTH 0).

(** Bit [index mod 8] of a byte, the most significant first. *)
Definition byte_bit (byte : Z) (index : nat) : bool :=
  let bit := (7 - index mod 8)%nat in
  negb (Z.land (Z.shiftr byte (Z.of_nat bit)) 1 =? 0).

(** [bit]; [None] is the panic of an index out of range. *)
Definition bit (self : t) (index : nat) : option bool :=
  let pos := (index / 8)%nat in
  byte ← hash self !! pos; Some (byte_bit byte index).

Definition nibble (self : t) (index : nat) : option Z :=
  let pos := (index / 2)%nat in
  let shift := if (index mod 2 =? 0)%nat then 4 else 0 in
  byte ← hash self !! pos; Some (Z.land (Z.shiftr byte shift) 15).

(** [HashValueBitIterator::get_bit], the body of [bit]. *)
Definition get_bit : t -> nat -> option bool := bit.

(** The items of [HashValueBitIterator], [get_bit] over [pos], in order. *)
Definition iter_bits (self : t) : list bool := omap (get_bit self) (seq 0 LENGTH_IN_BITS).

(** The loop of [from_bit_iter] over the enumerated bits. *)
Fixpoint set_bits (i : nat) (bits : list bool) (buf : list Z) : list Z :=
  match bits with
  | [] => buf
  | b :: bits =>
      set_bits (S i) bits
        (if b then alter (fun x => Z.lor x (Z.shiftl 1 (Z.of_nat (7 - i mod 8)%nat))) (i / 8)%nat buf
         else buf)
  end.

Definition from_bit_iter (bits : list bool) : outcome ParseError t :=
  if negb (bool_decide (length bits = LENGTH_IN_BITS)) then Err HashValueParseError
  else Ok (mk (set_bits 0 bits (replicate LENGTH 0))).

(** [zip(..).take_while(|(x, y)| x == y).count()] *)
Fixpoint common_prefix (xs ys : list bool) : nat :=
  match xs, ys with
  | x :: xs, y :: ys => if Bool.eqb x y then S (common_prefix xs ys) else O
  | _, _ => O
  end.

Definition common_prefix_bits_len (self other : t) : nat :=
  common_prefix (iter_bits self) (iter_bits other).

(** [fn create_literal_hash]; the word is at most 32 bytes. *)
Definition create_literal_hash (word : list Z) : outcome string t :=
  assert_ (length word <=? LENGTH)%nat ;;
  match from_slice (word ++ replicate (LENGTH - length word) 0) with
  | Ok h => Ok h
  | _ => Panic
  end.

End HashValue.

(** The bytes of an ASCII literal. *)
Definition bytes_of (s : string) : list Z :=
  (fun c => Z.of_N (Ascii.N_of_ascii c)) <$> String.list_ascii_of_string s.

Definition literal (s : string) : HashValue.t :=
  match HashValue.create_literal_hash (bytes_of s) with Ok h => h | _ => HashValue.zero end.

Definition SPARSE_MERKLE_PLACEHOLDER : HashValue.t := literal "SPARSE_MERKLE_PLACEHOLDER_HASH".
Definition ACCUMULATOR_PLACEHOLDER : HashValue.t := literal "ACCUMULATOR_PLACEHOLDER_HASH".

(** The hashers: the state is what has been absorbed so far. *)
Module DefaultHasher.
Section hasher.
Context (sha3_256 : list Z -> HashValue.t).

Definition DIEM_HASH_PREFIX : list Z := bytes_of "DIEM::".

Definition prefixed_hash (buffer : list Z) : list Z :=
  HashValue.hash (sha3_256 (DIEM_HASH_PREFIX ++ buffer)).

Definition new (typename : list Z) : list Z :=
  if bool_decide (typename = []) then [] else prefixed_hash typename.

Definition update (state bytes : list Z) : list Z := state ++ bytes.

Definition finish (state : list Z) : HashValue.t := sha3_256 state.

End hasher.
End DefaultHasher.

(** [MerkleTreeInternalNode::<H>::hash] for a hasher [H] with the given salt. *)
Definition internal_node_hash (sha3_256 : list Z -> HashValue.t) (salt : string)
    (left_child right_child : HashValue.t) : HashValue.t :=
  let state := DefaultHasher.new sha3_256 (bytes_of salt) in
  let state := DefaultHasher.update state (HashValue.hash left_child) in
  let state := DefaultHasher.update state (HashValue.hash right_child) in
  DefaultHasher.finish sha3_256 state.

(** [TransactionAccumulatorHasher] and [EventAccumulatorHasher] as instances of
    the interface of the accumulators. *)
Definition transaction_accumulator_hasher (sha3_256 : list Z -> HashValue.t) : MerkleHasher HashValue.t :=
  Build_MerkleHasher HashValue.t _ (internal_node_hash sha3_256 "TransactionAccumulator")
    ACCUMULATOR_PLACEHOLDER SPARSE_MERKLE_PLACEHOLDER.

Definition event_accumulator_hasher (sha3_256 : list Z -> HashValue.t) : MerkleHasher HashValue.t :=
  Build_MerkleHasher HashValue.t _ (internal_node_hash sha3_256 "EventAccumulator")
    ACCUMULATOR_PLACEHOLDER SPARSE_MERKLE_PLACEHOLDER.

(** ** Bits *)

Import HashValue.

Definition byte_ok (b : Z) : Prop := 0 <= b < 256.

Definition byte_bits (b : Z) : list bool := byte_bit b <$> seq 0 8.

Definition byte_of (b7 b6 b5 b4 b3 b2 b1 b0 : bool) : Z :=
  Z.b2z b7 * 128 + Z.b2z b6 * 64 + Z.b2z b5 * 32 + Z.b2z b4 * 16 +
  Z.b2z b3 * 8 + Z.b2z b2 * 4 + Z.b2z b1 * 2 + Z.b2z b0.

Lemma byte_bits_of b7 b6 b5 b4 b3 b2 b1 b0 :
  byte_bits (byte_of b7 b6 b5 b4 b3 b2 b1 b0) = [b7; b6; b5; b4; b3; b2; b1; b0].
Proof. by destruct b7, b6, b5, b4, b3, b2, b1, b0. Qed.

Lemma byte_of_ok b7 b6 b5 b4 b3 b2 b1 b0 : byte_ok (byte_of b7 b6 b5 b4 b3 b2 b1 b0).
Proof. unfold byte_ok, byte_of. destruct b7, b6, b5, b4, b3, b2, b1, b0; simpl; lia. Qed.

(** A byte is the number its eight bits spell. *)
Lemma byte_of_bits b : byte_ok b -> exists b7 b6 b5 b4 b3 b2 b1 b0,
  b = byte_of b7 b6 b5 b4 b3 b2 b1 b0.
Proof.
  intros Hb.
  assert (forallb (fun n => let b := Z.of_nat n in
     b =? byte_of (byte_bit b 0) (byte_bit b 1) (byte_bit b 2) (byte_bit b 3)
                  (byte_bit b 4) (byte_bit b 5) (byte_bit b 6) (byte_bit b 7)) (seq 0 256) = true)
    as H by by vm_compute.
  rewrite forallb_forall in H. specialize (H (Z.to_nat b)).
  rewrite in_seq in H. unfold byte_ok in Hb. specialize (H ltac:(lia)).
  rewrite Z2Nat.id in H by lia. apply Z.eqb_eq in H. do 8 eexists. exact H.
Qed.

Lemma div8 k j : (j < 8)%nat -> ((8 * k + j) / 8 = k)%nat.
Proof. intros. rewrite Nat.mul_comm, Nat.div_add_l, (Nat.div_small j) by lia. lia. Qed.

Lemma mod8 k j : (j < 8)%nat -> ((8 * k + j) mod 8 = j)%nat.
Proof. intros. rewrite Nat.mul_comm, Nat.add_comm, Nat.Div0.mod_add, Nat.mod_small by lia. lia. Qed.

Lemma bit_split bs k j b :
  (j < 8)%nat -> bs !! k = Some b -> bit (mk bs) (8 * k + j) = Some (byte_bit b j).
Proof.
  intros Hj Hb. unfold bit, byte_bit. cbv zeta. rewrite div8 by done. cbn [hash].
  rewrite Hb. cbn [mbind option_bind]. by rewrite mod8, Nat.mod_small by lia.
Qed.

Lemma omap_fmap_Some {A B C} (f : B -> option C) (h : A -> B) (g : A -> C) (l : list A) :
  (forall x, x ∈ l -> f (h x) = Some (g x)) -> omap f (h <$> l) = g <$> l.
Proof.
  induction l as [|x l IH]; intros H; [done|]. cbn.
  rewrite H by left. f_equal. apply IH. intros y Hy. apply H. by right.
Qed.

Lemma omap_bits pre bs :
  omap (bit (mk (pre ++ bs))) (seq (8 * length pre) (8 * length bs)) = bs ≫= byte_bits.
Proof.
  revert pre; induction bs as [|b bs IH]; intros pre; [done|].
  replace (8 * length (b :: bs))%nat with (8 + 8 * length bs)%nat by (simpl length; lia).
  rewrite seq_app, omap_app. cbn [mbind list_bind]. f_equal.
  - assert (forall j, (j < 8)%nat ->
      bit (mk (pre ++ b :: bs)) (8 * length pre + j) = Some (byte_bit b j)) as Hj.
    { intros j Hj. apply bit_split; [done|]. by apply list_lookup_middle. }
    rewrite <- (Nat.add_0_r (8 * length pre)) at 1. rewrite <- fmap_add_seq.
    apply omap_fmap_Some. intros j Hj'%elem_of_seq. apply Hj. lia.
  - replace (8 * length pre + 8)%nat with (8 * length (pre ++ [b]))%nat by (rewrite length_app; simpl; lia).
    replace (pre ++ b :: bs) with ((pre ++ [b]) ++ bs) by by rewrite <- app_assoc.
    apply IH.
Qed.

Lemma iter_bits_bytes h : length (hash h) = LENGTH -> iter_bits h = hash h ≫= byte_bits.
Proof.
  intros Hl. pose proof (omap_bits [] (hash h)) as H. rewrite Hl in H.
  destruct h. exact H.
Qed.

(** One step of [from_bit_iter] inside byte number [length pre]. *)
Lemma set_bits_step pre x rest (j : nat) b bits : (j < 8)%nat ->
  set_bits (8 * length pre + j) (b :: bits) (pre ++ x :: rest) =
  set_bits (8 * length pre + S j) bits
    (pre ++ (if b then Z.lor x (Z.shiftl 1 (Z.of_nat (7 - j))) else x) :: rest).
Proof.
  intros Hj. cbn [set_bits]. rewrite mod8, div8, Nat.add_succ_r by done. f_equal.
  destruct b; [|done]. rewrite <- (Nat.add_0_r (length pre)).
  rewrite alter_app_r. done.
Qed.

(** Writing the bits of the bytes [bs] behind [pre] fills in [bs]. *)
Lemma set_bits_bytes pre bs : Forall byte_ok bs ->
  set_bits (8 * length pre) (bs ≫= byte_bits) (pre ++ replicate (length bs) 0) = pre ++ bs.
Proof.
  revert pre; induction bs as [|b bs IH]; intros pre; [done|].
  intros [Hb Hbs]%Forall_cons. cbn [mbind list_bind length replicate].
  destruct (byte_of_bits b Hb) as (b7 & b6 & b5 & b4 & b3 & b2 & b1 & b0 & ->).
  rewrite byte_bits_of. cbn [app]. rewrite <- (Nat.add_0_r (8 * length pre)).
  rewrite !set_bits_step by lia.
  specialize (IH (pre ++ [byte_of b7 b6 b5 b4 b3 b2 b1 b0]) Hbs).
  rewrite <- !app_assoc in IH. cbn [app] in IH. rewrite <- IH.
  rewrite length_app. cbn [length]. rewrite Nat.mul_add_distr_l.
  f_equal. f_equal. f_equal. by destruct b7, b6, b5, b4, b3, b2, b1, b0.
Qed.

Lemma length_bind_8 bs : length (bs ≫= byte_bits) = (8 * length bs)%nat.
Proof.
  induction bs as [|b bs IH]; [done|]. cbn [mbind list_bind]. rewrite length_app, IH.
  change (length (byte_bits b)) with 8%nat. simpl length. lia.
Qed.

(** Any list of bits of length [8 n] is that of [n] bytes. *)
Lemma bits_bytes n : forall bits, length bits = (8 * n)%nat ->
  exists bs, bits = bs ≫= byte_bits /\ length bs = n /\ Forall byte_ok bs.
Proof.
  induction n as [|n IH]; intros bits Hl.
  - exists []. destruct bits; [done | discriminate].
  - do 8 (destruct bits as [|? bits]; [simpl in Hl; lia|]).
    destruct (IH bits) as (bs & -> & Hbs & Hok); [cbn [length] in Hl; lia|].
    eexists (byte_of _ _ _ _ _ _ _ _ :: bs). cbn [mbind list_bind].
    rewrite byte_bits_of. split_and!; [done | by simpl; f_equal |].
    constructor; [apply byte_of_ok | done].
Qed.

Lemma from_bit_iter_bytes bs : length bs = LENGTH -> Forall byte_ok bs ->
  from_bit_iter (bs ≫= byte_bits) = Ok (mk bs).
Proof.
  intros Hl Hbs. unfold from_bit_iter.
  assert (length (bs ≫= byte_bits) = LENGTH_IN_BITS) as ->.
  { rewrite length_bind_8. unfold LENGTH_IN_BITS. lia. }
  rewrite bool_decide_true by done. cbn [negb].
  pose proof (set_bits_bytes [] bs Hbs) as H. rewrite Hl in H. cbn [app] in H.
  do 2 f_equal. exact H.
Qed.

Lemma iter_bits_length h : length (hash h) = LENGTH -> length (iter_bits h) = LENGTH_IN_BITS.
Proof. intros Hl. rewrite iter_bits_bytes, length_bind_8 by done. unfold LENGTH_IN_BITS. lia. Qed.

Lemma from_bit_iter_bits h : wf h -> from_bit_iter (iter_bits h) = Ok h.
Proof.
  intros [Hl Hok]. rewrite iter_bits_bytes by done. destruct h. by apply from_bit_iter_bytes.
Qed.

Lemma iter_bits_inj h h' : wf h -> wf h' -> iter_bits h = iter_bits h' -> h = h'.
Proof.
  intros Hh Hh' E. apply from_bit_iter_bits in Hh, Hh'. rewrite E in Hh. congruence.
Qed.

(** The bits of a hash value and the hash value determine each other:
    [from_bit_iter] of [iter_bits h] is [h], any 256 bits are those of the hash
    value [from_bit_iter] returns, and any other number of bits is refused. *)
Theorem bit_iter_round_trip :
  (forall h, wf h -> length (iter_bits h) = LENGTH_IN_BITS /\ from_bit_iter (iter_bits h) = Ok h) /\
  (forall bits, length bits = LENGTH_IN_BITS ->
     exists h, from_bit_iter bits = Ok h /\ wf h /\ iter_bits h = bits) /\
  (forall bits, length bits <> LENGTH_IN_BITS -> from_bit_iter bits = Err HashValueParseError).
Proof.
  split_and!.
  - intros h Hh. split; [apply iter_bits_length, Hh | by apply from_bit_iter_bits].
  - intros bits Hl. destruct (bits_bytes LENGTH bits) as (bs & -> & Hbs & Hok); [done|].
    exists (mk bs). split_and!; [by apply from_bit_iter_bytes | done |].
    by apply (iter_bits_bytes (mk bs)).
  - intros bits Hl. unfold from_bit_iter. by rewrite bool_decide_false.
Qed.

Lemma bit_iter_round_trip_witness :
  from_bit_iter (iter_bits (literal "GENESIS")) = Ok (literal "GENESIS").
Proof. apply bit_iter_round_trip. split; [done|]. by apply (bool_decide_unpack _). Defined.

(** ** Common prefixes *)

Lemma common_prefix_spec xs ys : length xs = length ys ->
  let n := common_prefix xs ys in
  (n <= length xs)%nat /\ take n xs = take n ys /\
  (forall x y, xs !! n = Some x -> ys !! n = Some y -> x <> y).
Proof.
  revert ys; induction xs as [|x xs IH]; intros [|y ys]; simpl; try discriminate; [done|].
  intros [= Hl]. destruct (eqb_spec x y) as [->|Hne]; simpl.
  - destruct (IH ys Hl) as (H1 & H2 & H3). split_and!; [lia | by f_equal | done].
  - split_and!; [lia | done |]. intros ? ? [= <-] [= <-]. done.
Qed.
