(* ===== verification/SparseMerkle.v ===== *)
(** * Sparse Merkle proofs (types/src/proof/definition.rs, types/src/proof/mod.rs)

    [SparseMerkleProof] and [SparseMerkleRangeProof] with their verification
    over salted SHA3 hashes, a specification of the trees they talk about
    ([tree]) and the theorems that relate the two: an accepted proof tells the
    truth about the tree with that root hash, and every key of a tree has a
    proof that is accepted. *)
From stdpp Require Import prelude strings.
From Stdlib Require Import ZArith Lia.
From S2P Require Import Prelude Bits HashValues.

(** ** Nodes *)

Module SparseMerkleLeafNode.
Record t := new { key : HashValue.t; value_hash : HashValue.t }.

#[global] Instance t_eq_dec : EqDecision t.
Proof. solve_decision. Defined.

Section hash.
Context (sha3_256 : list Z -> HashValue.t).

(** [SparseMerkleLeafNodeHasher::default()], derived with the type's name as
    its salt. *)
Definition hasher : list Z := DefaultHasher.new sha3_256 (bytes_of "SparseMerkleLeafNode").

Definition hash (self : t) : HashValue.t :=
  let state := hasher in
  let state := DefaultHasher.update state (HashValue.hash (key self)) in
  let state := DefaultHasher.update state (HashValue.hash (value_hash self)) in
  DefaultHasher.finish sha3_256 state.
End hash.
End SparseMerkleLeafNode.

Module SparseMerkleInternalNode.
Record t := new { left_child : HashValue.t; right_child : HashValue.t }.

Section hash.
Context (sha3_256 : list Z -> HashValue.t).

(** [SparseMerkleInternalHasher::default()] *)
Definition hasher : list Z := DefaultHasher.new sha3_256 (bytes_of "SparseMerkleInternal").

Definition hash (self : t) : HashValue.t :=
  let state := hasher in
  let state := DefaultHasher.update state (HashValue.hash (left_child self)) in
  let state := DefaultHasher.update state (HashValue.hash (right_child self)) in
  DefaultHasher.finish sha3_256 state.
End hash.
End SparseMerkleInternalNode.

(** ** Proofs *)

Module SparseMerkleProof.
Record t := new {
  leaf : option SparseMerkleLeafNode.t;
  siblings : list HashValue.t
}.

Section verify.
Context (sha3_256 : list Z -> HashValue.t) {V : Type} (value_hash : V -> HashValue.t).

(** The closure of the [fold] in [verify]. *)
Definition fold_step (hash : HashValue.t) (x : HashValue.t * bool) : HashValue.t :=
  let '(sibling_hash, bit) := x in
  if bit
  then SparseMerkleInternalNode.hash sha3_256 (SparseMerkleInternalNode.new sibling_hash hash)
  else SparseMerkleInternalNode.hash sha3_256 (SparseMerkleInternalNode.new hash sibling_hash).

(** The [match] of [verify] on the element and the leaf of the proof. *)
Definition check_leaf (self : t) (element_key : HashValue.t) (element_value : option V)
    : outcome string unit :=
  match element_value, leaf self with
  | Some value, Some leaf =>
      ensure (bool_decide (element_key = SparseMerkleLeafNode.key leaf)) "Keys do not match." ;;
      let hash := value_hash value in
      ensure (bool_decide (hash = SparseMerkleLeafNode.value_hash leaf)) "Value hashes do not match."
  | Some _, None => Err "Expected inclusion proof. Found non-inclusion proof."
  | None, Some leaf =>
      ensure (negb (bool_decide (element_key = SparseMerkleLeafNode.key leaf)))
        "Expected non-inclusion proof, but key exists in proof." ;;
      ensure (length (siblings self) <=?
                HashValue.common_prefix_bits_len element_key (SparseMerkleLeafNode.key leaf))%nat
        "Key would not have ended up in the subtree where the provided key in proof is the only existing key, if it existed. So this is not a valid non-inclusion proof."
  | None, None => Ok tt
  end.

Definition verify (self : t) (expected_root_hash element_key : HashValue.t)
    (element_value : option V) : outcome string unit :=
  ensure (length (siblings self) <=? HashValue.LENGTH_IN_BITS)%nat
    "Sparse Merkle Tree proof has too many siblings." ;;
  check_leaf self element_key element_value ;;
  let current_hash :=
    from_option (SparseMerkleLeafNode.hash sha3_256) SPARSE_MERKLE_PLACEHOLDER (leaf self) in
  let actual_root_hash :=
    foldl fold_step current_hash
      (zip (siblings self)
        (drop (HashValue.LENGTH_IN_BITS - length (siblings self))
          (rev (HashValue.iter_bits element_key)))) in
  ensure (bool_decide (actual_root_hash = expected_root_hash)) "Root hashes do not match.".

End verify.
End SparseMerkleProof.

Module SparseMerkleRangeProof.
Record t := new { right_siblings : list HashValue.t }.

Section verify.
Context (sha3_256 : list Z -> HashValue.t).

(** The loop of [verify] over the bits of the leaf's key, from the bottom. *)
Fixpoint verify_loop (bits : list bool) (left_sibling_iter right_sibling_iter : list HashValue.t)
    (current_hash : HashValue.t) : outcome string HashValue.t :=
  match bits with
  | [] => Ok current_hash
  | true :: bits =>
      match left_sibling_iter with
      | [] => Err "Missing left sibling."
      | left_hash :: left_sibling_iter =>
          verify_loop bits left_sibling_iter right_sibling_iter
            (SparseMerkleInternalNode.hash sha3_256
              (SparseMerkleInternalNode.new left_hash current_hash))
      end
  | false :: bits =>
      match right_sibling_iter with
      | [] => Err "Missing right sibling."
      | right_hash :: right_sibling_iter =>
          verify_loop bits left_sibling_iter right_sibling_iter
            (SparseMerkleInternalNode.hash sha3_256
              (SparseMerkleInternalNode.new current_hash right_hash))
      end
  end.

(** [usize] subtraction: with more than 256 siblings it wraps, and [skip] then
    drops every bit. *)
Definition verify (self : t) (expected_root_hash : HashValue.t)
    (rightmost_known_leaf : SparseMerkleLeafNode.t) (left_siblings : list HashValue.t)
    : outcome string unit :=
  let num_siblings := u64_add (Z.of_nat (length left_siblings)) (Z.of_nat (length (right_siblings self))) in
  let skip := u64_sub (Z.of_nat HashValue.LENGTH_IN_BITS) num_siblings in
  current_hash ← verify_loop
    (drop (Z.to_nat skip) (rev (HashValue.iter_bits (SparseMerkleLeafNode.key rightmost_known_leaf))))
    left_siblings (right_siblings self)
    (SparseMerkleLeafNode.hash sha3_256 rightmost_known_leaf);
  ensure (bool_decide (current_hash = expected_root_hash)) "Root hashes do not match.".

End verify.
End SparseMerkleRangeProof.

(** ** The trees

    A sparse Merkle tree: a subtree with no key is [Empty], a subtree with one
    key is a [Leaf] at its top, any other is a [Node]. *)
Inductive tree :=
| Empty
| Leaf (l : SparseMerkleLeafNode.t)
| Node (l r : tree).

Fixpoint leaves (t : tree) : list (HashValue.t * HashValue.t) :=
  match t with
  | Empty => []
  | Leaf l => [(SparseMerkleLeafNode.key l, SparseMerkleLeafNode.value_hash l)]
  | Node l r => leaves l ++ leaves r
  end.

(** Every leaf below the position with path [p] has a key that starts with [p]. *)
Fixpoint placed (p : list bool) (t : tree) : Prop :=
  match t with
  | Empty => True
  | Leaf l => p `prefix_of` HashValue.iter_bits (SparseMerkleLeafNode.key l) /\
      length (HashValue.hash (SparseMerkleLeafNode.key l)) = HashValue.LENGTH /\
      length (HashValue.hash (SparseMerkleLeafNode.value_hash l)) = HashValue.LENGTH
  | Node l r => (length p < HashValue.LENGTH_IN_BITS)%nat /\
      placed (p ++ [false]) l /\ placed (p ++ [true]) r
  end.

(** The subtree at the end of a path. *)
Fixpoint descend (t : tree) (path : list bool) {struct path} : option tree :=
  match path, t with
  | [], _ => Some t
  | b :: path, Node l r => descend (if b then r else l) path
  | _, _ => None
  end.

Definition sized (h : HashValue.t) : Prop := length (HashValue.hash h) = HashValue.LENGTH.

Lemma placed_prefix t : forall p k v, placed p t -> (k, v) ∈ leaves t ->
  p `prefix_of` HashValue.iter_bits k.
Proof.
  induction t as [|l|l IHl r IHr]; simpl; intros p k v Hp Hin.
  - by apply elem_of_nil in Hin.
  - apply list_elem_of_singleton in Hin. injection Hin as -> ->. apply Hp.
  - destruct Hp as (_ & Hl & Hr). apply elem_of_app in Hin as [Hin|Hin].
    + etrans; [|by eapply IHl]. by apply prefix_app_r.
    + etrans; [|by eapply IHr]. by apply prefix_app_r.
Qed.

Lemma descend_placed t : forall p path t', placed p t -> descend t path = Some t' ->
  exists q, placed q t'.
Proof.
  induction t as [|l|l IHl r IHr]; intros p [|b path] t'; simpl; try congruence;
    try (intros H [= <-]; exists p; exact H).
  intros (_ & Hl & Hr) Hd. destruct b; eauto.
Qed.

(** The leaf of a key of a placed tree is on the path of the key. *)
Lemma leaves_descend t : forall p path t' k v, placed p t -> descend t path = Some t' ->
  p ++ path `prefix_of` HashValue.iter_bits k -> (k, v) ∈ leaves t <-> (k, v) ∈ leaves t'.
Proof.
  induction t as [|l|l IHl r IHr]; intros p [|b path] t' k v; simpl; try congruence;
    try (intros _ [= <-] _; done).
  intros (_ & Hl & Hr) Hd Hk. rewrite elem_of_app.
  assert (forall q b', (k, v) ∈ leaves q -> placed (p ++ [b']) q -> b' = b) as Hother.
  { intros q b' Hin Hq. pose proof (placed_prefix q _ _ _ Hq Hin) as Hpre.
    replace (p ++ b :: path) with ((p ++ [b]) ++ path) in Hk by by rewrite <- app_assoc.
    apply prefix_app_l in Hk. destruct Hpre as [x Hx], Hk as [y Hy]. rewrite Hx in Hy.
    rewrite <- !app_assoc in Hy. apply app_inv_head in Hy. by injection Hy. }
  replace (p ++ b :: path) with ((p ++ [b]) ++ path) in Hk by by rewrite <- app_assoc.
  destruct b.
  - rewrite <- (IHr _ _ _ _ _ Hr Hd Hk). split; [|auto]. intros [H|H]; [|done].
    by specialize (Hother _ _ H Hl).
  - rewrite <- (IHl _ _ _ _ _ Hl Hd Hk). split; [|auto]. intros [H|H]; [done|].
    by specialize (Hother _ _ H Hr).
Qed.

(** ** Hashing a tree *)

Section spec.
Context (sha3_256 : list Z -> HashValue.t).

Definition leaf_preimage (l : SparseMerkleLeafNode.t) : list Z :=
  (SparseMerkleLeafNode.hasher sha3_256 ++ HashValue.hash (SparseMerkleLeafNode.key l)) ++
  HashValue.hash (SparseMerkleLeafNode.value_hash l).

Definition node_preimage (l r : HashValue.t) : list Z :=
  (SparseMerkleInternalNode.hasher sha3_256 ++ HashValue.hash l) ++ HashValue.hash r.

Fixpoint root_hash (t : tree) : HashValue.t :=
  match t with
  | Empty => SPARSE_MERKLE_PLACEHOLDER
  | Leaf l => SparseMerkleLeafNode.hash sha3_256 l
  | Node l r => SparseMerkleInternalNode.hash sha3_256
      (SparseMerkleInternalNode.new (root_hash l) (root_hash r))
  end.

(** The byte strings hashed to compute the root of a tree, ... *)
Fixpoint preimages (t : tree) : list (list Z) :=
  match t with
  | Empty => []
  | Leaf l => [leaf_preimage l]
  | Node l r => node_preimage (root_hash l) (root_hash r) :: preimages l ++ preimages r
  end.

(** ... along a path, ... *)
Fixpoint path_preimages (h : HashValue.t) (ps : list (HashValue.t * bool)) : list (list Z) :=
  match ps with
  | [] => []
  | (s, b) :: ps =>
      (if b then node_preimage s h else node_preimage h s) ::
      path_preimages (SparseMerkleProof.fold_step sha3_256 h (s, b)) ps
  end.

(** ... and to get the seeds of the two hashers. *)
Definition salts : list (list Z) :=
  [DefaultHasher.DIEM_HASH_PREFIX ++ bytes_of "SparseMerkleInternal";
   DefaultHasher.DIEM_HASH_PREFIX ++ bytes_of "SparseMerkleLeafNode"].

(** No two of the byte strings have the same hash and none has the
    placeholder as its hash. *)
Definition no_collision (xs : list (list Z)) : Prop :=
  (forall x y, x ∈ xs -> y ∈ xs -> sha3_256 x = sha3_256 y -> x = y) /\
  (forall x, x ∈ xs -> sha3_256 x <> SPARSE_MERKLE_PLACEHOLDER).

(** A check by evaluation: each of the strings is hashed once. *)
Lemma no_collision_check xs :
  let hs := sha3_256 <$> remove_dups xs in
  NoDup (SPARSE_MERKLE_PLACEHOLDER :: hs) -> no_collision xs.
Proof.
  cbv zeta. rewrite NoDup_cons. intros [Hp Hn]. split.
  - intros x y Hx Hy Heq. rewrite <- elem_of_remove_dups in Hx, Hy.
    apply list_elem_of_lookup in Hx as [i Hi], Hy as [j Hj].
    assert (i = j) as ->; [|congruence].
    eapply NoDup_lookup; [exact Hn | by rewrite list_lookup_fmap, Hi |].
    by rewrite list_lookup_fmap, Hj, Heq.
  - intros x Hx Heq. apply Hp. rewrite <- Heq. apply list_elem_of_fmap_2. by apply elem_of_remove_dups.
Qed.

Lemma no_collision_subseteq xs ys : xs ⊆ ys -> no_collision ys -> no_collision xs.
Proof. intros Hs [H1 H2]. split; intros; [apply H1 | apply H2]; auto. Qed.

Context (sha3_sized : forall x, sized (sha3_256 x)).

Lemma root_hash_sized t : sized (root_hash t).
Proof. destruct t; [done | apply sha3_sized..]. Qed.

Lemma hasher_prefixed s : bytes_of s <> [] ->
  DefaultHasher.new sha3_256 (bytes_of s) =
  HashValue.hash (sha3_256 (DefaultHasher.DIEM_HASH_PREFIX ++ bytes_of s)).
Proof. intros H. unfold DefaultHasher.new. by rewrite bool_decide_false. Qed.

Lemma node_seed_length : length (SparseMerkleInternalNode.hasher sha3_256) = HashValue.LENGTH.
Proof. unfold SparseMerkleInternalNode.hasher. rewrite hasher_prefixed by done. apply sha3_sized. Qed.

Lemma leaf_seed_length : length (SparseMerkleLeafNode.hasher sha3_256) = HashValue.LENGTH.
Proof. unfold SparseMerkleLeafNode.hasher. rewrite hasher_prefixed by done. apply sha3_sized. Qed.

Lemma hash_value_inj h h' : HashValue.hash h = HashValue.hash h' -> h = h'.
Proof. destruct h, h'; simpl; congruence. Qed.

Lemma node_preimage_inj l r l' r' : sized l -> sized l' ->
  node_preimage l r = node_preimage l' r' -> l = l' /\ r = r'.
Proof.
  intros Hl Hl' H. unfold node_preimage in H. rewrite <- !app_assoc in H.
  apply app_inv_head in H. apply app_inj_1 in H as [H1 H2]; [|by rewrite Hl, Hl'].
  by split; apply hash_value_inj.
Qed.

Lemma leaf_preimage_inj l l' :
  sized (SparseMerkleLeafNode.key l) -> sized (SparseMerkleLeafNode.key l') ->
  leaf_preimage l = leaf_preimage l' -> l = l'.
Proof.
  intros Hl Hl' H. unfold leaf_preimage in H. rewrite <- !app_assoc in H.
  apply app_inv_head in H. apply app_inj_1 in H as [H1 H2]; [|by rewrite Hl, Hl'].
  destruct l, l'; simpl in *. f_equal; by apply hash_value_inj.
Qed.

(** The seeds separate leaves from internal nodes. *)
Lemma node_leaf_preimage l r lf : no_collision salts ->
  node_preimage l r <> leaf_preimage lf.
Proof.
  intros [Hc _] H. unfold node_preimage, leaf_preimage in H. rewrite <- !app_assoc in H.
  apply app_inj_1 in H as [H _]; [|by rewrite node_seed_length, leaf_seed_length].
  unfold SparseMerkleInternalNode.hasher, SparseMerkleLeafNode.hasher in H.
  rewrite !hasher_prefixed in H by done. apply hash_value_inj in H.
  apply Hc in H; [by vm_compute in H | unfold salts; set_solver..].
Qed.

(** ** Soundness *)

(** What hashes to the root of a tree is what the tree has at its top. *)
Lemma node_hash_inv l r t : sized l ->
  no_collision (salts ++ node_preimage l r :: preimages t) ->
  SparseMerkleInternalNode.hash sha3_256 (SparseMerkleInternalNode.new l r) = root_hash t ->
  exists tl tr, t = Node tl tr /\ l = root_hash tl /\ r = root_hash tr.
Proof.
  intros Hl Hc Heq. change (sha3_256 (node_preimage l r) = root_hash t) in Heq.
  pose proof (no_collision_subseteq salts _ ltac:(by apply list_subseteq_app_l) Hc) as Hs.
  destruct Hc as [Hc Hp]. destruct t as [|lf|tl tr].
  - by apply Hp in Heq; [|set_solver].
  - apply Hc in Heq; [by apply node_leaf_preimage in Heq | simpl; set_solver..].
  - apply Hc in Heq; [|simpl; set_solver..].
    apply node_preimage_inj in Heq as [-> ->]; [eauto | done | apply root_hash_sized].
Qed.

Lemma leaf_hash_inv lf t : sized (SparseMerkleLeafNode.key lf) ->
  no_collision (salts ++ leaf_preimage lf :: preimages t) ->
  SparseMerkleLeafNode.hash sha3_256 lf = root_hash t ->
  exists lf', t = Leaf lf' /\ leaf_preimage lf = leaf_preimage lf'.
Proof.
  intros Hl Hc Heq. change (sha3_256 (leaf_preimage lf) = root_hash t) in Heq.
  pose proof (no_collision_subseteq salts _ ltac:(by apply list_subseteq_app_l) Hc) as Hs.
  destruct Hc as [Hc Hp]. destruct t as [|lf'|tl tr].
  - by apply Hp in Heq; [|set_solver].
  - apply Hc in Heq; [by eauto | simpl; set_solver..].
  - apply Hc in Heq; [|simpl; set_solver..]. by apply eq_sym, node_leaf_preimage in Heq.
Qed.

Lemma placeholder_inv t : no_collision (preimages t) ->
  SPARSE_MERKLE_PLACEHOLDER = root_hash t -> t = Empty.
Proof.
  intros [_ Hp] Heq. destruct t as [|lf|tl tr]; [done|..].
  all: exfalso; eapply Hp; [left | by rewrite Heq].
Qed.

Lemma path_preimages_snoc ps : forall h s b,
  path_preimages h (ps ++ [(s, b)]) = path_preimages h ps ++
    [let h' := foldl (SparseMerkleProof.fold_step sha3_256) h ps in
     if b then node_preimage s h' else node_preimage h' s].
Proof.
  induction ps as [|[s b] ps IH]; intros h s' b'; [done|]. simpl. by rewrite IH.
Qed.

Lemma fold_sized ps h : sized h -> sized (foldl (SparseMerkleProof.fold_step sha3_256) h ps).
Proof.
  revert h; induction ps as [|[s b] ps IH]; intros h Hh; [done|]. simpl. apply IH.
  destruct b; apply sha3_sized.
Qed.

(** A path that hashes to the root of a tree is a path of that tree. *)
Lemma fold_descend ps : forall h t, Forall (fun x => sized x.1) ps -> sized h ->
  no_collision (salts ++ preimages t ++ path_preimages h ps) ->
  foldl (SparseMerkleProof.fold_step sha3_256) h ps = root_hash t ->
  exists t', descend t (rev ps.*2) = Some t' /\ root_hash t' = h /\ preimages t' ⊆ preimages t.
Proof.
  induction ps as [|[s b] ps IH] using rev_ind; intros h t Hps Hh Hc Heq.
  { exists t. cbn in *. eauto. }
  apply Forall_app in Hps as [Hps [Hs _]%Forall_cons]. rewrite foldl_snoc in Heq.
  rewrite fmap_app, rev_app_distr. cbn [fmap list_fmap rev app snd].
  rewrite path_preimages_snoc in Hc. cbv zeta in Hc. unfold SparseMerkleProof.fold_step at 1 in Heq.
  set (h' := foldl _ _ _) in *. assert (sized h') as Hh' by by apply fold_sized.
  assert (exists tl tr, t = Node tl tr /\ h' = root_hash (if b then tr else tl)) as
    (tl & tr & -> & Ht).
  { destruct b; (eapply node_hash_inv in Heq as (tl & tr & -> & ? & ?);
      [by exists tl, tr | done |]);
    eapply no_collision_subseteq, Hc; set_solver. }
  edestruct (IH h) as (t' & Hd & Hr & Hsub); [done | done | | exact Ht |].
  { eapply no_collision_subseteq, Hc. destruct b; simpl; set_solver. }
  exists t'. split_and!; [done | done |]. destruct b; simpl; set_solver.
Qed.

Lemma rev_drop_rev {A} (l : list A) n : (n <= length l)%nat ->
  rev (drop (length l - n) (rev l)) = take n l.
Proof.
  intros Hn. rewrite skipn_rev, rev_involutive. f_equal. lia.
Qed.

(** The bytes hashed to verify a proof: the leaf and its path. *)
Definition proof_preimages (self : SparseMerkleProof.t) (element_key : HashValue.t) : list (list Z) :=
  from_option (fun lf => [leaf_preimage lf]) [] (SparseMerkleProof.leaf self) ++
  path_preimages
    (from_option (SparseMerkleLeafNode.hash sha3_256) SPARSE_MERKLE_PLACEHOLDER (SparseMerkleProof.leaf self))
    (zip (SparseMerkleProof.siblings self)
      (drop (HashValue.LENGTH_IN_BITS - length (SparseMerkleProof.siblings self))
        (rev (HashValue.iter_bits element_key)))).

(** The hash values of a proof are 32 bytes long. *)
Definition proof_sized (self : SparseMerkleProof.t) : Prop :=
  Forall sized (SparseMerkleProof.siblings self) /\
  from_option (fun lf => sized (SparseMerkleLeafNode.key lf)) True (SparseMerkleProof.leaf self).

Lemma zip_sized {B} xs (ys : list B) : Forall sized xs -> Forall (fun x => sized x.1) (zip xs ys).
Proof. intros H. revert ys. induction H; intros [|? ?]; simpl; constructor; auto. Qed.

(** The leaf a leaf hash stands for at the end of a path of a placed tree. *)
Lemma descend_leaf t path lf t' key p : placed p t -> descend t path = Some t' ->
  p ++ path `prefix_of` HashValue.iter_bits key -> sized (SparseMerkleLeafNode.key lf) ->
  no_collision (salts ++ leaf_preimage lf :: preimages t') ->
  root_hash t' = SparseMerkleLeafNode.hash sha3_256 lf ->
  forall vh, (key, vh) ∈ leaves t <->
    key = SparseMerkleLeafNode.key lf /\ vh = SparseMerkleLeafNode.value_hash lf.
Proof.
  intros Hp Hd Hk Hs Hc Heq vh. rewrite leaves_descend by done.
  assert (exists q, placed q t') as [q Hq] by by eapply descend_placed.
  eapply leaf_hash_inv in Hc as (lf' & -> & Hlf); [|done..].
  apply leaf_preimage_inj in Hlf as ->; [|done | apply Hq].
  cbn [leaves]. rewrite list_elem_of_singleton. split; [by intros [= -> ->] | by intros [-> ->]].
Qed.

Lemma sparse_verified {V} (value_hash : V -> HashValue.t) t proof key value :
  placed [] t -> sized key -> proof_sized proof ->
  no_collision (salts ++ preimages t ++ proof_preimages proof key) ->
  SparseMerkleProof.verify sha3_256 value_hash proof (root_hash t) key value = Ok tt ->
  match value with
  | Some v => (key, value_hash v) ∈ leaves t
  | None => forall vh, (key, vh) ∉ leaves t
  end.
Proof.
  intros Ht Hkey [Hsib Hleaf] Hc Hv. unfold SparseMerkleProof.verify in Hv. outcome_inv.
  apply Nat.leb_le in Ha. apply bool_decide_eq_true in Hv.
  unfold proof_preimages in Hc. destruct proof as [leaf siblings]; simpl in *.
  apply fold_descend in Hv as (t' & Hd & Hr & Hsub);
    [|by apply zip_sized | by destruct leaf; [apply sha3_sized|]
     |eapply no_collision_subseteq, Hc; set_solver].
  assert (length (HashValue.iter_bits key) = HashValue.LENGTH_IN_BITS) as Hlen
    by by apply iter_bits_length.
  rewrite snd_zip in Hd by (rewrite length_drop, length_rev; lia).
  rewrite <- Hlen in Hd. rewrite rev_drop_rev in Hd by lia.
  assert ([] ++ take (length siblings) (HashValue.iter_bits key) `prefix_of` HashValue.iter_bits key)
    as Hpre by apply prefix_take.
  destruct leaf as [lf|]; simpl in *.
  - pose proof (descend_leaf t _ lf t' key [] Ht Hd Hpre Hleaf) as Hin.
    specialize (Hin ltac:(eapply no_collision_subseteq, Hc; set_solver) Hr).
    unfold SparseMerkleProof.check_leaf in Ha0. destruct value as [v|]; simpl in Ha0; outcome_inv.
    + apply bool_decide_eq_true in Ha1, Ha0. apply Hin. done.
    + apply negb_true_iff, bool_decide_eq_false in Ha1. intros vh [-> _]%Hin. done.
  - apply eq_sym, placeholder_inv in Hr as ->;
      [|eapply no_collision_subseteq, Hc; set_solver].
    destruct value as [v|]; [discriminate Ha0|]. intros vh Hin.
    rewrite leaves_descend in Hin by done. by apply elem_of_nil in Hin.
Qed.

(** C21: Soundness of sparse Merkle proofs. If SHA3-256 has no collision among
    the byte strings hashed for a tree and for a proof (and none of them hashes
    to the placeholder), then a proof that [verify] accepts against the root
    hash of the tree tells the truth: with a value, the tree has the key with
    the hash of that value; without a value, the tree does not have the key. *)
Theorem sparse_proof_sound {V} (value_hash : V -> HashValue.t) t proof key value :
  placed [] t -> sized key -> proof_sized proof ->
  no_collision (salts ++ preimages t ++ proof_preimages proof key) ->
  SparseMerkleProof.verify sha3_256 value_hash proof (root_hash t) key value = Ok tt ->
  match value with
  | Some v => (key, value_hash v) ∈ leaves t
  | None => forall vh, (key, vh) ∉ leaves t
  end.
Proof. apply sparse_verified. Qed.

(** ** Range proofs *)

(** The path [verify] of a range proof walks, bottom first. *)
Fixpoint range_path (bits : list bool) (ls rs : list HashValue.t) : list (HashValue.t * bool) :=
  match bits with
  | [] => []
  | true :: bits => match ls with [] => [] | l :: ls => (l, true) :: range_path bits ls rs end
  | false :: bits => match rs with [] => [] | r :: rs => (r, false) :: range_path bits ls rs end
  end.

Lemma verify_loop_path bits : forall ls rs h h',
  SparseMerkleRangeProof.verify_loop sha3_256 bits ls rs h = Ok h' ->
  foldl (SparseMerkleProof.fold_step sha3_256) h (range_path bits ls rs) = h' /\
  (range_path bits ls rs).*2 = bits.
Proof.
  induction bits as [|[] bits IH]; intros ls rs h h'; simpl; [by intros [= ->] | |].
  - destruct ls as [|l ls]; [done|]. intros [H1 H2]%IH. rewrite fmap_cons, H2. done.
  - destruct rs as [|r rs]; [done|]. intros [H1 H2]%IH. rewrite fmap_cons, H2. done.
Qed.

Lemma range_path_sized bits : forall ls rs, Forall sized ls -> Forall sized rs ->
  Forall (fun x => sized x.1) (range_path bits ls rs).
Proof.
  induction bits as [|[] bits IH]; intros ls rs Hl Hr; simpl; [constructor| |].
  - destruct Hl as [|l ls]; constructor; auto.
  - destruct Hr as [|r rs]; constructor; auto.
Qed.

(** The bits [verify] of a range proof walks over. *)
Definition range_bits (self : SparseMerkleRangeProof.t) (leaf : SparseMerkleLeafNode.t)
    (left_siblings : list HashValue.t) : list bool :=
  drop (Z.to_nat (u64_sub (Z.of_nat HashValue.LENGTH_IN_BITS)
         (u64_add (Z.of_nat (length left_siblings))
           (Z.of_nat (length (SparseMerkleRangeProof.right_siblings self))))))
    (rev (HashValue.iter_bits (SparseMerkleLeafNode.key leaf))).

Definition range_preimages (self : SparseMerkleRangeProof.t) (leaf : SparseMerkleLeafNode.t)
    (left_siblings : list HashValue.t) : list (list Z) :=
  leaf_preimage leaf ::
  path_preimages (SparseMerkleLeafNode.hash sha3_256 leaf)
    (range_path (range_bits self leaf left_siblings) left_siblings
      (SparseMerkleRangeProof.right_siblings self)).

Lemma rev_drop_prefix {A} (l : list A) n : rev (drop n (rev l)) `prefix_of` l.
Proof. rewrite skipn_rev, rev_involutive. apply prefix_take. Qed.

(** C36: Soundness of sparse Merkle range proofs. If the hash has no collision
    among the byte strings involved, a range proof accepted against the root
    hash of a tree shows that the rightmost known leaf is a leaf of the tree. *)
Theorem sparse_range_proof_sound t proof leaf left_siblings :
  placed [] t -> sized (SparseMerkleLeafNode.key leaf) ->
  Forall sized left_siblings -> Forall sized (SparseMerkleRangeProof.right_siblings proof) ->
  no_collision (salts ++ preimages t ++ range_preimages proof leaf left_siblings) ->
  SparseMerkleRangeProof.verify sha3_256 proof (root_hash t) leaf left_siblings = Ok tt ->
  (SparseMerkleLeafNode.key leaf, SparseMerkleLeafNode.value_hash leaf) ∈ leaves t.
Proof.
  intros Ht Hkey Hls Hrs Hc Hv. unfold SparseMerkleRangeProof.verify in Hv. outcome_inv.
  apply bool_decide_eq_true in Hv as ->. apply verify_loop_path in Ha as [Hf Hb].
  unfold range_preimages in Hc. fold (range_bits proof leaf left_siblings) in *.
  apply fold_descend in Hf as (t' & Hd & Hr & Hsub);
    [|by apply range_path_sized | apply sha3_sized
     |eapply no_collision_subseteq, Hc; set_solver].
  rewrite Hb in Hd.
  eapply (descend_leaf t _ leaf t' _ []); [done | exact Hd | apply rev_drop_prefix | done | | done | done].
  eapply no_collision_subseteq, Hc; set_solver.
Qed.

(** ** Completeness *)

(** The proof for the key with bits [bits] of a tree. *)
Fixpoint prove (t : tree) (bits : list bool) : option SparseMerkleLeafNode.t * list HashValue.t :=
  match t, bits with
  | Node l r, b :: bits =>
      let '(leaf, siblings) := prove (if b then r else l) bits in
      (leaf, siblings ++ [root_hash (if b then l else r)])
  | Leaf lf, _ => (Some lf, [])
  | _, _ => (None, [])
  end.

Definition proof_of_key (t : tree) (key : HashValue.t) : SparseMerkleProof.t :=
  let '(leaf, siblings) := prove t (HashValue.iter_bits key) in
  SparseMerkleProof.new leaf siblings.

Lemma prove_spec t : forall p bits lf ss, placed p t ->
  (length p + length bits = HashValue.LENGTH_IN_BITS)%nat -> prove t bits = (lf, ss) ->
  (length ss <= length bits)%nat /\
  descend t (take (length ss) bits) = Some (from_option Leaf Empty lf) /\
  foldl (SparseMerkleProof.fold_step sha3_256)
    (from_option (SparseMerkleLeafNode.hash sha3_256) SPARSE_MERKLE_PLACEHOLDER lf)
    (zip ss (rev (take (length ss) bits))) = root_hash t.
Proof.
  induction t as [|l|l IHl r IHr]; intros p bits lf ss Hp Hlen; simpl.
  1, 2: intros [= <- <-]; simpl; split_and!; [lia | done..].
  destruct Hp as (Hlt & Hl & Hr). destruct bits as [|b bits]; [simpl in Hlen; lia|].
  destruct (prove (if b then r else l) bits) as [lf' ss'] eqn:E. intros [= <- <-].
  assert (placed (p ++ [b]) (if b then r else l)) as Hp' by by destruct b.
  assert ((length (p ++ [b]) + length bits)%nat = HashValue.LENGTH_IN_BITS) as Hlen'
    by (rewrite length_app; simpl in *; lia).
  assert ((length ss' <= length bits)%nat /\
    descend (if b then r else l) (take (length ss') bits) = Some (from_option Leaf Empty lf') /\
    foldl (SparseMerkleProof.fold_step sha3_256)
      (from_option (SparseMerkleLeafNode.hash sha3_256) SPARSE_MERKLE_PLACEHOLDER lf')
      (zip ss' (rev (take (length ss') bits))) = root_hash (if b then r else l)) as (H1 & H2 & H3)
    by (destruct b; eauto).
  rewrite length_app, Nat.add_1_r. cbn [take length rev descend]. split_and!; [lia | done |].
  rewrite zip_with_app by (rewrite length_rev, length_take; lia).
  rewrite foldl_app, H3. by destruct b.
Qed.

Lemma common_prefix_take xs ys n : take n xs = take n ys ->
  (n <= length xs)%nat -> (n <= length ys)%nat -> (n <= HashValue.common_prefix xs ys)%nat.
Proof.
  revert xs ys; induction n as [|n IH]; intros [|x xs] [|y ys]; simpl; try lia.
  intros [= -> Heq] Hx Hy. rewrite Bool.eqb_reflx. apply le_n_S, IH; [done | lia..].
Qed.

(** The leaf of the proof of a key shares its path with the key. *)
Lemma descend_leaf_prefix t : forall p path lf, placed p t -> descend t path = Some (Leaf lf) ->
  p ++ path `prefix_of` HashValue.iter_bits (SparseMerkleLeafNode.key lf) /\
  sized (SparseMerkleLeafNode.key lf).
Proof.
  induction t as [|l|l IHl r IHr]; intros p [|b path] lf; simpl; try congruence.
  - intros (H1 & H2 & _) [= <-]. by rewrite app_nil_r.
  - intros (_ & Hl & Hr) Hd. replace (p ++ b :: path) with ((p ++ [b]) ++ path) by by rewrite <- app_assoc.
    destruct b; eauto.
Qed.

(** The leaf checks pass on the proof of a key and the value the tree has for it. *)
Lemma check_leaf_complete {V} (value_hash : V -> HashValue.t) t key value lf ss :
  placed [] t -> sized key -> prove t (HashValue.iter_bits key) = (lf, ss) ->
  (match value with
   | Some v => (key, value_hash v) ∈ leaves t
   | None => forall vh, (key, vh) ∉ leaves t
   end) ->
  SparseMerkleProof.check_leaf value_hash (SparseMerkleProof.new lf ss) key value = Ok tt.
Proof.
  intros Ht Hkey E Hval. pose proof (iter_bits_length key Hkey) as Hlen.
  destruct (prove_spec t [] _ _ _ Ht Hlen E) as (Hss & Hd & _).
  pose proof (fun vh => leaves_descend t [] _ _ key vh Ht Hd (prefix_take _ _)) as Hin.
  unfold SparseMerkleProof.check_leaf. cbn [SparseMerkleProof.leaf SparseMerkleProof.siblings].
  destruct lf as [lf|]; cbn [from_option leaves] in Hin, Hd; destruct value as [v|].
  - apply Hin, list_elem_of_singleton in Hval. injection Hval as -> ->.
    by rewrite !bool_decide_true.
  - assert (key <> SparseMerkleLeafNode.key lf) as Hne.
    { intros ->. apply (Hval (SparseMerkleLeafNode.value_hash lf)), Hin. by apply list_elem_of_singleton. }
    rewrite bool_decide_false by done. cbn [negb].
    destruct (descend_leaf_prefix t _ _ _ Ht Hd) as [[x Hx] Hsz].
    rewrite (proj2 (Nat.leb_le _ _)); [done|]. apply common_prefix_take; [|lia|].
    + rewrite Hx. cbn [app]. rewrite take_app_le by (rewrite length_take; lia).
      by rewrite take_take, Nat.min_id.
    + rewrite (iter_bits_length _ Hsz). lia.
  - apply Hin in Hval. by apply elem_of_nil in Hval.
  - done.
Qed.

Lemma proof_of_key_verifies {V} (value_hash : V -> HashValue.t) t key value :
  placed [] t -> sized key ->
  (match value with
   | Some v => (key, value_hash v) ∈ leaves t
   | None => forall vh, (key, vh) ∉ leaves t
   end) ->
  SparseMerkleProof.verify sha3_256 value_hash (proof_of_key t key) (root_hash t) key value = Ok tt.
Proof.
  intros Ht Hkey Hval. unfold proof_of_key.
  destruct (prove t (HashValue.iter_bits key)) as [lf ss] eqn:E.
  pose proof (iter_bits_length key Hkey) as Hlen.
  destruct (prove_spec t [] _ _ _ Ht Hlen E) as (Hss & _ & Hf).
  unfold SparseMerkleProof.verify. rewrite (check_leaf_complete _ t) by done.
  cbn [SparseMerkleProof.leaf SparseMerkleProof.siblings].
  rewrite (proj2 (Nat.leb_le _ _)) by lia. cbn [ensure]. rewrite !bind_Ok.
  rewrite skipn_rev, Hlen.
  replace (HashValue.LENGTH_IN_BITS - (HashValue.LENGTH_IN_BITS - length ss))%nat with (length ss) by lia.
  by rewrite Hf, bool_decide_true.
Qed.

(** Completeness of sparse Merkle proofs. For every key, the siblings on its
    path and the leaf (or the empty subtree) the path ends in are a proof that
    [verify] accepts: of the value if the tree has the key, of its absence
    otherwise. *)
Theorem sparse_proof_complete {V} (value_hash : V -> HashValue.t) t key value :
  placed [] t -> sized key ->
  (match value with
   | Some v => (key, value_hash v) ∈ leaves t
   | None => forall vh, (key, vh) ∉ leaves t
   end) ->
  SparseMerkleProof.verify sha3_256 value_hash (proof_of_key t key) (root_hash t) key value = Ok tt.
Proof. apply proof_of_key_verifies. Qed.

End spec.

(** ** A concrete tree

    A stand-in for SHA3-256 on which the definitions run: a polynomial
    fingerprint written out as 32 bytes. *)
Definition fingerprint (bytes : list Z) : Z :=
  foldl (fun acc b => Z.land (acc * 1000003 + b + 1) (Z.ones 61)) 7 bytes.

Definition toy_sha3 (bytes : list Z) : HashValue.t :=
  let n := fingerprint bytes in
  HashValue.mk ((fun i => Z.land (Z.shiftr n (8 * Z.of_nat i)) 255) <$> seq 0 32).

Lemma toy_sha3_sized x : sized (toy_sha3 x).
Proof. unfold sized, toy_sha3. cbn [HashValue.hash]. by rewrite length_fmap, length_seq. Qed.

Definition key_of (b : Z) : HashValue.t := HashValue.mk (b :: replicate 31 0).

(** Keys 0x00.., 0x40.. and 0x80.., with values 1, 2 and 3. *)
Definition sample_tree : tree :=
  let leaf k v := Leaf (SparseMerkleLeafNode.new (key_of k) (toy_sha3 [v])) in
  Node (Node (leaf 0 1) (leaf 64 2)) (leaf 128 3).

Lemma sample_placed : placed [] sample_tree.
Proof.
  simpl. split_and!; try done; try lia; try by apply (bool_decide_unpack _).
Qed.

(** Discharges the side conditions on concrete proofs by evaluation. *)
Ltac concrete :=
  lazymatch goal with
  | |- proof_sized _ => split; vm_compute; repeat constructor
  | |- Forall sized _ => vm_compute; repeat constructor
  | |- no_collision _ _ => apply no_collision_check, (bool_decide_unpack _); vm_compute; exact I
  | |- _ ∈ _ => apply (bool_decide_unpack _); vm_compute; exact I
  | |- _ = _ => vm_compute; reflexivity
  | |- sized _ => vm_compute; reflexivity
  end.

Lemma sparse_proof_sound_witness :
  (key_of 64, toy_sha3 [2]) ∈ leaves sample_tree /\
  (forall vh, (key_of 192, vh) ∉ leaves sample_tree).
Proof.
  split.
  - apply (sparse_proof_sound toy_sha3 toy_sha3_sized (fun v => toy_sha3 [v]) sample_tree
      (proof_of_key toy_sha3 sample_tree (key_of 64)) (key_of 64) (Some 2) sample_placed); concrete.
  - apply (sparse_proof_sound toy_sha3 toy_sha3_sized (fun v => toy_sha3 [v]) sample_tree
      (proof_of_key toy_sha3 sample_tree (key_of 192)) (key_of 192) None sample_placed); concrete.
Defined.

Lemma sparse_range_proof_sound_witness : (key_of 64, toy_sha3 [2]) ∈ leaves sample_tree.
Proof.
  apply (sparse_range_proof_sound toy_sha3 toy_sha3_sized sample_tree
    (SparseMerkleRangeProof.new [SparseMerkleLeafNode.hash toy_sha3 (SparseMerkleLeafNode.new (key_of 128) (toy_sha3 [3]))])
    (SparseMerkleLeafNode.new (key_of 64) (toy_sha3 [2]))
    [SparseMerkleLeafNode.hash toy_sha3 (SparseMerkleLeafNode.new (key_of 0) (toy_sha3 [1]))]
    sample_placed); concrete.
Defined.

Lemma sparse_proof_complete_witness :
  SparseMerkleProof.verify toy_sha3 (fun v => toy_sha3 [v])
    (proof_of_key toy_sha3 sample_tree (key_of 128)) (root_hash toy_sha3 sample_tree)
    (key_of 128) (Some 3) = Ok tt.
Proof.
  apply (sparse_proof_complete toy_sha3 (fun v => toy_sha3 [v]) sample_tree
    (key_of 128) (Some 3) sample_placed); concrete.
Defined.
