(* ===== verification/Nibbles.v ===== *)
(** * Nibble paths (types/src/nibble/mod.rs, types/src/nibble/nibble_path/mod.rs)

    Module [NibblePath] has the path of a node in a 16-ary tree, packed two
    nibbles to a byte, Module [NibbleIterator] the iterator over a range of it
    and [skip_common_prefix]. [of_nibbles] packs a list of nibbles; the lemmas
    show that every operation on paths is the operation on lists it stands for. *)
From stdpp Require Import prelude countable strings.
From Stdlib Require Import ZArith Lia.
From S2P Require Import Prelude Bits HashValues.

Definition ROOT_NIBBLE_HEIGHT : nat := (HashValue.LENGTH * 2)%nat.

(** A [Nibble] is a [Z] in [0, 16); [Nibble::from] panics on a larger [u8]. *)
Definition Nibble_from {E} (nibble : Z) : outcome E Z := assert_ (nibble <? 16) ;; Ok nibble.

Module NibblePath.

Record t := mk { num_nibbles : nat; bytes : list Z }.

#[global] Instance t_eq_dec : EqDecision t.
Proof. solve_decision. Defined.

#[global] Instance t_countable : Countable t.
Proof.
  apply (inj_countable' (fun p => (num_nibbles p, bytes p)) (fun x => mk x.1 x.2)). by intros [].
Defined.

(** [checked_precondition!] is an [assert!]. *)
Definition new {E} (bytes : list Z) : outcome E t :=
  assert_ (length bytes <=? ROOT_NIBBLE_HEIGHT / 2)%nat ;;
  Ok (mk (length bytes * 2) bytes).

Definition new_odd {E} (bytes : list Z) : outcome E t :=
  assert_ (length bytes <=? ROOT_NIBBLE_HEIGHT / 2)%nat ;;
  last_byte ← expect (last bytes);
  assert_ (Z.land last_byte 15 =? 0) ;;
  Ok (mk (length bytes * 2 - 1) bytes).

Definition push {E} (self : t) (nibble : Z) : outcome E t :=
  assert_ (num_nibbles self <? ROOT_NIBBLE_HEIGHT)%nat ;;
  bytes ← (if Nat.even (num_nibbles self) then Ok (bytes self ++ [Z.shiftl nibble 4 mod 256])
           else let i := (num_nibbles self / 2)%nat in
                byte ← expect (bytes self !! i); Ok (<[i := Z.lor byte nibble]> (bytes self)));
  Ok (mk (S (num_nibbles self)) bytes).

(** The path that remains and the nibble. *)
Definition pop {E} (self : t) : outcome E (t * option Z) :=
  match last (bytes self) with
  | Some last_byte =>
      '(bytes, nibble) ← (if Nat.even (num_nibbles self) then
          nibble ← Nibble_from (Z.land last_byte 15);
          Ok (removelast (bytes self) ++ [Z.land last_byte 240], nibble)
        else nibble ← Nibble_from (Z.shiftr last_byte 4); Ok (removelast (bytes self), nibble));
      Ok (mk (num_nibbles self - 1) bytes, Some nibble)
  | None => Ok (self, None)
  end.

Definition get_nibble {E} (self : t) (i : nat) : outcome E Z :=
  assert_ (i <? num_nibbles self)%nat ;;
  byte ← expect (bytes self !! (i / 2)%nat);
  Nibble_from (Z.land (Z.shiftr byte (if (i mod 2 =? 1)%nat then 0 else 4)) 15).

Definition is_empty (self : t) : bool := (num_nibbles self =? 0)%nat.

(** [FromIterator<Nibble>] *)
Definition from_iter {E} (iter : list Z) : outcome E t :=
  foldl (fun nibble_path nibble => nibble_path ← nibble_path; push nibble_path nibble) (new []) iter.

End NibblePath.

Module NibbleIterator.

(** [pos] is the range [pos_start..pos_end]. *)
Record t := mk {
  nibble_path : NibblePath.t;
  pos_start : nat;
  pos_end : nat;
  start : nat
}.

Definition new (nibble_path : NibblePath.t) (start end_ : nat) : t := mk nibble_path start end_ start.

(** [NibblePath::nibbles] *)
Definition nibbles (self : NibblePath.t) : t := new self 0 (NibblePath.num_nibbles self).

Definition next {E} (self : t) : outcome E (t * option Z) :=
  if (pos_start self <? pos_end self)%nat then
    nibble ← NibblePath.get_nibble (nibble_path self) (pos_start self);
    Ok (mk (nibble_path self) (S (pos_start self)) (pos_end self) (start self), Some nibble)
  else Ok (self, None).

Definition peek {E} (self : t) : outcome E (option Z) :=
  if (pos_start self <? pos_end self)%nat then
    nibble ← NibblePath.get_nibble (nibble_path self) (pos_start self); Ok (Some nibble)
  else Ok None.

Definition visited_nibbles (self : t) : t := new (nibble_path self) (start self) (pos_start self).

Definition remaining_nibbles (self : t) : t := new (nibble_path self) (pos_start self) (pos_end self).

(** What [next] returns until it returns [None]. *)
Definition items {E} (self : t) : outcome E (list Z) :=
  collect (NibblePath.get_nibble (nibble_path self)) (seq (pos_start self) (pos_end self - pos_start self)).

Definition get_nibble_path {E} (self : t) : outcome E NibblePath.t :=
  visited ← items (visited_nibbles self);
  remaining ← items (remaining_nibbles self);
  NibblePath.from_iter (visited ++ remaining).

Definition is_finished {E} (self : t) : outcome E bool :=
  nibble ← peek self; Ok (bool_decide (nibble = None)).

(** The loop of [skip_common_prefix]; each round advances [x]. *)
Fixpoint skip_loop {E} (fuel : nat) (count : nat) (x y : t) : outcome E (nat * t * t) :=
  match fuel with
  | O => Panic
  | S fuel =>
      x_peek ← peek x;
      y_peek ← peek y;
      match x_peek, y_peek with
      | Some a, Some b =>
          if negb (a =? b) then Ok (count, x, y)
          else '(x, _) ← next x; '(y, _) ← next y; skip_loop fuel (S count) x y
      | _, _ => Ok (count, x, y)
      end
  end.

Definition skip_common_prefix {E} (x y : t) : outcome E (nat * t * t) :=
  skip_loop (S (pos_end x - pos_start x)) 0 x y.

End NibbleIterator.

(** ** Paths as lists of nibbles *)

Definition nibble_ok (n : Z) : Prop := 0 <= n < 16.

Fixpoint pack (ns : list Z) : list Z :=
  match ns with
  | [] => []
  | [a] => [16 * a]
  | a :: b :: ns => 16 * a + b :: pack ns
  end.

Definition of_nibbles (ns : list Z) : NibblePath.t := NibblePath.mk (length ns) (pack ns).

Definition byte_nibbles (b : Z) : list Z := [Z.shiftr b 4; Z.land b 15].

(** The nibbles of a key of the tree. *)
Definition key_nibbles (key : HashValue.t) : list Z := HashValue.hash key ≫= byte_nibbles.

(** The paths the documentation of the struct describes. *)
Definition path_wf (p : NibblePath.t) : Prop :=
  (NibblePath.num_nibbles p <= ROOT_NIBBLE_HEIGHT)%nat /\
  length (NibblePath.bytes p) = ((NibblePath.num_nibbles p + 1) / 2)%nat /\
  Forall byte_ok (NibblePath.bytes p) /\
  (Nat.Odd (NibblePath.num_nibbles p) ->
   exists b, last (NibblePath.bytes p) = Some b /\ Z.land b 15 = 0).

Lemma pairs_ind {A} (P : list A -> Prop) :
  P [] -> (forall a, P [a]) -> (forall a b l, P l -> P (a :: b :: l)) -> forall l, P l.
Proof.
  intros H0 H1 H2 l. cut (P l /\ forall a, P (a :: l)); [tauto|].
  induction l as [|x l [IH1 IH2]]; split; auto.
Qed.

(** ** Nibbles of a byte *)

Lemma nibble_parts b : byte_ok b ->
  nibble_ok (Z.shiftr b 4) /\ nibble_ok (Z.land b 15) /\ b = 16 * Z.shiftr b 4 + Z.land b 15.
Proof.
  intros Hb. unfold byte_ok, nibble_ok in *.
  rewrite Z.shiftr_div_pow2 by lia. change 15 with (Z.ones 4). rewrite Z.land_ones by lia.
  change (2 ^ 4) with 16. pose proof (Z.mod_pos_bound b 16 ltac:(lia)).
  pose proof (Z.div_mod b 16 ltac:(lia)). lia.
Qed.

Lemma byte_parts a b : nibble_ok a -> nibble_ok b ->
  byte_ok (16 * a + b) /\ Z.shiftr (16 * a + b) 4 = a /\ Z.land (16 * a + b) 15 = b.
Proof.
  unfold nibble_ok. intros Ha Hb. assert (byte_ok (16 * a + b)) as H by (red; lia).
  pose proof (nibble_parts _ H) as (H1 & H2 & H3). unfold nibble_ok in *. split; [done | lia].
Qed.

Lemma lor_nibble a b : nibble_ok a -> nibble_ok b -> Z.lor (16 * a) b = 16 * a + b.
Proof.
  intros Ha Hb. rewrite <- Z.add_lor_land.
  assert (Z.land (16 * a) b = 0) as ->; [|lia].
  apply Z.bits_inj'. intros i Hi. rewrite Z.land_spec, Z.bits_0.
  replace (16 * a) with (Z.shiftl a 4) by (rewrite Z.shiftl_mul_pow2 by lia; lia).
  destruct (Z.ltb_spec i 4).
  - by rewrite Z.shiftl_spec_low.
  - rewrite (testbit_small b 4 i); [apply andb_false_r | red in Hb; lia | lia].
Qed.

Lemma nibble_from_ok {E} n : nibble_ok n -> Nibble_from (E := E) n = Ok n.
Proof. intros Hn. unfold Nibble_from. red in Hn. by rewrite (proj2 (Z.ltb_lt _ _)) by lia. Qed.

Lemma half_SS i : ((S (S i)) / 2 = S (i / 2))%nat.
Proof. replace (S (S i)) with (i + 1 * 2)%nat by lia. rewrite Nat.div_add by lia. lia. Qed.

Lemma mod2_SS i : ((S (S i)) mod 2 = i mod 2)%nat.
Proof. replace (S (S i)) with (i + 1 * 2)%nat by lia. by rewrite Nat.Div0.mod_add. Qed.

(** ** Packing *)

Lemma pack_length ns : length (pack ns) = ((length ns + 1) / 2)%nat.
Proof.
  induction ns as [| |a b ns IH] using pairs_ind; [done..|].
  cbn [pack length]. rewrite IH. change (S (S (length ns)) + 1)%nat with (S (S (length ns + 1))).
  by rewrite half_SS.
Qed.

Lemma pack_ok ns : Forall nibble_ok ns -> Forall byte_ok (pack ns).
Proof.
  induction ns as [|a|a b ns IH] using pairs_ind; rewrite ?Forall_cons; cbn [pack].
  - done.
  - intros [Ha _]. constructor; [|done]. unfold nibble_ok, byte_ok in *. lia.
  - intros (Ha & Hb & H). constructor; [by apply byte_parts | auto].
Qed.

Lemma pack_snoc_even ns n : Nat.even (length ns) = true -> pack (ns ++ [n]) = pack ns ++ [16 * n].
Proof.
  induction ns as [| |a b ns IH] using pairs_ind; [done..|]. cbn [app pack length].
  rewrite Nat.even_succ_succ. intros H. by rewrite IH.
Qed.

Lemma pack_snoc_odd ns n : Nat.even (length ns) = false -> Forall nibble_ok ns ->
  exists bs a, nibble_ok a /\ pack ns = bs ++ [16 * a] /\ length bs = (length ns / 2)%nat /\
    pack (ns ++ [n]) = bs ++ [16 * a + n] /\ last ns = Some a.
Proof.
  induction ns as [|a|a b ns IH] using pairs_ind; rewrite ?Forall_cons; intros He H; [done|..].
  - exists [], a. by destruct H.
  - destruct H as (Ha & Hb & H). cbn [length] in He. rewrite Nat.even_succ_succ in He. destruct IH as (bs & x & Hx & H1 & H2 & H3 & H4); [done..|].
    exists (16 * a + b :: bs), x. cbn [app pack length]. rewrite H1, H3, half_SS, H2.
    split_and!; [done..|]. destruct ns; [done|]. done.
Qed.

Lemma pack_lookup ns i n : Forall nibble_ok ns -> ns !! i = Some n ->
  exists b, pack ns !! (i / 2)%nat = Some b /\ byte_ok b /\
    (if (i mod 2 =? 1)%nat then Z.land b 15 = n else Z.shiftr b 4 = n).
Proof.
  revert i; induction ns as [|a|a b ns IH] using pairs_ind; intros i; rewrite ?Forall_cons; [done|..].
  - intros [Ha _]. destruct i as [|i]; [|done]. intros [= <-]. exists (16 * a). cbn.
    pose proof (byte_parts a 0 Ha ltac:(done)) as (H1 & H2 & _). rewrite Z.add_0_r in *. done.
  - intros (Ha & Hb & H). pose proof (byte_parts a b Ha Hb) as (H1 & H2 & H3).
    destruct i as [|[|i]]; cbn [lookup list_lookup].
    + intros [= <-]. eauto.
    + intros [= <-]. eauto.
    + intros Hi. rewrite half_SS, mod2_SS. by apply IH.
Qed.

Lemma pack_bytes bs : Forall byte_ok bs -> pack (bs ≫= byte_nibbles) = bs.
Proof.
  induction 1 as [|b bs Hb _ IH]; [done|]. cbn [mbind list_bind byte_nibbles app pack].
  f_equal; [|done]. symmetry. by apply nibble_parts.
Qed.

Lemma nibbles_length bs : length (bs ≫= byte_nibbles) = (length bs * 2)%nat.
Proof. induction bs as [|b bs IH]; [done|]. cbn [mbind list_bind byte_nibbles app length]. by rewrite IH. Qed.

Lemma nibbles_ok bs : Forall byte_ok bs -> Forall nibble_ok (bs ≫= byte_nibbles).
Proof.
  induction 1 as [|b bs Hb _ IH]; [done|]. cbn [mbind list_bind byte_nibbles app].
  apply nibble_parts in Hb as (H1 & H2 & _). auto.
Qed.

Lemma new_of_nibbles {E} bs : Forall byte_ok bs -> (length bs <= ROOT_NIBBLE_HEIGHT / 2)%nat ->
  NibblePath.new (E := E) bs = Ok (of_nibbles (bs ≫= byte_nibbles)).
Proof.
  intros H Hl. unfold NibblePath.new, of_nibbles. by rewrite (proj2 (Nat.leb_le _ _) Hl), nibbles_length, pack_bytes.
Qed.

Lemma of_nibbles_inj ns ns' : Forall nibble_ok ns -> Forall nibble_ok ns' ->
  of_nibbles ns = of_nibbles ns' -> ns = ns'.
Proof.
  intros H H' E. injection E as Hl Hp. apply list_eq. intros i.
  destruct (ns !! i) as [n|] eqn:E1, (ns' !! i) as [n'|] eqn:E2; [|exfalso..|done].
  - destruct (pack_lookup _ _ _ H E1) as (b & Hb & _ & Hn).
    destruct (pack_lookup _ _ _ H' E2) as (b' & Hb' & _ & Hn').
    rewrite Hp, Hb' in Hb. injection Hb as <-. f_equal. destruct (_ =? 1)%nat; congruence.
  - apply lookup_lt_Some in E1. apply lookup_ge_None in E2. lia.
  - apply lookup_lt_Some in E2. apply lookup_ge_None in E1. lia.
Qed.

(** ** Operations on paths *)

Lemma push_nibbles {E} ns n : Forall nibble_ok ns -> nibble_ok n -> (length ns < ROOT_NIBBLE_HEIGHT)%nat ->
  NibblePath.push (E := E) (of_nibbles ns) n = Ok (of_nibbles (ns ++ [n])).
Proof.
  intros Hns Hn Hl. unfold NibblePath.push, of_nibbles. cbn [NibblePath.num_nibbles NibblePath.bytes].
  rewrite (proj2 (Nat.ltb_lt _ _) Hl), length_app, Nat.add_1_r. cbn [assert_]. rewrite bind_Ok.
  destruct (Nat.even (length ns)) eqn:He.
  - rewrite pack_snoc_even by done. rewrite bind_Ok. do 5 f_equal.
    rewrite Z.shiftl_mul_pow2 by lia. change (2 ^ 4) with 16. rewrite Z.mul_comm.
    apply Z.mod_small. red in Hn. lia.
  - destruct (pack_snoc_odd ns n He Hns) as (bs & a & Ha & H1 & H2 & H3 & _).
    rewrite H1, H3, <- H2, list_lookup_middle by done. cbn [expect]. rewrite !bind_Ok. do 2 f_equal.
    rewrite <- (Nat.add_0_r (length bs)), insert_app_r. cbn. by rewrite lor_nibble.
Qed.

Lemma pop_nibbles {E} ns n : Forall nibble_ok ns -> nibble_ok n ->
  NibblePath.pop (E := E) (of_nibbles (ns ++ [n])) = Ok (of_nibbles ns, Some n).
Proof.
  intros Hns Hn. unfold NibblePath.pop, of_nibbles. cbn [NibblePath.num_nibbles NibblePath.bytes].
  rewrite length_app, Nat.add_1_r, Nat.sub_succ, Nat.sub_0_r, Nat.even_succ, <- Nat.negb_even.
  destruct (Nat.even (length ns)) eqn:He; cbn [negb].
  - rewrite pack_snoc_even by done. rewrite last_snoc, removelast_last.
    pose proof (byte_parts n 0 Hn ltac:(done)) as (_ & H & _). rewrite Z.add_0_r in H.
    rewrite H, nibble_from_ok by done. done.
  - destruct (pack_snoc_odd ns n He Hns) as (bs & a & Ha & H1 & _ & H3 & _).
    rewrite H1, H3, last_snoc, removelast_last.
    pose proof (byte_parts a n Ha Hn) as (Hb & H & H').
    rewrite H', nibble_from_ok by done. rewrite !bind_Ok. do 5 f_equal.
    change 240 with (Z.lnot 15 mod 256)%Z. pose proof (nibble_parts _ Hb) as (_ & _ & Hs).
    replace (Z.land (16 * a + n) (Z.lnot 15 mod 256)) with (Z.land (Z.land (16 * a + n) (Z.ones 8)) (Z.lnot 15)).
    + rewrite Z.land_ones, Z.mod_small by (red in Hb; lia). rewrite <- Z.ldiff_land.
      change 15 with (Z.ones 4). rewrite Z.ldiff_ones_r, H, Z.shiftl_mul_pow2 by lia. lia.
    + rewrite <- Z.land_assoc. done.
Qed.

Lemma get_nibble_nibbles {E} ns i n : Forall nibble_ok ns -> ns !! i = Some n ->
  NibblePath.get_nibble (E := E) (of_nibbles ns) i = Ok n.
Proof.
  intros Hns Hi. unfold NibblePath.get_nibble, of_nibbles. cbn [NibblePath.num_nibbles NibblePath.bytes].
  rewrite (proj2 (Nat.ltb_lt _ _)) by by eapply lookup_lt_Some. cbn [assert_]. rewrite bind_Ok.
  destruct (pack_lookup _ _ _ Hns Hi) as (b & -> & Hb & Hn). cbn [expect]. rewrite bind_Ok.
  pose proof (nibble_parts b Hb) as (H1 & H2 & _).
  assert (Z.land (Z.shiftr b (if (i mod 2 =? 1)%nat then 0 else 4)) 15 = n) as ->.
  { destruct (_ =? 1)%nat; [done|]. rewrite Hn in *. change 15 with (Z.ones 4).
    rewrite Z.land_ones by lia. apply Z.mod_small. red in H1. lia. }
  apply nibble_from_ok. destruct (_ =? 1)%nat; by subst.
Qed.

Lemma from_iter_nibbles {E} ns : Forall nibble_ok ns -> (length ns <= ROOT_NIBBLE_HEIGHT)%nat ->
  NibblePath.from_iter (E := E) ns = Ok (of_nibbles ns).
Proof.
  intros Hns Hl. unfold NibblePath.from_iter. induction ns as [|n ns IH] using rev_ind; [done|].
  apply Forall_app in Hns as [Hns [Hn _]%Forall_cons]. rewrite length_app in Hl. cbn [length] in Hl.
  rewrite foldl_snoc, IH by (done || lia). rewrite bind_Ok. apply push_nibbles; [done..|lia].
Qed.

(** ** Iterators *)

(** An iterator over the packed path [ns]. *)
Definition iter_at (ns : list Z) (i e s : nat) : NibbleIterator.t :=
  NibbleIterator.mk (of_nibbles ns) i e s.

Local Ltac iter_simpl :=
  cbn [NibbleIterator.nibble_path NibbleIterator.pos_start NibbleIterator.pos_end NibbleIterator.start].

Lemma next_nibbles {E} ns i e s n : Forall nibble_ok ns -> (i < e)%nat -> ns !! i = Some n ->
  NibbleIterator.next (E := E) (iter_at ns i e s) = Ok (iter_at ns (S i) e s, Some n).
Proof.
  intros Hns Hi Hn. unfold NibbleIterator.next, iter_at. iter_simpl.
  by rewrite (proj2 (Nat.ltb_lt _ _) Hi), (get_nibble_nibbles ns i n).
Qed.

Lemma peek_nibbles {E} ns i e s : Forall nibble_ok ns -> (e <= length ns)%nat ->
  NibbleIterator.peek (E := E) (iter_at ns i e s) = Ok (take (e - i) (drop i ns) !! 0%nat).
Proof.
  intros Hns He. unfold NibbleIterator.peek, iter_at. iter_simpl.
  destruct (Nat.ltb_spec i e) as [Hi|Hi].
  - destruct (lookup_lt_is_Some_2 ns i ltac:(lia)) as [n Hn].
    rewrite (get_nibble_nibbles ns i n) by done. rewrite bind_Ok.
    rewrite lookup_take_lt by lia. by rewrite lookup_drop, Nat.add_0_r, Hn.
  - by replace (e - i)%nat with O by lia.
Qed.

Lemma is_finished_nibbles {E} ns i e s : Forall nibble_ok ns -> (e <= length ns)%nat ->
  NibbleIterator.is_finished (E := E) (iter_at ns i e s) = Ok (bool_decide (e <= i)%nat).
Proof.
  intros Hns He. unfold NibbleIterator.is_finished. rewrite peek_nibbles by done. rewrite bind_Ok.
  f_equal. apply bool_decide_ext. rewrite lookup_ge_None, length_take, length_drop. lia.
Qed.

Lemma items_nibbles {E} ns i e s : Forall nibble_ok ns -> (e <= length ns)%nat ->
  NibbleIterator.items (E := E) (iter_at ns i e s) = Ok (take (e - i) (drop i ns)).
Proof.
  intros Hns He. unfold NibbleIterator.items, iter_at. iter_simpl.
  apply collect_Ok_Forall2, Forall2_same_length_lookup. split.
  { rewrite length_seq, length_take, length_drop. lia. }
  intros j x n [-> Hj]%lookup_seq. rewrite lookup_take_lt, lookup_drop by done.
  by apply get_nibble_nibbles.
Qed.

(** The whole path, whatever the position of the iterator. *)
Lemma get_nibble_path_nibbles {E} ns i : Forall nibble_ok ns -> (length ns <= ROOT_NIBBLE_HEIGHT)%nat ->
  (i <= length ns)%nat -> NibbleIterator.get_nibble_path (E := E) (iter_at ns i (length ns) 0) = Ok (of_nibbles ns).
Proof.
  intros Hns Hl Hi. unfold NibbleIterator.get_nibble_path.
  change (NibbleIterator.visited_nibbles _) with (iter_at ns 0 i 0).
  change (NibbleIterator.remaining_nibbles _) with (iter_at ns i (length ns) i).
  rewrite !items_nibbles by (done || lia). rewrite !bind_Ok.
  rewrite drop_0, Nat.sub_0_r, (take_ge (drop i ns)) by (rewrite length_drop; lia).
  rewrite take_drop. by apply from_iter_nibbles.
Qed.

(** The length of the longest common prefix. *)
Fixpoint lcp (xs ys : list Z) : nat :=
  match xs, ys with
  | x :: xs, y :: ys => if x =? y then S (lcp xs ys) else O
  | _, _ => O
  end.

Lemma lcp_app p xs ys : lcp (p ++ xs) (p ++ ys) = (length p + lcp xs ys)%nat.
Proof. induction p as [|x p IH]; [done|]. cbn [app lcp length]. by rewrite Z.eqb_refl, IH. Qed.

Lemma lcp_spec xs ys :
  (lcp xs ys <= length xs)%nat /\ take (lcp xs ys) xs = take (lcp xs ys) ys /\
  forall a b, xs !! lcp xs ys = Some a -> ys !! lcp xs ys = Some b -> a <> b.
Proof.
  revert ys; induction xs as [|x xs IH]; intros [|y ys]; cbn [lcp length]; try (split_and!; [lia | done..]).
  destruct (Z.eqb_spec x y) as [->|Hne].
  - destruct (IH ys) as (H1 & H2 & H3). split_and!; [lia | cbn [take]; by f_equal | done].
  - split_and!; [lia | done |]. by intros ? ? [= <-] [= <-].
Qed.

Lemma slice_cons (l : list Z) i e : (e <= length l)%nat -> take (e - i) (drop i l) =
  match take (e - i) (drop i l) !! 0%nat with
  | Some a => a :: take (e - S i) (drop (S i) l)
  | None => []
  end.
Proof.
  intros Hl. destruct (Nat.ltb_spec i e) as [Hi|Hi]; [|by replace (e - i)%nat with O by lia].
  destruct (lookup_lt_is_Some_2 l i ltac:(lia)) as [a Ha].
  rewrite lookup_take_lt, lookup_drop, Nat.add_0_r, Ha by lia.
  rewrite (drop_S _ _ _ Ha). by replace (e - i)%nat with (S (e - S i)) by lia.
Qed.

Lemma skip_loop_nibbles {E} fuel : forall c xs ys i e s j e' s',
  Forall nibble_ok xs -> Forall nibble_ok ys -> (e <= length xs)%nat -> (e' <= length ys)%nat ->
  (e - i < fuel)%nat ->
  let n := lcp (take (e - i) (drop i xs)) (take (e' - j) (drop j ys)) in
  NibbleIterator.skip_loop (E := E) fuel c (iter_at xs i e s) (iter_at ys j e' s') =
    Ok ((c + n)%nat, iter_at xs (i + n) e s, iter_at ys (j + n) e' s').
Proof.
  induction fuel as [|fuel IH]; intros c xs ys i e s j e' s' Hx Hy He He' Hf; [lia|]. cbv zeta.
  cbn [NibbleIterator.skip_loop]. rewrite !peek_nibbles, !bind_Ok by done.
  rewrite (slice_cons xs i e), (slice_cons ys j e') by done.
  destruct (take (e - i) (drop i xs) !! 0%nat) as [a|] eqn:Ea; [|by cbn [lcp]; rewrite !Nat.add_0_r].
  destruct (take (e' - j) (drop j ys) !! 0%nat) as [b|] eqn:Eb; cbn [lookup list_lookup lcp];
    [|by rewrite !Nat.add_0_r].
  destruct (Z.eqb_spec a b) as [->|]; cbn [negb]; [|by rewrite !Nat.add_0_r].
  apply lookup_take_Some in Ea as [Ea Hi], Eb as [Eb Hj]. rewrite lookup_drop, Nat.add_0_r in Ea, Eb.
  rewrite (next_nibbles xs i e s b), bind_Ok by (done || lia).
  rewrite (next_nibbles ys j e' s' b), bind_Ok by (done || lia).
  rewrite IH by (done || lia). by rewrite !Nat.add_succ_r.
Qed.

Lemma skip_common_prefix_nibbles {E} xs ys i e s j e' s' :
  Forall nibble_ok xs -> Forall nibble_ok ys -> (e <= length xs)%nat -> (e' <= length ys)%nat ->
  let n := lcp (take (e - i) (drop i xs)) (take (e' - j) (drop j ys)) in
  NibbleIterator.skip_common_prefix (E := E) (iter_at xs i e s) (iter_at ys j e' s') =
    Ok (n, iter_at xs (i + n) e s, iter_at ys (j + n) e' s').
Proof. intros Hx Hy He He'. unfold NibbleIterator.skip_common_prefix. by rewrite skip_loop_nibbles by (done || cbn; lia). Qed.
