(* ===== verification/JellyfishNodes.v ===== *)
(** * Nodes of the Jellyfish Merkle tree (storage/jellyfish-merkle/src/node_type/mod.rs)

    Module [NodeKey] has the keys of stored nodes (a version and a nibble path),
    [Child] and [InternalNode] the 16-ary internal nodes with their bitmaps and
    their hash as a four-level binary subtree, [LeafNode] the leaves and [Node]
    the three kinds of nodes, each with its encoding in the storage. [HashMap]s are [gmap]s: where the source iterates
    over one, the model iterates over the list of its entries. *)
From stdpp Require Import prelude gmap strings.
From Stdlib Require Import ZArith Lia.
From S2P Require Import Prelude Bits HashValues SparseMerkle Nibbles.

Inductive NodeDecodeError :=
| EmptyInput
| UnknownTag (unknown_tag : Z)
| NoChildren
| ExtraLeaves (existing leaves : Z).

(** The error of code that returns [anyhow::Result]; callers look for
    [MissingRootError]. *)
Inductive error :=
| MissingRootError (version : Z)
| DecodeError (e : NodeDecodeError)
| Message (s : string).

(** ** Bytes *)

(** What is used of the crate [byteorder]: the bytes of a number and back. *)
Class ByteOrder := {
  u64_to_be : Z -> list Z;
  u64_of_be : list Z -> Z;
  u16_to_le : Z -> list Z;
  u16_of_le : list Z -> Z
}.

(** [Read::read_exact] on a [Cursor]: the bytes read and those that remain. *)
Definition read_exact (n : nat) (reader : list Z) : outcome error (list Z * list Z) :=
  ensure (n <=? length reader)%nat (Message "failed to fill whole buffer") ;;
  Ok (take n reader, drop n reader).

Definition read_u8 (reader : list Z) : outcome error (Z * list Z) :=
  match reader with
  | [] => Err (Message "failed to fill whole buffer")
  | byte :: reader => Ok (byte, reader)
  end.

(** The loop of [serialize_u64_varint], with [n] rounds left. *)
Fixpoint serialize_varint_loop {E} (n : nat) (num : Z) (binary : list Z) : outcome E (list Z) :=
  match n with
  | O =>
      assert_ (negb (num =? 0)) ;;
      assert_ (num <=? 255) ;;
      Ok (binary ++ [num mod 256])
  | S n =>
      let low_bits := Z.land (num mod 256) 127 in
      let num := Z.shiftr num 7 in
      let more := if num =? 0 then 0 else 128 in
      let binary := binary ++ [Z.lor low_bits more] in
      if more =? 0 then Ok binary else serialize_varint_loop n num binary
  end.

Definition serialize_u64_varint {E} (num : Z) (binary : list Z) : outcome E (list Z) :=
  serialize_varint_loop 8 num binary.

(** The loop of [deserialize_u64_varint] at round [i], with [n] rounds left. *)
Fixpoint deserialize_varint_loop (n : nat) (i num : Z) (reader : list Z) : outcome error (Z * list Z) :=
  '(byte, reader) ← read_u8 reader;
  match n with
  | O => Ok (Z.lor num (byte << 56)%u64, reader)
  | S n =>
      let num := Z.lor num (u64_shl (Z.land byte 127) (i * 7)%Z) in
      if Z.land byte 128 =? 0 then Ok (num, reader) else deserialize_varint_loop n (i + 1) num reader
  end.

Definition deserialize_u64_varint (reader : list Z) : outcome error (Z * list Z) :=
  deserialize_varint_loop 8 0 0 reader.

Module NodeKey.

Record t := new { version : Z; nibble_path : NibblePath.t }.

#[global] Instance t_eq_dec : EqDecision t.
Proof. solve_decision. Defined.

#[global] Instance t_countable : Countable t.
Proof.
  apply (inj_countable' (fun k => (version k, nibble_path k)) (fun x => new x.1 x.2)). by intros [].
Defined.

(** [NibblePath::new(vec![])], whose precondition holds. *)
Definition new_empty_path (version : Z) : t := new version (NibblePath.mk 0 []).

Definition gen_child_node_key {E} (self : t) (version : Z) (n : Z) : outcome E t :=
  node_nibble_path ← NibblePath.push (nibble_path self) n;
  Ok (new version node_nibble_path).

Definition set_version (self : t) (version : Z) : t := new version (nibble_path self).

Definition encode `{ByteOrder} (self : t) : outcome error (list Z) :=
  let out := u64_to_be (version self) in
  let out := out ++ [Z.of_nat (NibblePath.num_nibbles (nibble_path self)) mod 256] in
  Ok (out ++ NibblePath.bytes (nibble_path self)).

Definition decode `{ByteOrder} (val : list Z) : outcome error t :=
  '(version, reader) ← read_exact 8 val;
  '(num_nibbles, nibble_bytes) ← read_u8 reader;
  let num_nibbles := Z.to_nat num_nibbles in
  ensure (num_nibbles <=? ROOT_NIBBLE_HEIGHT)%nat (Message "Invalid number of nibbles") ;;
  ensure ((num_nibbles + 1) / 2 =? length nibble_bytes)%nat
    (Message "encoded num_nibbles mismatches nibble path bytes") ;;
  nibble_path ← (if Nat.even num_nibbles then NibblePath.new nibble_bytes
    else
      last_byte ← expect (last nibble_bytes);
      let padding := Z.land last_byte 15 in
      ensure (padding =? 0) (Message "Padding nibble expected to be 0") ;;
      NibblePath.new_odd nibble_bytes);
  Ok (new (u64_of_be version) nibble_path).

End NodeKey.

Module NodeType.
Inductive t :=
| Leaf
| InternalLegacy
| Internal (leaf_count : Z).

#[global] Instance t_eq_dec : EqDecision t.
Proof. solve_decision. Defined.
End NodeType.

Module Child.
Record t := new { hash : HashValue.t; version : Z; node_type : NodeType.t }.

#[global] Instance t_eq_dec : EqDecision t.
Proof. solve_decision. Defined.

Definition is_leaf (self : t) : bool :=
  match node_type self with NodeType.Leaf => true | _ => false end.

Definition leaf_count (self : t) : option Z :=
  match node_type self with
  | NodeType.Leaf => Some 1
  | NodeType.InternalLegacy => None
  | NodeType.Internal leaf_count => Some leaf_count
  end.
End Child.

(** The children of an internal node by nibble. *)
Definition Children : Type := gmap Z Child.t.

(** The first children in the subtree of height [height] above the [n]-th child
    and in the sibling of that subtree. *)
Definition get_child_and_sibling_half_start (n height : Z) : Z * Z :=
  let child_half_start := Z.land (Z.shiftl 255 height mod 256) n in
  let sibling_half_start := Z.lxor child_half_start (Z.shiftl 1 height) in
  (child_half_start, sibling_half_start).

Module InternalNode.

Record t := mk {
  children : Children;
  leaf_count : option Z;
  leaf_count_migration : bool
}.

#[global] Instance t_eq_dec : EqDecision t.
Proof. solve_decision. Defined.

Definition sum_leaf_count (children : Children) : option Z :=
  foldl (fun leaf_count child =>
      leaf_count ← leaf_count; n ← Child.leaf_count child; Some (leaf_count + n)%u64)
    (Some 0) (map_to_list children).*2.

Definition new_impl (children : Children) (leaf_count_migration : bool) : outcome error t :=
  ensure (negb (bool_decide (children = ∅))) (Message "Children must not be empty") ;;
  (if (size children =? 1)%nat then
     child ← expect (head (map_to_list children).*2);
     ensure (negb (Child.is_leaf child)) (Message "If there's only one child, it must not be a leaf.")
   else Ok tt) ;;
  let leaf_count := sum_leaf_count children in
  Ok (mk children leaf_count leaf_count_migration).

Definition new_migration {E} (children : Children) (leaf_count_migration : bool) : outcome E t :=
  match new_impl children leaf_count_migration with Ok node => Ok node | _ => Panic end.

Definition node_type (self : t) : NodeType.t :=
  match leaf_count self with
  | Some leaf_count => NodeType.Internal leaf_count
  | None => NodeType.InternalLegacy
  end.

Definition generate_bitmaps {E} (self : t) : outcome E (Z * Z) :=
  let '(existence_bitmap, leaf_bitmap) :=
    foldl (fun '(existence_bitmap, leaf_bitmap) '(nibble, child) =>
        (Z.lor existence_bitmap (Z.shiftl 1 nibble),
         if Child.is_leaf child then Z.lor leaf_bitmap (Z.shiftl 1 nibble) else leaf_bitmap))
      (0, 0) (map_to_list (children self)) in
  assert_ (Z.lor existence_bitmap leaf_bitmap =? existence_bitmap) ;;
  Ok (existence_bitmap, leaf_bitmap).

Definition range_bitmaps {E} (start width : Z) (bitmaps : Z * Z) : outcome E (Z * Z) :=
  assert_ ((start <? 16) && (count_ones width =? 1) && (start mod width =? 0)) ;;
  assert_ ((width <=? 16) && (start + width <=? 16)) ;;
  let mask := Z.shiftl (Z.shiftl 1 width - 1) start mod 2 ^ 16 in
  Ok (Z.land bitmaps.1 mask, Z.land bitmaps.2 mask).

(** [existence_bitmap &= !(1 << next_child)] *)
Definition clear_bit (bitmap next_child : Z) : Z :=
  Z.land bitmap (2 ^ 16 - 1 - Z.shiftl 1 next_child mod 2 ^ 16).

(** The body of the loop of [serialize]. *)
Definition serialize_child {E} (child : Child.t) (binary : list Z) (persist_leaf_counts : bool) : outcome E (list Z) :=
  binary ← serialize_u64_varint (Child.version child) binary;
  let binary := binary ++ HashValue.hash (Child.hash child) in
  match Child.node_type child with
  | NodeType.Leaf => Ok binary
  | NodeType.InternalLegacy => if persist_leaf_counts then serialize_u64_varint 0 binary else Ok binary
  | NodeType.Internal leaf_count =>
      if persist_leaf_counts then serialize_u64_varint leaf_count binary else Ok binary
  end.

(** The loop over the children, in the order of their bits. *)
Fixpoint serialize_loop {E} (n : nat) (self : t) (existence_bitmap : Z) (binary : list Z)
    (persist_leaf_counts : bool) : outcome E (list Z) :=
  match n with
  | O => Ok binary
  | S n =>
      let next_child := trailing_zeros existence_bitmap in
      nibble ← Nibble_from next_child;
      child ← expect (children self !! nibble);
      binary ← serialize_child child binary persist_leaf_counts;
      serialize_loop n self (clear_bit existence_bitmap next_child) binary persist_leaf_counts
  end.

Definition serialize `{ByteOrder} {E} (self : t) (binary : list Z) (persist_leaf_counts : bool) : outcome E (list Z) :=
  '(existence_bitmap, leaf_bitmap) ← generate_bitmaps self;
  let binary := binary ++ u16_to_le existence_bitmap ++ u16_to_le leaf_bitmap in
  serialize_loop (Z.to_nat (count_ones existence_bitmap)) self existence_bitmap binary persist_leaf_counts.

(** The body of the loop of [deserialize]: the child and the bytes left. *)
Definition deserialize_child (is_leaf read_leaf_counts : bool) (reader : list Z) : outcome error (Child.t * list Z) :=
  '(version, reader) ← deserialize_u64_varint reader;
  ensure (HashValue.LENGTH <=? length reader)%nat (Message "not enough bytes left") ;;
  hash ← map_err (fun _ => Message "HashValueParseError") (HashValue.from_slice (take HashValue.LENGTH reader));
  let reader := drop HashValue.LENGTH reader in
  '(node_type, reader) ←
    (if is_leaf then Ok (NodeType.Leaf, reader)
     else if read_leaf_counts then
       '(leaf_count, reader) ← deserialize_u64_varint reader;
       Ok (if leaf_count =? 0 then NodeType.InternalLegacy else NodeType.Internal leaf_count, reader)
     else Ok (NodeType.InternalLegacy, reader));
  Ok (Child.new hash version node_type, reader).

(** The loop: the bits left and the children. *)
Fixpoint deserialize_loop (n : nat) (existence_bitmap leaf_bitmap : Z) (read_leaf_counts : bool)
    (reader : list Z) (children : Children) : outcome error (Z * Children) :=
  match n with
  | O => Ok (existence_bitmap, children)
  | S n =>
      let next_child := trailing_zeros existence_bitmap in
      let child_bit := Z.shiftl 1 next_child mod 2 ^ 16 in
      '(child, reader) ← deserialize_child (negb (Z.land leaf_bitmap child_bit =? 0)) read_leaf_counts reader;
      nibble ← Nibble_from next_child;
      deserialize_loop n (clear_bit existence_bitmap next_child) leaf_bitmap read_leaf_counts reader
        (<[nibble := child]> children)
  end.

Definition deserialize `{ByteOrder} (data : list Z) (read_leaf_counts : bool) : outcome error t :=
  '(bytes, reader) ← read_exact 2 data;
  let existence_bitmap := u16_of_le bytes in
  '(bytes, reader) ← read_exact 2 reader;
  let leaf_bitmap := u16_of_le bytes in
  ensure (negb (existence_bitmap =? 0)) (DecodeError NoChildren) ;;
  ensure (Z.land existence_bitmap leaf_bitmap =? leaf_bitmap)
    (DecodeError (ExtraLeaves existence_bitmap leaf_bitmap)) ;;
  '(existence_bitmap, children) ←
    deserialize_loop (Z.to_nat (count_ones existence_bitmap)) existence_bitmap leaf_bitmap read_leaf_counts reader ∅;
  assert_ (existence_bitmap =? 0) ;;
  new_impl children read_leaf_counts.

Section hash.
Context (sha3_256 : list Z -> HashValue.t).

(** [width] halves in every call: [fuel] is the logarithm of the first one. *)
Fixpoint merkle_hash {E} (fuel : nat) (self : t) (start width : Z) (bitmaps : Z * Z) : outcome E HashValue.t :=
  '(range_existence_bitmap, range_leaf_bitmap) ← range_bitmaps start width bitmaps;
  if range_existence_bitmap =? 0 then Ok SPARSE_MERKLE_PLACEHOLDER
  else if (width =? 1) || ((count_ones range_existence_bitmap =? 1) && negb (range_leaf_bitmap =? 0)) then
    only_child_index ← Nibble_from (trailing_zeros range_existence_bitmap);
    child ← expect (children self !! only_child_index);
    Ok (Child.hash child)
  else
    match fuel with
    | O => Panic
    | S fuel =>
        left_child ← merkle_hash fuel self start (width / 2) (range_existence_bitmap, range_leaf_bitmap);
        right_child ← merkle_hash fuel self (start + width / 2) (width / 2)
          (range_existence_bitmap, range_leaf_bitmap);
        Ok (SparseMerkleInternalNode.hash sha3_256 (SparseMerkleInternalNode.new left_child right_child))
    end.

Definition hash {E} (self : t) : outcome E HashValue.t :=
  bitmaps ← generate_bitmaps self;
  merkle_hash 4 self 0 16 bitmaps.

(** The loop of [get_child_with_siblings] over the heights. *)
Fixpoint siblings_loop {E} (self : t) (node_key : NodeKey.t) (n : Z) (bitmaps : Z * Z)
    (hs : list Z) (siblings : list HashValue.t) : outcome E (option NodeKey.t * list HashValue.t) :=
  match hs with
  | [] => Panic
  | h :: hs =>
      let width := Z.shiftl 1 h in
      let '(child_half_start, sibling_half_start) := get_child_and_sibling_half_start n h in
      sibling ← merkle_hash 4 self sibling_half_start width bitmaps;
      let siblings := siblings ++ [sibling] in
      '(range_existence_bitmap, range_leaf_bitmap) ← range_bitmaps child_half_start width bitmaps;
      if range_existence_bitmap =? 0 then Ok (None, siblings)
      else if (width =? 1) || ((count_ones range_existence_bitmap =? 1) && negb (range_leaf_bitmap =? 0)) then
        only_child_index ← Nibble_from (trailing_zeros range_existence_bitmap);
        child ← expect (children self !! only_child_index);
        child_node_key ← NodeKey.gen_child_node_key node_key (Child.version child) only_child_index;
        Ok (Some child_node_key, siblings)
      else siblings_loop self node_key n bitmaps hs siblings
  end.

Definition get_child_with_siblings {E} (self : t) (node_key : NodeKey.t) (n : Z)
    : outcome E (option NodeKey.t * list HashValue.t) :=
  bitmaps ← generate_bitmaps self;
  siblings_loop self node_key n bitmaps [3; 2; 1; 0] [].

End hash.
End InternalNode.

(** [Value] is what the tree uses of the type of the values: their hash. *)
Class Value (V : Type) := { value_hash : V -> HashValue.t }.

Module LeafNode.
Record t {V} := mk { account_key : HashValue.t; value_hash : HashValue.t; value : V }.
Arguments t V : clear implicits.
Arguments mk {V} account_key value_hash value.

Definition new `{Value V} (account_key : HashValue.t) (value : V) : t V :=
  let value_hash := JellyfishNodes.value_hash value in
  mk account_key value_hash value.

(** [From<LeafNode<V>> for SparseMerkleLeafNode] *)
Definition into {V} (self : t V) : SparseMerkleLeafNode.t :=
  SparseMerkleLeafNode.new (account_key self) (value_hash self).

Definition hash (sha3_256 : list Z -> HashValue.t) {V} (self : t V) : HashValue.t :=
  SparseMerkleLeafNode.hash sha3_256 (SparseMerkleLeafNode.new (account_key self) (value_hash self)).
End LeafNode.

Module NodeTag.
Inductive t := Null | InternalLegacy | Leaf | Internal.

Definition as_u8 (self : t) : Z :=
  match self with Null => 0 | InternalLegacy => 1 | Leaf => 2 | Internal => 3 end.

(** The derived [FromPrimitive::from_u8]. *)
Definition from_u8 (n : Z) : option t :=
  match n with 0 => Some Null | 1 => Some InternalLegacy | 2 => Some Leaf | 3 => Some Internal | _ => None end.
End NodeTag.

(** What is used of the crate [bcs]: the serialization of leaf nodes. *)
Class Bcs (V : Type) := {
  to_bytes : LeafNode.t V -> outcome error (list Z);
  from_bytes : list Z -> outcome error (LeafNode.t V)
}.

Module Node.
Inductive t {V} :=
| Null
| Internal (internal_node : InternalNode.t)
| Leaf (leaf_node : LeafNode.t V).
Arguments t V : clear implicits.

Definition new_leaf `{Value V} (account_key : HashValue.t) (value : V) : t V :=
  Leaf (LeafNode.new account_key value).

Definition is_leaf {V} (self : t V) : bool := match self with Leaf _ => true | _ => false end.

Definition node_type {E V} (self : t V) : outcome E NodeType.t :=
  match self with
  | Null => Panic
  | Leaf _ => Ok NodeType.Leaf
  | Internal n => Ok (InternalNode.node_type n)
  end.

Definition leaf_count {V} (self : t V) : option Z :=
  match self with
  | Null => Some 0
  | Leaf _ => Some 1
  | Internal internal_node => InternalNode.leaf_count internal_node
  end.

Definition hash (sha3_256 : list Z -> HashValue.t) {E V} (self : t V) : outcome E HashValue.t :=
  match self with
  | Null => Ok SPARSE_MERKLE_PLACEHOLDER
  | Internal internal_node => InternalNode.hash sha3_256 internal_node
  | Leaf leaf_node => Ok (LeafNode.hash sha3_256 leaf_node)
  end.

Definition encode `{ByteOrder} {V} `{Bcs V} (self : t V) : outcome error (list Z) :=
  match self with
  | Null => Ok [NodeTag.as_u8 NodeTag.Null]
  | Internal internal_node =>
      let persist_leaf_count := InternalNode.leaf_count_migration internal_node in
      let tag := if persist_leaf_count then NodeTag.Internal else NodeTag.InternalLegacy in
      InternalNode.serialize internal_node [NodeTag.as_u8 tag] persist_leaf_count
  | Leaf leaf_node => bytes ← to_bytes leaf_node; Ok (NodeTag.as_u8 NodeTag.Leaf :: bytes)
  end.

Definition decode `{ByteOrder} {V} `{Bcs V} (val : list Z) : outcome error (t V) :=
  match val with
  | [] => Err (DecodeError EmptyInput)
  | tag :: val =>
      match NodeTag.from_u8 tag with
      | Some NodeTag.Null => Ok Null
      | Some NodeTag.InternalLegacy => node ← InternalNode.deserialize val false; Ok (Internal node)
      | Some NodeTag.Internal => node ← InternalNode.deserialize val true; Ok (Internal node)
      | Some NodeTag.Leaf => leaf ← from_bytes val; Ok (Leaf leaf)
      | None => Err (DecodeError (UnknownTag tag))
      end
  end.
End Node.
