(* ===== verification/JellyfishSpec.v ===== *)
(** * What a Jellyfish Merkle tree stands for

    A version of the tree holds a finite map from keys to values. [canon] is the
    sparse Merkle tree (of SparseMerkle.v) of such a map: its shape is a function
    of the map alone. [part] is the share of a map below one position of an
    internal node, and the lemmas of this file relate the bits of the keys, their
    nibbles and the two. *)
From stdpp Require Import prelude gmap strings.
From Stdlib Require Import ZArith Lia.
From S2P Require Import Prelude Bits HashValues SparseMerkle Nibbles JellyfishNodes.

(** ** Bits and nibbles of keys *)

Definition key_bit (i : nat) (k : HashValue.t) : bool := nth i (HashValue.iter_bits k) false.

Definition nib (d : nat) (k : HashValue.t) : Z := nth d (key_nibbles k) 0.

Lemma wf_bytes k : HashValue.wf k -> Forall byte_ok (HashValue.hash k).
Proof. intros [_ H]. exact H. Qed.

Lemma wf_sized k : HashValue.wf k -> sized k.
Proof. intros [H _]. exact H. Qed.

Lemma key_nibbles_length k : HashValue.wf k -> length (key_nibbles k) = ROOT_NIBBLE_HEIGHT.
Proof. intros [H _]. unfold key_nibbles. by rewrite nibbles_length, H. Qed.

Lemma new_of_key {E} k : HashValue.wf k -> NibblePath.new (E := E) (HashValue.hash k) = Ok (of_nibbles (key_nibbles k)).
Proof. intros Hk. apply new_of_nibbles; [by apply wf_bytes | by rewrite (proj1 Hk)]. Qed.

Lemma key_nibbles_ok k : HashValue.wf k -> Forall nibble_ok (key_nibbles k).
Proof. intros H. by apply nibbles_ok, wf_bytes. Qed.

Lemma nib_ok d k : HashValue.wf k -> nibble_ok (nib d k).
Proof.
  intros H. unfold nib. destruct (nth_in_or_default d (key_nibbles k) 0) as [Hin| ->].
  - apply key_nibbles_ok in H. rewrite Forall_forall in H. by apply H, list_elem_of_In.
  - red. lia.
Qed.

Lemma nib_lookup d k : HashValue.wf k -> (d < ROOT_NIBBLE_HEIGHT)%nat -> key_nibbles k !! d = Some (nib d k).
Proof.
  intros H Hd. unfold nib. rewrite <- (key_nibbles_length k) in Hd by done.
  rewrite nth_lookup. destruct (lookup_lt_is_Some_2 _ _ Hd) as [x Hx]. by rewrite Hx.
Qed.

Definition nibble_bits (n : Z) : list bool := (fun i => Z.testbit n i) <$> [3; 2; 1; 0].

Lemma byte_bits_nibbles b : byte_ok b ->
  byte_bits b = nibble_bits (Z.shiftr b 4) ++ nibble_bits (Z.land b 15).
Proof.
  intros Hb. destruct (byte_of_bits b Hb) as (b7 & b6 & b5 & b4 & b3 & b2 & b1 & b0 & ->).
  by destruct b7, b6, b5, b4, b3, b2, b1, b0.
Qed.

(** The bits of a key are those of its nibbles. *)
Lemma iter_bits_nibbles k : HashValue.wf k -> HashValue.iter_bits k = key_nibbles k ≫= nibble_bits.
Proof.
  intros [Hl Hb]. rewrite iter_bits_bytes by done. unfold key_nibbles. revert Hb. clear Hl.
  induction (HashValue.hash k) as [|b bs IH]; [done|]. intros [Hb Hbs]%Forall_cons.
  cbn [mbind list_bind]. rewrite bind_app, byte_bits_nibbles, IH by done.
  cbn [byte_nibbles mbind list_bind]. by rewrite app_nil_r.
Qed.

Lemma bind_nibble_bits_length ns : length (ns ≫= nibble_bits) = (4 * length ns)%nat.
Proof. induction ns as [|n ns IH]; [done|]. cbn [mbind list_bind]. rewrite length_app, IH. cbn [length].
  change (length (nibble_bits n)) with 4%nat. lia. Qed.

Lemma drop_bits ns d n : ns !! d = Some n ->
  drop (4 * d) (ns ≫= nibble_bits) = nibble_bits n ++ drop (4 * S d) (ns ≫= nibble_bits).
Proof.
  revert d; induction ns as [|x ns IH]; intros [|d]; [done..| |].
  - by intros [= ->].
  - intros Hd%IH. cbn [mbind list_bind].
    assert (length (nibble_bits x) = 4%nat) as Hx by done.
    rewrite !(drop_app_ge (nibble_bits x)) by lia. rewrite Hx.
    replace (4 * S d - 4)%nat with (4 * d)%nat by lia. by replace (4 * S (S d) - 4)%nat with (4 * S d)%nat by lia.
Qed.

Lemma drop_key_bits d k : HashValue.wf k -> (d < ROOT_NIBBLE_HEIGHT)%nat ->
  drop (4 * d) (HashValue.iter_bits k) = nibble_bits (nib d k) ++ drop (4 * S d) (HashValue.iter_bits k).
Proof. intros Hk Hd. rewrite iter_bits_nibbles by done. apply drop_bits. by apply nib_lookup. Qed.

Lemma key_bit_nib d h k : HashValue.wf k -> (d < ROOT_NIBBLE_HEIGHT)%nat -> (h < 4)%nat ->
  key_bit (4 * d + (3 - h)) k = Z.testbit (nib d k) (Z.of_nat h).
Proof.
  intros Hk Hd Hh. unfold key_bit. rewrite nth_lookup, <- lookup_drop, drop_key_bits by done.
  rewrite lookup_app_l by (cbn; lia). by destruct h as [|[|[|[|h]]]]; [| | | |lia].
Qed.

(** Keys with the same nibbles are equal. *)
Lemma key_nibbles_inj k k' : HashValue.wf k -> HashValue.wf k' -> key_nibbles k = key_nibbles k' -> k = k'.
Proof. intros Hk Hk' E. apply iter_bits_inj; [done..|]. by rewrite !iter_bits_nibbles, E. Qed.

(** The key of the node of version [v] at the path [ns]. *)
Definition key_at (v : Z) (ns : list Z) : NodeKey.t := NodeKey.new v (of_nibbles ns).

Lemma key_at_inj v v' ns ns' : Forall nibble_ok ns -> Forall nibble_ok ns' ->
  key_at v ns = key_at v' ns' -> v = v' /\ ns = ns'.
Proof. intros H H' [= -> Hn Hp]. split; [done|]. apply of_nibbles_inj; [done..|]. unfold of_nibbles. by rewrite Hn, Hp. Qed.

Lemma gen_child_key_at {E} v ns v' n : Forall nibble_ok ns -> nibble_ok n -> (length ns < ROOT_NIBBLE_HEIGHT)%nat ->
  NodeKey.gen_child_node_key (E := E) (key_at v ns) v' n = Ok (key_at v' (ns ++ [n])).
Proof. intros. unfold NodeKey.gen_child_node_key. cbn [key_at NodeKey.nibble_path]. by rewrite push_nibbles. Qed.

(** ** Maps and their sparse Merkle trees *)

Section maps.
Context {V : Type} {HV : Value V}.
Implicit Type m : gmap HashValue.t V.

Definition keys_ok m : Prop := map_Forall (fun k _ => HashValue.wf k) m.

Definition side (i : nat) (b : bool) m : gmap HashValue.t V := filter (fun kv => key_bit i kv.1 = b) m.

(** The tree of a map whose keys agree on all but their last [n] bits. *)
Fixpoint canon (n : nat) m : tree :=
  match map_to_list m with
  | [] => Empty
  | [(k, v)] => Leaf (SparseMerkleLeafNode.new k (value_hash v))
  | _ =>
      match n with
      | O => Empty
      | S n' =>
          let i := (HashValue.LENGTH_IN_BITS - n)%nat in
          Node (canon n' (side i false m)) (canon n' (side i true m))
      end
  end.

(** The keys whose nibble [d] is [q] after [h] bits are dropped. *)
Definition part (d : nat) (h : Z) (q : Z) m : gmap HashValue.t V :=
  filter (fun kv => Z.shiftr (nib d kv.1) h = q) m.

Lemma map_filter_filter_and {K A} `{Countable K} (P Q : K * A -> Prop)
    `{!forall x, Decision (P x), !forall x, Decision (Q x)} (m : gmap K A) :
  filter P (filter Q m) = filter (fun x => P x /\ Q x) m.
Proof.
  apply map_eq. intros k. apply option_eq. intros v. rewrite !map_lookup_filter_Some. tauto.
Qed.

Lemma canon_empty n : canon n ∅ = Empty.
Proof. destruct n; cbn [canon]; by rewrite map_to_list_empty. Qed.

Lemma canon_singleton n k v : canon n {[k := v]} = Leaf (SparseMerkleLeafNode.new k (value_hash v)).
Proof. destruct n; cbn [canon]; by rewrite map_to_list_singleton. Qed.

Lemma canon_node n m : (2 <= size m)%nat ->
  canon (S n) m = Node (canon n (side (HashValue.LENGTH_IN_BITS - S n) false m))
                       (canon n (side (HashValue.LENGTH_IN_BITS - S n) true m)).
Proof.
  rewrite <- length_map_to_list. cbn [canon]. destruct (map_to_list m) as [|[k v] [|y l]]; cbn [length]; [lia..|].
  reflexivity.
Qed.

Lemma size_1_singleton m : size m = 1%nat -> exists k v, m = {[k := v]}.
Proof.
  rewrite <- length_map_to_list. destruct (map_to_list m) as [|[k v] [|y l]] eqn:E; [done| |done].
  intros _. exists k, v. apply map_to_list_inj. by rewrite E, map_to_list_singleton.
Qed.

Lemma size_ge_2 m k k' : k <> k' -> is_Some (m !! k) -> is_Some (m !! k') -> (2 <= size m)%nat.
Proof.
  intros Hne H H'. apply (NoDup_length_size m [k; k']).
  - apply NoDup_cons. split; [|apply NoDup_singleton]. by rewrite list_elem_of_singleton.
  - intros x. rewrite !elem_of_cons, elem_of_nil. by intros [-> | [-> | []]].
Qed.

Lemma part_lookup d h q m k v :
  part d h q m !! k = Some v <-> m !! k = Some v /\ Z.shiftr (nib d k) h = q.
Proof. unfold part. by rewrite map_lookup_filter_Some. Qed.

Lemma part_lookup_nib d m k n : nib d k = n -> part d 0 n m !! k = m !! k.
Proof.
  intros Hn. apply option_eq. intros v. rewrite part_lookup, Z.shiftr_0_r. tauto.
Qed.

Lemma part_lookup_other d m k n : nib d k <> n -> part d 0 n m !! k = None.
Proof. intros Hn. apply eq_None_not_Some. intros [v [_ Hk]%part_lookup]. by rewrite Z.shiftr_0_r in Hk. Qed.

Lemma keys_ok_part d h q m : keys_ok m -> keys_ok (part d h q m).
Proof. intros Hm k v [Hk _]%part_lookup. by eapply Hm. Qed.

Lemma part_whole d m : keys_ok m -> part d 4 0 m = m.
Proof.
  intros Hm. apply map_filter_id. intros k v Hk. cbn [fst].
  pose proof (nib_ok d k (Hm k v Hk)) as Hn. unfold nibble_ok in Hn. rewrite Z.shiftr_div_pow2 by lia.
  apply Z.div_small. lia.
Qed.

(** The two halves of a part. *)
Lemma side_part d h q b m : keys_ok m -> (d < ROOT_NIBBLE_HEIGHT)%nat -> (h < 4)%nat ->
  side (4 * d + (3 - h)) b (part d (Z.of_nat (S h)) q m) = part d (Z.of_nat h) (2 * q + Z.b2z b) m.
Proof.
  intros Hm Hd Hh. unfold side, part. rewrite map_filter_filter_and.
  apply map_filter_ext. intros k v Hk. cbn [fst]. rewrite (key_bit_nib d h k (Hm k v Hk) Hd Hh).
  pose proof (nib_ok d k (Hm k v Hk)) as Hn. set (x := nib d k) in *.
  rewrite Nat2Z.inj_succ. unfold Z.succ. rewrite <- Z.shiftr_shiftr by lia.
  set (y := Z.shiftr x (Z.of_nat h)).
  assert (Z.testbit x (Z.of_nat h) = Z.odd y) as ->.
  { rewrite <- Z.bit0_odd. unfold y. rewrite Z.shiftr_spec by lia. done. }
  rewrite <- Z.div2_spec. pose proof (Z.div2_odd y) as Hy. split.
  - intros [<- <-]. lia.
  - intros Hb. clearbody y. destruct (Z.odd y), b; cbn [Z.b2z] in *; split; (done || lia).
Qed.

Lemma canon_part d h' h q m : keys_ok m -> (S h' + d = ROOT_NIBBLE_HEIGHT)%nat -> (h < 4)%nat ->
  (2 <= size (part d (Z.of_nat (S h)) q m))%nat ->
  canon (4 * h' + S h) (part d (Z.of_nat (S h)) q m) =
    Node (canon (4 * h' + h) (part d (Z.of_nat h) (2 * q) m))
         (canon (4 * h' + h) (part d (Z.of_nat h) (2 * q + 1) m)).
Proof.
  intros Hm Hd Hh Hs. rewrite Nat.add_succ_r, canon_node by done.
  replace (HashValue.LENGTH_IN_BITS - S (4 * h' + h))%nat with (4 * d + (3 - h))%nat
    by (unfold HashValue.LENGTH_IN_BITS, ROOT_NIBBLE_HEIGHT in *; lia).
  rewrite !(side_part d h) by first [exact Hm | lia]. cbn [Z.b2z]. by rewrite Z.add_0_r.
Qed.

Lemma part_insert d h q m k v :
  part d h q (<[k := v]> m) =
  if bool_decide (Z.shiftr (nib d k) h = q) then <[k := v]> (part d h q m) else part d h q m.
Proof.
  unfold part. case_bool_decide as Hq.
  - by rewrite map_filter_insert_True.
  - rewrite map_filter_insert_False by done. apply map_eq. intros k'.
    apply option_eq. intros v'. rewrite !map_lookup_filter_Some, lookup_delete_Some.
    cbn [fst]. split; [tauto|]. intros [H1 H2]. split_and!; [|done..]. by intros ->.
Qed.

End maps.
