(* ===== verification/JellyfishHash.v ===== *)
(** * Hashes and siblings of internal nodes

    [merkle_hash] and [get_child_with_siblings] of an internal node compute, on
    its bitmaps, the hash and the path of the four levels of the sparse Merkle
    tree the node stands for. *)
From stdpp Require Import prelude gmap strings.
From Stdlib Require Import ZArith Lia.
From S2P Require Import Prelude Bits HashValues SparseMerkle Nibbles JellyfishNodes JellyfishSpec.

(** ** Counting bits *)

Lemma testbit_double p i : 0 <= i -> Z.testbit (Zpos p~0) (i + 1) = Z.testbit (Zpos p) i.
Proof. intros Hi. rewrite (Pos2Z.inj_xO p), Z.add_1_r. by apply Z.testbit_even_succ. Qed.

Lemma testbit_double_1 p i : 0 <= i -> Z.testbit (Zpos p~1) (i + 1) = Z.testbit (Zpos p) i.
Proof. intros Hi. rewrite (Pos2Z.inj_xI p), Z.add_1_r. by apply Z.testbit_odd_succ. Qed.

Lemma pos_testbit_ex p : exists i, 0 <= i /\ Z.testbit (Zpos p) i = true.
Proof. exists (Z.log2 (Zpos p)). split; [apply Z.log2_nonneg | by apply Z.bit_log2]. Qed.

Lemma pos_count_ones_pos p : 1 <= pos_count_ones p.
Proof. induction p; cbn [pos_count_ones]; lia. Qed.

Lemma count_ones_1 a : 0 < a -> count_ones a = 1 -> exists j, 0 <= j /\ a = 2 ^ j.
Proof.
  destruct a as [|p|p]; [lia| |lia]. intros _. cbn [count_ones].
  induction p as [p IH|p IH|]; cbn [pos_count_ones].
  - pose proof (pos_count_ones_pos p). lia.
  - intros (j & Hj & Hp)%IH. exists (j + 1). split; [lia|]. rewrite pow2_S by lia. lia.
  - by exists 0.
Qed.

Lemma count_ones_many a : 0 < a -> count_ones a <> 1 ->
  exists i j, 0 <= i /\ 0 <= j /\ i <> j /\ Z.testbit a i = true /\ Z.testbit a j = true.
Proof.
  destruct a as [|p|p]; [lia| |lia]. intros _. cbn [count_ones].
  induction p as [p IH|p IH|]; cbn [pos_count_ones]; intros H; [|..|done].
  - destruct (pos_testbit_ex p) as (i & Hi & Hb). exists 0, (i + 1).
    rewrite testbit_double_1 by done. split_and!; (done || lia).
  - destruct (IH H) as (i & j & Hi & Hj & Hne & H1 & H2). exists (i + 1), (j + 1).
    rewrite !testbit_double by done. split_and!; (done || lia).
Qed.

Lemma count_ones_pow2 h : 0 <= h -> count_ones (2 ^ h) = 1.
Proof. intros Hh. rewrite <- (Z.mul_1_l (2 ^ h)). by rewrite count_ones_shift. Qed.

Lemma trailing_zeros_pow2 j : 0 <= j -> trailing_zeros (2 ^ j) = j.
Proof.
  intros Hj. pattern j. apply natlike_ind; [done| |done]. intros x Hx IH. unfold Z.succ.
  rewrite pow2_S, trailing_zeros_double by (done || by apply pow2_pos). lia.
Qed.

Lemma testbit_ext_0 a : 0 <= a -> (forall i, 0 <= i -> Z.testbit a i = false) -> a = 0.
Proof. intros Ha H. apply Z.bits_inj'. intros i Hi. by rewrite H, Z.bits_0. Qed.

(** A number with a single bit. *)
Lemma single_bit a j : 0 <= a -> 0 <= j -> (forall i, 0 <= i -> Z.testbit a i = true <-> i = j) -> a = 2 ^ j.
Proof.
  intros Ha Hj H. apply Z.bits_inj'. intros i Hi. rewrite pow2_testbit by done.
  destruct (Z.eqb_spec i j) as [->|Hne]; [by apply H|].
  destruct (Z.testbit a i) eqn:E; [|done]. by apply H in E.
Qed.

(** ** Bitmaps *)

(** The bits of [e] and [l] say which children exist and which are leaves, for
    the children below position [q] at height [h]. *)
Definition bitmaps_in (cs : Children) (h q : Z) (bitmaps : Z * Z) : Prop := forall n, 0 <= n -> Z.shiftr n h = q ->
  (Z.testbit bitmaps.1 n = true <-> is_Some (cs !! n)) /\
  (Z.testbit bitmaps.2 n = true <-> exists c, cs !! n = Some c /\ Child.is_leaf c = true).

Lemma testbit_lor_bit a k n : 0 <= k -> 0 <= n ->
  Z.testbit (Z.lor a (Z.shiftl 1 k)) n = true <-> Z.testbit a n = true \/ n = k.
Proof.
  intros Hk Hn. rewrite Z.lor_spec, Z.shiftl_1_l, pow2_testbit by done.
  rewrite orb_true_iff, Z.eqb_eq. done.
Qed.

Lemma bitmaps_fold (kvs : list (Z * Child.t)) : forall e l e' l', Forall (fun kv => 0 <= kv.1) kvs ->
  foldl (fun '(e, l) '(nibble, child) =>
      (Z.lor e (Z.shiftl 1 nibble), if Child.is_leaf child then Z.lor l (Z.shiftl 1 nibble) else l))
    (e, l) kvs = (e', l') ->
  forall n, 0 <= n ->
    (Z.testbit e' n = true <-> Z.testbit e n = true \/ exists c, (n, c) ∈ kvs) /\
    (Z.testbit l' n = true <-> Z.testbit l n = true \/ exists c, (n, c) ∈ kvs /\ Child.is_leaf c = true).
Proof.
  induction kvs as [|[k c] kvs IH]; intros e l e' l' Hk; cbn [foldl].
  - intros [= <- <-] n Hn. split; (split; [by left | intros [|(c & Hc)]; [done|]]).
    + by apply elem_of_nil in Hc.
    + by destruct Hc as [?%elem_of_nil _].
  - apply Forall_cons in Hk as [Hk Hks]. intros H n Hn.
    destruct (IH _ _ _ _ Hks H n Hn) as [H1 H2]. cbn [fst] in Hk.
    setoid_rewrite elem_of_cons. split.
    + rewrite H1, testbit_lor_bit by done. split.
      * intros [[?| ->]|(c0 & ?)]; eauto.
      * intros [?|(c0 & [[= -> ->]|?])]; eauto.
    + rewrite H2. destruct (Child.is_leaf c) eqn:El; [rewrite testbit_lor_bit by done|]; split.
      * intros [[?| ->]|(c0 & ? & ?)]; eauto 6.
      * intros [?|(c0 & [[= -> ->]|?] & ?)]; eauto.
      * intros [?|(c0 & ? & ?)]; eauto 6.
      * intros [?|(c0 & [[= -> ->]|?] & ?)]; [eauto | congruence | eauto].
Qed.

Definition indices_ok (cs : Children) : Prop := forall n c, cs !! n = Some c -> nibble_ok n.

Lemma generate_bitmaps_spec {E} (i : InternalNode.t) : indices_ok (InternalNode.children i) ->
  exists bitmaps, InternalNode.generate_bitmaps (E := E) i = Ok bitmaps /\
    forall h q, bitmaps_in (InternalNode.children i) h q bitmaps.
Proof.
  intros Hi. unfold InternalNode.generate_bitmaps. set (cs := InternalNode.children i) in *.
  assert (Forall (fun kv => 0 <= kv.1) (map_to_list cs)) as Hpos.
  { apply Forall_forall. intros [n c] Hn%elem_of_map_to_list. apply Hi in Hn. red in Hn. cbn. lia. }
  destruct (foldl _ _ _) as [e l] eqn:Ef. pose proof (bitmaps_fold _ _ _ _ _ Hpos Ef) as Hb.
  assert (forall h q, bitmaps_in cs h q (e, l)) as H.
  { intros h q n Hn _. destruct (Hb n Hn) as [H1 H2]. cbn [fst snd]. rewrite H1, H2, Z.bits_0.
    setoid_rewrite elem_of_map_to_list. unfold is_Some. split; naive_solver. }
  exists (e, l). split; [|done].
  rewrite (proj2 (Z.eqb_eq _ _)); [done|]. apply Z.bits_inj'. intros n Hn. rewrite Z.lor_spec.
  destruct (H 0 n n Hn (Z.shiftr_0_r n)) as [H1 H2]. cbn [fst snd] in *.
  destruct (Z.testbit l n); [|by rewrite orb_false_r]. rewrite orb_true_r. symmetry.
  destruct H2 as [(c & Hc & _) _]; [done|]. apply H1. eauto.
Qed.

Lemma shiftr_range n h q : 0 <= h -> Z.shiftr n h = q <-> q * 2 ^ h <= n < q * 2 ^ h + 2 ^ h.
Proof.
  intros Hh. rewrite Z.shiftr_div_pow2 by done. pose proof (pow2_pos h Hh) as Hp. split.
  - intros <-. pose proof (Z.div_mod n (2 ^ h) ltac:(lia)). pose proof (Z.mod_pos_bound n (2 ^ h) Hp). nia.
  - intros H. symmetry. apply (Z.div_unique n (2 ^ h) q (n - q * 2 ^ h)); lia.
Qed.

Lemma range_bitmaps_spec {E} h q bitmaps : 0 <= h <= 4 -> 0 <= q -> (q + 1) * 2 ^ h <= 16 ->
  exists re rl, InternalNode.range_bitmaps (E := E) (q * 2 ^ h) (2 ^ h) bitmaps = Ok (re, rl) /\
    0 <= re /\ 0 <= rl /\ forall n, 0 <= n ->
      (Z.testbit re n = true <-> Z.shiftr n h = q /\ Z.testbit bitmaps.1 n = true) /\
      (Z.testbit rl n = true <-> Z.shiftr n h = q /\ Z.testbit bitmaps.2 n = true).
Proof.
  intros Hh Hq Hw. pose proof (pow2_pos h ltac:(lia)) as Hp. unfold InternalNode.range_bitmaps.
  rewrite (proj2 (Z.ltb_lt _ _)), count_ones_pow2, Z_mod_mult by nia.
  rewrite !(proj2 (Z.leb_le _ _)) by nia. cbn [andb assert_ Z.eqb Pos.eqb]. rewrite !bind_Ok.
  assert (Z.shiftl (Z.shiftl 1 (2 ^ h) - 1) (q * 2 ^ h) mod 2 ^ 16 = Z.shiftl (Z.ones (2 ^ h)) (q * 2 ^ h)) as ->.
  { rewrite Z.shiftl_1_l, Z.ones_equiv, Z.sub_1_r. apply Z.mod_small. rewrite Z.shiftl_mul_pow2 by nia.
    pose proof (pow2_pos (2 ^ h) ltac:(lia)). pose proof (pow2_pos (q * 2 ^ h) ltac:(nia)).
    split; [nia|]. apply Z.lt_le_trans with (2 ^ (2 ^ h) * 2 ^ (q * 2 ^ h)); [nia|].
    rewrite <- Z.pow_add_r by nia. apply Z.pow_le_mono_r; lia. }
  set (mask := Z.shiftl _ _).
  assert (forall n, 0 <= n -> Z.testbit mask n = true <-> Z.shiftr n h = q) as Hmask.
  { intros n Hn. unfold mask. rewrite shiftr_range by lia.
    rewrite Z.shiftl_spec by lia. destruct (Z.ltb_spec n (q * 2 ^ h)).
    - rewrite Z.testbit_neg_r by lia. split; [done | lia].
    - destruct (Z.ltb_spec (n - q * 2 ^ h) (2 ^ h)).
      + rewrite Z.ones_spec_low by lia. split; [lia | done].
      + rewrite Z.ones_spec_high by lia. split; [done | lia]. }
  assert (0 <= mask) as Hm0.
  { unfold mask. rewrite Z.shiftl_nonneg, Z.ones_equiv. pose proof (pow2_pos (2 ^ h) ltac:(lia)). lia. }
  do 2 eexists. split; [done|]. split_and!; [apply Z.land_nonneg; by right..|].
  intros n Hn. rewrite !Z.land_spec, !andb_true_iff, !Hmask by done. tauto.
Qed.

(** The two bitmaps restricted to the children below position [q] at height [h]. *)
Definition range_of (cs : Children) (h q re rl : Z) : Prop := 0 <= re /\ 0 <= rl /\ forall n, 0 <= n ->
  (Z.testbit re n = true <-> Z.shiftr n h = q /\ is_Some (cs !! n)) /\
  (Z.testbit rl n = true <-> Z.shiftr n h = q /\ exists c, cs !! n = Some c /\ Child.is_leaf c = true).

Lemma range_bitmaps_of {E} cs h q bitmaps : bitmaps_in cs h q bitmaps ->
  0 <= h <= 4 -> 0 <= q -> (q + 1) * 2 ^ h <= 16 ->
  exists re rl, InternalNode.range_bitmaps (E := E) (q * 2 ^ h) (2 ^ h) bitmaps = Ok (re, rl) /\
    range_of cs h q re rl.
Proof.
  intros Hb Hh Hq Hw. destruct (range_bitmaps_spec (E := E) h q bitmaps Hh Hq Hw) as (re & rl & H & H1 & H2 & H3).
  exists re, rl. split; [done|]. split_and!; [done..|]. intros n Hn. destruct (H3 n Hn) as [-> ->].
  split; split; intros [Hq' Hx]; (split; [done|]); by apply Hb.
Qed.

Section node.
Context (sha3_256 : list Z -> HashValue.t) {V : Type} {HV : Value V}.
Context (i : InternalNode.t) (d h' : nat) (m : gmap HashValue.t V).

(** What the children of an internal node say of the map below it. *)
Record children_ok : Prop := {
  ok_keys : keys_ok m;
  ok_depth : (S h' + d = ROOT_NIBBLE_HEIGHT)%nat;
  ok_some : forall n c, InternalNode.children i !! n = Some c ->
    nibble_ok n /\ part d 0 n m <> ∅ /\
    Child.hash c = root_hash sha3_256 (canon (4 * h') (part d 0 n m)) /\
    (Child.is_leaf c = true <-> size (part d 0 n m) = 1%nat);
  ok_none : forall n, nibble_ok n -> InternalNode.children i !! n = None -> part d 0 n m = ∅
}.

Context (Hok : children_ok).

Lemma child_of k v : m !! k = Some v -> exists c, InternalNode.children i !! nib d k = Some c.
Proof.
  intros Hk. destruct (InternalNode.children i !! nib d k) as [c|] eqn:E; [eauto|].
  apply ok_none in E; [|exact Hok|by apply nib_ok, (ok_keys Hok k v)].
  exfalso. apply (lookup_empty_Some k v). rewrite <- E. apply part_lookup. by rewrite Z.shiftr_0_r.
Qed.

Lemma part_nonempty n : part d 0 n m <> ∅ -> exists k v, m !! k = Some v /\ nib d k = n.
Proof.
  intros (k & v & Hk)%map_choose. apply part_lookup in Hk as [Hk Hn]. rewrite Z.shiftr_0_r in Hn. eauto.
Qed.

Lemma part_empty h q : (forall k v, m !! k = Some v -> Z.shiftr (nib d k) h <> q) -> part d h q m = ∅.
Proof. intros H. apply map_empty. intros k. apply eq_None_not_Some. intros [v [Hk Hq]%part_lookup]. by eapply H. Qed.

Lemma range_empty h q rl : range_of (InternalNode.children i) h q 0 rl -> part d h q m = ∅.
Proof.
  intros (_ & _ & H). apply part_empty. intros k v Hk Hq. destruct (child_of k v Hk) as [c Hc].
  pose proof (nib_ok d k (ok_keys Hok k v Hk)) as Hn. red in Hn.
  destruct (H (nib d k) ltac:(lia)) as [[_ H1] _]. rewrite Z.bits_0 in H1. discriminate H1. eauto.
Qed.

(** One bit in the range: the map below is that of the one child. *)
Lemma range_single h q re rl j : range_of (InternalNode.children i) h q re rl -> 0 <= j -> re = 2 ^ j ->
  exists c, InternalNode.children i !! j = Some c /\ nibble_ok j /\ Z.shiftr j h = q /\
    part d h q m = part d 0 j m.
Proof.
  intros (_ & _ & H) Hj ->. destruct (H j Hj) as [H1 _]. rewrite pow2_testbit, Z.eqb_refl in H1 by done.
  destruct H1 as [[Hq [c Hc]] _]; [done|]. exists c. split_and!; [done | by eapply ok_some | done |].
  apply map_filter_ext. intros k v Hk. cbn [fst]. rewrite Z.shiftr_0_r. split; [|by intros ->].
  intros Hkq. destruct (child_of k v Hk) as [c' Hc'].
  pose proof (nib_ok d k (ok_keys Hok k v Hk)) as Hn. red in Hn.
  destruct (H (nib d k) ltac:(lia)) as [[_ H1] _]. rewrite pow2_testbit in H1 by lia.
  by apply Z.eqb_eq, H1; eauto.
Qed.

(** The test for the only child of a range. *)
Definition single_child (width re rl : Z) : bool := (width =? 1) || ((count_ones re =? 1) && negb (rl =? 0)).

Lemma range_only h q re rl : 0 <= h -> 0 <= q -> range_of (InternalNode.children i) h q re rl -> re <> 0 ->
  single_child (2 ^ h) re rl = true ->
  exists j c, trailing_zeros re = j /\ InternalNode.children i !! j = Some c /\ nibble_ok j /\
    Z.shiftr j h = q /\ part d h q m = part d 0 j m /\
    (h = 0 \/ Child.is_leaf c = true /\ size (part d 0 j m) = 1%nat).
Proof.
  intros Hh Hq Hr Hne Hs. pose proof Hr as (Hre & Hrl & H). unfold single_child in Hs.
  apply orb_true_iff in Hs as [Hw|Hs].
  - assert (h = 0) as ->.
    { apply Z.eqb_eq in Hw. destruct (Z.ltb_spec 0 h) as [Hh'|]; [|lia].
      apply (Z.pow_gt_1 2 h ltac:(lia)) in Hh'. lia. }
    assert (re = 2 ^ q) as Hre'.
    { apply single_bit; [done..|]. intros n Hn. destruct (H n Hn) as [-> _]. rewrite Z.shiftr_0_r.
      split; [tauto|]. intros ->. split; [done|].
      destruct (Z.eq_dec re 0); [done|]. apply not_eq_None_Some. intros Hnone.
      apply Hne, testbit_ext_0; [done|]. intros x Hx. apply not_true_iff_false.
      destruct (H x Hx) as [-> _]. rewrite Z.shiftr_0_r. intros [-> Hs]. rewrite Hnone in Hs. by destruct Hs. }
    destruct (range_single 0 q re rl q) as (c & Hc & Hn & Hj & Hp); [done..|].
    exists q, c. rewrite Hre', trailing_zeros_pow2 by done. split_and!; auto.
  - apply andb_true_iff in Hs as [Hone%Z.eqb_eq Hleaf].
    destruct (count_ones_1 re ltac:(lia) Hone) as (j & Hj & Hre').
    destruct (range_single h q re rl j) as (c & Hc & Hn & Hq' & Hp); [done..|].
    exists j, c. rewrite Hre', trailing_zeros_pow2 by done. split_and!; [done..|]. right.
    assert (Child.is_leaf c = true) as Hl; [|by split; [|eapply ok_some]].
    apply negb_true_iff, Z.eqb_neq in Hleaf. apply not_false_iff_true. intros Hf.
    apply Hleaf, testbit_ext_0; [done|]. intros n Hn0. apply not_true_iff_false.
    destruct (H n Hn0) as [H1 ->]. intros (Hqn & c' & Hc' & Hl').
    rewrite Hre', pow2_testbit, Z.eqb_eq in H1 by done.
    assert (n = j) as -> by (apply H1; eauto). congruence.
Qed.

Lemma range_two h q re rl : range_of (InternalNode.children i) h q re rl -> re <> 0 ->
  count_ones re <> 1 -> (2 <= size (part d h q m))%nat.
Proof.
  intros (Hre & _ & H) Hne Hone.
  destruct (count_ones_many re ltac:(lia) Hone) as (a & b & Ha & Hb & Hab & H1 & H2).
  apply H in H1 as [Hqa [ca Hca]], H2 as [Hqb [cb Hcb]]; [|done..].
  destruct (part_nonempty a) as (k & v & Hk & Hnk); [by eapply ok_some|].
  destruct (part_nonempty b) as (k' & v' & Hk' & Hnk'); [by eapply ok_some|].
  apply (size_ge_2 _ k k'); [by intros ->; congruence | exists v | exists v'];
    apply part_lookup; split; congruence.
Qed.

(** Otherwise there are at least two keys in the range. *)
Lemma range_many h q re rl : 0 <= h -> range_of (InternalNode.children i) h q re rl -> re <> 0 ->
  single_child (2 ^ h) re rl = false -> 0 < h /\ (2 <= size (part d h q m))%nat.
Proof.
  intros Hh Hr Hne Hs. pose proof Hr as (Hre & Hrl & H). unfold single_child in Hs.
  apply orb_false_iff in Hs as [Hw Hs]. split.
  { apply Z.eqb_neq in Hw. destruct (Z.eq_dec h 0) as [->|]; [done | lia]. }
  destruct (decide (count_ones re = 1)) as [Hone|Hone]; [|by eapply range_two].
  rewrite Hone in Hs. apply negb_false_iff, Z.eqb_eq in Hs. subst rl.
  destruct (count_ones_1 re ltac:(lia) Hone) as (j & Hj & Hre').
  destruct (range_single h q re 0 j) as (c & Hc & Hn & Hq' & ->); [done..|].
  destruct (ok_some Hok j c Hc) as (_ & Hp & _ & Hl).
  assert (size (part d 0 j m) <> 1%nat) as H1.
  { intros Hsz. apply Hl in Hsz. destruct (H j Hj) as [_ [_ H1]]. rewrite Z.bits_0 in H1.
    discriminate H1. eauto. }
  apply map_size_non_empty_iff in Hp. lia.
Qed.

Lemma merkle_hash_unfold {E} fuel start width bitmaps :
  InternalNode.merkle_hash sha3_256 (E := E) fuel i start width bitmaps =
  '(re, rl) ← InternalNode.range_bitmaps start width bitmaps;
  if re =? 0 then Ok SPARSE_MERKLE_PLACEHOLDER
  else if single_child width re rl then
    j ← Nibble_from (trailing_zeros re); c ← expect (InternalNode.children i !! j); Ok (Child.hash c)
  else
    match fuel with
    | O => Panic
    | S fuel =>
        l ← InternalNode.merkle_hash sha3_256 fuel i start (width / 2) (re, rl);
        r ← InternalNode.merkle_hash sha3_256 fuel i (start + width / 2) (width / 2) (re, rl);
        Ok (SparseMerkleInternalNode.hash sha3_256 (SparseMerkleInternalNode.new l r))
    end.
Proof. by destruct fuel. Qed.

(** The bitmaps of a range are right in each of its halves. *)
Lemma range_half cs h q b re rl : 0 <= h -> range_of cs (h + 1) q re rl ->
  bitmaps_in cs h (2 * q + Z.b2z b) (re, rl).
Proof.
  intros Hh (_ & _ & H) n Hn Hq. destruct (H n Hn) as [H1 H2]. cbn [fst snd]. rewrite H1, H2.
  assert (Z.shiftr n (h + 1) = q); [|tauto].
  rewrite <- Z.shiftr_shiftr, Hq, Z.shiftr_div_pow2 by lia. change (2 ^ 1) with 2.
  rewrite Z.mul_comm, Z.div_add_l by lia.
  assert (Z.b2z b / 2 = 0) as -> by by destruct b. lia.
Qed.

Lemma merkle_hash_spec {E} (h : nat) : forall fuel q bitmaps, (h <= fuel)%nat -> (h <= 4)%nat -> 0 <= q ->
  (q + 1) * 2 ^ Z.of_nat h <= 16 -> bitmaps_in (InternalNode.children i) (Z.of_nat h) q bitmaps ->
  InternalNode.merkle_hash sha3_256 (E := E) fuel i (q * 2 ^ Z.of_nat h) (2 ^ Z.of_nat h) bitmaps =
    Ok (root_hash sha3_256 (canon (4 * h' + h) (part d (Z.of_nat h) q m))).
Proof.
  induction h as [|h IH]; intros fuel q bitmaps Hf Hh Hq Hw Hb; rewrite merkle_hash_unfold;
    destruct (range_bitmaps_of (E := E) _ _ _ _ Hb ltac:(lia) Hq Hw) as (re & rl & -> & Hre); rewrite bind_Ok;
    (destruct (Z.eqb_spec re 0) as [->|Hne]; [by rewrite (range_empty _ _ _ Hre), canon_empty|]).
  all: match goal with |- context [single_child ?w ?x ?y] => destruct (single_child w x y) eqn:Hs end.
  1, 3: destruct (range_only _ _ _ _ (Nat2Z.is_nonneg _) Hq Hre Hne Hs) as (j & c & -> & Hc & Hj & _ & Hp & Hl);
    rewrite nibble_from_ok, bind_Ok, Hc, Hp by done; cbn [expect]; rewrite bind_Ok; f_equal;
    destruct (ok_some Hok j c Hc) as (_ & _ & -> & _).
  - by rewrite Nat.add_0_r.
  - destruct Hl as [?|[_ (k & v & ->)%size_1_singleton]]; [lia|]. by rewrite !canon_singleton.
  - destruct (range_many _ _ _ _ (Nat2Z.is_nonneg _) Hre Hne Hs). lia.
  - destruct (range_many _ _ _ _ (Nat2Z.is_nonneg _) Hre Hne Hs) as [_ Hsz]. destruct fuel as [|fuel]; [lia|].
    rewrite (canon_part d h' h q m (ok_keys Hok) (ok_depth Hok)) by (done || lia).
    rewrite Nat2Z.inj_succ in *. unfold Z.succ in *. rewrite pow2_S in * by lia.
    rewrite (Z.mul_comm 2 (2 ^ Z.of_nat h)), Z.div_mul by lia.
    pose proof (range_half _ _ _ false _ _ (Nat2Z.is_nonneg h) Hre) as Hb0.
    pose proof (range_half _ _ _ true _ _ (Nat2Z.is_nonneg h) Hre) as Hb1. cbn [Z.b2z] in Hb0, Hb1.
    replace (q * (2 ^ Z.of_nat h * 2)) with ((2 * q) * 2 ^ Z.of_nat h) by lia.
    replace ((2 * q) * 2 ^ Z.of_nat h + 2 ^ Z.of_nat h) with ((2 * q + 1) * 2 ^ Z.of_nat h) by lia.
    rewrite Z.add_0_r in Hb0. rewrite (IH fuel (2 * q)), (IH fuel (2 * q + 1)) by (done || lia). done.
Qed.

Lemma internal_hash_spec {E} : (2 <= size m)%nat ->
  InternalNode.hash sha3_256 (E := E) i = Ok (root_hash sha3_256 (canon (4 * S h') m)).
Proof.
  intros Hs. unfold InternalNode.hash.
  destruct (generate_bitmaps_spec (E := E) i) as (bm & -> & Hbm).
  { intros n c Hc. by eapply ok_some. }
  rewrite bind_Ok. rewrite (merkle_hash_spec 4 4 0 bm) by (done || lia).
  rewrite part_whole by apply ok_keys, Hok. do 2 f_equal. f_equal. lia.
Qed.

(** The heights below [h], and the bits of a nibble at these heights. *)
Fixpoint heights (h : nat) : list Z :=
  match h with O => [0] | S h => Z.of_nat (S h) :: heights h end.

Definition low_bits (h : nat) (n : Z) : list bool := Z.testbit n <$> heights h.

Lemma half_start n h : nibble_ok n -> (h < 4)%nat ->
  let b := Z.testbit n (Z.of_nat h) in let p := Z.shiftr n (Z.of_nat (S h)) in
  get_child_and_sibling_half_start n (Z.of_nat h) =
    (Z.shiftr n (Z.of_nat h) * 2 ^ Z.of_nat h, (2 * p + Z.b2z (negb b)) * 2 ^ Z.of_nat h) /\
  Z.shiftr n (Z.of_nat h) = 2 * p + Z.b2z b /\
  (2 * p + Z.b2z (negb b) + 1) * 2 ^ Z.of_nat h <= 16 /\
  (Z.shiftr n (Z.of_nat h) + 1) * 2 ^ Z.of_nat h <= 16 /\ 0 <= p.
Proof.
  intros Hn Hh. red in Hn.
  assert (n ∈ Z.of_nat <$> seq 0 16) as Hin.
  { apply list_elem_of_fmap. exists (Z.to_nat n). split; [lia|]. apply elem_of_seq. lia. }
  rewrite (list_elem_of_In) in Hin. cbn in Hin.
  destruct h as [|[|[|[|h]]]]; [| | | |lia]; repeat destruct Hin as [<-|Hin]; done.
Qed.

Definition siblings_result {E} (ns : list Z) (n : Z) (rest : list bool) (h : nat)
    (siblings : list HashValue.t) (res : outcome E (option NodeKey.t * list HashValue.t)) : Prop :=
  exists r new, res = Ok (r, siblings ++ new) /\
    let t := canon (4 * h' + S h) (part d (Z.of_nat (S h)) (Z.shiftr n (Z.of_nat (S h))) m) in
    let bits := low_bits h n ++ rest in
    match r with
    | None => prove sha3_256 t bits = (None, rev new) /\ part d 0 n m = ∅
    | Some ck => exists j c, InternalNode.children i !! j = Some c /\ ck = key_at (Child.version c) (ns ++ [j]) /\
        prove sha3_256 t bits =
          (let '(lf, ss) := prove sha3_256 (canon (4 * h') (part d 0 j m)) rest in (lf, ss ++ rev new)) /\
        (j = n \/ Child.is_leaf c = true /\ part d 0 n m = ∅)
    end.

Lemma part_refine n h : 0 <= h -> part d 0 n m ⊆ part d h (Z.shiftr n h) m.
Proof.
  intros Hh. apply map_subseteq_spec. intros k v. rewrite !part_lookup, Z.shiftr_0_r. by intros [Hk ->].
Qed.

Lemma heights_cons h : heights h = Z.of_nat h :: match h with O => [] | S h => heights h end.
Proof. by destruct h. Qed.

(** The path through one level of the tree. *)
Lemma prove_level n h bits : nibble_ok n -> (h < 4)%nat ->
  (2 <= size (part d (Z.of_nat (S h)) (Z.shiftr n (Z.of_nat (S h))) m))%nat ->
  let b := Z.testbit n (Z.of_nat h) in
  prove sha3_256 (canon (4 * h' + S h) (part d (Z.of_nat (S h)) (Z.shiftr n (Z.of_nat (S h))) m)) (b :: bits) =
  let '(lf, ss) := prove sha3_256 (canon (4 * h' + h) (part d (Z.of_nat h) (Z.shiftr n (Z.of_nat h)) m)) bits in
  (lf, ss ++ [root_hash sha3_256 (canon (4 * h' + h)
      (part d (Z.of_nat h) (2 * Z.shiftr n (Z.of_nat (S h)) + Z.b2z (negb b)) m))]).
Proof.
  intros Hn Hh Hsz. cbv zeta. destruct (half_start n h Hn Hh) as (_ & -> & _).
  rewrite (canon_part d h' h _ m (ok_keys Hok) (ok_depth Hok) Hh Hsz). cbn [prove].
  destruct (Z.testbit n (Z.of_nat h)); cbn [negb Z.b2z]; by rewrite Z.add_0_r.
Qed.

Lemma siblings_loop_spec {E} v ns n rest bm (h : nat) : forall siblings,
  Forall nibble_ok ns -> length ns = d -> nibble_ok n -> (h < 4)%nat ->
  (forall h q, bitmaps_in (InternalNode.children i) h q bm) ->
  (2 <= size (part d (Z.of_nat (S h)) (Z.shiftr n (Z.of_nat (S h))) m))%nat ->
  siblings_result ns n rest h siblings
    (InternalNode.siblings_loop sha3_256 (E := E) i (key_at v ns) n bm (heights h) siblings).
Proof.
  induction h as [h IH] using lt_wf_ind; intros siblings Hns Hd Hn Hh Hbm Hsz.
  pose proof (ok_depth Hok) as Hdepth.
  pose proof (fun bits => prove_level n h bits Hn Hh Hsz) as Hprove. cbv zeta in Hprove.
  destruct (half_start n h Hn Hh) as (Hhs & Hq & Hw1 & Hw2 & Hp).
  unfold siblings_result, low_bits. rewrite heights_cons. cbn [InternalNode.siblings_loop fmap list_fmap].
  rewrite Z.shiftl_1_l, Hhs. cbv beta iota zeta. cbn [app].
  set (p := Z.shiftr n (Z.of_nat (S h))) in *. set (b := Z.testbit n (Z.of_nat h)) in *.
  assert (0 <= 2 * p + Z.b2z (negb b)) by (destruct b; cbn; lia).
  assert (0 <= Z.shiftr n (Z.of_nat h)) as Hq0 by (rewrite Hq; destruct b; cbn; lia).
  rewrite (merkle_hash_spec h 4 (2 * p + Z.b2z (negb b)) bm) by (done || lia). rewrite bind_Ok.
  destruct (range_bitmaps_of (E := E) _ _ _ _ (Hbm (Z.of_nat h) (Z.shiftr n (Z.of_nat h)))) as (re & rl & -> & Hre);
    [lia | done | done |]. rewrite bind_Ok.
  set (sib := root_hash _ _) in *. rewrite Hprove. clear Hprove.
  pose proof (part_refine n (Z.of_nat h) ltac:(lia)) as Href.
  destruct (Z.eqb_spec re 0) as [->|Hne].
  { exists None, [sib]. split; [done|]. rewrite (range_empty _ _ _ Hre) in *. rewrite canon_empty.
    split; [by destruct h|]. apply (anti_symm (⊆)); [done | apply map_empty_subseteq]. }
  change (_ || _) with (single_child (2 ^ Z.of_nat h) re rl).
  destruct (single_child _ _ _) eqn:Hs.
  - destruct (range_only _ _ _ _ (Nat2Z.is_nonneg _) Hq0 Hre Hne Hs)
      as (j & c & -> & Hc & Hj & Hjq & Hpart & Hl).
    rewrite nibble_from_ok, bind_Ok, Hc by done. cbn [expect]. rewrite bind_Ok.
    rewrite gen_child_key_at, bind_Ok by (done || lia).
    exists (Some (key_at (Child.version c) (ns ++ [j]))), [sib]. split; [done|]. exists j, c.
    split; [done|]. split; [done|]. rewrite Hpart in *. destruct Hl as [Hh0|[Hl Hsz1]].
    + destruct h; [|lia]. cbn [Z.of_nat] in *. rewrite Z.shiftr_0_r in *. subst j.
      rewrite Nat.add_0_r. cbn [app]. split; [done | by left].
    + destruct (size_1_singleton _ Hsz1) as (k & x & Hkx). rewrite Hkx in *. rewrite !canon_singleton.
      split; [by destruct h|]. destruct (decide (j = n)) as [|Hjn]; [by left|]. right. split; [done|].
      apply map_empty. intros k'. apply eq_None_not_Some. intros [v' Hv'].
      pose proof (lookup_weaken _ _ _ _ Hv' Href) as Hk'. rewrite <- Hkx in Hk'.
      apply part_lookup in Hv' as [_ H1], Hk' as [_ H2]. congruence.
  - destruct (range_many _ _ _ _ (Nat2Z.is_nonneg _) Hre Hne Hs) as [Hpos Hsz'].
    destruct h as [|h]; [lia|].
    destruct (IH h ltac:(lia) (siblings ++ [sib])) as (r & new & -> & Hr); [done..|lia|done|done|].
    exists r, (sib :: new). rewrite <- app_assoc. split; [done|]. cbv zeta in Hr. destruct r as [ck|].
    + destruct Hr as (j & c & Hc & -> & Hr & Hj). exists j, c. split_and!; [done..| |done].
      change (Z.testbit n <$> heights h) with (low_bits h n). rewrite Hr.
      clear Hr. destruct (prove _ _ rest) as [lf ss]. cbn [rev]. by rewrite app_assoc.
    + destruct Hr as [Hr Hemp]. change (Z.testbit n <$> heights h) with (low_bits h n). by rewrite Hr.
Qed.

Lemma get_child_with_siblings_spec {E} v ns n rest : Forall nibble_ok ns -> length ns = d -> nibble_ok n ->
  (2 <= size m)%nat ->
  exists r new, InternalNode.get_child_with_siblings sha3_256 (E := E) i (key_at v ns) n = Ok (r, new) /\
    match r with
    | None => prove sha3_256 (canon (4 * S h') m) (nibble_bits n ++ rest) = (None, rev new) /\ part d 0 n m = ∅
    | Some ck => exists j c, InternalNode.children i !! j = Some c /\ ck = key_at (Child.version c) (ns ++ [j]) /\
        prove sha3_256 (canon (4 * S h') m) (nibble_bits n ++ rest) =
          (let '(lf, ss) := prove sha3_256 (canon (4 * h') (part d 0 j m)) rest in (lf, ss ++ rev new)) /\
        (j = n \/ Child.is_leaf c = true /\ part d 0 n m = ∅)
    end.
Proof.
  intros Hns Hd Hn Hs. unfold InternalNode.get_child_with_siblings.
  destruct (generate_bitmaps_spec (E := E) i) as (bm & -> & Hbm); [intros x c Hc; by eapply ok_some|].
  rewrite bind_Ok. change [3; 2; 1; 0] with (heights 3).
  assert (Z.shiftr n (Z.of_nat 4) = 0) as H0.
  { red in Hn. rewrite Z.shiftr_div_pow2 by lia. apply Z.div_small. lia. }
  destruct (siblings_loop_spec (E := E) v ns n rest bm 3 []) as (r & new & -> & Hr);
    [done..|lia|done| |].
  { by rewrite H0, part_whole by apply ok_keys, Hok. }
  exists r, new. split; [done|]. cbv zeta in Hr. rewrite H0, part_whole in Hr by apply ok_keys, Hok.
  replace (4 * S h')%nat with (4 * h' + 4)%nat by lia. exact Hr.
Qed.

End node.
