(* ===== verification/TreeCache.v ===== *)
(** * The cache of tree updates (storage/jellyfish-merkle/src/tree_cache/mod.rs)

    [TreeReader] is the interface to the stored nodes, [TreeCache] the nodes of
    the transaction in progress over the frozen ones of the transactions before
    it, and [TreeUpdateBatch] what is written in the end. *)
From stdpp Require Import prelude gmap strings.
From Stdlib Require Import ZArith Lia.
From S2P Require Import Prelude Bits HashValues SparseMerkle Nibbles JellyfishNodes.

(** [trait TreeReader]: what the tree uses of the storage below it. *)
Class TreeReader (R V : Type) := {
  get_node_option : R -> NodeKey.t -> outcome error (option (Node.t V))
}.

(** [TreeReader::get_node], the provided method. *)
Definition reader_get_node `{TreeReader R V} (reader : R) (node_key : NodeKey.t) : outcome error (Node.t V) :=
  node ← get_node_option reader node_key;
  ok_or node (Message "Missing node at node_key").

Module NodeStats.
Record t := mk { new_nodes : nat; new_leaves : Z; stale_nodes : nat; stale_leaves : Z }.
End NodeStats.

Module StaleNodeIndex.
Record t := mk { stale_since_version : Z; node_key : NodeKey.t }.

#[global] Instance t_eq_dec : EqDecision t.
Proof. solve_decision. Defined.

#[global] Instance t_countable : Countable t.
Proof.
  apply (inj_countable' (fun x => (stale_since_version x, node_key x)) (fun x => mk x.1 x.2)). by intros [].
Defined.
End StaleNodeIndex.

Module TreeUpdateBatch.
Record t {V} := mk {
  node_batch : gmap NodeKey.t (Node.t V);
  stale_node_index_batch : gset StaleNodeIndex.t;
  node_stats : list NodeStats.t
}.
Arguments t V : clear implicits.
End TreeUpdateBatch.

Module FrozenTreeCache.
Record t {V} := mk {
  node_cache : gmap NodeKey.t (Node.t V);
  stale_node_index_cache : gset StaleNodeIndex.t;
  node_stats : list NodeStats.t;
  root_hashes : list HashValue.t
}.
Arguments t V : clear implicits.

Definition new {V} : t V := mk _ ∅ ∅ [] [].
End FrozenTreeCache.

Module TreeCache.

(** [PRE_GENESIS_VERSION] of types/src/transaction/mod.rs. *)
Definition PRE_GENESIS_VERSION : Z := u64_max.

Record t {R V} := mk {
  root_node_key : NodeKey.t;
  next_version : Z;
  node_cache : gmap NodeKey.t (Node.t V);
  num_new_leaves : Z;
  stale_node_index_cache : gset NodeKey.t;
  num_stale_leaves : Z;
  frozen_cache : FrozenTreeCache.t V;
  reader : R
}.
Arguments t R V : clear implicits.
Arguments mk {R V}.

Section cache.
Context (sha3_256 : list Z -> HashValue.t) {R V : Type} `{TreeReader R V}.

Definition new (reader : R) (next_version : Z) : outcome error (t R V) :=
  '(root_node_key, node_cache) ←
    (if next_version =? 0 then
       let pre_genesis_root_key := NodeKey.new_empty_path PRE_GENESIS_VERSION in
       pre_genesis_root ← get_node_option reader pre_genesis_root_key;
       match pre_genesis_root with
       | Some _ => Ok (pre_genesis_root_key, ∅)
       | None =>
           let genesis_root_key := NodeKey.new_empty_path 0 in
           Ok (genesis_root_key, {[genesis_root_key := Node.Null]})
       end
     else Ok (NodeKey.new_empty_path (next_version - 1)%u64, ∅));
  Ok (mk root_node_key next_version node_cache 0 ∅ 0 FrozenTreeCache.new reader).

Definition get_node (self : t R V) (node_key : NodeKey.t) : outcome error (Node.t V) :=
  match node_cache self !! node_key with
  | Some node => Ok node
  | None =>
      match FrozenTreeCache.node_cache (frozen_cache self) !! node_key with
      | Some node => Ok node
      | None => reader_get_node (reader self) node_key
      end
  end.

Definition set_root_node_key (root_node_key : NodeKey.t) (self : t R V) : t R V :=
  mk root_node_key (next_version self) (node_cache self) (num_new_leaves self)
    (stale_node_index_cache self) (num_stale_leaves self) (frozen_cache self) (reader self).

Definition put_node (node_key : NodeKey.t) (new_node : Node.t V) : action (t R V) error unit := fun self =>
  match node_cache self !! node_key with
  | None =>
      (mk (root_node_key self) (next_version self) (<[node_key := new_node]> (node_cache self))
         (if Node.is_leaf new_node then (num_new_leaves self + 1)%u64 else num_new_leaves self)
         (stale_node_index_cache self) (num_stale_leaves self) (frozen_cache self) (reader self), Ok tt)
  | Some _ => (self, Err (Message "Node with key already exists in NodeBatch"))
  end.

Definition delete_node (old_node_key : NodeKey.t) (is_leaf : bool) : action (t R V) error unit := fun self =>
  match node_cache self !! old_node_key with
  | None =>
      if decide (old_node_key ∈ stale_node_index_cache self) then (self, Panic)
      else
        (mk (root_node_key self) (next_version self) (node_cache self) (num_new_leaves self)
           ({[old_node_key]} ∪ stale_node_index_cache self)
           (if is_leaf then (num_stale_leaves self + 1)%u64 else num_stale_leaves self)
           (frozen_cache self) (reader self), Ok tt)
  | Some _ =>
      (mk (root_node_key self) (next_version self) (delete old_node_key (node_cache self))
         (if is_leaf then (num_new_leaves self - 1)%u64 else num_new_leaves self)
         (stale_node_index_cache self) (num_stale_leaves self) (frozen_cache self) (reader self), Ok tt)
  end.

(** The entries of the cache replace those of the frozen one with the same key. *)
Definition freeze : action (t R V) error unit := fun self =>
  match (match get_node self (root_node_key self) with Ok node => Node.hash sha3_256 node | _ => Panic end) with
  | Ok root_hash =>
      let node_stats := NodeStats.mk (size (node_cache self)) (num_new_leaves self)
        (size (stale_node_index_cache self)) (num_stale_leaves self) in
      let stale_since_version := next_version self in
      let frozen := frozen_cache self in
      let frozen := FrozenTreeCache.mk _ (node_cache self ∪ FrozenTreeCache.node_cache frozen)
        (set_map (StaleNodeIndex.mk stale_since_version) (stale_node_index_cache self) ∪
           FrozenTreeCache.stale_node_index_cache frozen)
        (FrozenTreeCache.node_stats frozen ++ [node_stats])
        (FrozenTreeCache.root_hashes frozen ++ [root_hash]) in
      (mk (root_node_key self) (next_version self + 1)%u64 ∅ 0 ∅ 0 frozen (reader self), Ok tt)
  | Err e => (self, Err e)
  | Panic => (self, Panic)
  end.

(** [From<TreeCache> for (Vec<HashValue>, TreeUpdateBatch)] *)
Definition into (tree_cache : t R V) : list HashValue.t * TreeUpdateBatch.t V :=
  (FrozenTreeCache.root_hashes (frozen_cache tree_cache),
   TreeUpdateBatch.mk _ (FrozenTreeCache.node_cache (frozen_cache tree_cache))
     (FrozenTreeCache.stale_node_index_cache (frozen_cache tree_cache))
     (FrozenTreeCache.node_stats (frozen_cache tree_cache))).

End cache.
End TreeCache.
