(* ===== verification/Jellyfish.v ===== *)
(** * The Jellyfish Merkle tree (storage/jellyfish-merkle/src/lib.rs)

    [put_value_sets] inserts key by key, [batch_put_value_sets] splits a sorted
    batch among the children of a node; both write the nodes of the new versions
    into a [TreeCache]. [get_with_proof] and [get_range_proof] read a version.
    The depth of the recursion is bounded by the 64 nibbles of a key: the
    recursive functions take a fuel that starts at 65. *)
From stdpp Require Import prelude gmap sorting strings.
From Stdlib Require Import ZArith Lia.
From S2P Require Import Prelude Bits HashValues SparseMerkle Nibbles JellyfishNodes TreeCache.

(** ** Batches sorted by key *)

(** The derived order of [[u8; 32]]. *)
Fixpoint bytes_leb (xs ys : list Z) : bool :=
  match xs, ys with
  | [], _ => true
  | _ :: _, [] => false
  | x :: xs, y :: ys => (x <? y) || ((x =? y) && bytes_leb xs ys)
  end.

Definition kv_le {V} (x y : HashValue.t * V) : Prop :=
  bytes_leb (HashValue.hash x.1) (HashValue.hash y.1) = true.

#[global] Instance kv_le_dec {V} : RelDecision (@kv_le V).
Proof. intros x y. unfold kv_le. apply _. Defined.

(** [value_set.into_iter().collect::<BTreeMap<_, _>>().into_iter().collect::<Vec<_>>()]:
    the last value of each key, in the order of the keys. *)
Definition dedup_and_sort {V} (value_set : list (HashValue.t * V)) : list (HashValue.t * V) :=
  merge_sort kv_le (map_to_list (list_to_map (M := gmap HashValue.t V) (rev value_set))).

(** [NibbleExt::get_nibble] *)
Definition get_nibble {E} (self : HashValue.t) (index : nat) : outcome E Z :=
  byte ← expect (HashValue.hash self !! (index / 2)%nat);
  Nibble_from (if Nat.even index then Z.shiftr byte 4 else Z.land byte 15).

Module NibbleRangeIterator.
Section iterator.
Context {V : Type}.

Record t := mk {
  sorted_kvs : list (HashValue.t * V);
  nibble_idx : nat;
  pos : nat
}.

Definition new {E} (sorted_kvs : list (HashValue.t * V)) (nibble_idx : nat) : outcome E t :=
  assert_ (nibble_idx <? ROOT_NIBBLE_HEIGHT)%nat ;;
  Ok (mk sorted_kvs nibble_idx 0).

(** [self.sorted_kvs[i].0.nibble(self.nibble_idx)] *)
Definition nibble_at {E} (self : t) (i : nat) : outcome E Z :=
  kv ← expect (sorted_kvs self !! i); expect (HashValue.nibble kv.1 (nibble_idx self)).

(** The binary search for the last index of the nibble: [j - i] shrinks. *)
Fixpoint search {E} (fuel : nat) (self : t) (cur_nibble : Z) (i j : nat) : outcome E nat :=
  if (i <? j)%nat then
    match fuel with
    | O => Panic
    | S fuel =>
        let mid := (j - (j - i) / 2)%nat in
        nibble ← nibble_at self mid;
        if cur_nibble <? nibble then search fuel self cur_nibble i (mid - 1)
        else search fuel self cur_nibble mid j
    end
  else Ok i.

Definition next {E} (self : t) : outcome E (t * option (nat * nat)) :=
  let left := pos self in
  if (pos self <? length (sorted_kvs self))%nat then
    cur_nibble ← nibble_at self left;
    i ← search (length (sorted_kvs self)) self cur_nibble left (length (sorted_kvs self) - 1);
    Ok (mk (sorted_kvs self) (nibble_idx self) (i + 1), Some (left, i))
  else Ok (self, None).

(** What [next] returns until it returns [None]: [pos] grows. *)
Fixpoint items {E} (fuel : nat) (self : t) : outcome E (list (nat * nat)) :=
  match fuel with
  | O => Panic
  | S fuel =>
      '(self, range) ← next self;
      match range with
      | None => Ok []
      | Some range => ranges ← items fuel self; Ok (range :: ranges)
      end
  end.
End iterator.
Arguments t V : clear implicits.
End NibbleRangeIterator.

(** The ranges a [for] loop over [NibbleRangeIterator::new(kvs, depth)] visits. *)
Definition nibble_ranges {E V} (kvs : list (HashValue.t * V)) (depth : nat) : outcome E (list (nat * nat)) :=
  iter ← NibbleRangeIterator.new kvs depth;
  NibbleRangeIterator.items (S (length kvs)) iter.

(** [&kvs[left..=right]] *)
Definition slice {A} (kvs : list A) (left right : nat) : list A := take (S right - left) (drop left kvs).

Module JellyfishMerkleTree.
Section tree.
Context (sha3_256 : list Z -> HashValue.t) {R V : Type} {HR : TreeReader R V} {HV : Value V}.

Record t := new_migration { reader : R; leaf_count_migration : bool }.

Abbreviation tree_action := (action (TreeCache.t R V) error).

(** ** Insertion key by key *)

Definition create_leaf_node (node_key : NodeKey.t) (nibble_iter : NibbleIterator.t) (value : V)
    : tree_action (NodeKey.t * Node.t V) :=
  nibble_path ← lift (NibbleIterator.get_nibble_path nibble_iter);
  account_key ← lift (match HashValue.from_slice (NibblePath.bytes nibble_path) with
                      | Ok key => Ok key | _ => Panic end);
  let new_leaf_node := Node.new_leaf account_key value in
  TreeCache.put_node node_key new_leaf_node ;;
  mret (node_key, new_leaf_node).

(** The loop that puts internal nodes with a single child above the fork. *)
Fixpoint parents_loop (self : t) (n : nat) (version : Z) (common_nibble_path : NibblePath.t)
    (node_key : NodeKey.t) (next_internal_node : Node.t V) : tree_action (NodeKey.t * Node.t V) :=
  match n with
  | O => mret (node_key, next_internal_node)
  | S n =>
      '(common_nibble_path, popped) ← lift (NibblePath.pop common_nibble_path);
      nibble ← lift (expect popped);
      let node_key := NodeKey.new version common_nibble_path in
      hash ← lift (Node.hash sha3_256 next_internal_node);
      node_type ← lift (Node.node_type next_internal_node);
      let children : Children := {[nibble := Child.new hash version node_type]} in
      internal_node ← lift (InternalNode.new_migration children (leaf_count_migration self));
      TreeCache.put_node node_key (Node.Internal internal_node) ;;
      parents_loop self n version common_nibble_path node_key (Node.Internal internal_node)
  end.

Definition insert_at_leaf_node (self : t) (node_key : NodeKey.t) (existing_leaf_node : LeafNode.t V)
    (version : Z) (nibble_iter : NibbleIterator.t) (value : V) : tree_action (NodeKey.t * Node.t V) :=
  TreeCache.delete_node node_key true ;;
  let visited_nibble_iter := NibbleIterator.visited_nibbles nibble_iter in
  existing_leaf_nibble_path ← lift (NibblePath.new (HashValue.hash (LeafNode.account_key existing_leaf_node)));
  let existing_leaf_nibble_iter := NibbleIterator.nibbles existing_leaf_nibble_path in
  '(_, visited_nibble_iter, existing_leaf_nibble_iter) ←
    lift (NibbleIterator.skip_common_prefix visited_nibble_iter existing_leaf_nibble_iter);
  finished ← lift (NibbleIterator.is_finished visited_nibble_iter);
  lift (assert_ finished) ;;
  let existing_leaf_nibble_iter_below_internal := NibbleIterator.remaining_nibbles existing_leaf_nibble_iter in
  '(num_common_nibbles_below_internal, nibble_iter, existing_leaf_nibble_iter_below_internal) ←
    lift (NibbleIterator.skip_common_prefix nibble_iter existing_leaf_nibble_iter_below_internal);
  visited ← lift (NibbleIterator.items (NibbleIterator.visited_nibbles nibble_iter));
  common_nibble_path ← lift (NibblePath.from_iter visited);
  finished ← lift (NibbleIterator.is_finished nibble_iter);
  if finished : bool then
    finished ← lift (NibbleIterator.is_finished existing_leaf_nibble_iter_below_internal);
    lift (assert_ finished) ;;
    create_leaf_node (NodeKey.set_version node_key version) nibble_iter value
  else
    '(_, index) ← lift (NibbleIterator.next existing_leaf_nibble_iter_below_internal);
    existing_leaf_index ← lift (expect index);
    '(nibble_iter, index) ← lift (NibbleIterator.next nibble_iter);
    new_leaf_index ← lift (expect index);
    lift (assert_ (negb (existing_leaf_index =? new_leaf_index))) ;;
    let children : Children :=
      {[existing_leaf_index := Child.new (LeafNode.hash sha3_256 existing_leaf_node) version NodeType.Leaf]} in
    let node_key := NodeKey.new version common_nibble_path in
    existing_leaf_key ← lift (NodeKey.gen_child_node_key node_key version existing_leaf_index);
    TreeCache.put_node existing_leaf_key (Node.Leaf existing_leaf_node) ;;
    new_leaf_key ← lift (NodeKey.gen_child_node_key node_key version new_leaf_index);
    '(_, new_leaf_node) ← create_leaf_node new_leaf_key nibble_iter value;
    new_leaf_hash ← lift (Node.hash sha3_256 new_leaf_node);
    let children := <[new_leaf_index := Child.new new_leaf_hash version NodeType.Leaf]> children in
    internal_node ← lift (InternalNode.new_migration children (leaf_count_migration self));
    TreeCache.put_node node_key (Node.Internal internal_node) ;;
    parents_loop self num_common_nibbles_below_internal version common_nibble_path node_key
      (Node.Internal internal_node).

(** [insert_at] is the recursive call. *)
Definition insert_at_internal_node (self : t)
    (insert_at : NodeKey.t -> NibbleIterator.t -> tree_action (NodeKey.t * Node.t V))
    (node_key : NodeKey.t) (internal_node : InternalNode.t) (version : Z)
    (nibble_iter : NibbleIterator.t) (value : V) : tree_action (NodeKey.t * Node.t V) :=
  TreeCache.delete_node node_key false ;;
  '(nibble_iter, index) ← lift (NibbleIterator.next nibble_iter);
  child_index ← lift (expect index);
  '(_, new_child_node) ←
    match InternalNode.children internal_node !! child_index with
    | Some child =>
        child_node_key ← lift (NodeKey.gen_child_node_key node_key (Child.version child) child_index);
        insert_at child_node_key nibble_iter
    | None =>
        new_child_node_key ← lift (NodeKey.gen_child_node_key node_key version child_index);
        create_leaf_node new_child_node_key nibble_iter value
    end;
  hash ← lift (Node.hash sha3_256 new_child_node);
  node_type ← lift (Node.node_type new_child_node);
  let children := <[child_index := Child.new hash version node_type]> (InternalNode.children internal_node) in
  new_internal_node ← lift (InternalNode.new_migration children (leaf_count_migration self));
  let node_key := NodeKey.set_version node_key version in
  TreeCache.put_node node_key (Node.Internal new_internal_node) ;;
  mret (node_key, Node.Internal new_internal_node).

Fixpoint insert_at (self : t) (fuel : nat) (node_key : NodeKey.t) (version : Z)
    (nibble_iter : NibbleIterator.t) (value : V) : tree_action (NodeKey.t * Node.t V) :=
  match fuel with
  | O => lift Panic
  | S fuel => fun tree_cache =>
      match TreeCache.get_node tree_cache node_key with
      | Err e => (tree_cache, Err e)
      | Panic => (tree_cache, Panic)
      | Ok (Node.Internal internal_node) =>
          insert_at_internal_node self
            (fun child_node_key nibble_iter => insert_at self fuel child_node_key version nibble_iter value)
            node_key internal_node version nibble_iter value tree_cache
      | Ok (Node.Leaf leaf_node) =>
          insert_at_leaf_node self node_key leaf_node version nibble_iter value tree_cache
      | Ok Node.Null =>
          (lift (ensure (NibblePath.is_empty (NodeKey.nibble_path node_key))
             (Message "Null node exists for non-root node with node_key")) ;;
           (if NodeKey.version node_key =? version then TreeCache.delete_node node_key false else mret tt) ;;
           create_leaf_node (NodeKey.new_empty_path version) nibble_iter value) tree_cache
      end
  end.

Definition put (self : t) (key : HashValue.t) (value : V) (version : Z) : tree_action unit :=
  nibble_path ← lift (NibblePath.new (HashValue.hash key));
  root_node_key ← gets TreeCache.root_node_key;
  let nibble_iter := NibbleIterator.nibbles nibble_path in
  '(new_root_node_key, _) ← insert_at self (S ROOT_NIBBLE_HEIGHT) root_node_key version nibble_iter value;
  modify (TreeCache.set_root_node_key new_root_node_key).

(** The body of the loop of [put_value_sets]; the loop carries [idx]. *)
Definition put_value_set (self : t) (first_version : Z) (idx : Z) (value_set : list (HashValue.t * V))
    : tree_action Z :=
  lift (assert_ (negb (length value_set =? 0)%nat)) ;;
  let version := (first_version + idx)%u64 in
  try_fold (fun _ '(key, value) => put self key value version) tt value_set ;;
  TreeCache.freeze sha3_256 ;;
  mret (idx + 1).

Definition put_value_sets (self : t) (value_sets : list (list (HashValue.t * V))) (first_version : Z)
    : outcome error (list HashValue.t * TreeUpdateBatch.t V) :=
  tree_cache ← TreeCache.new (reader self) first_version;
  match try_fold (put_value_set self first_version) 0 value_sets tree_cache with
  | (tree_cache, Ok _) => Ok (TreeCache.into tree_cache)
  | (_, Err e) => Err e
  | (_, Panic) => Panic
  end.

(** ** Insertion in batches *)

Definition get_hash (node_key : NodeKey.t) (node : Node.t V)
    (hash_cache : option (gmap NibblePath.t HashValue.t)) : outcome error HashValue.t :=
  match hash_cache with
  | Some cache => expect (cache !! NodeKey.nibble_path node_key)
  | None => Node.hash sha3_256 node
  end.

(** [children.insert(child_index, Child::new(..))] at the end of the loops. *)
Definition insert_child (children : Children) (child_index version : Z)
    (hash_cache : option (gmap NibblePath.t HashValue.t)) (node : NodeKey.t * Node.t V)
    : tree_action Children :=
  let '(new_child_node_key, new_child_node) := node in
  hash ← lift (get_hash new_child_node_key new_child_node hash_cache);
  node_type ← lift (Node.node_type new_child_node);
  mret (<[child_index := Child.new hash version node_type]> children).

(** The key at the start of a range and the nibble that is its child index. *)
Definition range_index (kvs : list (HashValue.t * V)) (left depth : nat) : outcome error Z :=
  kv ← expect (kvs !! left); get_nibble kv.1 depth.

Fixpoint batch_create_subtree (self : t) (fuel : nat) (node_key : NodeKey.t) (version : Z)
    (kvs : list (HashValue.t * V)) (depth : nat) (hash_cache : option (gmap NibblePath.t HashValue.t))
    : tree_action (NodeKey.t * Node.t V) :=
  match fuel with
  | O => lift Panic
  | S fuel =>
      match kvs with
      | [(key, value)] =>
          let new_leaf_node := Node.new_leaf key value in
          TreeCache.put_node node_key new_leaf_node ;;
          mret (node_key, new_leaf_node)
      | _ =>
          ranges ← lift (nibble_ranges kvs depth);
          children ← try_fold (fun children '(l, r) =>
              child_index ← lift (range_index kvs l depth);
              child_node_key ← lift (NodeKey.gen_child_node_key node_key version child_index);
              node ← batch_create_subtree self fuel child_node_key version (slice kvs l r)
                       (depth + 1) hash_cache;
              insert_child children child_index version hash_cache node)
            ∅ ranges;
          new_internal_node ← lift (InternalNode.new_migration children (leaf_count_migration self));
          TreeCache.put_node node_key (Node.Internal new_internal_node) ;;
          mret (node_key, Node.Internal new_internal_node)
      end
  end.

Fixpoint batch_create_subtree_with_existing_leaf (self : t) (fuel : nat) (node_key : NodeKey.t) (version : Z)
    (existing_leaf_node : LeafNode.t V) (kvs : list (HashValue.t * V)) (depth : nat)
    (hash_cache : option (gmap NibblePath.t HashValue.t)) : tree_action (NodeKey.t * Node.t V) :=
  match fuel with
  | O => lift Panic
  | S fuel =>
      let existing_leaf_key := LeafNode.account_key existing_leaf_node in
      match (match kvs with
             | [(key, value)] => if decide (key = existing_leaf_key) then Some value else None
             | _ => None
             end) with
      | Some value =>
          let new_leaf_node := Node.new_leaf existing_leaf_key value in
          TreeCache.put_node node_key new_leaf_node ;;
          mret (node_key, new_leaf_node)
      | None =>
          existing_leaf_bucket ← lift (get_nibble existing_leaf_key depth);
          ranges ← lift (nibble_ranges kvs depth);
          '(isolated_existing_leaf, children) ← try_fold (fun '(isolated_existing_leaf, children) '(l, r) =>
              child_index ← lift (range_index kvs l depth);
              child_node_key ← lift (NodeKey.gen_child_node_key node_key version child_index);
              node ← (if existing_leaf_bucket =? child_index then
                  batch_create_subtree_with_existing_leaf self fuel child_node_key version
                    existing_leaf_node (slice kvs l r) (depth + 1) hash_cache
                else
                  batch_create_subtree self fuel child_node_key version (slice kvs l r)
                    (depth + 1) hash_cache);
              children ← insert_child children child_index version hash_cache node;
              mret (isolated_existing_leaf && negb (existing_leaf_bucket =? child_index), children))
            (true, ∅) ranges;
          children ← (if isolated_existing_leaf : bool then
              existing_leaf_node_key ← lift (NodeKey.gen_child_node_key node_key version existing_leaf_bucket);
              let children := <[existing_leaf_bucket :=
                Child.new (LeafNode.hash sha3_256 existing_leaf_node) version NodeType.Leaf]> children in
              TreeCache.put_node existing_leaf_node_key (Node.Leaf existing_leaf_node) ;;
              mret children
            else mret children);
          new_internal_node ← lift (InternalNode.new_migration children (leaf_count_migration self));
          TreeCache.put_node node_key (Node.Internal new_internal_node) ;;
          mret (node_key, Node.Internal new_internal_node)
      end
  end.

Fixpoint batch_insert_at (self : t) (fuel : nat) (node_key : NodeKey.t) (version : Z)
    (kvs : list (HashValue.t * V)) (depth : nat) (hash_cache : option (gmap NibblePath.t HashValue.t))
    : tree_action (NodeKey.t * Node.t V) :=
  match fuel with
  | O => lift Panic
  | S fuel => fun tree_cache =>
      match (assert_ (negb (length kvs =? 0)%nat) ;; TreeCache.get_node tree_cache node_key) with
      | Err e => (tree_cache, Err e)
      | Panic => (tree_cache, Panic)
      | Ok (Node.Internal internal_node) =>
          (TreeCache.delete_node node_key false ;;
           ranges ← lift (nibble_ranges kvs depth);
           children ← try_fold (fun children '(l, r) =>
               child_index ← lift (range_index kvs l depth);
               node ← match InternalNode.children internal_node !! child_index with
                      | Some child =>
                          child_node_key ← lift (NodeKey.gen_child_node_key node_key (Child.version child) child_index);
                          batch_insert_at self fuel child_node_key version (slice kvs l r)
                            (depth + 1) hash_cache
                      | None =>
                          new_child_node_key ← lift (NodeKey.gen_child_node_key node_key version child_index);
                          batch_create_subtree self (S fuel) new_child_node_key version (slice kvs l r)
                            (depth + 1) hash_cache
                      end;
               insert_child children child_index version hash_cache node)
             (InternalNode.children internal_node) ranges;
           new_internal_node ← lift (InternalNode.new_migration children (leaf_count_migration self));
           let node_key := NodeKey.set_version node_key version in
           TreeCache.put_node node_key (Node.Internal new_internal_node) ;;
           mret (node_key, Node.Internal new_internal_node)) tree_cache
      | Ok (Node.Leaf leaf_node) =>
          (TreeCache.delete_node node_key true ;;
           let node_key := NodeKey.set_version node_key version in
           batch_create_subtree_with_existing_leaf self (S fuel) node_key version leaf_node kvs depth
             hash_cache) tree_cache
      | Ok Node.Null =>
          (lift (ensure (NibblePath.is_empty (NodeKey.nibble_path node_key))
             (Message "Null node exists for non-root node with node_key")) ;;
           (if NodeKey.version node_key =? version then TreeCache.delete_node node_key false else mret tt) ;;
           batch_create_subtree self (S fuel) (NodeKey.new_empty_path version) version kvs depth
             hash_cache) tree_cache
      end
  end.

(** The body of the loop of [batch_put_value_sets]; the loop carries [idx]. *)
Definition batch_put_value_set (self : t) (first_version : Z) (idx : Z)
    (sets : list (HashValue.t * V) * option (gmap NibblePath.t HashValue.t)) : tree_action Z :=
  let '(value_set, hash_set) := sets in
  lift (assert_ (negb (length value_set =? 0)%nat)) ;;
  let version := (first_version + idx)%u64 in
  let deduped_and_sorted_kvs := dedup_and_sort value_set in
  root_node_key ← gets TreeCache.root_node_key;
  '(new_root_node_key, _) ← batch_insert_at self (S ROOT_NIBBLE_HEIGHT) root_node_key version
     deduped_and_sorted_kvs 0 hash_set;
  modify (TreeCache.set_root_node_key new_root_node_key) ;;
  TreeCache.freeze sha3_256 ;;
  mret (idx + 1).

(** [zip_eq] panics when one of the two iterators ends before the other. *)
Definition batch_put_value_sets (self : t) (value_sets : list (list (HashValue.t * V)))
    (node_hashes : option (list (gmap NibblePath.t HashValue.t))) (first_version : Z)
    : outcome error (list HashValue.t * TreeUpdateBatch.t V) :=
  tree_cache ← TreeCache.new (reader self) first_version;
  let hash_sets := match node_hashes with
                   | Some hashes => Some <$> hashes
                   | None => (fun _ => None) <$> value_sets
                   end in
  match try_fold (batch_put_value_set self first_version) 0 (zip value_sets hash_sets) tree_cache with
  | (tree_cache, Ok _) =>
      assert_ (length value_sets =? length hash_sets)%nat ;; Ok (TreeCache.into tree_cache)
  | (_, Err e) => Err e
  | (_, Panic) => Panic
  end.

(** ** Reading *)

(** The loop of [get_with_proof]: [n] rounds are left. *)
Fixpoint proof_loop (self : t) (n nibble_depth : nat) (key : HashValue.t) (version : Z)
    (next_node_key : NodeKey.t) (siblings : list HashValue.t) (nibble_iter : NibbleIterator.t)
    : outcome error (option V * SparseMerkleProof.t) :=
  match n with
  | O => Err (Message "Jellyfish Merkle tree has cyclic graph inside.")
  | S n =>
      next_node ← map_err (fun err => if (nibble_depth =? 0)%nat then MissingRootError version else err)
        (reader_get_node (reader self) next_node_key);
      match next_node with
      | Node.Internal internal_node =>
          '(nibble_iter, index) ← NibbleIterator.next nibble_iter;
          queried_child_index ← ok_or index (Message "ran out of nibbles");
          '(child_node_key, siblings_in_internal) ←
            InternalNode.get_child_with_siblings sha3_256 internal_node next_node_key queried_child_index;
          let siblings := siblings ++ siblings_in_internal in
          match child_node_key with
          | Some node_key => proof_loop self n (S nibble_depth) key version node_key siblings nibble_iter
          | None => Ok (None, SparseMerkleProof.new None (rev siblings))
          end
      | Node.Leaf leaf_node =>
          Ok (if decide (LeafNode.account_key leaf_node = key) then Some (LeafNode.value leaf_node) else None,
              SparseMerkleProof.new (Some (LeafNode.into leaf_node)) (rev siblings))
      | Node.Null =>
          if (nibble_depth =? 0)%nat then Ok (None, SparseMerkleProof.new None [])
          else Err (Message "Non-root null node exists with node key")
      end
  end.

Definition get_with_proof (self : t) (key : HashValue.t) (version : Z)
    : outcome error (option V * SparseMerkleProof.t) :=
  nibble_path ← NibblePath.new (HashValue.hash key);
  proof_loop self (S ROOT_NIBBLE_HEIGHT) 0 key version (NodeKey.new_empty_path version) []
    (NibbleIterator.nibbles nibble_path).

Definition get_range_proof (self : t) (rightmost_key_to_prove : HashValue.t) (version : Z)
    : outcome error SparseMerkleRangeProof.t :=
  '(account, proof) ← get_with_proof self rightmost_key_to_prove version;
  ensure (bool_decide (is_Some account)) (Message "rightmost_key_to_prove must exist.") ;;
  let siblings :=
    rev (omap (fun '(sibling, bit) => if negb bit then Some sibling else None)
      (zip (rev (SparseMerkleProof.siblings proof)) (HashValue.iter_bits rightmost_key_to_prove))) in
  Ok (SparseMerkleRangeProof.new siblings).

Definition get_root_node (self : t) (version : Z) : outcome error (Node.t V) :=
  node ← get_node_option (reader self) (NodeKey.new_empty_path version);
  ok_or node (Message "Root node not found for version.").

Definition get_root_hash (self : t) (version : Z) : outcome error HashValue.t :=
  node ← get_root_node self version; Node.hash sha3_256 node.

Definition get_leaf_count (self : t) (version : Z) : outcome error (option Z) :=
  if leaf_count_migration self then node ← get_root_node self version; Ok (Node.leaf_count node)
  else Ok None.

End tree.
Arguments t R : clear implicits.
End JellyfishMerkleTree.
