(* ===== verification/JellyfishRep.v ===== *)
(** * Stored trees and the maps they hold

    [represents]: the nodes stored below a node key are those of a map. [tree_at]
    says it of a whole version. A version of the tree that holds a map has the
    root hash of the map's sparse Merkle tree, and [get_with_proof] returns the
    value of the key and its proof in that tree. *)
From stdpp Require Import prelude gmap strings.
From Stdlib Require Import ZArith Lia.
From S2P Require Import Prelude Bits HashValues SparseMerkle Nibbles JellyfishNodes JellyfishSpec.
From S2P Require Import JellyfishHash TreeCache Jellyfish.

(** ** The tree of a map *)

Section canon.
Context {V : Type} {HV : Value V} (value_hash_sized : forall v : V, sized (value_hash v)).
Implicit Type m : gmap HashValue.t V.

(** All keys of a map start with the bits [p]. *)
Definition agree (p : list bool) m : Prop :=
  map_Forall (fun k _ => HashValue.wf k /\ p `prefix_of` HashValue.iter_bits k) m.

Lemma key_bit_prefix p k : HashValue.wf k -> (length p < HashValue.LENGTH_IN_BITS)%nat ->
  p `prefix_of` HashValue.iter_bits k -> p ++ [key_bit (length p) k] `prefix_of` HashValue.iter_bits k.
Proof.
  intros Hk Hl [q Hq]. unfold key_bit. rewrite Hq. pose proof (iter_bits_length k (wf_sized k Hk)) as Hlen.
  rewrite Hq, length_app in Hlen. destruct q as [|b q]; [cbn [length] in Hlen; lia|].
  rewrite nth_middle. exists q. by rewrite <- app_assoc.
Qed.

Lemma agree_side p b m : agree p m -> (length p < HashValue.LENGTH_IN_BITS)%nat ->
  agree (p ++ [b]) (side (length p) b m).
Proof.
  intros Hm Hl k v Hk. unfold side in Hk. apply map_lookup_filter_Some in Hk as [Hk Hb]. cbn [fst] in Hb.
  destruct (Hm k v Hk) as [Hw Hp]. split; [done|]. rewrite <- Hb. by apply key_bit_prefix.
Qed.

Lemma agree_all p m : agree p m -> length p = HashValue.LENGTH_IN_BITS -> (size m <= 1)%nat.
Proof.
  intros Hm Hl. rewrite <- length_map_to_list. destruct (map_to_list m) as [|[k v] [|[k' v'] l]] eqn:E; cbn [length]; [lia..|].
  exfalso. pose proof (NoDup_fst_map_to_list m) as Hn. rewrite E in Hn. cbn in Hn.
  apply NoDup_cons in Hn as [Hn _]. apply Hn. rewrite elem_of_cons. left.
  assert (forall x y, (x, y) ∈ map_to_list m -> HashValue.wf x /\ p = HashValue.iter_bits x) as H.
  { intros x y Hx%elem_of_map_to_list. destruct (Hm x y Hx) as [Hw Hp]. split; [done|].
    apply prefix_length_eq; [done|]. rewrite (iter_bits_length x (wf_sized x Hw)). lia. }
  destruct (H k v) as [Hw ->]; [rewrite E; left|]. destruct (H k' v') as [Hw' Hp]; [rewrite E; right; left|].
  by apply iter_bits_inj.
Qed.

Lemma canon_cases n m : (size m <= 1)%nat ->
  m = ∅ /\ canon n m = Empty \/
  exists k v, m = {[k := v]} /\ canon n m = Leaf (SparseMerkleLeafNode.new k (value_hash v)).
Proof.
  intros Hs. destruct (decide (size m = O)) as [H0|H0].
  - left. apply map_size_empty_iff in H0 as ->. by rewrite canon_empty.
  - right. destruct (size_1_singleton m ltac:(lia)) as (k & v & ->). exists k, v. by rewrite canon_singleton.
Qed.

Lemma canon_small n p m : agree p m -> (size m <= 1)%nat ->
  placed p (canon n m) /\
  (forall k vh, (k, vh) ∈ leaves (canon n m) <-> exists v, m !! k = Some v /\ vh = value_hash v).
Proof.
  intros Hm Hs. destruct (canon_cases n m Hs) as [[-> ->]|(k & v & -> & ->)]; cbn [placed leaves].
  - split; [done|]. intros k vh. rewrite elem_of_nil. split; [done | by intros (v & ?%lookup_empty_Some & _)].
  - destruct (Hm k v (lookup_singleton_eq k v)) as [Hw Hp]. split.
    + split_and!; [done | by apply wf_sized | apply value_hash_sized].
    + intros k' vh. rewrite list_elem_of_singleton. setoid_rewrite lookup_singleton_Some. cbn. naive_solver.
Qed.

Lemma canon_spec n : forall p m, agree p m -> (length p + n = HashValue.LENGTH_IN_BITS)%nat ->
  placed p (canon n m) /\
  (forall k vh, (k, vh) ∈ leaves (canon n m) <-> exists v, m !! k = Some v /\ vh = value_hash v).
Proof.
  induction n as [|n IH]; intros p m Hm Hl; [by apply canon_small; [|apply (agree_all p); [|lia]]|].
  destruct (decide (size m <= 1)%nat) as [Hs|Hs]; [by apply canon_small|].
  rewrite canon_node by lia. replace (HashValue.LENGTH_IN_BITS - S n)%nat with (length p) by lia.
  destruct (IH (p ++ [false]) (side (length p) false m)) as [H1 H2]; [apply agree_side; [done|lia] | rewrite length_app; cbn [length]; lia|].
  destruct (IH (p ++ [true]) (side (length p) true m)) as [H3 H4]; [apply agree_side; [done|lia] | rewrite length_app; cbn [length]; lia|].
  cbn [placed leaves]. split; [split_and!; [lia|done..]|]. intros k vh. rewrite elem_of_app, H2, H4. unfold side.
  setoid_rewrite map_lookup_filter_Some. cbn [fst]. split; [naive_solver|].
  intros (v & Hk & ->). destruct (key_bit (length p) k) eqn:E; [right | left]; eauto.
Qed.
End canon.

(** ** Stored subtrees *)

Section represents.
Context (sha3_256 : list Z -> HashValue.t) (counted : Prop) {V : Type} {HV : Value V}.
Implicit Types (m : gmap HashValue.t V) (get : NodeKey.t -> option (Node.t V)).

(** All keys of a map start with the nibbles [ns]. *)
Definition below (ns : list Z) m : Prop :=
  map_Forall (fun k _ => HashValue.wf k /\ ns `prefix_of` key_nibbles k) m.

Definition leaf_holds (l : LeafNode.t V) m : Prop :=
  l = LeafNode.new (LeafNode.account_key l) (LeafNode.value l) /\
  m = {[LeafNode.account_key l := LeafNode.value l]}.

(** A child entry describes the node it points to. In a tree with legacy nodes,
    where [counted] does not hold, it need not have the leaf count of the node. *)
Definition describes (c : Child.t) (node : Node.t V) : Prop :=
  Node.hash sha3_256 (E := error) node = Ok (Child.hash c) /\
  Child.is_leaf c = Node.is_leaf node /\
  (counted -> Node.node_type (E := error) node = Ok (Child.node_type c)).

(** The nodes at [ns] and below it, the top one of version [v], are those of the
    map [m]. [live] holds of the nodes of the subtree and [dead] of the paths
    right below it that have no node. *)
Fixpoint represents (h : nat) get (live : Z -> list Z -> Prop) (dead : list Z -> Prop)
    (v : Z) (ns : list Z) m : Prop :=
  below ns m /\ live v ns /\
  match get (key_at v ns) with
  | Some (Node.Leaf l) => leaf_holds l m /\ forall n, nibble_ok n -> dead (ns ++ [n])
  | Some (Node.Internal i) =>
      match h with
      | O => False
      | S h =>
          (2 <= size m)%nat /\
          (counted -> InternalNode.leaf_count i = InternalNode.sum_leaf_count (InternalNode.children i)) /\
          (forall n c, InternalNode.children i !! n = Some c -> nibble_ok n /\
             exists node, get (key_at (Child.version c) (ns ++ [n])) = Some node /\ describes c node /\
               represents h get live dead (Child.version c) (ns ++ [n]) (part (length ns) 0 n m)) /\
          (forall n, nibble_ok n -> InternalNode.children i !! n = None ->
             part (length ns) 0 n m = ∅ /\ dead (ns ++ [n]))
      end
  | _ => False
  end.

(** A version of the tree. *)
Definition tree_at get (live : Z -> list Z -> Prop) (dead : list Z -> Prop) (v : Z) m : Prop :=
  (m = ∅ /\ live v [] /\ get (key_at v []) = Some Node.Null /\ forall n, nibble_ok n -> dead [n]) \/
  represents ROOT_NIBBLE_HEIGHT get live dead v [] m.

Lemma below_keys ns m : below ns m -> keys_ok m.
Proof. intros H k v Hk. by apply (H k v). Qed.

Lemma prefix_nib ns k : HashValue.wf k -> ns `prefix_of` key_nibbles k -> (length ns < ROOT_NIBBLE_HEIGHT)%nat ->
  ns ++ [nib (length ns) k] `prefix_of` key_nibbles k.
Proof.
  intros Hk [q Hq] Hl. unfold nib. rewrite Hq. pose proof (key_nibbles_length k Hk) as Hlen.
  rewrite Hq, length_app in Hlen. destruct q as [|b q]; [cbn [length] in Hlen; lia|].
  rewrite nth_middle. exists q. by rewrite <- app_assoc.
Qed.

Lemma nib_prefix ns n k : ns ++ [n] `prefix_of` key_nibbles k -> nib (length ns) k = n.
Proof. intros [q Hq]. unfold nib. rewrite Hq, <- app_assoc. cbn [app]. apply nth_middle. Qed.

Lemma below_part ns n m : below ns m -> (length ns < ROOT_NIBBLE_HEIGHT)%nat ->
  below (ns ++ [n]) (part (length ns) 0 n m).
Proof.
  intros Hm Hl k v [Hk Hn]%part_lookup. destruct (Hm k v Hk) as [Hw Hp]. split; [done|].
  rewrite Z.shiftr_0_r in Hn. rewrite <- Hn. by apply prefix_nib.
Qed.

Section facts.
Context (get : NodeKey.t -> option (Node.t V)) (live : Z -> list Z -> Prop) (dead : list Z -> Prop).

Lemma represents_below h v ns m : represents h get live dead v ns m -> below ns m.
Proof. destruct h; by intros [H _]. Qed.

Lemma represents_live h v ns m : represents h get live dead v ns m -> live v ns.
Proof. destruct h; by intros (_ & H & _). Qed.

Lemma represents_node h v ns m : represents h get live dead v ns m ->
  exists node, get (key_at v ns) = Some node /\ node <> Node.Null /\
    (m <> ∅) /\ (Node.is_leaf node = true <-> size m = 1%nat).
Proof.
  destruct h; intros (Hb & _ & H); destruct (get (key_at v ns)) as [[|i|l]|] eqn:E; try done.
  1, 3: destruct H as [[Hl ->] _]; eexists; split; [done|]; rewrite map_size_singleton; split_and!;
    [done | apply map_non_empty_singleton | done].
  destruct H as (Hs & _). exists (Node.Internal i). split_and!; [done..| |].
  - intros ->. rewrite map_size_empty in Hs. lia.
  - split; [done|]. lia.
Qed.

(** The entry made for a node describes it. *)
Lemma describes_new node hash v ty : Node.hash sha3_256 (E := error) node = Ok hash ->
  Node.node_type (E := error) node = Ok ty -> describes (Child.new hash v ty) node.
Proof.
  intros Hh Ht. split; [done|]. split; [|done]. unfold Child.is_leaf. cbn [Child.node_type].
  destruct node as [|i|l]; cbn [Node.node_type Node.is_leaf] in *; [done|..].
  - injection Ht as <-. unfold InternalNode.node_type. by destruct (InternalNode.leaf_count i).
  - by injection Ht as <-.
Qed.

(** The entries of an internal node are right for the map below it. *)
Lemma represents_hash h : forall v ns m node, represents h get live dead v ns m ->
  (h + length ns = ROOT_NIBBLE_HEIGHT)%nat -> get (key_at v ns) = Some node ->
  Node.hash sha3_256 (E := error) node = Ok (root_hash sha3_256 (canon (4 * h) m)) /\
  forall i, node = Node.Internal i -> exists h', h = S h' /\ children_ok sha3_256 i (length ns) h' m.
Proof.
  induction h as [|h IH]; intros v ns m node (Hb & _ & H) Hl E; rewrite E in H; destruct node as [|i|l]; try done.
  1, 3: destruct H as [[-> ->] _]; split; [|done]; by rewrite canon_singleton.
  destruct H as (Hs & _ & Hsome & Hnone).
  assert (children_ok sha3_256 i (length ns) h m) as Hok.
  { split; [by eapply below_keys | lia | |].
    - intros n c Hc. destruct (Hsome n c Hc) as (Hn & node & Hget & Hd & Hr). split; [done|].
      destruct (represents_node _ _ _ _ Hr) as (node' & Hget' & _ & Hne & Hleaf).
      rewrite Hget in Hget'. injection Hget' as <-. split; [done|].
      destruct Hd as (Hd & -> & _). split; [|done].
      destruct (IH _ _ _ node Hr) as [Hh _]; [rewrite length_app; cbn [length]; lia | done |].
      rewrite Hh in Hd. by injection Hd.
    - intros n Hn Hc. by apply Hnone. }
  split; [|by intros ? [= <-]; eauto]. cbn [Node.hash]. by apply (internal_hash_spec sha3_256 i (length ns) h m Hok).
Qed.

End facts.

(** Changes away from a subtree do not change it. *)
Lemma represents_frame get get' (live live' : Z -> list Z -> Prop) (dead dead' : list Z -> Prop) h : forall v ns m,
  Forall nibble_ok ns ->
  (forall v' ns', Forall nibble_ok ns' -> ns `prefix_of` ns' -> (length ns' <= ROOT_NIBBLE_HEIGHT)%nat ->
     get' (key_at v' ns') = get (key_at v' ns')) ->
  (forall v' ns', Forall nibble_ok ns' -> ns `prefix_of` ns' -> live v' ns' -> live' v' ns') ->
  (forall ns', Forall nibble_ok ns' -> ns `prefix_of` ns' -> dead ns' -> dead' ns') ->
  (h + length ns = ROOT_NIBBLE_HEIGHT)%nat ->
  represents h get live dead v ns m -> represents h get' live' dead' v ns m.
Proof.
  induction h as [|h IH]; intros v ns m Hns Hget Hlive Hdead Hl (Hb & Hv & H);
    (split; [done|]); (split; [by apply Hlive|]); rewrite Hget by (done || lia);
    destruct (get (key_at v ns)) as [[|i|l]|]; try done.
  1, 3: destruct H as [Hm Hd]; split; [done|]; intros n Hn; apply Hdead;
    [by apply Forall_app; auto | by apply prefix_app_r | auto].
  destruct H as (Hs & Hc & Hsome & Hnone). split_and!; [done..| |].
  - intros n c Hnc. destruct (Hsome n c Hnc) as (Hn & node & Hnode & Hd & Hr). split; [done|].
    assert (Forall nibble_ok (ns ++ [n])) as Hns' by (apply Forall_app; auto).
    assert (forall ns', ns ++ [n] `prefix_of` ns' -> ns `prefix_of` ns') as Htrans.
    { intros ns' H. etrans; [|exact H]. by apply prefix_app_r. }
    exists node. rewrite Hget; [|done|by apply prefix_app_r|rewrite length_app; cbn [length]; lia].
    split_and!; [done..|]. apply IH; [done| | | |rewrite length_app; cbn [length]; lia|done]; eauto.
  - intros n Hn Hnone'. destruct (Hnone n Hn Hnone') as [Hp Hd]. split; [done|].
    apply Hdead; [apply Forall_app; auto | by apply prefix_app_r | done].
Qed.

(** A store with more nodes has the same trees. *)
Lemma represents_mono get get' (live live' : Z -> list Z -> Prop) (dead dead' : list Z -> Prop) :
  (forall v ns node, live v ns -> get (key_at v ns) = Some node -> get' (key_at v ns) = Some node) ->
  (forall v ns, is_Some (get (key_at v ns)) -> live v ns -> live' v ns) -> (forall ns, dead ns -> dead' ns) ->
  forall h v ns m, represents h get live dead v ns m -> represents h get' live' dead' v ns m.
Proof.
  intros Hget Hlive Hdead h. induction h as [|h IH]; intros v ns m (Hb & Hv & H);
    destruct (get (key_at v ns)) as [node|] eqn:E; try done;
    (split; [done|]); (split; [by apply Hlive; [rewrite E; eauto|]|]); rewrite (Hget _ _ _ Hv E);
    destruct node as [|i|l]; try done.
  1, 3: destruct H as [Hm Hd]; split; [done|]; auto.
  destruct H as (Hs & Hc & Hsome & Hnone). split_and!; [done..| |].
  - intros n c Hnc. destruct (Hsome n c Hnc) as (Hn & node & Hnode & Hd & Hr). split; [done|].
    exists node. split_and!; [|done|by apply IH]. apply Hget; [|done]. by eapply represents_live.
  - intros n Hn Hnone'. destruct (Hnone n Hn Hnone'). auto.
Qed.

Lemma tree_at_mono get get' (live live' : Z -> list Z -> Prop) (dead dead' : list Z -> Prop) v m :
  (forall v ns node, live v ns -> get (key_at v ns) = Some node -> get' (key_at v ns) = Some node) ->
  (forall v ns, is_Some (get (key_at v ns)) -> live v ns -> live' v ns) -> (forall ns, dead ns -> dead' ns) ->
  tree_at get live dead v m -> tree_at get' live' dead' v m.
Proof.
  intros Hget Hlive Hdead [(-> & Hv & Hnull & Hd)|Hr]; [left | right; by eapply represents_mono].
  split_and!; [done | apply Hlive; [rewrite Hnull; eauto|done] | by apply Hget | auto].
Qed.

Lemma tree_at_root get live dead v m : tree_at get live dead v m ->
  exists node, get (key_at v []) = Some node /\
    Node.hash sha3_256 (E := error) node = Ok (root_hash sha3_256 (canon HashValue.LENGTH_IN_BITS m)).
Proof.
  intros [(-> & _ & Hnull & _)|Hr].
  - exists Node.Null. by rewrite canon_empty.
  - destruct (represents_node _ _ _ _ _ _ _ Hr) as (node & Hget & _). exists node. split; [done|].
    by destruct (represents_hash _ _ _ _ _ _ _ node Hr eq_refl Hget) as [-> _].
Qed.

End represents.

(** ** Reading a version *)

(** A reader of a store of nodes that does not fail. *)
Class StoredNodes (R V : Type) `{TreeReader R V} := {
  stored : R -> gmap NodeKey.t (Node.t V);
  get_node_option_stored : forall r k, get_node_option r k = Ok (stored r !! k)
}.

Section read.
Context (sha3_256 : list Z -> HashValue.t) (counted : Prop) {R V : Type} `{StoredNodes R V} {HV : Value V}.
Context (live : Z -> list Z -> Prop) (dead : list Z -> Prop) (self : JellyfishMerkleTree.t R).
Implicit Type m : gmap HashValue.t V.

Abbreviation get := (fun k => stored (JellyfishMerkleTree.reader self) !! k).

Lemma reader_stored k node : get k = Some node -> reader_get_node (JellyfishMerkleTree.reader self) k = Ok node.
Proof. intros Hk. unfold reader_get_node. rewrite get_node_option_stored, bind_Ok. cbn in Hk. by rewrite Hk. Qed.

(** The result for a key, from the path of the key below [ns]. *)
Definition proof_result (h : nat) (ns : list Z) m (key : HashValue.t) (siblings : list HashValue.t)
    : option V * SparseMerkleProof.t :=
  let '(lf, ss) := prove sha3_256 (canon (4 * h) m) (drop (4 * length ns) (HashValue.iter_bits key)) in
  (m !! key, SparseMerkleProof.new lf (ss ++ rev siblings)).

Lemma proof_loop_spec version key : HashValue.wf key -> forall h n v ns m nd siblings,
  Forall nibble_ok ns -> (h + length ns = ROOT_NIBBLE_HEIGHT)%nat -> (h < n)%nat ->
  represents sha3_256 counted h get live dead v ns m ->
  (ns `prefix_of` key_nibbles key \/ size m = 1%nat) ->
  JellyfishMerkleTree.proof_loop sha3_256 self n nd key version (key_at v ns) siblings
    (iter_at (key_nibbles key) (length ns) ROOT_NIBBLE_HEIGHT 0) =
  Ok (proof_result h ns m key siblings).
Proof.
  intros Hkey. induction h as [|h IH]; intros n v ns m nd siblings Hns Hl Hn Hr Hp;
    (destruct n as [|n]; [lia|]); cbn [JellyfishMerkleTree.proof_loop];
    destruct (represents_node _ _ _ _ _ _ _ _ _ Hr) as (node & Hget & Hnull & _ & Hleaf);
    rewrite (reader_stored _ _ Hget); cbn [map_err]; rewrite bind_Ok;
    destruct (represents_hash _ _ _ _ _ _ _ _ _ node Hr Hl Hget) as [_ Hok];
    destruct Hr as (Hb & _ & Hr); cbv beta in *; rewrite Hget in Hr; destruct node as [|i|l]; try done.
  1, 3: destruct Hr as [[Hlv Hm] _]; rewrite Hm; unfold proof_result; rewrite canon_singleton; cbn [prove app];
    do 2 f_equal; [case_decide as Hk; [subst key; by rewrite lookup_singleton_eq | by rewrite lookup_singleton_ne]
      | rewrite Hlv; reflexivity].
  destruct (Hok i eq_refl) as (? & [= <-] & Hch). destruct Hr as (Hs & _ & Hsome & _).
  destruct Hp as [Hp|]; [|lia]. clear Hok Hleaf.
  assert (length ns < ROOT_NIBBLE_HEIGHT)%nat as Hl' by lia.
  rewrite (next_nibbles _ _ _ _ (nib (length ns) key)); [|by apply key_nibbles_ok | done | by apply nib_lookup].
  rewrite bind_Ok. cbn [ok_or]. rewrite bind_Ok.
  set (x := nib (length ns) key). assert (nibble_ok x) as Hx by by apply nib_ok.
  pose proof (drop_key_bits (length ns) key Hkey Hl') as Hbits. fold x in Hbits.
  destruct (get_child_with_siblings_spec sha3_256 i (length ns) h m Hch (E := error) v ns x
    (drop (4 * S (length ns)) (HashValue.iter_bits key)) Hns eq_refl Hx Hs) as (r & new & -> & Hr).
  rewrite bind_Ok. unfold proof_result. rewrite Hbits. destruct r as [ck|].
  - destruct Hr as (j & c & Hc & -> & -> & Hj).
    destruct (Hsome j c Hc) as (Hjn & cnode & Hcget & Hd & Hcr).
    assert (length (ns ++ [j]) = S (length ns)) as Hlen by (rewrite length_app; cbn [length]; lia).
    rewrite <- Hlen. rewrite (IH n (Child.version c) (ns ++ [j]) (part (length ns) 0 j m));
      [|by apply Forall_app; auto | lia | lia | done |].
    + unfold proof_result. destruct (prove _ _ _) as [lf ss]. do 2 f_equal.
      * destruct Hj as [-> | [_ Hemp]]; [by apply part_lookup_nib|].
        rewrite <- (part_lookup_nib (length ns) m key x eq_refl), Hemp, lookup_empty.
        destruct (decide (x = j)) as [<-|]; [by rewrite Hemp | by apply part_lookup_other].
      * by rewrite rev_app_distr, app_assoc.
    + destruct Hj as [-> | [Hlf _]]; [left; by apply prefix_nib|]. right.
      by apply (ok_some _ _ _ _ _ Hch) in Hc as (_ & _ & _ & Hc); apply Hc.
  - destruct Hr as [-> Hemp]. do 2 f_equal.
    + rewrite <- (part_lookup_nib (length ns) m key x eq_refl), Hemp. by rewrite lookup_empty.
    + by rewrite rev_app_distr.
Qed.

Lemma get_with_proof_eq v m key : HashValue.wf key -> tree_at sha3_256 counted get live dead v m ->
  JellyfishMerkleTree.get_with_proof sha3_256 self key v =
    Ok (m !! key, proof_of_key sha3_256 (canon HashValue.LENGTH_IN_BITS m) key).
Proof.
  intros Hkey Ht. unfold JellyfishMerkleTree.get_with_proof. rewrite (new_of_key key Hkey), bind_Ok.
  destruct Ht as [(-> & _ & Hnull & _)|Hr].
  - cbn [JellyfishMerkleTree.proof_loop ROOT_NIBBLE_HEIGHT]. change (NodeKey.new_empty_path v) with (key_at v []).
    rewrite (reader_stored _ _ Hnull). cbn [map_err]. rewrite bind_Ok, lookup_empty. unfold proof_of_key.
    rewrite canon_empty. by destruct (HashValue.iter_bits key).
  - unfold NibbleIterator.nibbles, NibbleIterator.new. cbn [of_nibbles NibblePath.num_nibbles].
    rewrite (key_nibbles_length key Hkey). change (NodeKey.new_empty_path v) with (key_at v []).
    change (NibbleIterator.mk (of_nibbles (key_nibbles key)) 0 ROOT_NIBBLE_HEIGHT 0)
      with (iter_at (key_nibbles key) (length (A := Z) []) ROOT_NIBBLE_HEIGHT 0).
    rewrite (proof_loop_spec v key Hkey ROOT_NIBBLE_HEIGHT _ v [] m 0 []); [|done|done|lia|done|left; apply prefix_nil].
    unfold proof_result, proof_of_key. cbn [length]. rewrite Nat.mul_0_r, drop_0.
    change (4 * ROOT_NIBBLE_HEIGHT)%nat with HashValue.LENGTH_IN_BITS.
    destruct (prove _ _ _) as [lf ss]. cbn [rev]. by rewrite app_nil_r.
Qed.

Lemma get_root_hash_eq v m : tree_at sha3_256 counted get live dead v m ->
  JellyfishMerkleTree.get_root_hash sha3_256 self v = Ok (root_hash sha3_256 (canon HashValue.LENGTH_IN_BITS m)).
Proof.
  unfold JellyfishMerkleTree.get_root_hash, JellyfishMerkleTree.get_root_node.
  rewrite get_node_option_stored, bind_Ok. change (NodeKey.new_empty_path v) with (key_at v []).
  intros (node & Hget & Hh)%tree_at_root. cbn in Hget. rewrite Hget. cbn [ok_or]. by rewrite bind_Ok.
Qed.

End read.
