(* ===== verification/JellyfishCache.v ===== *)
(** * The tree in a cache

    A [TreeCache] in the middle of an update shows a tree: its own nodes over the
    frozen and the stored ones. [rep] is [represents] for this view, with what the
    cache needs of the nodes of the tree and of the paths without nodes so that
    [delete_node] and [put_node] succeed. The lemmas give the effect of the two on
    it and of putting a leaf or an internal node above subtrees. *)
From stdpp Require Import prelude gmap strings.
From Stdlib Require Import ZArith Lia.
From S2P Require Import Prelude Bits HashValues SparseMerkle Nibbles JellyfishNodes JellyfishSpec.
From S2P Require Import JellyfishHash TreeCache Jellyfish JellyfishRep.

Section cache.
Context (sha3_256 : list Z -> HashValue.t) (counted : Prop) {R V : Type} `{StoredNodes R V} {HV : Value V}.
Implicit Types (m : gmap HashValue.t V) (c : TreeCache.t R V).

(** The nodes frozen by earlier transactions and those of the storage. *)
Definition base c : gmap NodeKey.t (Node.t V) :=
  FrozenTreeCache.node_cache (TreeCache.frozen_cache c) ∪ stored (TreeCache.reader c).

Definition view c (k : NodeKey.t) : option (Node.t V) := (TreeCache.node_cache c ∪ base c) !! k.

(** The keys that became stale so far. *)
Definition stale c (k : NodeKey.t) : Prop :=
  k ∈ TreeCache.stale_node_index_cache c \/
  exists s, StaleNodeIndex.mk s k ∈ FrozenTreeCache.stale_node_index_cache (TreeCache.frozen_cache c).

Lemma get_node_view c k node : view c k = Some node -> TreeCache.get_node c k = Ok node.
Proof.
  unfold view, base, TreeCache.get_node, reader_get_node. rewrite !lookup_union, get_node_option_stored, bind_Ok.
  destruct (TreeCache.node_cache c !! k), (FrozenTreeCache.node_cache (TreeCache.frozen_cache c) !! k),
    (stored (TreeCache.reader c) !! k); by intros [= ->].
Qed.

(** The version being written and the last version of the update: no other node
    has a version in between. *)
Context (cur last : Z) (Hcur : cur <= last).

Definition reserved (v : Z) : Prop := cur <= v <= last.

Lemma reserved_cur : reserved cur.
Proof. unfold reserved. lia. Qed.

(** No node of another version of the path is in the cache, the node is not stale,
    and it is in the cache if it is one of this transaction. *)
Definition live c (v : Z) (ns : list Z) : Prop :=
  (forall v', is_Some (TreeCache.node_cache c !! key_at v' ns) -> v' = v) /\
  ~ stale c (key_at v ns) /\
  (reserved v -> is_Some (TreeCache.node_cache c !! key_at v ns)).

(** The cache has no node at the path or below it. *)
Definition dead c (ns : list Z) : Prop := forall v' ns', Forall nibble_ok ns' -> ns `prefix_of` ns' ->
  TreeCache.node_cache c !! key_at v' ns' = None.

Definition rep c (h : nat) (v : Z) (ns : list Z) m : Prop :=
  represents sha3_256 counted h (view c) (live c) (dead c) v ns m.

Record cache_ok c : Prop := {
  cache_version : TreeCache.next_version c = cur;
  cache_current : forall k, is_Some (TreeCache.node_cache c !! k) -> NodeKey.version k = cur;
  base_fresh : forall k, is_Some (base c !! k) -> ~ reserved (NodeKey.version k);
  stale_fresh : forall k, stale c k -> ~ reserved (NodeKey.version k)
}.

(** [c'] differs from [c] only in the nodes and stale marks of paths in [Q]. *)
Record changes (Q : list Z -> Prop) c c' : Prop := {
  same_frozen : TreeCache.frozen_cache c' = TreeCache.frozen_cache c;
  same_reader : TreeCache.reader c' = TreeCache.reader c;
  same_version : TreeCache.next_version c' = TreeCache.next_version c;
  same_root : TreeCache.root_node_key c' = TreeCache.root_node_key c;
  same_nodes : forall v ns, Forall nibble_ok ns -> ~ Q ns ->
    TreeCache.node_cache c' !! key_at v ns = TreeCache.node_cache c !! key_at v ns;
  same_stale : forall v ns, Forall nibble_ok ns -> ~ Q ns ->
    key_at v ns ∈ TreeCache.stale_node_index_cache c' <-> key_at v ns ∈ TreeCache.stale_node_index_cache c
}.

Lemma changes_refl Q c : changes Q c c.
Proof. by split. Qed.

Lemma changes_trans (Q1 Q2 Q3 : list Z -> Prop) c1 c2 c3 : changes Q1 c1 c2 -> changes Q2 c2 c3 ->
  (forall ns, Q1 ns -> Q3 ns) -> (forall ns, Q2 ns -> Q3 ns) -> changes Q3 c1 c3.
Proof.
  intros [F1 R1 V1 T1 N1 S1] [F2 R2 V2 T2 N2 S2] H1 H2. split; [congruence..| |].
  - intros v ns Hns HQ. rewrite N2, N1; eauto.
  - intros v ns Hns HQ. rewrite S2, S1; eauto.
Qed.

Lemma changes_weaken (Q Q' : list Z -> Prop) c c' : changes Q c c' -> (forall ns, Q ns -> Q' ns) -> changes Q' c c'.
Proof. intros Hc HQ. eapply changes_trans; [exact Hc | apply (changes_refl Q) | done | done]. Qed.

Lemma changes_step (Q Q' : list Z -> Prop) c1 c2 c3 : changes Q' c1 c2 -> (forall ns, Q' ns -> Q ns) ->
  changes Q c2 c3 -> changes Q c1 c3.
Proof. intros H1 HQ H2. by eapply changes_trans; [exact H1 | exact H2 | |]. Qed.

Lemma changes_base Q c c' : changes Q c c' -> base c' = base c.
Proof. intros Hc. unfold base. by rewrite (same_frozen _ _ _ Hc), (same_reader _ _ _ Hc). Qed.

Lemma changes_stale Q c c' v ns : changes Q c c' -> Forall nibble_ok ns -> ~ Q ns ->
  stale c' (key_at v ns) <-> stale c (key_at v ns).
Proof. intros Hc Hns HQ. unfold stale. by rewrite (same_frozen _ _ _ Hc), (same_stale _ _ _ Hc) by done. Qed.

Lemma changes_view Q c c' v ns : changes Q c c' -> Forall nibble_ok ns -> ~ Q ns ->
  view c' (key_at v ns) = view c (key_at v ns).
Proof.
  intros Hc Hns HQ. unfold view. by rewrite !lookup_union, (changes_base _ _ _ Hc), (same_nodes _ _ _ Hc).
Qed.

Lemma changes_dead Q c c' ns : changes Q c c' -> (forall ns', ns `prefix_of` ns' -> ~ Q ns') ->
  dead c ns -> dead c' ns.
Proof. intros Hc HQ Hd v' ns' Hns' Hp. rewrite (same_nodes _ _ _ Hc) by auto. by apply Hd. Qed.

Lemma changes_live Q c c' v ns : changes Q c c' -> Forall nibble_ok ns -> ~ Q ns -> live c v ns -> live c' v ns.
Proof.
  intros Hc Hns HQ (H1 & H2 & H3). split_and!.
  - intros v'. rewrite (same_nodes _ _ _ Hc) by done. apply H1.
  - by rewrite (changes_stale _ _ _ _ _ Hc).
  - by rewrite (same_nodes _ _ _ Hc).
Qed.

(** Changes elsewhere do not matter to a subtree. *)
Lemma rep_changes Q c c' h v ns m : changes Q c c' -> (forall ns', ns `prefix_of` ns' -> ~ Q ns') ->
  Forall nibble_ok ns -> (h + length ns = ROOT_NIBBLE_HEIGHT)%nat -> rep c h v ns m -> rep c' h v ns m.
Proof.
  intros Hc HQ Hns Hl Hr. unfold rep in *. eapply represents_frame; [done| | | |done|exact Hr].
  - intros v' ns' Hns' Hp _. apply (changes_view _ _ _ _ _ Hc); auto.
  - intros v' ns' Hns' Hp. apply (changes_live _ _ _ _ _ Hc); auto.
  - intros ns' Hns' Hp. apply (changes_dead _ _ _ _ Hc). intros ns'' Hp'. apply HQ. by etrans.
Qed.

Lemma snoc_prefix_ne (ns ns' : list Z) n : ns ++ [n] `prefix_of` ns' -> ns <> ns'.
Proof. intros [q ->] E. apply (f_equal length) in E. rewrite !length_app in E. cbn [length] in E. lia. Qed.

Lemma snoc_prefix_other (ns ns' : list Z) n n' : ns ++ [n] `prefix_of` ns' -> ns ++ [n'] `prefix_of` ns' -> n = n'.
Proof.
  intros [q ->] [q' E]. rewrite <- !app_assoc in E. apply app_inv_head in E. by injection E.
Qed.

(** ** The two operations *)

Lemma delete_node_spec c v ns is_leaf : cache_ok c -> Forall nibble_ok ns -> live c v ns ->
  exists c', TreeCache.delete_node (key_at v ns) is_leaf c = (c', Ok tt) /\ cache_ok c' /\ changes (eq ns) c c' /\
    forall v', TreeCache.node_cache c' !! key_at v' ns = None.
Proof.
  intros Hok Hns (H1 & H2 & H3). unfold TreeCache.delete_node.
  assert (forall v' ns', Forall nibble_ok ns' -> ns <> ns' -> key_at v ns <> key_at v' ns') as Hne.
  { intros v' ns' Hns' Hn [_ E]%key_at_inj; done. }
  destruct (TreeCache.node_cache c !! key_at v ns) as [node|] eqn:E.
  - eexists. split; [reflexivity|]. split_and!.
    + destruct Hok as [O1 O2 O3 O4]. split; [done| |done|done]. cbn. intros k. rewrite lookup_delete_is_Some. by intros [_ ?]; auto.
    + split; try done. cbn. intros v' ns' Hns' HQ. apply lookup_delete_ne. auto.
    + cbn. intros v'. destruct (TreeCache.node_cache c !! key_at v' ns) as [x|] eqn:E'.
      * assert (v' = v) as -> by (apply H1; eauto). apply lookup_delete_eq.
      * rewrite lookup_delete_None. by right.
  - rewrite decide_False by (intros Hin; apply H2; by left).
    eexists. split; [reflexivity|]. split_and!.
    + destruct Hok as [O1 O2 O3 O4]. split; [done|done|done|]. intros k [Hk|Hk].
      * cbn in Hk. apply elem_of_union in Hk as [->%elem_of_singleton|Hk]; [|apply O4; by left].
        intros Hr. cbn in Hr. destruct (H3 Hr). congruence.
      * apply O4. by right.
    + split; try done. cbn. intros v' ns' Hns' HQ. rewrite elem_of_union, elem_of_singleton.
      split; [intros [E'|]; [|done] | by right]. by apply eq_sym, Hne in E'.
    + cbn. intros v'. apply eq_None_not_Some. intros Hs. assert (v' = v) as -> by auto. rewrite E in Hs. by destruct Hs.
Qed.

Lemma put_node_spec c ns node : cache_ok c -> Forall nibble_ok ns ->
  (forall v', TreeCache.node_cache c !! key_at v' ns = None) ->
  exists c', TreeCache.put_node (key_at cur ns) node c = (c', Ok tt) /\ cache_ok c' /\ changes (eq ns) c c' /\
    view c' (key_at cur ns) = Some node /\ live c' cur ns.
Proof.
  intros Hok Hns Hnone. unfold TreeCache.put_node. rewrite Hnone. eexists. split; [reflexivity|].
  destruct Hok as [O1 O2 O3 O4]. split_and!.
  - split; [done| |done|done]. cbn. intros k [x Hk]. apply lookup_insert_Some in Hk as [[<- _]|[_ Hk]]; [done|]. eauto.
  - split; try done. cbn. intros v' ns' Hns' HQ. apply lookup_insert_ne. intros [_ E]%key_at_inj; done.
  - unfold view. rewrite lookup_union. cbn. rewrite lookup_insert_eq. by destruct (base _ !! _).
  - split_and!.
    + cbn. intros v' Hv'. destruct (decide (v' = cur)) as [|Hne]; [done|].
      rewrite lookup_insert_ne, Hnone in Hv'; [by destruct Hv'|]. intros [E _]%key_at_inj; done.
    + intros Hst. apply (O4 (key_at cur ns) Hst reserved_cur).
    + cbn. rewrite lookup_insert_eq. eauto.
Qed.

(** ** Subtrees *)

(** A computation that starts in [c], changes only what is at [ns] and below it,
    and leaves the subtree of [m] there. *)
Definition wrote c (h : nat) (ns : list Z) m
    (res : TreeCache.t R V * outcome error (NodeKey.t * Node.t V)) : Prop :=
  exists c' node, res = (c', Ok (key_at cur ns, node)) /\ cache_ok c' /\
    changes (prefix ns) c c' /\ view c' (key_at cur ns) = Some node /\ rep c' h cur ns m.

Lemma wrote_step Q c c1 h ns m res : changes Q c c1 -> (forall ns', Q ns' -> ns `prefix_of` ns') ->
  wrote c1 h ns m res -> wrote c h ns m res.
Proof.
  intros Hch HQ (c2 & node & -> & Hok2 & Hch2 & Hrest). exists c2, node. split_and!; [done|done| |apply Hrest..].
  by eapply changes_step.
Qed.

Lemma dead_nil c ns v : Forall nibble_ok ns -> dead c ns -> TreeCache.node_cache c !! key_at v ns = None.
Proof. intros Hns Hd. by apply Hd. Qed.

Lemma dead_intro c ns : (forall v', TreeCache.node_cache c !! key_at v' ns = None) ->
  (forall n, nibble_ok n -> dead c (ns ++ [n])) -> dead c ns.
Proof.
  intros Hnone Hd v' ns' Hns' [[|n q] ->]; [by rewrite app_nil_r|].
  apply Forall_app in Hns' as Hq. destruct Hq as [_ [Hn _]%Forall_cons]. apply (Hd n Hn); [done|].
  exists q. by rewrite <- app_assoc.
Qed.

Lemma put_leaf_spec c h ns key value : cache_ok c -> Forall nibble_ok ns -> dead c ns ->
  HashValue.wf key -> ns `prefix_of` key_nibbles key ->
  exists c', TreeCache.put_node (key_at cur ns) (Node.new_leaf key value) c = (c', Ok tt) /\ cache_ok c' /\
    changes (eq ns) c c' /\ view c' (key_at cur ns) = Some (Node.new_leaf key value) /\
    rep c' h cur ns {[key := value]}.
Proof.
  intros Hok Hns Hd Hkey Hp.
  destruct (put_node_spec c ns (Node.new_leaf key value)) as (c' & E & Hok' & Hch & Hv & Hl);
    [done|done|intros; by apply dead_nil|].
  exists c'. split_and!; [done..|].
  assert (below ns {[key := value]}) as Hb.
  { intros k v [<- <-]%lookup_singleton_Some. done. }
  destruct h; (split; [done|]); (split; [done|]); rewrite Hv; (split; [done|]); intros n Hn;
    (eapply changes_dead; [exact Hch | intros ns' Hp' ->; by apply snoc_prefix_ne in Hp' |]);
    intros v' ns' Hns' Hp'; apply Hd; [done| |done|]; (etrans; [|exact Hp']); by apply prefix_app_r.
Qed.

(** The subtrees of the children [cs] below [ns]. *)
Definition children_rep c (h : nat) (ns : list Z) (cs : Children) m : Prop :=
  (forall n ch, cs !! n = Some ch -> nibble_ok n /\
     exists node, view c (key_at (Child.version ch) (ns ++ [n])) = Some node /\ describes sha3_256 counted ch node /\
       rep c h (Child.version ch) (ns ++ [n]) (part (length ns) 0 n m)) /\
  (forall n, nibble_ok n -> cs !! n = None -> part (length ns) 0 n m = ∅ /\ dead c (ns ++ [n])).

Lemma children_rep_changes Q c c' h ns cs m : changes Q c c' ->
  (forall n ns', ns ++ [n] `prefix_of` ns' -> ~ Q ns') -> Forall nibble_ok ns ->
  (S h + length ns = ROOT_NIBBLE_HEIGHT)%nat -> children_rep c h ns cs m -> children_rep c' h ns cs m.
Proof.
  intros Hc HQ Hns Hl [H1 H2]. split.
  - intros n ch Hch. destruct (H1 n ch Hch) as (Hn & node & Hv & Hd & Hr). split; [done|]. exists node.
    assert (Forall nibble_ok (ns ++ [n])) as Hns' by (apply Forall_app; auto).
    rewrite (changes_view _ _ _ _ _ Hc) by (done || by eapply HQ). split_and!; [done..|].
    eapply rep_changes; [exact Hc | by apply HQ | done | rewrite length_app; cbn [length]; lia | done].
  - intros n Hn Hch. destruct (H2 n Hn Hch) as [Hp Hd]. split; [done|].
    eapply changes_dead; [exact Hc | by apply HQ | done].
Qed.

Lemma children_rep_lookup c h ns cs m k v : children_rep c h ns cs m -> keys_ok m -> m !! k = Some v ->
  exists ch, cs !! nib (length ns) k = Some ch.
Proof.
  intros [_ H2] Hm Hk. destruct (cs !! nib (length ns) k) as [ch|] eqn:E; [eauto|].
  destruct (H2 (nib (length ns) k) (nib_ok _ _ (Hm k v Hk)) E) as [Hp _].
  rewrite <- (part_lookup_nib (length ns) m k (nib (length ns) k) eq_refl) in Hk. rewrite Hp in Hk.
  by apply lookup_empty_Some in Hk.
Qed.

(** The constructor accepts the children of a map with two keys. *)
Lemma new_migration_spec {E} c h ns cs m mig : children_rep c h ns cs m -> below ns m -> (2 <= size m)%nat ->
  exists i, InternalNode.new_migration (E := E) cs mig = Ok i /\ InternalNode.children i = cs /\
    InternalNode.leaf_count i = InternalNode.sum_leaf_count cs.
Proof.
  intros Hcr Hb Hs. unfold InternalNode.new_migration, InternalNode.new_impl, Children in *.
  assert (m <> ∅) as (k & v & Hk)%map_choose by (intros ->; rewrite map_size_empty in Hs; lia).
  destruct (children_rep_lookup _ _ _ _ _ k v Hcr (below_keys _ _ Hb) Hk) as [ch Hch].
  rewrite bool_decide_false by (intros ->; by apply lookup_empty_Some in Hch). cbn [negb ensure]. rewrite bind_Ok.
  destruct (Nat.eqb_spec (size cs) 1) as [H1|H1]; [|rewrite bind_Ok; by eexists].
  assert (cs = {[nib (length ns) k := ch]}) as Hcs.
  { rewrite <- length_map_to_list in H1. destruct (map_to_list cs) as [|[n' ch'] [|]] eqn:Ecs; try done.
    apply elem_of_map_to_list in Hch. rewrite Ecs in Hch. apply list_elem_of_singleton in Hch. injection Hch as -> ->.
    apply map_to_list_inj. by rewrite Ecs, map_to_list_singleton. }
  rewrite Hcs, map_to_list_singleton. cbn [fmap list_fmap head expect snd]. rewrite bind_Ok.
  assert (Child.is_leaf ch = false) as ->; [|cbn [negb ensure]; rewrite bind_Ok; by eexists].
  destruct Hcr as [Hc1 Hc2]. destruct (Hc1 _ ch Hch) as (_ & node & Hv & Hd & Hr).
  destruct Hd as (_ & -> & _).
  destruct (represents_node _ _ _ _ _ _ _ _ _ Hr) as (node' & Hv' & _ & _ & Hleaf).
  rewrite Hv in Hv'. injection Hv' as <-. apply not_true_iff_false. rewrite Hleaf.
  assert (part (length ns) 0 (nib (length ns) k) m = m) as ->; [|lia].
  apply map_filter_id. intros k' v' Hk'. cbn [fst]. rewrite Z.shiftr_0_r.
  destruct (children_rep_lookup _ _ _ _ _ k' v' (conj Hc1 Hc2) (below_keys _ _ Hb) Hk') as [ch' Hch'].
  rewrite Hcs in Hch'. by apply lookup_singleton_Some in Hch' as [-> _].
Qed.

Lemma put_internal_spec c h ns cs m i : cache_ok c -> Forall nibble_ok ns ->
  (S h + length ns = ROOT_NIBBLE_HEIGHT)%nat ->
  (forall v', TreeCache.node_cache c !! key_at v' ns = None) ->
  children_rep c h ns cs m -> below ns m -> (2 <= size m)%nat ->
  InternalNode.children i = cs -> InternalNode.leaf_count i = InternalNode.sum_leaf_count cs ->
  exists c', TreeCache.put_node (key_at cur ns) (Node.Internal i) c = (c', Ok tt) /\ cache_ok c' /\
    changes (eq ns) c c' /\ view c' (key_at cur ns) = Some (Node.Internal i) /\ rep c' (S h) cur ns m.
Proof.
  intros Hok Hns Hl Hnone Hcr Hb Hs Hi Hlc.
  destruct (put_node_spec c ns (Node.Internal i)) as (c' & E & Hok' & Hch & Hv & Hlive); [done..|].
  exists c'. split_and!; [done..|].
  assert (children_rep c' h ns cs m) as [H1 H2].
  { eapply children_rep_changes; [exact Hch | | done | done | done]. intros n ns' Hp. by apply snoc_prefix_ne in Hp. }
  split; [done|]. split; [done|]. rewrite Hv, Hi. split_and!; [done..|exact H1|exact H2].
Qed.

End cache.
