(* ===== verification/JellyfishPut.v ===== *)
(** * Insertion key by key (proofs about storage/jellyfish-merkle/src/lib.rs)

    [insert_at] and the functions it calls, from the leaf up: a new leaf, the
    internal nodes above the fork of two keys, the replacement of a child. Each
    lemma says which node is returned, which nodes the cache gains and loses, and
    that the subtree of the map with the key inserted is then represented. *)
From stdpp Require Import prelude gmap strings.
From Stdlib Require Import ZArith Lia.
From S2P Require Import Prelude Bits HashValues SparseMerkle Nibbles JellyfishNodes JellyfishSpec.
From S2P Require Import JellyfishHash TreeCache Jellyfish JellyfishRep JellyfishCache.

Section subtrees.
Context (sha3_256 : list Z -> HashValue.t) (counted : Prop) {R V : Type} `{StoredNodes R V} {HV : Value V}.
Context (cur last : Z) (Hcur : cur <= last).
Implicit Types (m : gmap HashValue.t V) (c : TreeCache.t R V).

Abbreviation rep := (rep sha3_256 counted cur last).
Abbreviation cache_ok := (cache_ok cur last).
Abbreviation wrote := (wrote sha3_256 counted cur last).
Abbreviation children_rep := (children_rep sha3_256 counted cur last).

Lemma rep_describes c h v ns m : rep c h v ns m -> (h + length ns = ROOT_NIBBLE_HEIGHT)%nat ->
  forall node, view c (key_at v ns) = Some node -> exists hash ty,
    Node.hash sha3_256 (E := error) node = Ok hash /\ Node.node_type (E := error) node = Ok ty.
Proof.
  intros Hr Hl node Hv. destruct (represents_hash _ _ _ _ _ _ _ _ _ node Hr Hl Hv) as [Hh _].
  destruct (represents_node _ _ _ _ _ _ _ _ _ Hr) as (node' & Hv' & Hnull & _).
  rewrite Hv in Hv'. injection Hv' as <-. destruct node; [done|..]; cbn [Node.node_type]; eauto.
Qed.

(** A subtree replaces that of child [x]. *)
Lemma children_rep_insert c1 c2 h ns cs m m' x node hash ty : children_rep c1 h ns cs m ->
  changes (prefix (ns ++ [x])) c1 c2 -> Forall nibble_ok ns -> nibble_ok x ->
  (S h + length ns = ROOT_NIBBLE_HEIGHT)%nat ->
  view c2 (key_at cur (ns ++ [x])) = Some node ->
  Node.hash sha3_256 (E := error) node = Ok hash -> Node.node_type (E := error) node = Ok ty ->
  rep c2 h cur (ns ++ [x]) (part (length ns) 0 x m') ->
  (forall n, n <> x -> part (length ns) 0 n m' = part (length ns) 0 n m) ->
  children_rep c2 h ns (<[x := Child.new hash cur ty]> cs) m'.
Proof.
  intros [H1 H2] Hch Hns Hx Hl Hv Hh Ht Hr Hm. split.
  - intros n ch [[<- <-]|[Hne Hc]]%lookup_insert_Some.
    + split; [done|]. exists node. split_and!; [done | by apply describes_new | done].
    + destruct (H1 n ch Hc) as (Hn & node' & Hv' & Hd & Hr'). split; [done|]. exists node'.
      assert (Forall nibble_ok (ns ++ [n])) as Hns' by (apply Forall_app; auto).
      assert (forall ns', ns ++ [n] `prefix_of` ns' -> ~ ns ++ [x] `prefix_of` ns') as HQ.
      { intros ns' Hp Hp'. by apply Hne, (snoc_prefix_other ns ns' x n). }
      rewrite (changes_view _ _ _ _ _ Hch) by (done || by apply HQ). split_and!; [done..|].
      rewrite Hm by done. eapply rep_changes; [exact Hch | done | done | rewrite length_app; cbn [length]; lia | done].
  - intros n Hn [Hc Hne]%lookup_insert_None. destruct (H2 n Hn Hc) as [Hp Hd]. rewrite Hm by done. split; [done|].
    eapply changes_dead; [exact Hch | | done]. intros ns' Hp' Hp''. by apply Hne, (snoc_prefix_other ns ns' x n).
Qed.

(** A new internal node above the subtrees of its children. *)
Lemma put_children_spec {B} c h ns cs m mig (K : InternalNode.t -> action (TreeCache.t R V) error B) :
  cache_ok c -> Forall nibble_ok ns -> (S h + length ns = ROOT_NIBBLE_HEIGHT)%nat ->
  (forall v', TreeCache.node_cache c !! key_at v' ns = None) ->
  children_rep c h ns cs m -> below ns m -> (2 <= size m)%nat ->
  exists i c', (i ← lift (InternalNode.new_migration cs mig);
                TreeCache.put_node (key_at cur ns) (Node.Internal i) ;; K i) c = K i c' /\
    cache_ok c' /\ changes (eq ns) c c' /\ view c' (key_at cur ns) = Some (Node.Internal i) /\
    rep c' (S h) cur ns m.
Proof.
  intros Hok Hns Hl Hnone Hcr Hb Hs.
  destruct (new_migration_spec (E := error) sha3_256 counted cur last c h ns cs m mig Hcr Hb Hs) as (i & E & Hi1 & Hi2).
  destruct (put_internal_spec sha3_256 counted cur last Hcur c h ns cs m i) as (c' & E' & Hrest); [done..|].
  exists i, c'. rewrite (bind_lift _ _ _ i E), (bind_run _ _ _ _ _ E'). done.
Qed.

Lemma put_leaf_wrote c h ns key value : cache_ok c -> Forall nibble_ok ns -> dead c ns ->
  HashValue.wf key -> ns `prefix_of` key_nibbles key ->
  wrote c h ns {[key := value]}
    ((TreeCache.put_node (key_at cur ns) (Node.new_leaf key value) ;; mret (key_at cur ns, Node.new_leaf key value)) c).
Proof.
  intros Hok Hns Hd Hkey Hp.
  destruct (put_leaf_spec sha3_256 counted cur last Hcur c h ns key value) as (c' & E & Hok' & Hch & Hv & Hr); [done..|].
  exists c', (Node.new_leaf key value). rewrite (bind_run _ _ _ _ _ E). split_and!; [done|done| |done|done].
  eapply changes_weaken; [exact Hch|]. by intros ? <-.
Qed.

Lemma below_insert ns m key value : below ns m -> HashValue.wf key -> ns `prefix_of` key_nibbles key ->
  below ns (<[key := value]> m).
Proof. intros Hm Hk Hp. by apply map_Forall_insert_2. Qed.

Lemma size_insert_le m key (value : V) : (size m <= size (<[key := value]> m))%nat.
Proof. rewrite map_size_insert. destruct (m !! key); cbn; lia. Qed.

Lemma prefix_take_drop (ns l : list Z) : ns `prefix_of` l -> l = ns ++ drop (length ns) l.
Proof. intros [q ->]. by rewrite drop_app_length. Qed.

Section key.
Context (self : JellyfishMerkleTree.t R) (key : HashValue.t) (value : V) (Hkey : HashValue.wf key).

Abbreviation iter i := (iter_at (key_nibbles key) i ROOT_NIBBLE_HEIGHT 0).

(** ** A new leaf *)

Lemma create_leaf_run node_key i c : (i <= ROOT_NIBBLE_HEIGHT)%nat ->
  JellyfishMerkleTree.create_leaf_node node_key (iter i) value c =
  (TreeCache.put_node node_key (Node.new_leaf key value) ;; mret (node_key, Node.new_leaf key value)) c.
Proof.
  intros Hi. unfold JellyfishMerkleTree.create_leaf_node.
  pose proof (key_nibbles_length key Hkey) as Hl. pose proof (key_nibbles_ok key Hkey) as Hn.
  rewrite (bind_lift _ _ _ (of_nibbles (key_nibbles key))).
  2: { rewrite <- Hl at 1. by apply get_nibble_path_nibbles; [|rewrite Hl..]. }
  cbn [of_nibbles NibblePath.bytes]. unfold key_nibbles. rewrite pack_bytes by by apply wf_bytes.
  rewrite (bind_lift _ _ _ key); [done|]. unfold HashValue.from_slice. rewrite bool_decide_true by apply Hkey.
  by destruct key.
Qed.

Lemma create_leaf_result node_key i c c' node_key' node : (i <= ROOT_NIBBLE_HEIGHT)%nat ->
  JellyfishMerkleTree.create_leaf_node node_key (iter i) value c = (c', Ok (node_key', node)) ->
  node = Node.new_leaf key value.
Proof.
  intros Hi. rewrite create_leaf_run by done. unfold mbind, action_bind.
  destruct (TreeCache.put_node _ _ _) as [? []]; [|done..]. by intros [= _ _ <-].
Qed.

Lemma create_leaf_spec c h ns i : cache_ok c -> Forall nibble_ok ns -> dead c ns -> ns `prefix_of` key_nibbles key ->
  (i <= ROOT_NIBBLE_HEIGHT)%nat ->
  wrote c h ns {[key := value]} (JellyfishMerkleTree.create_leaf_node (key_at cur ns) (iter i) value c).
Proof.
  intros Hok Hns Hd Hp Hi. rewrite create_leaf_run by done. by apply put_leaf_wrote.
Qed.

(** ** Below an internal node *)

Lemma insert_at_internal_spec rec c h v0 ns m i : cache_ok c -> Forall nibble_ok ns ->
  (S h + length ns = ROOT_NIBBLE_HEIGHT)%nat -> ns `prefix_of` key_nibbles key ->
  rep c (S h) v0 ns m -> view c (key_at v0 ns) = Some (Node.Internal i) ->
  (forall c' ch, let x := nib (length ns) key in InternalNode.children i !! x = Some ch -> cache_ok c' ->
     rep c' h (Child.version ch) (ns ++ [x]) (part (length ns) 0 x m) ->
     wrote c' h (ns ++ [x]) (<[key := value]> (part (length ns) 0 x m))
       (rec (key_at (Child.version ch) (ns ++ [x])) (iter (S (length ns))) c')) ->
  wrote c (S h) ns (<[key := value]> m)
    (JellyfishMerkleTree.insert_at_internal_node sha3_256 self rec (key_at v0 ns) i cur (iter (length ns)) value c).
Proof.
  intros Hok Hns Hl Hp Hr Hv Hrec. unfold JellyfishMerkleTree.insert_at_internal_node.
  destruct (delete_node_spec cur last c v0 ns false) as (c1 & E1 & Hok1 & Hch1 & Hnone1);
    [done | done | by eapply represents_live |].
  rewrite (bind_run _ _ _ _ _ E1).
  rewrite (bind_lift _ _ _ (iter (S (length ns)), Some (nib (length ns) key))); last first.
  { apply next_nibbles; [by apply key_nibbles_ok | lia | by apply nib_lookup; [|lia]]. }
  set (x := nib (length ns) key) in *. assert (nibble_ok x) as Hx by by apply nib_ok.
  assert (Forall nibble_ok (ns ++ [x])) as Hnsx by (apply Forall_app; auto).
  rewrite (bind_lift _ _ _ x) by done.
  destruct Hr as (Hb & _ & Hr). rewrite Hv in Hr. destruct Hr as (Hs & _ & Hsome & Hdead).
  assert (children_rep c1 h ns (InternalNode.children i) m) as Hcr1.
  { eapply children_rep_changes; [exact Hch1 | | done | done | split; [exact Hsome | exact Hdead]].
    intros n ns' Hp'. by apply snoc_prefix_ne in Hp'. }
  assert (wrote c1 h (ns ++ [x]) (<[key := value]> (part (length ns) 0 x m))
    (match InternalNode.children i !! x with
     | Some child =>
         child_node_key ← lift (NodeKey.gen_child_node_key (key_at v0 ns) (Child.version child) x);
         rec child_node_key (iter (S (length ns)))
     | None =>
         new_child_node_key ← lift (NodeKey.gen_child_node_key (key_at v0 ns) cur x);
         JellyfishMerkleTree.create_leaf_node new_child_node_key (iter (S (length ns))) value
     end c1)) as (c2 & node & E2 & Hok2 & Hch2 & Hv2 & Hr2).
  { destruct Hcr1 as [H1 H2]. destruct (InternalNode.children i !! x) as [ch|] eqn:Ex.
    - rewrite (bind_lift _ _ _ (key_at (Child.version ch) (ns ++ [x]))) by by apply gen_child_key_at; [| |lia].
      apply Hrec; [done..|]. by destruct (H1 x ch Ex) as (_ & _ & _ & _ & ?).
    - rewrite (bind_lift _ _ _ (key_at cur (ns ++ [x]))) by by apply gen_child_key_at; [| |lia].
      destruct (H2 x Hx Ex) as [-> Hd]. apply create_leaf_spec; [done..| |lia]. by apply prefix_nib; [| |lia]. }
  rewrite (bind_run _ _ _ _ _ E2).
  destruct (rep_describes _ _ _ _ _ Hr2 ltac:(rewrite length_app; cbn [length]; lia) node Hv2) as (hash & ty & Hh & Ht).
  rewrite (bind_lift _ _ _ hash), (bind_lift _ _ _ ty) by done.
  assert (children_rep c2 h ns (<[x := Child.new hash cur ty]> (InternalNode.children i)) (<[key := value]> m)) as Hcr2.
  { eapply children_rep_insert; [exact Hcr1 | done..| |].
    - rewrite part_insert, bool_decide_true by apply Z.shiftr_0_r. exact Hr2.
    - intros n Hn. rewrite part_insert, bool_decide_false; [done|]. rewrite Z.shiftr_0_r. by fold x. }
  assert (below ns (<[key := value]> m)) as Hb2 by by apply below_insert.
  pose proof (size_insert_le m key value) as Hs2.
  change (NodeKey.set_version (key_at v0 ns) cur) with (key_at cur ns).
  destruct (put_children_spec c2 h ns (<[x := Child.new hash cur ty]> (InternalNode.children i)) (<[key := value]> m) (JellyfishMerkleTree.leaf_count_migration self)
    (fun i => mret (key_at cur ns, Node.Internal (V := V) i))) as (i' & c3 & -> & Hok3 & Hch3 & Hv3 & Hr3);
    [done | done | done | | exact Hcr2 | done | lia |].
  { intros v'. rewrite (same_nodes _ _ _ Hch2) by (done || intros Hp'; by apply snoc_prefix_ne in Hp'). apply Hnone1. }
  exists c3, (Node.Internal i'). split_and!; [done|done| |done|done].
  eapply changes_trans; [exact Hch1 | eapply changes_trans; [exact Hch2 | exact Hch3 | |] | |]; cycle 2.
  - by intros ? <-.
  - exact (fun ns' Hn => Hn).
  - intros ns' Hn. etrans; [|exact Hn]. by apply prefix_app_r.
  - by intros ? <-.
Qed.

(** ** At a leaf *)

(** Of the paths below [ns], only those below [P] have nodes in the cache. *)
Definition clear_to c (ns P : list Z) : Prop := forall v' ns', Forall nibble_ok ns' -> ns `prefix_of` ns' ->
  ~ P `prefix_of` ns' -> TreeCache.node_cache c !! key_at v' ns' = None.

(** A map whose keys all have the nibble [n] next. *)
Lemma part_only Q n m : below (Q ++ [n]) m ->
  part (length Q) 0 n m = m /\ forall n', n' <> n -> part (length Q) 0 n' m = ∅.
Proof.
  intros Hb. assert (forall k v, m !! k = Some v -> nib (length Q) k = n) as Hnib.
  { intros k v Hk. apply nib_prefix. by apply (Hb k v). }
  split.
  - apply map_filter_id. intros k v Hk. cbn [fst]. rewrite Z.shiftr_0_r. eauto.
  - intros n' Hn. apply part_empty. intros k v Hk. rewrite Z.shiftr_0_r, (Hnib k v Hk). done.
Qed.

Lemma below_shorter Q n m : below (Q ++ [n]) m -> below Q m.
Proof.
  intros Hb k v Hk. destruct (Hb k v Hk) as [Hw Hp]. split; [done|]. etrans; [|exact Hp]. by apply prefix_app_r.
Qed.

Lemma parents_loop_spec k : forall c h ns P node m, cache_ok c -> Forall nibble_ok P -> ns `prefix_of` P ->
  length P = (length ns + k)%nat -> (h + length P = ROOT_NIBBLE_HEIGHT)%nat ->
  rep c h cur P m -> view c (key_at cur P) = Some node -> (2 <= size m)%nat -> clear_to c ns P ->
  wrote c (h + k) ns m
    (JellyfishMerkleTree.parents_loop sha3_256 self k cur (of_nibbles P) (key_at cur P) node c).
Proof.
  induction k as [|k IH]; intros c h ns P node m Hok HP Hp Hlen Hl Hr Hv Hs Hclear.
  { assert (ns = P) as <- by (apply prefix_length_eq; [done|lia]). rewrite Nat.add_0_r in *.
    exists c, node. split_and!; [done|done|apply changes_refl|done|done]. }
  destruct P as [|n Q] using rev_ind; [cbn in Hlen; lia|]. clear IHQ.
  assert (ns `prefix_of` Q) as HpQ.
  { destruct (prefix_weak_total ns Q (Q ++ [n])) as [?|Hq]; [done | by apply prefix_app_r | done |].
    rewrite length_app in Hlen. apply prefix_length in Hq as Hq'. cbn [length] in Hlen.
    assert (length ns = length Q) as E by lia. apply prefix_length_eq in Hq as ->; [done | lia]. }
  apply Forall_app in HP as HQ. destruct HQ as [HQ [Hn _]%Forall_cons]. rewrite length_app in *. cbn [length] in Hlen, Hl.
  cbn [JellyfishMerkleTree.parents_loop].
  rewrite (bind_lift _ _ _ (of_nibbles Q, Some n)) by by apply pop_nibbles.
  rewrite (bind_lift _ _ _ n) by done. change (NodeKey.new cur (of_nibbles Q)) with (key_at cur Q).
  destruct (rep_describes _ _ _ _ _ Hr ltac:(rewrite length_app; cbn [length]; lia) node Hv) as (hash & ty & Hh & Ht).
  rewrite (bind_lift _ _ _ hash), (bind_lift _ _ _ ty) by done.
  pose proof (represents_below _ _ _ _ _ _ _ _ _ Hr) as Hb. destruct (part_only Q n m Hb) as [Hpart Hother].
  assert (children_rep c h Q {[n := Child.new hash cur ty]} m) as Hcr.
  { split.
    - intros n' ch [<- <-]%lookup_singleton_Some. split; [done|]. exists node. rewrite Hpart.
      split_and!; [done | by apply describes_new | done].
    - intros n' Hn' Hne%lookup_singleton_None. split; [by apply Hother|].
      intros v' ns' Hns' Hp'. apply Hclear; [done| |].
      + etrans; [exact HpQ|]. etrans; [|exact Hp']. by apply prefix_app_r.
      + intros Hp''. by apply Hne, (snoc_prefix_other Q ns' n n'). }
  destruct (put_children_spec c h Q {[n := Child.new hash cur ty]} m (JellyfishMerkleTree.leaf_count_migration self)
    (fun i => JellyfishMerkleTree.parents_loop sha3_256 self k cur (of_nibbles Q) (key_at cur Q) (Node.Internal i)))
    as (i & c' & -> & Hok' & Hch & Hv' & Hr'); [done|done|lia| |done|by eapply below_shorter|done|].
  { intros v'. apply Hclear; [done|done|]. intros Hp'. by apply snoc_prefix_ne in Hp'. }
  destruct (IH c' (S h) ns Q (Node.Internal i) m) as (c2 & node2 & E2 & Hok2 & Hch2 & Hv2 & Hr2);
    [done|done|done|lia|lia|done|done|done| |].
  { intros v' ns' Hns' Hp1 Hp2. rewrite (same_nodes _ _ _ Hch); [|done|by intros <-].
    apply Hclear; [done|done|]. intros Hp3. apply Hp2. etrans; [|exact Hp3]. by apply prefix_app_r. }
  exists c2, node2. rewrite E2. rewrite Nat.add_succ_comm in Hr2. split_and!; [done|done| |done|done].
  eapply changes_trans; [exact Hch | exact Hch2 | by intros ? <- | done].
Qed.

(** Two leaves below a path without nodes. *)
Lemma two_leaves_spec c h P k0 w0 e : let x := nib (length P) key in
  cache_ok c -> Forall nibble_ok P -> (S h + length P = ROOT_NIBBLE_HEIGHT)%nat -> dead c P -> HashValue.wf k0 ->
  P ++ [e] `prefix_of` key_nibbles k0 -> P ++ [x] `prefix_of` key_nibbles key -> e <> x -> nibble_ok e ->
  exists c1 c2, TreeCache.put_node (key_at cur (P ++ [e])) (Node.new_leaf k0 w0) c = (c1, Ok tt) /\
    JellyfishMerkleTree.create_leaf_node (key_at cur (P ++ [x])) (iter (S (length P))) value c1 =
      (c2, Ok (key_at cur (P ++ [x]), Node.new_leaf key value)) /\
    cache_ok c2 /\ changes (fun ns' => P `prefix_of` ns' /\ P <> ns') c c2 /\
    children_rep c2 h P
      (<[x := Child.new (LeafNode.hash sha3_256 (LeafNode.new key value)) cur NodeType.Leaf]>
         {[e := Child.new (LeafNode.hash sha3_256 (LeafNode.new k0 w0)) cur NodeType.Leaf]})
      (<[key := value]> {[k0 := w0]}).
Proof.
  intros x Hok HP Hl Hd Hk0 Hpe Hpx Hex He. assert (nibble_ok x) as Hx by by apply nib_ok.
  assert (forall n, nibble_ok n -> Forall nibble_ok (P ++ [n])) as HPn by (intros; apply Forall_app; auto).
  assert (forall n, dead c (P ++ [n])) as HdP.
  { intros n v' ns' Hns' Hp'. apply Hd; [done|]. etrans; [|exact Hp']. by apply prefix_app_r. }
  destruct (put_leaf_spec sha3_256 counted cur last Hcur c h (P ++ [e]) k0 w0) as (c1 & E1 & Hok1 & Hch1 & Hv1 & Hr1); auto.
  assert (forall n, n <> e -> dead c1 (P ++ [n])) as Hd1.
  { intros n Hn. eapply changes_dead; [exact Hch1 | | done]. intros ns' Hp' <-.
    by apply Hn, (snoc_prefix_other P (P ++ [e])). }
  destruct (create_leaf_spec c1 h (P ++ [x]) (S (length P))) as (c2 & node & E2 & Hok2 & Hch2 & Hv2 & Hr2); auto; [lia|].
  assert (node = Node.new_leaf key value) as -> by (eapply create_leaf_result, E2; lia).
  exists c1, c2. split; [done|]. split; [done|]. split; [done|].
  assert (forall n ns', P ++ [n] `prefix_of` ns' -> P `prefix_of` ns' /\ P <> ns') as Hsub.
  { intros n ns' Hp. split; [|by eapply snoc_prefix_ne]. etrans; [|exact Hp]. by apply prefix_app_r. }
  split; [eapply changes_trans; [exact Hch1 | exact Hch2 | intros ? <-; by eapply Hsub | by eauto]|].
  eapply children_rep_insert; [|exact Hch2 | done | done | done | exact Hv2 | done | done | |].
  - destruct (part_only P e {[k0 := w0]}) as [Hpart Hother]; [by eapply represents_below|]. split.
    + intros n ch [<- <-]%lookup_singleton_Some. split; [done|]. exists (Node.new_leaf k0 w0). by rewrite Hpart.
    + intros n Hn Hne%lookup_singleton_None. split; [by apply Hother | by apply Hd1].
  - rewrite part_insert, bool_decide_true by apply Z.shiftr_0_r. rewrite part_empty; [done|].
    intros k v [<- <-]%lookup_singleton_Some. by rewrite Z.shiftr_0_r, (nib_prefix _ _ _ Hpe).
  - intros n Hn. rewrite part_insert, bool_decide_false; [done|]. rewrite Z.shiftr_0_r. by fold x.
Qed.

(** A leaf and the new key part ways below the path [P]. *)
Lemma fork_spec c h ns P k0 w0 e : let x := nib (length P) key in
  cache_ok c -> Forall nibble_ok P -> ns `prefix_of` P -> (h + length ns = ROOT_NIBBLE_HEIGHT)%nat ->
  (length P < ROOT_NIBBLE_HEIGHT)%nat -> dead c ns -> HashValue.wf k0 ->
  P ++ [e] `prefix_of` key_nibbles k0 -> P ++ [x] `prefix_of` key_nibbles key -> e <> x -> nibble_ok e ->
  wrote c h ns (<[key := value]> {[k0 := w0]})
    ((existing_leaf_key ← lift (NodeKey.gen_child_node_key (key_at cur P) cur e);
      TreeCache.put_node existing_leaf_key (Node.new_leaf k0 w0) ;;
      new_leaf_key ← lift (NodeKey.gen_child_node_key (key_at cur P) cur x);
      '(_, new_leaf_node) ← JellyfishMerkleTree.create_leaf_node new_leaf_key (iter (S (length P))) value;
      new_leaf_hash ← lift (Node.hash sha3_256 new_leaf_node);
      let children := <[x := Child.new new_leaf_hash cur NodeType.Leaf]>
        {[e := Child.new (LeafNode.hash sha3_256 (LeafNode.new k0 w0)) cur NodeType.Leaf]} in
      internal_node ← lift (InternalNode.new_migration children (JellyfishMerkleTree.leaf_count_migration self));
      TreeCache.put_node (key_at cur P) (Node.Internal internal_node) ;;
      JellyfishMerkleTree.parents_loop sha3_256 self (length P - length ns) cur (of_nibbles P) (key_at cur P)
        (Node.Internal internal_node)) c).
Proof.
  intros x Hok HP Hp Hl HlP Hd Hk0 Hpe Hpx Hex He. assert (nibble_ok x) as Hx by by apply nib_ok.
  apply prefix_length in Hp as HlenP. set (h1 := (ROOT_NIBBLE_HEIGHT - S (length P))%nat).
  assert (dead c P) as HdP by (intros v' ns' Hns' Hp'; apply Hd; [done | by etrans]).
  destruct (two_leaves_spec c h1 P k0 w0 e) as (c1 & c2 & E1 & E2 & Hok2 & Hch2 & Hcr2); [done|done|unfold h1; lia|done..|].
  rewrite (bind_lift _ _ _ (key_at cur (P ++ [e]))), (bind_run _ _ _ _ _ E1) by by apply gen_child_key_at.
  rewrite (bind_lift _ _ _ (key_at cur (P ++ [x]))), (bind_run _ _ _ _ _ E2) by by apply gen_child_key_at.
  cbv beta iota. rewrite (bind_lift _ _ _ (LeafNode.hash sha3_256 (LeafNode.new key value))) by done.
  cbv zeta. fold x in Hcr2. set (m := <[key := value]> {[k0 := w0]}) in *. set (cs := <[x := _]> {[e := _]}) in *.
  assert (below P m) as Hb.
  { apply below_insert; [|done|etrans; [|exact Hpx]; by apply prefix_app_r].
    intros k v [<- <-]%lookup_singleton_Some. split; [done|]. etrans; [|exact Hpe]. by apply prefix_app_r. }
  assert (2 <= size m)%nat as Hs.
  { unfold m. rewrite map_size_insert, map_size_singleton, lookup_singleton_ne; [cbn; lia|].
    intros ->. apply Hex. by rewrite <- (nib_prefix _ _ _ Hpe), <- (nib_prefix _ _ _ Hpx). }
  destruct (put_children_spec c2 h1 P cs m (JellyfishMerkleTree.leaf_count_migration self)
    (fun i => JellyfishMerkleTree.parents_loop sha3_256 self (length P - length ns) cur (of_nibbles P) (key_at cur P) (Node.Internal i)))
    as (i & c3 & -> & Hok3 & Hch3 & Hv3 & Hr3); [done|done|unfold h1; lia| |done..|].
  { intros v'. rewrite (same_nodes _ _ _ Hch2) by tauto. by apply HdP. }
  destruct (parents_loop_spec (length P - length ns) c3 (S h1) ns P (Node.Internal i) m) as (c4 & node & E4 & Hok4 & Hch4 & Hv4 & Hr4);
    [done|done|done|lia|unfold h1; lia|done|done|done| |].
  { intros v' ns' Hns' Hp1 Hp2. rewrite (same_nodes _ _ _ Hch3); [|done|by intros <-].
    rewrite (same_nodes _ _ _ Hch2); [by apply Hd|done|tauto]. }
  exists c4, node. replace (S h1 + (length P - length ns))%nat with h in Hr4 by (unfold h1; lia).
  split_and!; [done|done| |done|done].
  eapply changes_step; [exact Hch2 | intros ? []; by etrans|].
  eapply changes_step; [exact Hch3 | by intros ? <- | done].
Qed.

(** The place where the key leaves the path of an existing leaf. *)
Lemma lcp_key ns k0 : HashValue.wf k0 -> ns `prefix_of` key_nibbles key -> ns `prefix_of` key_nibbles k0 ->
  let n := lcp (drop (length ns) (key_nibbles key)) (drop (length ns) (key_nibbles k0)) in
  let P := take (length ns + n) (key_nibbles key) in
  (length ns + n <= ROOT_NIBBLE_HEIGHT)%nat /\ ns `prefix_of` P /\ length P = (length ns + n)%nat /\
  ((length ns + n)%nat = ROOT_NIBBLE_HEIGHT /\ key = k0 \/
   (length ns + n < ROOT_NIBBLE_HEIGHT)%nat /\ P ++ [nib (length P) key] `prefix_of` key_nibbles key /\
   P ++ [nib (length P) k0] `prefix_of` key_nibbles k0 /\ nib (length P) k0 <> nib (length P) key).
Proof.
  intros Hk0 Hp Hp0. set (kn := key_nibbles key). set (kn0 := key_nibbles k0). intros n P.
  pose proof (key_nibbles_length key Hkey) as Hl. pose proof (key_nibbles_length k0 Hk0) as Hl0. fold kn in Hl. fold kn0 in Hl0.
  destruct (lcp_spec (drop (length ns) kn) (drop (length ns) kn0)) as (H1 & H2 & H3). fold n in H1, H2, H3.
  rewrite length_drop in H1. apply prefix_length in Hp as Hlen. fold kn in Hlen.
  assert (take (length ns + n) kn = take (length ns + n) kn0) as HP.
  { rewrite (prefix_take_drop ns kn Hp), (prefix_take_drop ns kn0 Hp0), !take_app_add by done. by rewrite H2. }
  assert (length P = (length ns + n)%nat) as HlP by (unfold P; rewrite length_take; lia).
  split; [lia|]. split; [|split; [done|]].
  { unfold P. rewrite (prefix_take_drop ns kn Hp), take_app_add by done. by apply prefix_app_r. }
  destruct (decide (length ns + n = ROOT_NIBBLE_HEIGHT)%nat) as [E|E]; [left | right].
  - split; [done|]. apply key_nibbles_inj; [done..|]. fold kn kn0.
    rewrite E in HP. by rewrite !take_ge in HP by lia.
  - assert (length P < ROOT_NIBBLE_HEIGHT)%nat as HPlt by lia. split; [lia|]. split_and!.
    + apply prefix_nib; [done | apply prefix_take | done].
    + apply prefix_nib; [done | unfold P; rewrite HP; apply prefix_take | done].
    + pose proof (nib_lookup (length P) key Hkey HPlt) as Hx. pose proof (nib_lookup (length P) k0 Hk0 HPlt) as He.
      fold kn in Hx. fold kn0 in He. rewrite HlP in *. rewrite <- lookup_drop in Hx, He.
      intros Heq. by apply (H3 _ _ Hx He).
Qed.

(** What the iterators of [insert_at_leaf_node] find. *)
Lemma leaf_iterators {E} ns k0 : HashValue.wf k0 -> ns `prefix_of` key_nibbles key -> ns `prefix_of` key_nibbles k0 ->
  let d := length ns in
  let n := lcp (drop d (key_nibbles key)) (drop d (key_nibbles k0)) in
  let P := take (d + n) (key_nibbles key) in
  let iter0 i s := iter_at (key_nibbles k0) i ROOT_NIBBLE_HEIGHT s in
  NibbleIterator.skip_common_prefix (E := E) (NibbleIterator.visited_nibbles (iter d))
    (NibbleIterator.nibbles (of_nibbles (key_nibbles k0))) = Ok (d, iter_at (key_nibbles key) d d 0, iter0 d 0%nat) /\
  NibbleIterator.is_finished (E := E) (iter_at (key_nibbles key) d d 0) = Ok true /\
  NibbleIterator.skip_common_prefix (E := E) (iter d) (iter0 d d) = Ok (n, iter (d + n), iter0 (d + n)%nat d) /\
  NibbleIterator.items (E := E) (NibbleIterator.visited_nibbles (iter (d + n))) = Ok P /\
  NibblePath.from_iter (E := E) P = Ok (of_nibbles P).
Proof.
  intros Hk0 Hp Hp0. destruct (lcp_key ns k0 Hk0 Hp Hp0) as (Hle & _ & HlP & _). intros d n P iter0.
  fold d in Hle, HlP. fold n in Hle, HlP. fold P in HlP.
  pose proof (key_nibbles_length key Hkey) as Hlk. pose proof (key_nibbles_length k0 Hk0) as Hlk0.
  pose proof (key_nibbles_ok key Hkey) as Hnk. pose proof (key_nibbles_ok k0 Hk0) as Hnk0.
  assert (NibbleIterator.nibbles (of_nibbles (key_nibbles k0)) = iter0 0%nat 0%nat) as ->
    by (unfold iter0, NibbleIterator.nibbles; by rewrite <- Hlk0).
  change (NibbleIterator.visited_nibbles (iter ?i)) with (iter_at (key_nibbles key) 0 i 0).
  split_and!.
  - unfold iter0. rewrite skip_common_prefix_nibbles by (done || lia).
    assert (lcp (take (d - 0) (drop 0 (key_nibbles key))) (take (ROOT_NIBBLE_HEIGHT - 0) (drop 0 (key_nibbles k0))) = d) as ->; [|done].
    rewrite !drop_0, !Nat.sub_0_r, (take_ge (key_nibbles k0)) by lia.
    rewrite (prefix_take_drop ns _ Hp), (prefix_take_drop ns _ Hp0). unfold d. rewrite take_app_length.
    rewrite <- (app_nil_r ns) at 1. rewrite lcp_app. cbn [lcp]. lia.
  - rewrite is_finished_nibbles by (done || lia). by rewrite bool_decide_true.
  - unfold iter0. rewrite skip_common_prefix_nibbles by (done || lia).
    by rewrite (take_ge (drop d (key_nibbles key))), (take_ge (drop d (key_nibbles k0))) by (rewrite length_drop; lia).
  - rewrite items_nibbles by (done || lia). by rewrite drop_0, Nat.sub_0_r.
  - apply from_iter_nibbles; [by apply Forall_take | lia].
Qed.

(** Without its leaf, a subtree has no node in the cache. *)
Lemma delete_leaf_spec c h v0 ns m l : cache_ok c -> Forall nibble_ok ns -> rep c h v0 ns m ->
  view c (key_at v0 ns) = Some (Node.Leaf l) ->
  exists c' k0 w0, TreeCache.delete_node (key_at v0 ns) true c = (c', Ok tt) /\ cache_ok c' /\ changes (eq ns) c c' /\
    dead c' ns /\ l = LeafNode.new k0 w0 /\ m = {[k0 := w0]} /\ HashValue.wf k0 /\ ns `prefix_of` key_nibbles k0.
Proof.
  intros Hok Hns Hr Hv.
  destruct (delete_node_spec cur last c v0 ns true) as (c1 & E1 & Hok1 & Hch1 & Hnone1);
    [done | done | by eapply represents_live |].
  assert (below ns m /\ leaf_holds l m /\ forall n, nibble_ok n -> dead c (ns ++ [n])) as (Hb & [Hlv Hm] & Hdead).
  { destruct h; destruct Hr as (Hb & _ & Hr); rewrite Hv in Hr; tauto. }
  exists c1, (LeafNode.account_key l), (LeafNode.value l). split_and!; [done..| |done|done| |].
  2, 3: by apply (Hb _ (LeafNode.value l)); rewrite Hm; apply lookup_singleton_eq.
  apply dead_intro; [done|]. intros n Hn. eapply changes_dead; [exact Hch1 | | by apply Hdead].
  intros ns' Hp'. by eapply snoc_prefix_ne.
Qed.

Lemma insert_at_leaf_spec c h v0 ns m l : cache_ok c -> Forall nibble_ok ns ->
  (h + length ns = ROOT_NIBBLE_HEIGHT)%nat -> ns `prefix_of` key_nibbles key ->
  rep c h v0 ns m -> view c (key_at v0 ns) = Some (Node.Leaf l) ->
  wrote c h ns (<[key := value]> m)
    (JellyfishMerkleTree.insert_at_leaf_node sha3_256 self (key_at v0 ns) l cur (iter (length ns)) value c).
Proof.
  intros Hok Hns Hl Hp Hr Hv. unfold JellyfishMerkleTree.insert_at_leaf_node.
  destruct (delete_leaf_spec c h v0 ns m l) as (c1 & k0 & w0 & E1 & Hok1 & Hch1 & Hd1 & -> & -> & Hk0 & Hp0); [done..|].
  rewrite (bind_run _ _ _ _ _ E1). cbn [LeafNode.new LeafNode.account_key].
  destruct (leaf_iterators (E := error) ns k0 Hk0 Hp Hp0) as (H1 & H2 & H3 & H4 & H5).
  destruct (lcp_key ns k0 Hk0 Hp Hp0) as (Hle & HpP & HlP & Hcases).
  set (d := length ns) in *. set (n := lcp (drop d (key_nibbles key)) (drop d (key_nibbles k0))) in *.
  set (P := take (d + n) (key_nibbles key)) in *.
  pose proof (key_nibbles_length key Hkey) as Hlk. pose proof (key_nibbles_length k0 Hk0) as Hlk0.
  pose proof (key_nibbles_ok key Hkey) as Hnk. pose proof (key_nibbles_ok k0 Hk0) as Hnk0.
  rewrite (bind_lift _ _ _ _ (new_of_key k0 Hk0)), (bind_lift _ _ _ _ H1). cbv beta iota zeta. rewrite (bind_lift _ _ _ _ H2), (bind_lift _ _ _ tt) by done.
  change (NibbleIterator.remaining_nibbles _) with (iter_at (key_nibbles k0) d ROOT_NIBBLE_HEIGHT d).
  rewrite (bind_lift _ _ _ _ H3). cbv beta iota zeta. rewrite (bind_lift _ _ _ _ H4), (bind_lift _ _ _ _ H5).
  rewrite (bind_lift _ _ _ (bool_decide (ROOT_NIBBLE_HEIGHT <= d + n)%nat)) by by rewrite is_finished_nibbles by (done || lia).
  eapply wrote_step; [exact Hch1 | by intros ? <- |]. clear Hch1 E1 Hr Hv H1 H2 H3 H4 H5.
  destruct Hcases as [[Hfull <-]|(Hlt & Hpx & Hpe & Hne)].
  - rewrite bool_decide_true by lia.
    rewrite (bind_lift _ _ _ true) by (rewrite is_finished_nibbles, bool_decide_true by (done || lia); done).
    rewrite (bind_lift _ _ _ tt) by done. rewrite insert_singleton_eq.
    apply create_leaf_spec; [done..|lia].
  - rewrite bool_decide_false by lia.
    rewrite (bind_lift _ _ _ (iter_at (key_nibbles k0) (S (d + n)) ROOT_NIBBLE_HEIGHT d, Some (nib (d + n) k0)))
      by (apply next_nibbles; [done | lia | by apply nib_lookup]).
    rewrite (bind_lift _ _ _ (nib (d + n) k0)) by done.
    rewrite (bind_lift _ _ _ (iter (S (d + n)), Some (nib (d + n) key)))
      by (apply next_nibbles; [done | lia | by apply nib_lookup]).
    rewrite (bind_lift _ _ _ (nib (d + n) key)), (bind_lift _ _ _ tt); [|rewrite HlP in Hne; by rewrite (proj2 (Z.eqb_neq _ _) Hne)|done].
    assert (Forall nibble_ok P) as HP by by apply Forall_take.
    pose proof (fork_spec c1 h ns P k0 w0 (nib (length P) k0) Hok1 HP HpP Hl ltac:(lia) Hd1 Hk0 Hpe Hpx Hne
      (nib_ok _ _ Hk0)) as Hfork.
    rewrite HlP in Hfork. fold d in Hfork. rewrite Nat.add_comm, Nat.add_sub, Nat.add_comm in Hfork. exact Hfork.
Qed.

(** ** Anywhere *)

Lemma insert_at_spec h : forall fuel c v0 ns m, cache_ok c -> Forall nibble_ok ns ->
  (h + length ns = ROOT_NIBBLE_HEIGHT)%nat -> (h < fuel)%nat -> ns `prefix_of` key_nibbles key -> rep c h v0 ns m ->
  wrote c h ns (<[key := value]> m)
    (JellyfishMerkleTree.insert_at sha3_256 self fuel (key_at v0 ns) cur (iter (length ns)) value c).
Proof.
  induction h as [|h IH]; intros fuel c v0 ns m Hok Hns Hl Hf Hp Hr;
    (destruct fuel as [|fuel]; [lia|]); cbn [JellyfishMerkleTree.insert_at];
    destruct (represents_node _ _ _ _ _ _ _ _ _ Hr) as (node & Hv & Hnull & _);
    rewrite (get_node_view _ _ _ Hv); destruct node as [|i|l]; try done.
  - destruct Hr as (_ & _ & Hr). by rewrite Hv in Hr.
  - by apply (insert_at_leaf_spec c 0).
  - apply (insert_at_internal_spec _ c h v0 ns m i); [done..|]. intros c' ch x Hx Hok' Hr'.
    assert (length (ns ++ [x]) = S (length ns)) as Hlen by (rewrite length_app; cbn [length]; lia).
    rewrite <- Hlen. apply IH; [done | apply Forall_app; split; [done | constructor; [by apply nib_ok|done]] | lia | lia | | done].
    by apply prefix_nib; [| |lia].
  - by apply (insert_at_leaf_spec c (S h)).
Qed.

Abbreviation tree_rep c := (tree_at sha3_256 counted (view c) (live cur last c) (dead c)).

(** At the root, which may be null. *)
Lemma delete_null_spec c v0 : cache_ok c -> live cur last c v0 [] -> (forall n, nibble_ok n -> dead c [n]) ->
  exists c', (if v0 =? cur then TreeCache.delete_node (key_at v0 []) false else mret tt) c = (c', Ok tt) /\
    cache_ok c' /\ changes (eq []) c c' /\ dead c' [].
Proof.
  intros Hok Hlive Hd. destruct (Z.eqb_spec v0 cur) as [->|Hne].
  - destruct (delete_node_spec cur last c cur [] false) as (c1 & E1 & Hok1 & Hch1 & Hnone1); [done..|].
    exists c1. split_and!; [done..|]. apply dead_intro; [done|]. intros n Hn.
    eapply changes_dead; [exact Hch1 | | by apply Hd]. intros ns' Hp'. by apply (snoc_prefix_ne [] ns' n).
  - exists c. split_and!; [done|done|apply changes_refl|]. apply dead_intro; [|done].
    intros v'. apply eq_None_not_Some. intros Hs. apply Hne. destruct Hlive as [H1 _]. rewrite <- (H1 v' Hs).
    apply (cache_current _ _ _ Hok (key_at v' []) Hs).
Qed.

Lemma insert_at_root_spec c v0 m : cache_ok c -> tree_rep c v0 m ->
  wrote c ROOT_NIBBLE_HEIGHT [] (<[key := value]> m)
    (JellyfishMerkleTree.insert_at sha3_256 self (S ROOT_NIBBLE_HEIGHT) (key_at v0 []) cur (iter 0) value c).
Proof.
  intros Hok [(-> & Hlive & Hv & Hd)|Hr].
  - cbn [JellyfishMerkleTree.insert_at]. rewrite (get_node_view _ _ _ Hv).
    rewrite (bind_lift _ _ _ tt) by done. cbn [key_at NodeKey.version]. fold (key_at v0 []).
    destruct (delete_null_spec c v0) as (c1 & E1 & Hok1 & Hch1 & Hd1); [done..|].
    rewrite (bind_run _ _ _ _ _ E1). rewrite insert_empty. eapply wrote_step; [exact Hch1 | by intros ? <- |].
    apply create_leaf_spec; [done..|apply prefix_nil|lia].
  - apply (insert_at_spec ROOT_NIBBLE_HEIGHT _ c v0 [] m); [done..|lia|apply prefix_nil|done].
Qed.

End key.
End subtrees.
