(* ===== verification/JellyfishUpdate.v ===== *)
(** * Updates of the tree

    [put_value_sets] writes one new version for each set of values. The loop
    keeps [progress]: the versions written so far hold the maps after each set,
    and the nodes they use are not marked stale for a version up to theirs. *)
From stdpp Require Import prelude gmap strings.
From Stdlib Require Import ZArith Lia.
From S2P Require Import Prelude Bits HashValues SparseMerkle Nibbles JellyfishNodes JellyfishSpec.
From S2P Require Import JellyfishHash TreeCache Jellyfish JellyfishRep JellyfishCache JellyfishPut.

(** ** The maps after each set of values *)

Definition apply_set {V} (m : gmap HashValue.t V) (value_set : list (HashValue.t * V)) : gmap HashValue.t V :=
  foldl (fun m kv => <[kv.1 := kv.2]> m) m value_set.

Fixpoint maps_after {V} (m : gmap HashValue.t V) (value_sets : list (list (HashValue.t * V)))
    : list (gmap HashValue.t V) :=
  match value_sets with
  | [] => []
  | value_set :: value_sets => apply_set m value_set :: maps_after (apply_set m value_set) value_sets
  end.

Definition set_ok {V} (value_set : list (HashValue.t * V)) : Prop :=
  value_set <> [] /\ Forall (fun kv => HashValue.wf kv.1) value_set.

Section update.
Context (sha3_256 : list Z -> HashValue.t) (counted : Prop) {R V : Type} `{StoredNodes R V} {HV : Value V}.
Context (self : JellyfishMerkleTree.t R) (first : Z) (n : nat).
Implicit Types (m : gmap HashValue.t V) (c : TreeCache.t R V).

(** The last version of the update. *)
Abbreviation last := (first + Z.of_nat n - 1).

Definition holds (cur : Z) c m : Prop :=
  cache_ok cur last c /\ exists v0, TreeCache.root_node_key c = key_at v0 [] /\
    tree_at sha3_256 counted (view c) (live cur last c) (dead c) v0 m.

Definition same_env c c' : Prop :=
  TreeCache.frozen_cache c' = TreeCache.frozen_cache c /\ TreeCache.reader c' = TreeCache.reader c.

(** ** Insertions *)

(** After a subtree was written at the root. *)
Lemma holds_root cur c m res : wrote sha3_256 counted cur last c ROOT_NIBBLE_HEIGHT [] m res ->
  exists c' node, res = (c', Ok (key_at cur [], node)) /\ same_env c c' /\
    holds cur (TreeCache.set_root_node_key (key_at cur []) c') m.
Proof.
  intros (c' & node & -> & Hok & Hch & Hv & Hr). exists c', node. split_and!; [done| |].
  - split; [apply (same_frozen _ _ _ Hch) | apply (same_reader _ _ _ Hch)].
  - split; [by destruct Hok; split|]. exists cur. split; [done|]. right. exact Hr.
Qed.

Lemma put_spec cur c m key value : cur <= last -> holds cur c m -> HashValue.wf key ->
  exists c', JellyfishMerkleTree.put sha3_256 self key value cur c = (c', Ok tt) /\ same_env c c' /\
    holds cur c' (<[key := value]> m) /\ TreeCache.root_node_key c' = key_at cur [].
Proof.
  intros Hcur (Hok & v0 & Hroot & Ht) Hkey. unfold JellyfishMerkleTree.put.
  rewrite (bind_lift _ _ _ _ (new_of_key key Hkey)).
  rewrite (bind_run _ _ _ _ _ (eq_refl : gets TreeCache.root_node_key c = (c, Ok (TreeCache.root_node_key c)))).
  rewrite Hroot.
  assert (NibbleIterator.nibbles (of_nibbles (key_nibbles key)) = iter_at (key_nibbles key) 0 ROOT_NIBBLE_HEIGHT 0) as ->.
  { unfold NibbleIterator.nibbles. by rewrite <- (key_nibbles_length key Hkey). }
  edestruct (holds_root cur c) as (c' & node & E & Henv & Hh).
  { apply (insert_at_root_spec sha3_256 counted cur last Hcur self key value Hkey c v0 m); done. }
  rewrite (bind_run _ _ _ _ _ E). by eexists.
Qed.

Lemma put_all_spec cur value_set : forall c m, cur <= last -> holds cur c m ->
  Forall (fun kv => HashValue.wf kv.1) value_set ->
  exists c', try_fold (fun _ '(key, value) => JellyfishMerkleTree.put sha3_256 self key value cur) tt value_set c =
      (c', Ok tt) /\ same_env c c' /\ holds cur c' (apply_set m value_set) /\
    (value_set <> [] -> TreeCache.root_node_key c' = key_at cur []).
Proof.
  induction value_set as [|[key value] kvs IH]; intros c m Hcur Hh Hks.
  { exists c. done. }
  apply Forall_cons in Hks as [Hk Hks]. cbn [try_fold].
  destruct (put_spec cur c m key value) as (c1 & E1 & Henv1 & Hh1 & Hroot1); [done..|].
  rewrite (bind_run _ _ _ _ _ E1). destruct (IH c1 (<[key := value]> m)) as (c2 & E2 & Henv2 & Hh2 & Hroot2); [done..|].
  exists c2. rewrite E2. split_and!; [done| |done|].
  - destruct Henv1, Henv2. split; congruence.
  - intros _. destruct kvs as [|kv kvs]; [|by apply Hroot2]. by injection E2 as <-.
Qed.

(** ** Freezing a version *)

(** No mark says that the node was stale at version [v]. *)
Definition unmarked c (v : Z) (v' : Z) (ns : list Z) : Prop := forall s,
  StaleNodeIndex.mk s (key_at v' ns) ∈ FrozenTreeCache.stale_node_index_cache (TreeCache.frozen_cache c) -> v < s.

Record progress (r : R) c (ms : list (gmap HashValue.t V)) m : Prop := {
  p_holds : holds (first + Z.of_nat (length ms)) c m;
  p_reader : TreeCache.reader c = r;
  p_base : stored r ⊆ base c;
  p_roots : FrozenTreeCache.root_hashes (TreeCache.frozen_cache c) =
    (fun m => root_hash sha3_256 (canon HashValue.LENGTH_IN_BITS m)) <$> ms;
  p_past : forall j mj, ms !! j = Some mj ->
    tree_at sha3_256 counted (fun k => base c !! k) (unmarked c (first + Z.of_nat j)) (fun _ => True) (first + Z.of_nat j) mj;
  p_stale : forall s k, StaleNodeIndex.mk s k ∈ FrozenTreeCache.stale_node_index_cache (TreeCache.frozen_cache c) ->
    s < first + Z.of_nat (length ms)
}.

Lemma base_freeze cur c k node : cur <= last -> cache_ok cur last c -> base c !! k = Some node ->
  (TreeCache.node_cache c ∪ base c) !! k = Some node.
Proof.
  intros Hcur Hok Hk. rewrite lookup_union_r; [done|]. apply eq_None_not_Some. intros Hs.
  eapply (base_fresh _ _ _ Hok k); [by eauto|]. rewrite (cache_current _ _ _ Hok k Hs). unfold reserved. lia.
Qed.

(** The state after [freeze]. *)
Definition frozen_state cur c m stats : TreeCache.t R V :=
  let frozen := TreeCache.frozen_cache c in
  TreeCache.mk (TreeCache.root_node_key c) (cur + 1)%u64 ∅ 0 ∅ 0
    (FrozenTreeCache.mk _ (TreeCache.node_cache c ∪ FrozenTreeCache.node_cache frozen)
      (set_map (StaleNodeIndex.mk cur) (TreeCache.stale_node_index_cache c) ∪
         FrozenTreeCache.stale_node_index_cache frozen)
      (FrozenTreeCache.node_stats frozen ++ [stats])
      (FrozenTreeCache.root_hashes frozen ++ [root_hash sha3_256 (canon HashValue.LENGTH_IN_BITS m)]))
    (TreeCache.reader c).

Lemma freeze_run cur c m : holds cur c m ->
  exists stats, TreeCache.freeze sha3_256 c = (frozen_state cur c m stats, Ok tt).
Proof.
  intros (Hok & v0 & Hroot & Ht). unfold TreeCache.freeze, frozen_state. rewrite Hroot.
  destruct (tree_at_root _ _ _ _ _ _ _ Ht) as (node & Hv & Hh). rewrite (get_node_view _ _ _ Hv), Hh.
  rewrite (cache_version _ _ _ Hok). by eexists.
Qed.

Section freeze.
Context (cur : Z) (c : TreeCache.t R V) (m : gmap HashValue.t V) (stats : NodeStats.t) (Hok : cache_ok cur last c).
Abbreviation c' := (frozen_state cur c m stats).

Lemma frozen_base : base c' = TreeCache.node_cache c ∪ base c.
Proof. symmetry. apply map_union_assoc. Qed.

Lemma frozen_view k : view c' k = view c k.
Proof. unfold view. rewrite frozen_base. cbn [frozen_state TreeCache.node_cache]. by rewrite map_empty_union. Qed.

Lemma frozen_stale k : stale c' k <-> stale c k.
Proof.
  unfold stale. cbn. rewrite elem_of_empty. setoid_rewrite elem_of_union. setoid_rewrite elem_of_map. split.
  - intros [[]|(s & [(k' & [= _ ->] & Hk')|Hs])]; [by left | right; eauto].
  - intros [Hk|(s & Hs)]; right; [exists cur; left; eauto | eauto].
Qed.

Lemma frozen_marks s k :
  StaleNodeIndex.mk s k ∈ FrozenTreeCache.stale_node_index_cache (TreeCache.frozen_cache c') ->
  s = cur /\ k ∈ TreeCache.stale_node_index_cache c \/
  StaleNodeIndex.mk s k ∈ FrozenTreeCache.stale_node_index_cache (TreeCache.frozen_cache c).
Proof. cbn. rewrite elem_of_union, elem_of_map. intros [(k' & [= -> ->] & Hk')|]; [left|right]; done. Qed.

Lemma frozen_cache_ok : 0 <= cur -> cur <= last -> last < u64_max -> cache_ok (cur + 1) last c'.
Proof.
  intros Hpos Hcur Hmax. destruct Hok as [O1 O2 O3 O4]. split.
  - cbn. by rewrite u64_add_small by lia.
  - intros k. cbn [frozen_state TreeCache.node_cache]. rewrite lookup_empty. by intros [].
  - intros k Hk [Hr1 Hr2]. rewrite frozen_base in Hk. apply lookup_union_is_Some in Hk as [Hk|Hk].
    + apply O2 in Hk. lia.
    + apply (O3 k Hk). unfold reserved. lia.
  - intros k Hk [Hr1 Hr2]. apply frozen_stale in Hk. apply (O4 k Hk). unfold reserved. lia.
Qed.

(** The tree is there for the next version. *)
Lemma frozen_holds : 0 <= cur -> cur <= last -> last < u64_max -> TreeCache.root_node_key c = key_at cur [] ->
  tree_at sha3_256 counted (view c) (live cur last c) (dead c) cur m -> holds (cur + 1) c' m.
Proof.
  intros Hpos Hcur Hmax Hroot Ht. split; [by apply frozen_cache_ok|]. exists cur. split; [done|].
  eapply tree_at_mono, Ht.
  - intros v ns node _ Hk. by rewrite frozen_view.
  - intros v ns _ (H1 & H2 & H3). split_and!.
    + intros v'. cbn [frozen_state TreeCache.node_cache]. rewrite lookup_empty. by intros [].
    + by rewrite frozen_stale.
    + intros [Hr1 Hr2]. exfalso. destruct (H3 ltac:(unfold reserved; lia)) as [node Hn].
      assert (v = cur); [|lia]. apply (cache_current _ _ _ Hok (key_at v ns)). eauto.
  - intros ns _ v' ns' _ _. apply lookup_empty.
Qed.
End freeze.

Lemma progress_freeze r c c1 ms m m' : let cur := first + Z.of_nat (length ms) in
  0 <= first -> (length ms < n)%nat -> first + Z.of_nat n < u64_max ->
  progress r c ms m -> same_env c c1 -> holds cur c1 m' -> TreeCache.root_node_key c1 = key_at cur [] ->
  exists c2, TreeCache.freeze sha3_256 c1 = (c2, Ok tt) /\ progress r c2 (ms ++ [m']) m'.
Proof.
  intros cur Hfirst Hms Hmax [_ P1 P2 P3 P4 P5] [Hfz Hrd] Hh Hroot.
  destruct (freeze_run cur c1 m' Hh) as [stats E]. rewrite E. eexists. split; [reflexivity|].
  destruct Hh as (Hok & v0 & Hroot' & Ht). assert (cur <= last) as Hcur by (unfold cur; lia).
  assert (v0 = cur) as -> by (rewrite Hroot in Hroot'; by injection Hroot').
  assert (base c1 = base c) as Hb1 by (unfold base; by rewrite Hfz, Hrd).
  assert (forall k node, base c !! k = Some node -> base (frozen_state cur c1 m' stats) !! k = Some node) as Hsub.
  { intros k node Hk. rewrite frozen_base. apply (base_freeze cur); [done..|]. by rewrite Hb1. }
  assert (length (ms ++ [m']) = S (length ms)) as Hlen by (rewrite length_app; cbn [length]; lia).
  split.
  - rewrite Hlen. replace (first + Z.of_nat (S (length ms))) with (cur + 1) by (unfold cur; lia).
    apply frozen_holds; [done|unfold cur; lia|done|lia|done|done].
  - cbn. congruence.
  - apply map_subseteq_spec. intros k node Hk. apply Hsub. by eapply lookup_weaken.
  - cbn [frozen_state TreeCache.frozen_cache FrozenTreeCache.root_hashes]. by rewrite Hfz, P3, fmap_app.
  - intros j mj [Hj|[-> Hj]]%lookup_snoc_Some.
    + destruct Hj as [Hjl Hj]. eapply tree_at_mono, P4, Hj; [by intros; apply Hsub | |done].
      intros v ns _ Hun s Hs. apply frozen_marks in Hs as [[-> _]|Hs]; [unfold cur; lia|].
      rewrite Hfz in Hs. by apply Hun.
    + subst mj. fold cur. eapply tree_at_mono, Ht; [| |done].
      * intros v ns node _ Hk. by rewrite frozen_base.
      * intros v ns _ (_ & Hns & _) s Hs. exfalso. apply Hns, (frozen_stale cur c1 m' stats). right. eauto.
  - intros s k Hs. rewrite Hlen. apply frozen_marks in Hs as [[-> _]|Hs]; [unfold cur; lia|].
    rewrite Hfz in Hs. apply P5 in Hs. lia.
Qed.

(** ** The first state *)

Definition stored_tree (r : R) (v : Z) m : Prop :=
  tree_at sha3_256 counted (fun k => stored r !! k) (fun _ _ => True) (fun _ => True) v m.

(** The map of the version before the update: an empty one at genesis, unless
    there is a state from before genesis. *)
Definition starts (r : R) m : Prop :=
  first = 0 /\ stored r !! key_at TreeCache.PRE_GENESIS_VERSION [] = None /\ m = ∅ \/
  first = 0 /\ stored_tree r TreeCache.PRE_GENESIS_VERSION m \/
  0 < first /\ stored_tree r (first - 1) m.

(** The storage has no node of a version that is to be written. *)
Definition unwritten (r : R) : Prop := forall k, is_Some (stored r !! k) -> ~ reserved first last (NodeKey.version k).

Lemma progress_start r m0 v0 root_node_key node_cache : unwritten r ->
  (forall k, is_Some (node_cache !! k) -> k = key_at first []) -> root_node_key = key_at v0 [] ->
  let c := TreeCache.mk root_node_key first node_cache 0 ∅ 0 FrozenTreeCache.new r in
  tree_at sha3_256 counted (view c) (live first last c) (dead c) v0 m0 -> progress r c [] m0.
Proof.
  intros Hfresh Hcache -> c Ht.
  assert (base c = stored r) as Hb by apply map_empty_union.
  assert (forall k, ~ stale c k) as Hst by (intros k [Hk|(s & Hs)]; set_solver).
  split; [|done| |done|done|].
  - cbn [length]. rewrite Z.add_0_r. split; [|eauto]. split; [done| | |].
    + intros k Hk. by rewrite (Hcache k Hk).
    + intros k. rewrite Hb. apply Hfresh.
    + intros k Hk. by apply Hst in Hk.
  - by rewrite Hb.
  - intros s k Hs. exfalso. apply (Hst k). right. by exists s.
Qed.

Lemma progress_stored r m0 v0 : unwritten r -> stored_tree r v0 m0 ->
  progress r (TreeCache.mk (key_at v0 []) first ∅ 0 ∅ 0 FrozenTreeCache.new r) [] m0.
Proof.
  intros Hfresh Ht. eapply progress_start; [done| |done|].
  { intros k. rewrite lookup_empty. by intros []. }
  eapply tree_at_mono, Ht.
  - intros v ns node _ Hk. unfold view. cbn [TreeCache.node_cache]. rewrite map_empty_union.
    unfold base. cbn [TreeCache.frozen_cache TreeCache.reader FrozenTreeCache.new FrozenTreeCache.node_cache].
    by rewrite map_empty_union.
  - intros v ns Hs _. split_and!.
    + intros v'. cbn [TreeCache.node_cache]. rewrite lookup_empty. by intros [].
    + intros [Hk|(s & Hk)]; set_solver.
    + intros Hr. by apply Hfresh in Hs.
  - intros ns _ v' ns' _ _. apply lookup_empty.
Qed.

Lemma progress_genesis r : unwritten r ->
  progress r (TreeCache.mk (key_at first []) first {[key_at first [] := Node.Null]} 0 ∅ 0 FrozenTreeCache.new r) [] ∅.
Proof.
  intros Hfresh. eapply progress_start; [done| |done|].
  { intros k [x [<- _]%lookup_singleton_Some]. done. }
  left. split; [done|]. split; [|split]; [split_and!|..].
  - intros v' [x Hv']. cbn [TreeCache.node_cache] in Hv'. apply lookup_singleton_Some in Hv' as [E _].
    by apply key_at_inj in E as [<- _].
  - intros [Hk|(s & Hk)]; set_solver.
  - intros _. eexists. apply lookup_singleton_eq.
  - unfold view. cbn [TreeCache.node_cache]. apply lookup_union_Some_l, lookup_singleton_eq.
  - intros x Hx v' ns' Hns' Hp. apply lookup_singleton_None. intros E%key_at_inj; [|done..].
    destruct E as [_ <-]. by apply prefix_nil_not in Hp.
Qed.

Lemma new_spec r m0 : 0 <= first -> first <= u64_max -> starts r m0 -> unwritten r ->
  exists c, TreeCache.new r first = Ok c /\ progress r c [] m0.
Proof.
  intros Hpos Hmax Hstart Hfresh. unfold TreeCache.new.
  destruct Hstart as [(Hf & Hnone & ->)|[(Hf & Ht)|(Hf & Ht)]].
  - rewrite (proj2 (Z.eqb_eq first 0) Hf), get_node_option_stored, bind_Ok.
    change (NodeKey.new_empty_path ?v) with (key_at v []). rewrite Hnone. rewrite bind_Ok.
    replace (key_at 0 []) with (key_at first []) by by rewrite Hf.
    eexists. split; [reflexivity|]. by apply progress_genesis.
  - rewrite (proj2 (Z.eqb_eq first 0) Hf), get_node_option_stored, bind_Ok.
    change (NodeKey.new_empty_path ?v) with (key_at v []).
    destruct (tree_at_root _ _ _ _ _ _ _ Ht) as (node & Hn & _). cbn in Hn. rewrite Hn. rewrite bind_Ok.
    eexists. split; [reflexivity|]. by apply progress_stored.
  - rewrite (proj2 (Z.eqb_neq _ _)) by lia. rewrite u64_sub_small, bind_Ok by lia.
    eexists. split; [reflexivity|]. by apply progress_stored.
Qed.

(** ** The loop over the sets *)

(** [body] is the body of the loop of an update: with the index of a set and the
    set, it writes the version of that index. *)
Lemma loop_spec {A} (body : Z -> A -> action (TreeCache.t R V) error Z) (set_of : A -> list (HashValue.t * V))
    (good : A -> Prop) r :
  (forall c ms m a, progress r c ms m -> (length ms < n)%nat -> good a ->
     exists c', body (Z.of_nat (length ms)) a c = (c', Ok (Z.of_nat (length ms) + 1)) /\
       progress r c' (ms ++ [apply_set m (set_of a)]) (apply_set m (set_of a))) ->
  forall sets c ms m, progress r c ms m -> (length ms + length sets = n)%nat -> Forall good sets ->
  exists c' m' idx, try_fold body (Z.of_nat (length ms)) sets c = (c', Ok idx) /\
    progress r c' (ms ++ maps_after m (set_of <$> sets)) m'.
Proof.
  intros Hbody. induction sets as [|a sets IH]; intros c ms m Hp Hl Hg; cbn [try_fold fmap list_fmap maps_after].
  { rewrite app_nil_r. by exists c, m, (Z.of_nat (length ms)). }
  apply Forall_cons in Hg as [Ha Hg]. cbn [length] in Hl.
  destruct (Hbody c ms m a Hp ltac:(lia) Ha) as (c1 & E1 & Hp1). rewrite (bind_run _ _ _ _ _ E1).
  assert (length (ms ++ [apply_set m (set_of a)]) = S (length ms)) as Hlen by (rewrite length_app; cbn [length]; lia).
  replace (Z.of_nat (length ms) + 1) with (Z.of_nat (length (ms ++ [apply_set m (set_of a)]))) by lia.
  destruct (IH c1 _ _ Hp1 ltac:(lia) Hg) as (c2 & m' & idx & E2 & Hp2). exists c2, m', idx.
  split; [done|]. by rewrite <- app_assoc in Hp2.
Qed.

Lemma put_value_set_spec r c ms m value_set : 0 <= first -> first + Z.of_nat n < u64_max ->
  progress r c ms m -> (length ms < n)%nat -> set_ok value_set ->
  exists c', JellyfishMerkleTree.put_value_set sha3_256 self first (Z.of_nat (length ms)) value_set c =
      (c', Ok (Z.of_nat (length ms) + 1)) /\
    progress r c' (ms ++ [apply_set m value_set]) (apply_set m value_set).
Proof.
  intros Hpos Hmax Hp Hlt [Hne Hks]. unfold JellyfishMerkleTree.put_value_set.
  rewrite (bind_lift _ _ _ tt) by by destruct value_set. rewrite u64_add_small by lia.
  destruct (put_all_spec (first + Z.of_nat (length ms)) value_set c m) as (c1 & E1 & Henv & Hh & Hroot);
    [lia | by apply p_holds in Hp | done |].
  rewrite (bind_run _ _ _ _ _ E1).
  destruct (progress_freeze r c c1 ms m (apply_set m value_set)) as (c2 & E2 & Hp2); [done..|by apply Hroot|].
  exists c2. by rewrite (bind_run _ _ _ _ _ E2).
Qed.

(** What an update returns: the root hash of each new version, and nodes that,
    next to the stored ones, make up the tree of each. *)
Definition update_ok (r : R) m0 (value_sets : list (list (HashValue.t * V)))
    (res : outcome error (list HashValue.t * TreeUpdateBatch.t V)) : Prop :=
  exists roots batch, res = Ok (roots, batch) /\
    roots = (fun m => root_hash sha3_256 (canon HashValue.LENGTH_IN_BITS m)) <$> maps_after m0 value_sets /\
    stored r ⊆ TreeUpdateBatch.node_batch batch ∪ stored r /\
    forall j m, maps_after m0 value_sets !! j = Some m ->
      tree_at sha3_256 counted (fun k => (TreeUpdateBatch.node_batch batch ∪ stored r) !! k)
        (fun v ns => forall s, StaleNodeIndex.mk s (key_at v ns) ∈ TreeUpdateBatch.stale_node_index_batch batch ->
           first + Z.of_nat j < s)
        (fun _ => True) (first + Z.of_nat j) m.

Lemma progress_into r c m0 value_sets m : progress r c (maps_after m0 value_sets) m ->
  update_ok r m0 value_sets (Ok (TreeCache.into c)).
Proof.
  intros [P0 P1 P2 P3 P4 P5]. eexists _, _. split; [reflexivity|]. split; [exact P3|].
  unfold base in P2, P4. rewrite P1 in P2, P4. split; [exact P2 | exact P4].
Qed.

Lemma put_value_sets_ok m0 value_sets : length value_sets = n -> 0 <= first -> first + Z.of_nat n < u64_max ->
  Forall set_ok value_sets -> starts (JellyfishMerkleTree.reader self) m0 ->
  unwritten (JellyfishMerkleTree.reader self) ->
  update_ok (JellyfishMerkleTree.reader self) m0 value_sets
    (JellyfishMerkleTree.put_value_sets sha3_256 self value_sets first).
Proof.
  intros Hn Hpos Hmax Hsets Hstart Hfresh. unfold JellyfishMerkleTree.put_value_sets.
  destruct (new_spec (JellyfishMerkleTree.reader self) m0) as (c & -> & Hp); [done|lia|done|done|]. rewrite bind_Ok.
  destruct (loop_spec (JellyfishMerkleTree.put_value_set sha3_256 self first) id set_ok (JellyfishMerkleTree.reader self))
    with (sets := value_sets) (c := c) (ms := @nil (gmap HashValue.t V)) (m := m0) as (c' & m' & idx & E & Hp');
    [intros; by apply put_value_set_spec | done | done | done |].
  change (Z.of_nat (length (A := gmap HashValue.t V) [])) with 0 in E. rewrite E. rewrite list_fmap_id in Hp'. by eapply progress_into.
Qed.

End update.
