(* ===== verification/JellyfishRanges.v ===== *)
(** * Ranges of a sorted batch

    A batch of keys with a common prefix, sorted by key, is sorted by the next
    nibble; [NibbleRangeIterator] returns its runs of equal nibbles. *)
From stdpp Require Import prelude gmap sorting strings.
From Stdlib Require Import ZArith Lia.
From S2P Require Import Prelude Bits HashValues SparseMerkle Nibbles JellyfishNodes JellyfishSpec TreeCache.
From S2P Require Import Jellyfish JellyfishRep JellyfishUpdate.

(** ** The order of keys and their nibbles *)

Lemma bytes_leb_app p xs ys : bytes_leb (p ++ xs) (p ++ ys) = bytes_leb xs ys.
Proof. induction p as [|x p IH]; [done|]. cbn [app bytes_leb]. by rewrite Z.ltb_irrefl, Z.eqb_refl, IH. Qed.

#[global] Instance kv_le_total {V} : Total (@kv_le V).
Proof.
  intros [[x] v] [[y] w]. unfold kv_le. cbn. revert y. induction x as [|a x IH]; intros [|b y]; cbn [bytes_leb]; auto.
  destruct (Z.ltb_spec a b), (Z.eqb_spec a b), (Z.ltb_spec b a), (Z.eqb_spec b a); cbn; auto; lia.
Qed.

#[global] Instance kv_le_trans {V} : Transitive (@kv_le V).
Proof.
  intros [[x] u] [[y] v] [[z] w]. unfold kv_le. cbn. revert y z.
  induction x as [|a x IH]; intros [|b y] [|c z]; cbn [bytes_leb]; try done.
  destruct (Z.ltb_spec a b), (Z.eqb_spec a b), (Z.ltb_spec b c), (Z.eqb_spec b c), (Z.ltb_spec a c), (Z.eqb_spec a c);
    cbn; try done; try lia. apply IH.
Qed.

(** The order of bytes is that of their nibbles. *)
Lemma bytes_leb_nibbles xs : forall ys, Forall byte_ok xs -> Forall byte_ok ys ->
  bytes_leb xs ys = true -> bytes_leb (xs ≫= byte_nibbles) (ys ≫= byte_nibbles) = true.
Proof.
  induction xs as [|x xs IH]; intros [|y ys] Hx Hy; [done..|]. apply Forall_cons in Hx as [Hx Hxs], Hy as [Hy Hys].
  cbn [bytes_leb mbind list_bind byte_nibbles app].
  pose proof (nibble_parts x Hx) as (Hx1 & Hx2 & Hx3). pose proof (nibble_parts y Hy) as (Hy1 & Hy2 & Hy3).
  set (a := Z.shiftr x 4) in *. set (b := Z.land x 15) in *. set (a' := Z.shiftr y 4) in *. set (b' := Z.land y 15) in *.
  unfold nibble_ok in *.
  destruct (Z.ltb_spec x y), (Z.eqb_spec x y), (Z.ltb_spec a a'), (Z.eqb_spec a a'), (Z.ltb_spec b b'), (Z.eqb_spec b b');
    cbn; try done; try lia. intros H'. by apply IH.
Qed.

Lemma nib_mono d ns k k' : HashValue.wf k -> HashValue.wf k' -> length ns = d -> (d < ROOT_NIBBLE_HEIGHT)%nat ->
  ns `prefix_of` key_nibbles k -> ns `prefix_of` key_nibbles k' ->
  bytes_leb (HashValue.hash k) (HashValue.hash k') = true -> nib d k <= nib d k'.
Proof.
  intros Hk Hk' Hd Hlt Hp Hp' Hle. apply bytes_leb_nibbles in Hle; [|by apply wf_bytes..].
  fold (key_nibbles k) in Hle. fold (key_nibbles k') in Hle. subst d.
  pose proof (prefix_nib ns k Hk Hp Hlt) as [q Hq]. pose proof (prefix_nib ns k' Hk' Hp' Hlt) as [q' Hq'].
  rewrite Hq, Hq', <- !app_assoc, bytes_leb_app in Hle. cbn [app bytes_leb] in Hle.
  destruct (Z.ltb_spec (nib (length ns) k) (nib (length ns) k')); [lia|].
  destruct (Z.eqb_spec (nib (length ns) k) (nib (length ns) k')); [lia | done].
Qed.

(** ** Nibbles of hash values *)

Lemma nibbles_lookup bs i b : bs !! (i / 2)%nat = Some b ->
  (bs ≫= byte_nibbles) !! i = Some (if Nat.even i then Z.shiftr b 4 else Z.land b 15).
Proof.
  revert i; induction bs as [|x bs IH]; intros i; [done|]. destruct i as [|[|i]]; [by intros [= ->]..|].
  rewrite half_SS. cbn [lookup list_lookup mbind list_bind byte_nibbles app]. rewrite Nat.even_succ_succ. apply IH.
Qed.

Lemma nib_byte d k : HashValue.wf k -> (d < ROOT_NIBBLE_HEIGHT)%nat -> exists b, byte_ok b /\
  HashValue.hash k !! (d / 2)%nat = Some b /\ nib d k = if Nat.even d then Z.shiftr b 4 else Z.land b 15.
Proof.
  intros Hk Hd. destruct (lookup_lt_is_Some_2 (HashValue.hash k) (d / 2)) as [b Hb].
  { destruct Hk as [-> _]. unfold ROOT_NIBBLE_HEIGHT in Hd. apply Nat.Div0.div_lt_upper_bound. lia. }
  exists b. split; [|split; [done|]].
  - pose proof (wf_bytes k Hk) as Hbs. rewrite Forall_lookup in Hbs. eauto.
  - pose proof (nib_lookup d k Hk Hd) as Hn. unfold key_nibbles in Hn. rewrite (nibbles_lookup _ _ _ Hb) in Hn.
    by injection Hn.
Qed.

Lemma get_nibble_nib {E} d k : HashValue.wf k -> (d < ROOT_NIBBLE_HEIGHT)%nat -> get_nibble (E := E) k d = Ok (nib d k).
Proof.
  intros Hk Hd. destruct (nib_byte d k Hk Hd) as (b & Hb & Hl & Hn). unfold get_nibble. rewrite Hl. cbn [expect].
  rewrite bind_Ok, <- Hn. apply nibble_from_ok. by apply nib_ok.
Qed.

Lemma hash_nibble_nib d k : HashValue.wf k -> (d < ROOT_NIBBLE_HEIGHT)%nat -> HashValue.nibble k d = Some (nib d k).
Proof.
  intros Hk Hd. destruct (nib_byte d k Hk Hd) as (b & Hb & Hl & Hn). unfold HashValue.nibble. rewrite Hl.
  cbn [mbind option_bind]. f_equal. rewrite Hn. destruct (nibble_parts b Hb) as (H1 & _ & _).
  rewrite (Nat.eqb_sym (d mod 2) 0). destruct (Nat.even d) eqn:E.
  - apply Nat.even_spec in E as [j ->]. rewrite Nat.mul_comm, Nat.Div0.mod_mul. cbn [Nat.eqb].
    change 15 with (Z.ones 4). rewrite Z.land_ones by lia. apply Z.mod_small. red in H1. lia.
  - assert (Nat.odd d = true) as [j ->]%Nat.odd_spec by by rewrite <- Nat.negb_even, E.
    replace ((2 * j + 1) mod 2)%nat with 1%nat; [done|].
    rewrite Nat.add_comm, Nat.mul_comm, Nat.Div0.mod_add. done.
Qed.

(** ** Sorted batches below a path *)

Section ranges.
Context {V : Type}.
Implicit Type kvs : list (HashValue.t * V).

Record batch_ok (ns : list Z) kvs : Prop := {
  batch_sorted : StronglySorted kv_le kvs;
  batch_distinct : NoDup kvs.*1;
  batch_below : forall k v, (k, v) ∈ kvs -> HashValue.wf k /\ ns `prefix_of` key_nibbles k
}.

(** [p..=q] is the run of the nibble [x]. *)
Definition range_ok (d : nat) kvs (p q : nat) (x : Z) : Prop :=
  (p <= q < length kvs)%nat /\ forall i k v, kvs !! i = Some (k, v) ->
    ((i < p)%nat -> nib d k < x) /\ ((p <= i <= q)%nat -> nib d k = x) /\ ((q < i)%nat -> x < nib d k).

Fixpoint ranges_ok (d : nat) kvs (p : nat) (ranges : list (nat * nat)) : Prop :=
  match ranges with
  | [] => p = length kvs
  | (l, r) :: ranges => l = p /\ (exists x, range_ok d kvs l r x) /\ ranges_ok d kvs (S r) ranges
  end.

Context (ns : list Z) (kvs : list (HashValue.t * V)) (Hb : batch_ok ns kvs).
Abbreviation d := (length ns).
Context (Hd : (d < ROOT_NIBBLE_HEIGHT)%nat).

Lemma batch_mono i j k k' v v' : kvs !! i = Some (k, v) -> kvs !! j = Some (k', v') -> (i <= j)%nat ->
  nib d k <= nib d k'.
Proof.
  intros Hi Hj Hij. destruct (batch_below _ _ Hb k v) as [Hk Hp]; [by eapply list_elem_of_lookup_2|].
  destruct (batch_below _ _ Hb k' v') as [Hk' Hp']; [by eapply list_elem_of_lookup_2|].
  destruct (decide (i = j)) as [->|Hne]; [rewrite Hi in Hj; injection Hj as -> ->; lia|].
  apply (nib_mono d ns); try done.
  pose proof (batch_sorted _ _ Hb) as Hs. revert i j Hi Hj Hij Hne. clear Hb Hd.
  induction Hs as [|x l Hs IH Hall]; intros [|i] [|j]; cbn [lookup list_lookup]; intros Hi Hj Hij Hne; try done; try lia.
  - injection Hi as ->. rewrite Forall_forall in Hall. apply (Hall (k', v')). by eapply list_elem_of_lookup_2.
  - eapply (IH i j); [done..|lia|lia].
Qed.

Abbreviation it p := (NibbleRangeIterator.mk kvs d p).

Lemma nibble_at_spec {E} p i k v : kvs !! i = Some (k, v) -> NibbleRangeIterator.nibble_at (E := E) (it p) i = Ok (nib d k).
Proof.
  intros Hi. unfold NibbleRangeIterator.nibble_at. cbn [NibbleRangeIterator.sorted_kvs NibbleRangeIterator.nibble_idx].
  rewrite Hi. cbn [expect]. rewrite bind_Ok. cbn [fst].
  destruct (batch_below _ _ Hb k v) as [Hk _]; [by eapply list_elem_of_lookup_2|]. by rewrite hash_nibble_nib.
Qed.

(** The binary search ends at the last index of the nibble. *)
Lemma search_spec {E} p x fuel : forall i j, (i <= j < length kvs)%nat -> (j - i <= fuel)%nat ->
  (forall k v, kvs !! i = Some (k, v) -> nib d k <= x) ->
  (forall t k v, kvs !! t = Some (k, v) -> (j < t)%nat -> x < nib d k) ->
  exists r, NibbleRangeIterator.search (E := E) fuel (it p) x i j = Ok r /\ (i <= r < length kvs)%nat /\
    (forall k v, kvs !! r = Some (k, v) -> nib d k <= x) /\
    (forall t k v, kvs !! t = Some (k, v) -> (r < t)%nat -> x < nib d k).
Proof.
  induction fuel as [|fuel IH]; intros i j Hij Hf Hi Hj; cbn [NibbleRangeIterator.search];
    (destruct (Nat.ltb_spec i j) as [Hlt|Hge]; [|exists i; assert (i = j) as -> by lia; split_and!; (done || lia)]).
  { lia. }
  set (mid := (j - (j - i) / 2)%nat).
  assert (i < mid <= j)%nat as Hmid.
  { unfold mid. pose proof (Nat.div_lt (j - i) 2 ltac:(lia) ltac:(lia)). lia. }
  destruct (lookup_lt_is_Some_2 kvs mid ltac:(lia)) as [[k v] Hk]. rewrite (nibble_at_spec _ _ k v Hk), bind_Ok.
  destruct (Z.ltb_spec x (nib d k)) as [Hx|Hx].
  - apply IH; [lia|lia|done|]. intros t k' v' Ht Hlt'. pose proof (batch_mono _ _ _ _ _ _ Hk Ht ltac:(lia)). lia.
  - destruct (IH mid j) as (r & E' & Hr & H1 & H2); [lia|lia| |done|].
    + intros k' v' Hk'. rewrite Hk in Hk'. by injection Hk' as <- <-.
    + exists r. split_and!; [done|lia|lia|done|done].
Qed.

(** Everything before [p] has a smaller nibble. *)
Definition at_boundary (p : nat) : Prop := forall i j k k' v v', kvs !! i = Some (k, v) -> kvs !! j = Some (k', v') ->
  (i < p <= j)%nat -> nib d k < nib d k'.

Lemma next_spec {E} p : at_boundary p -> (p < length kvs)%nat ->
  exists q x, NibbleRangeIterator.next (E := E) (it p) = Ok (it (q + 1), Some (p, q)) /\ range_ok d kvs p q x /\
    at_boundary (S q).
Proof.
  intros Hp Hlt. unfold NibbleRangeIterator.next.
  cbn [NibbleRangeIterator.pos NibbleRangeIterator.sorted_kvs NibbleRangeIterator.nibble_idx].
  rewrite (proj2 (Nat.ltb_lt _ _) Hlt). destruct (lookup_lt_is_Some_2 kvs p Hlt) as [[k v] Hk].
  rewrite (nibble_at_spec _ _ k v Hk), bind_Ok. set (x := nib d k).
  destruct (search_spec (E := E) p x (length kvs) p (length kvs - 1)) as (q & -> & Hq & H1 & H2); [lia|lia| | |].
  { intros k' v' Hk'. rewrite Hk in Hk'. by injection Hk' as <- <-. }
  { intros t k' v' Ht Hgt. apply lookup_lt_Some in Ht. lia. }
  rewrite bind_Ok. exists q, x. split; [done|].
  destruct (lookup_lt_is_Some_2 kvs q ltac:(lia)) as [[kq vq] Hkq]. pose proof (H1 _ _ Hkq) as Hqx.
  assert (range_ok d kvs p q x) as Hr.
  { split; [lia|]. intros i k' v' Hi. split_and!.
    - intros Hip. by apply (Hp i p k' k v' v).
    - intros Hip. pose proof (batch_mono _ _ _ _ _ _ Hk Hi ltac:(lia)). pose proof (batch_mono _ _ _ _ _ _ Hi Hkq ltac:(lia)).
      unfold x in *. lia.
    - intros Hip. by eapply H2. }
  split; [done|]. intros i j ki kj vi vj Hi Hj Hij. destruct Hr as [_ Hr].
  destruct (Hr i ki vi Hi) as (R1 & R2 & _). destruct (Hr j kj vj Hj) as (_ & _ & R3).
  destruct (decide (i < p)%nat) as [Hip|Hip]; [|pose proof (R2 ltac:(lia)); pose proof (R3 ltac:(lia)); lia].
  pose proof (R1 Hip). pose proof (R3 ltac:(lia)). lia.
Qed.

Lemma items_spec {E} fuel : forall p, at_boundary p -> (p <= length kvs)%nat -> (length kvs - p < fuel)%nat ->
  exists ranges, NibbleRangeIterator.items (E := E) fuel (it p) = Ok ranges /\ ranges_ok d kvs p ranges.
Proof.
  induction fuel as [|fuel IH]; intros p Hp Hle Hf; [lia|]. cbn [NibbleRangeIterator.items].
  destruct (decide (p < length kvs)%nat) as [Hlt|Hge].
  - destruct (next_spec (E := E) p Hp Hlt) as (q & x & -> & Hr & Hq). rewrite bind_Ok.
    rewrite Nat.add_1_r. destruct (IH (S q) Hq) as (ranges & -> & Hrs); [destruct Hr; lia..|].
    rewrite bind_Ok. exists ((p, q) :: ranges). split; [done|]. cbn [ranges_ok]. eauto.
  - unfold NibbleRangeIterator.next. cbn [NibbleRangeIterator.pos NibbleRangeIterator.sorted_kvs].
    rewrite (proj2 (Nat.ltb_ge _ _)) by lia. rewrite bind_Ok. exists []. split; [done|]. cbn [ranges_ok]. lia.
Qed.

Lemma nibble_ranges_spec {E} : exists ranges, nibble_ranges (E := E) kvs d = Ok ranges /\ ranges_ok d kvs 0 ranges.
Proof.
  unfold nibble_ranges, NibbleRangeIterator.new. rewrite (proj2 (Nat.ltb_lt _ _) Hd). cbn [assert_]. rewrite !bind_Ok.
  apply items_spec; [intros ? ? ? ? ? ? _ _; lia | lia | lia].
Qed.

End ranges.

(** ** The maps of a batch and of its ranges *)

Section maps.
Context {V : Type}.
Implicit Types (kvs : list (HashValue.t * V)) (m : gmap HashValue.t V).

Lemma batch_below_map ns kvs : batch_ok ns kvs -> map_Forall (fun k _ => HashValue.wf k /\ ns `prefix_of` key_nibbles k)
  (list_to_map kvs : gmap HashValue.t V).
Proof. intros Hb k v Hk. apply (batch_below _ _ Hb k v). by apply elem_of_list_to_map_2. Qed.

(** Two keys cannot agree on all nibbles. *)
Lemma two_keys_height ns k k' : HashValue.wf k -> HashValue.wf k' -> k <> k' ->
  ns `prefix_of` key_nibbles k -> ns `prefix_of` key_nibbles k' -> (length ns < ROOT_NIBBLE_HEIGHT)%nat.
Proof.
  intros Hk Hk' Hne Hp Hp'. apply prefix_length in Hp as Hl. rewrite key_nibbles_length in Hl by done.
  destruct (decide (length ns = ROOT_NIBBLE_HEIGHT)) as [E|]; [|lia]. exfalso. apply Hne, key_nibbles_inj; [done..|].
  apply prefix_length_eq in Hp; [|rewrite key_nibbles_length by done; lia].
  apply prefix_length_eq in Hp'; [|rewrite key_nibbles_length by done; lia]. congruence.
Qed.

Lemma batch_height ns kvs : batch_ok ns kvs -> (2 <= length kvs)%nat -> (length ns < ROOT_NIBBLE_HEIGHT)%nat.
Proof.
  intros Hb Hl. destruct kvs as [|[k v] [|[k' v'] kvs]]; cbn [length] in Hl; [lia..|].
  destruct (batch_below _ _ Hb k v) as [Hk Hp]; [by left|].
  destruct (batch_below _ _ Hb k' v') as [Hk' Hp']; [by right; left|].
  apply (two_keys_height ns k k'); [done..| |done|done].
  pose proof (batch_distinct _ _ Hb) as Hd. cbn in Hd. apply NoDup_cons in Hd as [Hd _]. intros ->. apply Hd. by left.
Qed.

Lemma slice_lookup {A} (l : list A) p q x : x ∈ slice l p q <-> exists i, l !! i = Some x /\ (p <= i <= q)%nat.
Proof.
  unfold slice. rewrite elem_of_take. setoid_rewrite lookup_drop. split.
  - intros (i & Hi & Hlt). exists (p + i)%nat. split; [done|lia].
  - intros (i & Hi & Hlt). exists (i - p)%nat. replace (p + (i - p))%nat with i by lia. split; [done|lia].
Qed.

Lemma slice_split {A} (l : list A) p q : l = take p l ++ slice l p q ++ drop (S q - p) (drop p l).
Proof. unfold slice. by rewrite take_drop, take_drop. Qed.

Lemma batch_slice ns kvs p q x : (length ns < ROOT_NIBBLE_HEIGHT)%nat -> batch_ok ns kvs ->
  range_ok (length ns) kvs p q x -> batch_ok (ns ++ [x]) (slice kvs p q).
Proof.
  intros Hlt [H1 H2 H3] [Hpq Hr]. split.
  - rewrite (slice_split kvs p q) in H1. by apply StronglySorted_app_1_r, StronglySorted_app_1_l in H1.
  - rewrite (slice_split kvs p q), !fmap_app in H2. by apply NoDup_app in H2 as (_ & _ & (H2 & _ & _)%NoDup_app).
  - intros k v (i & Hi & Hlt')%slice_lookup. destruct (H3 k v) as [Hk Hp]; [by eapply list_elem_of_lookup_2|].
    split; [done|]. destruct (Hr i k v Hi) as (_ & Hx & _). rewrite <- (Hx Hlt'). by apply prefix_nib.
Qed.

Lemma slice_nonempty {A} (l : list A) p q : (p <= q < length l)%nat -> slice l p q <> [].
Proof.
  intros Hpq. destruct (lookup_lt_is_Some_2 l q ltac:(lia)) as [x Hx]. intros E.
  assert (x ∈ slice l p q) as Hin by (apply slice_lookup; exists q; split; [done|lia]). rewrite E in Hin. by apply not_elem_of_nil in Hin.
Qed.

Context (ns : list Z) (kvs : list (HashValue.t * V)) (Hb : batch_ok ns kvs) (p q : nat) (x : Z).
Context (Hr : range_ok (length ns) kvs p q x) (m : gmap HashValue.t V).
Abbreviation d := (length ns).

(** What is to be in the tree after the first [i] entries of the batch. *)
Definition with_first (l : list (HashValue.t * V)) (i : nat) (base : gmap HashValue.t V) : gmap HashValue.t V :=
  list_to_map (take i l) ∪ base.

Lemma range_index_spec : (d < ROOT_NIBBLE_HEIGHT)%nat -> JellyfishMerkleTree.range_index kvs p d = Ok x.
Proof.
  intros Hd. unfold JellyfishMerkleTree.range_index. destruct Hr as [Hpq Hx]. destruct (lookup_lt_is_Some_2 kvs p ltac:(lia)) as [[k v] Hk]. rewrite Hk.
  cbn [expect]. rewrite bind_Ok. cbn [fst].
  destruct (batch_below _ _ Hb k v) as [Hwf _]; [by eapply list_elem_of_lookup_2|].
  rewrite get_nibble_nib by done. f_equal. apply (Hx p k v Hk). lia.
Qed.

Lemma range_nibble_ok : nibble_ok x.
Proof.
  destruct Hr as [Hpq Hx]. destruct (lookup_lt_is_Some_2 kvs p ltac:(lia)) as [[k v] Hk].
  destruct (batch_below _ _ Hb k v) as [Hwf _]; [by eapply list_elem_of_lookup_2|].
  destruct (Hx p k v Hk) as (_ & <- & _); [by apply nib_ok|lia].
Qed.

Lemma taken_lookup i k v : (list_to_map (take i kvs) : gmap HashValue.t V) !! k = Some v <->
  exists j, kvs !! j = Some (k, v) /\ (j < i)%nat.
Proof.
  rewrite <- elem_of_list_to_map; [apply elem_of_take|].
  pose proof (batch_distinct _ _ Hb) as H2. rewrite <- (take_drop i kvs), fmap_app in H2. by apply NoDup_app in H2 as [H2 _].
Qed.

Lemma sliced_lookup k v : (list_to_map (slice kvs p q) : gmap HashValue.t V) !! k = Some v <->
  exists j, kvs !! j = Some (k, v) /\ (p <= j <= q)%nat.
Proof.
  rewrite <- elem_of_list_to_map; [apply slice_lookup|].
  pose proof (batch_distinct _ _ Hb) as H2. rewrite (slice_split kvs p q), !fmap_app in H2.
  by apply NoDup_app in H2 as (_ & _ & (H2 & _ & _)%NoDup_app).
Qed.

Lemma with_first_other n : n <> x -> part d 0 n (with_first kvs (S q) m) = part d 0 n (with_first kvs p m).
Proof.
  intros Hn. apply map_eq. intros k. destruct (decide (nib d k = n)) as [Hk|Hk]; [|by rewrite !part_lookup_other].
  rewrite !part_lookup_nib by done. unfold with_first. rewrite !lookup_union. f_equal. apply option_eq. intros v.
  rewrite !taken_lookup. split; intros (j & Hj & Hlt); exists j; (split; [done|]); [|destruct Hr; lia].
  destruct Hr as [_ Hx]. destruct (Hx j k v Hj) as (_ & H2 & _).
  destruct (decide (j < p)%nat); [done|]. exfalso. apply Hn. rewrite <- Hk. apply H2. lia.
Qed.

Lemma with_first_range : part d 0 x (with_first kvs (S q) m) = list_to_map (slice kvs p q) ∪ part d 0 x m.
Proof.
  apply map_eq. intros k. rewrite lookup_union. destruct (decide (nib d k = x)) as [Hk|Hk].
  - rewrite !part_lookup_nib by done. unfold with_first. rewrite lookup_union. f_equal. apply option_eq. intros v.
    rewrite taken_lookup, sliced_lookup. split; intros (j & Hj & Hlt); exists j; (split; [done|]); [|lia].
    destruct Hr as [_ Hx]. destruct (Hx j k v Hj) as (H1 & _ & _). destruct (decide (j < p)%nat) as [Hp|]; [|lia].
    apply H1 in Hp. lia.
  - rewrite !part_lookup_other by done. symmetry. apply union_None. split; [|done].
    apply eq_None_not_Some. intros [v (j & Hj & Hlt)%sliced_lookup]. destruct Hr as [_ Hx].
    destruct (Hx j k v Hj) as (_ & H2 & _). by apply Hk, H2.
Qed.

(** The nibble of a range is not one of an earlier range. *)
Lemma with_first_before : part d 0 x (with_first kvs p m) = part d 0 x m.
Proof.
  apply map_eq. intros k. destruct (decide (nib d k = x)) as [Hk|Hk]; [|by rewrite !part_lookup_other].
  rewrite !part_lookup_nib by done. unfold with_first. apply lookup_union_r. apply eq_None_not_Some.
  intros [v (j & Hj & Hlt)%taken_lookup]. destruct Hr as [_ Hx]. destruct (Hx j k v Hj) as (H1 & _ & _).
  apply H1 in Hlt. lia.
Qed.
End maps.

(** ** Sorting a batch *)

Lemma dedup_and_sort_ok {V} (vs : list (HashValue.t * V)) : Forall (fun kv => HashValue.wf kv.1) vs ->
  batch_ok [] (dedup_and_sort vs).
Proof.
  intros Hvs. unfold dedup_and_sort. split.
  - apply StronglySorted_merge_sort; apply _.
  - rewrite merge_sort_Permutation. apply NoDup_fst_map_to_list.
  - intros k v. rewrite merge_sort_Permutation, elem_of_map_to_list. intros Hk%elem_of_list_to_map_2.
    rewrite list_elem_of_In, <- in_rev, <- list_elem_of_In in Hk. rewrite Forall_forall in Hvs. split; [apply (Hvs _ Hk) | apply prefix_nil].
Qed.

(** The last value given for a key is kept. *)
Lemma dedup_and_sort_map {V} (m : gmap HashValue.t V) vs : list_to_map (dedup_and_sort vs) ∪ m = apply_set m vs.
Proof.
  unfold dedup_and_sort. rewrite (list_to_map_proper _ (map_to_list (list_to_map (rev vs)))).
  - rewrite list_to_map_to_list. unfold apply_set. induction vs as [|[k v] vs IH] using rev_ind.
    + apply map_empty_union.
    + rewrite foldl_app, rev_app_distr. cbn [foldl rev app fst snd list_to_map foldr].
      rewrite <- insert_union_l. f_equal. exact IH.
  - rewrite merge_sort_Permutation. apply NoDup_fst_map_to_list.
  - apply merge_sort_Permutation.
Qed.

Lemma dedup_and_sort_nonempty {V} (vs : list (HashValue.t * V)) : vs <> [] -> dedup_and_sort vs <> [].
Proof.
  intros Hne E. destruct vs as [|[k v] vs _] using rev_ind; [done|].
  pose proof (dedup_and_sort_map ∅ (vs ++ [(k, v)])) as Hm. rewrite E in Hm. unfold apply_set in Hm.
  rewrite foldl_app in Hm. cbn in Hm. rewrite map_empty_union in Hm. symmetry in Hm. by apply insert_non_empty in Hm.
Qed.
