(* ===== verification/JellyfishBatch.v ===== *)
(** * Insertion of a batch

    [batch_insert_at] and the two functions that create subtrees leave, at a path,
    the subtree of the map with the batch over what was there. Each of their loops
    over the ranges of the batch keeps [level]: below the path are the subtrees of
    the map with the entries up to the range. *)
From stdpp Require Import prelude gmap sorting strings.
From Stdlib Require Import ZArith Lia.
From S2P Require Import Prelude Bits HashValues SparseMerkle Nibbles JellyfishNodes JellyfishSpec.
From S2P Require Import JellyfishHash TreeCache Jellyfish JellyfishRep JellyfishCache JellyfishPut.
From S2P Require Import JellyfishUpdate JellyfishRanges.

Lemma part_map_empty {V} d h q : part d h q (∅ : gmap HashValue.t V) = ∅.
Proof. apply map_filter_empty. Qed.

Lemma part_union {V} d n (m1 m2 : gmap HashValue.t V) : part d 0 n (m1 ∪ m2) = part d 0 n m1 ∪ part d 0 n m2.
Proof.
  apply map_eq. intros k. rewrite lookup_union. destruct (decide (nib d k = n)) as [Hk|Hk].
  - by rewrite !part_lookup_nib, lookup_union.
  - by rewrite !part_lookup_other.
Qed.

(** A loop over ranges with an invariant of the position. *)
Lemma try_fold_ranges {S E St V} (f : St -> nat * nat -> action S E St) (J : nat -> St -> S -> Prop) d
    (kvs : list (HashValue.t * V)) :
  (forall p q x st s, range_ok d kvs p q x -> J p st s ->
     exists s' st', f st (p, q) s = (s', Ok st') /\ J (Datatypes.S q) st' s') ->
  forall ranges p st s, ranges_ok d kvs p ranges -> J p st s ->
  exists s' st', try_fold f st ranges s = (s', Ok st') /\ J (length kvs) st' s'.
Proof.
  intros Hf. induction ranges as [|[l r] ranges IH]; intros p st s Hrs HJ; cbn [ranges_ok] in Hrs; cbn [try_fold].
  - subst p. by exists s, st.
  - destruct Hrs as (-> & (x & Hx) & Hrs). destruct (Hf p r x st s Hx HJ) as (s' & st' & Hrun & HJ').
    rewrite (bind_run _ _ _ _ _ Hrun). by eapply IH.
Qed.

Section batch.
Context (sha3_256 : list Z -> HashValue.t) (counted : Prop) {R V : Type} `{StoredNodes R V} {HV : Value V}.
Context (self : JellyfishMerkleTree.t R) (cur last : Z) (Hcur : cur <= last).
Implicit Types (m : gmap HashValue.t V) (c : TreeCache.t R V) (kvs : list (HashValue.t * V)).

Abbreviation rep := (rep sha3_256 counted cur last).
Abbreviation cache_ok := (cache_ok cur last).
Abbreviation wrote := (wrote sha3_256 counted cur last).
Abbreviation children_rep := (children_rep sha3_256 counted cur last).

(** ** Below a path *)

(** From [c0] only what is strictly below [ns] changed, where the subtrees of [m]
    are now. *)
Definition level c0 (h : nat) (ns : list Z) (cs : Children) m c : Prop :=
  cache_ok c /\ changes (fun ns' => exists n, ns ++ [n] `prefix_of` ns') c0 c /\ children_rep c h ns cs m.

(** One round: the subtree of child [x] was written. *)
Lemma level_step c0 c h ns cs m m' x res : Forall nibble_ok ns -> nibble_ok x ->
  (S h + length ns = ROOT_NIBBLE_HEIGHT)%nat -> level c0 h ns cs m c ->
  wrote c h (ns ++ [x]) (part (length ns) 0 x m') res ->
  (forall n, n <> x -> part (length ns) 0 n m' = part (length ns) 0 n m) ->
  exists c' node ch, res = (c', Ok (key_at cur (ns ++ [x]), node)) /\
    JellyfishMerkleTree.insert_child sha3_256 cs x cur None (key_at cur (ns ++ [x]), node) c' =
      (c', Ok (<[x := ch]> cs)) /\
    level c0 h ns (<[x := ch]> cs) m' c'.
Proof.
  intros Hns Hx Hl (Hok & Hch & Hcr) (c' & node & -> & Hok' & Hch' & Hv & Hr) Hm.
  destruct (rep_describes sha3_256 counted cur last _ _ _ _ _ Hr ltac:(rewrite length_app; cbn [length]; lia) node Hv)
    as (hash & ty & Hh & Ht).
  exists c', node, (Child.new hash cur ty). split; [done|]. split.
  - unfold JellyfishMerkleTree.insert_child, JellyfishMerkleTree.get_hash.
    by rewrite (bind_lift _ _ _ _ Hh), (bind_lift _ _ _ _ Ht).
  - split; [done|]. split.
    + eapply changes_trans; [exact Hch | exact Hch' | done |]. intros ns' Hp. by exists x.
    + by eapply children_rep_insert.
Qed.

Lemma level_start c h ns cs m : cache_ok c -> children_rep c h ns cs m -> level c h ns cs m c.
Proof. intros Hok Hcr. split; [done|]. split; [apply changes_refl | done]. Qed.

Lemma level_empty c h ns : cache_ok c -> dead c ns -> level c h ns ∅ ∅ c.
Proof.
  intros Hok Hd. apply level_start; [done|]. split.
  - intros n ch Hn. by apply lookup_empty_Some in Hn.
  - intros n Hn _. split; [apply part_map_empty|]. intros v' ns' Hns' Hp. apply Hd; [done|].
    etrans; [|exact Hp]. by apply prefix_app_r.
Qed.

(** The end: the internal node. *)
Lemma level_done c0 c h ns cs m : Forall nibble_ok ns -> (S h + length ns = ROOT_NIBBLE_HEIGHT)%nat ->
  (forall v', TreeCache.node_cache c0 !! key_at v' ns = None) -> level c0 h ns cs m c -> below ns m ->
  (2 <= size m)%nat ->
  wrote c0 (S h) ns m
    ((i ← lift (InternalNode.new_migration cs (JellyfishMerkleTree.leaf_count_migration self));
      TreeCache.put_node (key_at cur ns) (Node.Internal i) ;;
      mret (key_at cur ns, Node.Internal i)) c).
Proof.
  intros Hns Hl Hnone (Hok & Hch & Hcr) Hb Hs.
  destruct (put_children_spec sha3_256 counted cur last Hcur c h ns cs m (JellyfishMerkleTree.leaf_count_migration self)
    (fun i => mret (key_at cur ns, Node.Internal (V := V) i))) as (i & c' & -> & Hok' & Hch' & Hv & Hr); [done..| | | | |].
  { intros v'. rewrite (same_nodes _ _ _ Hch); [done..|]. intros [n Hp]. by apply snoc_prefix_ne in Hp. }
  1-3: done.
  exists c', (Node.Internal i). split_and!; [done|done| |done|done].
  eapply changes_trans; [exact Hch | exact Hch' | |]; [|by intros ? <-].
  intros ns' [n Hp]. etrans; [|exact Hp]. by apply prefix_app_r.
Qed.

(** Where there is no child there is no node. *)
Lemma level_dead c0 c h ns cs m x : level c0 h ns cs m c -> nibble_ok x -> (S h + length ns = ROOT_NIBBLE_HEIGHT)%nat ->
  part (length ns) 0 x m = ∅ -> dead c (ns ++ [x]).
Proof.
  intros (_ & _ & H1 & H2) Hx Hl Hp. destruct (cs !! x) as [ch|] eqn:E; [|by apply H2].
  destruct (H1 x ch E) as (_ & node & Hv & _ & Hr). rewrite Hp in Hr. exfalso.
  by destruct (represents_node _ _ _ _ _ _ _ _ _ Hr) as (node' & _ & _ & Hne & _).
Qed.

(** A round that writes the range [p..=q] of the batch. *)
Lemma range_step c0 c h ns cs kvs p q x m res : Forall nibble_ok ns -> (S h + length ns = ROOT_NIBBLE_HEIGHT)%nat ->
  batch_ok ns kvs -> range_ok (length ns) kvs p q x -> level c0 h ns cs (with_first kvs p m) c ->
  wrote c h (ns ++ [x]) (list_to_map (slice kvs p q) ∪ part (length ns) 0 x m) res ->
  exists c' node ch, res = (c', Ok (key_at cur (ns ++ [x]), node)) /\
    JellyfishMerkleTree.insert_child sha3_256 cs x cur None (key_at cur (ns ++ [x]), node) c' =
      (c', Ok (<[x := ch]> cs)) /\
    level c0 h ns (<[x := ch]> cs) (with_first kvs (S q) m) c'.
Proof.
  intros Hns Hl Hb Hr Hlev Hw.
  apply (level_step c0 c h ns cs (with_first kvs p m)); [done|by eapply range_nibble_ok|done|done| |].
  - by erewrite with_first_range.
  - intros n Hn. by eapply with_first_other.
Qed.

(** What the loops find out about a range. *)
Lemma range_facts {E} ns kvs p q x : Forall nibble_ok ns -> (length ns < ROOT_NIBBLE_HEIGHT)%nat -> batch_ok ns kvs ->
  range_ok (length ns) kvs p q x ->
  nibble_ok x /\ JellyfishMerkleTree.range_index kvs p (length ns) = Ok x /\
  (forall v v', NodeKey.gen_child_node_key (E := E) (key_at v ns) v' x = Ok (key_at v' (ns ++ [x]))) /\
  Forall nibble_ok (ns ++ [x]) /\ (length ns + 1)%nat = length (ns ++ [x]) /\
  batch_ok (ns ++ [x]) (slice kvs p q) /\ slice kvs p q <> [].
Proof.
  intros Hns Hl Hb Hr. pose proof (range_nibble_ok ns kvs Hb p q x Hr) as Hx. split_and!; [done|..].
  - by apply (range_index_spec ns kvs Hb p q x Hr).
  - intros v v'. by apply gen_child_key_at.
  - apply Forall_app; auto.
  - by rewrite length_app.
  - by apply batch_slice.
  - apply slice_nonempty. by destruct Hr.
Qed.

Lemma with_first_0 kvs m : with_first kvs 0 m = m.
Proof. apply map_empty_union. Qed.

Lemma with_first_all kvs m : with_first kvs (length kvs) m = list_to_map kvs ∪ m.
Proof. unfold with_first. by rewrite firstn_all. Qed.

Lemma below_union ns kvs m : batch_ok ns kvs -> below ns m -> below ns (list_to_map kvs ∪ m).
Proof. intros Hb Hm. apply map_Forall_union_2; [by apply batch_below_map | done]. Qed.

Lemma size_union_r (m1 m2 : gmap HashValue.t V) : (size m2 <= size (m1 ∪ m2))%nat.
Proof. apply (dom_subseteq_size (D := gset HashValue.t)). set_solver. Qed.

(** ** New subtrees *)

Lemma batch_create_subtree_spec h : forall fuel c ns kvs, cache_ok c -> Forall nibble_ok ns ->
  (h + length ns = ROOT_NIBBLE_HEIGHT)%nat -> (h < fuel)%nat -> dead c ns -> batch_ok ns kvs -> kvs <> [] ->
  wrote c h ns (list_to_map kvs)
    (JellyfishMerkleTree.batch_create_subtree sha3_256 self fuel (key_at cur ns) cur kvs (length ns) None c).
Proof.
  induction h as [|h IH]; intros fuel c ns kvs Hok Hns Hl Hf Hd Hb Hne; (destruct fuel as [|fuel]; [lia|]);
    cbn [JellyfishMerkleTree.batch_create_subtree]; destruct kvs as [|[k v] [|[k' v'] kvs]]; try done.
  1, 3: destruct (batch_below _ _ Hb k v) as [Hk Hp]; [by left|];
    change (list_to_map [(k, v)]) with ({[k := v]} : gmap HashValue.t V); by apply put_leaf_wrote.
  { apply batch_height in Hb; cbn [length]; lia. }
  set (l := (k, v) :: (k', v') :: kvs) in *. assert (2 <= length l)%nat as Hl2 by (cbn; lia). clearbody l.
  destruct (nibble_ranges_spec (E := error) ns l Hb ltac:(lia)) as (ranges & E & Hrs). rewrite (bind_lift _ _ _ _ E).
  match goal with |- context [try_fold ?f _ _] =>
    destruct (try_fold_ranges f (fun p cs c' => level c h ns cs (with_first l p ∅) c') (length ns) l)
      with (ranges := ranges) (p := 0%nat) (st := ∅ : Children) (s := c) as (c1 & cs & E1 & Hlev); [|exact Hrs| |]
  end.
  2: { rewrite with_first_0. by apply level_empty. }
  2: { rewrite (bind_run _ _ _ _ _ E1). rewrite with_first_all, map_union_empty in Hlev. apply (level_done c c1 h ns cs).
       all: try done.
       - intros v0. by apply dead_nil.
       - by apply batch_below_map.
       - rewrite map_size_list_to_map; [done|]. by apply (batch_distinct ns). }
  intros p q x cs c1 Hr Hlev. cbv beta iota.
  destruct (range_facts (E := error) ns l p q x) as (Hx & Hi & Hg & Hns' & Hlen & Hb' & Hne'); [done|lia|done|done|].
  rewrite (bind_lift _ _ _ _ Hi), (bind_lift _ _ _ _ (Hg cur cur)).
  edestruct (range_step c c1 h ns cs l p q x ∅) as (c2 & node & ch & E2 & E3 & Hlev2); [done..| |].
  2: { rewrite (bind_run _ _ _ _ _ E2). rewrite E3. eauto. }
  rewrite part_map_empty, map_union_empty.
  rewrite Hlen. apply IH; [by destruct Hlev | done | lia | lia | | done | done].
  eapply (level_dead c c1); [done..|]. erewrite with_first_before by done. apply part_map_empty.
Qed.

(** ** New subtrees over an existing leaf *)

Section leaf.
Context (k0 : HashValue.t) (w0 : V) (Hk0 : HashValue.wf k0).

Abbreviation bucket ns := (nib (length ns) k0).

(** Before the entry [p]: the leaf is in the subtree of its bucket once the range
    of the bucket has been passed. *)
Definition leaf_inv c0 (h : nat) (ns : list Z) kvs (p : nat) (st : bool * Children) c : Prop :=
  level c0 h ns st.2 (with_first kvs p (if st.1 then ∅ else {[k0 := w0]})) c /\
  if st.1 then forall i k v, kvs !! i = Some (k, v) -> (i < p)%nat -> nib (length ns) k <> bucket ns
  else exists i k v, kvs !! i = Some (k, v) /\ (i < p)%nat /\ nib (length ns) k = bucket ns.

Lemma part_singleton d n : part d 0 n {[k0 := w0]} = if bool_decide (nib d k0 = n) then {[k0 := w0]} else ∅.
Proof. by rewrite <- insert_empty, part_insert, part_map_empty, Z.shiftr_0_r. Qed.

(** The bucket of the leaf is passed once. *)
Lemma leaf_inv_base c0 h ns kvs p q x iso cs c : range_ok (length ns) kvs p q x ->
  leaf_inv c0 h ns kvs p (iso, cs) c ->
  part (length ns) 0 x (if iso then ∅ else {[k0 := w0]}) = ∅ /\ (bucket ns = x -> iso = true).
Proof.
  intros [_ Hr] [_ Hi]. cbn [fst] in Hi. destruct iso; [split; [apply part_map_empty|done]|].
  destruct Hi as (i & k & v & Hi & Hlt & E). destruct (Hr i k v Hi) as (H1 & _). apply H1 in Hlt.
  rewrite part_singleton, bool_decide_false by lia. split; [done|lia].
Qed.

Lemma leaf_round c0 h ns kvs p q x iso cs c res : Forall nibble_ok ns -> (S h + length ns = ROOT_NIBBLE_HEIGHT)%nat ->
  batch_ok ns kvs -> range_ok (length ns) kvs p q x -> leaf_inv c0 h ns kvs p (iso, cs) c ->
  wrote c h (ns ++ [x]) (list_to_map (slice kvs p q) ∪ (if bucket ns =? x then {[k0 := w0]} else ∅)) res ->
  exists c' node ch, res = (c', Ok (key_at cur (ns ++ [x]), node)) /\
    JellyfishMerkleTree.insert_child sha3_256 cs x cur None (key_at cur (ns ++ [x]), node) c' =
      (c', Ok (<[x := ch]> cs)) /\
    leaf_inv c0 h ns kvs (S q) (iso && negb (bucket ns =? x), <[x := ch]> cs) c'.
Proof.
  intros Hns Hl Hb Hr Hinv Hw. destruct (leaf_inv_base _ _ _ _ _ _ _ _ _ _ Hr Hinv) as [Hbase Hiso].
  destruct Hinv as [Hlev Hi]. cbn [fst snd] in Hlev, Hi.
  destruct (lookup_lt_is_Some_2 kvs p) as [[kp vp] Hp]; [destruct Hr; lia|].
  destruct (Z.eqb_spec (bucket ns) x) as [E|Hne].
  - rewrite (Hiso E) in *. cbn [negb andb].
    destruct (level_step c0 c h ns cs (with_first kvs p ∅) (with_first kvs (S q) {[k0 := w0]}) x res)
      as (c' & node & ch & E1 & E2 & Hlev'); [done|by eapply range_nibble_ok|done|done| | |].
    + erewrite with_first_range by done. by rewrite part_singleton, bool_decide_true.
    + intros n Hn. erewrite with_first_other by done. unfold with_first.
      by rewrite !part_union, part_map_empty, part_singleton, bool_decide_false by congruence.
    + exists c', node, ch. split_and!; [done|done|]. split; [done|]. exists p, kp, vp. destruct Hr as [Hpq Hr].
      split; [done|]. split; [lia|]. rewrite E. apply (Hr p kp vp Hp). lia.
  - rewrite andb_true_r. destruct (range_step c0 c h ns cs kvs p q x (if iso then ∅ else {[k0 := w0]}) res)
      as (c' & node & ch & E1 & E2 & Hlev'); [done..|by rewrite Hbase|].
    exists c', node, ch. split_and!; [done|done|]. split; [done|]. cbn [fst]. destruct iso.
    + intros i k v Hik Hlt. destruct (decide (i < p)%nat); [by apply (Hi i k v)|]. destruct Hr as [Hpq Hr].
      destruct (Hr i k v Hik) as (_ & -> & _); [congruence|lia].
    + destruct Hi as (i & k & v & ? & ? & ?). exists i, k, v. destruct Hr. split_and!; [done|lia|done].
Qed.

(** The end: a leaf whose bucket no range passed gets a node of its own. *)
Lemma leaf_finish c0 h ns kvs iso cs c : Forall nibble_ok ns -> (S h + length ns = ROOT_NIBBLE_HEIGHT)%nat ->
  batch_ok ns kvs -> ns `prefix_of` key_nibbles k0 -> leaf_inv c0 h ns kvs (length kvs) (iso, cs) c ->
  exists c' cs', (if iso : bool then
      existing_leaf_node_key ← lift (NodeKey.gen_child_node_key (key_at cur ns) cur (bucket ns));
      let children := <[bucket ns := Child.new (LeafNode.hash sha3_256 (LeafNode.new k0 w0)) cur NodeType.Leaf]> cs in
      TreeCache.put_node existing_leaf_node_key (Node.Leaf (LeafNode.new k0 w0)) ;;
      mret children
    else mret cs) c = (c', Ok cs') /\
    level c0 h ns cs' (list_to_map kvs ∪ {[k0 := w0]}) c'.
Proof.
  intros Hns Hl Hb Hp [Hlev Hi]. cbn [fst snd] in Hlev, Hi. rewrite with_first_all in Hlev.
  destruct iso; [|by exists c, cs]. rewrite map_union_empty in Hlev.
  assert (nibble_ok (bucket ns)) as Hx by by apply nib_ok.
  rewrite (bind_lift _ _ _ (key_at cur (ns ++ [bucket ns]))) by by apply gen_child_key_at; [| |lia].
  assert (part (length ns) 0 (bucket ns) (list_to_map kvs : gmap HashValue.t V) = ∅) as Hnone.
  { apply part_empty. intros k v Hk. rewrite Z.shiftr_0_r. apply elem_of_list_to_map_2, list_elem_of_lookup in Hk as [i Hk].
    apply (Hi i k v); [done|]. by apply lookup_lt_Some in Hk. }
  assert (dead c (ns ++ [bucket ns])) as Hd by (eapply level_dead; done).
  assert (level c0 h ns cs (list_to_map kvs) c) as (Hok & _) by done.
  destruct (put_leaf_spec sha3_256 counted cur last Hcur c h (ns ++ [bucket ns]) k0 w0) as (c1 & E1 & Hok1 & Hch1 & Hv1 & Hr1);
    [done | apply Forall_app; auto | done | done | by apply prefix_nib; [| |lia] |].
  change (Node.Leaf (LeafNode.new k0 w0)) with (Node.new_leaf k0 w0). rewrite (bind_run _ _ _ _ _ E1).
  eexists c1, _. split; [reflexivity|].
  destruct (level_step c0 c h ns cs (list_to_map kvs) (list_to_map kvs ∪ {[k0 := w0]}) (bucket ns)
    (c1, Ok (key_at cur (ns ++ [bucket ns]), Node.new_leaf k0 w0))) as (c' & node & ch & [= <- <-] & E2 & Hlev'); [done..| | |].
  - exists c1, (Node.new_leaf k0 w0). split_and!; [done|done| |done|].
    + eapply changes_weaken; [exact Hch1|]. by intros ? <-.
    + by rewrite part_union, Hnone, map_empty_union, part_singleton, bool_decide_true.
  - intros n Hn. by rewrite part_union, part_singleton, bool_decide_false, map_union_empty by congruence.
  - unfold JellyfishMerkleTree.insert_child in E2. cbn in E2. injection E2 as E2. by rewrite E2.
Qed.

(** Only the leaf's own key, or another key too. *)
Lemma leaf_cases ns kvs : batch_ok ns kvs -> kvs <> [] ->
  (exists v, kvs = [(k0, v)]) \/
  match kvs with [(key, value)] => if decide (key = k0) then Some value else None | _ => None end = None /\
  exists k v, (k, v) ∈ kvs /\ k <> k0.
Proof.
  intros Hb Hne. destruct kvs as [|[k v] [|[k' v'] kvs]]; [done| |].
  - case_decide as E; [left; subst; eauto|]. right. split; [done|]. exists k, v. split; [by left|done].
  - right. split; [done|]. destruct (decide (k = k0)) as [->|]; [|exists k, v; split; [by left|done]].
    exists k', v'. split; [by right; left|]. pose proof (batch_distinct _ _ Hb) as Hd. cbn in Hd.
    apply NoDup_cons in Hd as [Hd _]. intros ->. apply Hd. by left.
Qed.

Lemma batch_create_subtree_with_existing_leaf_spec h : forall fuel c ns kvs, cache_ok c -> Forall nibble_ok ns ->
  (h + length ns = ROOT_NIBBLE_HEIGHT)%nat -> (h < fuel)%nat -> dead c ns -> batch_ok ns kvs -> kvs <> [] ->
  ns `prefix_of` key_nibbles k0 ->
  wrote c h ns (list_to_map kvs ∪ {[k0 := w0]})
    (JellyfishMerkleTree.batch_create_subtree_with_existing_leaf sha3_256 self fuel (key_at cur ns) cur
       (LeafNode.new k0 w0) kvs (length ns) None c).
Proof.
  induction h as [|h IH]; intros fuel c ns kvs Hok Hns Hl Hf Hd Hb Hne Hp0; (destruct fuel as [|fuel]; [lia|]);
    cbn [JellyfishMerkleTree.batch_create_subtree_with_existing_leaf LeafNode.new LeafNode.account_key];
    (destruct (leaf_cases ns kvs Hb Hne) as [[v ->]|(-> & k & v & Hk & Hkne)];
     [rewrite decide_True by done; change (list_to_map [(k0, v)]) with ({[k0 := v]} : gmap HashValue.t V);
      rewrite <- insert_empty, <- insert_union_l, map_empty_union, insert_singleton_eq; by apply put_leaf_wrote|]);
    destruct (batch_below _ _ Hb k v Hk) as [Hkw Hp].
  { pose proof (two_keys_height ns k k0 Hkw Hk0 Hkne Hp Hp0). lia. }
  rewrite (bind_lift _ _ _ (bucket ns)) by by apply get_nibble_nib; [|lia].
  destruct (nibble_ranges_spec (E := error) ns kvs Hb ltac:(lia)) as (ranges & E & Hrs). rewrite (bind_lift _ _ _ _ E).
  match goal with |- context [try_fold ?f _ _] =>
    destruct (try_fold_ranges f (leaf_inv c h ns kvs) (length ns) kvs)
      with (ranges := ranges) (p := 0%nat) (st := (true, ∅ : Children)) (s := c) as (c1 & [iso cs] & E1 & Hinv);
    [|exact Hrs| |]
  end.
  2: { split; [cbn [fst snd]; rewrite with_first_0; by apply level_empty | cbn [fst]; intros; lia]. }
  - intros p q x [iso cs] c1 Hr Hinv. cbv beta iota.
    destruct (range_facts (E := error) ns kvs p q x) as (Hx & Hi & Hg & Hns' & Hlen & Hb' & Hne'); [done|lia|done|done|].
    rewrite (bind_lift _ _ _ _ Hi), (bind_lift _ _ _ _ (Hg cur cur)).
    edestruct (leaf_round c h ns kvs p q x iso cs c1) as (c2 & node & ch & E2 & E3 & Hinv2); [done..| |].
    2: { rewrite (bind_run _ _ _ _ _ E2), (bind_run _ _ _ _ _ E3). by eexists _, _. }
    rewrite Hlen. assert (dead c1 (ns ++ [x])) as Hd1.
    { destruct (leaf_inv_base _ _ _ _ _ _ _ _ _ _ Hr Hinv) as [Hbase _]. destruct Hinv as [Hlev _].
      eapply (level_dead c c1); [exact Hlev|done..|]. by erewrite with_first_before. }
    assert (cache_ok c1) as Hok1 by by destruct Hinv as [[Hok1 _] _].
    destruct (Z.eqb_spec (bucket ns) x) as [<-|Hbx].
    + apply IH; [done|done|lia|lia|done..|]. by apply prefix_nib; [| |lia].
    + rewrite map_union_empty. apply batch_create_subtree_spec; [done|done|lia|lia|done..].
  - rewrite (bind_run _ _ _ _ _ E1). cbv beta iota.
    destruct (leaf_finish c h ns kvs iso cs c1) as (c2 & cs' & E2 & Hlev); [done..|].
    rewrite (bind_run _ _ _ _ _ E2). apply (level_done c c2 h ns cs'); [done|done| |done| |].
    + intros v0. by apply dead_nil.
    + apply below_union; [done|]. intros k' v' [<- <-]%lookup_singleton_Some. done.
    + apply (size_ge_2 _ k k0); [done|..]; rewrite lookup_union.
      * rewrite (proj1 (elem_of_list_to_map kvs k v (batch_distinct _ _ Hb)) Hk). by destruct ({[k0 := w0]} !! k).
      * rewrite lookup_singleton_eq. by destruct (list_to_map kvs !! k0).
Qed.
End leaf.

(** ** Anywhere *)

(** The loop below an internal node: the children of the ranges ahead are still
    the old ones. *)
Definition internal_inv c0 (h : nat) (ns : list Z) kvs (cs0 : Children) m (p : nat) (cs : Children) c : Prop :=
  level c0 h ns cs (with_first kvs p m) c /\
  forall x, (forall i k v, kvs !! i = Some (k, v) -> (i < p)%nat -> nib (length ns) k < x) -> cs !! x = cs0 !! x.

Lemma internal_round c0 h ns kvs cs0 m p q x cs c res : Forall nibble_ok ns ->
  (S h + length ns = ROOT_NIBBLE_HEIGHT)%nat -> batch_ok ns kvs -> range_ok (length ns) kvs p q x ->
  internal_inv c0 h ns kvs cs0 m p cs c ->
  wrote c h (ns ++ [x]) (list_to_map (slice kvs p q) ∪ part (length ns) 0 x m) res ->
  exists c' node ch, res = (c', Ok (key_at cur (ns ++ [x]), node)) /\
    JellyfishMerkleTree.insert_child sha3_256 cs x cur None (key_at cur (ns ++ [x]), node) c' =
      (c', Ok (<[x := ch]> cs)) /\
    internal_inv c0 h ns kvs cs0 m (S q) (<[x := ch]> cs) c'.
Proof.
  intros Hns Hl Hb Hr [Hlev Hold] Hw.
  destruct (range_step c0 c h ns cs kvs p q x m res) as (c' & node & ch & E1 & E2 & Hlev'); [done..|].
  exists c', node, ch. split_and!; [done|done|]. split; [done|]. intros y Hy. destruct Hr as [Hpq Hr].
  destruct (lookup_lt_is_Some_2 kvs p) as [[k v] Hk]; [lia|].
  assert (nib (length ns) k = x) as Hx by (apply (Hr p k v Hk); lia).
  unfold Children in *. rewrite lookup_insert_ne by (pose proof (Hy p k v Hk ltac:(lia)); lia).
  apply Hold. intros i k' v' Hi Hlt. apply (Hy i k' v' Hi). lia.
Qed.

(** The child of a range as the loop finds it. *)
Lemma internal_child c0 h ns kvs cs0 m p q x cs c : Forall nibble_ok ns -> (S h + length ns = ROOT_NIBBLE_HEIGHT)%nat ->
  batch_ok ns kvs -> range_ok (length ns) kvs p q x -> internal_inv c0 h ns kvs cs0 m p cs c ->
  match cs0 !! x with
  | Some ch => rep c h (Child.version ch) (ns ++ [x]) (part (length ns) 0 x m)
  | None => part (length ns) 0 x m = ∅ /\ dead c (ns ++ [x])
  end.
Proof.
  intros Hns Hl Hb Hr [(_ & _ & H1 & H2) Hold].
  rewrite <- (Hold x) by (intros i k v Hi Hlt; destruct Hr as [_ Hr]; by apply (Hr i k v Hi)).
  rewrite <- (with_first_before ns kvs Hb p q x Hr m). destruct (cs !! x) as [ch|] eqn:E.
  - by destruct (H1 x ch E) as (_ & _ & _ & _ & ?).
  - apply H2; [by eapply range_nibble_ok | done].
Qed.

Lemma batch_insert_at_internal_spec fuel c h v0 ns m kvs i : cache_ok c -> Forall nibble_ok ns ->
  (S h + length ns = ROOT_NIBBLE_HEIGHT)%nat -> (h < fuel)%nat -> batch_ok ns kvs ->
  rep c (S h) v0 ns m -> view c (key_at v0 ns) = Some (Node.Internal i) ->
  (forall c v ns m kvs, cache_ok c -> Forall nibble_ok ns -> (h + length ns = ROOT_NIBBLE_HEIGHT)%nat ->
     batch_ok ns kvs -> kvs <> [] -> rep c h v ns m ->
     wrote c h ns (list_to_map kvs ∪ m)
       (JellyfishMerkleTree.batch_insert_at sha3_256 self fuel (key_at v ns) cur kvs (length ns) None c)) ->
  kvs <> [] ->
  wrote c (S h) ns (list_to_map kvs ∪ m)
    (JellyfishMerkleTree.batch_insert_at sha3_256 self (S fuel) (key_at v0 ns) cur kvs (length ns) None c).
Proof.
  intros Hok Hns Hl Hf Hb Hr Hv IH Hne. cbn [JellyfishMerkleTree.batch_insert_at].
  replace (length kvs =? 0)%nat with false by by destruct kvs. cbn [negb assert_].
  rewrite bind_Ok, (get_node_view _ _ _ Hv).
  destruct (delete_node_spec cur last c v0 ns false) as (c1 & E1 & Hok1 & Hch1 & Hnone1);
    [done | done | by eapply represents_live |].
  rewrite (bind_run _ _ _ _ _ E1). eapply wrote_step; [exact Hch1 | by intros ? <- |].
  destruct Hr as (Hbm & _ & Hr). rewrite Hv in Hr. destruct Hr as (Hs & _ & Hsome & Hdead).
  assert (children_rep c1 h ns (InternalNode.children i) m) as Hcr1.
  { eapply children_rep_changes; [exact Hch1 | | done | done | split; [exact Hsome | exact Hdead]].
    intros n ns' Hp'. by apply snoc_prefix_ne in Hp'. }
  destruct (nibble_ranges_spec (E := error) ns kvs Hb ltac:(lia)) as (ranges & E & Hrs). rewrite (bind_lift _ _ _ _ E).
  match goal with |- context [try_fold ?f _ _] =>
    destruct (try_fold_ranges f (internal_inv c1 h ns kvs (InternalNode.children i) m) (length ns) kvs)
      with (ranges := ranges) (p := 0%nat) (st := InternalNode.children i) (s := c1) as (c2 & cs & E2 & Hinv);
    [|exact Hrs| |]
  end.
  2: { split; [rewrite with_first_0; by apply level_start | done]. }
  - intros p q x cs c2 Hx Hinv. cbv beta iota.
    destruct (range_facts (E := error) ns kvs p q x) as (Hxok & Hi & Hg & Hns' & Hlen & Hb' & Hne'); [done|lia|done|done|].
    rewrite (bind_lift _ _ _ _ Hi).
    assert (cache_ok c2) as Hok2 by by destruct Hinv as [[Hok2 _] _].
    pose proof (internal_child _ _ _ _ _ _ _ _ _ _ _ Hns Hl Hb Hx Hinv) as Hchild.
    edestruct (internal_round c1 h ns kvs (InternalNode.children i) m p q x cs c2) as (c3 & node & ch & E3 & E4 & Hinv3);
      [done..| |].
    2: { rewrite (bind_run _ _ _ _ _ E3), E4. by eexists _, _. }
    rewrite Hlen. destruct (InternalNode.children i !! x) as [ch|].
    + rewrite (bind_lift _ _ _ _ (Hg v0 (Child.version ch))).
      apply IH; [done|done|lia|done..].
    + rewrite (bind_lift _ _ _ _ (Hg v0 cur)). destruct Hchild as [-> Hd]. rewrite map_union_empty. apply batch_create_subtree_spec; [done|done|lia|lia|done..].
  - rewrite (bind_run _ _ _ _ _ E2). change (NodeKey.set_version (key_at v0 ns) cur) with (key_at cur ns).
    destruct Hinv as [Hlev _]. rewrite with_first_all in Hlev.
    apply (level_done c1 c2 h ns cs); [done..|by apply below_union|].
    pose proof (size_union_r (list_to_map kvs) m). lia.
Qed.

Lemma batch_insert_at_leaf_spec fuel c h v0 ns m kvs l : cache_ok c -> Forall nibble_ok ns ->
  (h + length ns = ROOT_NIBBLE_HEIGHT)%nat -> (h < S fuel)%nat -> batch_ok ns kvs -> kvs <> [] ->
  rep c h v0 ns m -> view c (key_at v0 ns) = Some (Node.Leaf l) ->
  wrote c h ns (list_to_map kvs ∪ m)
    (JellyfishMerkleTree.batch_insert_at sha3_256 self (S fuel) (key_at v0 ns) cur kvs (length ns) None c).
Proof.
  intros Hok Hns Hl Hf Hb Hne Hr Hv. cbn [JellyfishMerkleTree.batch_insert_at].
  replace (length kvs =? 0)%nat with false by by destruct kvs. cbn [negb assert_].
  rewrite bind_Ok, (get_node_view _ _ _ Hv).
  destruct (delete_leaf_spec sha3_256 counted cur last c h v0 ns m l)
    as (c1 & k0 & w0 & E1 & Hok1 & Hch1 & Hd1 & -> & -> & Hk0 & Hp0); [done..|].
  rewrite (bind_run _ _ _ _ _ E1). eapply wrote_step; [exact Hch1 | by intros ? <- |].
  by apply (batch_create_subtree_with_existing_leaf_spec k0 w0 Hk0).
Qed.

Lemma batch_insert_at_spec h : forall fuel c v0 ns m kvs, cache_ok c -> Forall nibble_ok ns ->
  (h + length ns = ROOT_NIBBLE_HEIGHT)%nat -> (h < fuel)%nat -> batch_ok ns kvs -> kvs <> [] -> rep c h v0 ns m ->
  wrote c h ns (list_to_map kvs ∪ m)
    (JellyfishMerkleTree.batch_insert_at sha3_256 self fuel (key_at v0 ns) cur kvs (length ns) None c).
Proof.
  induction h as [|h IH]; intros fuel c v0 ns m kvs Hok Hns Hl Hf Hb Hne Hr; (destruct fuel as [|fuel]; [lia|]);
    destruct (represents_node _ _ _ _ _ _ _ _ _ Hr) as (node & Hv & Hnull & _); destruct node as [|i|l]; try done.
  1: { destruct Hr as (_ & _ & Hr). by rewrite Hv in Hr. }
  2: { apply (batch_insert_at_internal_spec fuel c h v0 ns m kvs i); try done; [lia|].
       intros. apply IH; [done..|lia|done|done|done]. }
  all: by eapply batch_insert_at_leaf_spec.
Qed.

Abbreviation tree_rep c := (tree_at sha3_256 counted (view c) (live cur last c) (dead c)).

Lemma batch_insert_at_root_spec c v0 m kvs : cache_ok c -> tree_rep c v0 m -> batch_ok [] kvs -> kvs <> [] ->
  wrote c ROOT_NIBBLE_HEIGHT [] (list_to_map kvs ∪ m)
    (JellyfishMerkleTree.batch_insert_at sha3_256 self (S ROOT_NIBBLE_HEIGHT) (key_at v0 []) cur kvs 0 None c).
Proof.
  intros Hok [(-> & Hlive & Hv & Hd)|Hr] Hb Hne.
  - cbn [JellyfishMerkleTree.batch_insert_at]. replace (length kvs =? 0)%nat with false by by destruct kvs.
    cbn [negb assert_]. rewrite bind_Ok, (get_node_view _ _ _ Hv).
    rewrite (bind_lift _ _ _ tt) by done. cbn [key_at NodeKey.version]. fold (key_at v0 []).
    destruct (delete_null_spec cur last c v0) as (c1 & E1 & Hok1 & Hch1 & Hd1); [done..|].
    rewrite (bind_run _ _ _ _ _ E1), map_union_empty. eapply wrote_step; [exact Hch1 | by intros ? <- |].
    by apply (batch_create_subtree_spec ROOT_NIBBLE_HEIGHT); [..|lia| | |].
  - by apply (batch_insert_at_spec ROOT_NIBBLE_HEIGHT _ c v0 [] m); [..|lia| | |].
Qed.

End batch.

(** ** The whole update *)

Section update.
Context (sha3_256 : list Z -> HashValue.t) (counted : Prop) {R V : Type} `{StoredNodes R V} {HV : Value V}.
Context (self : JellyfishMerkleTree.t R) (first : Z) (n : nat).
Implicit Types (m : gmap HashValue.t V) (c : TreeCache.t R V).

Lemma batch_put_value_set_spec r c ms m value_set : 0 <= first -> first + Z.of_nat n < u64_max ->
  progress sha3_256 counted first n r c ms m -> (length ms < n)%nat -> set_ok value_set ->
  exists c', JellyfishMerkleTree.batch_put_value_set sha3_256 self first (Z.of_nat (length ms)) (value_set, None) c =
      (c', Ok (Z.of_nat (length ms) + 1)) /\
    progress sha3_256 counted first n r c' (ms ++ [apply_set m value_set]) (apply_set m value_set).
Proof.
  intros Hpos Hmax Hp Hlt [Hne Hks]. unfold JellyfishMerkleTree.batch_put_value_set.
  rewrite (bind_lift _ _ _ tt) by by destruct value_set. rewrite u64_add_small by lia.
  rewrite (bind_run _ _ _ _ _ (eq_refl : gets TreeCache.root_node_key c = (c, Ok (TreeCache.root_node_key c)))).
  destruct (p_holds _ _ _ _ _ _ _ _ Hp) as (Hok & v0 & Hroot & Ht). rewrite Hroot.
  edestruct (holds_root sha3_256 counted first n (first + Z.of_nat (length ms)) c (apply_set m value_set))
    as (c1 & node & E1 & Henv & Hh).
  { rewrite <- dedup_and_sort_map. apply batch_insert_at_root_spec; [lia|done|exact Ht| |].
    - by apply dedup_and_sort_ok.
    - by apply dedup_and_sort_nonempty. }
  rewrite (bind_run _ _ _ _ _ E1). cbv beta iota.
  set (c2 := TreeCache.set_root_node_key (key_at (first + Z.of_nat (length ms)) []) c1) in *.
  rewrite (bind_run _ _ _ _ _ (eq_refl : modify (TreeCache.set_root_node_key (key_at (first + Z.of_nat (length ms)) [])) c1 = (c2, Ok tt))).
  destruct (progress_freeze sha3_256 counted first n r c c2 ms m (apply_set m value_set)) as (c3 & E3 & Hp3); [done..|].
  exists c3. by rewrite (bind_run _ _ _ _ _ E3).
Qed.

Lemma batch_put_value_sets_ok m0 value_sets : length value_sets = n -> 0 <= first -> first + Z.of_nat n < u64_max ->
  Forall set_ok value_sets -> starts sha3_256 counted first (JellyfishMerkleTree.reader self) m0 ->
  unwritten first n (JellyfishMerkleTree.reader self) ->
  update_ok sha3_256 counted first (JellyfishMerkleTree.reader self) m0 value_sets
    (JellyfishMerkleTree.batch_put_value_sets sha3_256 self value_sets None first).
Proof.
  intros Hn Hpos Hmax Hsets Hstart Hfresh. unfold JellyfishMerkleTree.batch_put_value_sets.
  destruct (new_spec sha3_256 counted first n (JellyfishMerkleTree.reader self) m0) as (c & -> & Hp); [done|lia|done|done|].
  rewrite bind_Ok. set (hash_sets := (fun _ => None) <$> value_sets).
  assert (length value_sets = length hash_sets) as Hlen by (symmetry; apply length_fmap).
  assert (zip value_sets hash_sets = (fun vs => (vs, None)) <$> value_sets) as ->.
  { unfold hash_sets. clear. induction value_sets; [done|]. cbn. by f_equal. }
  destruct (loop_spec sha3_256 counted first n (JellyfishMerkleTree.batch_put_value_set sha3_256 self first) fst
      (fun sets => set_ok sets.1 /\ sets.2 = None) (JellyfishMerkleTree.reader self))
    with (sets := (fun vs => (vs, @None (gmap NibblePath.t HashValue.t))) <$> value_sets) (c := c)
      (ms := @nil (gmap HashValue.t V)) (m := m0) as (c' & m' & idx & E & Hp').
  - intros c' ms m [vs hs] Hp' Hlt [Hvs Hhs]. cbn [fst snd] in *. subst hs. by apply batch_put_value_set_spec.
  - done.
  - by rewrite length_fmap.
  - apply Forall_fmap. eapply Forall_impl; [exact Hsets|]. done.
  - change (Z.of_nat (length (A := gmap HashValue.t V) [])) with 0 in E. rewrite E, Hlen, Nat.eqb_refl.
    cbn [assert_]. rewrite bind_Ok. rewrite <- list_fmap_compose in Hp'.
    rewrite (list_fmap_ext (fst ∘ _) id value_sets), list_fmap_id in Hp' by done. by eapply progress_into.
Qed.
End update.
