(* ===== verification/JellyfishTheorems.v ===== *)
(** * Correctness of the Jellyfish Merkle tree

    A stored version of the tree serves the map it holds: its root hash is the one
    of the map, and reading a key gives the value of the map with a proof that
    [SparseMerkleProof::verify] accepts. Updates, one key at a time or in batches,
    write versions that serve the maps after each set of values; pruning the nodes
    that an update marks as stale keeps the versions that do not use them. *)
From stdpp Require Import prelude gmap strings.
From Stdlib Require Import ZArith Lia.
From S2P Require Import Prelude Bits HashValues SparseMerkle Nibbles JellyfishNodes JellyfishSpec.
From S2P Require Import JellyfishHash TreeCache Jellyfish JellyfishRep JellyfishCache JellyfishPut.
From S2P Require Import JellyfishUpdate JellyfishRanges JellyfishBatch.

Lemma fmap_lookup {A B} (f : A -> B) (l : list A) (j : nat) x y : l !! j = Some x -> (f <$> l) !! j = Some y -> y = f x.
Proof. intros Hj. rewrite list_lookup_fmap, Hj. by intros [= <-]. Qed.

Section theorems.
Context (sha3_256 : list Z -> HashValue.t) (counted : Prop) {R V : Type} `{StoredNodes R V} {HV : Value V}.
Implicit Types (m : gmap HashValue.t V) (self : JellyfishMerkleTree.t R).

(** ** Reading *)

Definition serves self (v : Z) (root : HashValue.t) m : Prop :=
  JellyfishMerkleTree.get_root_hash sha3_256 self v = Ok root /\
  forall key, HashValue.wf key -> exists proof,
    JellyfishMerkleTree.get_with_proof sha3_256 self key v = Ok (m !! key, proof) /\
    SparseMerkleProof.verify sha3_256 value_hash proof root key (m !! key) = Ok tt.

(** The values have 32-byte hashes. *)
Context (value_hash_sized : forall v : V, sized (value_hash v)).

Abbreviation tree_of m := (canon HashValue.LENGTH_IN_BITS m).

Lemma tree_at_keys get live dead v m : tree_at sha3_256 counted get live dead v m -> keys_ok m.
Proof.
  intros [(-> & _)|Hr]; [intros k w Hk; by apply lookup_empty_Some in Hk|].
  eapply below_keys, represents_below, Hr.
Qed.

Lemma canon_tree m : keys_ok m -> placed [] (tree_of m) /\
  forall k vh, (k, vh) ∈ leaves (tree_of m) <-> exists v, m !! k = Some v /\ vh = value_hash v.
Proof.
  intros Hm. apply (canon_spec value_hash_sized HashValue.LENGTH_IN_BITS [] m); [|done].
  intros k v Hk. split; [by eapply Hm | apply prefix_nil].
Qed.

Lemma canon_proof m key : keys_ok m -> HashValue.wf key ->
  SparseMerkleProof.verify sha3_256 value_hash (proof_of_key sha3_256 (tree_of m) key)
    (root_hash sha3_256 (tree_of m)) key (m !! key) = Ok tt.
Proof.
  intros Hm Hkey. destruct (canon_tree m Hm) as [Hp Hl].
  apply proof_of_key_verifies; [done | by apply wf_sized |].
  destruct (m !! key) as [v|] eqn:E.
  - apply Hl. eauto.
  - intros vh (v & Hv & _)%Hl. congruence.
Qed.

Lemma tree_serves live dead self v m :
  tree_at sha3_256 counted (fun k => stored (JellyfishMerkleTree.reader self) !! k) live dead v m ->
  serves self v (root_hash sha3_256 (tree_of m)) m.
Proof.
  intros Ht. split; [by eapply get_root_hash_eq|]. intros key Hkey. eexists.
  split; [by eapply get_with_proof_eq|]. apply canon_proof; [by eapply tree_at_keys | done].
Qed.

(** ** Range proofs *)

(** The siblings of a proof on one side of the path, bottom first. *)
Definition siblings_on (b : bool) (proof : SparseMerkleProof.t) (key : HashValue.t) : list HashValue.t :=
  rev (omap (fun '(sibling, bit) => if Bool.eqb bit b then Some sibling else None)
    (zip (rev (SparseMerkleProof.siblings proof)) (HashValue.iter_bits key))).

(** [verify] of a range proof merges the siblings of the two sides. *)
Lemma verify_loop_sides (path : list (HashValue.t * bool)) : forall h,
  SparseMerkleRangeProof.verify_loop sha3_256 path.*2
    (omap (fun '(s, bit) => if Bool.eqb bit true then Some s else None) path)
    (omap (fun '(s, bit) => if Bool.eqb bit false then Some s else None) path) h =
  Ok (foldl (SparseMerkleProof.fold_step sha3_256) h path).
Proof. induction path as [|[s []] path IH]; intros h; [done|..]; apply IH. Qed.

Lemma sides_length (path : list (HashValue.t * bool)) :
  (length (omap (fun '(s, bit) => if Bool.eqb bit true then Some s else None) path) +
   length (omap (fun '(s, bit) => if Bool.eqb bit false then Some s else None) path) = length path)%nat.
Proof. induction path as [|[s []] path IH]; [done|..]; cbn; lia. Qed.

Lemma rev_omap {A B} (f : A -> option B) l : rev (omap f l) = omap f (rev l).
Proof.
  induction l as [|x l IH]; [done|]. cbn [rev]. rewrite omap_app, <- IH. cbn. destruct (f x); cbn [rev]; [done|].
  by rewrite app_nil_r.
Qed.

Lemma rev_zip {A B} (xs : list A) : forall ys : list B, (length xs <= length ys)%nat ->
  rev (zip (rev xs) ys) = zip xs (rev (take (length xs) ys)).
Proof.
  induction xs as [|x xs IH] using rev_ind; intros [|y ys] Hl; try (rewrite ?length_app in Hl; cbn in Hl; lia); [done|done|].
  rewrite rev_app_distr, length_app, Nat.add_1_r. cbn [rev app zip zip_with take]. rewrite length_app in Hl. cbn in Hl.
  rewrite IH by lia. rewrite zip_with_app by (rewrite length_rev, length_take; lia). done.
Qed.

Lemma siblings_on_path b proof key :
  (length (SparseMerkleProof.siblings proof) <= length (HashValue.iter_bits key))%nat ->
  siblings_on b proof key =
  omap (fun '(s, bit) => if Bool.eqb bit b then Some s else None)
    (zip (SparseMerkleProof.siblings proof)
       (rev (take (length (SparseMerkleProof.siblings proof)) (HashValue.iter_bits key)))).
Proof. intros Hl. unfold siblings_on. by rewrite rev_omap, rev_zip. Qed.

(** The two sides of an inclusion proof make up a range proof. *)
Lemma inclusion_range proof root key (value : V) : sized key ->
  SparseMerkleProof.verify sha3_256 value_hash proof root key (Some value) = Ok tt ->
  SparseMerkleRangeProof.verify sha3_256 (SparseMerkleRangeProof.new (siblings_on false proof key)) root
    (SparseMerkleLeafNode.new key (value_hash value)) (siblings_on true proof key) = Ok tt.
Proof.
  intros Hkey Hv. pose proof (iter_bits_length key Hkey) as Hlen. unfold SparseMerkleProof.verify in Hv.
  destruct (Nat.leb_spec (length (SparseMerkleProof.siblings proof)) HashValue.LENGTH_IN_BITS) as [Hle|]; [|done].
  cbn [ensure] in Hv. rewrite bind_Ok in Hv. unfold SparseMerkleProof.check_leaf in Hv.
  destruct (SparseMerkleProof.leaf proof) as [lf|]; [|done].
  destruct (bool_decide (key = SparseMerkleLeafNode.key lf)) eqn:Ek; [apply bool_decide_eq_true in Ek | done].
  cbn [ensure] in Hv. rewrite bind_Ok in Hv.
  destruct (bool_decide (value_hash value = _)) eqn:Eh in Hv; [apply bool_decide_eq_true in Eh | done].
  cbn [ensure] in Hv. rewrite bind_Ok in Hv.
  unfold SparseMerkleRangeProof.verify. cbn [SparseMerkleRangeProof.right_siblings SparseMerkleLeafNode.key].
  rewrite !siblings_on_path by lia. set (n := length (SparseMerkleProof.siblings proof)) in *.
  assert (HashValue.LENGTH_IN_BITS = 256)%nat as H256 by done. set (path := zip _ _). pose proof (sides_length path) as Hsides.
  assert (length path = n) as Hpath by (unfold path; rewrite length_zip_with, length_rev, length_take; lia).
  assert (path.*2 = rev (take n (HashValue.iter_bits key))) as Hbits.
  { apply snd_zip. rewrite length_rev, length_take. lia. }
  rewrite u64_add_small, <- Nat2Z.inj_add, Hsides, Hpath by lia.
  rewrite u64_sub_small by lia.
  replace (Z.to_nat (Z.of_nat HashValue.LENGTH_IN_BITS - Z.of_nat n)) with (HashValue.LENGTH_IN_BITS - n)%nat by lia.
  rewrite skipn_rev, Hlen in *. replace (HashValue.LENGTH_IN_BITS - (HashValue.LENGTH_IN_BITS - n))%nat with n in * by lia.
  rewrite <- Hbits, verify_loop_sides, bind_Ok. cbn [from_option] in Hv.
  subst key. destruct lf as [k vh]. cbn [SparseMerkleLeafNode.key SparseMerkleLeafNode.value_hash] in *. by subst vh.
Qed.

Lemma get_range_proof_eq self key v proof value :
  JellyfishMerkleTree.get_with_proof sha3_256 self key v = Ok (Some value, proof) ->
  JellyfishMerkleTree.get_range_proof sha3_256 self key v =
    Ok (SparseMerkleRangeProof.new (siblings_on false proof key)).
Proof.
  intros E. unfold JellyfishMerkleTree.get_range_proof. rewrite E, bind_Ok, bool_decide_true by by eexists.
  cbn [ensure]. rewrite bind_Ok. unfold siblings_on. do 3 f_equal.
Qed.

(** C33: Range proofs of a stored version. For a key of the map, [get_range_proof]
    returns the right siblings of its path, and with the left siblings
    [SparseMerkleRangeProof::verify] accepts them for the leaf of the key against
    the root hash; for a key that is not in the map it returns an error. *)
Theorem get_range_proof_verifies self key v m :
  stored_tree sha3_256 counted (JellyfishMerkleTree.reader self) v m -> HashValue.wf key ->
  match m !! key with
  | Some value => exists proof range_proof,
      JellyfishMerkleTree.get_with_proof sha3_256 self key v = Ok (Some value, proof) /\
      JellyfishMerkleTree.get_range_proof sha3_256 self key v = Ok range_proof /\
      SparseMerkleRangeProof.verify sha3_256 range_proof (root_hash sha3_256 (tree_of m))
        (SparseMerkleLeafNode.new key (value_hash value)) (siblings_on true proof key) = Ok tt
  | None => JellyfishMerkleTree.get_range_proof sha3_256 self key v =
      Err (Message "rightmost_key_to_prove must exist.")
  end.
Proof.
  intros Ht Hkey. destruct (tree_serves _ _ self v m Ht) as [_ Hget]. destruct (Hget key Hkey) as (proof & E & Hv).
  destruct (m !! key) as [value|].
  - exists proof. eexists. split; [done|]. split; [by eapply get_range_proof_eq|].
    apply inclusion_range; [by apply wf_sized | done].
  - unfold JellyfishMerkleTree.get_range_proof. by rewrite E, bind_Ok, bool_decide_false by by intros [].
Qed.

(** ** Leaf counts *)

Lemma size_parts d (l : list Z) : forall m, NoDup l -> (forall k w, m !! k = Some w -> nib d k ∈ l) ->
  size m = sum_list ((fun n => size (part d 0 n m)) <$> l).
Proof.
  induction l as [|n l IH]; intros m Hl Hm; cbn [fmap list_fmap sum_list].
  - apply map_size_empty_iff, map_empty. intros k. apply eq_None_not_Some. intros [w Hk].
    by eapply not_elem_of_nil, Hm.
  - apply NoDup_cons in Hl as [Hn Hl]. set (P := fun kv : HashValue.t * V => nib d kv.1 = n).
    rewrite <- (map_filter_union_complement P m) at 1.
    rewrite map_size_disj_union by apply map_disjoint_filter_complement.
    assert (filter P m = part d 0 n m) as ->.
    { apply map_filter_ext. intros k w _. unfold P. cbn [fst]. by rewrite Z.shiftr_0_r. }
    f_equal. rewrite IH; [|done|].
    + f_equal. apply list_fmap_ext. intros i n' Hi. f_equal. apply map_eq. intros k.
      destruct (decide (nib d k = n')) as [Hk|Hk]; [|by rewrite !part_lookup_other].
      rewrite !part_lookup_nib by done. apply option_eq. intros w. rewrite map_lookup_filter_Some. unfold P. cbn [fst].
      split; [by intros [] | intros Hw; split; [done|]]. rewrite Hk. intros ->. apply Hn. by eapply list_elem_of_lookup_2.
    + intros k w [Hk Hne]%map_lookup_filter_Some. by apply Hm, elem_of_cons in Hk as [|].
Qed.

Lemma sum_leaf_count_spec d (cs : Children) m : keys_ok m ->
  (forall k w, m !! k = Some w -> is_Some (cs !! nib d k)) ->
  (forall n ch, cs !! n = Some ch -> Child.leaf_count ch = Some (wrap64 (Z.of_nat (size (part d 0 n m))))) ->
  InternalNode.sum_leaf_count cs = Some (wrap64 (Z.of_nat (size m))).
Proof.
  intros Hm Hsome Hcount. unfold InternalNode.sum_leaf_count, Children in *.
  rewrite (size_parts d (map_to_list cs).*1 m); [|apply NoDup_fst_map_to_list|].
  2: { intros k w [ch Hch]%Hsome. apply list_elem_of_fmap. exists (nib d k, ch). by rewrite elem_of_map_to_list. }
  assert (forall n ch, (n, ch) ∈ map_to_list cs ->
    Child.leaf_count ch = Some (wrap64 (Z.of_nat (size (part d 0 n m))))) as Hl.
  { intros n ch Hin%elem_of_map_to_list. by apply Hcount. }
  change (Some 0) with (Some (wrap64 (Z.of_nat 0))).
  rewrite <- (Nat.add_0_l (sum_list _)). revert Hl. generalize 0%nat.
  induction (map_to_list cs) as [|[n ch] l IH]; intros a Hl; cbn [fmap list_fmap foldl sum_list fst snd].
  - by rewrite Nat.add_0_r.
  - rewrite (Hl n ch) by left. cbn [mbind option_bind].
    replace (u64_add (wrap64 (Z.of_nat a)) (wrap64 (Z.of_nat (size (part d 0 n m)))))
      with (wrap64 (Z.of_nat (a + size (part d 0 n m)))).
    + rewrite Nat.add_assoc. apply IH. intros n' ch' Hin. apply Hl. by right.
    + unfold u64_add, wrap64. rewrite <- Z.add_mod by lia. by rewrite Nat2Z.inj_add.
Qed.

Lemma node_type_leaf_count (node : Node.t V) ch : Node.node_type (E := error) node = Ok (Child.node_type ch) ->
  Child.leaf_count ch = Node.leaf_count node.
Proof.
  intros Hty. unfold Child.leaf_count.
  destruct node as [|i|l]; cbn [Node.node_type] in Hty; [done| |by injection Hty as <-].
  injection Hty as <-. cbn [Node.leaf_count]. unfold InternalNode.node_type. by destruct (InternalNode.leaf_count i).
Qed.

Lemma represents_leaf_count (with_counts : Prop) get live dead h (Hcounted : with_counts) : forall v ns m node,
  represents sha3_256 with_counts h get live dead v ns m -> get (key_at v ns) = Some node ->
  Node.leaf_count node = Some (wrap64 (Z.of_nat (size m))).
Proof.
  induction h as [|h IH]; intros v ns m node (Hb & _ & Hr) E; rewrite E in Hr; destruct node as [|i|l]; try done.
  1, 3: destruct Hr as [[_ ->] _]; by rewrite map_size_singleton.
  destruct Hr as (Hs & Hsum & Hsome & Hnone). cbn [Node.leaf_count]. rewrite Hsum by exact Hcounted.
  apply (sum_leaf_count_spec (length ns)); [by eapply below_keys|..].
  - intros k w Hk. destruct (InternalNode.children i !! nib (length ns) k) as [ch|] eqn:Ech; [by eexists|].
    destruct (Hnone _ (nib_ok _ _ (below_keys _ _ Hb k w Hk)) Ech) as [Hp _]. exfalso.
    rewrite <- (part_lookup_nib (length ns) m k _ eq_refl), Hp in Hk. by apply lookup_empty_Some in Hk.
  - intros n ch Hch. destruct (Hsome n ch Hch) as (_ & node & Hnode & (_ & _ & Hty) & Hr).
    rewrite <- (IH _ _ _ node Hr Hnode). by apply node_type_leaf_count, Hty.
Qed.

(** Leaf counts. In a tree whose nodes carry leaf counts, [get_leaf_count] of a
    stored version is the number of keys of its map, modulo [2^64]; without the
    migration it is not available. *)
Theorem get_leaf_count_spec self v m :
  stored_tree sha3_256 True (JellyfishMerkleTree.reader self) v m ->
  JellyfishMerkleTree.get_leaf_count self v =
    Ok (if JellyfishMerkleTree.leaf_count_migration self then Some (wrap64 (Z.of_nat (size m))) else None).
Proof.
  intros Ht. unfold JellyfishMerkleTree.get_leaf_count. destruct (JellyfishMerkleTree.leaf_count_migration self); [|done].
  unfold JellyfishMerkleTree.get_root_node. rewrite get_node_option_stored, bind_Ok.
  change (NodeKey.new_empty_path v) with (key_at v []).
  destruct (tree_at_root _ _ _ _ _ _ _ Ht) as (node & Hk & _). cbn in Hk. rewrite Hk. cbn [ok_or]. rewrite !bind_Ok.
  f_equal. destruct Ht as [(-> & _ & Hnull & _)|Hr].
  - cbn in Hnull. rewrite Hk in Hnull. by injection Hnull as ->.
  - by eapply (represents_leaf_count True).
Qed.

(** ** Updates *)

Section update.
Context (self : JellyfishMerkleTree.t R) (first : Z) (m0 : gmap HashValue.t V).
Context (value_sets : list (list (HashValue.t * V))).

(** What an update assumes: the versions fit in a [u64], no set is empty, the
    storage has the version before, and none of those to come. *)
Record update_pre : Prop := {
  pre_first : 0 <= first;
  pre_last : first + Z.of_nat (length value_sets) < u64_max;
  pre_sets : Forall set_ok value_sets;
  pre_starts : starts sha3_256 counted first (JellyfishMerkleTree.reader self) m0;
  pre_unwritten : unwritten first (length value_sets) (JellyfishMerkleTree.reader self)
}.

(** Each new version serves its map in a storage that has the nodes of the batch
    besides those from before. *)
Definition update_serves (roots : list HashValue.t) (batch : TreeUpdateBatch.t V) : Prop :=
  length roots = length value_sets /\
  forall self', stored (JellyfishMerkleTree.reader self') =
      TreeUpdateBatch.node_batch batch ∪ stored (JellyfishMerkleTree.reader self) ->
    (forall j m root, maps_after m0 value_sets !! j = Some m -> roots !! j = Some root ->
       serves self' (first + Z.of_nat j) root m /\
       stored_tree sha3_256 counted (JellyfishMerkleTree.reader self') (first + Z.of_nat j) m) /\
    (forall v m, stored_tree sha3_256 counted (JellyfishMerkleTree.reader self) v m ->
       stored_tree sha3_256 counted (JellyfishMerkleTree.reader self') v m).

Lemma maps_after_length {A} (m : gmap HashValue.t A) sets : length (maps_after m sets) = length sets.
Proof. revert m; induction sets as [|s sets IH]; intros m; cbn [maps_after length]; auto. Qed.

Lemma update_ok_serves res :
  update_ok sha3_256 counted first (JellyfishMerkleTree.reader self) m0 value_sets res ->
  exists roots batch, res = Ok (roots, batch) /\ update_serves roots batch /\
    roots = (fun m => root_hash sha3_256 (tree_of m)) <$> maps_after m0 value_sets.
Proof.
  intros (roots & batch & -> & -> & Hsub & Hnew). eexists _, batch. split; [done|]. split; [|done].
  split; [by rewrite length_fmap, maps_after_length|]. intros self' Hst. split.
  - intros j m root Hj Hroot. rewrite (fmap_lookup _ _ _ _ _ Hj Hroot). split.
    + eapply tree_serves. rewrite Hst. by apply Hnew.
    + unfold stored_tree. rewrite Hst. eapply tree_at_mono, (Hnew j m Hj); done.
  - intros v m Ht. unfold stored_tree in *. rewrite Hst. eapply tree_at_mono, Ht; [|done|done].
    intros v' ns node _ Hk. eapply lookup_weaken; [exact Hk | exact Hsub].
Qed.

(** C3: Updates of the tree are updates of a map. For non-empty sets, on a storage
    that holds the version before and no node of the versions to come,
    [put_value_sets] does not fail or panic; it returns one root hash per set of
    values; and once the nodes it returns are written, every new version has that
    root hash, returns for every key the value of the map after that set, with a
    sparse Merkle proof (of inclusion or of absence) that the verifier accepts
    against the root hash. The versions from before are still held, and so is the
    one from which the next update starts. *)
Theorem put_value_sets_refines : update_pre -> exists roots batch,
  JellyfishMerkleTree.put_value_sets sha3_256 self value_sets first = Ok (roots, batch) /\
  update_serves roots batch.
Proof.
  intros [P1 P2 P3 P4 P5]. edestruct update_ok_serves as (roots & batch & E & Hs & _).
  { by apply (put_value_sets_ok sha3_256 counted self first (length value_sets) m0 value_sets). }
  by exists roots, batch.
Qed.

(** C5: Insertion in batches is equivalent to insertion one key at a time. For the
    same sets of values, [batch_put_value_sets] (which sorts each set, drops
    overwritten values and builds subtrees range by range) returns the same root
    hashes as [put_value_sets], and the versions it writes serve the same maps. *)
Theorem batch_put_equivalent : update_pre -> exists roots batch batch',
  JellyfishMerkleTree.put_value_sets sha3_256 self value_sets first = Ok (roots, batch) /\
  JellyfishMerkleTree.batch_put_value_sets sha3_256 self value_sets None first = Ok (roots, batch') /\
  update_serves roots batch'.
Proof.
  intros [P1 P2 P3 P4 P5]. edestruct update_ok_serves as (roots & batch & E & _ & Hr).
  { by apply (put_value_sets_ok sha3_256 counted self first (length value_sets) m0 value_sets). }
  edestruct update_ok_serves as (roots' & batch' & E' & Hs' & Hr').
  { by apply (batch_put_value_sets_ok sha3_256 counted self first (length value_sets) m0 value_sets). }
  exists roots, batch, batch'. by rewrite E, E', Hr, <- Hr'.
Qed.

(** C8: Pruning is safe. After an update, the nodes that are marked stale since a
    version up to [w] may be deleted: the new versions from [w] on are served as
    before, since none of them uses such a node. *)
Theorem pruning_safe (w : Z) : update_pre -> exists roots batch,
  JellyfishMerkleTree.put_value_sets sha3_256 self value_sets first = Ok (roots, batch) /\
  forall self',
    (forall k node, (TreeUpdateBatch.node_batch batch ∪ stored (JellyfishMerkleTree.reader self)) !! k = Some node ->
       (forall s, StaleNodeIndex.mk s k ∈ TreeUpdateBatch.stale_node_index_batch batch -> w < s) ->
       stored (JellyfishMerkleTree.reader self') !! k = Some node) ->
    forall j m root, maps_after m0 value_sets !! j = Some m -> roots !! j = Some root ->
      w <= first + Z.of_nat j -> serves self' (first + Z.of_nat j) root m.
Proof.
  intros [P1 P2 P3 P4 P5].
  destruct (put_value_sets_ok sha3_256 counted self first (length value_sets) m0 value_sets)
    as (roots & batch & E & -> & _ & Hnew); [done..|].
  eexists _, batch. split; [exact E|]. intros self' Hkeep j m root Hj Hroot Hw.
  rewrite (fmap_lookup _ _ _ _ _ Hj Hroot). apply tree_serves with (live := fun _ _ => True) (dead := fun _ => True).
  eapply tree_at_mono, (Hnew j m Hj); [|done|done].
  intros v ns node Hun Hk. apply Hkeep; [done|]. intros s Hs. apply Hun in Hs. lia.
Qed.
End update.
End theorems.
