(* ===== verification/JellyfishIterator.v ===== *)
(** * Iteration over a version of the tree (storage/jellyfish-merkle/src/iterator/mod.rs)

    [JellyfishMerkleIterator] walks the tree depth first, with a stack of
    [NodeVisitInfo]s. It starts at a key or at the position of a leaf and returns
    the entries of the version from there on, in the order of their keys. *)
From stdpp Require Import prelude gmap sorting strings.
From Stdlib Require Import ZArith Lia.
From S2P Require Import Prelude Bits HashValues SparseMerkle Nibbles JellyfishNodes JellyfishSpec JellyfishHash.
From S2P Require Import TreeCache Jellyfish JellyfishRep JellyfishUpdate JellyfishRanges JellyfishTheorems.

(** [u16::leading_zeros] *)
Definition leading_zeros16 (v : Z) : Z := if v =? 0 then 16 else 15 - Z.log2 v.

Definition nibble_le (x y : Z * Child.t) : Prop := x.1 <= y.1.

#[global] Instance nibble_le_dec : RelDecision nibble_le.
Proof. intros x y. unfold nibble_le. apply _. Defined.

(** [InternalNode::children_sorted] *)
Definition children_sorted (self : InternalNode.t) : list (Z * Child.t) :=
  merge_sort nibble_le (map_to_list (InternalNode.children self)).

Module NodeVisitInfo.

Record t := mk {
  node_key : NodeKey.t;
  node : InternalNode.t;
  children_bitmap : Z;
  next_child_to_visit : Z
}.

Definition new {E} (node_key : NodeKey.t) (node : InternalNode.t) : outcome E t :=
  '(children_bitmap, _) ← InternalNode.generate_bitmaps node;
  assert_ (negb (children_bitmap =? 0)) ;;
  Ok (mk node_key node children_bitmap (Z.shiftl 1 (trailing_zeros children_bitmap) mod 2 ^ 16)).

(** [while next_child_to_visit & children_bitmap == 0 { next_child_to_visit <<= 1; }];
    the bit leaves a [u16] after 16 rounds. *)
Fixpoint skip_absent {E} (fuel : nat) (children_bitmap next_child_to_visit : Z) : outcome E Z :=
  if Z.land next_child_to_visit children_bitmap =? 0 then
    match fuel with
    | O => Panic
    | S fuel => skip_absent fuel children_bitmap (Z.shiftl next_child_to_visit 1 mod 2 ^ 16)
    end
  else Ok next_child_to_visit.

Definition new_next_child_to_visit {E} (node_key : NodeKey.t) (node : InternalNode.t) (next_child_to_visit : Z)
    : outcome E t :=
  '(children_bitmap, _) ← InternalNode.generate_bitmaps node;
  let next_child_to_visit := Z.shiftl 1 next_child_to_visit mod 2 ^ 16 in
  assert_ (next_child_to_visit <=? children_bitmap) ;;
  next_child_to_visit ← skip_absent 16 children_bitmap next_child_to_visit;
  Ok (mk node_key node children_bitmap next_child_to_visit).

Definition is_rightmost {E} (self : t) : outcome E bool :=
  assert_ (leading_zeros16 (children_bitmap self) <=? leading_zeros16 (next_child_to_visit self)) ;;
  Ok (leading_zeros16 (next_child_to_visit self) =? leading_zeros16 (children_bitmap self)).

Definition advance {E} (self : t) : outcome E t :=
  rightmost ← is_rightmost self;
  assert_ (negb rightmost) ;;
  next_child_to_visit ← skip_absent 16 (children_bitmap self) (Z.shiftl (next_child_to_visit self) 1 mod 2 ^ 16);
  Ok (mk (node_key self) (node self) (children_bitmap self) next_child_to_visit).

End NodeVisitInfo.

Module JellyfishMerkleIterator.

(** The top of [parent_stack], the end of the [Vec], is the head of the list. *)
Record t {R} := mk {
  reader : R;
  version : Z;
  parent_stack : list NodeVisitInfo.t;
  done : bool
}.
Arguments t R : clear implicits.
Arguments mk {R}.

Fixpoint cleanup_stack {E} (parent_stack : list NodeVisitInfo.t) : outcome E (list NodeVisitInfo.t) :=
  match parent_stack with
  | [] => Ok []
  | info :: parent_stack =>
      rightmost ← NodeVisitInfo.is_rightmost info;
      if rightmost : bool then cleanup_stack parent_stack
      else info ← NodeVisitInfo.advance info; Ok (info :: parent_stack)
  end.

Section iterator.
Context {R V : Type} `{TreeReader R V}.

(** The node below the internal nodes on the path of the starting key. *)
Definition new_at_bottom (reader : R) (version : Z) (starting_key : HashValue.t) (current_node_key : NodeKey.t)
    (parent_stack : list NodeVisitInfo.t) : outcome error (t R) :=
  node ← reader_get_node reader current_node_key;
  match node with
  | Node.Internal _ => Panic
  | Node.Leaf leaf_node =>
      if negb (bytes_leb (HashValue.hash starting_key) (HashValue.hash (LeafNode.account_key leaf_node))) then
        parent_stack ← cleanup_stack parent_stack;
        Ok (mk reader version parent_stack (bool_decide (parent_stack = [])))
      else Ok (mk reader version parent_stack false)
  | Node.Null => Ok (mk reader version parent_stack true)
  end.

(** The loop of [new]: the starting key runs out of nibbles before the fuel does. *)
Fixpoint new_loop (fuel : nat) (reader : R) (version : Z) (starting_key : HashValue.t) (current_node_key : NodeKey.t)
    (nibble_iter : NibbleIterator.t) (parent_stack : list NodeVisitInfo.t) : outcome error (t R) :=
  node ← reader_get_node reader current_node_key;
  match node with
  | Node.Internal internal_node =>
      match fuel with
      | O => Panic
      | S fuel =>
          '(nibble_iter, index) ← NibbleIterator.next nibble_iter;
          child_index ← expect index;
          match InternalNode.children internal_node !! child_index with
          | Some child =>
              info ← NodeVisitInfo.new_next_child_to_visit current_node_key internal_node child_index;
              current_node_key ← NodeKey.gen_child_node_key current_node_key (Child.version child) child_index;
              new_loop fuel reader version starting_key current_node_key nibble_iter (info :: parent_stack)
          | None =>
              '(bitmap, _) ← InternalNode.generate_bitmaps internal_node;
              if child_index <? (15 - leading_zeros16 bitmap) mod 2 ^ 32 then
                info ← NodeVisitInfo.new_next_child_to_visit current_node_key internal_node child_index;
                Ok (mk reader version (info :: parent_stack) false)
              else
                parent_stack ← cleanup_stack parent_stack;
                Ok (mk reader version parent_stack false)
          end
      end
  | _ => new_at_bottom reader version starting_key current_node_key parent_stack
  end.

Definition new (reader : R) (version : Z) (starting_key : HashValue.t) : outcome error (t R) :=
  nibble_path ← NibblePath.new (HashValue.hash starting_key);
  new_loop (S ROOT_NIBBLE_HEIGHT) reader version starting_key (NodeKey.new_empty_path version)
    (NibbleIterator.nibbles nibble_path) [].

(** The loop of [skip_leaves]; [leaves_skipped] is returned with the child. *)
Fixpoint skip_loop (children : list (Z * Child.t)) (leaves_skipped target_leaf_idx : Z)
    : outcome error (Z * (Z * Child.t)) :=
  match children with
  | [] => Err (Message "Bug: Internal node has less leaves than expected.")
  | (nibble, child) :: children =>
      child_leaf_count ← expect (Child.leaf_count child);
      if (leaves_skipped + child_leaf_count)%u64 <=? target_leaf_idx
      then skip_loop children (leaves_skipped + child_leaf_count)%u64 target_leaf_idx
      else Ok (leaves_skipped, (nibble, child))
  end.

Definition skip_leaves (internal_node : InternalNode.t) (leaves_skipped target_leaf_idx : Z)
    : outcome error (Z * (Z * Child.t)) :=
  skip_loop (children_sorted internal_node) leaves_skipped target_leaf_idx.

(** The loop of [new_by_index]: [n] rounds are left. *)
Fixpoint index_loop (n : nat) (reader : R) (version start_idx : Z) (current_node_key : NodeKey.t)
    (current_node : Node.t V) (leaves_skipped : Z) (parent_stack : list NodeVisitInfo.t) : outcome error (t R) :=
  match n with
  | O => Err (Message "Bug: potential infinite loop.")
  | S n =>
      match current_node with
      | Node.Null => Panic
      | Node.Leaf _ =>
          ensure (leaves_skipped =? start_idx)
            (Message "Bug: The leaf should be the exact one we are looking for.") ;;
          Ok (mk reader version parent_stack false)
      | Node.Internal internal_node =>
          '(leaves_skipped, (nibble, child)) ← skip_leaves internal_node leaves_skipped start_idx;
          next_node_key ← NodeKey.gen_child_node_key current_node_key (Child.version child) nibble;
          info ← NodeVisitInfo.new_next_child_to_visit current_node_key internal_node nibble;
          current_node ← reader_get_node reader next_node_key;
          index_loop n reader version start_idx next_node_key current_node leaves_skipped (info :: parent_stack)
      end
  end.

Definition new_by_index (reader : R) (version start_idx : Z) : outcome error (t R) :=
  let current_node_key := NodeKey.new_empty_path version in
  current_node ← reader_get_node reader current_node_key;
  total_leaves ← ok_or (Node.leaf_count current_node) (Message "Leaf counts not available.");
  if total_leaves <=? start_idx then Ok (mk reader version [] true)
  else index_loop (S ROOT_NIBBLE_HEIGHT) reader version start_idx current_node_key current_node 0 [].

Definition set_stack (parent_stack : list NodeVisitInfo.t) (self : t R) : t R :=
  mk (reader self) (version self) parent_stack (done self).

(** The loop of [next]: a path has at most 64 nibbles. *)
Fixpoint next_loop (fuel : nat) : action (t R) error (option (HashValue.t * V)) :=
  match fuel with
  | O => lift Panic
  | S fuel =>
      stack ← gets parent_stack;
      info ← lift (expect (head stack));
      child_index ← lift (Nibble_from (trailing_zeros (NodeVisitInfo.next_child_to_visit info)));
      child ← lift (expect (InternalNode.children (NodeVisitInfo.node info) !! child_index));
      node_key ← lift (NodeKey.gen_child_node_key (NodeVisitInfo.node_key info) (Child.version child) child_index);
      r ← gets reader;
      node ← lift (reader_get_node r node_key);
      match node with
      | Node.Internal internal_node =>
          visit_info ← lift (NodeVisitInfo.new node_key internal_node);
          modify (set_stack (visit_info :: stack)) ;;
          next_loop fuel
      | Node.Leaf leaf_node =>
          stack ← lift (cleanup_stack stack);
          modify (set_stack stack) ;;
          mret (Some (LeafNode.account_key leaf_node, LeafNode.value leaf_node))
      | Node.Null => lift (Err (Message "Should not reach a null node."))
      end
  end.

(** [Err e] stands for the item [Some(Err(e))]. *)
Definition next : action (t R) error (option (HashValue.t * V)) := fun self =>
  if done self then (self, Ok None)
  else
    match parent_stack self with
    | [] =>
        match reader_get_node (reader self) (NodeKey.new_empty_path (version self)) with
        | Ok (Node.Leaf leaf_node) =>
            (mk (reader self) (version self) [] true,
             Ok (Some (LeafNode.account_key leaf_node, LeafNode.value leaf_node)))
        | Ok (Node.Internal _) => (self, Ok None)
        | Ok Node.Null => (self, Panic)
        | Err err => (self, Err err)
        | Panic => (self, Panic)
        end
    | _ :: _ => next_loop (S ROOT_NIBBLE_HEIGHT) self
    end.

(** The items of at most [n] calls of [next], up to the first [None]. *)
Fixpoint items (n : nat) : action (t R) error (list (HashValue.t * V)) :=
  match n with
  | O => mret []
  | S n =>
      item ← next;
      match item with
      | None => mret []
      | Some item => rest ← items n; mret (item :: rest)
      end
  end.

End iterator.
End JellyfishMerkleIterator.
