(* ===== verification/JellyfishTraversal.v ===== *)
(** * What the iterator returns

    [entries] are the entries of a map in the order of the keys. A stack of
    [NodeVisitInfo]s stands for the entries that are still to be returned: those
    from the next child of its top on, and those after the current child of every
    node below it. *)
From stdpp Require Import prelude gmap sorting strings.
From Stdlib Require Import ZArith Lia.
From S2P Require Import Prelude Bits HashValues SparseMerkle Nibbles JellyfishNodes JellyfishSpec JellyfishHash.
From S2P Require Import TreeCache Jellyfish JellyfishRep JellyfishUpdate JellyfishRanges JellyfishTheorems.
From S2P Require Import JellyfishIterator.

(** ** Entries in the order of the keys *)

Section entries.
Context {V : Type}.
Implicit Type m : gmap HashValue.t V.

Definition entries m : list (HashValue.t * V) := merge_sort kv_le (map_to_list m).

(** The entries from a key on. *)
Definition starting_at (key : HashValue.t) m : gmap HashValue.t V :=
  filter (fun kv => bytes_leb (HashValue.hash key) (HashValue.hash kv.1) = true) m.

(** The entries whose nibble at depth [d] is [n] or more. *)
Definition from (d : nat) (n : Z) m : gmap HashValue.t V := filter (fun kv => n <= nib d kv.1) m.

Lemma bytes_leb_antisym xs : forall ys, bytes_leb xs ys = true -> bytes_leb ys xs = true -> xs = ys.
Proof.
  induction xs as [|x xs IH]; intros [|y ys]; cbn [bytes_leb]; try done.
  destruct (Z.ltb_spec x y), (Z.eqb_spec x y), (Z.ltb_spec y x), (Z.eqb_spec y x); cbn; try done; try lia.
  subst. intros H1 H2. by rewrite (IH ys).
Qed.

Lemma bytes_leb_total xs : forall ys, bytes_leb xs ys = false -> bytes_leb ys xs = true.
Proof.
  induction xs as [|x xs IH]; intros [|y ys]; cbn [bytes_leb]; try done.
  destruct (Z.ltb_spec x y), (Z.eqb_spec x y), (Z.ltb_spec y x), (Z.eqb_spec y x); cbn; try done; try lia. apply IH.
Qed.

Lemma elem_of_entries m k v : (k, v) ∈ entries m <-> m !! k = Some v.
Proof. unfold entries. by rewrite merge_sort_Permutation, elem_of_map_to_list. Qed.

Lemma entries_length m : length (entries m) = size m.
Proof. unfold entries. by rewrite merge_sort_Permutation, length_map_to_list. Qed.

Lemma entries_NoDup m : NoDup (entries m).
Proof. unfold entries. rewrite merge_sort_Permutation. apply NoDup_map_to_list. Qed.

Lemma entries_unique m l : StronglySorted kv_le l -> l ≡ₚ map_to_list m -> entries m = l.
Proof.
  intros Hs Hp. apply (StronglySorted_unique_strong kv_le); [|by apply StronglySorted_merge_sort; apply _|done|].
  - intros [k v] [k' v'] Hk Hk' H1 H2. unfold kv_le in *. cbn [fst] in *.
    pose proof (bytes_leb_antisym _ _ H1 H2) as E. destruct k as [k], k' as [k']. cbn in E. subst k'.
    apply elem_of_entries in Hk. rewrite Hp, elem_of_map_to_list in Hk'. congruence.
  - unfold entries. by rewrite merge_sort_Permutation.
Qed.

Lemma entries_empty : entries (∅ : gmap HashValue.t V) = [].
Proof. apply entries_unique; [constructor | by rewrite map_to_list_empty]. Qed.

Lemma entries_singleton k v : entries ({[k := v]} : gmap HashValue.t V) = [(k, v)].
Proof. apply entries_unique; [repeat constructor | by rewrite map_to_list_singleton]. Qed.

Lemma entries_union m1 m2 : m1 ##ₘ m2 ->
  (forall k1 v1 k2 v2, m1 !! k1 = Some v1 -> m2 !! k2 = Some v2 ->
     bytes_leb (HashValue.hash k1) (HashValue.hash k2) = true) ->
  entries (m1 ∪ m2) = entries m1 ++ entries m2.
Proof.
  intros Hd Hle. apply entries_unique.
  - apply StronglySorted_app_2; [|by apply StronglySorted_merge_sort; apply _..].
    intros [k1 v1] [k2 v2] H1%elem_of_entries H2%elem_of_entries. by eapply Hle.
  - apply NoDup_Permutation.
    + apply NoDup_app. split_and!; [apply entries_NoDup| |apply entries_NoDup].
      intros [k v] H1%elem_of_entries H2%elem_of_entries. by eapply map_disjoint_spec.
    + apply NoDup_map_to_list.
    + intros [k v]. rewrite elem_of_app, !elem_of_entries, elem_of_map_to_list. symmetry. by apply lookup_union_Some.
Qed.

(** ** Splitting the entries at a nibble *)

Lemma from_lookup d n m k v : from d n m !! k = Some v <-> m !! k = Some v /\ n <= nib d k.
Proof. apply map_lookup_filter_Some. Qed.

Lemma from_whole d m : keys_ok m -> from d 0 m = m.
Proof. intros Hm. apply map_filter_id. intros k v Hk. cbn. pose proof (nib_ok d k (Hm k v Hk)) as H. red in H. lia. Qed.

Lemma from_none d n m : keys_ok m -> (forall j, n <= j -> nibble_ok j -> part d 0 j m = ∅) -> from d n m = ∅.
Proof.
  intros Hm Hn. apply map_empty. intros k. apply eq_None_not_Some. intros [v [Hk Hle]%from_lookup].
  pose proof (Hn _ Hle (nib_ok d k (Hm k v Hk))) as E. apply (lookup_empty_Some k v). rewrite <- E.
  by rewrite part_lookup_nib.
Qed.

Section split.
Context (ns : list Z) (m : gmap HashValue.t V) (Hb : below ns m) (Hl : (length ns < ROOT_NIBBLE_HEIGHT)%nat).
Abbreviation d := (length ns).

Lemma nib_lt_leb k k' : HashValue.wf k -> HashValue.wf k' -> ns `prefix_of` key_nibbles k ->
  ns `prefix_of` key_nibbles k' -> nib d k < nib d k' -> bytes_leb (HashValue.hash k) (HashValue.hash k') = true.
Proof.
  intros Hk Hk' Hp Hp' Hlt. destruct (bytes_leb (HashValue.hash k) _) eqn:E; [done|]. apply bytes_leb_total in E.
  apply (nib_mono d ns k' k) in E; [lia|done..].
Qed.

Lemma from_split n : from d n m = part d 0 n m ∪ from d (n + 1) m /\ part d 0 n m ##ₘ from d (n + 1) m.
Proof.
  clear Hb Hl. assert (part d 0 n m ##ₘ from d (n + 1) m) as Hd.
  { apply map_disjoint_spec. intros k v v' [_ H]%part_lookup [_ H']%from_lookup. rewrite Z.shiftr_0_r in H. lia. }
  split; [|done]. apply map_eq. intros k. apply option_eq. intros v.
  rewrite lookup_union_Some, part_lookup, !from_lookup, Z.shiftr_0_r by done.
  destruct (decide (nib d k = n)); split; intuition lia.
Qed.

Lemma entries_from n : entries (from d n m) = entries (part d 0 n m) ++ entries (from d (n + 1) m).
Proof.
  destruct (from_split n) as [-> Hd]. apply entries_union; [done|].
  intros k1 v1 k2 v2 [H1 E1]%part_lookup [H2 E2]%from_lookup. rewrite Z.shiftr_0_r in E1.
  destruct (Hb _ _ H1), (Hb _ _ H2). apply nib_lt_leb; [done..|lia].
Qed.

(** Children that are absent are skipped. *)
Lemma from_skip a b : a <= b -> (forall j, a <= j < b -> part d 0 j m = ∅) -> from d a m = from d b m.
Proof.
  intros Hab. destruct (Z.le_exists_sub a b Hab) as (n & -> & Hn). clear Hab Hb Hl. revert n Hn.
  apply (natlike_ind (fun n => (forall j, a <= j < n + a -> part d 0 j m = ∅) -> from d a m = from d (n + a) m)).
  - done.
  - intros n Hn IH Hj. rewrite IH by (intros j H; apply Hj; lia). destruct (from_split (n + a)) as [-> _].
    rewrite Hj, map_empty_union by lia. f_equal. lia.
Qed.

(** The entries from a key on are those in the subtree of the key and those to
    the right of it. *)
Lemma entries_starting_at key : HashValue.wf key -> ns `prefix_of` key_nibbles key ->
  entries (starting_at key m) =
    entries (starting_at key (part d 0 (nib d key) m)) ++ entries (from d (nib d key + 1) m).
Proof.
  intros Hkey Hp. destruct (from_split (nib d key)) as [_ Hd]. rewrite <- entries_union.
  - f_equal. apply map_eq. intros k. apply option_eq. intros v. rewrite lookup_union_Some.
    2: { eapply map_disjoint_weaken_l; [exact Hd|]. apply map_filter_subseteq. }
    rewrite from_lookup. unfold starting_at. rewrite !map_lookup_filter_Some, part_lookup, Z.shiftr_0_r. cbn [fst].
    split.
    + intros [Hk Hle]. destruct (Hb k v Hk) as [Hw Hpk]. pose proof (nib_mono d ns key k Hkey Hw eq_refl Hl Hp Hpk Hle).
      destruct (decide (nib d k = nib d key)); [by left|]. right. split; [done|lia].
    + intros [[[Hk _] Hle]|[Hk Hlt]]; [done|]. destruct (Hb k v Hk) as [Hw Hpk]. split; [done|].
      apply nib_lt_leb; [done..|lia].
  - eapply map_disjoint_weaken_l; [exact Hd|]. apply map_filter_subseteq.
  - intros k1 v1 k2 v2 [[H1 E1]%part_lookup _]%map_lookup_filter_Some [H2 E2]%from_lookup. rewrite Z.shiftr_0_r in E1.
    destruct (Hb _ _ H1), (Hb _ _ H2). apply nib_lt_leb; [done..|lia].
Qed.
End split.
End entries.

(** ** Bits of a bitmap *)

Lemma trailing_zeros_lowest a : 0 < a ->
  Z.testbit a (trailing_zeros a) = true /\ 0 <= trailing_zeros a /\
  forall j, j < trailing_zeros a -> Z.testbit a j = false.
Proof.
  intros Ha. destruct (odd_part_ex a Ha) as (l & b & Hl & Hb & E).
  assert (trailing_zeros a = l) as -> by (rewrite E; by apply trailing_zeros_spec).
  rewrite E, Z.mul_comm. split_and!; [|done|].
  - rewrite Z.mul_pow2_bits, Z.sub_diag by lia. apply Z.testbit_odd_0.
  - intros j Hj. by apply Z.mul_pow2_bits_low.
Qed.

Lemma land_pow2_eqb n a : 0 <= n -> (Z.land (2 ^ n) a =? 0) = negb (Z.testbit a n).
Proof.
  intros Hn. destruct (Z.testbit a n) eqn:E; cbn [negb].
  - apply Z.eqb_neq. intros H. assert (Z.testbit (Z.land (2 ^ n) a) n = false) as H' by by rewrite H, Z.bits_0.
    by rewrite Z.land_spec, pow2_testbit, Z.eqb_refl, E in H' by done.
  - apply Z.eqb_eq, Z.bits_inj'. intros j Hj. rewrite Z.land_spec, pow2_testbit, Z.bits_0 by done.
    destruct (Z.eqb_spec j n) as [->|]; [by rewrite E | done].
Qed.

Lemma shl_pow2_u16 n k : 0 <= n -> 0 <= k -> n + k < 16 -> Z.shiftl (2 ^ n) k mod 2 ^ 16 = 2 ^ (n + k).
Proof.
  intros Hn Hk Hlt. rewrite Z.shiftl_mul_pow2, <- Z.pow_add_r by done. apply Z.mod_small.
  split; [apply Z.pow_nonneg; lia | apply Z.pow_lt_mono_r; lia].
Qed.

Lemma leading_zeros16_pow2 n : 0 <= n -> leading_zeros16 (2 ^ n) = 15 - n.
Proof.
  intros Hn. unfold leading_zeros16. pose proof (pow2_pos n Hn). destruct (Z.eqb_spec (2 ^ n) 0); [lia|].
  by rewrite Z.log2_pow2.
Qed.

Lemma skip_absent_spec {E} fuel : forall bm a, 0 < bm -> Z.log2 bm < 16 -> 0 <= a <= Z.log2 bm ->
  Z.log2 bm - a <= Z.of_nat fuel ->
  exists b, NodeVisitInfo.skip_absent (E := E) fuel bm (2 ^ a) = Ok (2 ^ b) /\ a <= b <= Z.log2 bm /\
    Z.testbit bm b = true /\ forall j, a <= j < b -> Z.testbit bm j = false.
Proof.
  induction fuel as [|fuel IH]; intros bm a Hbm Hlog Ha Hf; cbn [NodeVisitInfo.skip_absent];
    rewrite land_pow2_eqb by lia; destruct (Z.testbit bm a) eqn:Et; cbn [negb].
  1, 3: exists a; split; [done|]; split; [lia|]; split; [done|]; intros j Hj; lia.
  - assert (a = Z.log2 bm) as -> by lia. by rewrite Z.bit_log2 in Et.
  - assert (a <> Z.log2 bm) by (intros ->; by rewrite Z.bit_log2 in Et).
    rewrite shl_pow2_u16 by lia. destruct (IH bm (a + 1)) as (b & E' & Hb & Ht & Hj); [lia..|].
    exists b. split; [done|]. split; [lia|]. split; [done|]. intros j Hj'.
    destruct (decide (j = a)) as [->|]; [done|]. apply Hj. lia.
Qed.

(** ** Internal nodes under visit *)

Section traversal.
Context (sha3_256 : list Z -> HashValue.t) (counted : Prop) {R V : Type} `{StoredNodes R V} {HV : Value V} (r : R).
Implicit Type m : gmap HashValue.t V.

Abbreviation get := (fun k => stored r !! k).
Abbreviation rep h := (represents sha3_256 counted h get (fun _ _ => True) (fun _ => True)).

(** An internal node with its bitmap, at the path [ns], for the map [m]. *)
Record visited (i : InternalNode.t) (bm : Z) (h : nat) (ns : list Z) m : Prop := {
  vis_path : Forall nibble_ok ns;
  vis_depth : (S h + length ns = ROOT_NIBBLE_HEIGHT)%nat;
  vis_below : below ns m;
  vis_pos : 0 < bm;
  vis_top : Z.log2 bm < 16;
  vis_bits : forall j, 0 <= j -> Z.testbit bm j = true <-> is_Some (InternalNode.children i !! j);
  vis_some : forall j c, InternalNode.children i !! j = Some c ->
    nibble_ok j /\ rep h (Child.version c) (ns ++ [j]) (part (length ns) 0 j m);
  vis_none : forall j, nibble_ok j -> InternalNode.children i !! j = None -> part (length ns) 0 j m = ∅
}.

Lemma visited_of {E} h v ns m i : rep h v ns m -> get (key_at v ns) = Some (Node.Internal i) ->
  Forall nibble_ok ns -> (h + length ns = ROOT_NIBBLE_HEIGHT)%nat -> exists h' bm l,
    h = S h' /\ InternalNode.generate_bitmaps (E := E) i = Ok (bm, l) /\ visited i bm h' ns m.
Proof.
  intros Hr Hget Hns Hl. destruct h as [|h]; destruct Hr as (Hb & _ & Hr); cbv beta in Hr; rewrite Hget in Hr; [done|].
  destruct Hr as (Hs & _ & Hsome & Hnone).
  assert (indices_ok (InternalNode.children i)) as Hi by (intros n c Hc; by apply Hsome in Hc as [? _]).
  destruct (generate_bitmaps_spec (E := E) i Hi) as ([bm l] & Eb & Hbits).
  assert (forall j, 0 <= j -> Z.testbit bm j = true <-> is_Some (InternalNode.children i !! j)) as Hbm.
  { intros j Hj. apply (Hbits 0 j j Hj (Z.shiftr_0_r j)). }
  assert (forall j, 15 < j -> Z.testbit bm j = false) as Hhigh.
  { intros j Hj. apply not_true_iff_false. rewrite Hbm by lia. intros [c Hc%Hi]. red in Hc. lia. }
  assert (0 <= bm) as Hnn by (apply Z.bits_iff_nonneg_ex; exists 15; done).
  assert (bm <> 0) as Hne.
  { intros ->. assert (m <> ∅) as (k & w & Hk)%map_choose by (intros ->; rewrite map_size_empty in Hs; lia).
    pose proof (nib_ok (length ns) k (proj1 (Hb k w Hk))) as Hn.
    destruct (InternalNode.children i !! nib (length ns) k) as [c|] eqn:Ec.
    - red in Hn. assert (Z.testbit 0 (nib (length ns) k) = true) as H' by (apply Hbm; [lia | by eexists]).
      by rewrite Z.bits_0 in H'.
    - apply Hnone in Ec as [Ec _]; [|done]. apply (lookup_empty_Some k w). rewrite <- Ec. by rewrite part_lookup_nib. }
  exists h, bm, l. split; [done|]. split; [done|]. split; [done|lia|done|lia| |done| |].
  - apply Z.nle_gt. intros Hge. pose proof (Hhigh (Z.log2 bm) ltac:(lia)) as Ht. by rewrite Z.bit_log2 in Ht by lia.
  - intros j c Hc. destruct (Hsome j c Hc) as (? & node & _ & _ & ?). done.
  - intros j Hj Hc. by apply Hnone.
Qed.

(** ** The position in a node *)

Definition frame_ok (info : NodeVisitInfo.t) (h : nat) (ns : list Z) m (n : Z) : Prop :=
  (exists v, NodeVisitInfo.node_key info = key_at v ns) /\
  visited (NodeVisitInfo.node info) (NodeVisitInfo.children_bitmap info) h ns m /\
  NodeVisitInfo.next_child_to_visit info = 2 ^ n /\
  is_Some (InternalNode.children (NodeVisitInfo.node info) !! n).

Section frame.
Context (i : InternalNode.t) (bm : Z) (h : nat) (ns : list Z) (m : gmap HashValue.t V).
Context (Hv : visited i bm h ns m).
Abbreviation d := (length ns).

Lemma visited_absent j : nibble_ok j -> Z.testbit bm j = false -> part d 0 j m = ∅.
Proof.
  intros Hj Ht. apply (vis_none _ _ _ _ _ Hv); [done|]. apply eq_None_not_Some. intros Hs.
  apply (vis_bits _ _ _ _ _ Hv) in Hs; [congruence | red in Hj; lia].
Qed.

Lemma visited_child n : is_Some (InternalNode.children i !! n) -> nibble_ok n /\ n <= Z.log2 bm.
Proof.
  intros [c Hc]. pose proof (vis_some _ _ _ _ _ Hv n c Hc) as [Hn _]. split; [done|].
  apply Z.nlt_ge. intros Hlt. pose proof (vis_pos _ _ _ _ _ Hv). red in Hn.
  assert (Z.testbit bm n = true) as Ht by (apply (vis_bits _ _ _ _ _ Hv); [lia | by eexists]).
  by rewrite Z.bits_above_log2 in Ht by lia.
Qed.

Lemma visited_keys : keys_ok m.
Proof. eapply below_keys, (vis_below _ _ _ _ _ Hv). Qed.

Lemma visited_last : from d (Z.log2 bm + 1) m = ∅.
Proof.
  apply from_none; [apply visited_keys|]. intros j Hj Hn. apply visited_absent; [done|].
  pose proof (vis_pos _ _ _ _ _ Hv). apply Z.bits_above_log2; lia.
Qed.

(** The search for a child to the right. *)
Lemma visited_skip {E} a : 0 <= a <= Z.log2 bm -> exists n,
  NodeVisitInfo.skip_absent (E := E) 16 bm (2 ^ a) = Ok (2 ^ n) /\
  is_Some (InternalNode.children i !! n) /\ a <= n /\ from d a m = from d n m.
Proof.
  intros Ha. pose proof (vis_top _ _ _ _ _ Hv) as Htop.
  destruct (skip_absent_spec (E := E) 16 bm a) as (n & E' & Hn & Ht & Hj); [by apply (vis_pos _ _ _ _ _ Hv)|done|done|lia|].
  exists n. split; [done|]. split; [apply (vis_bits _ _ _ _ _ Hv); [lia|done]|]. split; [lia|].
  apply from_skip; [lia|]. intros j H'. apply visited_absent; [split; lia|by apply Hj].
Qed.
End frame.

Lemma new_info_spec {E} v i bm l h ns m : InternalNode.generate_bitmaps (E := E) i = Ok (bm, l) ->
  visited i bm h ns m -> exists info n,
    NodeVisitInfo.new (E := E) (key_at v ns) i = Ok info /\ frame_ok info h ns m n /\ from (length ns) n m = m.
Proof.
  intros Eb Hv. pose proof (vis_pos _ _ _ _ _ Hv) as Hpos. destruct (trailing_zeros_lowest bm Hpos) as (Ht & Hz & Hlow).
  assert (is_Some (InternalNode.children i !! trailing_zeros bm)) as Hs by (by apply (vis_bits _ _ _ _ _ Hv)).
  destruct (visited_child _ _ _ _ _ Hv _ Hs) as [Hn _].
  unfold NodeVisitInfo.new. rewrite Eb, bind_Ok, (proj2 (Z.eqb_neq bm 0)) by lia. cbn [negb assert_]. rewrite bind_Ok.
  eexists _, (trailing_zeros bm). split; [reflexivity|]. split.
  - split; [by eexists|]. split; [done|]. split; [|done]. cbn [NodeVisitInfo.next_child_to_visit].
    change 1 with (2 ^ 0). red in Hn. rewrite shl_pow2_u16 by lia. done.
  - rewrite <- (from_whole (length ns) m) at 2 by by eapply visited_keys. symmetry. apply from_skip; [done|].
    intros j Hj. eapply visited_absent; [done| |]; [split|apply Hlow]; red in Hn; lia.
Qed.

Lemma new_next_child_spec {E} v i bm l h ns m a : InternalNode.generate_bitmaps (E := E) i = Ok (bm, l) ->
  visited i bm h ns m -> 0 <= a <= Z.log2 bm -> exists info n,
    NodeVisitInfo.new_next_child_to_visit (E := E) (key_at v ns) i a = Ok info /\ frame_ok info h ns m n /\
    a <= n /\ from (length ns) a m = from (length ns) n m /\ NodeVisitInfo.node info = i /\ (is_Some (InternalNode.children i !! a) -> n = a).
Proof.
  intros Eb Hv Ha. pose proof (vis_pos _ _ _ _ _ Hv) as Hpos. pose proof (vis_top _ _ _ _ _ Hv) as Htop.
  destruct (visited_skip _ _ _ _ _ Hv (E := E) a Ha) as (n & Es & Hs & Han & Hf).
  unfold NodeVisitInfo.new_next_child_to_visit. rewrite Eb, bind_Ok. change (Z.shiftl 1 a) with (Z.shiftl (2 ^ 0) a).
  rewrite shl_pow2_u16, Z.add_0_l by lia.
  assert (2 ^ a <= bm) as Hle.
  { etransitivity; [apply (Z.pow_le_mono_r 2 a (Z.log2 bm)); lia | by apply Z.log2_spec]. }
  rewrite (proj2 (Z.leb_le _ _) Hle). cbn [assert_]. rewrite bind_Ok, Es, bind_Ok.
  eexists _, n. split; [reflexivity|]. split; [|split; [done|split; [done|split; [done|]]]].
  - split; [by eexists|]. done.
  - intros Hs'. apply (vis_bits _ _ _ _ _ Hv) in Hs'; [|lia].
    cbn [NodeVisitInfo.skip_absent] in Es. rewrite land_pow2_eqb, Hs' in Es by lia. cbn [negb] in Es.
    injection Es as Es. symmetry. apply (Z.pow_inj_r 2); lia.
Qed.

Lemma is_rightmost_spec {E} info h ns m n : frame_ok info h ns m n ->
  NodeVisitInfo.is_rightmost (E := E) info = Ok (n =? Z.log2 (NodeVisitInfo.children_bitmap info)).
Proof.
  intros (_ & Hv & Hnext & Hs). destruct (visited_child _ _ _ _ _ Hv _ Hs) as [Hn Hle]. red in Hn.
  unfold NodeVisitInfo.is_rightmost. rewrite Hnext, leading_zeros16_pow2 by lia. unfold leading_zeros16.
  pose proof (vis_pos _ _ _ _ _ Hv). rewrite (proj2 (Z.eqb_neq _ 0)) by lia.
  rewrite (proj2 (Z.leb_le _ _)) by lia. cbn [assert_]. rewrite bind_Ok. f_equal.
  destruct (Z.eqb_spec n (Z.log2 (NodeVisitInfo.children_bitmap info))); [apply Z.eqb_eq | apply Z.eqb_neq]; lia.
Qed.

Lemma advance_spec {E} info h ns m n : frame_ok info h ns m n -> n <> Z.log2 (NodeVisitInfo.children_bitmap info) ->
  exists info' n', NodeVisitInfo.advance (E := E) info = Ok info' /\ frame_ok info' h ns m n' /\
    from (length ns) (n + 1) m = from (length ns) n' m.
Proof.
  intros Hf Hne. unfold NodeVisitInfo.advance. rewrite (is_rightmost_spec _ _ _ _ _ Hf), bind_Ok, (proj2 (Z.eqb_neq _ _) Hne).
  cbn [negb assert_]. rewrite bind_Ok. destruct Hf as (Hkey & Hv & Hnext & Hs).
  destruct (visited_child _ _ _ _ _ Hv _ Hs) as [Hn Hle]. red in Hn. pose proof (vis_top _ _ _ _ _ Hv).
  destruct (visited_skip _ _ _ _ _ Hv (E := E) (n + 1)) as (n' & Es & Hs' & Han & Hfrom); [lia|].
  rewrite Hnext, shl_pow2_u16 by lia. rewrite Es, bind_Ok. eexists _, n'. split; [reflexivity|]. done.
Qed.

(** ** The entries a stack stands for *)

(** Those after the current child of every node. *)
Inductive after : list NodeVisitInfo.t -> list (HashValue.t * V) -> Prop :=
| after_nil : after [] []
| after_cons info stack h ns m n out : frame_ok info h ns m n -> after stack out ->
    after (info :: stack) (entries (from (length ns) (n + 1) m) ++ out).

(** The same with the current child of the top. *)
Inductive pending : list NodeVisitInfo.t -> list (HashValue.t * V) -> Prop :=
| pending_cons info stack h ns m n out : frame_ok info h ns m n -> after stack out ->
    pending (info :: stack) (entries (from (length ns) n m) ++ out).

Definition remains (stack : list NodeVisitInfo.t) (out : list (HashValue.t * V)) : Prop :=
  stack = [] /\ out = [] \/ pending stack out.

Lemma cleanup_stack_spec {E} stack out : after stack out ->
  exists stack', JellyfishMerkleIterator.cleanup_stack (E := E) stack = Ok stack' /\ remains stack' out.
Proof.
  induction 1 as [|info stack h ns m n out Hf Ha IH]; cbn [JellyfishMerkleIterator.cleanup_stack]; [by exists []; split; [|left]|].
  rewrite (is_rightmost_spec _ _ _ _ _ Hf), bind_Ok.
  destruct (Z.eqb_spec n (Z.log2 (NodeVisitInfo.children_bitmap info))) as [->|Hne].
  - destruct Hf as (_ & Hv & _). by rewrite (visited_last _ _ _ _ _ Hv), entries_empty.
  - destruct (advance_spec (E := E) _ _ _ _ _ Hf Hne) as (info' & n' & -> & Hf' & ->). rewrite bind_Ok.
    eexists. split; [reflexivity|]. right. by econstructor.
Qed.

(** ** [next] *)

Lemma reader_get k (node : Node.t V) : get k = Some node -> reader_get_node r k = Ok node.
Proof. intros Hk. unfold reader_get_node. by rewrite get_node_option_stored, bind_Ok, Hk. Qed.

(** The node of the current child. *)
Lemma frame_child info h ns m n : frame_ok info h ns m n -> exists c node,
  nibble_ok n /\ InternalNode.children (NodeVisitInfo.node info) !! n = Some c /\
  NodeKey.gen_child_node_key (E := error) (NodeVisitInfo.node_key info) (Child.version c) n =
    Ok (key_at (Child.version c) (ns ++ [n])) /\
  rep h (Child.version c) (ns ++ [n]) (part (length ns) 0 n m) /\
  get (key_at (Child.version c) (ns ++ [n])) = Some node /\ node <> Node.Null.
Proof.
  intros ((v & Hkey) & Hv & _ & c & Hc). destruct (vis_some _ _ _ _ _ Hv n c Hc) as [Hn Hr].
  destruct (represents_node _ _ _ _ _ _ _ _ _ Hr) as (node & Hget & Hnull & _). exists c, node.
  pose proof (vis_depth _ _ _ _ _ Hv). rewrite Hkey, gen_child_key_at; [done|apply (vis_path _ _ _ _ _ Hv)|done|lia].
Qed.

Lemma leaf_entries h v ns m l : rep h v ns m -> get (key_at v ns) = Some (Node.Leaf l) ->
  m = {[LeafNode.account_key l := LeafNode.value l]}.
Proof.
  intros Hr Hget. destruct h; destruct Hr as (_ & _ & Hr); cbv beta in Hr; rewrite Hget in Hr; by destruct Hr as [[_ ->] _].
Qed.

Lemma frame_entries info h ns m n : frame_ok info h ns m n ->
  entries (from (length ns) n m) = entries (part (length ns) 0 n m) ++ entries (from (length ns) (n + 1) m).
Proof.
  intros (_ & Hv & _). apply entries_from; [by apply (vis_below _ _ _ _ _ Hv)|].
  pose proof (vis_depth _ _ _ _ _ Hv). lia.
Qed.

Lemma next_loop_spec fuel : forall self info stack h ns m n out,
  JellyfishMerkleIterator.reader self = r -> JellyfishMerkleIterator.parent_stack self = info :: stack ->
  frame_ok info h ns m n -> after stack out -> (h < fuel)%nat ->
  exists x out' stack', JellyfishMerkleIterator.next_loop fuel self =
      (JellyfishMerkleIterator.set_stack stack' self, Ok (Some x)) /\
    entries (from (length ns) n m) ++ out = x :: out' /\ remains stack' out'.
Proof.
  induction fuel as [|fuel IH]; intros self info stack h ns m n out Hreader Hstack Hf Ha Hfuel; [lia|].
  cbn [JellyfishMerkleIterator.next_loop]. rewrite (frame_entries _ _ _ _ _ Hf), <- app_assoc.
  destruct (frame_child _ _ _ _ _ Hf) as (c & node & Hn & Hc & Hkey & Hr & Hget & Hnull).
  pose proof (after_cons _ _ _ _ _ _ _ Hf Ha) as Ha'.
  pose proof Hf as (_ & Hv & Hnext & _). rewrite bind_gets, Hstack, (bind_lift _ _ _ info) by done.
  rewrite (bind_lift _ _ _ n) by (rewrite Hnext, trailing_zeros_pow2 by (red in Hn; lia); by apply nibble_from_ok).
  rewrite (bind_lift _ _ _ c) by by rewrite Hc.
  rewrite (bind_lift _ _ _ _ Hkey), bind_gets, Hreader, (bind_lift _ _ _ _ (reader_get _ _ Hget)).
  destruct node as [|i|l]; [done|..].
  - destruct (visited_of (E := error) _ _ _ _ _ Hr Hget) as (h' & bm & l & -> & Eb & Hv').
    { apply Forall_app. split; [apply (vis_path _ _ _ _ _ Hv) | by apply Forall_singleton]. }
    { rewrite length_app. cbn [length]. pose proof (vis_depth _ _ _ _ _ Hv). lia. }
    destruct (new_info_spec (Child.version c) i bm l h' _ _ Eb Hv') as (info' & n' & Ei & Hf' & Hall).
    rewrite (bind_lift _ _ _ _ Ei), bind_modify.
    edestruct (IH (JellyfishMerkleIterator.set_stack (info' :: info :: stack) self)) as (x & out' & stack' & En & Eo & Hrem);
      [done|reflexivity|exact Hf'|exact Ha'|lia|].
    rewrite Hall in Eo. exists x, out', stack'. by rewrite En.
  - rewrite (leaf_entries _ _ _ _ _ Hr Hget), entries_singleton. cbn [app].
    destruct (cleanup_stack_spec (E := error) _ _ Ha') as (stack' & Es & Hrem).
    eexists _, _, stack'. split; [|split; [reflexivity|exact Hrem]].
    by rewrite (bind_lift _ _ _ _ Es).
Qed.

Section version.
Context (v : Z).

(** What the iterator is still to return. *)
Definition yields (self : JellyfishMerkleIterator.t R) (out : list (HashValue.t * V)) : Prop :=
  JellyfishMerkleIterator.reader self = r /\ JellyfishMerkleIterator.version self = v /\
  if JellyfishMerkleIterator.done self then out = [] else
  match stored r !! key_at v [] with
  | Some (Node.Leaf l) => JellyfishMerkleIterator.parent_stack self = [] /\
      out = [(LeafNode.account_key l, LeafNode.value l)]
  | Some (Node.Internal _) => remains (JellyfishMerkleIterator.parent_stack self) out
  | _ => False
  end.

Lemma pending_height stack out : pending stack out -> exists info rest h ns m n out', stack = info :: rest /\
  out = entries (from (length ns) n m) ++ out' /\ frame_ok info h ns m n /\ after rest out' /\ (h < ROOT_NIBBLE_HEIGHT)%nat.
Proof.
  intros Hp. inversion Hp as [info rest h ns m n out' Hf Ha]; subst. exists info, rest, h, ns, m, n, out'.
  split_and!; [done..|]. destruct Hf as (_ & Hv & _). pose proof (vis_depth _ _ _ _ _ Hv). lia.
Qed.

Lemma iterator_next self out : yields self out ->
  match out with
  | [] => JellyfishMerkleIterator.next self = (self, Ok None)
  | x :: out' => exists self', JellyfishMerkleIterator.next self = (self', Ok (Some x)) /\ yields self' out'
  end.
Proof.
  intros (Hr & Hver & Hy). unfold JellyfishMerkleIterator.next.
  destruct (JellyfishMerkleIterator.done self) eqn:Ed; [by subst out|].
  destruct (stored r !! key_at v []) as [[|i|l]|] eqn:Eroot; try done.
  - destruct Hy as [[-> ->]|Hp].
    + change (NodeKey.new_empty_path (JellyfishMerkleIterator.version self)) with
        (key_at (JellyfishMerkleIterator.version self) []). by rewrite Hver, Hr, (reader_get _ _ Eroot).
    + destruct (pending_height _ _ Hp) as (info & rest & h & ns & m & n & out' & Hs & -> & Hf & Ha & Hh).
      destruct (next_loop_spec (S ROOT_NIBBLE_HEIGHT) self info rest h ns m n out') as (x & o & stack' & En & -> & Hrem);
        [done..|lia|]. rewrite Hs, En. eexists. split; [reflexivity|]. split; [done|]. split; [done|].
      cbn [JellyfishMerkleIterator.set_stack JellyfishMerkleIterator.done JellyfishMerkleIterator.parent_stack].
      by rewrite Ed, Eroot.
  - destruct Hy as [-> ->]. change (NodeKey.new_empty_path (JellyfishMerkleIterator.version self)) with
      (key_at (JellyfishMerkleIterator.version self) []). rewrite Hver, Hr, (reader_get _ _ Eroot).
    eexists. split; [reflexivity|]. by split.
Qed.

Lemma iterator_items n : forall self out, yields self out ->
  (JellyfishMerkleIterator.items n self).2 = Ok (take n out).
Proof.
  induction n as [|n IH]; intros self out Hy; [done|]. cbn [JellyfishMerkleIterator.items].
  unfold mbind, action_bind. pose proof (iterator_next _ _ Hy) as Hn. destruct out as [|x out].
  - by rewrite Hn.
  - destruct Hn as (self' & -> & Hy'). specialize (IH _ _ Hy'). cbn [take].
    destruct (JellyfishMerkleIterator.items n self') as [s o]. cbn [snd] in IH. by rewrite IH.
Qed.

(** ** [new] *)

Lemma starting_at_singleton key k (w : V) : starting_at key {[k := w]} =
  if bytes_leb (HashValue.hash key) (HashValue.hash k) then {[k := w]} else ∅.
Proof.
  unfold starting_at. destruct (bytes_leb _ _) eqn:E.
  - by apply map_filter_singleton_True.
  - apply map_filter_singleton_False. cbn [fst]. by rewrite E.
Qed.

(** The current node is the root, or the current child of the top of the stack. *)
Definition current (v' : Z) (ns : list Z) m (stack : list NodeVisitInfo.t) (out : list (HashValue.t * V)) : Prop :=
  stack = [] /\ ns = [] /\ v' = v /\ out = [] \/
  pending stack (entries m ++ out) /\ exists i, stored r !! key_at v [] = Some (Node.Internal i).

Lemma current_internal v' ns m stack out i : current v' ns m stack out ->
  get (key_at v' ns) = Some (Node.Internal i) -> exists i, stored r !! key_at v [] = Some (Node.Internal i).
Proof. intros [(_ & -> & -> & _)|[_ Hi]] Hget; [by eexists | done]. Qed.

Lemma new_at_bottom_spec key h v' ns m l stack out : rep h v' ns m -> get (key_at v' ns) = Some (Node.Leaf l) ->
  current v' ns m stack out -> after stack out -> exists it,
    JellyfishMerkleIterator.new_at_bottom r v key (key_at v' ns) stack = Ok it /\
    yields it (entries (starting_at key m) ++ out).
Proof.
  intros Hr Hget Hc Ha. pose proof (leaf_entries _ _ _ _ _ Hr Hget) as Hm.
  unfold JellyfishMerkleIterator.new_at_bottom. rewrite (reader_get _ _ Hget), bind_Ok, Hm, starting_at_singleton.
  destruct (bytes_leb _ _); cbn [negb].
  - eexists. split; [reflexivity|]. split; [done|]. split; [done|]. cbn. rewrite <- Hm.
    destruct Hc as [(-> & -> & -> & ->)|[Hp (i & ->)]]; [|by right].
    cbv beta in Hget. by rewrite Hget, Hm, entries_singleton.
  - destruct (cleanup_stack_spec (E := error) _ _ Ha) as (stack' & Es & Hrem). rewrite Es, bind_Ok.
    eexists. split; [reflexivity|]. split; [done|]. split; [done|]. cbn [JellyfishMerkleIterator.done JellyfishMerkleIterator.parent_stack].
    rewrite entries_empty. cbn [app]. case_bool_decide as Hnil.
    + destruct Hrem as [[_ Ho]|Hp]; [done|]. subst. by inversion Hp.
    + destruct Hc as [(-> & _)|[_ (i & ->)]]; [|done]. cbn in Es. by injection Es as <-.
Qed.

Lemma new_loop_spec key : HashValue.wf key -> forall h fuel v' ns m stack out,
  Forall nibble_ok ns -> (h + length ns = ROOT_NIBBLE_HEIGHT)%nat -> (h < fuel)%nat -> rep h v' ns m ->
  ns `prefix_of` key_nibbles key -> current v' ns m stack out -> after stack out -> exists it,
    JellyfishMerkleIterator.new_loop fuel r v key (key_at v' ns)
      (iter_at (key_nibbles key) (length ns) ROOT_NIBBLE_HEIGHT 0) stack = Ok it /\
    yields it (entries (starting_at key m) ++ out).
Proof.
  intros Hkey h. induction h as [h IH] using lt_wf_ind. intros fuel v' ns m stack out Hns Hl Hfuel Hr Hp Hc Ha.
  destruct fuel as [|fuel]; [lia|]. cbn [JellyfishMerkleIterator.new_loop].
  destruct (represents_node _ _ _ _ _ _ _ _ _ Hr) as (node & Hget & Hnull & _).
  rewrite (reader_get _ _ Hget), bind_Ok. destruct node as [|i|l]; [done| |by eapply new_at_bottom_spec].
  destruct (current_internal _ _ _ _ _ _ Hc Hget) as (i0 & Hroot).
  destruct (visited_of (E := error) _ _ _ _ _ Hr Hget Hns Hl) as (h' & bm & lm & -> & Eb & Hv).
  assert (length ns < ROOT_NIBBLE_HEIGHT)%nat as Hlt by lia.
  pose proof (vis_below _ _ _ _ _ Hv) as Hb. pose proof (vis_pos _ _ _ _ _ Hv) as Hpos. pose proof (vis_top _ _ _ _ _ Hv) as Htop.
  rewrite (next_nibbles _ _ _ _ (nib (length ns) key)); [|by apply key_nibbles_ok|done|by apply nib_lookup].
  rewrite bind_Ok. cbn [expect]. rewrite bind_Ok, (entries_starting_at ns m Hb Hlt key Hkey Hp), <- app_assoc.
  set (x := nib (length ns) key). assert (nibble_ok x) as Hx by by apply nib_ok. pose proof Hx as Hx'. red in Hx'.
  destruct (InternalNode.children i !! x) as [c|] eqn:Ec.
  - destruct (visited_child _ _ _ _ _ Hv x (ex_intro _ _ Ec)) as [_ Hxl].
    destruct (new_next_child_spec (E := error) v' _ _ _ _ _ _ x Eb Hv ltac:(lia)) as (info & n & -> & Hf & _ & _ & _ & Hn).
    rewrite Hn in Hf by by eexists. rewrite bind_Ok, gen_child_key_at, bind_Ok by done.
    pose proof (vis_some _ _ _ _ _ Hv x c Ec) as [_ Hcr].
    replace (S (length ns)) with (length (ns ++ [x])) by (rewrite length_app; cbn [length]; lia).
    apply (IH h' ltac:(lia) fuel (Child.version c) (ns ++ [x])); [apply Forall_app; split; [done|by apply Forall_singleton]|rewrite length_app; cbn [length]; lia|lia|done| | |].
    + by apply prefix_nib.
    + right. split; [|by eexists]. rewrite app_assoc, <- (frame_entries _ _ _ _ _ Hf). by econstructor.
    + by eapply after_cons.
  - rewrite (vis_none _ _ _ _ _ Hv x Hx Ec). unfold starting_at. rewrite map_filter_empty, entries_empty. cbn [app].
    rewrite Eb, bind_Ok. unfold leading_zeros16. rewrite (proj2 (Z.eqb_neq bm 0)) by lia.
    replace (15 - (15 - Z.log2 bm)) with (Z.log2 bm) by lia. pose proof (Z.log2_nonneg bm).
    rewrite Z.mod_small by lia. destruct (Z.ltb_spec x (Z.log2 bm)) as [Hlog|Hlog].
    + destruct (new_next_child_spec (E := error) v' _ _ _ _ _ _ x Eb Hv ltac:(lia)) as (info & n & -> & Hf & _ & Hfrom & _ & _).
      rewrite bind_Ok. eexists. split; [reflexivity|]. split; [done|]. split; [done|]. cbn. rewrite Hroot. right.
      rewrite <- (app_nil_l (entries _)), <- entries_empty, <- (vis_none _ _ _ _ _ Hv x Hx Ec),
        <- (entries_from ns m Hb Hlt x), Hfrom. by econstructor.
    + destruct (cleanup_stack_spec (E := error) _ _ Ha) as (stack' & -> & Hrem). rewrite bind_Ok.
      eexists. split; [reflexivity|]. split; [done|]. split; [done|]. cbn. rewrite Hroot.
      rewrite from_none, entries_empty; [done|by eapply below_keys|]. intros j Hj Hjn.
      eapply visited_absent; [done..|]. apply Z.bits_above_log2; lia.
Qed.

Lemma iterator_new_spec key m : HashValue.wf key -> stored_tree sha3_256 counted r v m -> exists it,
  JellyfishMerkleIterator.new r v key = Ok it /\ yields it (entries (starting_at key m)).
Proof.
  intros Hkey Ht. unfold JellyfishMerkleIterator.new. rewrite (new_of_key key Hkey), bind_Ok.
  destruct Ht as [(-> & _ & Hnull & _)|Hr].
  - cbn [JellyfishMerkleIterator.new_loop]. change (NodeKey.new_empty_path v) with (key_at v []).
    rewrite (reader_get _ _ Hnull), bind_Ok. unfold JellyfishMerkleIterator.new_at_bottom.
    rewrite (reader_get _ _ Hnull), bind_Ok. eexists. split; [reflexivity|]. split; [done|]. split; [done|].
    cbn. unfold starting_at. by rewrite map_filter_empty, entries_empty.
  - destruct (new_loop_spec key Hkey ROOT_NIBBLE_HEIGHT (S ROOT_NIBBLE_HEIGHT) v [] m [] []) as (it & E & Hy);
      [done|done|lia|done|apply prefix_nil|by left|constructor|].
    rewrite app_nil_r in Hy. exists it. split; [|done]. rewrite <- E.
    unfold NibbleIterator.nibbles, NibbleIterator.new. cbn [of_nibbles NibblePath.num_nibbles].
    fold (key_nibbles key). by rewrite (key_nibbles_length key Hkey).
Qed.

(** ** [new_by_index] *)

#[local] Instance nibble_le_total : Total nibble_le.
Proof. intros x y. unfold nibble_le. lia. Qed.

#[local] Instance nibble_le_trans : Transitive nibble_le.
Proof. intros x y z. unfold nibble_le. lia. Qed.

Section skip.
Context (i : InternalNode.t) (bm : Z) (h : nat) (ns : list Z) (m : gmap HashValue.t V) (idx : Z).
Context (Hv : visited i bm h ns m) (Hsize : forall n c, InternalNode.children i !! n = Some c ->
  Child.leaf_count c = Some (wrap64 (Z.of_nat (size (part (length ns) 0 n m))))).
Abbreviation d := (length ns).

Lemma size_from n : Z.of_nat (size (from d n m)) =
  Z.of_nat (size (part d 0 n m)) + Z.of_nat (size (from d (n + 1) m)).
Proof.
  destruct (from_split ns m n) as [-> Hd]. rewrite map_size_disj_union by done. lia.
Qed.

Lemma skip_loop_spec l : forall a s, StronglySorted nibble_le l -> NoDup l.*1 ->
  (forall n c, (n, c) ∈ l <-> InternalNode.children i !! n = Some c /\ a <= n) ->
  0 <= a -> 0 <= s <= idx -> idx < s + Z.of_nat (size (from d a m)) <= u64_max ->
  exists s' n c, JellyfishMerkleIterator.skip_loop l s idx = Ok (s', (n, c)) /\
    InternalNode.children i !! n = Some c /\ 0 <= s' <= idx /\
    idx < s' + Z.of_nat (size (part d 0 n m)) <= u64_max /\
    drop (Z.to_nat (idx - s)) (entries (from d a m)) = drop (Z.to_nat (idx - s')) (entries (from d n m)).
Proof.
  induction l as [|[n c] l IH]; intros a s Hsort Hdup Hl Ha Hs Hidx; cbn [JellyfishMerkleIterator.skip_loop].
  - exfalso. rewrite from_none, map_size_empty in Hidx; [lia|by eapply visited_keys|]. intros j Hj Hjn.
    apply (vis_none _ _ _ _ _ Hv); [done|]. apply eq_None_not_Some. intros [c Hc].
    by apply (not_elem_of_nil (j, c)), Hl.
  - destruct (proj1 (Hl n c) ltac:(left)) as [Hc Han]. inversion Hsort as [|x l' Hsl Hall]; subst.
    cbn [fmap list_fmap fst] in Hdup. apply NoDup_cons in Hdup as [Hnotin Hdup].
    assert (from d a m = from d n m) as Hfrom.
    { apply from_skip; [done|]. intros j Hj. pose proof (visited_child _ _ _ _ _ Hv n (ex_intro _ _ Hc)) as [Hn _].
      red in Hn. apply (vis_none _ _ _ _ _ Hv); [split; lia|]. apply eq_None_not_Some. intros [c' Hc'].
      assert ((j, c') ∈ (n, c) :: l) as Hin by (apply Hl; split; [done|lia]).
      apply elem_of_cons in Hin as [[= -> ->]|Hin]; [lia|]. rewrite Forall_forall in Hall.
      apply Hall in Hin. unfold nibble_le in Hin. cbn in Hin. lia. }
    rewrite Hfrom in *. pose proof (size_from n) as Hsz. pose proof (Hsize n c Hc) as Hcount.
    rewrite Hcount. cbn [expect]. rewrite bind_Ok, wrap64_small by (red; lia).
    rewrite u64_add_small by lia.
    pose proof (vis_depth _ _ _ _ _ Hv) as Hdepth.
    rewrite (entries_from ns m (vis_below _ _ _ _ _ Hv) ltac:(lia) n).
    pose proof (entries_length (part d 0 n m)) as Hlen.
    destruct (Z.leb_spec (s + Z.of_nat (size (part d 0 n m))) idx) as [Hle|Hlt].
    + destruct (IH (n + 1) (s + Z.of_nat (size (part d 0 n m)))) as (s' & n' & c' & E' & Hc' & Hs' & Hi' & Hd'); [done|done| |lia..|].
      * intros j c'. split.
        -- intros Hin. destruct (proj1 (Hl j c') ltac:(by right)) as [Hj Haj]. split; [done|].
           rewrite Forall_forall in Hall. pose proof (Hall _ Hin) as Hle'. unfold nibble_le in Hle'. cbn in Hle'.
           assert (j <> n); [|lia]. intros ->. apply Hnotin, list_elem_of_fmap. by exists (n, c').
        -- intros [Hj Hle']. assert ((j, c') ∈ (n, c) :: l) as Hin by (apply Hl; split; [done|lia]).
           apply elem_of_cons in Hin as [[= -> ->]|Hin]; [lia|done].
      * exists s', n', c'. split; [done|]. split; [done|]. split; [lia|]. split; [lia|]. rewrite <- Hd', drop_app_ge by lia.
        f_equal. lia.
    + exists s, n, c. split; [done|]. split; [done|]. split; [lia|]. split; [lia|].
      by rewrite (entries_from ns m (vis_below _ _ _ _ _ Hv) ltac:(lia) n).
Qed.
End skip.

Lemma children_sorted_spec i : StronglySorted nibble_le (children_sorted i) /\ NoDup (children_sorted i).*1 /\
  forall n c, (n, c) ∈ children_sorted i <-> InternalNode.children i !! n = Some c.
Proof.
  unfold children_sorted. split; [apply StronglySorted_merge_sort; apply _|]. split.
  - rewrite merge_sort_Permutation. apply NoDup_fst_map_to_list.
  - intros n c. rewrite merge_sort_Permutation. apply elem_of_map_to_list.
Qed.

Lemma child_leaf_count (Hcounted : counted) h v' ns m i n c : rep h v' ns m ->
  get (key_at v' ns) = Some (Node.Internal i) -> InternalNode.children i !! n = Some c ->
  Child.leaf_count c = Some (wrap64 (Z.of_nat (size (part (length ns) 0 n m)))).
Proof.
  intros Hr Hget Hc. destruct h as [|h]; destruct Hr as (_ & _ & Hr); cbv beta in *; rewrite Hget in Hr; [done|].
  destruct Hr as (_ & _ & Hsome & _). destruct (Hsome n c Hc) as (_ & node & Hnode & (_ & _ & Hty) & Hcr).
  rewrite (node_type_leaf_count node) by by apply Hty.
  by eapply (represents_leaf_count sha3_256 counted get (fun _ _ => True) (fun _ => True) h Hcounted).
Qed.

Lemma skip_leaves_spec (Hcounted : counted) h v' ns m i bm s idx : rep (S h) v' ns m ->
  get (key_at v' ns) = Some (Node.Internal i) -> visited i bm h ns m -> 0 <= s <= idx ->
  idx < s + Z.of_nat (size m) <= u64_max -> exists s' n c,
    JellyfishMerkleIterator.skip_leaves i s idx = Ok (s', (n, c)) /\
    InternalNode.children i !! n = Some c /\ 0 <= s' <= idx /\
    idx < s' + Z.of_nat (size (part (length ns) 0 n m)) <= u64_max /\
    drop (Z.to_nat (idx - s)) (entries m) = drop (Z.to_nat (idx - s')) (entries (from (length ns) n m)).
Proof.
  intros Hr Hget Hv Hs Hidx. destruct (children_sorted_spec i) as (Hsort & Hdup & Hel).
  pose proof (from_whole (length ns) m (visited_keys _ _ _ _ _ Hv)) as Hall.
  edestruct (skip_loop_spec i bm h ns m idx Hv) as (s' & n & c & E & Hc & Hs' & Hi & Hd);
    [|exact Hsort|exact Hdup| |reflexivity|exact Hs|rewrite Hall; exact Hidx|].
  3: { rewrite Hall in Hd. by exists s', n, c. }
  - intros n c Hc. by eapply child_leaf_count.
  - intros n c. rewrite Hel. split; [intros Hc; split; [done|] | by intros []].
    pose proof (visited_child _ _ _ _ _ Hv n (ex_intro _ _ Hc)) as [[] _]. done.
Qed.

Lemma index_loop_spec (Hcounted : counted) idx : forall h fuel v' ns m node s stack out,
  Forall nibble_ok ns -> (h + length ns = ROOT_NIBBLE_HEIGHT)%nat -> (h < fuel)%nat -> rep h v' ns m ->
  get (key_at v' ns) = Some node -> current v' ns m stack out -> after stack out ->
  0 <= s <= idx -> idx < s + Z.of_nat (size m) <= u64_max -> exists it,
    JellyfishMerkleIterator.index_loop fuel r v idx (key_at v' ns) node s stack = Ok it /\
    yields it (drop (Z.to_nat (idx - s)) (entries m) ++ out).
Proof.
  intros h. induction h as [h IH] using lt_wf_ind. intros fuel v' ns m node s stack out Hns Hl Hfuel Hr Hget Hc Ha Hs Hidx.
  destruct fuel as [|fuel]; [lia|]. cbn [JellyfishMerkleIterator.index_loop].
  destruct (represents_node _ _ _ _ _ _ _ _ _ Hr) as (node' & Hget' & Hnull & _). rewrite Hget in Hget'.
  injection Hget' as <-. destruct node as [|i|l]; [done|..].
  - destruct (current_internal _ _ _ _ _ _ Hc Hget) as (i0 & Hroot).
    destruct (visited_of (E := error) _ _ _ _ _ Hr Hget Hns Hl) as (h' & bm & lm & -> & Eb & Hv).
    destruct (skip_leaves_spec Hcounted _ _ _ _ _ _ _ _ Hr Hget Hv Hs Hidx) as (s' & n & c & -> & Hch & Hs' & Hidx' & ->).
    rewrite bind_Ok. destruct (visited_child _ _ _ _ _ Hv n (ex_intro _ _ Hch)) as [Hn Hnl].
    rewrite gen_child_key_at, bind_Ok by (done || lia).
    destruct (new_next_child_spec (E := error) v' _ _ _ _ _ _ n Eb Hv) as (info & n' & -> & Hf & _ & _ & Hnode & Hn');
      [red in Hn; lia|]. rewrite Hn' in Hf by by eexists. rewrite bind_Ok.
    destruct (frame_child _ _ _ _ _ Hf) as (c' & cnode & _ & Hc' & _ & Hcr & Hcget & _).
    rewrite Hnode, Hch in Hc'. injection Hc' as <-. rewrite (reader_get _ _ Hcget), bind_Ok.
    rewrite (frame_entries _ _ _ _ _ Hf), drop_app_le, <- app_assoc by (rewrite entries_length; lia).
    apply (IH h' ltac:(lia)); [apply Forall_app; split; [done|by apply Forall_singleton]|rewrite length_app; cbn [length]; lia|lia|done|done| | |done|done].
    + right. split; [|by eexists]. rewrite app_assoc, <- (frame_entries _ _ _ _ _ Hf). by econstructor.
    + by eapply after_cons.
  - pose proof (leaf_entries _ _ _ _ _ Hr Hget) as Hm. rewrite Hm, map_size_singleton in Hidx.
    assert (s = idx) as -> by lia. rewrite Z.eqb_refl, Z.sub_diag. cbn [ensure]. rewrite bind_Ok.
    eexists. split; [reflexivity|]. split; [done|]. split; [done|]. cbn [JellyfishMerkleIterator.done].
    change (Z.to_nat 0) with 0%nat. rewrite drop_0.
    destruct Hc as [(-> & -> & -> & ->)|[Hp (i & ->)]]; [|by right].
    cbv beta in Hget. by rewrite Hget, Hm, entries_singleton.
Qed.

Lemma new_by_index_spec (Hcounted : counted) idx m : stored_tree sha3_256 counted r v m ->
  Z.of_nat (size m) <= u64_max -> 0 <= idx -> exists it,
    JellyfishMerkleIterator.new_by_index r v idx = Ok it /\ yields it (drop (Z.to_nat idx) (entries m)).
Proof.
  intros Ht Hsize Hidx. unfold JellyfishMerkleIterator.new_by_index. change (NodeKey.new_empty_path v) with (key_at v []).
  assert (exists node, get (key_at v []) = Some node /\ Node.leaf_count node = Some (Z.of_nat (size m))) as (node & Hget & Hcount).
  { destruct Ht as [(-> & _ & Hnull & _)|Hr]; [by eexists|].
    destruct (represents_node _ _ _ _ _ _ _ _ _ Hr) as (node & Hget & _). exists node. split; [done|].
    rewrite <- (wrap64_small (Z.of_nat (size m))) by (red; lia).
    by eapply (represents_leaf_count sha3_256 counted get (fun _ _ => True) (fun _ => True) _ Hcounted). }
  rewrite (reader_get _ _ Hget), bind_Ok, Hcount. cbn [ok_or]. rewrite bind_Ok.
  destruct (Z.leb_spec (Z.of_nat (size m)) idx) as [Hle|Hlt].
  - eexists. split; [reflexivity|]. split; [done|]. split; [done|]. cbn. apply drop_ge. rewrite entries_length. lia.
  - destruct Ht as [(-> & _)|Hr]; [rewrite map_size_empty in Hlt; lia|].
    destruct (index_loop_spec Hcounted idx ROOT_NIBBLE_HEIGHT (S ROOT_NIBBLE_HEIGHT) v [] m node 0 [] []) as (it & E & Hy);
      [done|done|lia|done|done|by left|constructor|lia|lia|].
    rewrite app_nil_r, Z.sub_0_r in Hy. by exists it.
Qed.

(** C11: Iteration is exact. The iterator that starts at a key returns, whatever
    number of times [next] is called, the entries of the stored version from the
    smallest key that is not below it on, each once and in the order of the keys,
    and then [None]; it never fails or panics. In a tree with leaf counts, the one
    that starts at an index returns the entries from the one with that index on. *)
Theorem iterator_exact m : stored_tree sha3_256 counted r v m ->
  (forall key, HashValue.wf key -> exists it, JellyfishMerkleIterator.new r v key = Ok it /\
     forall n, (JellyfishMerkleIterator.items n it).2 = Ok (take n (entries (starting_at key m)))) /\
  (counted -> Z.of_nat (size m) <= u64_max -> forall idx, 0 <= idx -> exists it,
     JellyfishMerkleIterator.new_by_index r v idx = Ok it /\
     forall n, (JellyfishMerkleIterator.items n it).2 = Ok (take n (drop (Z.to_nat idx) (entries m)))).
Proof.
  intros Ht. split.
  - intros key Hkey. destruct (iterator_new_spec key m Hkey Ht) as (it & E & Hy). exists it. split; [done|].
    intros n. by apply iterator_items.
  - intros Hcounted Hsize idx Hidx. destruct (new_by_index_spec Hcounted idx m Ht Hsize Hidx) as (it & E & Hy).
    exists it. split; [done|]. intros n. by apply iterator_items.
Qed.
End version.
End traversal.
