(* ===== verification/JellyfishCodec.v ===== *)
(** * Encodings of node keys and nodes

    Round trips of the encodings of node_type/mod.rs: variable-length integers,
    node keys (whose byte order is the order of the keys) and nodes; and decoding
    of arbitrary bytes, which never panics and yields well-formed nodes. *)
From stdpp Require Import prelude gmap strings.
From Stdlib Require Import ZArith Lia.
From S2P Require Import Prelude Bits HashValues SparseMerkle Nibbles JellyfishNodes JellyfishSpec.
From S2P Require Import JellyfishHash Jellyfish JellyfishRanges.

(** ** The order of bytes *)

Lemma bytes_leb_refl xs : bytes_leb xs xs = true.
Proof. induction xs as [|x xs IH]; [done|]. cbn [bytes_leb]. by rewrite Z.ltb_irrefl, Z.eqb_refl. Qed.

Lemma bytes_leb_app_eq xs xs' ys ys' : length xs = length xs' ->
  bytes_leb (xs ++ ys) (xs' ++ ys') = if bool_decide (xs = xs') then bytes_leb ys ys' else bytes_leb xs xs'.
Proof.
  revert xs'; induction xs as [|x xs IH]; intros [|x' xs'] Hl; try done.
  cbn [app bytes_leb]. rewrite IH by by injection Hl.
  destruct (Z.ltb_spec x x'), (Z.eqb_spec x x'); cbn [orb andb]; try lia.
  - rewrite bool_decide_false by (intros [= ? _]; lia). done.
  - subst x'. destruct (decide (xs = xs')) as [->|Hne].
    + by rewrite !bool_decide_true.
    + by rewrite !bool_decide_false by congruence.
  - by rewrite bool_decide_false by congruence.
Qed.

(** What the crate [byteorder] documents. *)
Class ByteOrderLaws `{ByteOrder} : Prop := {
  u64_be_length x : length (u64_to_be x) = 8%nat;
  u64_be_inv x : 0 <= x <= u64_max -> u64_of_be (u64_to_be x) = x;
  u64_of_be_inv bs : length bs = 8%nat -> Forall byte_ok bs ->
    u64_to_be (u64_of_be bs) = bs /\ 0 <= u64_of_be bs <= u64_max;
  u64_be_order x y : 0 <= x <= u64_max -> 0 <= y <= u64_max ->
    bytes_leb (u64_to_be x) (u64_to_be y) = (x <=? y);
  u16_le_length x : length (u16_to_le x) = 2%nat;
  u16_le_inv x : 0 <= x < 2 ^ 16 -> u16_of_le (u16_to_le x) = x;
  u16_of_le_range bs : length bs = 2%nat -> Forall byte_ok bs -> 0 <= u16_of_le bs < 2 ^ 16
}.

Lemma read_exact_app n xs ys : length xs = n -> read_exact n (xs ++ ys) = Ok (xs, ys).
Proof.
  intros <-. unfold read_exact. rewrite (proj2 (Nat.leb_le _ _)) by (rewrite length_app; lia). cbn [ensure].
  by rewrite bind_Ok, take_app_length, drop_app_length.
Qed.

Lemma read_exact_inv n reader : match read_exact n reader with
  | Ok (xs, ys) => reader = xs ++ ys /\ length xs = n
  | Err _ => True
  | Panic => False
  end.
Proof.
  unfold read_exact. destruct (Nat.leb_spec n (length reader)); [|done]. cbn. rewrite take_drop, length_take. split; [done|lia].
Qed.

(** ** Variable-length integers *)

Lemma mod_pow2_testbit a k i : 0 <= k -> 0 <= i -> Z.testbit (a mod 2 ^ k) i = (i <? k) && Z.testbit a i.
Proof.
  intros Hk Hi. destruct (Z.ltb_spec i k); [by rewrite Z.mod_pow2_bits_low | by rewrite Z.mod_pow2_bits_high by lia].
Qed.

(** Seven more bits of a number. *)
Lemma varint_step num j : 0 <= j -> 0 <= num ->
  Z.lor (num mod 2 ^ j) (Z.shiftl (Z.shiftr num j mod 2 ^ 7) j) = num mod 2 ^ (j + 7).
Proof.
  intros Hj Hn. apply Z.bits_inj'. intros i Hi. rewrite Z.lor_spec, !mod_pow2_testbit, Z.shiftl_spec by lia.
  destruct (Z.ltb_spec i j).
  - rewrite (Z.testbit_neg_r _ (i - j)) by lia. rewrite (proj2 (Z.ltb_lt i (j + 7))) by lia.
    cbn [andb]. by rewrite orb_false_r.
  - rewrite mod_pow2_testbit, Z.shiftr_spec by lia. replace (i - j + j) with i by lia. cbn [andb orb].
    destruct (Z.ltb_spec (i - j) 7), (Z.ltb_spec i (j + 7)); (done || lia).
Qed.

Lemma land_127 a : Z.land (a mod 256) 127 = a mod 2 ^ 7.
Proof.
  change 127 with (Z.ones 7). change 256 with (2 ^ 8). rewrite Z.land_ones by lia.
  apply Z.bits_inj'. intros i Hi. rewrite !mod_pow2_testbit by lia.
  destruct (Z.ltb_spec i 7), (Z.ltb_spec i 8); (done || lia).
Qed.

(** The byte of a round. *)
Lemma varint_byte low (more : bool) : 0 <= low < 128 ->
  let byte := Z.lor low (if more then 128 else 0) in
  byte_ok byte /\ Z.land byte 127 = low /\ (Z.land byte 128 =? 0) = negb more.
Proof.
  intros Hlow. cbv zeta. assert (forallb (fun low => forallb (fun more : bool =>
    let byte := Z.lor low (if more then 128 else 0) in
    (0 <=? byte) && (byte <? 256) && (Z.land byte 127 =? low) && Bool.eqb (Z.land byte 128 =? 0) (negb more)) [true; false])
    (Z.of_nat <$> seq 0 128) = true) as Hall by by vm_compute.
  rewrite forallb_forall in Hall. specialize (Hall low). rewrite <- list_elem_of_In in Hall.
  pose proof (Hall ltac:(apply list_elem_of_fmap; exists (Z.to_nat low); rewrite elem_of_seq; split; lia)) as H.
  rewrite forallb_forall in H. specialize (H more). rewrite !andb_true_iff in H.
  destruct H as (((H1 & H2) & H3) & H4); [by destruct more; [left|right; left]|].
  apply Z.leb_le in H1. apply Z.ltb_lt in H2. apply Z.eqb_eq in H3. apply eqb_prop in H4.
  split; [red; lia|]. done.
Qed.

Lemma varint_loop_spec {E} num : 0 <= num <= u64_max -> forall n i binary, i + Z.of_nat n = 8 -> 0 <= i ->
  (n = 0%nat -> Z.shiftr num (i * 7) <> 0) ->
  exists bs, serialize_varint_loop (E := E) n (Z.shiftr num (i * 7)) binary = Ok (binary ++ bs) /\
    Forall byte_ok bs /\ (1 <= length bs <= S n)%nat /\
    forall rest, deserialize_varint_loop n i (num mod 2 ^ (i * 7)) (bs ++ rest) = Ok (num, rest).
Proof.
  intros Hnum n. induction n as [|n IH]; intros i binary Hi Hpos Hne; cbn [serialize_varint_loop deserialize_varint_loop].
  - assert (i = 8) as -> by lia. change (8 * 7) with 56 in *. specialize (Hne eq_refl).
    assert (0 <= Z.shiftr num 56 < 256) as Hr.
    { rewrite Z.shiftr_div_pow2 by lia. split; [apply Z.div_pos; lia|]. apply Z.div_lt_upper_bound; lia. }
    rewrite (proj2 (Z.eqb_neq _ _) Hne), (proj2 (Z.leb_le _ _)) by lia. cbn [negb assert_]. rewrite !bind_Ok.
    rewrite Z.mod_small by lia. exists [Z.shiftr num 56]. split; [done|]. split; [by constructor|]. split; [cbn; lia|].
    intros rest. cbn [app read_u8]. rewrite bind_Ok. unfold u64_shl, wrap64. change (56 mod 64) with 56. do 2 f_equal.
    rewrite (Z.mod_small (Z.shiftl _ _)).
    2: { rewrite Z.shiftl_mul_pow2 by lia. change (2 ^ 64) with (256 * 2 ^ 56). pose proof (pow2_pos 56 ltac:(lia)). nia. }
    apply Z.bits_inj'. intros k Hk. rewrite Z.lor_spec, mod_pow2_testbit, Z.shiftl_spec by lia.
    destruct (Z.ltb_spec k 56).
    + by rewrite (Z.testbit_neg_r _ (k - 56)), orb_false_r by lia.
    + rewrite Z.shiftr_spec by lia. by replace (k - 56 + 56) with k by lia.
  - set (x := Z.shiftr num (i * 7)). assert (0 <= x) as Hx by (apply Z.shiftr_nonneg; lia).
    assert (Z.shiftr x 7 = Z.shiftr num ((i + 1) * 7)) as Hsh.
    { unfold x. rewrite Z.shiftr_shiftr by lia. f_equal. lia. }
    rewrite land_127. pose proof (Z.mod_pos_bound x (2 ^ 7) ltac:(lia)) as Hlow.
    destruct (varint_byte (x mod 2 ^ 7) (negb (Z.shiftr x 7 =? 0)) Hlow) as (Hok & H1 & H2).
    assert (Z.lor (num mod 2 ^ (i * 7)) (u64_shl (x mod 2 ^ 7)%Z (i * 7)%Z) = num mod 2 ^ ((i + 1) * 7)) as Hstep.
    { replace ((i + 1) * 7) with (i * 7 + 7) by lia. rewrite <- varint_step by lia. fold x. f_equal.
      unfold u64_shl, wrap64. rewrite (Z.mod_small (i * 7)) by lia. apply Z.mod_small.
      rewrite Z.shiftl_mul_pow2 by lia. pose proof (pow2_pos (i * 7) ltac:(lia)). split; [apply Z.mul_nonneg_nonneg; lia|].
      apply Z.lt_le_trans with (2 ^ 7 * 2 ^ (i * 7)); [apply Z.mul_lt_mono_pos_r; lia|]. rewrite <- Z.pow_add_r by lia. apply Z.pow_le_mono_r; lia. }
    destruct (Z.eqb_spec (Z.shiftr x 7) 0) as [E0|E0]; cbn [negb] in *; cbn [Z.eqb].
    + exists [Z.lor (x mod 2 ^ 7) 0]. split; [done|]. split; [by constructor|]. split; [cbn; lia|].
      intros rest. cbn [app read_u8]. rewrite bind_Ok, H1, H2, Hstep. do 2 f_equal.
      rewrite Hsh, Z.shiftr_div_pow2 in E0 by lia. apply Z.mod_small. split; [lia|].
      pose proof (pow2_pos ((i + 1) * 7) ltac:(lia)). apply Z.div_small_iff in E0; lia.
    + destruct (IH (i + 1) (binary ++ [Z.lor (x mod 2 ^ 7) 128])) as (bs & E' & Hbs & Hlen & Hd); [lia|lia|by rewrite <- Hsh|].
      exists (Z.lor (x mod 2 ^ 7) 128 :: bs). rewrite Hsh, E', <- app_assoc. split; [done|]. split; [by constructor|].
      split; [cbn; lia|]. intros rest. cbn [app read_u8]. rewrite bind_Ok, H1, H2, Hstep. apply Hd.
Qed.

Lemma serialize_varint_spec {E} num binary : 0 <= num <= u64_max ->
  exists bs, serialize_u64_varint (E := E) num binary = Ok (binary ++ bs) /\ Forall byte_ok bs /\
    (1 <= length bs <= 9)%nat /\ forall rest, deserialize_u64_varint (bs ++ rest) = Ok (num, rest).
Proof.
  intros Hnum. destruct (varint_loop_spec (E := E) num Hnum 8 0 binary) as (bs & E' & Hbs & Hlen & Hd); [lia|lia|done|].
  rewrite Z.shiftr_0_r in E'. exists bs. split; [exact E'|]. split_and!; [done|lia|lia|].
  intros rest. rewrite <- (Hd rest). by rewrite Z.mod_1_r.
Qed.

(** ** Node keys *)

Section keys.
Context `{ByteOrderLaws}.

Definition key_wf (k : NodeKey.t) : Prop := 0 <= NodeKey.version k <= u64_max /\ path_wf (NodeKey.nibble_path k).

Lemma even_half n : Nat.even n = true -> (((n + 1) / 2) * 2 = n)%nat.
Proof.
  intros [j ->]%Nat.even_spec. replace (2 * j + 1)%nat with (1 + j * 2)%nat by lia. rewrite Nat.div_add by lia. cbn. lia.
Qed.

Lemma half_le n : (n <= ROOT_NIBBLE_HEIGHT)%nat -> ((n + 1) / 2 <= ROOT_NIBBLE_HEIGHT / 2)%nat.
Proof. intros Hn. change (ROOT_NIBBLE_HEIGHT / 2)%nat with ((ROOT_NIBBLE_HEIGHT + 1) / 2)%nat. apply Nat.Div0.div_le_mono. lia. Qed.

Lemma odd_half n : Nat.even n = false -> (((n + 1) / 2) * 2 = n + 1)%nat.
Proof.
  intros E. assert (Nat.odd n = true) as [j ->]%Nat.odd_spec by by rewrite <- Nat.negb_even, E.
  replace (2 * j + 1 + 1)%nat with ((j + 1) * 2)%nat by lia. by rewrite Nat.div_mul.
Qed.

Lemma key_decode_encode k : key_wf k -> exists bs, NodeKey.encode k = Ok bs /\ NodeKey.decode bs = Ok k.
Proof.
  destruct k as [v [n bytes]]. intros (Hv & Hn & Hl & Hb & Hodd). unfold NodeKey.encode.
  cbn [NodeKey.version NodeKey.nibble_path NibblePath.num_nibbles NibblePath.bytes] in *. eexists. split; [reflexivity|].
  unfold NodeKey.decode. rewrite <- app_assoc, read_exact_app by apply u64_be_length. rewrite bind_Ok.
  cbn [app read_u8]. rewrite bind_Ok, u64_be_inv by done. unfold ROOT_NIBBLE_HEIGHT, HashValue.LENGTH in *.
  rewrite Z.mod_small, Nat2Z.id by lia. rewrite (proj2 (Nat.leb_le _ _) Hn), Hl, Nat.eqb_refl. cbn [ensure]. rewrite !bind_Ok.
  destruct (Nat.even n) eqn:E.
  - unfold NibblePath.new. rewrite Hl, (proj2 (Nat.leb_le _ _) (half_le n Hn)). cbn [assert_].
    by rewrite !bind_Ok, even_half.
  - destruct Hodd as (b & Hlast & Hpad).
    { apply Nat.odd_spec. by rewrite <- Nat.negb_even, E. }
    unfold NibblePath.new_odd. rewrite Hlast, Hl, (proj2 (Nat.leb_le _ _) (half_le n Hn)). cbn [expect assert_].
    rewrite !bind_Ok, Hpad. cbn [Z.eqb ensure assert_].
    rewrite !bind_Ok, odd_half, Nat.add_sub by done. done.
Qed.

(** Only the encodings of well-formed keys are accepted, and nothing panics. *)
Lemma key_decode_spec val : Forall byte_ok val ->
  match NodeKey.decode val with
  | Ok k => key_wf k /\ NodeKey.encode k = Ok val
  | Err _ => True
  | Panic => False
  end.
Proof.
  intros Hval. unfold NodeKey.decode. pose proof (read_exact_inv 8 val) as Hr.
  destruct (read_exact 8 val) as [[vb reader]|e|]; [|done|done]. destruct Hr as [-> Hvb]. rewrite bind_Ok.
  apply Forall_app in Hval as [Hvbs Hreader]. destruct reader as [|num bytes]; [done|].
  cbn [read_u8]. rewrite bind_Ok. apply Forall_cons in Hreader as [Hnum Hbytes]. red in Hnum.
  destruct (Nat.leb_spec (Z.to_nat num) ROOT_NIBBLE_HEIGHT) as [Hle|]; [|done]. cbn [ensure]. rewrite bind_Ok.
  destruct (Nat.eqb_spec ((Z.to_nat num + 1) / 2) (length bytes)) as [Hl|]; [|done]. cbn [ensure]. rewrite bind_Ok.
  destruct (u64_of_be_inv vb Hvb Hvbs) as [Hinv Hrange].
  assert (forall p, NibblePath.num_nibbles p = Z.to_nat num -> NibblePath.bytes p = bytes ->
    NodeKey.encode (NodeKey.new (u64_of_be vb) p) = Ok (vb ++ num :: bytes)) as Henc.
  { intros p Hp1 Hp2. unfold NodeKey.encode. cbn [NodeKey.version NodeKey.nibble_path]. rewrite Hp1, Hp2, Hinv, Z2Nat.id, Z.mod_small by lia.
    by rewrite <- app_assoc. }
  destruct (Nat.even (Z.to_nat num)) eqn:E.
  - unfold NibblePath.new. rewrite <- Hl, (proj2 (Nat.leb_le _ _) (half_le _ Hle)), even_half by done. cbn [assert_].
    rewrite !bind_Ok. split; [|by apply Henc]. split; [done|]. split_and!; [done | done | done |]. cbn.
    intros Ho%Nat.odd_spec. rewrite <- Nat.negb_even, E in Ho. done.
  - destruct (last bytes) as [b|] eqn:Elast; cbn [expect].
    2: { apply last_None in Elast as ->. pose proof (odd_half _ E) as Ho. rewrite Hl in Ho. cbn [length] in Ho. lia. }
    rewrite bind_Ok. destruct (Z.eqb_spec (Z.land b 15) 0) as [Hpad|]; [|done]. cbn [ensure]. rewrite bind_Ok.
    unfold NibblePath.new_odd. rewrite Elast, <- Hl, (proj2 (Nat.leb_le _ _) (half_le _ Hle)). cbn [expect assert_].
    rewrite !bind_Ok, Hpad. cbn [Z.eqb assert_]. rewrite !bind_Ok. rewrite odd_half, Nat.add_sub by done. split; [|by apply Henc]. split; [done|].
    split_and!; [done | done | done |]. cbn. eauto.
Qed.

(** The derived order: by version, then by length, then by bytes. *)
Definition path_leb (p p' : NibblePath.t) : bool :=
  if (NibblePath.num_nibbles p =? NibblePath.num_nibbles p')%nat then bytes_leb (NibblePath.bytes p) (NibblePath.bytes p')
  else (NibblePath.num_nibbles p <? NibblePath.num_nibbles p')%nat.

Definition key_leb (k k' : NodeKey.t) : bool :=
  if NodeKey.version k =? NodeKey.version k' then path_leb (NodeKey.nibble_path k) (NodeKey.nibble_path k')
  else NodeKey.version k <? NodeKey.version k'.

Lemma key_encode_order k k' bs bs' : key_wf k -> key_wf k' -> NodeKey.encode k = Ok bs -> NodeKey.encode k' = Ok bs' ->
  bytes_leb bs bs' = key_leb k k'.
Proof.
  destruct k as [v [n bytes]], k' as [v' [n' bytes']]. intros (Hv & Hn & _) (Hv' & Hn' & _) [= <-] [= <-].
  cbn [NodeKey.version NodeKey.nibble_path NibblePath.num_nibbles NibblePath.bytes] in *. unfold ROOT_NIBBLE_HEIGHT, HashValue.LENGTH in *. rewrite !Z.mod_small, <- !app_assoc by lia.
  rewrite bytes_leb_app_eq by by rewrite !u64_be_length. unfold key_leb, path_leb. cbn -[Nat.eqb Nat.ltb Z.of_nat].
  destruct (Z.eqb_spec v v') as [->|Hne].
  - rewrite bool_decide_true by done. destruct (Nat.eqb_spec n n') as [->|Hne].
    + by rewrite Z.ltb_irrefl, Z.eqb_refl.
    + rewrite (proj2 (Z.eqb_neq (Z.of_nat n) (Z.of_nat n'))) by lia. cbn [andb]. rewrite orb_false_r.
      destruct (Z.ltb_spec (Z.of_nat n) (Z.of_nat n')), (Nat.ltb_spec n n'); (done || lia).
  - rewrite bool_decide_false.
    + rewrite u64_be_order by done. destruct (Z.leb_spec v v'), (Z.ltb_spec v v'); (done || lia).
    + intros E. apply Hne. by rewrite <- (u64_be_inv v Hv), E, u64_be_inv.
Qed.
End keys.

(** ** Bitmaps *)

Lemma u16_of_bits a : (forall j, 16 <= j -> Z.testbit a j = false) -> 0 <= a < 2 ^ 16.
Proof.
  intros Ha. assert (a mod 2 ^ 16 = a) as <-; [|apply Z.mod_pos_bound; lia].
  apply Z.bits_inj'. intros j Hj. rewrite mod_pow2_testbit by lia. destruct (Z.ltb_spec j 16); [done|]. by rewrite Ha by lia.
Qed.

Lemma ldiff_bit_0 t a : 0 <= t -> Z.testbit a t = true -> Z.ldiff (2 ^ t) a = 0.
Proof.
  intros Ht Ha. apply Z.bits_inj'. intros j Hj. rewrite Z.ldiff_spec, pow2_testbit, Z.bits_0 by done.
  destruct (Z.eqb_spec j t) as [->|]; [by rewrite Ha | done].
Qed.

Lemma clear_bit_sub e t : 0 <= e < 2 ^ 16 -> 0 <= t < 16 -> Z.testbit e t = true ->
  InternalNode.clear_bit e t = e - 2 ^ t.
Proof.
  intros He Ht Hb. unfold InternalNode.clear_bit. rewrite Z.shiftl_1_l, (Z.mod_small (2 ^ t)).
  2: { split; [apply Z.pow_nonneg; lia | apply Z.pow_lt_mono_r; lia]. }
  change (2 ^ 16 - 1) with (Z.ones 16). rewrite !Z.sub_nocarry_ldiff.
  2: by apply ldiff_bit_0; [lia|].
  2: { apply ldiff_bit_0; [lia|]. apply Z.ones_spec_low. lia. }
  apply Z.bits_inj'. intros j Hj. rewrite Z.land_spec, !Z.ldiff_spec.
  destruct (Z.ltb_spec j 16); [by rewrite Z.ones_spec_low by lia|]. by rewrite (testbit_small e 16 j) by lia.
Qed.

(** A round of the loops takes out the lowest bit. *)
Lemma lowest_bit e : 0 < e < 2 ^ 16 ->
  let t := trailing_zeros e in let e' := InternalNode.clear_bit e t in
  nibble_ok t /\ Z.testbit e t = true /\ 0 <= e' < 2 ^ 16 /\ count_ones e = 1 + count_ones e' /\
  forall j, Z.testbit e' j = Z.testbit e j && negb (j =? t).
Proof.
  intros He. destruct (odd_part_ex e ltac:(lia)) as (l & a & Hl & Ha & Ee). cbv zeta.
  assert (trailing_zeros e = l) as -> by (rewrite Ee; by apply trailing_zeros_spec).
  pose proof (pow2_pos l Hl) as Hp. assert (l < 16) as Hl16.
  { apply (Z.pow_lt_mono_r_iff 2); [lia|lia|]. nia. }
  assert (Z.testbit e l = true) as Hb.
  { rewrite Ee, Z.mul_comm. rewrite Z.mul_pow2_bits, Z.sub_diag by lia. apply Z.testbit_odd_0. }
  rewrite clear_bit_sub by (done || lia).
  assert (e - 2 ^ l = a * 2 ^ (l + 1)) as E' by (rewrite Z.pow_add_r by lia; lia).
  split; [split; lia|]. split; [done|]. split; [lia|]. split.
  - rewrite E', count_ones_shift by lia. rewrite Ee, Z.mul_comm, count_ones_shift by lia. by apply count_ones_odd.
  - intros j. destruct (Z.ltb_spec j 0); [by rewrite !Z.testbit_neg_r by lia|].
    rewrite Z.sub_nocarry_ldiff by by apply ldiff_bit_0. rewrite Z.ldiff_spec, pow2_testbit by lia. done.
Qed.

Lemma count_ones_pos e : 0 <= e -> Z.of_nat (Z.to_nat (count_ones e)) = count_ones e.
Proof. intros He. apply Z2Nat.id, count_ones_nonneg. Qed.

(** ** Internal nodes *)

(** A child whose fields fit in their types; 0 leaves stand for an unknown count. *)
Definition child_wf (c : Child.t) : Prop :=
  0 <= Child.version c <= u64_max /\ sized (Child.hash c) /\
  match Child.node_type c with NodeType.Internal n => 0 < n <= u64_max | _ => True end.

(** What is left of a child in the storage. *)
Definition persisted (leaf_counts : bool) (c : Child.t) : Child.t :=
  if leaf_counts then c
  else Child.new (Child.hash c) (Child.version c) (if Child.is_leaf c then NodeType.Leaf else NodeType.InternalLegacy).

Lemma map_err_slice {E} (f : HashValue.ParseError -> E) h rest : sized h ->
  map_err f (HashValue.from_slice (take HashValue.LENGTH (HashValue.hash h ++ rest))) = Ok h.
Proof.
  intros Hh. unfold HashValue.from_slice. rewrite <- Hh, take_app_length, bool_decide_true by done. by destruct h.
Qed.

Lemma leaf_bit_test l t : 0 <= t < 16 -> (Z.land l (Z.shiftl 1 t mod 2 ^ 16) =? 0) = negb (Z.testbit l t).
Proof.
  intros Ht. rewrite Z.shiftl_1_l, Z.mod_small by (split; [apply Z.pow_nonneg; lia | apply Z.pow_lt_mono_r; lia]).
  destruct (Z.testbit l t) eqn:E; cbn [negb].
  - apply Z.eqb_neq. intros H. apply (f_equal (fun x => Z.testbit x t)) in H.
    rewrite Z.land_spec, pow2_testbit, Z.eqb_refl, E, Z.bits_0 in H by lia. done.
  - apply Z.eqb_eq, Z.bits_inj'. intros j Hj. rewrite Z.land_spec, pow2_testbit, Z.bits_0 by lia.
    destruct (Z.eqb_spec j t) as [->|]; [by rewrite E | apply andb_false_r].
Qed.

(** One child and back. *)
Lemma child_decode_encode {E} c binary leaf_counts : child_wf c ->
  exists bs, InternalNode.serialize_child (E := E) c binary leaf_counts = Ok (binary ++ bs) /\
    forall rest, InternalNode.deserialize_child (Child.is_leaf c) leaf_counts (bs ++ rest) =
      Ok (persisted leaf_counts c, rest).
Proof.
  destruct c as [h v ty]. intros (Hv & Hh & Hn). cbn [Child.version Child.hash Child.node_type] in *.
  unfold InternalNode.serialize_child, InternalNode.deserialize_child.
  cbn [Child.version Child.hash Child.node_type].
  destruct (serialize_varint_spec (E := E) v binary Hv) as (vb & -> & _ & _ & Hvd). rewrite bind_Ok.
  assert (forall n, 0 <= n <= u64_max -> exists bs,
    serialize_u64_varint (E := E) n ((binary ++ vb) ++ HashValue.hash h) = Ok (binary ++ vb ++ HashValue.hash h ++ bs) /\
    forall rest, deserialize_u64_varint (bs ++ rest) = Ok (n, rest)) as Hcount.
  { intros n Hr. destruct (serialize_varint_spec (E := E) n ((binary ++ vb) ++ HashValue.hash h) Hr) as (bs & -> & _ & _ & Hd).
    exists bs. by rewrite <- !app_assoc. }
  assert (forall rest, (HashValue.LENGTH <=? length (HashValue.hash h ++ rest))%nat = true) as Hlen.
  { intros rest. apply Nat.leb_le. rewrite length_app, Hh. lia. }
  assert (forall bs, drop HashValue.LENGTH (HashValue.hash h ++ bs) = bs) as Hdrop.
  { intros bs. rewrite <- Hh. apply drop_app_length. }
  destruct ty as [| |n], leaf_counts; cbn [Child.is_leaf Child.node_type].
  3: destruct (Hcount 0 ltac:(lia)) as (cb & -> & Hc).
  5: destruct (Hcount n ltac:(lia)) as (cb & -> & Hc).
  1, 2, 4, 6: exists (vb ++ HashValue.hash h); rewrite <- !app_assoc; (split; [done|]); intros rest;
    rewrite <- app_assoc, Hvd, bind_Ok, Hlen; cbn [ensure]; rewrite bind_Ok, map_err_slice, bind_Ok, Hdrop, bind_Ok by done; done.
  all: exists (vb ++ HashValue.hash h ++ cb); (split; [done|]); intros rest;
    rewrite <- !app_assoc, Hvd, bind_Ok, Hlen; cbn [ensure]; rewrite bind_Ok, map_err_slice, bind_Ok, Hdrop, Hc, !bind_Ok by done;
    first [done | by rewrite (proj2 (Z.eqb_neq _ _)) by lia].
Qed.


(** The loops: the children whose bits are left. *)
Lemma loop_decode_encode {E} (i : InternalNode.t) leaf_counts l : forall n e binary, 0 <= e < 2 ^ 16 ->
  Z.of_nat n = count_ones e ->
  (forall j, Z.testbit e j = true -> exists c, InternalNode.children i !! j = Some c /\ child_wf c /\
     Z.testbit l j = Child.is_leaf c) ->
  exists bs, InternalNode.serialize_loop (E := E) n i e binary leaf_counts = Ok (binary ++ bs) /\
    forall rest acc, exists cs, InternalNode.deserialize_loop n e l leaf_counts (bs ++ rest) acc = Ok (0, cs) /\
      forall j, cs !! j = if Z.testbit e j then persisted leaf_counts <$> InternalNode.children i !! j else acc !! j.
Proof.
  induction n as [|n IH]; intros e binary He Hn Hc; cbn [InternalNode.serialize_loop InternalNode.deserialize_loop].
  - assert (e = 0) as -> by (apply count_ones_0; lia). exists []. rewrite app_nil_r. split; [done|].
    intros rest acc. exists acc. split; [done|]. intros j. by rewrite Z.bits_0.
  - assert (0 < e) as Hpos by (destruct (Z.eq_dec e 0) as [->|]; [cbn in Hn; lia | lia]).
    destruct (lowest_bit e ltac:(lia)) as (Ht & Hbit & He' & Hcount & Hbits).
    set (t := trailing_zeros e) in *. set (e' := InternalNode.clear_bit e t) in *.
    rewrite nibble_from_ok, bind_Ok by done. destruct (Hc t Hbit) as (c & Hct & Hwf & Hleaf). rewrite Hct. cbn [expect].
    rewrite bind_Ok. destruct (child_decode_encode (E := E) c binary leaf_counts Hwf) as (cb & -> & Hcd). rewrite bind_Ok.
    destruct (IH e' (binary ++ cb)) as (bs & -> & Hd); [done|lia| |].
    { intros j. rewrite Hbits. intros [Hj _]%andb_true_iff. by apply Hc. }
    exists (cb ++ bs). rewrite <- app_assoc. split; [done|]. intros rest acc.
    rewrite leaf_bit_test, negb_involutive, Hleaf, <- app_assoc, Hcd, bind_Ok by done.
    rewrite nibble_from_ok, bind_Ok by done. destruct (Hd rest (<[t := persisted leaf_counts c]> acc)) as (cs & -> & Hcs).
    exists cs. split; [done|]. intros j. rewrite Hcs, Hbits. unfold Children in *. destruct (Z.eqb_spec j t) as [->|Hne].
    + rewrite Hbit, Hct, lookup_insert_eq. done.
    + cbn [negb]. rewrite andb_true_r, lookup_insert_ne by done. done.
Qed.

(** The nodes that [new_migration] and decoding make. *)
Record node_wf (i : InternalNode.t) : Prop := {
  node_nonempty : InternalNode.children i <> ∅;
  node_not_leaf : forall n c, InternalNode.children i = {[n := c]} -> Child.is_leaf c = false;
  node_indices : indices_ok (InternalNode.children i);
  node_children : forall n c, InternalNode.children i !! n = Some c -> child_wf c;
  node_count : InternalNode.leaf_count i = InternalNode.sum_leaf_count (InternalNode.children i)
}.

(** What is left of an internal node in the storage: the leaf counts only with
    the migration. *)
Definition persisted_node (i : InternalNode.t) : InternalNode.t :=
  let mig := InternalNode.leaf_count_migration i in
  let cs := persisted mig <$> InternalNode.children i in
  InternalNode.mk cs (InternalNode.sum_leaf_count cs) mig.

Lemma new_impl_spec cs mig : match InternalNode.new_impl cs mig with
  | Ok i => i = InternalNode.mk cs (InternalNode.sum_leaf_count cs) mig /\ cs <> ∅ /\
      forall n c, cs = {[n := c]} -> Child.is_leaf c = false
  | Err _ => cs = ∅ \/ exists n c, cs = {[n := c]} /\ Child.is_leaf c = true
  | Panic => False
  end.
Proof.
  unfold InternalNode.new_impl, Children in *. case_bool_decide as E; [by left|]. cbn [negb ensure]. rewrite bind_Ok.
  destruct (Nat.eqb_spec (size cs) 1) as [H1|H1].
  - destruct (map_to_list cs) as [|[n c] [|]] eqn:El; try (rewrite <- length_map_to_list, El in H1; done).
    assert (cs = {[n := c]}) as -> by (apply map_to_list_inj; by rewrite El, map_to_list_singleton).
    cbn. destruct (Child.is_leaf c) eqn:Ec; cbn; [right; eauto|]. split_and!; [done..|].
    intros n' c' [-> ->]%map_singleton_inj. done.
  - rewrite bind_Ok. split_and!; [done..|]. intros n c ->. by rewrite map_size_singleton in H1.
Qed.

Lemma persisted_leaf mig c : Child.is_leaf (persisted mig c) = Child.is_leaf c.
Proof. destruct mig; [done|]. unfold persisted, Child.is_leaf. by destruct (Child.node_type c). Qed.

Lemma persisted_new_impl i : node_wf i ->
  InternalNode.new_impl (persisted (InternalNode.leaf_count_migration i) <$> InternalNode.children i)
    (InternalNode.leaf_count_migration i) = Ok (persisted_node i).
Proof.
  intros [H1 H2 _ _ _]. set (mig := InternalNode.leaf_count_migration i). set (cs := persisted mig <$> _).
  pose proof (new_impl_spec cs mig) as Hs. destruct (InternalNode.new_impl cs mig) as [i'|e|]; [by destruct Hs as [-> _]| |done].
  exfalso. destruct Hs as [Hs|(n & c & Hs & Hc)]; [by apply fmap_empty_inv in Hs|].
  apply map_fmap_singleton_inv in Hs as (c' & -> & Hi). rewrite persisted_leaf in Hc. rewrite (H2 n c' Hi) in Hc. done.
Qed.

Section nodes.
Context `{ByteOrderLaws}.

(** The bitmaps of a node as the loops need them. *)
Lemma node_bitmaps {E} i : node_wf i -> exists e l, InternalNode.generate_bitmaps (E := E) i = Ok (e, l) /\
  0 <= e < 2 ^ 16 /\ 0 <= l < 2 ^ 16 /\ e <> 0 /\ Z.land e l = l /\
  (forall j, Z.testbit e j = bool_decide (is_Some (InternalNode.children i !! j))) /\
  (forall j c, InternalNode.children i !! j = Some c -> Z.testbit l j = Child.is_leaf c).
Proof.
  intros Hwf. destruct (generate_bitmaps_spec (E := E) i (node_indices _ Hwf)) as ([e l] & E' & Hb).
  assert (forall j, Z.testbit e j = true <-> is_Some (InternalNode.children i !! j)) as B1.
  { intros j. destruct (Z.ltb_spec j 0) as [Hneg|Hj]; [|by apply (Hb 0 j); [|apply Z.shiftr_0_r]].
    rewrite Z.testbit_neg_r by done. split; [done|]. intros [c Hc]. apply (node_indices _ Hwf) in Hc. red in Hc. lia. }
  assert (forall j, Z.testbit l j = true <-> exists c, InternalNode.children i !! j = Some c /\ Child.is_leaf c = true) as B2.
  { intros j. destruct (Z.ltb_spec j 0) as [Hneg|Hj]; [|by apply (Hb 0 j); [|apply Z.shiftr_0_r]].
    rewrite Z.testbit_neg_r by done. split; [done|]. intros (c & Hc & _). apply (node_indices _ Hwf) in Hc. red in Hc. lia. }
  assert (forall j, is_Some (InternalNode.children i !! j) -> j < 16) as Hidx.
  { intros j [c Hc]. apply (node_indices _ Hwf) in Hc. red in Hc. lia. }
  exists e, l. split; [done|]. split; [|split; [|split; [|split; [|split]]]].
  1, 2: apply u16_of_bits; intros j Hj; apply not_true_is_false.
  - intros Hj'%B1%Hidx. lia.
  - intros (c & Hc & _)%B2. pose proof (Hidx j ltac:(eauto)). lia.
  - intros ->. apply (node_nonempty _ Hwf), map_empty. intros j. apply eq_None_not_Some. intros Hj%B1. by rewrite Z.bits_0 in Hj.
  - apply Z.bits_inj'. intros j Hj. rewrite Z.land_spec. destruct (Z.testbit l j) eqn:Ej; [|apply andb_false_r].
    apply B2 in Ej as (c & Hc & _). rewrite andb_true_r. apply B1. eauto.
  - intros j. apply eq_bool_prop_intro. rewrite bool_decide_spec, Is_true_true. apply B1.
  - intros j c Hc. apply eq_bool_prop_intro. rewrite !Is_true_true, B2. rewrite Hc. naive_solver.
Qed.

Lemma node_decode_encode {E} i binary : node_wf i ->
  let mig := InternalNode.leaf_count_migration i in
  exists bs, InternalNode.serialize (E := E) i binary mig = Ok (binary ++ bs) /\
    InternalNode.deserialize bs mig = Ok (persisted_node i).
Proof.
  intros Hwf mig. unfold InternalNode.serialize.
  destruct (node_bitmaps (E := E) i Hwf) as (e & l & -> & He & Hl & Hne & Hel & Hbits & Hleaves). rewrite bind_Ok.
  destruct (loop_decode_encode (E := E) i mig l (Z.to_nat (count_ones e)) e (binary ++ u16_to_le e ++ u16_to_le l))
    as (bs & -> & Hd); [done | by apply count_ones_pos; lia | |].
  { intros j. rewrite Hbits, bool_decide_eq_true. intros [c Hc]. exists c.
    split_and!; [done | by eapply node_children | by apply Hleaves]. }
  exists (u16_to_le e ++ u16_to_le l ++ bs). rewrite <- !app_assoc. split; [done|].
  unfold InternalNode.deserialize. rewrite read_exact_app, bind_Ok by apply u16_le_length.
  rewrite read_exact_app, bind_Ok by apply u16_le_length. rewrite !u16_le_inv by done.
  destruct (Hd [] ∅) as (cs & Ecs & Hcs). rewrite app_nil_r in Ecs.
  assert (cs = persisted mig <$> InternalNode.children i) as ->.
  { apply map_eq. intros j. unfold Children in *. rewrite Hcs, Hbits, lookup_fmap, lookup_empty.
    case_bool_decide as Hj; [done|]. apply eq_None_not_Some in Hj. by rewrite Hj. }
  rewrite (proj2 (Z.eqb_neq _ _) Hne). cbn [negb ensure]. rewrite bind_Ok, Hel, Z.eqb_refl. cbn [ensure].
  rewrite bind_Ok, Ecs, bind_Ok. cbn [Z.eqb assert_]. rewrite bind_Ok. by apply persisted_new_impl.
Qed.

(** ** Decoding of arbitrary bytes *)

Lemma lor_u64 a b : 0 <= a <= u64_max -> 0 <= b <= u64_max -> 0 <= Z.lor a b <= u64_max.
Proof.
  intros Ha Hb. assert (Z.lor a b = Z.lor a b mod 2 ^ 64) as ->.
  { apply Z.bits_inj'. intros j Hj. rewrite mod_pow2_testbit by lia. destruct (Z.ltb_spec j 64); [done|].
    rewrite Z.lor_spec, !(testbit_small _ 64) by lia. done. }
  pose proof (Z.mod_pos_bound (Z.lor a b) (2 ^ 64) ltac:(lia)). lia.
Qed.

Lemma u64_shl_range a n : 0 <= u64_shl a n <= u64_max.
Proof. unfold u64_shl, wrap64. pose proof (Z.mod_pos_bound (Z.shiftl a (n mod 64)) (2 ^ 64) ltac:(lia)). lia. Qed.

Lemma deserialize_varint_total n : forall i num reader, 0 <= num <= u64_max -> Forall byte_ok reader ->
  match deserialize_varint_loop n i num reader with
  | Ok (x, reader) => 0 <= x <= u64_max /\ Forall byte_ok reader
  | Err _ => True
  | Panic => False
  end.
Proof.
  induction n as [|n IH]; intros i num [|b reader] Hnum Hr; cbn [deserialize_varint_loop read_u8]; try done;
    rewrite bind_Ok; apply Forall_cons in Hr as [_ Hr].
  - split; [|done]. apply lor_u64; [done | apply u64_shl_range].
  - assert (0 <= Z.lor num (u64_shl (Z.land b 127) (i * 7)%Z) <= u64_max) as Hn by (apply lor_u64; [done | apply u64_shl_range]).
    destruct (Z.land b 128 =? 0); [done|]. by apply IH.
Qed.

Lemma deserialize_child_total leaf mig reader : Forall byte_ok reader ->
  match InternalNode.deserialize_child leaf mig reader with
  | Ok (c, reader) => child_wf c /\ Forall byte_ok reader
  | Err _ => True
  | Panic => False
  end.
Proof.
  intros Hr. unfold InternalNode.deserialize_child, deserialize_u64_varint.
  pose proof (deserialize_varint_total 8 0 0 reader ltac:(lia) Hr) as Hv.
  destruct (deserialize_varint_loop 8 0 0 reader) as [[v r1]|e|]; [|done|done]. destruct Hv as [Hv Hr1]. rewrite bind_Ok.
  destruct (Nat.leb_spec HashValue.LENGTH (length r1)) as [Hlen|]; [|done]. cbn [ensure]. rewrite bind_Ok.
  unfold HashValue.from_slice. rewrite bool_decide_true by (rewrite length_take; lia). cbn [map_err]. rewrite bind_Ok.
  assert (sized (HashValue.mk (take HashValue.LENGTH r1))) as Hs by (unfold sized; cbn [HashValue.hash]; rewrite length_take; lia).
  assert (Forall byte_ok (drop HashValue.LENGTH r1)) as Hr2 by by apply Forall_drop.
  destruct leaf; [by rewrite bind_Ok|]. destruct mig; [|by rewrite bind_Ok].
  pose proof (deserialize_varint_total 8 0 0 _ ltac:(lia) Hr2) as Hc.
  destruct (deserialize_varint_loop 8 0 0 (drop HashValue.LENGTH r1)) as [[n r3]|e|]; [|done|done].
  destruct Hc as [Hc Hr3]. rewrite !bind_Ok. split; [|done]. split; [done|]. split; [done|]. cbn [Child.node_type].
  destruct (Z.eqb_spec n 0); [done|lia].
Qed.

Lemma deserialize_loop_total l mig : forall n e reader cs, 0 <= e < 2 ^ 16 -> Z.of_nat n = count_ones e ->
  Forall byte_ok reader -> (forall j c, cs !! j = Some c -> nibble_ok j /\ child_wf c) ->
  match InternalNode.deserialize_loop n e l mig reader cs with
  | Ok (e', cs') => e' = 0 /\ forall j c, cs' !! j = Some c -> nibble_ok j /\ child_wf c
  | Err _ => True
  | Panic => False
  end.
Proof.
  induction n as [|n IH]; intros e reader cs He Hn Hr Hcs; cbn [InternalNode.deserialize_loop].
  - split; [apply count_ones_0; lia | done].
  - assert (0 < e) as Hpos by (destruct (Z.eq_dec e 0) as [->|]; [cbn in Hn; lia | lia]).
    destruct (lowest_bit e ltac:(lia)) as (Ht & _ & He' & Hcount & _).
    pose proof (deserialize_child_total (negb (Z.land l (Z.shiftl 1 (trailing_zeros e) mod 2 ^ 16) =? 0)) mig reader Hr) as Hc.
    destruct (InternalNode.deserialize_child _ mig reader) as [[c r1]|err|]; [|done|done]. destruct Hc as [Hc Hr1].
    rewrite bind_Ok, nibble_from_ok, bind_Ok by done. apply IH; [done|lia|done|].
    intros j c' [[<- <-]|[_ Hj]]%lookup_insert_Some; [done|by apply Hcs].
Qed.

Lemma deserialize_total data mig : Forall byte_ok data ->
  match InternalNode.deserialize data mig with
  | Ok i => node_wf i /\ InternalNode.leaf_count_migration i = mig
  | Err _ => True
  | Panic => False
  end.
Proof.
  intros Hd. unfold InternalNode.deserialize. pose proof (read_exact_inv 2 data) as H1.
  destruct (read_exact 2 data) as [[b1 r1]|e|]; [|done|done]. destruct H1 as [-> L1]. apply Forall_app in Hd as [Hb1 Hr1].
  rewrite bind_Ok. pose proof (read_exact_inv 2 r1) as H2. destruct (read_exact 2 r1) as [[b2 r2]|e|]; [|done|done].
  destruct H2 as [-> L2]. apply Forall_app in Hr1 as [Hb2 Hr2]. rewrite bind_Ok.
  destruct (negb (u16_of_le b1 =? 0)); [|done]. cbn [ensure]. rewrite bind_Ok.
  destruct (Z.land (u16_of_le b1) (u16_of_le b2) =? u16_of_le b2); [|done]. cbn [ensure]. rewrite bind_Ok.
  pose proof (u16_of_le_range b1 L1 Hb1) as He.
  pose proof (deserialize_loop_total (u16_of_le b2) mig (Z.to_nat (count_ones (u16_of_le b1))) (u16_of_le b1) r2 ∅ He
    (count_ones_pos _ (proj1 He)) Hr2 ltac:(intros ? ? ?%lookup_empty_Some; done)) as Hl.
  destruct (InternalNode.deserialize_loop _ _ _ mig r2 ∅) as [[e' cs]|err|]; [|done|done]. destruct Hl as [-> Hcs].
  rewrite bind_Ok. cbn [Z.eqb assert_]. rewrite bind_Ok. pose proof (new_impl_spec cs mig) as Hi.
  destruct (InternalNode.new_impl cs mig) as [i|err|]; [|done|done]. destruct Hi as (-> & Hne & Hleaf).
  split; [|done]. split; cbn [InternalNode.children]; [done|done| | |done]; intros j c Hj; by apply Hcs in Hj as [].
Qed.

(** ** The hash of what is stored *)

Lemma merkle_hash_ext {E} sha3_256 i i' : (forall n, Child.hash <$> InternalNode.children i' !! n = Child.hash <$> InternalNode.children i !! n) ->
  forall fuel start width bitmaps, InternalNode.merkle_hash (E := E) sha3_256 fuel i' start width bitmaps =
    InternalNode.merkle_hash sha3_256 fuel i start width bitmaps.
Proof.
  intros Hc fuel. induction fuel as [|fuel IH]; intros start width bitmaps; cbn [InternalNode.merkle_hash];
    destruct (InternalNode.range_bitmaps start width bitmaps) as [[e l]|err|]; try done; rewrite !bind_Ok;
    (destruct (e =? 0); [done|]);
    destruct ((width =? 1) || _); try done.
  1, 2: destruct (Nibble_from _) as [n|err|]; try done; rewrite !bind_Ok; specialize (Hc n);
    destruct (InternalNode.children i' !! n), (InternalNode.children i !! n); cbn in *; congruence.
  by rewrite !IH.
Qed.

(** Only the hashes of the children and which of them are leaves matter. *)
Lemma internal_hash_ext {E} sha3_256 i f : indices_ok (InternalNode.children i) ->
  (forall c, Child.hash (f c) = Child.hash c /\ Child.is_leaf (f c) = Child.is_leaf c) ->
  forall lc mig, InternalNode.hash (E := E) sha3_256 (InternalNode.mk (f <$> InternalNode.children i) lc mig) =
    InternalNode.hash sha3_256 i.
Proof.
  intros Hi Hf lc mig. unfold InternalNode.hash. set (i' := InternalNode.mk _ _ _).
  assert (forall j, InternalNode.children i' !! j = f <$> InternalNode.children i !! j) as Hl by (intros; apply lookup_fmap).
  assert (indices_ok (InternalNode.children i')) as Hi'.
  { intros n c. rewrite Hl. intros (c0 & Hc & _)%fmap_Some. by eapply Hi. }
  destruct (generate_bitmaps_spec (E := E) i Hi) as ([e l] & -> & Hb).
  destruct (generate_bitmaps_spec (E := E) i' Hi') as ([e' l'] & -> & Hb'). rewrite !bind_Ok.
  assert ((e', l') = (e, l)) as ->.
  { f_equal; apply Z.bits_inj'; intros j Hj; apply eq_bool_prop_intro; rewrite !Is_true_true;
      destruct (Hb 0 j j Hj (Z.shiftr_0_r j)) as [B1 B2], (Hb' 0 j j Hj (Z.shiftr_0_r j)) as [B1' B2']; cbn [fst snd] in *.
    - rewrite B1', B1, Hl. apply fmap_is_Some.
    - rewrite B2', B2, Hl. destruct (InternalNode.children i !! j) as [c|]; cbn; [|naive_solver].
      destruct (Hf c) as [_ Hc]. split; intros (c0 & [= <-] & Hc0); eexists; (split; [done|]); congruence. }
  apply merkle_hash_ext. intros n. rewrite Hl. destruct (InternalNode.children i !! n) as [c|]; [|done].
  cbn. f_equal. by destruct (Hf c).
Qed.

Lemma persisted_hash {E} sha3_256 i : node_wf i ->
  InternalNode.hash (E := E) sha3_256 (persisted_node i) = InternalNode.hash sha3_256 i.
Proof.
  intros Hwf. apply internal_hash_ext; [by apply node_indices|]. intros c. rewrite persisted_leaf. split; [|done].
  by destruct (InternalNode.leaf_count_migration i).
Qed.

(** ** Nodes *)

Context {V : Type} `{Bcs V}.

(** What the crate [bcs] documents: decoding inverts encoding, and decoding of any
    bytes returns. *)
Context (bcs_round_trip : forall (l : LeafNode.t V) bs, to_bytes l = Ok bs -> from_bytes bs = Ok l).
Context (bcs_total : forall bs, from_bytes bs <> (Panic : outcome error (LeafNode.t V))).

Definition node_ok (node : Node.t V) : Prop :=
  match node with
  | Node.Null => True
  | Node.Internal i => node_wf i
  | Node.Leaf l => exists bs, to_bytes l = Ok bs
  end.

(** What is read back after a node was stored. *)
Definition stored_form (node : Node.t V) : Node.t V :=
  match node with Node.Internal i => Node.Internal (persisted_node i) | _ => node end.

(** C31: Nodes survive storage. [decode] returns what [encode] wrote; without the
    migration of leaf counts, internal nodes come back without them; and in both
    cases the node has the same hash. *)
Theorem node_round_trip {E} sha3_256 node : node_ok node ->
  exists bs, Node.encode node = Ok bs /\ Node.decode bs = Ok (stored_form node) /\
    Node.hash (E := E) sha3_256 (stored_form node) = Node.hash sha3_256 node /\
    match node with
    | Node.Internal i => InternalNode.leaf_count_migration i = true -> stored_form node = node
    | _ => stored_form node = node
    end.
Proof.
  destruct node as [|i|l]; cbn [node_ok stored_form]; intros Hn.
  - by exists [0].
  - destruct (node_decode_encode (E := error) i [NodeTag.as_u8 (if InternalNode.leaf_count_migration i then NodeTag.Internal
      else NodeTag.InternalLegacy)] Hn) as (bs & E1 & E2). eexists. split; [exact E1|]. split_and!.
    + cbn [app Node.decode]. destruct (InternalNode.leaf_count_migration i); cbn; by rewrite E2.
    + by apply persisted_hash.
    + intros Hm. f_equal. unfold persisted_node. rewrite Hm. cbn [persisted]. rewrite map_fmap_id.
      rewrite <- (node_count _ Hn). destruct i. cbn in *. by subst.
  - destruct Hn as [bs Hbs]. exists (2 :: bs). cbn. rewrite Hbs. split; [done|]. by rewrite (bcs_round_trip _ _ Hbs).
Qed.

(** C32: Decoding is safe and typed. On arbitrary bytes [decode] returns an error or
    a well-formed node: an internal node has children, not a lone leaf, at indices
    below 16, with 32-byte hashes, versions and leaf counts that fit in a [u64],
    and the sum of the leaf counts. It never panics. *)
Theorem node_decode_typed val : Forall byte_ok val ->
  match Node.decode (V := V) val with
  | Ok (Node.Internal i) => node_wf i
  | Ok _ => True
  | Err _ => True
  | Panic => False
  end.
Proof.
  destruct val as [|tag val]; [done|]. intros [_ Hv]%Forall_cons. cbn [Node.decode].
  destruct (NodeTag.from_u8 tag) as [[]|]; [done| | | |done].
  - pose proof (deserialize_total val false Hv) as Ht. destruct (InternalNode.deserialize val false); [by destruct Ht|done|done].
  - pose proof (bcs_total val) as Ht. by destruct (from_bytes val).
  - pose proof (deserialize_total val true Hv) as Ht. destruct (InternalNode.deserialize val true); [by destruct Ht|done|done].
Qed.

(** Keys of nodes survive storage, in their order. [decode] inverts [encode];
    the byte order of encoded keys, by which the storage iterates, is the derived
    order of the keys; and on arbitrary bytes [decode] returns an error or the
    well-formed key whose encoding they are. *)
Theorem node_key_codec :
  (forall k, key_wf k -> exists bs, NodeKey.encode k = Ok bs /\ NodeKey.decode bs = Ok k) /\
  (forall k k' bs bs', key_wf k -> key_wf k' -> NodeKey.encode k = Ok bs -> NodeKey.encode k' = Ok bs' ->
     bytes_leb bs bs' = key_leb k k') /\
  (forall val, Forall byte_ok val ->
     match NodeKey.decode val with
     | Ok k => key_wf k /\ NodeKey.encode k = Ok val
     | Err _ => True
     | Panic => False
     end).
Proof. split; [exact key_decode_encode | split; [exact key_encode_order | exact key_decode_spec]]. Qed.
End nodes.
