(* ===== verification/JellyfishExample.v ===== *)
(** * A concrete tree

    A storage that is a map of nodes, values that are numbers, and the big- and
    little-endian bytes of numbers: the theorems on the Jellyfish Merkle tree hold
    for them, and the definitions run on them. *)
From stdpp Require Import prelude gmap strings.
From Stdlib Require Import ZArith Lia.
From S2P Require Import Prelude Bits HashValues SparseMerkle Nibbles JellyfishNodes JellyfishSpec.
From S2P Require Import JellyfishHash TreeCache Jellyfish JellyfishRep JellyfishCache JellyfishPut.
From S2P Require Import JellyfishUpdate JellyfishRanges JellyfishBatch JellyfishTheorems JellyfishCodec.
From S2P Require Import JellyfishIterator JellyfishTraversal.

(** ** The bytes of numbers *)

Fixpoint to_le (n : nat) (x : Z) : list Z :=
  match n with O => [] | S n => x mod 256 :: to_le n (x / 256) end.

Fixpoint of_le (bs : list Z) : Z :=
  match bs with [] => 0 | b :: bs => b + 256 * of_le bs end.

Lemma to_le_length n x : length (to_le n x) = n.
Proof. revert x; induction n as [|n IH]; intros x; cbn [to_le length]; [done|]. by rewrite IH. Qed.

Lemma of_to_le n : forall x, 0 <= x < 256 ^ Z.of_nat n -> of_le (to_le n x) = x.
Proof.
  induction n as [|n IH]; intros x Hx; cbn [to_le of_le]; [cbn in Hx; lia|].
  rewrite Nat2Z.inj_succ, Z.pow_succ_r in Hx by lia. rewrite IH.
  - pose proof (Z.div_mod x 256 ltac:(lia)). lia.
  - split; [apply Z.div_pos; lia | apply Z.div_lt_upper_bound; lia].
Qed.

Lemma of_le_range bs : Forall byte_ok bs -> 0 <= of_le bs < 256 ^ Z.of_nat (length bs).
Proof.
  induction 1 as [|b bs Hb _ IH]; cbn [of_le length]; [cbn; lia|]. red in Hb.
  rewrite Nat2Z.inj_succ, Z.pow_succ_r by lia. lia.
Qed.

Lemma to_of_le bs : Forall byte_ok bs -> to_le (length bs) (of_le bs) = bs.
Proof.
  induction 1 as [|b bs Hb _ IH]; cbn [of_le length to_le]; [done|]. red in Hb.
  replace (b + 256 * of_le bs) with (b + of_le bs * 256) by lia.
  rewrite Z.mod_add, Z.div_add, Z.mod_small, Z.div_small by lia. by rewrite Z.add_0_l, IH.
Qed.

Lemma to_le_inj n x y : 0 <= x < 256 ^ Z.of_nat n -> 0 <= y < 256 ^ Z.of_nat n -> to_le n x = to_le n y -> x = y.
Proof. intros Hx Hy E. by rewrite <- (of_to_le n x Hx), E, of_to_le. Qed.

Lemma be_order n : forall x y, 0 <= x < 256 ^ Z.of_nat n -> 0 <= y < 256 ^ Z.of_nat n ->
  bytes_leb (rev (to_le n x)) (rev (to_le n y)) = (x <=? y).
Proof.
  induction n as [|n IH]; intros x y Hx Hy; [cbn in *; assert (x = 0) as -> by lia; by assert (y = 0) as -> by lia|].
  rewrite Nat2Z.inj_succ, Z.pow_succ_r in Hx, Hy by lia. cbn [to_le rev].
  rewrite bytes_leb_app_eq by by rewrite !length_rev, !to_le_length.
  pose proof (Z.div_mod x 256 ltac:(lia)) as Ex. pose proof (Z.div_mod y 256 ltac:(lia)) as Ey.
  pose proof (Z.mod_pos_bound x 256 ltac:(lia)). pose proof (Z.mod_pos_bound y 256 ltac:(lia)).
  assert (0 <= x / 256 < 256 ^ Z.of_nat n) as Hx' by (split; [apply Z.div_pos; lia | apply Z.div_lt_upper_bound; lia]).
  assert (0 <= y / 256 < 256 ^ Z.of_nat n) as Hy' by (split; [apply Z.div_pos; lia | apply Z.div_lt_upper_bound; lia]).
  case_bool_decide as E.
  - apply rev_inj, to_le_inj in E; [|done..]. cbn [bytes_leb]. rewrite andb_true_r.
    destruct (Z.ltb_spec (x mod 256) (y mod 256)), (Z.eqb_spec (x mod 256) (y mod 256)), (Z.leb_spec x y); (done || lia).
  - rewrite IH by done. assert (x / 256 <> y / 256) by (intros E'; by rewrite E' in E).
    destruct (Z.leb_spec (x / 256) (y / 256)), (Z.leb_spec x y); (done || lia).
Qed.

#[global] Instance byte_order : ByteOrder := {
  u64_to_be x := rev (to_le 8 x);
  u64_of_be bs := of_le (rev bs);
  u16_to_le x := to_le 2 x;
  u16_of_le bs := of_le bs
}.

#[global] Instance byte_order_laws : ByteOrderLaws.
Proof.
  split; cbn [u64_to_be u64_of_be u16_to_le u16_of_le byte_order].
  - intros x. by rewrite length_rev, to_le_length.
  - intros x Hx. rewrite rev_involutive. apply of_to_le. cbn. lia.
  - intros bs Hl Hb. assert (Forall byte_ok (rev bs)) as Hr by by apply Forall_rev.
    pose proof (of_le_range _ Hr) as H1. pose proof (to_of_le _ Hr) as H2. rewrite length_rev, Hl in H1, H2.
    rewrite H2, rev_involutive. split; [done|]. cbn in H1. lia.
  - intros x y Hx Hy. apply be_order; cbn; lia.
  - intros x. apply to_le_length.
  - intros x Hx. apply of_to_le. cbn. lia.
  - intros bs Hl Hb. pose proof (of_le_range _ Hb) as H1. rewrite Hl in H1. cbn in H1. lia.
Qed.

(** ** The storage and the values *)

#[global] Instance number_value : Value Z := { value_hash v := toy_sha3 [v] }.

#[global] Instance number_bcs : Bcs Z := {
  to_bytes l :=
    if bool_decide (length (HashValue.hash (LeafNode.account_key l)) = HashValue.LENGTH /\
                    length (HashValue.hash (LeafNode.value_hash l)) = HashValue.LENGTH)
    then Ok (HashValue.hash (LeafNode.account_key l) ++ HashValue.hash (LeafNode.value_hash l) ++ [LeafNode.value l])
    else Err (Message "length");
  from_bytes bs :=
    match drop (HashValue.LENGTH + HashValue.LENGTH) bs with
    | [v] => Ok (LeafNode.mk (HashValue.mk (take HashValue.LENGTH bs))
                   (HashValue.mk (take HashValue.LENGTH (drop HashValue.LENGTH bs))) v)
    | _ => Err (Message "remaining input")
    end
}.

Lemma number_bcs_round_trip l bs : to_bytes l = Ok bs -> from_bytes (V := Z) bs = Ok l.
Proof.
  destruct l as [[k] [h] v]. cbn [to_bytes from_bytes number_bcs LeafNode.account_key LeafNode.value_hash LeafNode.value HashValue.hash].
  case_bool_decide as E; [|done]. destruct E as [Ek Eh]. intros [= <-]. rewrite <- drop_drop, <- Ek, drop_app_length.
  rewrite Ek, <- Eh, drop_app_length, take_app_length. by rewrite Eh, <- Ek, take_app_length.
Qed.

Lemma number_bcs_total bs : from_bytes bs <> (Panic : outcome error (LeafNode.t Z)).
Proof. cbn [from_bytes number_bcs]. by destruct (drop _ bs) as [|v []]. Qed.

Abbreviation store := (gmap NodeKey.t (Node.t Z)).

#[global] Instance store_reader : TreeReader store Z := { get_node_option r k := Ok (r !! k) }.

#[global] Instance store_nodes : StoredNodes store Z := { stored r := r; get_node_option_stored r k := eq_refl }.

Lemma number_hash_sized (v : Z) : sized (value_hash v).
Proof. apply toy_sha3_sized. Qed.

(** Two versions: two keys, one of them updated next to two new ones. *)
Definition sample_sets : list (list (HashValue.t * Z)) :=
  [[(key_of 0, 1); (key_of 64, 2)];
   [(key_of 128, 3); (key_of 64, 5); (HashValue.mk (0 :: 1 :: replicate 30 0), 9)]].

Definition empty_tree : JellyfishMerkleTree.t store := JellyfishMerkleTree.new_migration ∅ true.

Lemma sample_pre : update_pre toy_sha3 True empty_tree 0 ∅ sample_sets.
Proof.
  split; [done | done | | left; done | ].
  - assert (forall b, 0 <= b < 256 -> HashValue.wf (key_of b)) as Hkey.
    { intros b Hb. split; [done|]. cbn. repeat constructor; unfold byte_ok; lia. }
    repeat constructor; try done; cbn [fst]; try (apply Hkey; lia).
    all: cbn; repeat constructor; unfold byte_ok; lia.
  - intros k [x Hx]. cbn in Hx. by apply lookup_empty_Some in Hx.
Qed.

Lemma put_value_sets_refines_witness : exists roots batch,
  JellyfishMerkleTree.put_value_sets toy_sha3 empty_tree sample_sets 0 = Ok (roots, batch) /\
  update_serves toy_sha3 True empty_tree 0 ∅ sample_sets roots batch.
Proof. exact (put_value_sets_refines toy_sha3 True number_hash_sized empty_tree 0 ∅ sample_sets sample_pre). Defined.

Lemma batch_put_equivalent_witness : exists roots batch batch',
  JellyfishMerkleTree.put_value_sets toy_sha3 empty_tree sample_sets 0 = Ok (roots, batch) /\
  JellyfishMerkleTree.batch_put_value_sets toy_sha3 empty_tree sample_sets None 0 = Ok (roots, batch') /\
  update_serves toy_sha3 True empty_tree 0 ∅ sample_sets roots batch'.
Proof. exact (batch_put_equivalent toy_sha3 True number_hash_sized empty_tree 0 ∅ sample_sets sample_pre). Defined.

Lemma pruning_safe_witness : exists roots batch,
  JellyfishMerkleTree.put_value_sets toy_sha3 empty_tree sample_sets 0 = Ok (roots, batch) /\
  forall self' : JellyfishMerkleTree.t store,
    (forall k node, (TreeUpdateBatch.node_batch batch ∪ ∅) !! k = Some node ->
       (forall s, StaleNodeIndex.mk s k ∈ TreeUpdateBatch.stale_node_index_batch batch -> 1 < s) ->
       JellyfishMerkleTree.reader self' !! k = Some node) ->
    forall j m root, maps_after ∅ sample_sets !! j = Some m -> roots !! j = Some root ->
      1 <= 0 + Z.of_nat j -> serves toy_sha3 self' (0 + Z.of_nat j) root m.
Proof. exact (pruning_safe toy_sha3 True number_hash_sized empty_tree 0 ∅ sample_sets 1 sample_pre). Defined.

(** A storage with one version of one key. *)
Definition one_leaf : JellyfishMerkleTree.t store :=
  JellyfishMerkleTree.new_migration {[key_at 0 [] := Node.new_leaf (key_of 64) 2]} true.

Lemma key_64_wf : HashValue.wf (key_of 64).
Proof. split; [done|]. cbn. repeat constructor; unfold byte_ok; lia. Qed.

Lemma one_leaf_stored : stored_tree toy_sha3 True (JellyfishMerkleTree.reader one_leaf) 0 {[key_of 64 := 2]}.
Proof.
  right. change ROOT_NIBBLE_HEIGHT with (S 63). cbn [represents]. split; [|split; [done|]].
  - intros k v [<- <-]%lookup_singleton_Some. split; [apply key_64_wf | apply prefix_nil].
  - cbn [stored store_nodes one_leaf JellyfishMerkleTree.reader]. rewrite lookup_singleton_eq. done.
Qed.

Lemma get_range_proof_verifies_witness : exists proof range_proof,
  JellyfishMerkleTree.get_with_proof toy_sha3 one_leaf (key_of 64) 0 = Ok (Some 2, proof) /\
  JellyfishMerkleTree.get_range_proof toy_sha3 one_leaf (key_of 64) 0 = Ok range_proof /\
  SparseMerkleRangeProof.verify toy_sha3 range_proof
    (root_hash toy_sha3 (canon HashValue.LENGTH_IN_BITS {[key_of 64 := 2]}))
    (SparseMerkleLeafNode.new (key_of 64) (toy_sha3 [2])) (siblings_on true proof (key_of 64)) = Ok tt.
Proof.
  pose proof (get_range_proof_verifies toy_sha3 True number_hash_sized one_leaf (key_of 64) 0 {[key_of 64 := 2]}
    one_leaf_stored key_64_wf) as H.
  rewrite lookup_singleton_eq in H. exact H.
Defined.

Lemma get_leaf_count_spec_witness : JellyfishMerkleTree.get_leaf_count one_leaf 0 = Ok (Some 1).
Proof. exact (get_leaf_count_spec toy_sha3 one_leaf 0 {[key_of 64 := 2]} one_leaf_stored). Defined.

Lemma iterator_exact_witness : exists it,
  JellyfishMerkleIterator.new (JellyfishMerkleTree.reader one_leaf) 0 (key_of 3) = Ok it /\
  forall n, (JellyfishMerkleIterator.items n it).2 = Ok (take n [(key_of 64, 2)]).
Proof.
  destruct (proj1 (iterator_exact toy_sha3 True (JellyfishMerkleTree.reader one_leaf) 0 {[key_of 64 := 2]} one_leaf_stored)
    (key_of 3)) as (it & E & Hn).
  - split; [done|]. cbn. repeat constructor; unfold byte_ok; lia.
  - exists it. split; [exact E|]. intros n. rewrite Hn, starting_at_singleton. change (bytes_leb _ _) with true. cbn iota. by rewrite entries_singleton.
Defined.

(** An internal node with a leaf and a subtree of 300 leaves. *)
Definition sample_node : InternalNode.t :=
  let children := {[2 := Child.new (toy_sha3 [1]) 7 NodeType.Leaf; 15 := Child.new (toy_sha3 [2]) 70000 (NodeType.Internal 300)]} in
  InternalNode.mk children (InternalNode.sum_leaf_count children) true.

Lemma sample_node_wf : node_wf sample_node.
Proof.
  assert (forall n c, InternalNode.children sample_node !! n = Some c -> nibble_ok n /\ child_wf c) as Hc.
  { intros n c. cbn [InternalNode.children sample_node]. intros [[<- <-]|[_ [<- <-]%lookup_singleton_Some]]%lookup_insert_Some;
      (split; [unfold nibble_ok; lia|]); (split; [done|]); (split; [apply toy_sha3_sized|]); cbn; lia. }
  split; [done| |by intros n c [? _]%Hc|by intros n c [_ ?]%Hc|done].
  intros n c E. unfold Children in *. apply (f_equal size) in E. rewrite map_size_singleton in E. by vm_compute in E.
Qed.

Lemma node_round_trip_witness : exists bs, Node.encode (V := Z) (Node.Internal sample_node) = Ok bs /\
  Node.decode bs = Ok (Node.Internal (V := Z) sample_node).
Proof.
  destruct (node_round_trip number_bcs_round_trip (E := error) toy_sha3 (Node.Internal (V := Z) sample_node) sample_node_wf)
    as (bs & E1 & E2 & _ & E3).
  exists bs. split; [exact E1|]. rewrite (E3 eq_refl) in E2. exact E2.
Defined.

(** The bytes of a node, which decode to it, and bytes that are no node. *)
Definition sample_bytes : list Z :=
  match Node.encode (V := Z) (Node.Internal sample_node) with Ok bs => bs | _ => [] end.

Definition decoded (val : list Z) : option InternalNode.t :=
  match Node.decode (V := Z) val with Ok (Node.Internal i) => Some i | _ => None end.

Lemma node_decode_typed_witness :
  (exists i, decoded sample_bytes = Some i /\ node_wf i) /\
  Node.decode (V := Z) [3; 3; 0; 255; 255] <> Panic.
Proof.
  assert (forall val, bool_decide (Forall (fun b => 0 <= b < 256) val) = true -> Forall byte_ok val) as Hbytes
    by (intros val Hval; exact (bool_decide_eq_true_1 _ Hval)).
  split.
  - pose proof (node_decode_typed number_bcs_total sample_bytes) as Ht. unfold decoded.
    assert (decoded sample_bytes = Some sample_node) as Hd by (vm_compute; reflexivity). unfold decoded in Hd.
    destruct (Node.decode (V := Z) sample_bytes) as [[|i|]|e|]; try discriminate Hd.
    exists i. split; [reflexivity|]. apply Ht, Hbytes. vm_compute. reflexivity.
  - pose proof (node_decode_typed number_bcs_total [3; 3; 0; 255; 255]) as Ht.
    destruct (Node.decode (V := Z) [3; 3; 0; 255; 255]) as [[|i|]|e|]; try discriminate.
    destruct Ht. apply Hbytes. reflexivity.
Defined.

Lemma node_key_codec_witness :
  exists bs, NodeKey.encode (key_at 7 [1; 2; 3]) = Ok bs /\ NodeKey.decode bs = Ok (key_at 7 [1; 2; 3]).
Proof.
  apply (proj1 node_key_codec). split; [cbn; lia|]. split_and!.
  - vm_compute. lia.
  - reflexivity.
  - repeat constructor; cbn; lia.
  - intros _. exists 48. split; reflexivity.
Defined.
