(* ===== verification/Primitives.v ===== *)
(** * What the code relies on from other crates

    Account addresses, Ed25519 keys and signatures, and the BCS-based hashes of
    the derived [CryptoHash] instances are defined outside the repository or by
    macros over external crates; [Primitives] and [CryptoHash] are their
    interfaces. [BTreeMap]s keyed by addresses or hash values are finite maps
    that are iterated in ascending order of their keys. *)
From stdpp Require Import prelude gmap sorting strings.
From Stdlib Require Import ZArith Lia.
From S2P Require Import Prelude HashValues.

Class Primitives := {
  (** [AccountAddress] of move-core-types: [Copy + Eq + Ord + Hash], with its
      constant [ZERO]. *)
  AccountAddress : Type;
  address_eq_dec :: EqDecision AccountAddress;
  address_countable :: Countable AccountAddress;
  address_le : relation AccountAddress;
  address_le_dec :: RelDecision address_le;
  address_le_total :: TotalOrder address_le;
  address_zero : AccountAddress;
  (** [Ed25519PublicKey] and [Ed25519Signature]. *)
  PublicKey : Type;
  public_key_eq_dec :: EqDecision PublicKey;
  Signature : Type;
  signature_eq_dec :: EqDecision Signature;
  (** [Ed25519PrivateKey] and [private_key.public_key()]. *)
  PrivateKey : Type;
  public_key_of : PrivateKey -> PublicKey;
  (** [SignedTransaction], the content of block payloads. *)
  SignedTransaction : Type;
  signed_transaction_eq_dec :: EqDecision SignedTransaction
}.

(** A type with [#[derive(CryptoHasher, BCSCryptoHash, Serialize)]]: its hash,
    [private_key.sign(message)],
    [public_key.verify_struct_signature(message, signature).is_ok()] and
    [Ed25519Signature::batch_verify(message, keys_and_signatures).is_ok()]. *)
Class CryptoHash `{Primitives} (T : Type) := {
  crypto_hash : T -> HashValue.t;
  sign : PrivateKey -> T -> Signature;
  verify_struct_signature : PublicKey -> T -> Signature -> bool;
  batch_verify : T -> list (PublicKey * Signature) -> bool
}.

(** Batch verification accepts only lists of valid signatures. *)
Definition batch_verify_sound `{CryptoHash T} : Prop :=
  forall (m : T) ks, batch_verify m ks = true ->
    Forall (fun x => verify_struct_signature x.1 m x.2 = true) ks.

(** What a private key signs its public key verifies. *)
Definition sign_correct `{CryptoHash T} : Prop :=
  forall sk (m : T), verify_struct_signature (public_key_of sk) m (sign sk m) = true.

(** ** Iteration *)

(** [for x in xs { f(x)?; }] *)
Fixpoint for_each {E A} (f : A -> outcome E unit) (xs : list A) : outcome E unit :=
  match xs with
  | [] => Ok tt
  | x :: xs => f x ;; for_each f xs
  end.

Lemma for_each_Ok {E A} (f : A -> outcome E unit) xs :
  for_each f xs = Ok tt <-> Forall (fun x => f x = Ok tt) xs.
Proof.
  induction xs as [|x xs IH]; cbn [for_each]; [done|]. rewrite Forall_cons, <- IH.
  destruct (f x) as [[]| |]; simpl; intuition congruence.
Qed.

Lemma forallb_Forall {A} (f : A -> bool) l : forallb f l = true <-> Forall (fun x => f x = true) l.
Proof. rewrite forallb_forall, Forall_forall. by setoid_rewrite list_elem_of_In. Qed.

Section btree_map.
Context `{Primitives}.

Definition key_le {V} (x y : AccountAddress * V) : Prop := address_le x.1 y.1.

#[global] Instance key_le_dec {V} : RelDecision (@key_le V).
Proof. intros x y. unfold key_le. apply _. Defined.

(** The entries of a [BTreeMap], in ascending order of the keys. *)
Definition btree_iter {V} (m : gmap AccountAddress V) : list (AccountAddress * V) :=
  merge_sort key_le (map_to_list m).

Lemma btree_iter_perm {V} (m : gmap AccountAddress V) : btree_iter m ≡ₚ map_to_list m.
Proof. apply merge_sort_Permutation. Qed.

Lemma elem_of_btree_iter {V} (m : gmap AccountAddress V) k v :
  (k, v) ∈ btree_iter m <-> m !! k = Some v.
Proof. rewrite btree_iter_perm. apply elem_of_map_to_list. Qed.

Lemma NoDup_btree_keys {V} (m : gmap AccountAddress V) : NoDup (btree_iter m).*1.
Proof. rewrite btree_iter_perm. apply NoDup_fst_map_to_list. Qed.

Lemma elem_of_btree_keys {V} (m : gmap AccountAddress V) k :
  k ∈ (btree_iter m).*1 <-> is_Some (m !! k).
Proof.
  rewrite list_elem_of_fmap. split.
  - intros ([k' v] & -> & Hin%elem_of_btree_iter). by eexists.
  - intros [v Hv]. exists (k, v). by rewrite elem_of_btree_iter.
Qed.

End btree_map.

(** ** A concrete instance

    Addresses and keys are integers; a signature is the key with the hash of
    the message. *)
#[local] Instance Z_le_total : TotalOrder Z.le.
Proof. split; [apply _ |]. intros x y. unfold trichotomy, strict. lia. Qed.

Definition toy_primitives : Primitives := {|
  AccountAddress := Z;
  address_le := Z.le;
  address_zero := 0;
  PublicKey := Z;
  Signature := Z * HashValue.t;
  PrivateKey := Z;
  public_key_of sk := sk;
  SignedTransaction := Z
|}.

Definition toy_crypto {T} (hash : T -> HashValue.t) : @CryptoHash toy_primitives T :=
  Build_CryptoHash toy_primitives T hash (fun sk m => (sk, hash m))
    (fun pk m sig => bool_decide (sig = (pk, hash m)))
    (fun m ks => forallb (fun x => bool_decide (x.2 = (x.1, hash m))) ks).

Lemma toy_sign_correct {T} (hash : T -> HashValue.t) :
  @sign_correct toy_primitives T (toy_crypto hash).
Proof. intros sk m. cbn. by apply bool_decide_eq_true. Qed.

Lemma toy_batch_verify_sound {T} (hash : T -> HashValue.t) :
  @batch_verify_sound toy_primitives T (toy_crypto hash).
Proof.
  intros m ks Hks%forallb_Forall. eapply Forall_impl; [exact Hks|]. done.
Qed.
