(* ===== verification/ValidatorVerifier.v ===== *)
(** * Validator sets and quorums (types/src/validator_verifier.rs)

    [ValidatorVerifier] checks the signatures of a set of validators and that
    their voting power is a quorum. The theorems show what an accepted
    signature map guarantees and that any two quorums share voting power that
    no third of the validators has. *)
From stdpp Require Import prelude gmap sorting strings.
From Stdlib Require Import ZArith Lia.
From S2P Require Import Prelude Bits HashValues Primitives.

Module VerifyError.
Inductive t :=
| UnknownAuthor
| TooLittleVotingPower (voting_power quorum_voting_power : Z)
| TooManySignatures (num_of_signatures num_of_authors : nat)
| InvalidSignature
| InconsistentBlockInfo.

#[global] Instance t_eq_dec : EqDecision t.
Proof. solve_decision. Defined.
End VerifyError.

Module ValidatorConsensusInfo.
Section info.
Context `{Primitives}.
Record t := new { public_key : PublicKey; voting_power : Z }.

#[global] Instance t_eq_dec : EqDecision t.
Proof. solve_decision. Defined.
End info.
Arguments t {_}.
End ValidatorConsensusInfo.

Module ValidatorVerifier.
Section verifier.
Context `{Primitives}.

Record t := mk {
  address_to_validator_info : gmap AccountAddress ValidatorConsensusInfo.t;
  quorum_voting_power : Z;
  total_voting_power : Z
}.

#[global] Instance t_eq_dec : EqDecision t.
Proof. solve_decision. Defined.

(** [fold] with [checked_add(..).expect(..)]. *)
Fixpoint sum_loop (sum : Z) (xs : list ValidatorConsensusInfo.t) : outcome VerifyError.t Z :=
  match xs with
  | [] => Ok sum
  | x :: xs =>
      sum ← expect (checked_add sum (ValidatorConsensusInfo.voting_power x));
      sum_loop sum xs
  end.

Definition sum_voting_power (address_to_validator_info : gmap AccountAddress ValidatorConsensusInfo.t)
    : outcome VerifyError.t Z :=
  sum_loop 0 (btree_iter address_to_validator_info).*2.

Definition new (address_to_validator_info : gmap AccountAddress ValidatorConsensusInfo.t)
    : outcome VerifyError.t t :=
  total_voting_power ← sum_voting_power address_to_validator_info;
  let quorum_voting_power :=
    if bool_decide (address_to_validator_info = ∅) then 0
    else ((total_voting_power * 2)%u64 / 3 + 1)%u64 in
  Ok (mk address_to_validator_info quorum_voting_power total_voting_power).

Definition get_public_key (self : t) (author : AccountAddress) : option PublicKey :=
  ValidatorConsensusInfo.public_key <$> address_to_validator_info self !! author.

Definition get_voting_power (self : t) (author : AccountAddress) : option Z :=
  ValidatorConsensusInfo.voting_power <$> address_to_validator_info self !! author.

Definition len (self : t) : nat := size (address_to_validator_info self).

Definition is_empty (self : t) : bool := (len self =? 0)%nat.

Definition verify {T} `{!CryptoHash T} (self : t) (author : AccountAddress) (message : T)
    (signature : Signature) : outcome VerifyError.t unit :=
  match get_public_key self author with
  | Some public_key =>
      if negb (verify_struct_signature public_key message signature)
      then Err VerifyError.InvalidSignature else Ok tt
  | None => Err VerifyError.UnknownAuthor
  end.

Definition check_num_of_signatures (self : t) (aggregated_signature : gmap AccountAddress Signature)
    : outcome VerifyError.t unit :=
  let num_of_signatures := size aggregated_signature in
  if (len self <? num_of_signatures)%nat
  then Err (VerifyError.TooManySignatures num_of_signatures (len self))
  else Ok tt.

(** The loop of [check_voting_power]. *)
Fixpoint power_loop (self : t) (aggregated_voting_power : Z) (authors : list AccountAddress)
    : outcome VerifyError.t Z :=
  match authors with
  | [] => Ok aggregated_voting_power
  | account_address :: authors =>
      match get_voting_power self account_address with
      | Some voting_power => power_loop self (aggregated_voting_power + voting_power)%u64 authors
      | None => Err VerifyError.UnknownAuthor
      end
  end.

Definition check_voting_power (self : t) (authors : list AccountAddress)
    : outcome VerifyError.t unit :=
  aggregated_voting_power ← power_loop self 0 authors;
  if aggregated_voting_power <? quorum_voting_power self
  then Err (VerifyError.TooLittleVotingPower aggregated_voting_power (quorum_voting_power self))
  else Ok tt.

Definition verify_aggregated_struct_signature {T} `{!CryptoHash T} (self : t) (message : T)
    (aggregated_signature : gmap AccountAddress Signature) : outcome VerifyError.t unit :=
  check_num_of_signatures self aggregated_signature ;;
  check_voting_power self (btree_iter aggregated_signature).*1 ;;
  for_each (fun '(author, signature) => verify self author message signature)
    (btree_iter aggregated_signature).

Definition batch_verify_aggregated_signatures {T} `{!CryptoHash T} (self : t) (message : T)
    (aggregated_signature : gmap AccountAddress Signature) : outcome VerifyError.t unit :=
  check_num_of_signatures self aggregated_signature ;;
  check_voting_power self (btree_iter aggregated_signature).*1 ;;
  let keys_and_signatures :=
    omap (fun '(address, sig) =>
            pub_key ← get_public_key self address; Some (pub_key, sig))
      (btree_iter aggregated_signature) in
  if negb (batch_verify message keys_and_signatures)
  then verify_aggregated_struct_signature self message aggregated_signature
  else Ok tt.

End verifier.
Arguments t {_}.
End ValidatorVerifier.

(** ** Voting power *)

Import ValidatorVerifier.

Section power.
Context `{Primitives}.

(** The voting power of an address in a validator map. *)
Definition power_of (m : gmap AccountAddress ValidatorConsensusInfo.t) (a : AccountAddress) : Z :=
  from_option ValidatorConsensusInfo.voting_power 0 (m !! a).

(** The exact sum of the voting powers of a list of addresses. *)
Fixpoint power (m : gmap AccountAddress ValidatorConsensusInfo.t) (l : list AccountAddress) : Z :=
  match l with
  | [] => 0
  | a :: l => power_of m a + power m l
  end.

(** The exact voting power of all validators. *)
Definition total (m : gmap AccountAddress ValidatorConsensusInfo.t) : Z := power m (btree_iter m).*1.

(** Voting powers are u64 values. *)
Definition powers_ok (m : gmap AccountAddress ValidatorConsensusInfo.t) : Prop :=
  map_Forall (fun _ i => in_u64 (ValidatorConsensusInfo.voting_power i)) m.

Context (m : gmap AccountAddress ValidatorConsensusInfo.t) (Hm : powers_ok m).

Lemma power_of_nonneg a : 0 <= power_of m a.
Proof.
  unfold power_of. destruct (m !! a) as [i|] eqn:E; simpl; [|lia].
  apply Hm in E. unfold in_u64 in E. lia.
Qed.

Lemma power_nonneg l : 0 <= power m l.
Proof. induction l; simpl; [lia|]. pose proof (power_of_nonneg a). lia. Qed.

Lemma power_app l l' : power m (l ++ l') = power m l + power m l'.
Proof. induction l; simpl; lia. Qed.

#[global] Instance power_perm : Proper ((≡ₚ) ==> (=)) (power m).
Proof. induction 1; simpl; lia. Qed.

Lemma power_filter (P : AccountAddress -> Prop) `{!forall a, Decision (P a)} l :
  power m l = power m (filter P l) + power m (filter (fun a => ~ P a) l).
Proof.
  induction l as [|a l IH]; [done|]. rewrite !filter_cons.
  destruct (decide (P a)); destruct (decide (~ P a)); try done; cbn [power]; lia.
Qed.

Lemma power_subset l l' : NoDup l -> l ⊆ l' -> power m l <= power m l'.
Proof.
  intros Hn Hs. apply NoDup_submseteq, submseteq_Permutation in Hs as [k Hk]; [|done].
  rewrite Hk, power_app. pose proof (power_nonneg k). lia.
Qed.

(** Distinct known addresses have at most the total power. *)
Lemma power_le_total l : NoDup l -> Forall (fun a => is_Some (m !! a)) l -> power m l <= total m.
Proof.
  intros Hn Hk. apply power_subset; [done|]. intros a Ha.
  rewrite Forall_forall in Hk. by apply elem_of_btree_keys, Hk.
Qed.

(** Two lists of known addresses share at least the power they have in excess
    of the total. *)
Lemma power_common l l' : NoDup l -> NoDup l' ->
  Forall (fun a => is_Some (m !! a)) l -> Forall (fun a => is_Some (m !! a)) l' ->
  power m l + power m l' <= total m + power m (filter (.∈ l') l).
Proof.
  intros Hn Hn' Hk Hk'. rewrite (power_filter (.∈ l') l).
  assert (power m (filter (fun a => a ∉ l') l ++ l') <= total m) as Hle.
  { apply power_le_total.
    - apply NoDup_app. split_and!; [by apply NoDup_filter | | done].
      by intros a [Ha _]%list_elem_of_filter.
    - apply Forall_app. split; [|done]. rewrite Forall_forall in *.
      intros a [_ Ha]%list_elem_of_filter. auto. }
  rewrite power_app in Hle. lia.
Qed.

(** [sum_voting_power] is the exact sum, or panics if it is not a u64. *)
Lemma sum_loop_spec xs sum : 0 <= sum <= u64_max ->
  Forall (fun x => 0 <= ValidatorConsensusInfo.voting_power x) xs ->
  let s := sum + foldr (fun x acc => ValidatorConsensusInfo.voting_power x + acc) 0 xs in
  sum_loop sum xs = if s <=? u64_max then Ok s else Panic.
Proof.
  revert sum; induction xs as [|x xs IH]; intros sum Hs Hxs; cbn [sum_loop foldr]; cbv zeta.
  { rewrite Z.add_0_r. by rewrite (proj2 (Z.leb_le _ _)) by lia. }
  apply Forall_cons in Hxs as [Hx Hxs].
  assert (0 <= foldr (fun x acc => ValidatorConsensusInfo.voting_power x + acc) 0 xs) as Hf.
  { clear -Hxs. induction Hxs; simpl in *; lia. }
  unfold checked_add. destruct (Z.leb_spec (sum + ValidatorConsensusInfo.voting_power x) u64_max) as [Hle|Hgt].
  - cbn [expect]. rewrite bind_Ok, IH by (done || lia). cbv zeta. by rewrite Z.add_assoc.
  - cbn [expect mbind outcome_bind]. by rewrite (proj2 (Z.leb_gt _ _)) by lia.
Qed.

Lemma foldr_power l : (forall k v, (k, v) ∈ l -> m !! k = Some v) ->
  foldr (fun x acc => ValidatorConsensusInfo.voting_power x + acc) 0 l.*2 = power m l.*1.
Proof.
  induction l as [|[k v] l IH]; intros Hl; [done|]. cbn [fmap list_fmap foldr power fst snd].
  unfold power_of at 1. rewrite (Hl k v) by left. cbn [from_option]. f_equal. apply IH.
  intros k' v' Hin. apply Hl. by right.
Qed.

Lemma sum_voting_power_spec :
  sum_voting_power m = if total m <=? u64_max then Ok (total m) else Panic.
Proof.
  unfold sum_voting_power. rewrite sum_loop_spec; [|lia|].
  - cbv zeta. rewrite foldr_power, Z.add_0_l by (intros k v; apply elem_of_btree_iter).
    done.
  - apply Forall_fmap, Forall_forall. intros [k v] Hin%elem_of_btree_iter.
    apply Hm in Hin. unfold in_u64 in Hin. simpl. lia.
Qed.

End power.

Section quorums.
Context `{Primitives}.

(** A verifier as [new] builds it from u64 voting powers. *)
Definition well_formed (v : ValidatorVerifier.t) : Prop :=
  powers_ok (address_to_validator_info v) /\ new (address_to_validator_info v) = Ok v.

Abbreviation powers v := (power (address_to_validator_info v)).

Lemma well_formed_inv v : well_formed v ->
  total (address_to_validator_info v) <= u64_max /\
  total_voting_power v = total (address_to_validator_info v) /\
  (address_to_validator_info v <> ∅ -> 2 * total_voting_power v <= u64_max ->
   quorum_voting_power v = 2 * total_voting_power v / 3 + 1).
Proof.
  intros [Hok Hnew]. unfold new in Hnew. rewrite sum_voting_power_spec in Hnew by done.
  destruct (Z.leb_spec (total (address_to_validator_info v)) u64_max) as [Hle|]; [|discriminate].
  rewrite bind_Ok in Hnew. injection Hnew as Hnew.
  assert (0 <= total (address_to_validator_info v)) as H0 by by apply power_nonneg.
  split_and!; [done | by rewrite <- Hnew |]. intros Hne Hsmall.
  rewrite <- Hnew in Hsmall |- *. cbn [quorum_voting_power total_voting_power] in *.
  rewrite bool_decide_false by done. unfold u64_mul.
  rewrite wrap64_small by (unfold in_u64; lia).
  rewrite (Z.mul_comm 2).
  pose proof (Z.div_pos (total (address_to_validator_info v) * 2) 3).
  assert (total (address_to_validator_info v) * 2 / 3 <= u64_max / 3) as Hdiv
    by (apply Z.div_le_mono; lia).
  change (u64_max / 3) with 6148914691236517205 in Hdiv.
  apply u64_add_small; lia.
Qed.

Lemma power_loop_known v acc authors n : power_loop v acc authors = Ok n ->
  Forall (fun a => is_Some (address_to_validator_info v !! a)) authors.
Proof.
  revert acc; induction authors as [|a authors IH]; intros acc; simpl; [constructor|].
  unfold get_voting_power. destruct (address_to_validator_info v !! a) eqn:E; [|done].
  cbn. intros Hl. constructor; [by eexists | by eapply IH].
Qed.

Lemma power_loop_spec v acc authors : powers_ok (address_to_validator_info v) -> 0 <= acc ->
  Forall (fun a => is_Some (address_to_validator_info v !! a)) authors ->
  acc + powers v authors <= u64_max ->
  power_loop v acc authors = Ok (acc + powers v authors).
Proof.
  intros Hok. revert acc; induction authors as [|a authors IH]; intros acc Hacc Hk Hle; simpl in *.
  { by rewrite Z.add_0_r. }
  apply Forall_cons in Hk as [[i Hi] Hk]. unfold get_voting_power.
  pose proof (power_of_nonneg _ Hok a). pose proof (power_nonneg _ Hok authors).
  unfold power_of in *. rewrite Hi in *. cbn [fmap option_fmap option_map from_option] in *.
  rewrite u64_add_small by (unfold in_u64; lia). rewrite IH by (done || lia). f_equal. lia.
Qed.

(** [check_voting_power] accepts distinct addresses exactly if all are known
    and their exact power is a quorum. *)
Lemma check_voting_power_Ok v authors : well_formed v -> NoDup authors ->
  check_voting_power v authors = Ok tt <->
  Forall (fun a => is_Some (address_to_validator_info v !! a)) authors /\
  quorum_voting_power v <= powers v authors.
Proof.
  intros Hv Hn. pose proof (well_formed_inv v Hv) as (Hle & _). destruct Hv as [Hok _].
  unfold check_voting_power.
  assert (forall k, Forall (fun a => is_Some (address_to_validator_info v !! a)) authors ->
    k = powers v authors -> power_loop v 0 authors = Ok k) as Hloop.
  { intros k Hk ->. rewrite power_loop_spec; [f_equal; lia | done | lia | done |].
    pose proof (power_le_total _ Hok authors Hn Hk). lia. }
  split.
  - intros H1. outcome_inv. pose proof (power_loop_known _ _ _ _ Ha) as Hk. split; [done|].
    rewrite (Hloop _ Hk eq_refl) in Ha. injection Ha as <-.
    destruct (Z.ltb_spec (powers v authors) (quorum_voting_power v)); [discriminate | lia].
  - intros [Hk Hq]. rewrite (Hloop _ Hk eq_refl), bind_Ok.
    destruct (Z.ltb_spec (powers v authors) (quorum_voting_power v)); [lia | done].
Qed.

Lemma quorum_common v l l' : well_formed v -> address_to_validator_info v <> ∅ ->
  2 * total_voting_power v <= u64_max -> NoDup l -> NoDup l' ->
  check_voting_power v l = Ok tt -> check_voting_power v l' = Ok tt ->
  total_voting_power v < 3 * powers v (filter (.∈ l') l).
Proof.
  intros Hv Hne Hsmall Hn Hn' Hl Hl'.
  apply check_voting_power_Ok in Hl as [Hk Hq], Hl' as [Hk' Hq']; try done.
  destruct (well_formed_inv v Hv) as (_ & Ht & Hquorum).
  rewrite Hquorum in Hq, Hq' by done. destruct Hv as [Hok _].
  pose proof (power_common _ Hok l l' Hn Hn' Hk Hk'). rewrite <- Ht in *.
  assert (2 * total_voting_power v < 3 * (2 * total_voting_power v / 3 + 1))
    by (pose proof (Z.mod_pos_bound (2 * total_voting_power v) 3);
        pose proof (Z.div_mod (2 * total_voting_power v) 3); lia).
  lia.
Qed.

(** If a third of the power is not exceeded by [faulty], two quorums have a
    member in common that is not in [faulty]. *)
Lemma quorum_honest v l l' faulty : well_formed v -> address_to_validator_info v <> ∅ ->
  2 * total_voting_power v <= u64_max -> NoDup l -> NoDup l' ->
  check_voting_power v l = Ok tt -> check_voting_power v l' = Ok tt ->
  NoDup faulty -> 3 * powers v faulty <= total_voting_power v ->
  exists a, a ∈ l /\ a ∈ l' /\ a ∉ faulty.
Proof.
  intros Hv Hne Hsmall Hn Hn' Hl Hl' Hf Hpow.
  pose proof (quorum_common v l l' Hv Hne Hsmall Hn Hn' Hl Hl') as Hc.
  destruct (decide (Exists (fun a => a ∉ faulty) (filter (.∈ l') l))) as [He|He].
  - apply Exists_exists in He as (a & [Ha1 Ha2]%list_elem_of_filter & Ha). eauto.
  - exfalso. apply not_Exists_Forall in He; [|apply _]. rewrite Forall_forall in He.
    assert (powers v (filter (.∈ l') l) <= powers v faulty); [|lia].
    apply power_subset; [apply Hv | by apply NoDup_filter |].
    intros a Ha. specialize (He a Ha). by destruct (decide (a ∈ faulty)).
Qed.

(** C37: The quorum of a large validator set is too small. [new] checks that the
    sum of the voting powers fits a u64, but doubles it with a wrapping
    multiplication. For every verifier it builds with a total T of at least 2^63,
    the quorum is (2T - 2^64) / 3 + 1, which is at most (T + 2) / 3, and
    [check_voting_power] accepts every list of distinct validators with more than
    a third of the power, where more than two thirds are needed. *)
Theorem quorum_overflow v : well_formed v -> 2 ^ 63 <= total_voting_power v ->
  quorum_voting_power v = (2 * total_voting_power v - 2 ^ 64) / 3 + 1 /\
  3 * quorum_voting_power v <= total_voting_power v + 2 /\
  forall l, NoDup l -> Forall (fun a => is_Some (address_to_validator_info v !! a)) l ->
    total_voting_power v < 3 * power (address_to_validator_info v) l -> check_voting_power v l = Ok tt.
Proof.
  intros Hv Hbig. destruct (well_formed_inv v Hv) as (Hle & Ht & _).
  assert (quorum_voting_power v = (2 * total_voting_power v - 2 ^ 64) / 3 + 1) as Hq.
  { pose proof Hv as [Hok Hnew]. unfold new in Hnew. rewrite sum_voting_power_spec in Hnew by done.
    rewrite (proj2 (Z.leb_le _ _) Hle), bind_Ok in Hnew. injection Hnew as Hnew.
    rewrite Ht in Hbig |- *. rewrite <- Hnew at 1. cbn [quorum_voting_power].
    rewrite bool_decide_false.
    2: { intros He. rewrite He in Hbig. unfold total in Hbig. by vm_compute in Hbig. }
    assert (u64_mul (total (address_to_validator_info v)) 2 = 2 * total (address_to_validator_info v) - 2 ^ 64) as ->.
    { unfold u64_mul, wrap64. symmetry. apply Z.mod_unique with 1; lia. }
    set (T := total _) in *. pose proof (Z.div_pos (2 * T - 2 ^ 64) 3).
    assert ((2 * T - 2 ^ 64) / 3 <= (2 * T - 2 ^ 64)) by (apply Z.div_le_upper_bound; lia).
    apply u64_add_small; lia. }
  assert (3 * quorum_voting_power v <= total_voting_power v + 2) as Hsmall.
  { rewrite Hq. pose proof (Z.mul_div_le (2 * total_voting_power v - 2 ^ 64) 3). lia. }
  split_and!; [done..|]. intros l Hn Hk Hp. apply check_voting_power_Ok; [done..|]. split; [done|]. lia.
Qed.

(** C19: Quorum intersection. For a verifier [new] builds from a non-empty
    validator set with total power below 2^63, the validators in two lists
    [check_voting_power] accepts have, in common, more than a third of the
    total power. So if the validators in [faulty] have at most a third of it,
    some other validator is in both lists. *)
Theorem quorum_intersection v l l' : well_formed v -> address_to_validator_info v <> ∅ ->
  2 * total_voting_power v <= u64_max -> NoDup l -> NoDup l' ->
  check_voting_power v l = Ok tt -> check_voting_power v l' = Ok tt ->
  total_voting_power v < 3 * power (address_to_validator_info v) (filter (.∈ l') l) /\
  forall faulty, NoDup faulty ->
    3 * power (address_to_validator_info v) faulty <= total_voting_power v ->
    exists a, a ∈ l /\ a ∈ l' /\ a ∉ faulty.
Proof.
  intros Hv Hne Hsmall Hn Hn' Hl Hl'. split; [by apply quorum_common|].
  intros faulty Hf Hpow. by apply (quorum_honest v).
Qed.

(** ** Signatures *)

Section signatures.
Context {T : Type} `{!CryptoHash T}.

(** The author is a validator whose key verifies the signature. *)
Definition signed_by (v : ValidatorVerifier.t) (message : T) (a : AccountAddress) (sig : Signature) : Prop :=
  exists i, address_to_validator_info v !! a = Some i /\
    verify_struct_signature (ValidatorConsensusInfo.public_key i) message sig = true.

Lemma verify_Ok v a message sig : verify v a message sig = Ok tt <-> signed_by v message a sig.
Proof.
  unfold verify, signed_by, get_public_key.
  destruct (address_to_validator_info v !! a) as [i|]; cbn.
  - destruct (verify_struct_signature _ _ _) eqn:E; cbn; (split; [|]); try done; [by eauto|].
    intros (j & [= <-] & Hj). congruence.
  - split; [done|]. by intros (j & ? & _).
Qed.

Lemma known_size v (sigs : gmap AccountAddress Signature) :
  Forall (fun a => is_Some (address_to_validator_info v !! a)) (btree_iter sigs).*1 ->
  (size sigs <= len v)%nat.
Proof.
  intros Hk. unfold len. rewrite <- !size_dom. apply subseteq_size.
  intros a [s Hs]%elem_of_dom. apply elem_of_dom.
  rewrite Forall_forall in Hk. apply Hk, elem_of_btree_keys. by eexists.
Qed.

(** [verify_aggregated_struct_signature] accepts exactly the signature maps in
    which every entry is a valid signature of a validator and the signers are
    a quorum. *)
Lemma verify_aggregated_Ok v message sigs : well_formed v ->
  verify_aggregated_struct_signature v message sigs = Ok tt <->
  map_Forall (signed_by v message) sigs /\
  quorum_voting_power v <= powers v (btree_iter sigs).*1.
Proof.
  intros Hv. unfold verify_aggregated_struct_signature.
  assert (for_each (fun '(author, signature) => verify v author message signature) (btree_iter sigs) = Ok tt
    <-> map_Forall (signed_by v message) sigs) as Heach.
  { rewrite for_each_Ok, Forall_forall. split.
    - intros Hf a s Has. apply verify_Ok. apply (Hf (a, s)). by apply elem_of_btree_iter.
    - intros Hf [a s] Has%elem_of_btree_iter. by apply verify_Ok, Hf. }
  split.
  - intros H1. outcome_inv. destruct a, a0. split; [by apply Heach|].
    apply check_voting_power_Ok in Ha0 as [_ Hq]; [done | done | apply NoDup_btree_keys].
  - intros [Hf Hq].
    assert (Forall (fun a => is_Some (address_to_validator_info v !! a)) (btree_iter sigs).*1) as Hk.
    { rewrite Forall_forall. intros a [s Hs]%elem_of_btree_keys.
      destruct (Hf a s Hs) as (i & -> & _). by eexists. }
    unfold check_num_of_signatures.
    rewrite (proj2 (Nat.ltb_ge _ _)) by by apply known_size. rewrite bind_Ok.
    rewrite (proj2 (check_voting_power_Ok v _ Hv (NoDup_btree_keys _))) by done.
    rewrite bind_Ok. by apply Heach.
Qed.

(** Batch verification gives the result of verifying one by one. *)
Lemma batch_verify_aggregated_eq v (message : T) sigs : well_formed v -> batch_verify_sound (T := T) ->
  batch_verify_aggregated_signatures v message sigs = verify_aggregated_struct_signature v message sigs.
Proof.
  intros Hv Hb. unfold batch_verify_aggregated_signatures.
  destruct (check_num_of_signatures v sigs) as [[]| |] eqn:E1;
    [|by unfold verify_aggregated_struct_signature; rewrite E1..].
  destruct (check_voting_power v (btree_iter sigs).*1) as [[]| |] eqn:E2;
    [|by unfold verify_aggregated_struct_signature; rewrite E1, bind_Ok, E2..].
  rewrite !bind_Ok. destruct (batch_verify _ _) eqn:E3; cbn [negb]; [|done].
  symmetry. apply verify_aggregated_Ok; [done|].
  apply check_voting_power_Ok in E2 as [Hk Hq]; [|done|apply NoDup_btree_keys]. split; [|done].
  apply Hb in E3. rewrite Forall_forall in E3. intros a s Has.
  rewrite Forall_forall in Hk.
  destruct (Hk a) as [i Hi]; [apply elem_of_btree_keys; by eexists|]. exists i. split; [done|].
  apply (E3 (ValidatorConsensusInfo.public_key i, s)), list_elem_of_omap.
  exists (a, s). split; [by apply elem_of_btree_iter|]. unfold get_public_key. by rewrite Hi.
Qed.

(** Signature maps. [verify_aggregated_struct_signature] succeeds exactly if
    every entry of the map is a valid signature of a known validator and the
    voting power of the signers is a quorum; if batch verification accepts only
    valid signatures, [batch_verify_aggregated_signatures] gives the same
    result, errors included. *)
Theorem aggregated_signatures_exact v (message : T) sigs : well_formed v -> batch_verify_sound (T := T) ->
  (verify_aggregated_struct_signature v message sigs = Ok tt <->
   map_Forall (signed_by v message) sigs /\
   quorum_voting_power v <= power (address_to_validator_info v) (btree_iter sigs).*1) /\
  batch_verify_aggregated_signatures v message sigs = verify_aggregated_struct_signature v message sigs.
Proof.
  intros Hv Hb. split; [by apply verify_aggregated_Ok | by apply batch_verify_aggregated_eq].
Qed.

End signatures.

(** ** Byzantine validators *)

(** A non-empty validator set in which at most a third of the power is faulty
    (and whose total power can be doubled in a u64). *)
Record bft (v : ValidatorVerifier.t) (faulty : list AccountAddress) : Prop := {
  bft_well_formed : well_formed v;
  bft_nonempty : address_to_validator_info v <> ∅;
  bft_small : 2 * total_voting_power v <= u64_max;
  bft_nodup : NoDup faulty;
  bft_faulty : 3 * powers v faulty <= total_voting_power v
}.

Section honest.
Context {T : Type} `{!CryptoHash T}.

Lemma verified_quorum v (message : T) sigs : batch_verify_sound (T := T) -> well_formed v ->
  batch_verify_aggregated_signatures v message sigs = Ok tt ->
  check_voting_power v (btree_iter sigs).*1 = Ok tt /\ map_Forall (signed_by v message) sigs.
Proof.
  intros Hs Hv H1. rewrite batch_verify_aggregated_eq in H1 by done.
  pose proof H1 as H2. apply verify_aggregated_Ok in H1 as [Hall _]; [|done]. split; [|done].
  unfold verify_aggregated_struct_signature in H2. outcome_inv. by destruct a0.
Qed.
End honest.

Section honest_both.
Context {T T' : Type} `{!CryptoHash T} `{!CryptoHash T'}.

(** Two signature maps that verify have an honest signer in common. *)
Lemma honest_signer_both v faulty (m : T) (m' : T') sigs sigs' :
  batch_verify_sound (T := T) -> batch_verify_sound (T := T') -> bft v faulty ->
  batch_verify_aggregated_signatures v m sigs = Ok tt ->
  batch_verify_aggregated_signatures v m' sigs' = Ok tt ->
  exists a sig sig', sigs !! a = Some sig /\ sigs' !! a = Some sig' /\ a ∉ faulty /\
    signed_by v m a sig /\ signed_by v m' a sig'.
Proof.
  intros Hb Hb' [Hv Hne Hs Hn Hf] H1 H2.
  apply verified_quorum in H1 as [Hq Hall]; [|done..].
  apply verified_quorum in H2 as [Hq' Hall']; [|done..].
  destruct (quorum_honest v (btree_iter sigs).*1 (btree_iter sigs').*1 faulty)
    as (a & [sig Hsig]%elem_of_btree_keys & [sig' Hsig']%elem_of_btree_keys & Ha);
    try done; try apply NoDup_btree_keys.
  exists a, sig, sig'. split_and!; try done; [by apply Hall | by apply Hall'].
Qed.
End honest_both.
End quorums.

(** ** Concrete validator sets *)

(** Four validators with one vote each. *)
Definition four : gmap Z (@ValidatorConsensusInfo.t toy_primitives) :=
  list_to_map ((fun k => (k, @ValidatorConsensusInfo.new toy_primitives k 1)) <$> [1; 2; 3; 4]).

Definition four_verifier : @ValidatorVerifier.t toy_primitives :=
  @ValidatorVerifier.mk toy_primitives four 3 4.

Lemma four_well_formed : @well_formed toy_primitives four_verifier.
Proof.
  split.
  - unfold powers_ok, in_u64. apply (bool_decide_unpack _). by vm_compute.
  - by vm_compute.
Qed.

Lemma quorum_intersection_witness : exists a, a ∈ [1; 2; 3] /\ a ∈ [2; 3; 4] /\ a ∉ [2].
Proof.
  apply (@quorum_intersection toy_primitives four_verifier [1; 2; 3] [2; 3; 4] four_well_formed).
  - by vm_compute.
  - by vm_compute.
  - apply (bool_decide_unpack _). by vm_compute.
  - apply (bool_decide_unpack _). by vm_compute.
  - by vm_compute.
  - by vm_compute.
  - apply (bool_decide_unpack _). by vm_compute.
  - by vm_compute.
Defined.

Lemma aggregated_signatures_exact_witness :
  let m := HashValue.zero in
  let sigs : gmap Z (Z * HashValue.t) := list_to_map [(1, (1, m)); (2, (2, m)); (4, (4, m))] in
  @batch_verify_aggregated_signatures toy_primitives _ (toy_crypto id) four_verifier m sigs = Ok tt.
Proof.
  intros m sigs.
  rewrite (proj2 (@aggregated_signatures_exact toy_primitives _ (toy_crypto id) four_verifier m sigs
    four_well_formed (toy_batch_verify_sound id))).
  by vm_compute.
Defined.

(** Two validators of power 2^62. *)
Definition overflow_verifier : @ValidatorVerifier.t toy_primitives :=
  let info := @ValidatorConsensusInfo.new toy_primitives 0 (2 ^ 62) in
  @ValidatorVerifier.mk toy_primitives (<[1 := info]> {[2 := info]}) 1 (2 ^ 63).

(** Each of them is a quorum on its own. *)
Lemma quorum_overflow_witness :
  quorum_voting_power overflow_verifier = 1 /\
  check_voting_power overflow_verifier [1] = Ok tt /\ check_voting_power overflow_verifier [2] = Ok tt.
Proof.
  destruct (quorum_overflow (H := toy_primitives) overflow_verifier) as (Hq & _ & Hl).
  - split; [|by vm_compute]. unfold powers_ok, in_u64. apply (bool_decide_unpack _). by vm_compute.
  - by vm_compute.
  - split; [exact Hq|].
    split; apply Hl; first [apply NoDup_singleton | apply Forall_singleton; by eexists | by vm_compute].
Defined.
