(* ===== verification/LedgerInfo.v ===== *)
(** * Ledger infos and epochs (types/src/block_info.rs, ledger_info.rs,
    epoch_state.rs, on_chain_config/validator_set.rs, validator_info.rs)

    What validators sign: a [BlockInfo] with the state of the ledger after a
    block, wrapped into a [LedgerInfo]; the [EpochState] that says whose
    signatures count in an epoch. *)
From stdpp Require Import prelude gmap strings.
From Stdlib Require Import ZArith Lia.
From S2P Require Import Prelude HashValues Primitives ValidatorVerifier.

(** ** Validator sets *)

Module ValidatorConfig.
Section config.
Context `{Primitives}.
Record t := new {
  consensus_public_key : PublicKey;
  validator_network_addresses : list Z;
  fullnode_network_addresses : list Z
}.
End config.
Arguments t {_}.
End ValidatorConfig.

Module ValidatorInfo.
Section info.
Context `{Primitives}.
Record t := mk {
  account_address : AccountAddress;
  consensus_voting_power : Z;
  config : ValidatorConfig.t;
  last_config_update_time : Z
}.

Definition new (account_address : AccountAddress) (consensus_voting_power : Z)
    (config : ValidatorConfig.t) : t :=
  mk account_address consensus_voting_power config 0.

Definition consensus_public_key (self : t) : PublicKey :=
  ValidatorConfig.consensus_public_key (config self).
End info.
Arguments t {_}.
End ValidatorInfo.

Module ValidatorSet.
Section set.
Context `{Primitives}.

Inductive ConsensusScheme : Set := Ed25519.

Record t := mk { scheme : ConsensusScheme; payload : list ValidatorInfo.t }.

Definition new (payload : list ValidatorInfo.t) : t := mk Ed25519 payload.

Definition empty : t := new [].

(** [impl From<&ValidatorSet> for ValidatorVerifier] *)
Definition into_verifier (validator_set : t) : outcome VerifyError.t ValidatorVerifier.t :=
  ValidatorVerifier.new
    (foldl (fun map validator =>
       <[ValidatorInfo.account_address validator :=
           ValidatorConsensusInfo.new (ValidatorInfo.consensus_public_key validator)
             (ValidatorInfo.consensus_voting_power validator)]> map) ∅
       (payload validator_set)).
End set.
Arguments t {_}.
End ValidatorSet.

(** ** Epoch states *)

Module EpochState.
Section state.
Context `{Primitives}.
Record t := new { epoch : Z; verifier : ValidatorVerifier.t }.

#[global] Instance t_eq_dec : EqDecision t.
Proof. solve_decision. Defined.

Definition empty : outcome VerifyError.t t :=
  verifier ← ValidatorVerifier.new ∅; Ok (new 0 verifier).
End state.
Arguments t {_}.
End EpochState.

(** ** Block infos *)

Definition GENESIS_EPOCH : Z := 0.
Definition GENESIS_ROUND : Z := 0.
Definition GENESIS_VERSION : Z := 0.
Definition GENESIS_TIMESTAMP_USECS : Z := 0.

Module BlockInfo.
Section info.
Context `{Primitives}.

Record t := new {
  epoch : Z;
  round : Z;
  id : HashValue.t;
  executed_state_id : HashValue.t;
  version : Z;
  timestamp_usecs : Z;
  next_epoch_state : option EpochState.t
}.

#[global] Instance t_eq_dec : EqDecision t.
Proof. solve_decision. Defined.

Definition empty : t := new 0 0 HashValue.zero HashValue.zero 0 0 None.

Definition genesis (genesis_state_root_hash : HashValue.t) (validator_set : ValidatorSet.t)
    : outcome VerifyError.t t :=
  verifier ← ValidatorSet.into_verifier validator_set;
  Ok (new GENESIS_EPOCH GENESIS_ROUND HashValue.zero genesis_state_root_hash
        GENESIS_VERSION GENESIS_TIMESTAMP_USECS (Some (EpochState.new 1 verifier))).

Definition next_block_epoch (self : t) : Z :=
  from_option EpochState.epoch (epoch self) (next_epoch_state self).

Definition has_reconfiguration (self : t) : bool := bool_decide (is_Some (next_epoch_state self)).

Definition allow_timestamp_change (self : t) (timestamp : Z) : bool :=
  has_reconfiguration self && (timestamp <=? timestamp_usecs self).

Definition change_timestamp (self : t) (timestamp : Z) : outcome string t :=
  assert_ (allow_timestamp_change self timestamp) ;;
  Ok (new (epoch self) (round self) (id self) (executed_state_id self) (version self)
        timestamp (next_epoch_state self)).

Definition match_ordered_only (self executed_block_info : t) : bool :=
  (epoch self =? epoch executed_block_info)
  && (round self =? round executed_block_info)
  && bool_decide (id self = id executed_block_info)
  && ((timestamp_usecs self =? timestamp_usecs executed_block_info)
      || ((timestamp_usecs executed_block_info <? timestamp_usecs self)
          && has_reconfiguration executed_block_info)).

Definition is_ordered_only (self : t) : bool :=
  negb (bool_decide (self = empty))
  && bool_decide (next_epoch_state self = None)
  && bool_decide (executed_state_id self = ACCUMULATOR_PLACEHOLDER)
  && (version self =? 0).

End info.
Arguments t {_}.
End BlockInfo.

(** ** Ledger infos *)

Module LedgerInfo.
Section info.
Context `{Primitives}.

Record t := new { commit_info : BlockInfo.t; consensus_data_hash : HashValue.t }.

#[global] Instance t_eq_dec : EqDecision t.
Proof. solve_decision. Defined.

Definition genesis (genesis_state_root_hash : HashValue.t) (validator_set : ValidatorSet.t)
    : outcome VerifyError.t t :=
  info ← BlockInfo.genesis genesis_state_root_hash validator_set;
  Ok (new info HashValue.zero).

Definition epoch (self : t) : Z := BlockInfo.epoch (commit_info self).
Definition next_block_epoch (self : t) : Z := BlockInfo.next_block_epoch (commit_info self).
Definition round (self : t) : Z := BlockInfo.round (commit_info self).
Definition consensus_block_id (self : t) : HashValue.t := BlockInfo.id (commit_info self).
Definition transaction_accumulator_hash (self : t) : HashValue.t :=
  BlockInfo.executed_state_id (commit_info self).
Definition version (self : t) : Z := BlockInfo.version (commit_info self).
Definition timestamp_usecs (self : t) : Z := BlockInfo.timestamp_usecs (commit_info self).
Definition next_epoch_state (self : t) : option EpochState.t :=
  BlockInfo.next_epoch_state (commit_info self).
Definition ends_epoch (self : t) : bool := bool_decide (is_Some (next_epoch_state self)).
Definition set_consensus_data_hash (self : t) (consensus_data_hash : HashValue.t) : t :=
  new (commit_info self) consensus_data_hash.

End info.
Arguments t {_}.
End LedgerInfo.

(** [LedgerInfoWithSignatures] has the single variant [V0(LedgerInfoWithV0)] it
    dereferences to. *)
Module LedgerInfoWithSignatures.
Section info.
Context `{Primitives}.

Record t := new {
  ledger_info : LedgerInfo.t;
  signatures : gmap AccountAddress Signature
}.

#[global] Instance t_eq_dec : EqDecision t.
Proof. solve_decision. Defined.

Definition genesis (genesis_state_root_hash : HashValue.t) (validator_set : ValidatorSet.t)
    : outcome VerifyError.t t :=
  li ← LedgerInfo.genesis genesis_state_root_hash validator_set; Ok (new li ∅).

Definition commit_info (self : t) : BlockInfo.t := LedgerInfo.commit_info (ledger_info self).

(** [entry(validator).or_insert(signature)] keeps an existing signature. *)
Definition add_signature (self : t) (validator : AccountAddress) (signature : Signature) : t :=
  new (ledger_info self)
    (match signatures self !! validator with
     | Some _ => signatures self
     | None => <[validator := signature]> (signatures self)
     end).

Definition remove_signature (self : t) (validator : AccountAddress) : t :=
  new (ledger_info self) (delete validator (signatures self)).

Definition verify_signatures `{!CryptoHash LedgerInfo.t} (self : t) (validator : ValidatorVerifier.t)
    : outcome VerifyError.t unit :=
  ValidatorVerifier.batch_verify_aggregated_signatures validator (ledger_info self) (signatures self).

Definition check_voting_power (self : t) (validator : ValidatorVerifier.t)
    : outcome VerifyError.t unit :=
  ValidatorVerifier.check_voting_power validator (btree_iter (signatures self)).*1.

End info.
Arguments t {_}.
End LedgerInfoWithSignatures.
