(* ===== verification/EpochChange.v ===== *)
(** * Waypoints and epoch change proofs (types/src/waypoint.rs, epoch_state.rs,
    epoch_change.rs)

    A client that trusts a validator set, or a waypoint, follows a chain of
    epoch-ending ledger infos to the latest epoch. The theorems say that the
    client only ever reaches the one history that quorums committed. *)
From stdpp Require Import prelude gmap strings.
From Stdlib Require Import ZArith Lia.
From S2P Require Import Prelude HashValues Primitives ValidatorVerifier LedgerInfo.

(** [?] from a [VerifyError] into an [anyhow::Error]. *)
Definition verify_error_message (e : VerifyError.t) : string :=
  match e with
  | VerifyError.UnknownAuthor => "Author is unknown"
  | VerifyError.TooLittleVotingPower _ _ => "The voting power is less than quorum voting power"
  | VerifyError.TooManySignatures _ _ => "The number of signatures is greater than total number of authors"
  | VerifyError.InvalidSignature => "Signature is invalid"
  | VerifyError.InconsistentBlockInfo => "Inconsistent Block Info"
  end.

(** [trait Verifier] *)
Class Verifier `{Primitives} (V : Type) := {
  verify : V -> LedgerInfoWithSignatures.t -> outcome string unit;
  epoch_change_verification_required : V -> Z -> bool;
  is_ledger_info_stale : V -> LedgerInfo.t -> bool
}.

(** ** Epoch states *)

Section epoch_state.
Context `{Primitives} `{!CryptoHash LedgerInfo.t}.

(** [impl Verifier for EpochState] *)
#[global] Instance epoch_state_verifier : Verifier EpochState.t := {
  verify self ledger_info :=
    ensure (EpochState.epoch self =? LedgerInfo.epoch (LedgerInfoWithSignatures.ledger_info ledger_info))
      "LedgerInfo has unexpected epoch" ;;
    map_err verify_error_message
      (LedgerInfoWithSignatures.verify_signatures ledger_info (EpochState.verifier self));
  epoch_change_verification_required self epoch := EpochState.epoch self <? epoch;
  is_ledger_info_stale self ledger_info := LedgerInfo.epoch ledger_info <? EpochState.epoch self
}.
End epoch_state.

(** ** Waypoints *)

Module Ledger2WaypointConverter.
Section converter.
Context `{Primitives}.
Record t := mk {
  epoch : Z;
  root_hash : HashValue.t;
  version : Z;
  timestamp_usecs : Z;
  next_epoch_state : option EpochState.t
}.

Definition new (ledger_info : LedgerInfo.t) : t :=
  mk (LedgerInfo.epoch ledger_info) (LedgerInfo.transaction_accumulator_hash ledger_info)
    (LedgerInfo.version ledger_info) (LedgerInfo.timestamp_usecs ledger_info)
    (LedgerInfo.next_epoch_state ledger_info).
End converter.
Arguments t {_}.
End Ledger2WaypointConverter.

Module Waypoint.
Record t := mk { version : Z; value : HashValue.t }.

#[global] Instance t_eq_dec : EqDecision t.
Proof. solve_decision. Defined.

Section waypoint.
Context `{Primitives} `{!CryptoHash Ledger2WaypointConverter.t}.

Definition new_any (ledger_info : LedgerInfo.t) : t :=
  let converter := Ledger2WaypointConverter.new ledger_info in
  mk (LedgerInfo.version ledger_info) (crypto_hash converter).

Definition new_epoch_boundary (ledger_info : LedgerInfo.t) : outcome string t :=
  ensure (LedgerInfo.ends_epoch ledger_info) "No validator set" ;;
  Ok (new_any ledger_info).

Definition verify (self : t) (ledger_info : LedgerInfo.t) : outcome string unit :=
  ensure (LedgerInfo.version ledger_info =? version self) "Waypoint version mismatch" ;;
  let converter := Ledger2WaypointConverter.new ledger_info in
  ensure (bool_decide (crypto_hash converter = value self)) "Waypoint value mismatch".

(** [impl Verifier for Waypoint] *)
#[global] Instance waypoint_verifier : Verifier t := {
  verify self ledger_info := verify self (LedgerInfoWithSignatures.ledger_info ledger_info);
  epoch_change_verification_required self epoch := true;
  is_ledger_info_stale self ledger_info := LedgerInfo.version ledger_info <? version self
}.
End waypoint.
End Waypoint.

(** ** Epoch change proofs *)

Module EpochChangeProof.
Section proof.
Context `{Primitives} `{!CryptoHash LedgerInfo.t}.

Record t := new {
  ledger_info_with_sigs : list LedgerInfoWithSignatures.t;
  more : bool
}.

Definition epoch (self : t) : outcome string Z :=
  ok_or ((fun li => LedgerInfo.epoch (LedgerInfoWithSignatures.ledger_info li))
           <$> head (ledger_info_with_sigs self))
    "Empty EpochChangeProof".

(** [iter.skip_while(pred)] *)
Fixpoint skip_while {A} (pred : A -> bool) (l : list A) : list A :=
  match l with
  | [] => []
  | x :: r => if pred x then skip_while pred r else l
  end.

(** The loop of [verify]; [verifier_ref] is the [verify] method of the current
    trait object. *)
Fixpoint verify_loop (verifier_ref : LedgerInfoWithSignatures.t -> outcome string unit)
    (lis : list LedgerInfoWithSignatures.t) : outcome string unit :=
  match lis with
  | [] => Ok tt
  | ledger_info_with_sigs :: lis =>
      verifier_ref ledger_info_with_sigs ;;
      next ← ok_or (LedgerInfo.next_epoch_state
                      (LedgerInfoWithSignatures.ledger_info ledger_info_with_sigs))
               "LedgerInfo doesn't carry a ValidatorSet";
      verify_loop (verify next) lis
  end.

Definition verify `{!Verifier V} (self : t) (verifier : V)
    : outcome string LedgerInfoWithSignatures.t :=
  ensure (negb (bool_decide (ledger_info_with_sigs self = []))) "The EpochChangeProof is empty" ;;
  last_li ← expect (last (ledger_info_with_sigs self));
  ensure (negb (is_ledger_info_stale verifier (LedgerInfoWithSignatures.ledger_info last_li)))
    "The EpochChangeProof is stale as our verifier is already ahead of the entire EpochChangeProof" ;;
  verify_loop (verify verifier)
    (skip_while (fun li => is_ledger_info_stale verifier (LedgerInfoWithSignatures.ledger_info li))
       (ledger_info_with_sigs self)) ;;
  Ok last_li.

End proof.
Arguments t {_}.
End EpochChangeProof.

(** ** The history of the chain

    A ledger info signed by more than two thirds of the voting power of its epoch
    signifies the state of the ledger (types/src/ledger_info.rs). A block info is
    committed if it is that of genesis, which nobody signs, or of such a ledger
    info. *)
Section history.
Context `{Primitives} `{!CryptoHash LedgerInfo.t}.

Definition quorum_signed (v : ValidatorVerifier.t) (li : LedgerInfo.t) : Prop := exists signers,
  NoDup signers /\
  2 * ValidatorVerifier.total_voting_power v < 3 * power (ValidatorVerifier.address_to_validator_info v) signers /\
  forall a, a ∈ signers -> exists sig, signed_by v li a sig.

Definition committed_by (epoch_states : Z -> EpochState.t) (genesis : BlockInfo.t) (b : BlockInfo.t) : Prop :=
  b = genesis \/
  exists li, LedgerInfo.commit_info li = b /\
    quorum_signed (EpochState.verifier (epoch_states (BlockInfo.epoch b))) li.

(** What the client relies on. Commits of one epoch are on one chain (the safety
    of consensus, see CommitSafety.v). Once a block reconfigures, the blocks that
    extend it in the epoch carry the same next epoch state. The validators of the
    next epoch are those that a committed block at the end of the epoch carries.
    Nothing is asked of the single validators. *)
Class History := {
  epoch_states : Z -> EpochState.t;
  genesis : BlockInfo.t;
  on_chain : BlockInfo.t -> BlockInfo.t -> Prop;
  epoch_states_epoch e : EpochState.epoch (epoch_states e) = e;
  epoch_states_sound e : let v := EpochState.verifier (epoch_states e) in
    well_formed v /\ ValidatorVerifier.address_to_validator_info v <> ∅ /\
    2 * ValidatorVerifier.total_voting_power v <= u64_max;
  agreement b b' : committed_by epoch_states genesis b -> committed_by epoch_states genesis b' ->
    BlockInfo.epoch b = BlockInfo.epoch b' -> on_chain b b' \/ on_chain b' b;
  reconfiguration_suffix b b' es : on_chain b b' -> BlockInfo.epoch b = BlockInfo.epoch b' ->
    BlockInfo.next_epoch_state b = Some es -> BlockInfo.next_epoch_state b' = Some es;
  epoch_installed b es : committed_by epoch_states genesis b -> BlockInfo.next_epoch_state b = Some es ->
    exists b', committed_by epoch_states genesis b' /\ BlockInfo.epoch b' = BlockInfo.epoch b /\
      BlockInfo.next_epoch_state b' = Some (epoch_states (BlockInfo.epoch b + 1));
  sound_batch : batch_verify_sound (T := LedgerInfo.t)
}.
End history.

Section safety.
Context `{Primitives} `{!CryptoHash LedgerInfo.t} `{!History}.

Definition committed : BlockInfo.t -> Prop := committed_by epoch_states genesis.

(** All committed ends of an epoch carry the validators of the next one. *)
Lemma committed_next b es : committed b -> BlockInfo.next_epoch_state b = Some es ->
  es = epoch_states (BlockInfo.epoch b + 1).
Proof.
  intros Hb Hes. destruct (epoch_installed b es Hb Hes) as (b' & Hb' & He & Hes').
  destruct (agreement b b') as [Hc|Hc]; [done..| |].
  - eapply reconfiguration_suffix in Hc; [|done..]. congruence.
  - eapply reconfiguration_suffix in Hc; [|done..]. congruence.
Qed.

(** The signature maps a verifier accepts hold a quorum. *)
Lemma verified_quorum_signed v li : well_formed v -> ValidatorVerifier.address_to_validator_info v <> ∅ ->
  2 * ValidatorVerifier.total_voting_power v <= u64_max -> LedgerInfoWithSignatures.verify_signatures li v = Ok tt ->
  quorum_signed v (LedgerInfoWithSignatures.ledger_info li).
Proof.
  intros Hv Hne Hs H1. apply verified_quorum in H1 as [Hq Hall]; [|apply sound_batch|done].
  exists (btree_iter (LedgerInfoWithSignatures.signatures li)).*1. split_and!.
  - apply NoDup_btree_keys.
  - apply check_voting_power_Ok in Hq as [_ Hq]; [|done|apply NoDup_btree_keys].
    destruct (well_formed_inv v Hv) as (_ & _ & Hquorum). rewrite Hquorum in Hq by done.
    pose proof (Z.mod_pos_bound (2 * ValidatorVerifier.total_voting_power v) 3).
    pose proof (Z.div_mod (2 * ValidatorVerifier.total_voting_power v) 3). lia.
  - intros a [sig Hsig]%elem_of_btree_keys. exists sig. by apply Hall.
Qed.

(** What verifies against the validators of an epoch is committed. *)
Lemma epoch_state_verified e li : verify (epoch_states e) li = Ok tt ->
  LedgerInfo.epoch (LedgerInfoWithSignatures.ledger_info li) = e /\
  committed (LedgerInfoWithSignatures.commit_info li).
Proof.
  cbn [verify epoch_state_verifier]. intros H1. outcome_inv.
  rewrite epoch_states_epoch in Ha. apply Z.eqb_eq in Ha. split; [done|]. right.
  exists (LedgerInfoWithSignatures.ledger_info li). split; [done|].
  change (BlockInfo.epoch (LedgerInfoWithSignatures.commit_info li))
    with (LedgerInfo.epoch (LedgerInfoWithSignatures.ledger_info li)).
  rewrite <- Ha. destruct (epoch_states_sound e) as (? & ? & ?). by apply verified_quorum_signed.
Qed.

Lemma verify_loop_committed lis : forall e li,
  EpochChangeProof.verify_loop (verify (epoch_states e)) lis = Ok tt -> last lis = Some li ->
  exists e', e <= e' /\ LedgerInfo.epoch (LedgerInfoWithSignatures.ledger_info li) = e' /\
    committed (LedgerInfoWithSignatures.commit_info li) /\
    LedgerInfo.next_epoch_state (LedgerInfoWithSignatures.ledger_info li) = Some (epoch_states (e' + 1)).
Proof.
  induction lis as [|x lis IH]; intros e li Hl Hlast; [done|].
  cbn [EpochChangeProof.verify_loop] in Hl. outcome_inv. destruct a.
  apply epoch_state_verified in Ha as [He Hc].
  pose proof (committed_next _ _ Hc Ha0) as Hes.
  change (BlockInfo.epoch (LedgerInfoWithSignatures.commit_info x)) with
    (LedgerInfo.epoch (LedgerInfoWithSignatures.ledger_info x)) in Hes. rewrite He in Hes.
  destruct lis as [|y lis].
  - injection Hlast as <-. exists e. rewrite <- Hes. split_and!; [lia | done..].
  - rewrite last_cons_cons in Hlast. rewrite Hes in Hl.
    destruct (IH _ _ Hl Hlast) as (e' & ? & ?). exists e'. split; [lia | done].
Qed.

Lemma last_skip_while {A} (pred : A -> bool) l x : last l = Some x -> pred x = false ->
  last (EpochChangeProof.skip_while pred l) = Some x.
Proof.
  intros Hl Hx. induction l as [|y l IH]; [done|]. cbn [EpochChangeProof.skip_while].
  destruct (pred y) eqn:Hy; [|done]. destruct l as [|z l]; [|by apply IH].
  injection Hl as ->. congruence.
Qed.

(** What [EpochChangeProof::verify] returns is the end of a verified chain. *)
Lemma epoch_change_verified `{!Verifier V} (v : V) proof li :
  EpochChangeProof.verify proof v = Ok li ->
  exists lis, EpochChangeProof.verify_loop (verify v) lis = Ok tt /\ last lis = Some li /\
    lis ⊆ EpochChangeProof.ledger_info_with_sigs proof.
Proof.
  unfold EpochChangeProof.verify. intros H1. outcome_inv. destruct a2.
  apply negb_true_iff in Ha1. eexists. split; [done|]. split; [by apply last_skip_while|].
  clear. induction (EpochChangeProof.ledger_info_with_sigs proof) as [|x l IH]; [done|].
  cbn [EpochChangeProof.skip_while]. intros y. case_match; [|done]. intros Hy. right. by apply IH.
Qed.

Section waypoints.
Context `{!CryptoHash Ledger2WaypointConverter.t}.

(** What a waypoint keeps of a committed block info. *)
Definition converter_of (b : BlockInfo.t) : Ledger2WaypointConverter.t :=
  Ledger2WaypointConverter.new (LedgerInfo.new b HashValue.zero).

Lemma new_any_commit_info li :
  Waypoint.new_any li = Waypoint.new_any (LedgerInfo.new (LedgerInfo.commit_info li) HashValue.zero).
Proof. done. Qed.

(** No ledger info of the list has the waypoint hash of a different committed
    block info. *)
Definition waypoints_distinct (lis : list LedgerInfoWithSignatures.t) : Prop :=
  forall x b, x ∈ lis -> committed b ->
    let c := converter_of (LedgerInfoWithSignatures.commit_info x) in
    crypto_hash c = crypto_hash (converter_of b) -> c = converter_of b.

(** A chain that starts at a waypoint of a committed epoch-ending ledger info
    goes on from the validator set of the next epoch. *)
Lemma waypoint_chain b lis li es :
  committed b -> BlockInfo.next_epoch_state b = Some es -> waypoints_distinct lis ->
  EpochChangeProof.verify_loop (verify (Waypoint.new_any (LedgerInfo.new b HashValue.zero))) lis = Ok tt ->
  last lis = Some li ->
  exists b', BlockInfo.epoch b <= BlockInfo.epoch b' /\ committed b' /\
    converter_of (LedgerInfoWithSignatures.commit_info li) = converter_of b' /\
    BlockInfo.next_epoch_state b' = Some (epoch_states (BlockInfo.epoch b' + 1)).
Proof.
  intros Hb Hes Hinj Hl Hlast. destruct lis as [|x lis]; [done|].
  cbn [EpochChangeProof.verify_loop verify Waypoint.waypoint_verifier] in Hl.
  unfold Waypoint.verify in Hl. outcome_inv.
  apply bool_decide_eq_true in Ha. apply Hinj in Ha; [|left|done].
  apply committed_next in Hes as Hes'; [|done]. rewrite Hes' in Hes. clear es Hes'.
  destruct lis as [|y lis].
  - injection Hlast as <-. exists b. split_and!; [lia | done..].
  - rewrite last_cons_cons in Hlast. pose proof Ha as Hn. injection Hn as _ _ _ _ Hn.
    change (LedgerInfo.next_epoch_state (LedgerInfoWithSignatures.ledger_info x)
            = BlockInfo.next_epoch_state b) in Hn.
    rewrite Ha0, Hes in Hn. injection Hn as ->.
    destruct (verify_loop_committed _ _ _ Hl Hlast) as (e' & Hle & He & Hc & Hnext).
    exists (LedgerInfoWithSignatures.commit_info li).
    unfold LedgerInfo.epoch, LedgerInfo.next_epoch_state in *. unfold LedgerInfoWithSignatures.commit_info.
    rewrite He. split_and!; [lia | done..].
Qed.
End waypoints.

(** C17: Epoch change proofs are safe. Suppose that the validator sets of the
    epochs are non-empty with a total power that can be doubled in a u64, that
    the block infos signed by more than two thirds of the power of one epoch are
    on one chain, that blocks after a reconfiguration repeat its next epoch state,
    and that an epoch's validators are those a committed end of the epoch before
    carries. Then whatever [EpochChangeProof::verify] accepts from the validator
    set of epoch [e] (skipping stale entries) ends in a committed ledger info of
    an epoch at or after [e], signed by more than two thirds of the power of its
    own epoch's true validators, that carries the true validator set of the next
    epoch. *)
Theorem epoch_change_proof_safe e proof li :
  EpochChangeProof.verify proof (epoch_states e) = Ok li ->
  exists e', e <= e' /\ LedgerInfo.epoch (LedgerInfoWithSignatures.ledger_info li) = e' /\
    committed (LedgerInfoWithSignatures.commit_info li) /\
    LedgerInfo.next_epoch_state (LedgerInfoWithSignatures.ledger_info li) = Some (epoch_states (e' + 1)).
Proof.
  intros (lis & Hl & Hlast & _)%epoch_change_verified. by eapply verify_loop_committed.
Qed.

End safety.

(** ** A concrete history

    The four validators of [four_verifier] in every epoch; their keys verify the
    signatures of block infos that carry that set as the next one, or none. *)
Section example.
#[local] Existing Instance toy_primitives.

Definition example_epoch (e : Z) : EpochState.t := EpochState.new e four_verifier.

Definition example_committed (b : BlockInfo.t) : Prop :=
  match BlockInfo.next_epoch_state b with
  | Some es => es = example_epoch (BlockInfo.epoch b + 1)
  | None => True
  end.

#[global] Instance example_committed_dec b : Decision (example_committed b).
Proof. unfold example_committed. case_match; apply _. Defined.

Definition example_hash (li : LedgerInfo.t) : HashValue.t :=
  HashValue.mk [LedgerInfo.epoch li; LedgerInfo.version li].

Definition example_crypto : CryptoHash LedgerInfo.t :=
  let check pk li sig :=
    bool_decide (sig = (pk, example_hash li)) && bool_decide (example_committed (LedgerInfo.commit_info li)) in
  Build_CryptoHash _ _ example_hash (fun sk li => (sk, example_hash li)) check (fun li ks => forallb (fun x => check x.1 li x.2) ks).
#[local] Existing Instance example_crypto.

Lemma four_bft : bft four_verifier [1].
Proof.
  split; [apply four_well_formed | by vm_compute | by vm_compute | | by vm_compute].
  apply (bool_decide_unpack _). by vm_compute.
Qed.

Definition example_genesis : BlockInfo.t :=
  BlockInfo.new 0 0 HashValue.zero HashValue.zero 0 0 (Some (example_epoch 1)).

Lemma example_committed_by b : committed_by example_epoch example_genesis b -> example_committed b.
Proof.
  intros [->|(li & <- & signers & Hn & Hp & Hs)]; [done|].
  destruct signers as [|a signers]; [by cbn in Hp|].
  destruct (Hs a) as (sig & i & _ & Hv); [left|]. cbn in Hv. apply andb_true_iff in Hv as [_ Hv].
  by apply bool_decide_eq_true in Hv.
Qed.

(** A block info with the next epoch state is after those without. *)
Definition example_history : History.
Proof.
  refine (Build_History example_epoch example_genesis
    (fun b b' => BlockInfo.next_epoch_state b = None \/ BlockInfo.next_epoch_state b = BlockInfo.next_epoch_state b')
    _ _ _ _ _ _).
  - done.
  - intros e. split_and!; [apply four_well_formed | by vm_compute | by vm_compute].
  - intros b b' Hb%example_committed_by Hb'%example_committed_by He. unfold example_committed in *.
    destruct (BlockInfo.next_epoch_state b), (BlockInfo.next_epoch_state b'); subst; rewrite ?He; auto.
  - intros b b' es [Hn|Hn] _ Hes; congruence.
  - intros b es Hb Hes. exists b. split_and!; [done..|].
    apply example_committed_by in Hb. unfold example_committed in Hb. rewrite Hes in Hb. by rewrite Hes, Hb.
  - intros li ks Hks. by apply forallb_Forall in Hks.
Defined.

(** The end of epoch [e] at version [v], signed by validators 2, 3 and 4. *)
Definition example_li (e v : Z) (next : bool) : LedgerInfoWithSignatures.t :=
  let li := LedgerInfo.new (BlockInfo.new e 0 HashValue.zero HashValue.zero v 0
              (if next then Some (example_epoch (e + 1)) else None)) HashValue.zero in
  LedgerInfoWithSignatures.new li
    (list_to_map ((fun k => (k, (k, example_hash li))) <$> [2; 3; 4])).

Lemma epoch_change_proof_safe_witness : exists e', 5 <= e' /\ 6 = e'.
Proof.
  destruct (@epoch_change_proof_safe toy_primitives example_crypto example_history 5
    (EpochChangeProof.new [example_li 4 40 true; example_li 5 50 true; example_li 6 60 true] false)
    (example_li 6 60 true)) as (e' & H1 & H2 & _ & _); [by vm_compute|].
  exists e'. split; [exact H1 | exact H2].
Defined.

End example.
