(* ===== verification/TrustedState.v ===== *)
(** * Light clients (types/src/trusted_state.rs, state_proof.rs,
    TransactionAccumulatorSummary of types/src/proof/definition.rs)

    A client keeps a [TrustedState] and ratchets it forward with state proofs.
    The theorems say that it never goes back to an older version, that its
    accumulator and its waypoint stay at the same version, and that it only ever
    trusts what quorums of the validators of each epoch committed. *)
From stdpp Require Import prelude gmap strings.
From Stdlib Require Import ZArith Lia.
From S2P Require Import Prelude Bits Hash HashValues Primitives ValidatorVerifier LedgerInfo EpochChange InMemAccumulator SparseMerkle.

Module AccumulatorConsistencyProof.
Record t := new { subtrees : list HashValue.t }.

Definition is_empty (self : t) : bool := bool_decide (subtrees self = []).
Definition into_subtrees (self : t) : list HashValue.t := subtrees self.
End AccumulatorConsistencyProof.

Module TransactionAccumulatorSummary.
Section summary.
Context `{Primitives} `{!MerkleHasher HashValue.t}.

Record t := mk { accumulator : InMemoryAccumulator.t HashValue.t }.

Definition new (accumulator : InMemoryAccumulator.t HashValue.t) : outcome string t :=
  ensure (negb (InMemoryAccumulator.is_empty accumulator))
    "empty accumulator: we can't verify consistency proofs from an empty accumulator" ;;
  Ok (mk accumulator).

Definition version (self : t) : Z := InMemoryAccumulator.version (accumulator self).

Definition root_hash (self : t) : HashValue.t := InMemoryAccumulator.root_hash (accumulator self).

Definition verify_consistency (self : t) (ledger_info : LedgerInfo.t) : outcome string unit :=
  ensure (LedgerInfo.version ledger_info =? version self)
    "ledger info and accumulator must be at the same version" ;;
  ensure (bool_decide (LedgerInfo.transaction_accumulator_hash ledger_info = root_hash self))
    "ledger info root hash and accumulator root hash must match".

Definition try_from_genesis_proof (genesis_proof : AccumulatorConsistencyProof.t) (target_version : Z)
    : outcome string t :=
  let num_txns := saturating_add target_version 1 in
  accumulator ← InMemoryAccumulator.new (AccumulatorConsistencyProof.into_subtrees genesis_proof) num_txns;
  Ok (mk accumulator).

Definition try_extend_with_proof (self : t) (consistency_proof : AccumulatorConsistencyProof.t)
    (target_li : LedgerInfo.t) : outcome string t :=
  ensure (version self <=? LedgerInfo.version target_li)
    "target ledger info version must be newer than our current accumulator summary version" ;;
  let num_new_txns := (LedgerInfo.version target_li - version self)%u64 in
  new_accumulator ← InMemoryAccumulator.append_subtrees (accumulator self)
    (AccumulatorConsistencyProof.subtrees consistency_proof) num_new_txns;
  let new_accumulator := mk new_accumulator in
  verify_consistency new_accumulator target_li ;;
  Ok new_accumulator.
End summary.
End TransactionAccumulatorSummary.

Module StateProof.
Section proof.
Context `{Primitives}.
Record t := new {
  latest_li_w_sigs : LedgerInfoWithSignatures.t;
  epoch_changes : EpochChangeProof.t;
  consistency_proof : AccumulatorConsistencyProof.t
}.

End proof.
Arguments t {_}.
End StateProof.

Module TrustedState.
Section state.
Context `{Primitives} `{!MerkleHasher HashValue.t}.
Context `{!CryptoHash LedgerInfo.t} `{!CryptoHash Ledger2WaypointConverter.t}.

Inductive t :=
| EpochWaypoint (waypoint : Waypoint.t)
| EpochState (waypoint : Waypoint.t) (epoch_state : EpochState.t)
    (accumulator : TransactionAccumulatorSummary.t).

Inductive TrustedStateChange :=
| Version (new_state : t)
| Epoch (new_state : t) (latest_epoch_change_li : LedgerInfoWithSignatures.t)
| NoChange.

Definition from_epoch_waypoint (epoch_waypoint : Waypoint.t) : t := EpochWaypoint epoch_waypoint.

Definition try_from_epoch_change_li (epoch_change_li : LedgerInfo.t)
    (accumulator : TransactionAccumulatorSummary.t) : outcome string t :=
  TransactionAccumulatorSummary.verify_consistency accumulator epoch_change_li ;;
  epoch_state ← ok_or (LedgerInfo.next_epoch_state epoch_change_li)
    "No EpochState in LedgerInfo; it must not be on an epoch boundary";
  waypoint ← Waypoint.new_epoch_boundary epoch_change_li;
  Ok (EpochState waypoint epoch_state accumulator).

Definition is_epoch_waypoint (self : t) : bool :=
  match self with EpochWaypoint _ => true | EpochState _ _ _ => false end.

Definition waypoint (self : t) : Waypoint.t :=
  match self with EpochWaypoint waypoint => waypoint | EpochState waypoint _ _ => waypoint end.

Definition version (self : t) : Z := Waypoint.version (waypoint self).

Definition accumulator_root_hash (self : t) : option HashValue.t :=
  match self with
  | EpochWaypoint _ => None
  | EpochState _ _ accumulator => Some (TransactionAccumulatorSummary.root_hash accumulator)
  end.

Definition accumulator_summary (self : t) : option TransactionAccumulatorSummary.t :=
  match self with EpochWaypoint _ => None | EpochState _ _ accumulator => Some accumulator end.

(** [impl Verifier for TrustedState] *)
#[global] Instance trusted_state_verifier : Verifier t := {
  verify self ledger_info :=
    match self with
    | EpochWaypoint waypoint => verify waypoint ledger_info
    | EpochState _ epoch_state _ => verify epoch_state ledger_info
    end;
  epoch_change_verification_required self epoch :=
    match self with
    | EpochWaypoint waypoint => epoch_change_verification_required waypoint epoch
    | EpochState _ epoch_state _ => epoch_change_verification_required epoch_state epoch
    end;
  is_ledger_info_stale self ledger_info :=
    match self with
    | EpochWaypoint waypoint => is_ledger_info_stale waypoint ledger_info
    | EpochState _ epoch_state _ => is_ledger_info_stale epoch_state ledger_info
    end
}.

(** The accumulator [verify_and_ratchet_inner] starts from. *)
Definition curr_accumulator (self : t) (epoch_change_proof : EpochChangeProof.t)
    (initial_accumulator : option TransactionAccumulatorSummary.t)
    : outcome string TransactionAccumulatorSummary.t :=
  match self with
  | EpochWaypoint _ =>
      curr_accumulator ← expect initial_accumulator;
      waypoint_li ← ok_or (head (EpochChangeProof.ledger_info_with_sigs epoch_change_proof))
        "Empty epoch change proof";
      TransactionAccumulatorSummary.verify_consistency curr_accumulator
        (LedgerInfoWithSignatures.ledger_info waypoint_li) ;;
      Ok curr_accumulator
  | EpochState _ _ accumulator => Ok accumulator
  end.

(** The ledger info to move to when there was an epoch change. *)
Definition verified_ledger_info (latest_li epoch_change_li : LedgerInfoWithSignatures.t)
    (new_epoch_state : EpochState.t) (more : bool) : outcome string LedgerInfoWithSignatures.t :=
  let new_epoch := EpochState.epoch new_epoch_state in
  let latest_epoch := LedgerInfo.epoch (LedgerInfoWithSignatures.ledger_info latest_li) in
  if bool_decide (epoch_change_li = latest_li) then Ok latest_li
  else if latest_epoch =? new_epoch then
    verify new_epoch_state latest_li ;; Ok latest_li
  else if (new_epoch <? latest_epoch) && more then Ok epoch_change_li
  else Err "Inconsistent epoch change proof and latest ledger info".

Definition verify_and_ratchet_inner (self : t) (latest_li : LedgerInfoWithSignatures.t)
    (epoch_change_proof : EpochChangeProof.t) (consistency_proof : AccumulatorConsistencyProof.t)
    (initial_accumulator : option TransactionAccumulatorSummary.t)
    : outcome string TrustedStateChange :=
  let curr_version := version self in
  let target_version := LedgerInfo.version (LedgerInfoWithSignatures.ledger_info latest_li) in
  ensure (curr_version <=? target_version)
    "The target latest ledger info version is stale and behind our current trusted version" ;;
  curr_accumulator ← curr_accumulator self epoch_change_proof initial_accumulator;
  if epoch_change_verification_required self
       (LedgerInfo.next_block_epoch (LedgerInfoWithSignatures.ledger_info latest_li))
  then
    epoch_change_li ← EpochChangeProof.verify epoch_change_proof self;
    new_epoch_state ← ok_or (LedgerInfo.next_epoch_state
                               (LedgerInfoWithSignatures.ledger_info epoch_change_li))
      "A valid EpochChangeProof will never return a non-epoch change ledger info";
    verified_ledger_info ← verified_ledger_info latest_li epoch_change_li new_epoch_state
                             (EpochChangeProof.more epoch_change_proof);
    let new_waypoint :=
      Waypoint.new_any (LedgerInfoWithSignatures.ledger_info verified_ledger_info) in
    new_accumulator ← TransactionAccumulatorSummary.try_extend_with_proof curr_accumulator
      consistency_proof (LedgerInfoWithSignatures.ledger_info verified_ledger_info);
    let new_state := EpochState new_waypoint new_epoch_state new_accumulator in
    Ok (Epoch new_state epoch_change_li)
  else
    match self with
    | EpochWaypoint _ => Err "EpochWaypoint can only verify an epoch change ledger info"%string
    | EpochState curr_waypoint curr_epoch_state _ =>
        let new_waypoint := Waypoint.new_any (LedgerInfoWithSignatures.ledger_info latest_li) in
        if Waypoint.version new_waypoint =? Waypoint.version curr_waypoint then
          ensure (bool_decide (new_waypoint = curr_waypoint))
            "LedgerInfo doesn't match verified state" ;;
          Ok NoChange
        else
          verify curr_epoch_state latest_li ;;
          new_accumulator ← TransactionAccumulatorSummary.try_extend_with_proof curr_accumulator
            consistency_proof (LedgerInfoWithSignatures.ledger_info latest_li);
          let new_state := EpochState new_waypoint curr_epoch_state new_accumulator in
          Ok (Version new_state)
    end.

Definition verify_and_ratchet (self : t) (state_proof : StateProof.t)
    (initial_accumulator : option TransactionAccumulatorSummary.t) : outcome string TrustedStateChange :=
  verify_and_ratchet_inner self (StateProof.latest_li_w_sigs state_proof)
    (StateProof.epoch_changes state_proof) (StateProof.consistency_proof state_proof)
    initial_accumulator.

Definition new_state (self : TrustedStateChange) : option t :=
  match self with
  | Version new_state | Epoch new_state _ => Some new_state
  | NoChange => None
  end.

End state.
Arguments t {_}.
Arguments TrustedStateChange {_}.
End TrustedState.

(** ** Invariants *)

Import TrustedState.

Section invariants.
Context `{Primitives} `{!MerkleHasher HashValue.t}.
Context `{!CryptoHash LedgerInfo.t} `{!CryptoHash Ledger2WaypointConverter.t}.

(** The accumulator is at the version of the waypoint. *)
Definition consistent (s : TrustedState.t) : Prop :=
  match s with
  | EpochWaypoint _ => True
  | EpochState waypoint _ accumulator =>
      TransactionAccumulatorSummary.version accumulator = Waypoint.version waypoint
  end.

Lemma verify_consistency_Ok acc li :
  TransactionAccumulatorSummary.verify_consistency acc li = Ok tt <->
  TransactionAccumulatorSummary.version acc = LedgerInfo.version li /\
  TransactionAccumulatorSummary.root_hash acc = LedgerInfo.transaction_accumulator_hash li.
Proof.
  unfold TransactionAccumulatorSummary.verify_consistency. split.
  - intros H1. outcome_inv. apply Z.eqb_eq in Ha. by apply bool_decide_eq_true in H1.
  - intros [-> ->]. by rewrite Z.eqb_refl, bool_decide_true.
Qed.

Lemma extend_inv acc proof li acc' :
  TransactionAccumulatorSummary.try_extend_with_proof acc proof li = Ok acc' ->
  TransactionAccumulatorSummary.version acc <= LedgerInfo.version li /\
  TransactionAccumulatorSummary.version acc' = LedgerInfo.version li /\
  TransactionAccumulatorSummary.root_hash acc' = LedgerInfo.transaction_accumulator_hash li.
Proof.
  unfold TransactionAccumulatorSummary.try_extend_with_proof. intros H1. outcome_inv.
  apply Z.leb_le in Ha. destruct a1. by apply verify_consistency_Ok in Ha1.
Qed.

(** How a successful ratchet gets to its new state: with the accumulator
    extended to a ledger info that is new, verified by the current epoch or at
    the end of a verified chain of epoch changes. *)
Lemma ratchet_inv self latest proof cproof init change s' :
  verify_and_ratchet_inner self latest proof cproof init = Ok change -> new_state change = Some s' ->
  exists li es acc acc',
    s' = EpochState (Waypoint.new_any (LedgerInfoWithSignatures.ledger_info li)) es acc' /\
    curr_accumulator self proof init = Ok acc /\
    TransactionAccumulatorSummary.try_extend_with_proof acc cproof
      (LedgerInfoWithSignatures.ledger_info li) = Ok acc' /\
    ((exists w acc0, self = EpochState w es acc0 /\ li = latest /\ verify es li = Ok tt /\
        Waypoint.version w <= LedgerInfo.version (LedgerInfoWithSignatures.ledger_info li)) \/
     (exists ec, EpochChangeProof.verify proof self = Ok ec /\
        LedgerInfo.next_epoch_state (LedgerInfoWithSignatures.ledger_info ec) = Some es /\
        (li = ec \/ li = latest /\ verify es li = Ok tt) /\
        version self <= LedgerInfo.version (LedgerInfoWithSignatures.ledger_info latest))).
Proof.
  unfold verify_and_ratchet_inner. intros H1 Hs. apply bind_Ok_inv in H1 as ([] & Hle & H1).
  apply ensure_Ok_inv, Z.leb_le in Hle. apply bind_Ok_inv in H1 as (acc & Hacc & H1).
  destruct (epoch_change_verification_required _ _).
  - apply bind_Ok_inv in H1 as (ec & Hec & H1). apply bind_Ok_inv in H1 as (es & Hes & H1).
    apply bind_Ok_inv in H1 as (li & Hli & H1). apply bind_Ok_inv in H1 as (acc' & Hacc' & H1).
    injection H1 as <-. injection Hs as <-. apply ok_or_Ok_inv in Hes.
    exists li, es, acc, acc'. split_and!; [done..|]. right. exists ec. split_and!; [done..| |done].
    unfold verified_ledger_info in Hli. case_bool_decide; [left; congruence|].
    destruct (_ =? _); [|destruct (_ && _); [left; congruence | discriminate]].
    outcome_inv. destruct a. by right.
  - destruct self as [w | w es acc0]; [done|]. cbv zeta in H1.
    destruct (_ =? _); [outcome_inv; discriminate|].
    apply bind_Ok_inv in H1 as ([] & Hv & H1). apply bind_Ok_inv in H1 as (acc' & Hacc' & H1).
    injection H1 as <-. injection Hs as <-.
    exists latest, es, acc, acc'. split_and!; [done..|]. left. eauto 6.
Qed.

Lemma epoch_change_fresh `{!Verifier V} (v : V) proof li : EpochChangeProof.verify proof v = Ok li ->
  is_ledger_info_stale v (LedgerInfoWithSignatures.ledger_info li) = false.
Proof. unfold EpochChangeProof.verify. intros H1. outcome_inv. by apply negb_true_iff. Qed.

(** Ratcheting a trusted state forward. If [verify_and_ratchet] returns a new
    state, its version is not smaller than the old one, it is inside an epoch
    (no longer a bare waypoint), its accumulator summary is at the version of
    its waypoint, and the root hash of the summary is the one in the ledger
    info the waypoint was made from, which is the latest ledger info or one of
    the epoch change proof. *)
Theorem ratchet_monotonic self state_proof init change s' :
  consistent self -> verify_and_ratchet self state_proof init = Ok change ->
  new_state change = Some s' ->
  version self <= version s' /\ consistent s' /\ is_epoch_waypoint s' = false /\
  exists li, li ∈ StateProof.latest_li_w_sigs state_proof ::
               EpochChangeProof.ledger_info_with_sigs (StateProof.epoch_changes state_proof) /\
    waypoint s' = Waypoint.new_any (LedgerInfoWithSignatures.ledger_info li) /\
    accumulator_root_hash s' =
      Some (LedgerInfo.transaction_accumulator_hash (LedgerInfoWithSignatures.ledger_info li)).
Proof.
  intros Hc Hr Hs. destruct (ratchet_inv _ _ _ _ _ _ _ Hr Hs)
    as (li & es & acc & acc' & -> & Hacc & Hext & Hcase).
  apply extend_inv in Hext as (Hold & Hv & Hroot). cbn [version waypoint consistent is_epoch_waypoint].
  split_and!; [|done|done|].
  - destruct Hcase as [(w & acc0 & -> & _ & _ & Hle)|(ec & Hec & _ & Hli & Hle)]; [done|].
    destruct Hli as [->|[-> _]]; [|done]. apply epoch_change_fresh in Hec.
    destruct self as [w|w es0 acc0].
    + cbn in Hec. by apply Z.ltb_ge in Hec.
    + cbn in Hacc, Hc. injection Hacc as <-. rewrite Hc in Hold. exact Hold.
  - exists li. split; [|split; [done | cbn; by rewrite Hroot]].
    destruct Hcase as [(w & acc0 & _ & -> & _)|(ec & Hec & _ & [->|[-> _]] & _)]; [left| |left].
    right. apply epoch_change_verified in Hec as (lis & _ & Hl & Hsub).
    apply Hsub, last_Some_elem_of, Hl.
Qed.
End invariants.

(** ** Safety *)

Section safety.
Context `{Primitives} `{!MerkleHasher HashValue.t}.
Context `{!CryptoHash LedgerInfo.t} `{!CryptoHash Ledger2WaypointConverter.t} `{!History}.

Abbreviation li_of b := (LedgerInfo.new b HashValue.zero).

(** The state is about a committed block info, with the
    validator set of its epoch or of the next one. *)
Definition trusted (s : TrustedState.t) : Prop :=
  match s with
  | EpochWaypoint waypoint => exists b es,
      committed b /\ BlockInfo.next_epoch_state b = Some es /\ waypoint = Waypoint.new_any (li_of b)
  | EpochState waypoint epoch_state accumulator => exists b e,
      committed b /\ waypoint = Waypoint.new_any (li_of b) /\ epoch_state = epoch_states e /\
      BlockInfo.epoch b <= e <= BlockInfo.next_block_epoch b /\
      TransactionAccumulatorSummary.version accumulator = BlockInfo.version b /\
      TransactionAccumulatorSummary.root_hash accumulator = BlockInfo.executed_state_id b
  end.

Lemma next_block_epoch_le b : committed b -> BlockInfo.epoch b <= BlockInfo.next_block_epoch b.
Proof.
  intros Hb. unfold BlockInfo.next_block_epoch.
  destruct (BlockInfo.next_epoch_state b) as [es|] eqn:E; cbn [from_option]; [|lia].
  apply committed_next in E as ->; [|done]. rewrite epoch_states_epoch. lia.
Qed.

(** An accepted chain of epoch changes ends in (what a waypoint keeps of) a
    committed epoch-ending block info. *)
Lemma trusted_epoch_change self proof ec : trusted self ->
  waypoints_distinct (EpochChangeProof.ledger_info_with_sigs proof) ->
  EpochChangeProof.verify proof self = Ok ec ->
  exists b, committed b /\ converter_of (LedgerInfoWithSignatures.commit_info ec) = converter_of b /\
    BlockInfo.next_epoch_state b = Some (epoch_states (BlockInfo.epoch b + 1)).
Proof.
  intros Ht Hd (lis & Hl & Hlast & Hsub)%epoch_change_verified.
  destruct self as [w | w es acc]; cbn in Ht.
  - destruct Ht as (b & es & Hb & Hes & ->).
    destruct (waypoint_chain b lis ec es Hb Hes) as (b' & _ & ? & ? & ?); [|done..|by exists b'].
    intros x b0 Hx. apply Hd. by apply Hsub.
  - destruct Ht as (b & e & Hb & _ & -> & _).
    destruct (verify_loop_committed _ _ _ Hl Hlast) as (e' & _ & He & Hc & Hn).
    exists (LedgerInfoWithSignatures.commit_info ec). split_and!; [done..|].
    unfold LedgerInfo.epoch in He. unfold LedgerInfoWithSignatures.commit_info. by rewrite He.
Qed.

(** C16: Ratcheting is safe. Suppose the hypotheses of [History]: non-empty
    validator sets with a total power that can be doubled in a u64, the block
    infos signed by more than two thirds of the power of one epoch on one chain,
    the next epoch state repeated after a reconfiguration, and the validators of an
    epoch those a committed end of the epoch before carries. Suppose also that the
    waypoint hash tells the ledger infos of the proof from different committed
    ones. Then a client whose state is about a committed block info moves, with
    any state proof it accepts, only to a state about a committed block info: its
    waypoint, its epoch's validator set, and its accumulator's version and root
    hash are those of the committed chain. *)
Theorem ratchet_safe self state_proof init change s' : trusted self ->
  waypoints_distinct (EpochChangeProof.ledger_info_with_sigs (StateProof.epoch_changes state_proof)) ->
  verify_and_ratchet self state_proof init = Ok change -> new_state change = Some s' -> trusted s'.
Proof.
  intros Ht Hd Hr Hs. destruct (ratchet_inv _ _ _ _ _ _ _ Hr Hs)
    as (li & es & acc & acc' & -> & _ & (_ & Hv & Hroot)%extend_inv & Hcase). cbn [trusted].
  assert (forall e, verify (epoch_states e) li = Ok tt ->
    exists b e0, committed b /\
      Waypoint.new_any (LedgerInfoWithSignatures.ledger_info li) = Waypoint.new_any (li_of b) /\
      epoch_states e = epoch_states e0 /\ BlockInfo.epoch b <= e0 <= BlockInfo.next_block_epoch b /\
      TransactionAccumulatorSummary.version acc' = BlockInfo.version b /\
      TransactionAccumulatorSummary.root_hash acc' = BlockInfo.executed_state_id b) as Hsigned.
  { intros e [He Hc]%epoch_state_verified. exists (LedgerInfoWithSignatures.commit_info li), e.
    pose proof (next_block_epoch_le _ Hc).
    change (LedgerInfo.epoch (LedgerInfoWithSignatures.ledger_info li)) with
      (BlockInfo.epoch (LedgerInfoWithSignatures.commit_info li)) in He.
    split_and!; try done; lia. }
  destruct Hcase as [(w & acc0 & -> & -> & Hver & _)|(ec & Hec & Hes & Hli & _)].
  - destruct Ht as (b & e & _ & _ & -> & _). by apply Hsigned.
  - destruct (trusted_epoch_change _ _ _ Ht Hd Hec) as (b & Hb & Hconv & Hn).
    pose proof Hconv as Hconv'. injection Hconv' as _ Hrt Hvr _ Hnx.
    change (LedgerInfo.next_epoch_state (LedgerInfoWithSignatures.ledger_info ec)
            = BlockInfo.next_epoch_state b) in Hnx.
    rewrite Hes, Hn in Hnx. injection Hnx as ->.
    destruct Hli as [->|[_ Hver]]; [|by apply Hsigned].
    exists b, (BlockInfo.epoch b + 1). split_and!; [done| |done|lia| |by rewrite Hv|by rewrite Hroot].
    + unfold Waypoint.new_any. f_equal; [exact Hvr|]. by f_equal.
    + unfold BlockInfo.next_block_epoch. rewrite Hn. cbn. rewrite epoch_states_epoch. lia.
Qed.

End safety.

(** ** A concrete client

    It trusts version 1, of epoch 5 or at the end of epoch 4, and is shown
    version 3 of epoch 5. *)
Section example.
#[local] Existing Instance toy_primitives.
#[local] Existing Instance example_crypto.
#[local] Existing Instance example_history.
#[local] Instance example_hasher : MerkleHasher HashValue.t := transaction_accumulator_hasher toy_sha3.
#[local] Instance example_converter : CryptoHash Ledger2WaypointConverter.t :=
  toy_crypto (fun c => HashValue.mk
    ([Ledger2WaypointConverter.epoch c; Ledger2WaypointConverter.version c;
      Ledger2WaypointConverter.timestamp_usecs c;
      match Ledger2WaypointConverter.next_epoch_state c with Some _ => 1 | None => 0 end]
     ++ HashValue.hash (Ledger2WaypointConverter.root_hash c))).

Definition example_leaves : list HashValue.t := (fun n => toy_sha3 [n]) <$> [1; 2; 3; 4].

Definition example_summary (n : nat) : TransactionAccumulatorSummary.t :=
  match InMemoryAccumulator.from_leaves (take n example_leaves) with
  | Ok a => TransactionAccumulatorSummary.mk a
  | _ => TransactionAccumulatorSummary.mk InMemoryAccumulator.new_empty
  end.

Definition example_block (n : nat) : BlockInfo.t :=
  BlockInfo.new 5 0 HashValue.zero (TransactionAccumulatorSummary.root_hash (example_summary n))
    (Z.of_nat n - 1) 0 None.

Definition example_signed (n : nat) : LedgerInfoWithSignatures.t :=
  let li := LedgerInfo.new (example_block n) HashValue.zero in
  LedgerInfoWithSignatures.new li
    (list_to_map ((fun k => (k, (k, example_hash li))) <$> [2; 3; 4])).

Definition example_state (n : nat) : TrustedState.t :=
  EpochState (Waypoint.new_any (LedgerInfo.new (example_block n) HashValue.zero))
    (example_epoch 5) (example_summary n).

Definition example_proof : StateProof.t :=
  StateProof.new (example_signed 4) (EpochChangeProof.new [] false)
    (AccumulatorConsistencyProof.new [hash_internal_node (toy_sha3 [3]) (toy_sha3 [4])]).

Lemma ratchet_monotonic_witness : 1 <= 3.
Proof.
  refine (proj1 (ratchet_monotonic (example_state 2) example_proof None
    (TrustedState.Version (example_state 4)) (example_state 4) _ _ _)); by vm_compute.
Defined.

(** The end of epoch 4, at version 1. *)
Definition example_end : BlockInfo.t :=
  BlockInfo.new 4 0 HashValue.zero (TransactionAccumulatorSummary.root_hash (example_summary 2)) 1 0
    (Some (example_epoch 5)).

Definition example_end_signed : LedgerInfoWithSignatures.t :=
  let li := LedgerInfo.new example_end HashValue.zero in
  LedgerInfoWithSignatures.new li
    (list_to_map ((fun k => (k, (k, example_hash li))) <$> [2; 3; 4])).

Definition example_epoch_proof : StateProof.t :=
  StateProof.new (example_signed 4) (EpochChangeProof.new [example_end_signed] false)
    (AccumulatorConsistencyProof.new [hash_internal_node (toy_sha3 [3]) (toy_sha3 [4])]).

Lemma example_end_committed : committed example_end.
Proof.
  apply (epoch_state_verified 4 example_end_signed). by vm_compute.
Qed.

(** The waypoint hash determines what a waypoint keeps of a committed block. *)
Lemma example_hash_inj (c c' : Ledger2WaypointConverter.t) : crypto_hash c = crypto_hash c' ->
  (forall es es', Ledger2WaypointConverter.next_epoch_state c = Some es ->
     Ledger2WaypointConverter.next_epoch_state c' = Some es' -> es = es') -> c = c'.
Proof.
  destruct c as [e [root] v t next], c' as [e' [root'] v' t' next'].
  unfold crypto_hash. cbn. intros [= -> -> -> Hn ->] Hes.
  destruct next as [es|], next' as [es'|]; [|done..]. by rewrite (Hes es es').
Qed.

Lemma example_distinct : waypoints_distinct [example_end_signed].
Proof.
  intros x b ->%list_elem_of_singleton Hb%example_committed_by c Hc.
  pose proof Hc as He. unfold c, crypto_hash in He. injection He as He _.
  apply example_hash_inj; [done|]. intros es es' [= <-] Hes.
  unfold example_committed in Hb. change (BlockInfo.next_epoch_state b = Some es') in Hes.
  change (4 = BlockInfo.epoch b) in He. rewrite Hes in Hb. by rewrite Hb, <- He.
Qed.

(** From the waypoint of the end of epoch 4 to version 3 of epoch 5. *)
Lemma ratchet_safe_witness : trusted (example_state 4).
Proof.
  apply (ratchet_safe (TrustedState.from_epoch_waypoint (Waypoint.new_any (LedgerInfo.new example_end HashValue.zero)))
    example_epoch_proof (Some (example_summary 2))
    (TrustedState.Epoch (example_state 4) example_end_signed) (example_state 4)).
  - exists example_end, (example_epoch 5). split_and!; [apply example_end_committed | done..].
  - apply example_distinct.
  - by vm_compute.
  - done.
Defined.
End example.
