(* ===== verification/TransactionProofs.v ===== *)
(** * Transaction proofs (types/src/proof/definition.rs, types/src/proof/mod.rs,
    TransactionInfo of types/src/transaction/mod.rs)

    The proofs clients receive: from the root hash of a ledger info to a
    transaction info, and from there to an account state or an event. The
    theorems compose the soundness of the accumulator and of the sparse Merkle
    tree. *)
From stdpp Require Import prelude gmap strings.
From Stdlib Require Import ZArith Lia.
From S2P Require Import Prelude Bits Positions Hash MerkleSpec HashValues InMemAccumulator AccumulatorProofs SparseMerkle Primitives LedgerInfo.

(** [TransactionInfo] has the single variant [V0(TransactionInfoV0)] it
    dereferences to. [KeptVMStatus] is a type of move-core-types. *)
Module TransactionInfo.
Section info.
Context {KeptVMStatus : Type}.
Record t := mk {
  gas_used : Z;
  status : KeptVMStatus;
  transaction_hash : HashValue.t;
  event_root_hash : HashValue.t;
  state_change_hash : HashValue.t;
  state_checkpoint_hash : option HashValue.t
}.

Definition new (transaction_hash state_change_hash event_root_hash : HashValue.t) (gas_used : Z)
    (status : KeptVMStatus) : t :=
  mk gas_used status transaction_hash event_root_hash state_change_hash None.
End info.
Arguments t : clear implicits.
End TransactionInfo.

Section proofs.
Context `{Primitives} {KeptVMStatus : Type} (sha3_256 : list Z -> HashValue.t).
(** [CryptoHash::hash] of a transaction info and of an account state blob. *)
Context (info_hash : TransactionInfo.t KeptVMStatus -> HashValue.t).
Context {AccountStateBlob : Type} (blob_hash : AccountStateBlob -> HashValue.t).
#[local] Instance txn_hasher : MerkleHasher HashValue.t := transaction_accumulator_hasher sha3_256.

Definition verify_transaction_info (ledger_info : LedgerInfo.t) (transaction_version : Z)
    (transaction_info : TransactionInfo.t KeptVMStatus)
    (ledger_info_to_transaction_info_proof : AccumulatorProof.t HashValue.t) : outcome string unit :=
  ensure (transaction_version <=? LedgerInfo.version ledger_info)
    "Transaction version is newer than LedgerInfo version." ;;
  let transaction_info_hash := info_hash transaction_info in
  AccumulatorProof.verify ledger_info_to_transaction_info_proof
    (LedgerInfo.transaction_accumulator_hash ledger_info) transaction_info_hash transaction_version.

Record TransactionInfoWithProof := mk_TransactionInfoWithProof {
  ledger_info_to_transaction_info_proof : AccumulatorProof.t HashValue.t;
  transaction_info : TransactionInfo.t KeptVMStatus
}.

Definition TransactionInfoWithProof_verify (self : TransactionInfoWithProof)
    (ledger_info : LedgerInfo.t) (transaction_version : Z) : outcome string unit :=
  verify_transaction_info ledger_info transaction_version (transaction_info self)
    (ledger_info_to_transaction_info_proof self).

Record AccountStateProof := mk_AccountStateProof {
  account_transaction_info_with_proof : TransactionInfoWithProof;
  transaction_info_to_account_proof : SparseMerkleProof.t
}.

Definition AccountStateProof_verify (self : AccountStateProof) (ledger_info : LedgerInfo.t)
    (state_version : Z) (account_address_hash : HashValue.t)
    (account_state_blob : option AccountStateBlob) : outcome string unit :=
  SparseMerkleProof.verify sha3_256 blob_hash (transaction_info_to_account_proof self)
    (TransactionInfo.state_change_hash (transaction_info (account_transaction_info_with_proof self)))
    account_address_hash account_state_blob ;;
  TransactionInfoWithProof_verify (account_transaction_info_with_proof self) ledger_info state_version.

Record EventProof := mk_EventProof {
  event_transaction_info_with_proof : TransactionInfoWithProof;
  transaction_info_to_event_proof : AccumulatorProof.t HashValue.t
}.

Definition EventProof_verify (self : EventProof) (ledger_info : LedgerInfo.t)
    (event_hash : HashValue.t) (transaction_version event_version_within_transaction : Z)
    : outcome string unit :=
  @AccumulatorProof.verify _ (event_accumulator_hasher sha3_256) (transaction_info_to_event_proof self)
    (TransactionInfo.event_root_hash (transaction_info (event_transaction_info_with_proof self)))
    event_hash event_version_within_transaction ;;
  TransactionInfoWithProof_verify (event_transaction_info_with_proof self) ledger_info transaction_version.

Record TransactionInfoListWithProof := mk_TransactionInfoListWithProof {
  ledger_info_to_transaction_infos_proof : AccumulatorRangeProof.t HashValue.t;
  transaction_infos : list (TransactionInfo.t KeptVMStatus)
}.

Definition TransactionInfoListWithProof_new_empty : TransactionInfoListWithProof :=
  mk_TransactionInfoListWithProof (AccumulatorRangeProof.new_empty) [].

Definition TransactionInfoListWithProof_verify (self : TransactionInfoListWithProof)
    (ledger_info : LedgerInfo.t) (first_transaction_info_version : option Z) : outcome string unit :=
  let txn_info_hashes := info_hash <$> transaction_infos self in
  AccumulatorRangeProof.verify (ledger_info_to_transaction_infos_proof self)
    (LedgerInfo.transaction_accumulator_hash ledger_info) first_transaction_info_version txn_info_hashes.

Definition verify_extends_ledger (self : TransactionInfoListWithProof) (num_txns_in_ledger : Z)
    (root_hash : HashValue.t) (first_transaction_info_version : option Z) : outcome string Z :=
  match first_transaction_info_version with
  | Some first_version =>
      ensure (first_version <=? num_txns_in_ledger) "Transaction list too new." ;;
      let num_overlap_txns := (num_txns_in_ledger - first_version)%u64 in
      if Z.of_nat (length (transaction_infos self)) <? num_overlap_txns
      then Ok (Z.of_nat (length (transaction_infos self)))
      else
        let overlap_txn_infos := take (Z.to_nat num_overlap_txns) (transaction_infos self) in
        let frozen_subtree_roots_from_proof :=
          rev (AccumulatorRangeProof.left_siblings (ledger_info_to_transaction_infos_proof self)) in
        accu_before ← InMemoryAccumulator.new frozen_subtree_roots_from_proof first_version;
        accu_from_proof ← InMemoryAccumulator.append accu_before (info_hash <$> overlap_txn_infos);
        ensure (bool_decide (InMemoryAccumulator.root_hash accu_from_proof = root_hash))
          "Fork happens because the current synced_trees doesn't match the txn list provided." ;;
        Ok num_overlap_txns
  | None =>
      ensure (bool_decide (transaction_infos self = []))
        "Condition failed: `self.transaction_infos.is_empty()`" ;;
      Ok 0
  end.

(** ** Soundness *)

(** The ledger info of a ledger with the transaction infos [infos]. *)
Definition ledger_of (ledger_info : LedgerInfo.t) (infos : list (TransactionInfo.t KeptVMStatus)) : Prop :=
  LedgerInfo.version ledger_info = num (info_hash <$> infos) - 1 /\
  LedgerInfo.transaction_accumulator_hash ledger_info = merkle_root (info_hash <$> infos).

(** No collision among the hashes computed for the ledger and to verify the
    proof of a transaction info: of internal nodes, of internal nodes with
    transaction infos or the placeholder, and of transaction infos. *)
Record no_ledger_collision (infos : list (TransactionInfo.t KeptVMStatus)) (version : Z)
    (p : TransactionInfoWithProof) : Prop := {
  nodes_collision_free :
    collision_free (path_pairs (info_hash (transaction_info p)) version
        (AccumulatorProof.siblings (ledger_info_to_transaction_info_proof p))
      ++ tree_pairs (depth_nat (info_hash <$> infos)) (info_hash <$> infos));
  nodes_separated :
    separated (path_pairs (info_hash (transaction_info p)) version
        (AccumulatorProof.siblings (ledger_info_to_transaction_info_proof p))
      ++ tree_pairs (depth_nat (info_hash <$> infos)) (info_hash <$> infos))
      (ACCUMULATOR_PLACEHOLDER_HASH :: info_hash (transaction_info p) :: (info_hash <$> infos));
  info_not_placeholder : info_hash (transaction_info p) <> ACCUMULATOR_PLACEHOLDER_HASH;
  infos_distinct x : x ∈ infos -> info_hash x = info_hash (transaction_info p) -> x = transaction_info p
}.

(** An accepted proof is of the transaction info the ledger has at that version. *)
Lemma transaction_info_located ledger_info infos version p :
  ledger_of ledger_info infos -> 0 <= version -> no_ledger_collision infos version p ->
  TransactionInfoWithProof_verify p ledger_info version = Ok tt ->
  infos !! Z.to_nat version = Some (transaction_info p).
Proof.
  intros [Hver Hroot] Hv [Hcf Hsep Hph Hinj] H1.
  unfold TransactionInfoWithProof_verify, verify_transaction_info in H1. outcome_inv.
  apply Z.leb_le in Ha. rewrite Hroot in H1.
  assert (version < num (info_hash <$> infos)) as Hlt by lia.
  apply proof_located in H1 as [_ Hl]; [|by intros E; rewrite E in Hlt; change (num []) with 0 in Hlt; lia|done..].
  pose proof (num_le_depth (info_hash <$> infos)).
  rewrite Z.mod_small in Hl by lia. rewrite list_lookup_fmap in Hl.
  destruct (infos !! Z.to_nat version) as [x|] eqn:E; [|done]. injection Hl as Hl.
  f_equal. apply Hinj; [by eapply list_elem_of_lookup_2 | done].
Qed.

(** C20: Account state proofs are sound. Without hash collisions, a proof that
    [AccountStateProof::verify] accepts for version [v] of a ledger tells the
    truth about the account in the state tree of the transaction at version
    [v]: that it has the given blob, or that it does not exist. *)
Theorem account_state_proof_sound ledger_info infos version proof key blob t :
  ledger_of ledger_info infos -> 0 <= version ->
  no_ledger_collision infos version (account_transaction_info_with_proof proof) ->
  (forall x, sized (sha3_256 x)) -> placed [] t -> sized key ->
  proof_sized (transaction_info_to_account_proof proof) ->
  no_collision sha3_256 (salts ++ preimages sha3_256 t ++
    proof_preimages sha3_256 (transaction_info_to_account_proof proof) key) ->
  (forall info, infos !! Z.to_nat version = Some info ->
    TransactionInfo.state_change_hash info = root_hash sha3_256 t) ->
  AccountStateProof_verify proof ledger_info version key blob = Ok tt ->
  match blob with
  | Some b => (key, blob_hash b) ∈ leaves t
  | None => forall vh, (key, vh) ∉ leaves t
  end.
Proof.
  intros Hl Hv Hc Hsha Ht Hk Hp Hnc Hstate H1. unfold AccountStateProof_verify in H1.
  apply bind_Ok_inv in H1 as ([] & H1 & H2).
  eapply transaction_info_located in H2; [|done..]. rewrite (Hstate _ H2) in H1.
  by eapply sparse_verified.
Qed.

(** Extending a ledger. For a ledger with the transaction infos [infos],
    [verify_extends_ledger] refuses a list that starts after its end; it
    accepts, with the number of overlapping infos, a list that continues the
    ledger after its first [first] infos and whose proof has the left siblings
    of that position; a list that lies in the past is counted in full. *)
Theorem verify_extends_ledger_spec infos proof first root :
  let ls := info_hash <$> infos in
  num ls < 2 ^ 64 -> 0 <= first -> root = merkle_root ls ->
  (num ls < first -> exists e, verify_extends_ledger proof (num ls) root (Some first) = Err e) /\
  (first <= num ls -> num (info_hash <$> transaction_infos proof) < num ls - first ->
     verify_extends_ledger proof (num ls) root (Some first)
     = Ok (num (info_hash <$> transaction_infos proof))) /\
  (first <= num ls -> drop (Z.to_nat first) infos `prefix_of` transaction_infos proof ->
     rev (AccumulatorRangeProof.left_siblings (ledger_info_to_transaction_infos_proof proof))
       = frozen_roots (take (Z.to_nat first) ls) ->
     verify_extends_ledger proof (num ls) root (Some first) = Ok (num ls - first)).
Proof.
  intros ls Hn H0 ->. unfold verify_extends_ledger.
  assert (num (info_hash <$> transaction_infos proof) = Z.of_nat (length (transaction_infos proof)))
    as Hlen by (unfold num; by rewrite length_fmap).
  split_and!.
  - intros Hlt. rewrite (proj2 (Z.leb_gt _ _)) by done. by eexists.
  - intros Hle Hlt. rewrite (proj2 (Z.leb_le _ _)) by done. cbn [ensure]. rewrite bind_Ok.
    cbv zeta. rewrite u64_sub_small by lia. rewrite <- Hlen.
    by rewrite (proj2 (Z.ltb_lt _ _)) by lia.
  - intros Hle [rest Hrest] Hroots. rewrite (proj2 (Z.leb_le _ _)) by done. cbn [ensure]. rewrite bind_Ok.
    cbv zeta. rewrite u64_sub_small by lia.
    assert (length (drop (Z.to_nat first) infos) = Z.to_nat (num ls - first)) as Hd.
    { unfold num, ls in *. rewrite length_drop, length_fmap. rewrite length_fmap in Hle. lia. }
    rewrite (proj2 (Z.ltb_ge _ _)).
    2:{ rewrite Hrest, length_app, Hd. lia. }
    rewrite Hroots, Hrest, take_app_le, take_ge by lia.
    assert (first = num (take (Z.to_nat first) ls)) as Hfirst.
    { unfold num in *. rewrite length_take. lia. }
    assert (num (take (Z.to_nat first) ls) + num (info_hash <$> drop (Z.to_nat first) infos) = num ls)
      as Hsum by (rewrite fmap_drop, <- num_app, take_drop; done).
    rewrite Hfirst at 2. rewrite new_frozen, bind_Ok by lia.
    rewrite append_frozen, bind_Ok by lia.
    rewrite fmap_drop. fold ls. rewrite take_drop, bool_decide_true by done. done.
Qed.

End proofs.

(** ** A concrete ledger

    Three transactions; the second leaves the state [sample_tree]. *)
Section example.
#[local] Existing Instance toy_primitives.
#[local] Instance toy_hasher : MerkleHasher HashValue.t := transaction_accumulator_hasher toy_sha3.

Definition example_info (gas : Z) (state : HashValue.t) : TransactionInfo.t unit :=
  TransactionInfo.new (toy_sha3 [gas]) state HashValue.zero gas tt.

Definition example_info_hash (info : TransactionInfo.t unit) : HashValue.t :=
  toy_sha3 (TransactionInfo.gas_used info :: HashValue.hash (TransactionInfo.state_change_hash info)).

Definition example_infos : list (TransactionInfo.t unit) :=
  [example_info 1 HashValue.zero; example_info 2 (root_hash toy_sha3 sample_tree); example_info 3 HashValue.zero].

Definition example_ledger : LedgerInfo.t :=
  LedgerInfo.new (BlockInfo.new 0 0 HashValue.zero (merkle_root (example_info_hash <$> example_infos)) 2 0 None)
    HashValue.zero.

Definition example_account_proof : AccountStateProof :=
  mk_AccountStateProof
    (mk_TransactionInfoWithProof (proof_of (example_info_hash <$> example_infos) 1)
       (example_info 2 (root_hash toy_sha3 sample_tree)))
    (proof_of_key toy_sha3 sample_tree (key_of 64)).

Lemma example_no_collision :
  no_ledger_collision toy_sha3 example_info_hash example_infos 1
    (account_transaction_info_with_proof example_account_proof).
Proof.
  split.
  - apply collision_free_check, (bool_decide_unpack _). vm_compute. exact I.
  - unfold separated. apply Forall_forall. apply (bool_decide_unpack _). vm_compute. exact I.
  - intros E. vm_compute in E. discriminate.
  - intros x Hx. unfold example_infos in Hx. rewrite !elem_of_cons, elem_of_nil in Hx.
    destruct Hx as [->|[->|[->|[]]]]; intros E; [vm_compute in E; discriminate | done |].
    vm_compute in E. discriminate.
Qed.

Lemma account_state_proof_sound_witness : (key_of 64, toy_sha3 [2]) ∈ leaves sample_tree.
Proof.
  apply (account_state_proof_sound toy_sha3 example_info_hash (fun v => toy_sha3 [v]) example_ledger
    example_infos 1 example_account_proof (key_of 64) (Some 2) sample_tree).
  - split; vm_compute; reflexivity.
  - done.
  - apply example_no_collision.
  - apply toy_sha3_sized.
  - apply sample_placed.
  - concrete.
  - concrete.
  - concrete.
  - by intros info [= <-].
  - concrete.
Defined.

Lemma verify_extends_ledger_spec_witness :
  verify_extends_ledger toy_sha3 example_info_hash
    (mk_TransactionInfoListWithProof
       (AccumulatorRangeProof.new [example_info_hash (example_info 1 HashValue.zero)] [])
       (drop 1 example_infos ++ [example_info 4 HashValue.zero]))
    3 (merkle_root (example_info_hash <$> example_infos)) (Some 1) = Ok 2.
Proof.
  destruct (verify_extends_ledger_spec toy_sha3 example_info_hash example_infos
    (mk_TransactionInfoListWithProof
       (AccumulatorRangeProof.new [example_info_hash (example_info 1 HashValue.zero)] [])
       (drop 1 example_infos ++ [example_info 4 HashValue.zero]))
    1 (merkle_root (example_info_hash <$> example_infos))) as (_ & _ & H3); [done..|].
  apply H3; [done | by apply prefix_app_r | vm_compute; reflexivity].
Defined.
End example.
