(* ===== verification/ConsensusTypes.v ===== *)
(** * Consensus data (consensus/consensus-types/src)

    Votes, quorum and timeout certificates with their verification, validator
    signers and the safety data. *)
From stdpp Require Import prelude gmap strings.
From Stdlib Require Import ZArith Lia.
From S2P Require Import Prelude Bits Hash HashValues Primitives ValidatorVerifier LedgerInfo EpochChange InMemAccumulator AccumulatorProofs.

(** [res.context(msg)] on a [VerifyError]. *)
Definition context {E A} (msg : string) (m : outcome E A) : outcome string A :=
  map_err (fun _ => msg) m.

(** ** vote_data.rs *)

Module VoteData.
Section data.
Context `{Primitives}.
Record t := new { proposed : BlockInfo.t; parent : BlockInfo.t }.

#[global] Instance t_eq_dec : EqDecision t.
Proof. solve_decision. Defined.

Definition verify (self : t) : outcome string unit :=
  ensure (BlockInfo.epoch (parent self) =? BlockInfo.epoch (proposed self))
    "Parent and proposed epochs do not match" ;;
  ensure (BlockInfo.round (parent self) <? BlockInfo.round (proposed self))
    "Proposed round is less than parent round" ;;
  ensure (BlockInfo.timestamp_usecs (parent self) <=? BlockInfo.timestamp_usecs (proposed self))
    "Proposed happened before parent" ;;
  ensure ((BlockInfo.version (proposed self) =? 0)
          || (BlockInfo.version (parent self) <=? BlockInfo.version (proposed self)))
    "Proposed version is less than parent version".
End data.
Arguments t {_}.
End VoteData.

(** ** timeout.rs and the signing format of timeout_2chain.rs *)

Module Timeout.
Record t := new { epoch : Z; round : Z }.

#[global] Instance t_eq_dec : EqDecision t.
Proof. solve_decision. Defined.
End Timeout.

Module TimeoutSigningRepr.
Record t := mk { epoch : Z; round : Z; hqc_round : Z }.

#[global] Instance t_eq_dec : EqDecision t.
Proof. solve_decision. Defined.
End TimeoutSigningRepr.

(** ** quorum_cert.rs *)

Module QuorumCert.
Section cert.
Context `{Primitives} `{!CryptoHash VoteData.t} `{!CryptoHash LedgerInfo.t}.

Record t := new {
  vote_data : VoteData.t;
  signed_ledger_info : LedgerInfoWithSignatures.t
}.

#[global] Instance t_eq_dec : EqDecision t.
Proof. solve_decision. Defined.

Definition certified_block (self : t) : BlockInfo.t := VoteData.proposed (vote_data self).
Definition parent_block (self : t) : BlockInfo.t := VoteData.parent (vote_data self).
Definition ledger_info (self : t) : LedgerInfoWithSignatures.t := signed_ledger_info self.
Definition commit_info (self : t) : BlockInfo.t :=
  LedgerInfo.commit_info (LedgerInfoWithSignatures.ledger_info (ledger_info self)).
Definition ends_epoch (self : t) : bool :=
  LedgerInfo.ends_epoch (LedgerInfoWithSignatures.ledger_info (signed_ledger_info self)).

Definition certificate_for_genesis_from_ledger_info (ledger_info : LedgerInfo.t)
    (genesis_id : HashValue.t) : outcome string t :=
  epoch ← expect (checked_add (LedgerInfo.epoch ledger_info) 1);
  let ancestor := BlockInfo.new epoch 0 genesis_id
    (LedgerInfo.transaction_accumulator_hash ledger_info) (LedgerInfo.version ledger_info)
    (LedgerInfo.timestamp_usecs ledger_info) None in
  let vote_data := VoteData.new ancestor ancestor in
  let li := LedgerInfo.new ancestor (crypto_hash vote_data) in
  Ok (new vote_data (LedgerInfoWithSignatures.new li ∅)).

Definition verify (self : t) (validator : ValidatorVerifier.t) : outcome string unit :=
  let vote_hash := crypto_hash (vote_data self) in
  ensure (bool_decide (LedgerInfo.consensus_data_hash
            (LedgerInfoWithSignatures.ledger_info (ledger_info self)) = vote_hash))
    "Quorum Cert's hash mismatch LedgerInfo" ;;
  if BlockInfo.round (certified_block self) =? 0 then
    ensure (bool_decide (parent_block self = certified_block self))
      "Genesis QC has inconsistent parent block with certified block" ;;
    ensure (bool_decide (certified_block self = commit_info self))
      "Genesis QC has inconsistent commit block with certified block" ;;
    ensure (bool_decide (LedgerInfoWithSignatures.signatures (ledger_info self) = ∅))
      "Genesis QC should not carry signatures"
  else
    context "Fail to verify QuorumCert"
      (LedgerInfoWithSignatures.verify_signatures (ledger_info self) validator) ;;
    VoteData.verify (vote_data self).

End cert.
Arguments t {_}.
End QuorumCert.

(** ** timeout_certificate.rs *)

Module TimeoutCertificate.
Section cert.
Context `{Primitives} `{!CryptoHash Timeout.t}.

Record t := mk { timeout : Timeout.t; signatures : gmap AccountAddress Signature }.

#[global] Instance t_eq_dec : EqDecision t.
Proof. solve_decision. Defined.

Definition new (timeout : Timeout.t) : t := mk timeout ∅.

Definition verify (self : t) (validator : ValidatorVerifier.t) : outcome string unit :=
  context "Failed to verify TimeoutCertificate"
    (ValidatorVerifier.verify_aggregated_struct_signature validator (timeout self) (signatures self)).

Definition epoch (self : t) : Z := Timeout.epoch (timeout self).
Definition round (self : t) : Z := Timeout.round (timeout self).

Definition add_signature (self : t) (author : AccountAddress) (signature : Signature) : t :=
  mk (timeout self)
    (match signatures self !! author with
     | Some _ => signatures self
     | None => <[author := signature]> (signatures self)
     end).

Definition remove_signature (self : t) (author : AccountAddress) : t :=
  mk (timeout self) (delete author (signatures self)).
End cert.
Arguments t {_}.
End TimeoutCertificate.

(** ** validator_signer.rs *)

Module ValidatorSigner.
Section signer.
Context `{Primitives}.
Record t := new { author : AccountAddress; private_key : PrivateKey }.

Definition sign {T} `{!CryptoHash T} (self : t) (message : T) : Signature :=
  sign (private_key self) message.

Definition public_key (self : t) : PublicKey := public_key_of (private_key self).
End signer.
Arguments t {_}.
End ValidatorSigner.

(** ** timeout_2chain.rs *)

Module TwoChainTimeout.
Section timeout.
Context `{Primitives} `{!CryptoHash VoteData.t} `{!CryptoHash LedgerInfo.t}.

Record t := new { epoch : Z; round : Z; quorum_cert : QuorumCert.t }.

#[global] Instance t_eq_dec : EqDecision t.
Proof. solve_decision. Defined.

Definition hqc_round (self : t) : Z :=
  BlockInfo.round (QuorumCert.certified_block (quorum_cert self)).

Definition signing_format (self : t) : TimeoutSigningRepr.t :=
  TimeoutSigningRepr.mk (epoch self) (round self) (hqc_round self).

Definition sign `{!CryptoHash TimeoutSigningRepr.t} (self : t) (signer : ValidatorSigner.t) : Signature :=
  ValidatorSigner.sign signer (signing_format self).

Definition verify (self : t) (validators : ValidatorVerifier.t) : outcome string unit :=
  ensure (hqc_round self <? round self) "Timeout round should be larger than the QC round" ;;
  QuorumCert.verify (quorum_cert self) validators.
End timeout.
Arguments t {_}.
End TwoChainTimeout.

Module TwoChainTimeoutCertificate.
Section cert.
Context `{Primitives} `{!CryptoHash VoteData.t} `{!CryptoHash LedgerInfo.t}.
Context `{!CryptoHash TimeoutSigningRepr.t}.

Record t := mk {
  timeout : TwoChainTimeout.t;
  signatures : gmap AccountAddress (Z * Signature)
}.

#[global] Instance t_eq_dec : EqDecision t.
Proof. solve_decision. Defined.

Definition new (timeout : TwoChainTimeout.t) : t := mk timeout ∅.

(** The loop of [verify]: the maximum of the signed rounds. *)
Fixpoint verify_loop (self : t) (validators : ValidatorVerifier.t) (signed_round : Z)
    (entries : list (AccountAddress * (Z * Signature))) : outcome string Z :=
  match entries with
  | [] => Ok signed_round
  | (author, (qc_round, signature)) :: entries =>
      let t := TimeoutSigningRepr.mk (TwoChainTimeout.epoch (timeout self))
                 (TwoChainTimeout.round (timeout self)) qc_round in
      context "Failed to verify TimeoutSigningRepr"
        (ValidatorVerifier.verify validators author t signature) ;;
      verify_loop self validators (Z.max signed_round qc_round) entries
  end.

Definition verify (self : t) (validators : ValidatorVerifier.t) : outcome string unit :=
  TwoChainTimeout.verify (timeout self) validators ;;
  let hqc_round := TwoChainTimeout.hqc_round (timeout self) in
  map_err verify_error_message
    (ValidatorVerifier.check_voting_power validators (btree_iter (signatures self)).*1) ;;
  signed_round ← verify_loop self validators 0 (btree_iter (signatures self));
  ensure (hqc_round =? signed_round) "Inconsistent hqc round".

Definition epoch (self : t) : Z := TwoChainTimeout.epoch (timeout self).
Definition round (self : t) : Z := TwoChainTimeout.round (timeout self).
Definition highest_hqc_round (self : t) : Z := TwoChainTimeout.hqc_round (timeout self).
Definition signers (self : t) : list AccountAddress := (btree_iter (signatures self)).*1.

Definition add (self : t) (author : AccountAddress) (timeout' : TwoChainTimeout.t)
    (signature : Signature) : t :=
  let hqc_round := TwoChainTimeout.hqc_round timeout' in
  let timeout'' :=
    if TwoChainTimeout.hqc_round (timeout self) <? TwoChainTimeout.hqc_round timeout'
    then timeout' else timeout self in
  mk timeout'' (<[author := (hqc_round, signature)]> (signatures self)).
End cert.
Arguments t {_}.
End TwoChainTimeoutCertificate.

(** ** vote.rs *)

Module Vote.
Section vote.
Context `{Primitives} `{!CryptoHash VoteData.t} `{!CryptoHash LedgerInfo.t}.
Context `{!CryptoHash Timeout.t} `{!CryptoHash TimeoutSigningRepr.t}.

Record t := mk {
  vote_data : VoteData.t;
  author : AccountAddress;
  ledger_info : LedgerInfo.t;
  signature : Signature;
  timeout_signature : option Signature;
  two_chain_timeout : option (TwoChainTimeout.t * Signature)
}.

#[global] Instance t_eq_dec : EqDecision t.
Proof. solve_decision. Defined.

Definition new_with_signature (vote_data : VoteData.t) (author : AccountAddress)
    (ledger_info : LedgerInfo.t) (signature : Signature) : t :=
  mk vote_data author ledger_info signature None None.

Definition new (vote_data : VoteData.t) (author : AccountAddress)
    (ledger_info_placeholder : LedgerInfo.t) (validator_signer : ValidatorSigner.t) : t :=
  let ledger_info_placeholder :=
    LedgerInfo.set_consensus_data_hash ledger_info_placeholder (crypto_hash vote_data) in
  let signature := ValidatorSigner.sign validator_signer ledger_info_placeholder in
  new_with_signature vote_data author ledger_info_placeholder signature.

Definition add_timeout_signature (self : t) (signature' : Signature) : outcome string t :=
  assert_ (bool_decide (two_chain_timeout self = None)) ;;
  match timeout_signature self with
  | Some _ => Ok self
  | None => Ok (mk (vote_data self) (author self) (ledger_info self) (signature self)
                  (Some signature') (two_chain_timeout self))
  end.

Definition add_2chain_timeout (self : t) (timeout : TwoChainTimeout.t) (signature' : Signature)
    : outcome string t :=
  assert_ (bool_decide (timeout_signature self = None)) ;;
  Ok (mk (vote_data self) (author self) (ledger_info self) (signature self)
        (timeout_signature self) (Some (timeout, signature'))).

Definition generate_timeout (self : t) : Timeout.t :=
  Timeout.new (BlockInfo.epoch (VoteData.proposed (vote_data self)))
    (BlockInfo.round (VoteData.proposed (vote_data self))).

Definition generate_2chain_timeout (self : t) (qc : QuorumCert.t) : TwoChainTimeout.t :=
  TwoChainTimeout.new (BlockInfo.epoch (VoteData.proposed (vote_data self)))
    (BlockInfo.round (VoteData.proposed (vote_data self))) qc.

Definition epoch (self : t) : Z := BlockInfo.epoch (VoteData.proposed (vote_data self)).

Definition is_timeout (self : t) : bool :=
  bool_decide (is_Some (timeout_signature self)) || bool_decide (is_Some (two_chain_timeout self)).

Definition verify (self : t) (validator : ValidatorVerifier.t) : outcome string unit :=
  ensure (bool_decide (LedgerInfo.consensus_data_hash (ledger_info self) = crypto_hash (vote_data self)))
    "Vote's hash mismatch with LedgerInfo" ;;
  ensure (bool_decide (timeout_signature self = None) || bool_decide (two_chain_timeout self = None))
    "Only one timeout should exist" ;;
  context "Failed to verify Vote"
    (ValidatorVerifier.verify validator (author self) (ledger_info self) (signature self)) ;;
  match timeout_signature self with
  | Some timeout_signature =>
      context "Failed to verify Timeout Vote"
        (ValidatorVerifier.verify validator (author self) (generate_timeout self) timeout_signature)
  | None => Ok tt
  end ;;
  match two_chain_timeout self with
  | Some (timeout, signature) =>
      ensure ((TwoChainTimeout.epoch timeout =? epoch self)
              && (TwoChainTimeout.round timeout =? BlockInfo.round (VoteData.proposed (vote_data self))))
        "2-chain timeout has different (epoch, round) than Vote" ;;
      TwoChainTimeout.verify timeout validator ;;
      context "Failed to verify 2-chain timeout signature"
        (ValidatorVerifier.verify validator (author self) (TwoChainTimeout.signing_format timeout) signature)
  | None => Ok tt
  end ;;
  VoteData.verify (vote_data self).

End vote.
Arguments t {_}.
End Vote.

(** ** safety_data.rs *)

Module SafetyData.
Section data.
Context `{Primitives}.
Record t := new {
  epoch : Z;
  last_voted_round : Z;
  preferred_round : Z;
  one_chain_round : Z;
  last_vote : option Vote.t
}.

#[global] Instance t_eq_dec : EqDecision t.
Proof. solve_decision. Defined.
End data.
Arguments t {_}.
End SafetyData.
