(* ===== verification/Blocks.v ===== *)
(** * Blocks (consensus/consensus-types/src: block_data.rs, block.rs,
    vote_proposal.rs, executed_block.rs; StateComputeResult of
    execution/executor-types)

    Blocks and their checks, the proposals handed to the safety rules, and the
    result of executing a block. *)
From stdpp Require Import prelude gmap strings.
From Stdlib Require Import ZArith Lia.
From S2P Require Import Prelude Bits Hash MerkleSpec HashValues Primitives ValidatorVerifier LedgerInfo EpochChange InMemAccumulator AccumulatorProofs ConsensusTypes.

(** ** block_data.rs *)

Module BlockData.
Section data.
Context `{Primitives}.

Inductive BlockType :=
| Proposal (payload : list SignedTransaction) (author : AccountAddress)
| NilBlock
| Genesis.

#[global] Instance block_type_eq_dec : EqDecision BlockType.
Proof. solve_decision. Defined.

Record t := mk {
  epoch : Z;
  round : Z;
  timestamp_usecs : Z;
  quorum_cert : QuorumCert.t;
  block_type : BlockType
}.

#[global] Instance t_eq_dec : EqDecision t.
Proof. solve_decision. Defined.

Definition author (self : t) : option AccountAddress :=
  match block_type self with Proposal _ author => Some author | _ => None end.

Definition parent_id (self : t) : HashValue.t :=
  BlockInfo.id (QuorumCert.certified_block (quorum_cert self)).

Definition payload (self : t) : option (list SignedTransaction) :=
  match block_type self with Proposal payload _ => Some payload | _ => None end.

Definition is_genesis_block (self : t) : bool :=
  match block_type self with Genesis => true | _ => false end.

Definition is_nil_block (self : t) : bool :=
  match block_type self with NilBlock => true | _ => false end.

Definition new_genesis (timestamp_usecs : Z) (quorum_cert : QuorumCert.t) : t :=
  mk (BlockInfo.epoch (QuorumCert.certified_block quorum_cert) + 1)%u64 0 timestamp_usecs quorum_cert
    Genesis.

Definition new_genesis_from_ledger_info (ledger_info : LedgerInfo.t) : outcome string t :=
  assert_ (LedgerInfo.ends_epoch ledger_info) ;;
  let ancestor := BlockInfo.new (LedgerInfo.epoch ledger_info) 0 HashValue.zero
    (LedgerInfo.transaction_accumulator_hash ledger_info) (LedgerInfo.version ledger_info)
    (LedgerInfo.timestamp_usecs ledger_info) None in
  let genesis_quorum_cert := QuorumCert.new (VoteData.new ancestor ancestor)
    (LedgerInfoWithSignatures.new (LedgerInfo.new ancestor HashValue.zero) ∅) in
  Ok (new_genesis (LedgerInfo.timestamp_usecs ledger_info) genesis_quorum_cert).

Definition new_nil (round : Z) (quorum_cert : QuorumCert.t) : t :=
  let timestamp_usecs := BlockInfo.timestamp_usecs (QuorumCert.certified_block quorum_cert) in
  mk (BlockInfo.epoch (QuorumCert.certified_block quorum_cert)) round timestamp_usecs quorum_cert NilBlock.

Definition new_proposal (payload : list SignedTransaction) (author : AccountAddress) (round : Z)
    (timestamp_usecs : Z) (quorum_cert : QuorumCert.t) : t :=
  mk (BlockInfo.epoch (QuorumCert.certified_block quorum_cert)) round timestamp_usecs quorum_cert
    (Proposal payload author).

Definition is_reconfiguration_suffix (self : t) : bool :=
  BlockInfo.has_reconfiguration (QuorumCert.certified_block (quorum_cert self)).
End data.
Arguments t {_}.
End BlockData.

(** ** block.rs *)

Module BlockMetadata.
Section metadata.
Context `{Primitives}.
Record t := new {
  id : HashValue.t;
  round : Z;
  timestamp_usecs : Z;
  previous_block_votes : list AccountAddress;
  proposer : AccountAddress
}.
End metadata.
Arguments t {_}.
End BlockMetadata.

(** Types of the transactions and their execution that consensus only carries
    around. *)
Class ExecutionTypes := {
  WriteSetPayload : Type;
  KeptVMStatus : Type;
  DiscardedVMStatus : Type;
  ContractEvent : Type
}.

Inductive Transaction `{Primitives} `{ExecutionTypes} :=
| UserTransaction (txn : SignedTransaction)
| GenesisTransaction (payload : WriteSetPayload)
| BlockMetadata (metadata : BlockMetadata.t)
| StateCheckpoint.

Inductive TransactionStatus `{ExecutionTypes} :=
| Discard (status : DiscardedVMStatus)
| Keep (status : KeptVMStatus)
| Retry.

Module Block.
Section block.
Context `{Primitives} `{!CryptoHash VoteData.t} `{!CryptoHash LedgerInfo.t} `{!CryptoHash BlockData.t}.

Record t := mk {
  id : HashValue.t;
  block_data : BlockData.t;
  signature : option Signature
}.

#[global] Instance t_eq_dec : EqDecision t.
Proof. solve_decision. Defined.

Definition author (self : t) : option AccountAddress := BlockData.author (block_data self).
Definition epoch (self : t) : Z := BlockData.epoch (block_data self).
Definition quorum_cert (self : t) : QuorumCert.t := BlockData.quorum_cert (block_data self).
Definition parent_id (self : t) : HashValue.t :=
  BlockInfo.id (QuorumCert.certified_block (quorum_cert self)).
Definition payload (self : t) : option (list SignedTransaction) := BlockData.payload (block_data self).
Definition round (self : t) : Z := BlockData.round (block_data self).
Definition timestamp_usecs (self : t) : Z := BlockData.timestamp_usecs (block_data self).
Definition is_genesis_block (self : t) : bool := BlockData.is_genesis_block (block_data self).
Definition is_nil_block (self : t) : bool := BlockData.is_nil_block (block_data self).

Definition gen_block_info (self : t) (executed_state_id : HashValue.t) (version : Z)
    (next_epoch_state : option EpochState.t) : BlockInfo.t :=
  BlockInfo.new (epoch self) (round self) (id self) executed_state_id version (timestamp_usecs self)
    next_epoch_state.

Definition make_genesis_block_from_ledger_info (ledger_info : LedgerInfo.t) : outcome string t :=
  block_data ← BlockData.new_genesis_from_ledger_info ledger_info;
  Ok (mk (crypto_hash block_data) block_data None).

Definition new_nil (round : Z) (quorum_cert : QuorumCert.t) : t :=
  let block_data := BlockData.new_nil round quorum_cert in
  mk (crypto_hash block_data) block_data None.

Definition new_proposal_from_block_data_and_signature (block_data : BlockData.t) (signature : Signature) : t :=
  mk (crypto_hash block_data) block_data (Some signature).

Definition new_proposal_from_block_data (block_data : BlockData.t) (validator_signer : ValidatorSigner.t) : t :=
  let signature := ValidatorSigner.sign validator_signer block_data in
  new_proposal_from_block_data_and_signature block_data signature.

Definition new_proposal (payload : list SignedTransaction) (round timestamp_usecs : Z)
    (quorum_cert : QuorumCert.t) (validator_signer : ValidatorSigner.t) : t :=
  let block_data := BlockData.new_proposal payload (ValidatorSigner.author validator_signer) round
    timestamp_usecs quorum_cert in
  new_proposal_from_block_data block_data validator_signer.

(** [Deserialize for Block]: the id is recomputed, not read. *)
Definition deserialize (block_data : BlockData.t) (signature : option Signature) : t :=
  mk (crypto_hash block_data) block_data signature.

Definition validate_signature (self : t) (validator : ValidatorVerifier.t) : outcome string unit :=
  match BlockData.block_type (block_data self) with
  | BlockData.Genesis => Err "We should not accept genesis from others"
  | BlockData.NilBlock => QuorumCert.verify (quorum_cert self) validator
  | BlockData.Proposal _ author =>
      signature ← ok_or (signature self) "Missing signature in Proposal";
      map_err verify_error_message (ValidatorVerifier.verify validator author (block_data self) signature) ;;
      QuorumCert.verify (quorum_cert self) validator
  end%string.

Definition TIMEBOUND : Z := 300000000.

(** [current_ts] is the clock in microseconds. *)
Definition verify_well_formed (self : t) (current_ts : Z) : outcome string unit :=
  ensure (negb (is_genesis_block self)) "We must not accept genesis from others" ;;
  let parent := QuorumCert.certified_block (quorum_cert self) in
  ensure (BlockInfo.round parent <? round self) "Block must have a greater round than parent's block" ;;
  ensure (BlockInfo.epoch parent =? epoch self) "block's parent should be in the same epoch" ;;
  (if BlockInfo.has_reconfiguration parent then
     ensure (match payload self with Some p => bool_decide (p = []) | None => true end)
       "Reconfiguration suffix should not carry payload"
   else Ok tt) ;;
  (if is_nil_block self || BlockInfo.has_reconfiguration parent then
     ensure (timestamp_usecs self =? BlockInfo.timestamp_usecs parent)
       "Nil/reconfig suffix block must have same timestamp as parent"
   else
     ensure (BlockInfo.timestamp_usecs parent <? timestamp_usecs self)
       "Blocks must have strictly increasing timestamps" ;;
     ensure (timestamp_usecs self <=? saturating_add current_ts TIMEBOUND)
       "Blocks must not be too far in the future") ;;
  ensure (negb (QuorumCert.ends_epoch (quorum_cert self)))
    "Block cannot be proposed in an epoch that has ended".

(** [From<&Block> for BlockMetadata] *)
Definition metadata (self : t) : BlockMetadata.t :=
  BlockMetadata.new (id self) (round self) (timestamp_usecs self)
    (btree_iter (LedgerInfoWithSignatures.signatures (QuorumCert.ledger_info (quorum_cert self)))).*1
    (default address_zero (author self)).

Definition transactions_to_execute `{ExecutionTypes} (self : t) : list Transaction :=
  BlockMetadata (metadata self) :: (UserTransaction <$> default [] (payload self)).

End block.
Arguments t {_}.
End Block.

(** ** vote_proposal.rs *)

Module VoteProposal.
Section proposal.
Context `{Primitives} `{!MerkleHasher HashValue.t}.

Record t := new {
  accumulator_extension_proof : AccumulatorExtensionProof.t HashValue.t;
  block : Block.t;
  next_epoch_state : option EpochState.t;
  decoupled_execution : bool
}.

Definition vote_data_ordering_only (self : t) : VoteData.t :=
  VoteData.new (Block.gen_block_info (block self) ACCUMULATOR_PLACEHOLDER_HASH 0 (next_epoch_state self))
    (QuorumCert.certified_block (Block.quorum_cert (block self))).

Definition vote_data_with_extension_proof (self : t) (new_tree : InMemoryAccumulator.t HashValue.t)
    : VoteData.t :=
  VoteData.new
    (Block.gen_block_info (block self) (InMemoryAccumulator.root_hash new_tree)
       (InMemoryAccumulator.version new_tree) (next_epoch_state self))
    (QuorumCert.certified_block (Block.quorum_cert (block self))).

Definition gen_vote_data (self : t) : outcome string VoteData.t :=
  if decoupled_execution self then Ok (vote_data_ordering_only self)
  else
    let proposed_block := block self in
    new_tree ← AccumulatorExtensionProof.verify (accumulator_extension_proof self)
      (BlockInfo.executed_state_id (QuorumCert.certified_block (Block.quorum_cert proposed_block)));
    Ok (vote_data_with_extension_proof self new_tree).
End proposal.
Arguments t {_}.
End VoteProposal.

Module MaybeSignedVoteProposal.
Section proposal.
Context `{Primitives}.
Record t := mk { vote_proposal : VoteProposal.t; signature : option Signature }.
End proposal.
Arguments t {_}.
End MaybeSignedVoteProposal.

(** ** StateComputeResult (execution/executor-types/src/lib.rs) *)

Module StateComputeResult.
Section result.
Context `{Primitives} `{ExecutionTypes} `{!MerkleHasher HashValue.t}.

Record t := mk {
  root_hash : HashValue.t;
  frozen_subtree_roots : list HashValue.t;
  num_leaves : Z;
  parent_frozen_subtree_roots : list HashValue.t;
  parent_num_leaves : Z;
  epoch_state : option EpochState.t;
  compute_status : list TransactionStatus;
  transaction_info_hashes : list HashValue.t;
  signature : option Signature;
  reconfig_events : list ContractEvent
}.

Definition new (root_hash : HashValue.t) (frozen_subtree_roots : list HashValue.t) (num_leaves : Z)
    (parent_frozen_subtree_roots : list HashValue.t) (parent_num_leaves : Z)
    (epoch_state : option EpochState.t) (compute_status : list TransactionStatus)
    (transaction_info_hashes : list HashValue.t) (reconfig_events : list ContractEvent) : t :=
  mk root_hash frozen_subtree_roots num_leaves parent_frozen_subtree_roots parent_num_leaves epoch_state
    compute_status transaction_info_hashes None reconfig_events.

Definition new_dummy_with_root_hash (root_hash : HashValue.t) : t :=
  mk root_hash [] 0 [] 0 None [] [] None [].

Definition version (self : t) : Z := Z.max (num_leaves self) 1 - 1.

Definition extension_proof (self : t) : AccumulatorExtensionProof.t HashValue.t :=
  AccumulatorExtensionProof.new (parent_frozen_subtree_roots self) (parent_num_leaves self)
    (transaction_info_hashes self).

Definition has_reconfiguration (self : t) : bool := bool_decide (is_Some (epoch_state self)).

Definition set_signature (self : t) (sig : Signature) : t :=
  mk (root_hash self) (frozen_subtree_roots self) (num_leaves self) (parent_frozen_subtree_roots self)
    (parent_num_leaves self) (epoch_state self) (compute_status self) (transaction_info_hashes self)
    (Some sig) (reconfig_events self).
End result.
Arguments t {_ _}.
End StateComputeResult.

(** ** executed_block.rs *)

Module ExecutedBlock.
Section block.
Context `{Primitives} `{ExecutionTypes} `{!MerkleHasher HashValue.t}.

Record t := new { block : Block.t; state_compute_result : StateComputeResult.t }.

Definition id (self : t) : HashValue.t := Block.id (block self).
Definition epoch (self : t) : Z := Block.epoch (block self).
Definition quorum_cert (self : t) : QuorumCert.t := Block.quorum_cert (block self).
Definition parent_id (self : t) : HashValue.t :=
  BlockInfo.id (QuorumCert.certified_block (quorum_cert self)).
Definition round (self : t) : Z := Block.round (block self).
Definition timestamp_usecs (self : t) : Z := Block.timestamp_usecs (block self).

Definition block_info (self : t) : BlockInfo.t :=
  let compute_result := state_compute_result self in
  Block.gen_block_info (block self) (StateComputeResult.root_hash compute_result)
    (StateComputeResult.version compute_result) (StateComputeResult.epoch_state compute_result).

Definition maybe_signed_vote_proposal (self : t) (decoupled_execution : bool) : MaybeSignedVoteProposal.t :=
  let compute_result := state_compute_result self in
  MaybeSignedVoteProposal.mk
    (VoteProposal.new (StateComputeResult.extension_proof compute_result) (block self)
       (StateComputeResult.epoch_state compute_result) decoupled_execution)
    (StateComputeResult.signature compute_result).

Definition is_reconfiguration_suffix (self : t) : bool :=
  StateComputeResult.has_reconfiguration (state_compute_result self)
  && bool_decide (length (StateComputeResult.compute_status (state_compute_result self)) = 0%nat).

(** [itertools::zip_eq] panics on lists of different lengths when the shorter
    one ends. *)
Fixpoint zip_filter (txns : list Transaction) (statuses : list TransactionStatus)
    : outcome string (list Transaction) :=
  match txns, statuses with
  | [], [] => Ok []
  | txn :: txns, status :: statuses =>
      rest ← zip_filter txns statuses;
      Ok (match status with Keep _ => txn :: rest | _ => rest end)
  | _, _ => Panic
  end.

Definition transactions_to_commit (self : t) : outcome string (list Transaction) :=
  if is_reconfiguration_suffix self then Ok []
  else zip_filter (Block.transactions_to_execute (block self))
         (StateComputeResult.compute_status (state_compute_result self)).

Definition reconfig_event (self : t) : list ContractEvent :=
  if is_reconfiguration_suffix self then []
  else StateComputeResult.reconfig_events (state_compute_result self).
End block.
Arguments t {_ _}.
End ExecutedBlock.

(** ** Voting on executed blocks *)

(** The result of executing a block whose transactions add the leaves [ms] to
    the accumulator over [ls]. *)
Definition executes_to `{Primitives} `{ExecutionTypes} `{!MerkleHasher HashValue.t}
    (ls ms : list HashValue.t) (res : StateComputeResult.t) : Prop :=
  StateComputeResult.parent_frozen_subtree_roots res = frozen_roots ls /\
  StateComputeResult.parent_num_leaves res = num ls /\
  StateComputeResult.transaction_info_hashes res = ms /\
  StateComputeResult.num_leaves res = num (ls ++ ms) /\
  StateComputeResult.root_hash res = merkle_root (ls ++ ms).

(** What is voted for is what was executed. For a block whose parent
    certificate carries the root of the accumulator it was executed on, the
    vote proposal of the executed block passes the check of the accumulator
    extension proof, and the vote data proposes exactly the block info of the
    executed block, root hash and version included. *)
Theorem executed_block_vote_data `{Primitives} `{ExecutionTypes} `{!MerkleHasher HashValue.t}
    (ls ms : list HashValue.t) (b : ExecutedBlock.t) :
  num (ls ++ ms) < 2 ^ 64 ->
  executes_to ls ms (ExecutedBlock.state_compute_result b) ->
  BlockInfo.executed_state_id (QuorumCert.certified_block (ExecutedBlock.quorum_cert b)) = merkle_root ls ->
  VoteProposal.gen_vote_data (MaybeSignedVoteProposal.vote_proposal (ExecutedBlock.maybe_signed_vote_proposal b false))
  = Ok (VoteData.new (ExecutedBlock.block_info b) (QuorumCert.certified_block (ExecutedBlock.quorum_cert b))).
Proof.
  intros Hn (Hf & Hp & Hm & Hl & Hr) Hroot. pose proof (num_nonneg ls). pose proof (num_nonneg ms).
  assert (AccumulatorExtensionProof.verify (StateComputeResult.extension_proof (ExecutedBlock.state_compute_result b))
            (merkle_root ls) = Ok (acc_of (ls ++ ms))) as Hv.
  { unfold AccumulatorExtensionProof.verify, StateComputeResult.extension_proof.
    cbn [AccumulatorExtensionProof.frozen_subtree_roots AccumulatorExtensionProof.num_leaves AccumulatorExtensionProof.leaves].
    rewrite num_app in Hn. rewrite Hf, Hp, Hm, new_frozen, bind_Ok by lia.
    rewrite bool_decide_eq_true_2 by done. cbn [ensure]. rewrite bind_Ok. by apply append_frozen. }
  unfold VoteProposal.gen_vote_data, ExecutedBlock.maybe_signed_vote_proposal.
  cbn [MaybeSignedVoteProposal.vote_proposal VoteProposal.decoupled_execution VoteProposal.block
       VoteProposal.accumulator_extension_proof].
  unfold ExecutedBlock.quorum_cert in *. rewrite Hroot, Hv, bind_Ok. f_equal.
  unfold VoteProposal.vote_data_with_extension_proof, ExecutedBlock.block_info. f_equal.
  cbn [VoteProposal.block VoteProposal.next_epoch_state]. f_equal; [done|].
  unfold StateComputeResult.version, InMemoryAccumulator.version. cbn [acc_of InMemoryAccumulator.num_leaves].
  rewrite Hl. pose proof (num_nonneg (ls ++ ms)).
  destruct (Z.eqb_spec (num (ls ++ ms)) 0) as [->|]; [done|]. rewrite u64_sub_small by lia. lia.
Qed.
