(* ===== verification/ConsensusMsgs.v ===== *)
(** * Consensus messages (consensus/consensus-types/src: sync_info.rs,
    proposal_msg.rs, vote_msg.rs, block_retrieval.rs, experimental/)

    What validators send each other, with its verification. The theorem on
    block retrieval: an accepted response is a chain of blocks. *)
From stdpp Require Import prelude gmap strings.
From Stdlib Require Import ZArith Lia.
From S2P Require Import Prelude Bits HashValues Primitives ValidatorVerifier LedgerInfo EpochChange ConsensusTypes Blocks.

(** ** sync_info.rs *)

Module SyncInfo.
Section info.
Context `{Primitives} `{!CryptoHash VoteData.t} `{!CryptoHash LedgerInfo.t}.
Context `{!CryptoHash Timeout.t} `{!CryptoHash TimeoutSigningRepr.t}.

Record t := mk {
  highest_quorum_cert : QuorumCert.t;
  highest_ordered_cert_opt : option QuorumCert.t;
  highest_ledger_info_opt : option LedgerInfoWithSignatures.t;
  highest_timeout_cert : option TimeoutCertificate.t;
  highest_2chain_timeout_cert : option TwoChainTimeoutCertificate.t
}.

(** [Option::filter] *)
Definition option_filter {A} (p : A -> bool) (o : option A) : option A :=
  match o with Some x => if p x then Some x else None | None => None end.

Definition new_decoupled (highest_quorum_cert highest_ordered_cert : QuorumCert.t)
    (highest_ledger_info : option LedgerInfoWithSignatures.t)
    (highest_timeout_cert : option TimeoutCertificate.t)
    (highest_2chain_timeout_cert : option TwoChainTimeoutCertificate.t) : outcome string t :=
  let hqc_round := BlockInfo.round (QuorumCert.certified_block highest_quorum_cert) in
  let highest_timeout_cert :=
    option_filter (fun tc => hqc_round <? TimeoutCertificate.round tc) highest_timeout_cert in
  let highest_2chain_timeout_cert :=
    option_filter (fun tc => hqc_round <? TwoChainTimeoutCertificate.round tc)
      highest_2chain_timeout_cert in
  let highest_ordered_cert :=
    option_filter (fun hoc => negb (bool_decide (hoc = highest_quorum_cert))) (Some highest_ordered_cert) in
  assert_ (bool_decide (highest_timeout_cert = None) || bool_decide (highest_2chain_timeout_cert = None)) ;;
  Ok (mk highest_quorum_cert highest_ordered_cert highest_ledger_info highest_timeout_cert
        highest_2chain_timeout_cert).

Definition new (highest_quorum_cert highest_ordered_cert : QuorumCert.t)
    (highest_timeout_cert : option TimeoutCertificate.t)
    (highest_2chain_timeout_cert : option TwoChainTimeoutCertificate.t) : outcome string t :=
  let highest_ledger_info := Some (QuorumCert.ledger_info highest_ordered_cert) in
  new_decoupled highest_quorum_cert highest_ordered_cert highest_ledger_info highest_timeout_cert
    highest_2chain_timeout_cert.

Definition highest_ordered_cert (self : t) : QuorumCert.t :=
  default (highest_quorum_cert self) (highest_ordered_cert_opt self).

Definition highest_ledger_info (self : t) : LedgerInfoWithSignatures.t :=
  default (QuorumCert.ledger_info (highest_ordered_cert self)) (highest_ledger_info_opt self).

Definition highest_certified_round (self : t) : Z :=
  BlockInfo.round (QuorumCert.certified_block (highest_quorum_cert self)).

Definition highest_timeout_round (self : t) : Z :=
  Z.max (from_option TimeoutCertificate.round 0 (highest_timeout_cert self))
    (from_option TwoChainTimeoutCertificate.round 0 (highest_2chain_timeout_cert self)).

Definition highest_ordered_round (self : t) : Z :=
  BlockInfo.round (QuorumCert.commit_info (highest_ordered_cert self)).

Definition highest_ledger_info_round (self : t) : Z :=
  BlockInfo.round (LedgerInfoWithSignatures.commit_info (highest_ledger_info self)).

Definition highest_round (self : t) : Z :=
  Z.max (highest_certified_round self) (highest_timeout_round self).

Definition epoch (self : t) : Z :=
  BlockInfo.epoch (QuorumCert.certified_block (highest_quorum_cert self)).

Definition verify (self : t) (validator : ValidatorVerifier.t) : outcome string unit :=
  let epoch := BlockInfo.epoch (QuorumCert.certified_block (highest_quorum_cert self)) in
  ensure (epoch =? BlockInfo.epoch (QuorumCert.certified_block (highest_ordered_cert self)))
    "Multi epoch in SyncInfo - HOC and HQC" ;;
  match highest_timeout_cert self with
  | Some tc => ensure (epoch =? TimeoutCertificate.epoch tc) "Multi epoch in SyncInfo - TC and HQC"
  | None => Ok tt
  end ;;
  ensure (BlockInfo.round (QuorumCert.certified_block (highest_ordered_cert self))
          <=? BlockInfo.round (QuorumCert.certified_block (highest_quorum_cert self)))
    "HQC has lower round than HOC" ;;
  ensure (highest_ledger_info_round self
          <=? BlockInfo.round (QuorumCert.certified_block (highest_ordered_cert self)))
    "HOC has lower round than HLI" ;;
  ensure (negb (bool_decide (QuorumCert.commit_info (highest_ordered_cert self) = BlockInfo.empty)))
    "HOC has no committed block" ;;
  ensure (negb (bool_decide
      (LedgerInfoWithSignatures.commit_info (highest_ledger_info self) = BlockInfo.empty)))
    "HLI has empty commit info" ;;
  ensure (bool_decide (highest_timeout_cert self = None)
          || bool_decide (highest_2chain_timeout_cert self = None))
    "Only One timeout cert should be carried" ;;
  context "Fail to verify SyncInfo"
    (QuorumCert.verify (highest_quorum_cert self) validator ;;
     match highest_ordered_cert_opt self with
     | Some cert => QuorumCert.verify cert validator
     | None => Ok tt
     end ;;
     match highest_timeout_cert self with
     | Some tc => TimeoutCertificate.verify tc validator
     | None => Ok tt
     end ;;
     match highest_ledger_info_opt self with
     | Some hli =>
         if 0 <? BlockInfo.round (LedgerInfoWithSignatures.commit_info hli) then
           map_err verify_error_message (LedgerInfoWithSignatures.verify_signatures hli validator)
         else Ok tt
     | None => Ok tt
     end ;;
     match highest_2chain_timeout_cert self with
     | Some tc => TwoChainTimeoutCertificate.verify tc validator
     | None => Ok tt
     end).

End info.
Arguments t {_}.
End SyncInfo.

(** ** proposal_msg.rs *)

Module ProposalMsg.
Section msg.
Context `{Primitives} `{!CryptoHash VoteData.t} `{!CryptoHash LedgerInfo.t} `{!CryptoHash BlockData.t}.
Context `{!CryptoHash Timeout.t} `{!CryptoHash TimeoutSigningRepr.t}.

Record t := new { proposal : Block.t; sync_info : SyncInfo.t }.

Definition epoch (self : t) : Z := Block.epoch (proposal self).

Definition verify_well_formed (self : t) (current_ts : Z) : outcome string unit :=
  ensure (negb (Block.is_nil_block (proposal self))) "Proposal for a NIL block" ;;
  context "Fail to verify ProposalMsg's block" (Block.verify_well_formed (proposal self) current_ts) ;;
  ensure (0 <? Block.round (proposal self)) "Proposal has an incorrect round of 0" ;;
  ensure (Block.epoch (proposal self) =? SyncInfo.epoch (sync_info self))
    "ProposalMsg has different epoch number from SyncInfo" ;;
  ensure (bool_decide (Block.parent_id (proposal self)
            = BlockInfo.id (QuorumCert.certified_block (SyncInfo.highest_quorum_cert (sync_info self)))))
    "Proposal HQC in SyncInfo certifies a different block than the parent" ;;
  previous_round ← ok_or (checked_sub (Block.round (proposal self)) 1) "proposal round overflowed!";
  let highest_certified_round :=
    Z.max (BlockInfo.round (QuorumCert.certified_block (Block.quorum_cert (proposal self))))
      (SyncInfo.highest_timeout_round (sync_info self)) in
  ensure (previous_round =? highest_certified_round) "Proposal does not have a certified round" ;;
  ensure (bool_decide (is_Some (Block.author (proposal self)))) "Proposal does not define an author".

Definition verify (self : t) (validator : ValidatorVerifier.t) (current_ts : Z) : outcome string unit :=
  Block.validate_signature (proposal self) validator ;;
  match SyncInfo.highest_timeout_cert (sync_info self) with
  | Some tc => TimeoutCertificate.verify tc validator
  | None => Ok tt
  end ;;
  match SyncInfo.highest_2chain_timeout_cert (sync_info self) with
  | Some tc => TwoChainTimeoutCertificate.verify tc validator
  | None => Ok tt
  end ;;
  verify_well_formed self current_ts.

Definition proposer (self : t) : outcome string AccountAddress := expect (Block.author (proposal self)).
End msg.
Arguments t {_}.
End ProposalMsg.

(** ** vote_msg.rs *)

Module VoteMsg.
Section msg.
Context `{Primitives} `{!CryptoHash VoteData.t} `{!CryptoHash LedgerInfo.t}.
Context `{!CryptoHash Timeout.t} `{!CryptoHash TimeoutSigningRepr.t}.

Record t := new { vote : Vote.t; sync_info : SyncInfo.t }.

Definition epoch (self : t) : Z := Vote.epoch (vote self).

Definition verify (self : t) (validator : ValidatorVerifier.t) : outcome string unit :=
  ensure (Vote.epoch (vote self) =? SyncInfo.epoch (sync_info self)) "VoteMsg has different epoch" ;;
  ensure (SyncInfo.highest_round (sync_info self)
          <? BlockInfo.round (VoteData.proposed (Vote.vote_data (vote self))))
    "Vote Round should be higher than SyncInfo" ;;
  match Vote.two_chain_timeout (vote self) with
  | Some (timeout, _) =>
      ensure (TwoChainTimeout.hqc_round timeout <=? SyncInfo.highest_certified_round (sync_info self))
        "2-chain Timeout hqc should be less or equal than the sync info hqc"
  | None => Ok tt
  end ;;
  Vote.verify (vote self) validator.
End msg.
Arguments t {_}.
End VoteMsg.

(** ** block_retrieval.rs *)

Module BlockRetrievalRequest.
Record t := mk {
  block_id : HashValue.t;
  num_blocks : Z;
  target_block_id : option HashValue.t
}.

Definition new (block_id : HashValue.t) (num_blocks : Z) : t := mk block_id num_blocks None.

Definition match_target_id (self : t) (hash_value : HashValue.t) : bool :=
  match target_block_id self with Some id => bool_decide (id = hash_value) | None => false end.
End BlockRetrievalRequest.

Module BlockRetrievalResponse.
Section response.
Context `{Primitives} `{!CryptoHash VoteData.t} `{!CryptoHash LedgerInfo.t} `{!CryptoHash BlockData.t}.

Inductive BlockRetrievalStatus := Succeeded | IdNotFound | NotEnoughBlocks | SucceededWithTarget.

#[global] Instance status_eq_dec : EqDecision BlockRetrievalStatus.
Proof. solve_decision. Defined.

Record t := new { status : BlockRetrievalStatus; blocks : list Block.t }.

(** The [try_fold] of [verify]; [current_ts i] is the clock when the [i]-th
    remaining block is checked. *)
Fixpoint verify_blocks (sig_verifier : ValidatorVerifier.t) (current_ts : nat -> Z)
    (expected_id : HashValue.t) (blocks : list Block.t) : outcome string HashValue.t :=
  match blocks with
  | [] => Ok expected_id
  | block :: blocks =>
      Block.validate_signature block sig_verifier ;;
      Block.verify_well_formed block (current_ts 0%nat) ;;
      ensure (bool_decide (Block.id block = expected_id)) "blocks doesn't form a chain" ;;
      verify_blocks sig_verifier (fun i => current_ts (S i)) (Block.parent_id block) blocks
  end.

Definition verify (self : t) (retrieval_request : BlockRetrievalRequest.t)
    (sig_verifier : ValidatorVerifier.t) (current_ts : nat -> Z) : outcome string unit :=
  ensure (negb (bool_decide (status self = Succeeded))
          || (Z.of_nat (length (blocks self)) =? BlockRetrievalRequest.num_blocks retrieval_request))
    "not enough blocks returned" ;;
  ensure (negb (bool_decide (status self = SucceededWithTarget))
          || match last (blocks self) with
             | Some block => BlockRetrievalRequest.match_target_id retrieval_request (Block.id block)
             | None => false
             end)
    "target not found in blocks returned" ;;
  verify_blocks sig_verifier current_ts (BlockRetrievalRequest.block_id retrieval_request) (blocks self) ;;
  Ok tt.
End response.
Arguments t {_}.
End BlockRetrievalResponse.

(** ** experimental/commit_vote.rs and commit_decision.rs *)

Module CommitVote.
Section vote.
Context `{Primitives} `{!CryptoHash LedgerInfo.t}.

Record t := new_with_signature {
  author : AccountAddress;
  ledger_info : LedgerInfo.t;
  signature : Signature
}.

Definition new (author : AccountAddress) (ledger_info_placeholder : LedgerInfo.t)
    (validator_signer : ValidatorSigner.t) : t :=
  let signature := ValidatorSigner.sign validator_signer ledger_info_placeholder in
  new_with_signature author ledger_info_placeholder signature.

Definition verify (self : t) (validator : ValidatorVerifier.t) : outcome string unit :=
  context "Failed to verify Commit Vote"
    (ValidatorVerifier.verify validator (author self) (ledger_info self) (signature self)).

Definition commit_info (self : t) : BlockInfo.t := LedgerInfo.commit_info (ledger_info self).
End vote.
Arguments t {_}.
End CommitVote.

Module CommitDecision.
Section decision.
Context `{Primitives} `{!CryptoHash LedgerInfo.t}.

Record t := new { ledger_info : LedgerInfoWithSignatures.t }.

Definition verify (self : t) (validator : ValidatorVerifier.t) : outcome string unit :=
  context "Failed to verify Commit Decision"
    (LedgerInfoWithSignatures.verify_signatures (ledger_info self) validator).
End decision.
Arguments t {_}.
End CommitDecision.

(** ** Retrieved blocks *)
Section retrieval.
Context `{Primitives} `{!CryptoHash VoteData.t} `{!CryptoHash LedgerInfo.t} `{!CryptoHash BlockData.t}.
Import BlockRetrievalResponse.

(** Blocks linked by their parent ids, starting at a block id. *)
Fixpoint chain (id : HashValue.t) (blocks : list Block.t) : Prop :=
  match blocks with
  | [] => True
  | b :: blocks => Block.id b = id /\ chain (Block.parent_id b) blocks
  end.

Lemma validated_certificate b ver u : Block.validate_signature b ver = Ok u ->
  QuorumCert.verify (Block.quorum_cert b) ver = Ok tt /\
  forall a, Block.author b = Some a -> exists sig, Block.signature b = Some sig /\
    signed_by ver (Block.block_data b) a sig.
Proof.
  unfold Block.validate_signature, Block.author, BlockData.author.
  destruct (BlockData.block_type (Block.block_data b)) as [p a| |]; intros Hv; outcome_inv.
  - destruct u, a1. apply verify_Ok in Ha0. split; [done|]. intros ? [= <-]. eauto.
  - by destruct u.
Qed.

Lemma verify_blocks_chain ver ts id blocks id' : verify_blocks ver ts id blocks = Ok id' ->
  chain id blocks /\
  Forall (fun b => QuorumCert.verify (Block.quorum_cert b) ver = Ok tt /\ Block.is_genesis_block b = false /\
    BlockInfo.round (QuorumCert.certified_block (Block.quorum_cert b)) < Block.round b) blocks.
Proof.
  revert ts id. induction blocks as [|b blocks IH]; intros ts id Hv; cbn in Hv; [done|]. outcome_inv.
  apply bool_decide_eq_true in Ha1. apply IH in Hv as [Hc Hf]. split; [done|]. constructor; [|done].
  destruct (validated_certificate _ _ _ Ha) as [Hqc _]. unfold Block.verify_well_formed in Ha0. outcome_inv.
  split_and!; [done | by apply negb_true_iff | by apply Z.ltb_lt].
Qed.

Lemma chain_linked id blocks : chain id blocks ->
  (forall b, head blocks = Some b -> Block.id b = id) /\
  forall (i : nat) b b', blocks !! i = Some b -> blocks !! S i = Some b' -> Block.id b' = Block.parent_id b.
Proof.
  revert id. induction blocks as [|b blocks IH]; intros id; [done|]. intros [Hid Hc].
  destruct (IH _ Hc) as [Hh Hl]. split; [by intros ? [= <-]|]. intros [|i] b1 b2 H1 H2.
  - injection H1 as <-. apply Hh. by destruct blocks.
  - by apply (Hl i).
Qed.

(** C30: An accepted block retrieval is a chain. If [BlockRetrievalResponse::verify]
    succeeds then the first block is the requested one, every further block is
    the parent of the one before it, every block carries a certificate of its
    parent that the validators signed and that is of a lower round, and none is
    a genesis block; a response with status [Succeeded] has the requested number
    of blocks and one with [SucceededWithTarget] ends in the target. *)
Theorem block_retrieval_chain response request ver ts :
  verify response request ver ts = Ok tt ->
  let bs := blocks response in
  (forall b, head bs = Some b -> Block.id b = BlockRetrievalRequest.block_id request) /\
  (forall (i : nat) b b', bs !! i = Some b -> bs !! S i = Some b' -> Block.id b' = Block.parent_id b) /\
  Forall (fun b => QuorumCert.verify (Block.quorum_cert b) ver = Ok tt /\ Block.is_genesis_block b = false /\
    BlockInfo.round (QuorumCert.certified_block (Block.quorum_cert b)) < Block.round b) bs /\
  (status response = Succeeded -> Z.of_nat (length bs) = BlockRetrievalRequest.num_blocks request) /\
  (status response = SucceededWithTarget -> exists b, last bs = Some b /\
     BlockRetrievalRequest.target_block_id request = Some (Block.id b)).
Proof.
  intros Hv bs. unfold verify in Hv. outcome_inv. apply verify_blocks_chain in Ha1 as [Hc Hf].
  apply chain_linked in Hc as [Hh Hl]. split_and!; [done | done | done | |]; intros Hs; rewrite Hs in Ha, Ha0.
  - by apply Z.eqb_eq.
  - cbn in Ha0. fold bs in Ha0. destruct (last bs) as [b|]; [|done]. exists b. split; [done|].
    unfold BlockRetrievalRequest.match_target_id in Ha0.
    destruct (BlockRetrievalRequest.target_block_id request); [|done]. apply bool_decide_eq_true in Ha0. by subst.
Qed.
End retrieval.
