(* ===== verification/SafetyRules.v ===== *)
(** * Safety rules (consensus/safety-rules/src)

    The component that holds the consensus key and decides what a validator
    signs: votes, timeouts, proposals and commit votes, under the 3-chain rules
    (safety_rules.rs) and the 2-chain rules (safety_rules_2chain.rs), over the
    persisted safety data (persistent_safety_storage.rs).

    A method with [&mut self] is an [action] on the state: what it changed stays
    changed when it returns an error. The secure storage is an interface. The
    texts that errors build with [Display] are left out. *)
From stdpp Require Import prelude gmap strings.
From Stdlib Require Import ZArith Lia.
From S2P Require Import Prelude Bits Hash HashValues Primitives ValidatorVerifier LedgerInfo EpochChange ConsensusTypes Blocks.

(** The hashed and signed structures of consensus. *)
Class ConsensusCrypto `{Primitives} := {
  crypto_vote_data :: CryptoHash VoteData.t;
  crypto_ledger_info :: CryptoHash LedgerInfo.t;
  crypto_timeout :: CryptoHash Timeout.t;
  crypto_signing_repr :: CryptoHash TimeoutSigningRepr.t;
  crypto_block_data :: CryptoHash BlockData.t;
  crypto_vote_proposal :: CryptoHash VoteProposal.t;
  crypto_converter :: CryptoHash Ledger2WaypointConverter.t
}.

(** ** error.rs *)

Module Error.
Inductive t :=
| IncorrectEpoch (provided expected : Z)
| IncorrectRound (round : Z)
| IncorrectLastVotedRound (round last_voted_round : Z)
| IncorrectPreferredRound (round preferred_round : Z)
| InvalidAccumulatorExtension (error : string)
| InvalidEpochChangeProof (error : string)
| InternalError (error : string)
| InvalidLedgerInfo
| InvalidProposal (error : string)
| InvalidQuorumCertificate (error : string)
| NotInitialized (what : string)
| SecureStorageMissingDataError (error : string)
| SecureStorageUnexpectedError (error : string)
| SerializationError (error : string)
| ValidatorKeyNotFound (error : string)
| ValidatorNotInSet (address : string)
| VoteProposalSignatureNotFound
| NotSafeToVote (round qc_round tc_round hqc_round : Z)
| NotSafeToTimeout (round qc_round tc_round one_chain_round : Z)
| InvalidTimeoutCertificate (error : string)
| InconsistentExecutionResult (ordered executed : string)
| InvalidOrderedLedgerInfo (ledger_info : string)
| WaypointOutOfDate (old_version new_version current_epoch provided_epoch : Z)
| InvalidTimeout (error : string).
End Error.

(** secure/storage/src/error.rs *)
Module StorageError.
Inductive t :=
| EntropyError
| InternalError
| KeyAlreadyExists
| KeyNotSet
| PermissionDenied
| SerializationError
| KeyVersionNotFound.

Definition to_string (error : t) : string :=
  match error with
  | EntropyError => "Entropy error"
  | InternalError => "Internal error"
  | KeyAlreadyExists => "Key already exists"
  | KeyNotSet => "Key not set"
  | PermissionDenied => "Permission denied"
  | SerializationError => "Serialization error"
  | KeyVersionNotFound => "Key version not found"
  end.
End StorageError.

(** [From<diem_secure_storage::Error> for Error], applied by [?]: a denied
    permission panics. *)
Definition from_storage {A} (r : outcome StorageError.t A) : outcome Error.t A :=
  match r with
  | Ok a => Ok a
  | Err StorageError.PermissionDenied => Panic
  | Err ((StorageError.KeyVersionNotFound | StorageError.KeyNotSet) as error) =>
      Err (Error.SecureStorageMissingDataError (StorageError.to_string error))
  | Err error => Err (Error.SecureStorageUnexpectedError (StorageError.to_string error))
  | Panic => Panic
  end.

(** [Storage] of diem_secure_storage with the keys the safety rules use:
    backends are remote services or files, so every access may fail.
    [get_safety_data_result] is [get::<Result<SafetyData, Error>>(SAFETY_DATA)]. *)
Class Storage `{Primitives} (S : Type) := {
  import_private_key : string -> PrivateKey -> action S StorageError.t unit;
  export_private_key_for_version : string -> PublicKey -> action S StorageError.t PrivateKey;
  get_public_key : string -> action S StorageError.t PublicKey;
  sign_using_version {T} `{!CryptoHash T} : string -> PublicKey -> T -> action S StorageError.t Signature;
  get_owner_account : action S StorageError.t AccountAddress;
  set_owner_account : AccountAddress -> action S StorageError.t unit;
  get_safety_data : action S StorageError.t SafetyData.t;
  get_safety_data_result : action S StorageError.t (outcome Error.t SafetyData.t);
  set_safety_data : SafetyData.t -> action S StorageError.t unit;
  get_waypoint : action S StorageError.t Waypoint.t;
  set_waypoint : Waypoint.t -> action S StorageError.t unit
}.

Definition CONSENSUS_KEY : string := "consensus".
Definition EXECUTION_KEY : string := "execution".

(** ** persistent_safety_storage.rs *)

Module PersistentSafetyStorage.
Section storage.
Context `{Primitives} {S : Type} `{!Storage S}.

Record t := mk {
  enable_cached_safety_data : bool;
  cached_safety_data : option SafetyData.t;
  internal_store : S
}.

Definition set_internal_store (self : t) (store : S) : t :=
  mk (enable_cached_safety_data self) (cached_safety_data self) store.

Definition set_cache (data : option SafetyData.t) (self : t) : t :=
  mk (enable_cached_safety_data self) data (internal_store self).

(** An access to the internal store. *)
Definition on_store {E A} (m : action S E A) : action t E A := zoom internal_store set_internal_store m.

(** The same followed by [?]. *)
Definition on_store_ {A} (m : action S StorageError.t A) : action t Error.t A := fun self =>
  let (self, r) := on_store m self in (self, from_storage r).

Definition new (internal_store : S) (enable_cached_safety_data : bool) : t :=
  mk enable_cached_safety_data None internal_store.

Definition author : action t Error.t AccountAddress := on_store_ get_owner_account.

Definition consensus_key_for_version (version : PublicKey) : action t Error.t PrivateKey :=
  on_store_ (export_private_key_for_version CONSENSUS_KEY version).

Definition execution_public_key : action t Error.t PublicKey := on_store_ (get_public_key EXECUTION_KEY).

Definition sign {T} `{!CryptoHash T} (key_name : string) (key_version : PublicKey) (message : T)
    : action t Error.t Signature :=
  on_store_ (sign_using_version key_name key_version message).

(** Without the cache, [return self.internal_store.get(SAFETY_DATA).map(|v| v.value)?]
    reads a value of the return type [Result<SafetyData, Error>]. *)
Definition safety_data : action t Error.t SafetyData.t :=
  enable_cached_safety_data ← gets enable_cached_safety_data;
  if negb enable_cached_safety_data then
    value ← on_store_ get_safety_data_result;
    lift value
  else
    cached ← gets cached_safety_data;
    match cached with
    | Some cached_safety_data => mret cached_safety_data
    | None =>
        safety_data ← on_store_ get_safety_data;
        modify (set_cache (Some safety_data)) ;;
        mret safety_data
    end.

(** A panic of the store ends the process, and the cache with it. *)
Definition set_safety_data (data : SafetyData.t) : action t Error.t unit := fun self =>
  match on_store (set_safety_data data) self with
  | (self, Ok _) => (set_cache (Some data) self, Ok tt)
  | (self, Err error) =>
      (set_cache None self, Err (Error.SecureStorageUnexpectedError (StorageError.to_string error)))
  | (self, Panic) => (set_cache None self, Panic)
  end.

Definition waypoint : action t Error.t Waypoint.t := on_store_ get_waypoint.

Definition set_waypoint (waypoint : Waypoint.t) : action t Error.t unit := on_store_ (set_waypoint waypoint).

Definition initialize_keys_and_accounts (author : AccountAddress)
    (consensus_private_key execution_private_key : PrivateKey) : action S Error.t unit := fun store =>
  match import_private_key CONSENSUS_KEY consensus_private_key store with
  | (store, Err StorageError.KeyAlreadyExists) => (store, Ok tt)
  | (store, Panic) => (store, Panic)
  | (store, _) =>
      match import_private_key EXECUTION_KEY execution_private_key store with
      | (store, Ok _) =>
          let (store, r) := set_owner_account author store in (store, from_storage r)
      | (store, r) => (store, from_storage r)
      end
  end.

(** [initialize]: [None] is a panic of [expect]. *)
Definition initialize (internal_store : S) (author : AccountAddress)
    (consensus_private_key execution_private_key : PrivateKey) (waypoint : Waypoint.t)
    (enable_cached_safety_data : bool) : option t :=
  match initialize_keys_and_accounts author consensus_private_key execution_private_key internal_store with
  | (internal_store, Ok _) =>
      let safety_data := SafetyData.new 1 0 0 0 None in
      match set_safety_data safety_data (mk enable_cached_safety_data (Some safety_data) internal_store) with
      | (self, Ok _) =>
          match set_waypoint waypoint self with
          | (self, Ok _) => Some self
          | _ => None
          end
      | _ => None
      end
  | _ => None
  end.
End storage.
Arguments t {_} S.
End PersistentSafetyStorage.

(** ** configurable_validator_signer.rs *)

Module ConfigurableValidatorSigner.
Section signer.
Context `{Primitives} {S : Type} `{!Storage S}.

(** [ValidatorHandle { author, key_version }] *)
Inductive t :=
| Signer (signer : ValidatorSigner.t)
| Handle (author : AccountAddress) (key_version : PublicKey).

Definition new_signer (author : AccountAddress) (consensus_key : PrivateKey) : t :=
  Signer (ValidatorSigner.new author consensus_key).

Definition new_handle (author : AccountAddress) (key_version : PublicKey) : t := Handle author key_version.

Definition author (self : t) : AccountAddress :=
  match self with
  | Signer signer => ValidatorSigner.author signer
  | Handle author _ => author
  end.

Definition public_key (self : t) : PublicKey :=
  match self with
  | Signer signer => ValidatorSigner.public_key signer
  | Handle _ key_version => key_version
  end.

Definition sign {T} `{!CryptoHash T} (self : t) (message : T)
    : action (PersistentSafetyStorage.t S) Error.t Signature :=
  match self with
  | Signer signer => mret (ValidatorSigner.sign signer message)
  | Handle _ key_version => PersistentSafetyStorage.sign CONSENSUS_KEY key_version message
  end.
End signer.
Arguments t {_}.
End ConfigurableValidatorSigner.

(** ** consensus_state.rs *)

Module ConsensusState.
Section state.
Context `{Primitives}.
Record t := new {
  safety_data : SafetyData.t;
  waypoint : Waypoint.t;
  in_validator_set : bool
}.
End state.
Arguments t {_}.
End ConsensusState.

(** ** safety_rules.rs *)

Definition next_round (round : Z) : outcome Error.t Z :=
  ok_or (checked_add round 1) (Error.IncorrectRound round).

Module SafetyRules.
Section rules.
Context `{Primitives} `{!ConsensusCrypto} `{!MerkleHasher HashValue.t} {S : Type} `{!Storage S}.
Import SafetyData (epoch, last_voted_round, preferred_round, one_chain_round, last_vote).

Record t := mk {
  persistent_storage : PersistentSafetyStorage.t S;
  execution_public_key : option PublicKey;
  export_consensus_key : bool;
  validator_signer : option ConfigurableValidatorSigner.t;
  epoch_state : option EpochState.t
}.

Definition set_storage (self : t) (storage : PersistentSafetyStorage.t S) : t :=
  mk storage (execution_public_key self) (export_consensus_key self) (validator_signer self)
    (epoch_state self).

Definition set_validator_signer (signer : option ConfigurableValidatorSigner.t) (self : t) : t :=
  mk (persistent_storage self) (execution_public_key self) (export_consensus_key self) signer
    (epoch_state self).

Definition set_epoch_state (state : option EpochState.t) (self : t) : t :=
  mk (persistent_storage self) (execution_public_key self) (export_consensus_key self)
    (validator_signer self) state.

(** A method of the persistent storage. *)
Definition on_storage {A} (m : action (PersistentSafetyStorage.t S) Error.t A) : action t Error.t A :=
  zoom persistent_storage set_storage m.

(** [new]: reading the execution key may panic. *)
Definition new (persistent_storage : PersistentSafetyStorage.t S)
    (verify_vote_proposal_signature export_consensus_key : bool) : option t :=
  if verify_vote_proposal_signature then
    match PersistentSafetyStorage.execution_public_key persistent_storage with
    | (persistent_storage, Ok key) => Some (mk persistent_storage (Some key) export_consensus_key None None)
    | _ => None
    end
  else Some (mk persistent_storage None export_consensus_key None None).

Definition signer : action t Error.t ConfigurableValidatorSigner.t :=
  validator_signer ← gets validator_signer;
  lift (ok_or validator_signer (Error.NotInitialized "validator_signer")).

Definition get_epoch_state : action t Error.t EpochState.t :=
  epoch_state ← gets epoch_state;
  lift (ok_or epoch_state (Error.NotInitialized "epoch_state")).

Definition sign {T} `{!CryptoHash T} (message : T) : action t Error.t Signature :=
  signer ← signer;
  on_storage (ConfigurableValidatorSigner.sign signer message).

(** [observe_qc(qc, &mut safety_data)]: the updated safety data and whether it
    was updated. *)
Definition observe_qc (qc : QuorumCert.t) (safety_data : SafetyData.t) : SafetyData.t * bool :=
  let one_chain := BlockInfo.round (QuorumCert.certified_block qc) in
  let two_chain := BlockInfo.round (QuorumCert.parent_block qc) in
  let '(safety_data, updated) :=
    if one_chain_round safety_data <? one_chain then
      (SafetyData.new (epoch safety_data) (last_voted_round safety_data) (preferred_round safety_data)
         one_chain (last_vote safety_data), true)
    else (safety_data, false) in
  if preferred_round safety_data <? two_chain then
    (SafetyData.new (epoch safety_data) (last_voted_round safety_data) two_chain
       (one_chain_round safety_data) (last_vote safety_data), true)
  else (safety_data, updated).

Definition construct_ledger_info (proposed_block : Block.t) (consensus_data_hash : HashValue.t)
    : outcome Error.t LedgerInfo.t :=
  let block2 := Block.round proposed_block in
  let block1 := BlockInfo.round (QuorumCert.certified_block (Block.quorum_cert proposed_block)) in
  let block0 := BlockInfo.round (QuorumCert.parent_block (Block.quorum_cert proposed_block)) in
  next0 ← next_round block0;
  commit ← (if next0 =? block1 then next1 ← next_round block1; Ok (next1 =? block2) else Ok false);
  let commit_info :=
    if commit : bool then QuorumCert.parent_block (Block.quorum_cert proposed_block)
    else BlockInfo.empty in
  Ok (LedgerInfo.new commit_info consensus_data_hash).

Definition verify_and_update_preferred_round (quorum_cert : QuorumCert.t) (safety_data : SafetyData.t)
    : outcome Error.t (SafetyData.t * bool) :=
  let preferred_round := preferred_round safety_data in
  let one_chain_round := BlockInfo.round (QuorumCert.certified_block quorum_cert) in
  if one_chain_round <? preferred_round
  then Err (Error.IncorrectPreferredRound one_chain_round preferred_round)
  else Ok (observe_qc quorum_cert safety_data).

Definition verify_author (author : option AccountAddress) : action t Error.t unit :=
  signer ← signer;
  let validator_signer_author := ConfigurableValidatorSigner.author signer in
  author ← lift (ok_or author (Error.InvalidProposal "No author found in the proposal"));
  lift (ensure (bool_decide (validator_signer_author = author))
          (Error.InvalidProposal "Proposal author is not validator signer!")).

Definition verify_epoch (epoch' : Z) (safety_data : SafetyData.t) : outcome Error.t unit :=
  if negb (epoch' =? epoch safety_data) then Err (Error.IncorrectEpoch epoch' (epoch safety_data)) else Ok tt.

Definition verify_and_update_last_vote_round (round : Z) (safety_data : SafetyData.t)
    : outcome Error.t SafetyData.t :=
  if round <=? last_voted_round safety_data
  then Err (Error.IncorrectLastVotedRound round (last_voted_round safety_data))
  else Ok (SafetyData.new (epoch safety_data) round (preferred_round safety_data)
             (one_chain_round safety_data) (last_vote safety_data)).

Definition verify_qc (qc : QuorumCert.t) : action t Error.t unit :=
  epoch_state ← get_epoch_state;
  lift (map_err Error.InvalidQuorumCertificate (QuorumCert.verify qc (EpochState.verifier epoch_state))).

(** [now] is the clock in microseconds. *)
Definition verify_proposal (maybe_signed_vote_proposal : MaybeSignedVoteProposal.t) (now : Z)
    : action t Error.t VoteData.t :=
  let vote_proposal := MaybeSignedVoteProposal.vote_proposal maybe_signed_vote_proposal in
  let execution_signature := MaybeSignedVoteProposal.signature maybe_signed_vote_proposal in
  execution_public_key ← gets execution_public_key;
  match execution_public_key with
  | Some public_key =>
      signature ← lift (ok_or execution_signature Error.VoteProposalSignatureNotFound);
      lift (ensure (verify_struct_signature public_key vote_proposal signature)
              (Error.InternalError "signature error"))
  | None => mret tt
  end ;;
  let proposed_block := VoteProposal.block vote_proposal in
  safety_data ← on_storage PersistentSafetyStorage.safety_data;
  lift (verify_epoch (Block.epoch proposed_block) safety_data) ;;
  verify_qc (Block.quorum_cert proposed_block) ;;
  epoch_state ← get_epoch_state;
  lift (map_err Error.InvalidProposal
          (Block.validate_signature proposed_block (EpochState.verifier epoch_state))) ;;
  lift (map_err Error.InvalidProposal (Block.verify_well_formed proposed_block now)) ;;
  lift (map_err Error.InvalidAccumulatorExtension (VoteProposal.gen_vote_data vote_proposal)).

Definition guarded_consensus_state : action t Error.t ConsensusState.t :=
  _ ← on_storage PersistentSafetyStorage.waypoint;
  _ ← on_storage PersistentSafetyStorage.safety_data;
  _ ← on_storage PersistentSafetyStorage.author;
  safety_data ← on_storage PersistentSafetyStorage.safety_data;
  waypoint ← on_storage PersistentSafetyStorage.waypoint;
  validator_signer ← gets validator_signer;
  mret (ConsensusState.new safety_data waypoint (bool_decide (is_Some validator_signer))).

(** The signer [guarded_initialize] ends up with for a validator of the epoch. *)
Definition reconcile_key (author : AccountAddress) (expected_key : PublicKey) : action t Error.t unit :=
  validator_signer ← gets validator_signer;
  let current_key := ConfigurableValidatorSigner.public_key <$> validator_signer in
  if bool_decide (current_key = Some expected_key) then mret tt
  else
    export_consensus_key ← gets export_consensus_key;
    if export_consensus_key : bool then
      consensus_key ← map_error (fun error =>
          match error with
          | Error.SecureStorageMissingDataError error => Error.ValidatorKeyNotFound error
          | _ => error
          end) (on_storage (PersistentSafetyStorage.consensus_key_for_version expected_key));
      modify (set_validator_signer (Some (ConfigurableValidatorSigner.new_signer author consensus_key)))
    else
      modify (set_validator_signer (Some (ConfigurableValidatorSigner.new_handle author expected_key))) ;;
      _ ← map_error (fun _ => Error.ValidatorKeyNotFound "") (sign (Timeout.new 0 0));
      mret tt.

Definition guarded_initialize (proof : EpochChangeProof.t) : action t Error.t unit :=
  waypoint ← on_storage PersistentSafetyStorage.waypoint;
  last_li ← lift (map_err Error.InvalidEpochChangeProof (EpochChangeProof.verify proof waypoint));
  let ledger_info := LedgerInfoWithSignatures.ledger_info last_li in
  epoch_state ← lift (ok_or (LedgerInfo.next_epoch_state ledger_info) Error.InvalidLedgerInfo);
  new_waypoint ← lift (map_err Error.InternalError (Waypoint.new_epoch_boundary ledger_info));
  (if Waypoint.version waypoint <? Waypoint.version new_waypoint
   then on_storage (PersistentSafetyStorage.set_waypoint new_waypoint) else mret tt) ;;
  safety_data ← on_storage PersistentSafetyStorage.safety_data;
  let current_epoch := epoch safety_data in
  match current_epoch ?= EpochState.epoch epoch_state with
  | Gt => lift (Err (Error.WaypointOutOfDate (Waypoint.version waypoint) (Waypoint.version new_waypoint)
                       current_epoch (EpochState.epoch epoch_state)))
  | Lt => on_storage (PersistentSafetyStorage.set_safety_data
                        (SafetyData.new (EpochState.epoch epoch_state) 0 0 0 None))
  | Eq => mret tt
  end ;;
  modify (set_epoch_state (Some epoch_state)) ;;
  author ← on_storage PersistentSafetyStorage.author;
  let expected_key := ValidatorVerifier.get_public_key (EpochState.verifier epoch_state) author in
  let initialize_result :=
    match expected_key with
    | None => lift (Err (Error.ValidatorNotInSet ""))
    | Some expected_key => reconcile_key author expected_key
    end in
  catch initialize_result (fun error => modify (set_validator_signer None) ;; lift (Err error)).

(** The previous vote, if it is in the round of the proposal. *)
Definition previous_vote (safety_data : SafetyData.t) (proposed_block : Block.t) : option Vote.t :=
  match last_vote safety_data with
  | Some vote =>
      if BlockInfo.round (VoteData.proposed (Vote.vote_data vote)) =? Block.round proposed_block
      then Some vote else None
  | None => None
  end.

(** The end of both voting methods: sign the vote, record and return it. *)
Definition record_vote (vote_data : VoteData.t) (author : AccountAddress) (ledger_info : LedgerInfo.t)
    (safety_data : SafetyData.t) : action t Error.t Vote.t :=
  signature ← sign ledger_info;
  let vote := Vote.new_with_signature vote_data author ledger_info signature in
  let safety_data := SafetyData.new (epoch safety_data) (last_voted_round safety_data)
    (preferred_round safety_data) (one_chain_round safety_data) (Some vote) in
  on_storage (PersistentSafetyStorage.set_safety_data safety_data) ;;
  mret vote.

Definition guarded_construct_and_sign_vote (maybe_signed_vote_proposal : MaybeSignedVoteProposal.t) (now : Z)
    : action t Error.t Vote.t :=
  _ ← signer;
  vote_data ← verify_proposal maybe_signed_vote_proposal now;
  safety_data ← on_storage PersistentSafetyStorage.safety_data;
  let proposed_block := VoteProposal.block (MaybeSignedVoteProposal.vote_proposal maybe_signed_vote_proposal) in
  match previous_vote safety_data proposed_block with
  | Some vote => mret vote
  | None =>
      '(safety_data, _) ← lift (verify_and_update_preferred_round (Block.quorum_cert proposed_block) safety_data);
      safety_data ← lift (verify_and_update_last_vote_round (BlockData.round (Block.block_data proposed_block))
                            safety_data);
      signer ← signer;
      let author := ConfigurableValidatorSigner.author signer in
      ledger_info ← lift (construct_ledger_info proposed_block (crypto_hash vote_data));
      record_vote vote_data author ledger_info safety_data
  end.

Definition guarded_sign_proposal (block_data : BlockData.t) : action t Error.t Signature :=
  _ ← signer;
  verify_author (BlockData.author block_data) ;;
  safety_data ← on_storage PersistentSafetyStorage.safety_data;
  lift (verify_epoch (BlockData.epoch block_data) safety_data) ;;
  if BlockData.round block_data <=? last_voted_round safety_data then
    lift (Err (Error.InvalidProposal "Proposed round is not higher than last voted round"))
  else
    verify_qc (BlockData.quorum_cert block_data) ;;
    _ ← lift (verify_and_update_preferred_round (BlockData.quorum_cert block_data) safety_data);
    sign block_data.

(** The last checks of both timeout methods. *)
Definition record_timeout (round : Z) (safety_data : SafetyData.t) : action t Error.t unit :=
  if round <? last_voted_round safety_data then
    lift (Err (Error.IncorrectLastVotedRound round (last_voted_round safety_data)))
  else if last_voted_round safety_data <? round then
    safety_data ← lift (verify_and_update_last_vote_round round safety_data);
    on_storage (PersistentSafetyStorage.set_safety_data safety_data)
  else mret tt.

Definition guarded_sign_timeout (timeout : Timeout.t) : action t Error.t Signature :=
  _ ← signer;
  safety_data ← on_storage PersistentSafetyStorage.safety_data;
  lift (verify_epoch (Timeout.epoch timeout) safety_data) ;;
  if Timeout.round timeout <=? preferred_round safety_data then
    lift (Err (Error.IncorrectPreferredRound (Timeout.round timeout) (preferred_round safety_data)))
  else
    record_timeout (Timeout.round timeout) safety_data ;;
    sign timeout.

Definition guarded_sign_commit_vote (ledger_info : LedgerInfoWithSignatures.t) (new_ledger_info : LedgerInfo.t)
    : action t Error.t Signature :=
  _ ← signer;
  let old_ledger_info := LedgerInfoWithSignatures.ledger_info ledger_info in
  lift (ensure (BlockInfo.is_ordered_only (LedgerInfo.commit_info old_ledger_info))
          (Error.InvalidOrderedLedgerInfo "")) ;;
  lift (ensure (BlockInfo.match_ordered_only (LedgerInfo.commit_info old_ledger_info)
                  (LedgerInfo.commit_info new_ledger_info))
          (Error.InconsistentExecutionResult "" "")) ;;
  epoch_state ← get_epoch_state;
  lift (map_err (fun error => Error.InvalidQuorumCertificate (verify_error_message error))
          (LedgerInfoWithSignatures.verify_signatures ledger_info (EpochState.verifier epoch_state))) ;;
  sign new_ledger_info.

(** ** safety_rules_2chain.rs *)

Definition safe_to_timeout (timeout : TwoChainTimeout.t) (maybe_tc : option TwoChainTimeoutCertificate.t)
    (safety_data : SafetyData.t) : outcome Error.t unit :=
  let round := TwoChainTimeout.round timeout in
  let qc_round := TwoChainTimeout.hqc_round timeout in
  let tc_round := from_option TwoChainTimeoutCertificate.round 0 maybe_tc in
  next_qc ← next_round qc_round;
  extends ← (if round =? next_qc then Ok true
             else next_tc ← next_round tc_round; Ok (round =? next_tc));
  ensure (extends && (one_chain_round safety_data <=? qc_round))
    (Error.NotSafeToTimeout round qc_round tc_round (one_chain_round safety_data)).

Definition safe_to_vote (block : Block.t) (maybe_tc : option TwoChainTimeoutCertificate.t)
    : outcome Error.t unit :=
  let round := Block.round block in
  let qc_round := BlockInfo.round (QuorumCert.certified_block (Block.quorum_cert block)) in
  let tc_round := from_option TwoChainTimeoutCertificate.round 0 maybe_tc in
  let hqc_round := from_option TwoChainTimeoutCertificate.highest_hqc_round 0 maybe_tc in
  next_qc ← next_round qc_round;
  safe ← (if round =? next_qc then Ok true
          else next_tc ← next_round tc_round; Ok ((round =? next_tc) && (hqc_round <=? qc_round)));
  ensure safe (Error.NotSafeToVote round qc_round tc_round hqc_round).

Definition verify_tc (tc : TwoChainTimeoutCertificate.t) : action t Error.t unit :=
  epoch_state ← get_epoch_state;
  lift (map_err Error.InvalidTimeoutCertificate
          (TwoChainTimeoutCertificate.verify tc (EpochState.verifier epoch_state))).

Definition verify_maybe_tc (timeout_cert : option TwoChainTimeoutCertificate.t) : action t Error.t unit :=
  match timeout_cert with
  | Some tc => verify_tc tc
  | None => mret tt
  end.

Definition construct_ledger_info_2chain (proposed_block : Block.t) (consensus_data_hash : HashValue.t)
    : outcome Error.t LedgerInfo.t :=
  let block1 := Block.round proposed_block in
  let block0 := BlockInfo.round (QuorumCert.certified_block (Block.quorum_cert proposed_block)) in
  next0 ← next_round block0;
  let commit := next0 =? block1 in
  let commit_info :=
    if commit then QuorumCert.certified_block (Block.quorum_cert proposed_block) else BlockInfo.empty in
  Ok (LedgerInfo.new commit_info consensus_data_hash).

Definition guarded_sign_timeout_with_qc (timeout : TwoChainTimeout.t)
    (timeout_cert : option TwoChainTimeoutCertificate.t) : action t Error.t Signature :=
  _ ← signer;
  safety_data ← on_storage PersistentSafetyStorage.safety_data;
  lift (verify_epoch (TwoChainTimeout.epoch timeout) safety_data) ;;
  epoch_state ← get_epoch_state;
  lift (map_err Error.InvalidTimeout (TwoChainTimeout.verify timeout (EpochState.verifier epoch_state))) ;;
  verify_maybe_tc timeout_cert ;;
  lift (safe_to_timeout timeout timeout_cert safety_data) ;;
  record_timeout (TwoChainTimeout.round timeout) safety_data ;;
  sign (TwoChainTimeout.signing_format timeout).

Definition guarded_construct_and_sign_vote_two_chain
    (maybe_signed_vote_proposal : MaybeSignedVoteProposal.t) (now : Z)
    (timeout_cert : option TwoChainTimeoutCertificate.t) : action t Error.t Vote.t :=
  _ ← signer;
  vote_data ← verify_proposal maybe_signed_vote_proposal now;
  verify_maybe_tc timeout_cert ;;
  let proposed_block := VoteProposal.block (MaybeSignedVoteProposal.vote_proposal maybe_signed_vote_proposal) in
  safety_data ← on_storage PersistentSafetyStorage.safety_data;
  match previous_vote safety_data proposed_block with
  | Some vote => mret vote
  | None =>
      safety_data ← lift (verify_and_update_last_vote_round (BlockData.round (Block.block_data proposed_block))
                            safety_data);
      lift (safe_to_vote proposed_block timeout_cert) ;;
      let '(safety_data, _) := observe_qc (Block.quorum_cert proposed_block) safety_data in
      signer ← signer;
      let author := ConfigurableValidatorSigner.author signer in
      ledger_info ← lift (construct_ledger_info_2chain proposed_block (crypto_hash vote_data));
      record_vote vote_data author ledger_info safety_data
  end.

End rules.
Arguments t {_} S.
End SafetyRules.
