(* ===== verification/SafetySpec.v ===== *)
(** * The contract of the safety rules

    What the safety rules promise is stated on the persisted safety data: a
    small step relation [transition] says how it may change and [output_ok] what
    may be signed in each state. The refinement theorem: every operation of
    [SafetyRules], whatever the secure storage does, changes the persisted data
    by at most one transition and signs only what the new data allows. *)
From stdpp Require Import prelude gmap strings.
From Stdlib Require Import ZArith Lia.
From S2P Require Import Prelude Bits Hash HashValues Primitives ValidatorVerifier LedgerInfo EpochChange ConsensusTypes Blocks SafetyRules.

(** The storage as the safety rules rely on it: a value that was set is read
    back, a failed write leaves the old or the new value, and no other access
    touches the safety data. *)
Class StorageLaws `{Primitives} (S : Type) `{!Storage S} := {
  content : S -> option SafetyData.t;
  get_law s : content (get_safety_data s).1 = content s /\
    forall x, (get_safety_data s).2 = Ok x -> content s = Some x;
  get_result_law s : content (get_safety_data_result s).1 = content s /\
    forall x, (get_safety_data_result s).2 = Ok (Ok x) -> content s = Some x;
  set_law x s : content (set_safety_data x s).1 = Some x \/
    ((set_safety_data x s).2 <> Ok tt /\ content (set_safety_data x s).1 = content s);
  import_law n k s : content (import_private_key n k s).1 = content s;
  export_law n k s : content (export_private_key_for_version n k s).1 = content s;
  public_key_law n s : content (get_public_key n s).1 = content s;
  sign_law {T} `{!CryptoHash T} n k (m : T) s : content (sign_using_version n k m s).1 = content s;
  get_owner_law s : content (get_owner_account s).1 = content s;
  set_owner_law a s : content (set_owner_account a s).1 = content s;
  get_waypoint_law s : content (get_waypoint s).1 = content s;
  set_waypoint_law w s : content (set_waypoint w s).1 = content s
}.

Abbreviation vote_epoch v := (Vote.epoch v).
Abbreviation vote_round v := (BlockInfo.round (VoteData.proposed (Vote.vote_data v))).
Abbreviation parent_round v := (BlockInfo.round (VoteData.parent (Vote.vote_data v))).

(** ** Operations *)

Section operations.
Context `{Primitives} `{!ConsensusCrypto} `{!MerkleHasher HashValue.t} {S : Type} `{!Storage S}.

(** [TSafetyRules], and the restart of the process on the same storage. *)
Inductive operation :=
| ConsensusState_
| Initialize (proof : EpochChangeProof.t)
| ConstructAndSignVote (proposal : MaybeSignedVoteProposal.t) (now : Z)
| SignProposal (block_data : BlockData.t)
| SignTimeout (timeout : Timeout.t)
| SignTimeoutWithQC (timeout : TwoChainTimeout.t) (timeout_cert : option TwoChainTimeoutCertificate.t)
| ConstructAndSignVoteTwoChain (proposal : MaybeSignedVoteProposal.t) (now : Z)
    (timeout_cert : option TwoChainTimeoutCertificate.t)
| SignCommitVote (ledger_info : LedgerInfoWithSignatures.t) (new_ledger_info : LedgerInfo.t)
| Restart (enable_cached_safety_data verify_vote_proposal_signature export_consensus_key : bool).

(** What an operation returns. *)
Inductive response :=
| RState (state : ConsensusState.t)
| RDone
| RVote (vote : Vote.t)
| RSignature (signature : Signature).

(** A restart that panics leaves nothing in memory. *)
Definition restart (enable_cached verify export : bool) : action (SafetyRules.t S) Error.t unit := fun self =>
  let storage := PersistentSafetyStorage.new
    (PersistentSafetyStorage.internal_store (SafetyRules.persistent_storage self)) enable_cached in
  match SafetyRules.new storage verify export with
  | Some self => (self, Ok tt)
  | None => (SafetyRules.mk storage None export None None, Panic)
  end.

Definition perform (o : operation) : action (SafetyRules.t S) Error.t response :=
  match o with
  | ConsensusState_ => state ← SafetyRules.guarded_consensus_state; mret (RState state)
  | Initialize proof => SafetyRules.guarded_initialize proof ;; mret RDone
  | ConstructAndSignVote proposal now =>
      vote ← SafetyRules.guarded_construct_and_sign_vote proposal now; mret (RVote vote)
  | SignProposal block_data => sig ← SafetyRules.guarded_sign_proposal block_data; mret (RSignature sig)
  | SignTimeout timeout => sig ← SafetyRules.guarded_sign_timeout timeout; mret (RSignature sig)
  | SignTimeoutWithQC timeout timeout_cert =>
      sig ← SafetyRules.guarded_sign_timeout_with_qc timeout timeout_cert; mret (RSignature sig)
  | ConstructAndSignVoteTwoChain proposal now timeout_cert =>
      vote ← SafetyRules.guarded_construct_and_sign_vote_two_chain proposal now timeout_cert;
      mret (RVote vote)
  | SignCommitVote ledger_info new_ledger_info =>
      sig ← SafetyRules.guarded_sign_commit_vote ledger_info new_ledger_info; mret (RSignature sig)
  | Restart enable_cached verify export => restart enable_cached verify export ;; mret RDone
  end.

(** ** The contract *)

(** The voting rule of the 2-chain protocol for a vote on the
    proposal [vp]: the parent
    is certified; the round follows the round of the parent, or the round of a
    timeout certificate whose highest certified round the parent reaches; the
    parent is committed in the first case. *)
Record two_chain_vote (verifier : ValidatorVerifier.t) (tc : option TwoChainTimeoutCertificate.t)
    (vp : VoteProposal.t) (v : Vote.t) : Prop := {
  tcv_qc : QuorumCert.verify (Block.quorum_cert (VoteProposal.block vp)) verifier = Ok tt;
  tcv_data : VoteProposal.gen_vote_data vp = Ok (Vote.vote_data v);
  tcv_parent : VoteData.parent (Vote.vote_data v)
    = QuorumCert.certified_block (Block.quorum_cert (VoteProposal.block vp));
  tcv_round : parent_round v < vote_round v;
  tcv_epoch : BlockInfo.epoch (VoteData.parent (Vote.vote_data v)) = vote_epoch v;
  tcv_rule : vote_round v = parent_round v + 1 \/
    exists c, tc = Some c /\ TwoChainTimeoutCertificate.verify c verifier = Ok tt /\
      vote_round v = TwoChainTimeoutCertificate.round c + 1 /\
      TwoChainTimeoutCertificate.highest_hqc_round c <= parent_round v;
  tcv_ledger_info : Vote.ledger_info v =
    LedgerInfo.new (if vote_round v =? parent_round v + 1 then VoteData.parent (Vote.vote_data v)
                    else BlockInfo.empty) (crypto_hash (Vote.vote_data v))
}.

(** The same for the 3-chain protocol, whose rule on the round of the parent is
    in [transition]: the grandparent is committed if the three rounds follow each
    other. *)
Record three_chain_vote (verifier : ValidatorVerifier.t) (vp : VoteProposal.t) (v : Vote.t) : Prop := {
  hcv_qc : QuorumCert.verify (Block.quorum_cert (VoteProposal.block vp)) verifier = Ok tt;
  hcv_data : VoteProposal.gen_vote_data vp = Ok (Vote.vote_data v);
  hcv_parent : VoteData.parent (Vote.vote_data v)
    = QuorumCert.certified_block (Block.quorum_cert (VoteProposal.block vp));
  hcv_round : parent_round v < vote_round v;
  hcv_epoch : BlockInfo.epoch (VoteData.parent (Vote.vote_data v)) = vote_epoch v;
  hcv_ledger_info :
    let grandparent := QuorumCert.parent_block (Block.quorum_cert (VoteProposal.block vp)) in
    Vote.ledger_info v =
      LedgerInfo.new (if (parent_round v =? BlockInfo.round grandparent + 1) && (vote_round v =? parent_round v + 1)
                      then grandparent else BlockInfo.empty) (crypto_hash (Vote.vote_data v))
}.

(** Why an operation may create the vote [v] with the epoch state [es]. *)
Definition vote_allowed (o : operation) (es : option EpochState.t) (v : Vote.t) : Prop :=
  match o with
  | ConstructAndSignVoteTwoChain p _ tc =>
      exists e, es = Some e /\
        two_chain_vote (EpochState.verifier e) tc (MaybeSignedVoteProposal.vote_proposal p) v
  | ConstructAndSignVote p _ =>
      exists e, es = Some e /\ three_chain_vote (EpochState.verifier e) (MaybeSignedVoteProposal.vote_proposal p) v
  | _ => False
  end.

(** Why a commit vote may be signed with the epoch state [es]: a quorum ordered
    the block, and the new ledger info is for the same block. *)
Definition commit_allowed (o : operation) (es : option EpochState.t) : Prop :=
  match o with
  | SignCommitVote ledger_info new_ledger_info =>
      let ordered := LedgerInfoWithSignatures.commit_info ledger_info in
      BlockInfo.is_ordered_only ordered = true /\
      BlockInfo.match_ordered_only ordered (LedgerInfo.commit_info new_ledger_info) = true /\
      exists e, es = Some e /\ LedgerInfoWithSignatures.verify_signatures ledger_info (EpochState.verifier e) = Ok tt
  | _ => True
  end.

(** The rule of the 3-chain protocol: the parent reaches the preferred round. *)
Definition preferred_ok (o : operation) (x : SafetyData.t) (v : Vote.t) : Prop :=
  match o with
  | ConstructAndSignVote _ _ => SafetyData.preferred_round x <= parent_round v
  | _ => True
  end.

Import SafetyData (epoch, last_voted_round, preferred_round, one_chain_round, last_vote).

(** How operation [o] may change the safety data. *)
Inductive transition (o : operation) (es : option EpochState.t) (x : SafetyData.t) : SafetyData.t -> Prop :=
| tr_vote x' v :
    vote_allowed o es v -> preferred_ok o x v -> last_vote x' = Some v ->
    epoch x' = epoch x -> vote_epoch v = epoch x ->
    last_voted_round x < vote_round v -> last_voted_round x' = vote_round v ->
    one_chain_round x' = Z.max (one_chain_round x) (parent_round v) ->
    preferred_round x <= preferred_round x' ->
    transition o es x x'
| tr_timeout r :
    last_voted_round x < r ->
    transition o es x (SafetyData.new (epoch x) r (preferred_round x) (one_chain_round x) (last_vote x))
| tr_epoch e :
    epoch x < e -> transition o es x (SafetyData.new e 0 0 0 None).

(** What an operation may return when the safety data is [x]. *)
Definition output_ok (o : operation) (x : SafetyData.t) (r : response) : Prop :=
  match r, o with
  | RVote v, _ => last_vote x = Some v
  | RSignature _, SignTimeoutWithQC timeout _ =>
      TwoChainTimeout.epoch timeout = epoch x /\ TwoChainTimeout.round timeout = last_voted_round x /\
      one_chain_round x <= TwoChainTimeout.hqc_round timeout
  | RSignature _, SignTimeout timeout =>
      Timeout.epoch timeout = epoch x /\ Timeout.round timeout = last_voted_round x /\
      preferred_round x < Timeout.round timeout
  | RSignature _, SignProposal block_data =>
      BlockData.epoch block_data = epoch x /\ last_voted_round x < BlockData.round block_data /\
      preferred_round x <= BlockInfo.round (QuorumCert.certified_block (BlockData.quorum_cert block_data))
  | _, _ => True
  end.

(** The operations that return a vote or a signature on consensus data. *)
Definition signs (o : operation) : bool :=
  match o with
  | ConstructAndSignVote _ _ | SignProposal _ | SignTimeout _ | SignTimeoutWithQC _ _
  | ConstructAndSignVoteTwoChain _ _ _ => true
  | _ => false
  end.
End operations.

(** ** Specifications of actions

    [at_rest P d s]: the stored safety data is [d], the cache agrees with it,
    and [P] holds of the epoch state in memory. *)
Section spec.
Context `{Primitives} `{!ConsensusCrypto} `{!MerkleHasher HashValue.t} {S : Type} `{!Storage S} `{!StorageLaws S}.
Import SafetyRules.
Import SafetyData (epoch, last_voted_round, preferred_round, one_chain_round, last_vote).
Implicit Types (d : option SafetyData.t) (P : option EpochState.t -> Prop).

Definition storage_at_rest d (st : PersistentSafetyStorage.t S) : Prop :=
  content (PersistentSafetyStorage.internal_store st) = d /\
  (PersistentSafetyStorage.cached_safety_data st = None \/ PersistentSafetyStorage.cached_safety_data st = d).

Definition at_rest P d (s : SafetyRules.t S) : Prop :=
  P (epoch_state s) /\ storage_at_rest d (persistent_storage s).

(** From [d], the action ends with [Q] on success and [F] on failure. *)
Definition spec {A} P d (m : action (SafetyRules.t S) Error.t A) P'
    (Q : A -> option SafetyData.t -> Prop) (F : option SafetyData.t -> Prop) : Prop :=
  forall s, at_rest P d s -> exists d', at_rest P' d' (m s).1 /\
    match (m s).2 with Ok a => Q a d' | _ => F d' end.

Definition storage_spec {A} d (m : action (PersistentSafetyStorage.t S) Error.t A)
    (Q : A -> option SafetyData.t -> Prop) (F : option SafetyData.t -> Prop) : Prop :=
  forall st, storage_at_rest d st -> exists d', storage_at_rest d' (m st).1 /\
    match (m st).2 with Ok a => Q a d' | _ => F d' end.

(** An action that leaves the data alone and returns a value with [R]. *)
Definition reads {A} P d (m : action (SafetyRules.t S) Error.t A) (R : A -> Prop) : Prop :=
  spec P d m P (fun a d' => d' = d /\ R a) (fun d' => d' = d).
Definition storage_reads {A} d (m : action (PersistentSafetyStorage.t S) Error.t A) (R : A -> Prop) : Prop :=
  storage_spec d m (fun a d' => d' = d /\ R a) (fun d' => d' = d).

Lemma spec_bind {A B} P P' P'' d (m : action _ _ A) (f : A -> action _ _ B) Q1 F1 Q F :
  spec P d m P' Q1 F1 -> (forall a d', Q1 a d' -> spec P' d' (f a) P'' Q F) ->
  (forall d', F1 d' -> F d') -> (forall o, P' o -> P'' o) -> spec P d (m ≫= f) P'' Q F.
Proof.
  intros Hm Hf HF HP s Hs. destruct (Hm s Hs) as (d' & [Hd HR] & Hr).
  unfold mbind, action_bind. destruct (m s) as [s' [a|e|]]; cbn in *.
  - apply (Hf a d' Hr). by split.
  - exists d'. split; [by split; auto | auto].
  - exists d'. split; [by split; auto | auto].
Qed.

(** After a read. *)
Lemma reads_bind {A B} P d (m : action _ _ A) (f : A -> action _ _ B) R Q F :
  reads P d m R -> (forall a, R a -> spec P d (f a) P Q F) -> F d -> spec P d (m ≫= f) P Q F.
Proof.
  intros Hm Hf HF. eapply spec_bind; [exact Hm| | by intros ? -> | done].
  intros a d' [-> Ha]. by apply Hf.
Qed.

Lemma spec_ret {A} P d (a : A) (Q : A -> option SafetyData.t -> Prop) F : Q a d -> spec P d (mret a) P Q F.
Proof. intros HQ s Hs. exists d. by split. Qed.

Lemma reads_lift {A} P d (m : outcome Error.t A) : reads P d (lift m) (fun a => m = Ok a).
Proof. intros s Hs. exists d. split; [done|]. cbn. by destruct m. Qed.

Lemma spec_weaken {A} P d (m : action _ _ A) P' (Q Q' : A -> option SafetyData.t -> Prop)
    (F F' : option SafetyData.t -> Prop) :
  spec P d m P' Q F -> (forall a d', Q a d' -> Q' a d') -> (forall d', F d' -> F' d') -> spec P d m P' Q' F'.
Proof.
  intros Hm HQ HF s Hs. destruct (Hm s Hs) as (d' & Hd & Hr). exists d'. split; [done|].
  case_match; auto.
Qed.

Lemma spec_on_storage {A} P d (m : action _ _ A) Q F :
  storage_spec d m Q F -> spec P d (on_storage m) P Q F.
Proof.
  intros Hm s [HP Hs]. destruct (Hm _ Hs) as (d' & Hd & Hr). exists d'.
  unfold on_storage, zoom. destruct (m (persistent_storage s)) as [st r]. by split.
Qed.

Lemma reads_gets {A} P d (f : SafetyRules.t S -> A) : reads P d (gets f) (fun _ => True).
Proof. intros s Hs. exists d. by split. Qed.

Lemma reads_signer P d : reads P d signer (fun _ => True).
Proof.
  eapply reads_bind; [apply reads_gets | | done]. intros a _.
  eapply spec_weaken; [apply reads_lift | |]; naive_solver.
Qed.

Lemma reads_epoch_state P d : reads P d get_epoch_state (fun e => P (Some e)).
Proof.
  intros s Hs. exists d. unfold get_epoch_state, gets, lift, mbind, action_bind. cbn.
  destruct (epoch_state s) eqn:E; cbn; (split; [done|]); [|done]. split; [done|].
  destruct Hs as [HP _]. by rewrite E in HP.
Qed.

(** *** The storage *)

(** An access to the store that does not touch the safety data. *)
Lemma storage_reads_on_store {A} d (m : action S StorageError.t A) :
  (forall s, content (m s).1 = content s) -> storage_reads d (PersistentSafetyStorage.on_store_ m) (fun _ => True).
Proof.
  intros Hm st Hst. exists d. unfold PersistentSafetyStorage.on_store_, PersistentSafetyStorage.on_store, zoom.
  specialize (Hm (PersistentSafetyStorage.internal_store st)).
  destruct (m (PersistentSafetyStorage.internal_store st)) as [s' r]. cbn in *. split.
  - destruct Hst as [Hc Hcache]. split; cbn; [congruence | done].
  - by destruct r as [|[]|].
Qed.

Lemma storage_reads_author d : storage_reads d PersistentSafetyStorage.author (fun _ => True).
Proof. apply storage_reads_on_store, get_owner_law. Qed.

Lemma storage_reads_key d k :
  storage_reads d (PersistentSafetyStorage.consensus_key_for_version k) (fun _ => True).
Proof. apply storage_reads_on_store. intros s. apply export_law. Qed.

Lemma storage_reads_execution_key d : storage_reads d PersistentSafetyStorage.execution_public_key (fun _ => True).
Proof. apply storage_reads_on_store. intros s. apply public_key_law. Qed.

Lemma storage_reads_waypoint d : storage_reads d PersistentSafetyStorage.waypoint (fun _ => True).
Proof. apply storage_reads_on_store, get_waypoint_law. Qed.

Lemma storage_reads_set_waypoint d w : storage_reads d (PersistentSafetyStorage.set_waypoint w) (fun _ => True).
Proof. apply storage_reads_on_store. intros s. apply set_waypoint_law. Qed.

Lemma storage_reads_sign {T} `{!CryptoHash T} d n k (m : T) :
  storage_reads d (PersistentSafetyStorage.sign n k m) (fun _ => True).
Proof. apply storage_reads_on_store. intros s. apply sign_law. Qed.

Lemma storage_reads_safety_data d :
  storage_reads d PersistentSafetyStorage.safety_data (fun x => d = Some x).
Proof.
  intros st [Hc Hcache]. unfold PersistentSafetyStorage.safety_data, gets, mbind, action_bind.
  destruct (PersistentSafetyStorage.enable_cached_safety_data st) eqn:En; cbn [negb].
  - destruct (PersistentSafetyStorage.cached_safety_data st) as [x|] eqn:Ec; cbn.
    + exists d. split; [by split; [|right; destruct Hcache]; congruence|]. split; [done|]. destruct Hcache; congruence.
    + exists d. unfold PersistentSafetyStorage.on_store_, PersistentSafetyStorage.on_store, zoom.
      destruct (get_law (PersistentSafetyStorage.internal_store st)) as [Hk Hx].
      destruct (get_safety_data _) as [s' [x|[]|]]; cbn in *;
        (split; [split; cbn; [congruence | try (by left)] | try done]).
      * right. rewrite <- Hc. symmetry. by apply Hx.
      * split; [done|]. rewrite <- Hc. by apply Hx.
  - exists d. unfold PersistentSafetyStorage.on_store_, PersistentSafetyStorage.on_store, zoom.
    destruct (get_result_law (PersistentSafetyStorage.internal_store st)) as [Hk Hx].
    destruct (get_safety_data_result _) as [s' [[x|e|]|[]|]]; cbn in *;
      (split; [split; cbn; [congruence | done] | try done]).
    split; [done|]. rewrite <- Hc. by apply Hx.
Qed.

(** A write ends with the new data, or fails with the old or the new data. *)
Lemma storage_spec_set d x :
  storage_spec d (PersistentSafetyStorage.set_safety_data x) (fun _ d' => d' = Some x)
    (fun d' => d' = d \/ d' = Some x).
Proof.
  intros st [Hc Hcache]. unfold PersistentSafetyStorage.set_safety_data, PersistentSafetyStorage.on_store, zoom.
  pose proof (set_law x (PersistentSafetyStorage.internal_store st)) as Hset.
  destruct (set_safety_data x _) as [s' [[]|e|]]; cbn in *.
  - exists (Some x). split; [|done]. split; cbn; [|by right]. by destruct Hset as [|[]].
  - exists (content s'). split; [split; cbn; [done | by left]|].
    destruct Hset as [->|[_ ->]]; [by right | by left].
  - exists (content s'). split; [split; cbn; [done | by left]|].
    destruct Hset as [->|[_ ->]]; [by right | by left].
Qed.

(** *** The operations *)

Lemma reads_on_storage {A} P d (m : action _ _ A) (R : A -> Prop) :
  storage_reads d m R -> reads P d (on_storage m) R.
Proof. apply spec_on_storage. Qed.

Lemma reads_sign {T} `{!CryptoHash T} P d (m : T) : reads P d (sign m) (fun _ => True).
Proof.
  eapply reads_bind; [apply reads_signer | | done]. intros a _. apply reads_on_storage.
  destruct a; [|apply storage_reads_sign]. intros st Hst. by exists d.
Qed.

Lemma reads_verify_qc P d qc :
  reads P d (verify_qc qc) (fun _ => exists e, P (Some e) /\ QuorumCert.verify qc (EpochState.verifier e) = Ok tt).
Proof.
  eapply reads_bind; [apply reads_epoch_state | | done]. intros e He.
  eapply spec_weaken; [apply reads_lift | | done]. intros [] d' [-> Hv]. outcome_inv. split; [done|]. by exists e.
Qed.

Lemma reads_verify_maybe_tc P d otc :
  reads P d (verify_maybe_tc otc) (fun _ => forall tc, otc = Some tc ->
    exists e, P (Some e) /\ TwoChainTimeoutCertificate.verify tc (EpochState.verifier e) = Ok tt).
Proof.
  destruct otc as [tc|]; [|by apply spec_ret].
  eapply reads_bind; [apply reads_epoch_state | | done]. intros e He.
  eapply spec_weaken; [apply reads_lift | | done]. intros [] d' [-> Hv]. outcome_inv.
  split; [done|]. intros ? [= <-]. by exists e.
Qed.

(** Steps a specification through a read at the head of an action. *)
Tactic Notation "read" "as" simple_intropattern(a) simple_intropattern(Ha) :=
  eapply reads_bind;
  [ first [ apply reads_signer | apply reads_epoch_state | apply reads_lift | apply reads_gets
          | apply reads_verify_qc | apply reads_verify_maybe_tc | apply reads_sign
          | apply reads_on_storage;
            first [ apply storage_reads_safety_data | apply storage_reads_author | apply storage_reads_key
                  | apply storage_reads_waypoint | apply storage_reads_set_waypoint ] ]
  | intros a Ha | try done ].

Lemma verify_epoch_Ok e x u : verify_epoch e x = Ok u -> e = epoch x.
Proof. unfold verify_epoch. destruct (Z.eqb_spec e (epoch x)); [done | discriminate]. Qed.

Lemma next_round_Ok r n : next_round r = Ok n -> n = r + 1.
Proof. unfold next_round, checked_add. intros Hn. outcome_inv. case_match; congruence. Qed.

(** What a verified proposal guarantees. *)
Definition proposal_ok es (d : option SafetyData.t) p now (vd : VoteData.t) : Prop :=
  let vp := MaybeSignedVoteProposal.vote_proposal p in
  exists x e, d = Some x /\ es = Some e /\ Block.epoch (VoteProposal.block vp) = epoch x /\
    QuorumCert.verify (Block.quorum_cert (VoteProposal.block vp)) (EpochState.verifier e) = Ok tt /\
    Block.validate_signature (VoteProposal.block vp) (EpochState.verifier e) = Ok tt /\
    Block.verify_well_formed (VoteProposal.block vp) now = Ok tt /\
    VoteProposal.gen_vote_data vp = Ok vd.

Lemma reads_verify_proposal es d p now :
  reads (eq es) d (verify_proposal p now) (proposal_ok es d p now).
Proof.
  unfold verify_proposal. read as a _.
  eapply (reads_bind _ _ _ _ (fun _ => True)); [| |done].
  { destruct a; [|by apply spec_ret]. read as sig _.
    eapply spec_weaken; [apply reads_lift | |]; naive_solver. }
  intros [] _. read as x Hx. read as ? He. read as ? Hqc. read as e Hes. read as [] Hsig. read as [] Hwf.
  eapply spec_weaken; [apply reads_lift | |done]. intros vd d' [-> Hvd]. split; [done|].
  apply verify_epoch_Ok in He. outcome_inv. destruct Hqc as (e' & He' & Hqc).
  simplify_eq. by exists x, e.
Qed.

(** The vote data of a proposal. *)
Lemma gen_vote_data_Ok vp vd : VoteProposal.gen_vote_data vp = Ok vd ->
  VoteData.parent vd = QuorumCert.certified_block (Block.quorum_cert (VoteProposal.block vp)) /\
  BlockInfo.epoch (VoteData.proposed vd) = Block.epoch (VoteProposal.block vp) /\
  BlockInfo.round (VoteData.proposed vd) = Block.round (VoteProposal.block vp) /\
  BlockInfo.id (VoteData.proposed vd) = Block.id (VoteProposal.block vp).
Proof. unfold VoteProposal.gen_vote_data. intros Hv. case_match; outcome_inv; done. Qed.

(** What a well-formed block guarantees of its parent. *)
Lemma well_formed_parent b now u : Block.verify_well_formed b now = Ok u ->
  let parent := QuorumCert.certified_block (Block.quorum_cert b) in
  BlockInfo.round parent < Block.round b /\ BlockInfo.epoch parent = Block.epoch b.
Proof.
  unfold Block.verify_well_formed. intros Hw. outcome_inv. split; [by apply Z.ltb_lt | by apply Z.eqb_eq].
Qed.

Lemma observe_qc_spec qc x : let x' := (observe_qc qc x).1 in
  epoch x' = epoch x /\ last_voted_round x' = last_voted_round x /\ last_vote x' = last_vote x /\
  one_chain_round x' = Z.max (one_chain_round x) (BlockInfo.round (QuorumCert.certified_block qc)) /\
  preferred_round x <= preferred_round x'.
Proof.
  unfold observe_qc. cbv zeta. destruct (Z.ltb_spec (one_chain_round x) (BlockInfo.round (QuorumCert.certified_block qc)));
    cbn; case_match eqn:E; cbn; try apply Z.ltb_lt in E; split_and!; done || lia.
Qed.

(** Signing and recording a vote with the data [y]. *)
Lemma record_vote_spec P d vd author li y :
  let recorded v := Some (SafetyData.new (epoch y) (last_voted_round y) (preferred_round y)
                            (one_chain_round y) (Some v)) in
  let made v := Vote.vote_data v = vd /\ Vote.ledger_info v = li in
  spec P d (record_vote vd author li y) P
    (fun v d' => d' = recorded v /\ made v) (fun d' => d' = d \/ exists v, d' = recorded v /\ made v).
Proof.
  intros recorded made. unfold record_vote. read as sig _; [|by left].
  eapply spec_bind; [apply spec_on_storage, storage_spec_set | | | done].
  - intros [] d' ->. by apply spec_ret.
  - intros d' [->| ->]; [by left | right; by eexists].
Qed.

(** The stored data is unchanged or made one transition. *)
Definition advances (o : operation) es d d' : Prop :=
  d' = d \/ exists x x', d = Some x /\ d' = Some x' /\ transition o es x x'.

Lemma previous_vote_Some x b v : previous_vote x b = Some v -> last_vote x = Some v.
Proof. unfold previous_vote. destruct (last_vote x); [|done]. case_match; naive_solver. Qed.

Lemma last_vote_round_Ok r x y : verify_and_update_last_vote_round r x = Ok y ->
  last_voted_round x < r /\
  y = SafetyData.new (epoch x) r (preferred_round x) (one_chain_round x) (last_vote x).
Proof.
  unfold verify_and_update_last_vote_round.
  destruct (Z.leb_spec r (last_voted_round x)); [discriminate|]. by intros [= <-].
Qed.

(** Recording a vote whose data comes from observing the certificate of the
    parent and raising the last voted round is a transition. *)
Lemma recorded_transition o es (x y : SafetyData.t) v :
  vote_allowed o es v -> preferred_ok o x v -> vote_epoch v = epoch x -> last_voted_round x < vote_round v ->
  epoch y = epoch x -> last_voted_round y = vote_round v ->
  one_chain_round y = Z.max (one_chain_round x) (parent_round v) -> preferred_round x <= preferred_round y ->
  transition o es x (SafetyData.new (epoch y) (last_voted_round y) (preferred_round y) (one_chain_round y) (Some v)).
Proof. intros. by apply (tr_vote o es x _ v). Qed.

Lemma safe_to_vote_Ok b tc u : safe_to_vote b tc = Ok u ->
  let parent := BlockInfo.round (QuorumCert.certified_block (Block.quorum_cert b)) in
  parent < Block.round b ->
  Block.round b = parent + 1 \/
  exists c, tc = Some c /\ Block.round b = TwoChainTimeoutCertificate.round c + 1 /\
    TwoChainTimeoutCertificate.highest_hqc_round c <= parent.
Proof.
  intros Hs parent Hlt. unfold safe_to_vote in Hs. outcome_inv. apply next_round_Ok in Ha as ->.
  destruct (Z.eqb_spec (Block.round b) (parent + 1)) as [|Hne]; [by left|].
  fold parent in Ha0. rewrite (proj2 (Z.eqb_neq _ _) Hne) in Ha0. outcome_inv.
  apply next_round_Ok in Ha as ->. apply andb_true_iff in Hs as [Hr%Z.eqb_eq Hh%Z.leb_le].
  destruct tc as [c|]; cbn in *; [|lia]. right. by exists c.
Qed.

(** The vote the 2-chain rules lead to. *)
Lemma two_chain_vote_intro e p now tc vd li v :
  let b := VoteProposal.block (MaybeSignedVoteProposal.vote_proposal p) in
  QuorumCert.verify (Block.quorum_cert b) (EpochState.verifier e) = Ok tt ->
  (forall c, tc = Some c -> exists e', Some e = Some e' /\
     TwoChainTimeoutCertificate.verify c (EpochState.verifier e') = Ok tt) ->
  Block.verify_well_formed b now = Ok tt ->
  VoteProposal.gen_vote_data (MaybeSignedVoteProposal.vote_proposal p) = Ok vd ->
  safe_to_vote b tc = Ok tt -> construct_ledger_info_2chain b (crypto_hash vd) = Ok li ->
  Vote.vote_data v = vd -> Vote.ledger_info v = li ->
  two_chain_vote (EpochState.verifier e) tc (MaybeSignedVoteProposal.vote_proposal p) v.
Proof.
  intros b Hqc Htc Hwf Hvd Hsafe Hli Hv <-. destruct (gen_vote_data_Ok _ _ Hvd) as (Hpar & Hepoch & Hround & Hid).
  fold b in Hpar, Hepoch, Hround, Hid. destruct (well_formed_parent _ _ _ Hwf) as [Hr He].
  split; unfold Vote.epoch; rewrite ?Hv, ?Hpar, ?Hround, ?Hepoch; try done.
  - destruct (safe_to_vote_Ok _ _ _ Hsafe Hr) as [|(c & -> & Hc)]; [by left|].
    right. exists c. destruct (Htc c) as (e' & [= <-] & Hc'); [done|]. naive_solver.
  - unfold construct_ledger_info_2chain in Hli. outcome_inv. apply next_round_Ok in Ha as ->.
    rewrite <- Hli. by rewrite Z.eqb_sym.
Qed.

(** The vote the 3-chain rules lead to. *)
Lemma three_chain_vote_intro e p now vd li v :
  let b := VoteProposal.block (MaybeSignedVoteProposal.vote_proposal p) in
  QuorumCert.verify (Block.quorum_cert b) (EpochState.verifier e) = Ok tt ->
  Block.verify_well_formed b now = Ok tt ->
  VoteProposal.gen_vote_data (MaybeSignedVoteProposal.vote_proposal p) = Ok vd ->
  construct_ledger_info b (crypto_hash vd) = Ok li -> Vote.vote_data v = vd -> Vote.ledger_info v = li ->
  three_chain_vote (EpochState.verifier e) (MaybeSignedVoteProposal.vote_proposal p) v.
Proof.
  intros b Hqc Hwf Hvd Hli Hv <-. destruct (gen_vote_data_Ok _ _ Hvd) as (Hpar & Hepoch & Hround & Hid).
  fold b in Hpar, Hepoch, Hround, Hid. destruct (well_formed_parent _ _ _ Hwf) as [Hr He].
  split; unfold Vote.epoch; rewrite ?Hv, ?Hpar, ?Hround, ?Hepoch; try done. cbv zeta. fold b.
  unfold construct_ledger_info in Hli. apply bind_Ok_inv in Hli as (next0 & ->%next_round_Ok & Hli).
  apply bind_Ok_inv in Hli as (commit & Hc & Hli). injection Hli as Hli. rewrite <- Hli.
  rewrite (Z.eqb_sym (BlockInfo.round (QuorumCert.certified_block (Block.quorum_cert b)))). destruct (_ =? _).
  - apply bind_Ok_inv in Hc as (next1 & ->%next_round_Ok & [= <-]). by rewrite (Z.eqb_sym (Block.round b)).
  - by injection Hc as <-.
Qed.

(** Both voting methods record a vote with data that observed the certificate
    of the parent and has the round of the block as the last voted one. *)
Lemma block_vote_transition o es p vd v x y :
  let b := VoteProposal.block (MaybeSignedVoteProposal.vote_proposal p) in
  Block.epoch b = epoch x -> VoteProposal.gen_vote_data (MaybeSignedVoteProposal.vote_proposal p) = Ok vd ->
  Vote.vote_data v = vd -> vote_allowed o es v -> preferred_ok o x v -> last_voted_round x < Block.round b ->
  epoch y = epoch x -> last_voted_round y = Block.round b ->
  one_chain_round y = Z.max (one_chain_round x)
    (BlockInfo.round (QuorumCert.certified_block (Block.quorum_cert b))) ->
  preferred_round x <= preferred_round y ->
  transition o es x (SafetyData.new (epoch y) (last_voted_round y) (preferred_round y) (one_chain_round y) (Some v)).
Proof.
  intros b Hep Hvd Hv Hal Hpo Hlt He Hl Ho Hp. destruct (gen_vote_data_Ok _ _ Hvd) as (Hpar & Hepoch & Hround & _).
  fold b in Hpar, Hepoch, Hround.
  apply recorded_transition; try done; unfold Vote.epoch; rewrite ?Hv, ?Hpar, ?Hround; congruence.
Qed.

(** What remains to be shown of a voting method once its checks have passed. *)
Lemma record_vote_advances o es x vd author li y :
  (forall v, Vote.vote_data v = vd -> Vote.ledger_info v = li ->
     transition o es x (SafetyData.new (epoch y) (last_voted_round y) (preferred_round y)
                          (one_chain_round y) (Some v))) ->
  spec (eq es) (Some x) (record_vote vd author li y) (eq es)
    (fun v d' => advances o es (Some x) d' /\ exists x', d' = Some x' /\ last_vote x' = Some v)
    (advances o es (Some x)).
Proof.
  intros Htr. eapply spec_weaken; [apply record_vote_spec | |].
  - intros v d' [-> [Hv Hl]]. split; [right; eauto 10 | by eexists].
  - intros d' [->|(v & -> & Hv & Hl)]; [by left | right; eauto 10].
Qed.

Lemma vote_two_chain_spec es d p now tc :
  let o := ConstructAndSignVoteTwoChain p now tc in
  spec (eq es) d (guarded_construct_and_sign_vote_two_chain p now tc) (eq es)
    (fun v d' => advances o es d d' /\ exists x', d' = Some x' /\ last_vote x' = Some v) (advances o es d).
Proof.
  intros o. unfold guarded_construct_and_sign_vote_two_chain. read as ? _; [|by left].
  eapply reads_bind; [apply reads_verify_proposal | | by left].
  intros vd (x & e & -> & -> & Hep & Hqc & Hsig & Hwf & Hvd).
  read as [] Htc; [|by left]. read as y [= <-]; [|by left].
  set (b := VoteProposal.block _) in *.
  destruct (previous_vote x b) as [v|] eqn:Hprev.
  { apply spec_ret. split; [by left|]. exists x. split; [done|]. by eapply previous_vote_Some. }
  read as y Hy; [|by left]. apply last_vote_round_Ok in Hy as [Hlt ->]. read as [] Hsafe; [|by left].
  destruct (observe_qc _ _) as [y upd] eqn:Ho. read as sg _; [|by left]. read as li Hli; [|by left].
  apply record_vote_advances. intros v Hv Hl.
  pose proof (observe_qc_spec (Block.quorum_cert b) (SafetyData.new (epoch x) (BlockData.round (Block.block_data b))
    (preferred_round x) (one_chain_round x) (last_vote x))) as Hobs. rewrite Ho in Hobs. cbn in Hobs.
  eapply block_vote_transition; try done; try apply Hobs.
  exists e. split; [done|]. by apply (two_chain_vote_intro e p now tc vd li).
Qed.

Lemma vote_spec es d p now :
  let o := ConstructAndSignVote p now in
  spec (eq es) d (guarded_construct_and_sign_vote p now) (eq es)
    (fun v d' => advances o es d d' /\ exists x', d' = Some x' /\ last_vote x' = Some v) (advances o es d).
Proof.
  intros o. unfold guarded_construct_and_sign_vote. read as ? _; [|by left].
  eapply reads_bind; [apply reads_verify_proposal | | by left].
  intros vd (x & e & -> & -> & Hep & Hqc & Hsig & Hwf & Hvd).
  read as y [= <-]; [|by left]. set (b := VoteProposal.block _) in *.
  destruct (previous_vote x b) as [v|] eqn:Hprev.
  { apply spec_ret. split; [by left|]. exists x. split; [done|]. by eapply previous_vote_Some. }
  read as [y upd] Hy; [|by left]. read as z Hz; [|by left]. apply last_vote_round_Ok in Hz as [Hlt ->].
  read as sg _; [|by left]. read as li Hli; [|by left].
  apply record_vote_advances. intros v Hv Hl.
  unfold verify_and_update_preferred_round in Hy. case_match; [discriminate|]. injection Hy as Hy.
  pose proof (observe_qc_spec (Block.quorum_cert b) x) as Hobs. rewrite Hy in Hobs. cbn in Hobs.
  destruct Hobs as (He & Hlv & _ & Ho & Hp). rewrite Hlv in Hlt.
  eapply (block_vote_transition _ _ p _ v x (SafetyData.new (epoch y) _ (preferred_round y) (one_chain_round y) (last_vote y))); try done.
  - exists e. split; [done|]. by apply (three_chain_vote_intro e p now vd li).
  - destruct (gen_vote_data_Ok _ _ Hvd) as (Hpar & _). cbn. rewrite Hv, Hpar. fold b.
    match goal with E : (_ <? _) = false |- _ => by apply Z.ltb_ge in E end.
Qed.

(** *** Timeouts and the other operations *)

Lemma record_timeout_spec o es x r :
  spec (eq es) (Some x) (record_timeout r x) (eq es)
    (fun _ d' => advances o es (Some x) d' /\ d' = Some (SafetyData.new (epoch x) r (preferred_round x) (one_chain_round x) (last_vote x)))
    (advances o es (Some x)).
Proof.
  unfold record_timeout. destruct (Z.ltb_spec r (last_voted_round x)).
  { eapply spec_weaken; [apply reads_lift | naive_solver | by left]. }
  destruct (Z.ltb_spec (last_voted_round x) r).
  - read as y Hy; [|by left]. apply last_vote_round_Ok in Hy as [Hlt ->].
    assert (advances o es (Some x) (Some (SafetyData.new (epoch x) r (preferred_round x) (one_chain_round x) (last_vote x))))
      by (right; eauto 10 using tr_timeout).
    eapply spec_weaken; [apply spec_on_storage, storage_spec_set | by intros _ d' -> |].
    intros d' [->| ->]; [by left | done].
  - apply spec_ret. split; [by left|]. replace r with (last_voted_round x) by lia. by destruct x.
Qed.

(** What is shown of an operation: the data advances and the response is
    allowed. *)
Abbreviation op_spec es d o m P' :=
  (spec (eq es) d m P'
    (fun r d' => advances o es d d' /\ commit_allowed o es /\
       (signs o = true -> exists x, d' = Some x /\ output_ok o x r)) (advances o es d)).

Lemma spec_respond {A} es d o (m : action (SafetyRules.t S) Error.t A) (g : A -> response) P'
    (Q : A -> option SafetyData.t -> Prop) :
  spec (eq es) d m P' Q (advances o es d) ->
  (forall a d', Q a d' -> advances o es d d' /\ commit_allowed o es /\
     (signs o = true -> exists x, d' = Some x /\ output_ok o x (g a))) ->
  op_spec es d o (m ≫= fun a => mret (g a)) P'.
Proof.
  intros Hm HQ. eapply spec_bind; [exact Hm | | done | done].
  intros a d' Ha s Hs. exists d'. split; [done|]. by apply HQ.
Qed.

Lemma safe_to_timeout_Ok timeout tc x u : safe_to_timeout timeout tc x = Ok u ->
  one_chain_round x <= TwoChainTimeout.hqc_round timeout.
Proof.
  unfold safe_to_timeout. intros Hs. outcome_inv. apply andb_true_iff in Hs as [_ Hs]. by apply Z.leb_le.
Qed.

Lemma sign_timeout_with_qc_spec es d timeout tc :
  let o := SignTimeoutWithQC timeout tc in op_spec es d o (perform o) (eq es).
Proof.
  intros o. eapply (spec_respond _ _ _ _ _ _ (fun _ d' => advances o es d d' /\
    exists x, d' = Some x /\ forall sig, output_ok o x (RSignature sig))); [|naive_solver].
  unfold guarded_sign_timeout_with_qc. read as ? _; [|by left]. read as x ->; [|by left].
  read as [] He; [|by left]. apply verify_epoch_Ok in He. read as e Hes; [|by left].
  read as [] Hv; [|by left]. read as [] Htc; [|by left]. read as [] Hsafe; [|by left].
  apply safe_to_timeout_Ok in Hsafe.
  eapply spec_bind; [apply (record_timeout_spec o es x) | | done | done]. intros _ d' [Hadv ->].
  eapply spec_weaken; [apply reads_sign | intros sig d' [-> _] | by intros d' ->].
  split; [done|]. eexists. split; [done|]. by intros.
Qed.

Lemma sign_timeout_spec es d timeout :
  let o := SignTimeout timeout in op_spec es d o (perform o) (eq es).
Proof.
  intros o. eapply (spec_respond _ _ _ _ _ _ (fun _ d' => advances o es d d' /\
    exists x, d' = Some x /\ forall sig, output_ok o x (RSignature sig))); [|naive_solver].
  unfold guarded_sign_timeout. read as ? _; [|by left]. read as x ->; [|by left].
  read as [] He; [|by left]. apply verify_epoch_Ok in He. destruct (Z.leb_spec (Timeout.round timeout) (preferred_round x)).
  { eapply spec_weaken; [apply reads_lift | naive_solver | by left]. }
  eapply spec_bind; [apply (record_timeout_spec o es x) | | done | done]. intros _ d' [Hadv ->].
  eapply spec_weaken; [apply reads_sign | intros sig d' [-> _] | by intros d' ->].
  split; [done|]. eexists. split; [done|]. by intros.
Qed.

Lemma sign_proposal_spec es d block_data :
  let o := SignProposal block_data in op_spec es d o (perform o) (eq es).
Proof.
  intros o. eapply (spec_respond _ _ _ _ _ _ (fun _ d' => d' = d /\
    exists x, d' = Some x /\ forall sig, output_ok o x (RSignature sig))); [|by unfold advances; naive_solver].
  unfold guarded_sign_proposal. read as ? _; [|by left].
  eapply (reads_bind _ _ _ _ (fun _ => True)); [| |by left].
  { read as sg _. read as author _. eapply spec_weaken; [apply reads_lift | naive_solver..]. }
  intros [] _. read as x ->; [|by left]. read as [] He; [|by left]. apply verify_epoch_Ok in He.
  destruct (Z.leb_spec (BlockData.round block_data) (last_voted_round x)).
  { eapply spec_weaken; [apply reads_lift | naive_solver | by left]. }
  read as [] Hqc; [|by left]. read as y Hy; [|by left].
  eapply spec_weaken; [apply reads_sign | intros sig d' [-> _] | by left]. split; [done|]. exists x.
  split; [done|]. intros sig'. unfold verify_and_update_preferred_round in Hy.
  case_match eqn:Hlt; [discriminate|]. apply Z.ltb_ge in Hlt. by cbn.
Qed.

Lemma sign_commit_vote_spec es d li new_li :
  let o := SignCommitVote li new_li in op_spec es d o (perform o) (eq es).
Proof.
  intros o. eapply (spec_respond _ _ _ _ _ _ (fun _ d' => d' = d /\ commit_allowed o es)); [|by unfold advances; naive_solver].
  unfold guarded_sign_commit_vote. read as ? _; [|by left]. read as [] Hord; [|by left]. read as [] Hmatch; [|by left].
  read as e Hes; [|by left]. read as [] Hv; [|by left].
  eapply spec_weaken; [apply reads_sign | intros sig d' [-> _] | by left]. split; [done|].
  apply ensure_Ok_inv in Hord, Hmatch. apply map_err_Ok_inv in Hv. split_and!; [done..|]. by exists e.
Qed.

Lemma consensus_state_spec es d :
  let o := ConsensusState_ in op_spec es d o (perform o) (eq es).
Proof.
  intros o. eapply (spec_respond _ _ _ _ _ _ (fun _ d' => d' = d)); [|by unfold advances; naive_solver].
  unfold guarded_consensus_state. do 5 (read as ? _; [|by left]). read as ? _; [|by left]. by apply spec_ret.
Qed.

(** The key reconciliation of [guarded_initialize] leaves the data alone. *)
Lemma reads_reconcile_key P d author key : reads P d (reconcile_key author key) (fun _ => True).
Proof.
  unfold reconcile_key. read as sg _. case_match; [by apply spec_ret|]. read as ex _.
  assert (forall v, reads P d (modify (set_validator_signer v)) (fun _ => True)) as Hmod.
  { intros v s [He Hs]. by exists d. }
  assert (forall A (m : action (SafetyRules.t S) Error.t A) f R, reads P d m R ->
    reads P d (map_error f m) R) as Herr.
  { intros A m f R Hm s Hs. destruct (Hm s Hs) as (d' & Hd & Hr). exists d'. unfold map_error.
    destruct (m s) as [s' r]. cbn in *. split; [done|]. by destruct r. }
  destruct ex.
  - eapply reads_bind; [apply Herr, reads_on_storage, storage_reads_key | | done]. intros k _. apply Hmod.
  - eapply reads_bind; [apply Hmod | | done]. intros [] _.
    eapply reads_bind; [apply Herr, reads_sign | | done]. intros ? _. by apply spec_ret.
Qed.

Lemma reads_catch P d (m : action (SafetyRules.t S) Error.t unit) :
  reads P d m (fun _ => True) ->
  reads P d (catch m (fun error => modify (set_validator_signer None) ;; lift (Err error))) (fun _ => True).
Proof.
  intros Hm s Hs. destruct (Hm s Hs) as (d' & Hd & Hr). exists d'. unfold catch.
  by destruct (m s) as [s' [a|e|]].
Qed.

Lemma spec_forget {A} P d (m : action _ _ A) Q F :
  spec (fun _ => True) d m (fun _ => True) Q F -> spec P d m (fun _ => True) Q F.
Proof. intros Hm s [_ Hs]. by apply Hm. Qed.

Lemma initialize_spec es d proof :
  let o := Initialize proof in op_spec es d o (perform o) (fun _ => True).
Proof.
  intros o. apply spec_forget.
  eapply spec_bind; [| | by intros d' Hd; exact Hd | done];
    [|intros a d' Hd; apply spec_ret; split; [exact Hd | done]].
  unfold guarded_initialize. read as w _; [|by left]. read as li _; [|by left]. read as e _; [|by left].
  read as w' _; [|by left].
  eapply (reads_bind _ _ _ _ (fun _ => True)); [| |by left].
  { case_match; [apply reads_on_storage, storage_reads_set_waypoint | by apply spec_ret]. }
  intros _ _. read as x ->; [|by left].
  eapply (spec_bind _ (fun _ => True) _ _ _ _ (fun _ d' => advances o es (Some x) d')); [| | done | done].
  - destruct (Z.compare_spec (epoch x) (EpochState.epoch e)).
    + apply spec_ret. by left.
    + eapply spec_weaken; [apply spec_on_storage, storage_spec_set | |].
      * intros _ d' ->. right. eauto 10 using tr_epoch.
      * intros d' [->| ->]; [by left|]. right. eauto 10 using tr_epoch.
    + eapply spec_weaken; [apply reads_lift | naive_solver | by left].
  - intros _ d' Hd. eapply (reads_bind _ _ _ _ (fun _ => True)); [| | done].
    { intros s [_ Hs]. by exists d'. }
    intros _ _. read as author _.
    eapply spec_weaken; [apply reads_catch | by intros _ d'' [-> _] | by intros d'' ->].
    case_match; [apply reads_reconcile_key|]. eapply spec_weaken; [apply reads_lift | naive_solver..].
Qed.

Lemma restart_spec es d enable verify export :
  let o := Restart enable verify export in op_spec es d o (perform o) (fun _ => True).
Proof.
  intros o s [_ [Hc Hcache]]. exists d. unfold perform, o, restart, SafetyRules.new, mbind, action_bind.
  destruct verify; cbn; [|by split; [split; [done | split; [done | by left]] | split; [by left|]]].
  pose proof (storage_reads_execution_key d (PersistentSafetyStorage.new
    (PersistentSafetyStorage.internal_store (persistent_storage s)) enable)) as Hk.
  destruct Hk as (d' & Hd & Hr); [by split; [|left]|].
  destruct (PersistentSafetyStorage.execution_public_key _) as [st [k|e|]]; cbn in *.
  - destruct Hr as [-> _]. split; [by split | split; [by left | done]].
  - by split; [split; [done | split; [done | by left]] | left].
  - by split; [split; [done | split; [done | by left]] | left].
Qed.

(** ** Refinement *)

Definition stored (s : SafetyRules.t S) : option SafetyData.t :=
  content (PersistentSafetyStorage.internal_store (persistent_storage s)).

(** The cache is empty or holds what is stored. *)
Definition coherent (s : SafetyRules.t S) : Prop :=
  PersistentSafetyStorage.cached_safety_data (persistent_storage s) = None \/
  PersistentSafetyStorage.cached_safety_data (persistent_storage s) = stored s.

Lemma perform_spec es d o : exists P', op_spec es d o (perform o) P'.
Proof.
  destruct o.
  - eexists. apply consensus_state_spec.
  - eexists. apply initialize_spec.
  - eexists. eapply spec_respond; [apply vote_spec|]. naive_solver.
  - eexists. apply sign_proposal_spec.
  - eexists. apply sign_timeout_spec.
  - eexists. apply sign_timeout_with_qc_spec.
  - eexists. eapply spec_respond; [apply vote_two_chain_spec|]. naive_solver.
  - eexists. apply sign_commit_vote_spec.
  - eexists. apply restart_spec.
Qed.

Lemma perform_refines o s : coherent s ->
  let s' := (perform o s).1 in
  coherent s' /\ advances o (epoch_state s) (stored s) (stored s') /\
  forall r, (perform o s).2 = Ok r -> commit_allowed o (epoch_state s) /\
    (signs o = true -> exists x, stored s' = Some x /\ output_ok o x r).
Proof.
  intros Hs s'. destruct (perform_spec (epoch_state s) (stored s) o) as [P' Hspec].
  destruct (Hspec s) as (d' & [_ [Hd Hc]] & Hr); [by split; [|split]|]. fold s' in Hd, Hc.
  unfold coherent, stored in *. rewrite Hd. split; [done|].
  destruct (perform o s).2 as [r|e|]; (split; [by try apply Hr|]); naive_solver.
Qed.
End spec.

(** C4: The safety rules refine their contract. Whatever operation is performed
    and however the secure storage fails, the persisted safety data stays as it
    is or makes one step of [transition] (record one new vote in a higher round
    under the voting rule of the 2-chain or the 3-chain protocol, raise the last
    voted round for a timeout, or start a higher epoch), and the cache never
    disagrees with the store. A vote, or a signature on a proposal or a timeout, is
    only returned when the persisted data afterwards allows it ([output_ok]), and a
    commit vote is only signed for a block that a quorum of the current validators
    ordered ([commit_allowed]). *)
Theorem safety_rules_refine `{Primitives} `{!ConsensusCrypto} `{!MerkleHasher HashValue.t}
    {S : Type} `{!Storage S} `{!StorageLaws S} (o : operation) (s : SafetyRules.t S) :
  coherent s ->
  let s' := (perform o s).1 in
  coherent s' /\
  (stored s' = stored s \/ exists x x', stored s = Some x /\ stored s' = Some x' /\
     transition o (SafetyRules.epoch_state s) x x') /\
  forall r, (perform o s).2 = Ok r -> commit_allowed o (SafetyRules.epoch_state s) /\
    (signs o = true -> exists x, stored s' = Some x /\ output_ok o x r).
Proof. apply perform_refines. Qed.

(** Without the cache the safety data cannot be read back. If the store does
    not decode what [set_safety_data] wrote, the JSON object of a [SafetyData],
    as a [Result<SafetyData, Error>], then with [enable_cached_safety_data] off
    [safety_data] fails right after a successful [set_safety_data]: its early
    return reads the stored value at the return type of the method. *)
Theorem uncached_safety_data_unreadable `{Primitives} {S : Type} `{!Storage S} `{!StorageLaws S} :
  (forall s : S, is_Some (content s) -> (get_safety_data_result s).2 = Err StorageError.SerializationError) ->
  forall x (st st' : PersistentSafetyStorage.t S),
    PersistentSafetyStorage.enable_cached_safety_data st = false ->
    PersistentSafetyStorage.set_safety_data x st = (st', Ok tt) ->
    content (PersistentSafetyStorage.internal_store st') = Some x /\
    (PersistentSafetyStorage.safety_data st').2 =
      Err (Error.SecureStorageUnexpectedError (StorageError.to_string StorageError.SerializationError)).
Proof.
  intros Hser x st st' Hen Hset.
  unfold PersistentSafetyStorage.set_safety_data, PersistentSafetyStorage.on_store, zoom in Hset.
  pose proof (set_law x (PersistentSafetyStorage.internal_store st)) as Hlaw.
  destruct (set_safety_data x _) as [s' [[]|err|]]; [|discriminate..]. injection Hset as <-.
  destruct Hlaw as [Hc|[Hne _]]; [|done]. split; [done|].
  unfold PersistentSafetyStorage.safety_data, mbind, action_bind, gets. cbn. rewrite Hen. cbn.
  unfold PersistentSafetyStorage.on_store_, PersistentSafetyStorage.on_store, zoom. cbn.
  specialize (Hser s'). destruct (get_safety_data_result s') as [s'' r]. cbn in *. by rewrite Hser.
Qed.
