(* ===== verification/ConsensusExample.v ===== *)
(** * A concrete epoch of consensus

    A store with write faults that satisfies the storage laws, four validators
    of which the first is faulty, and the blocks of an epoch: rounds 1 and 2
    follow each other, round 3 times out, round 4 extends round 2 by a timeout
    certificate. The runs the other files evaluate are built from these. *)
From stdpp Require Import prelude gmap strings.
From Stdlib Require Import ZArith Lia.
From S2P Require Import Prelude Bits Hash HashValues SparseMerkle Primitives ValidatorVerifier LedgerInfo EpochChange MerkleSpec AccumulatorProofs ConsensusTypes Blocks ConsensusMsgs SafetyRules SafetySpec.

#[local] Existing Instance toy_primitives.

(** ** A store that loses writes *)

Inductive fault :=
| NoFault
| LostWrite
| HiddenWrite.

(** The next writes meet [faults]: a lost write changes nothing, a hidden one
    is made, and both report an error. *)
Record toy_store := mk_toy_store {
  toy_data : option SafetyData.t;
  toy_waypoint : option Waypoint.t;
  toy_owner : option Z;
  toy_keys : list (string * Z);
  toy_faults : list fault
}.

Definition toy_write (x : SafetyData.t) : action toy_store StorageError.t unit := fun s =>
  let write := mk_toy_store (Some x) (toy_waypoint s) (toy_owner s) (toy_keys s) (tail (toy_faults s)) in
  let skip := mk_toy_store (toy_data s) (toy_waypoint s) (toy_owner s) (toy_keys s) (tail (toy_faults s)) in
  match head (toy_faults s) with
  | Some LostWrite => (skip, Err StorageError.InternalError)
  | Some HiddenWrite => (write, Err StorageError.InternalError)
  | _ => (write, Ok tt)
  end.

Definition toy_key (name : string) (s : toy_store) : option Z :=
  match filter (fun k => k.1 = name) (toy_keys s) with k :: _ => Some k.2 | [] => None end.

#[global] Instance toy_storage : Storage toy_store := {
  import_private_key name key s :=
    (mk_toy_store (toy_data s) (toy_waypoint s) (toy_owner s) ((name, key) :: toy_keys s) (toy_faults s), Ok tt);
  export_private_key_for_version name version s :=
    (s, if bool_decide ((name, version) ∈ toy_keys s) then Ok version else Err StorageError.KeyVersionNotFound);
  get_public_key name s := (s, ok_or (toy_key name s) StorageError.KeyNotSet);
  sign_using_version T _ name version message s :=
    (s, if bool_decide ((name, version) ∈ toy_keys s) then Ok (sign version message)
        else Err StorageError.KeyVersionNotFound);
  get_owner_account s := (s, ok_or (toy_owner s) StorageError.KeyNotSet);
  set_owner_account owner s :=
    (mk_toy_store (toy_data s) (toy_waypoint s) (Some owner) (toy_keys s) (toy_faults s), Ok tt);
  get_safety_data s := (s, ok_or (toy_data s) StorageError.KeyNotSet);
  get_safety_data_result s :=
    (s, match toy_data s with
        | Some _ => Err StorageError.SerializationError
        | None => Err StorageError.KeyNotSet
        end);
  set_safety_data := toy_write;
  get_waypoint s := (s, ok_or (toy_waypoint s) StorageError.KeyNotSet);
  set_waypoint waypoint s :=
    (mk_toy_store (toy_data s) (Some waypoint) (toy_owner s) (toy_keys s) (toy_faults s), Ok tt)
}.

#[global] Instance toy_storage_laws : StorageLaws toy_store.
Proof.
  refine {| content := toy_data |}; try done; cbn.
  - intros s. split; [done|]. intros x Hx. by apply ok_or_Ok_inv in Hx.
  - intros s. split; [done|]. intros x. by destruct (toy_data s).
  - intros x s. unfold toy_write. repeat case_match; cbn; auto.
Defined.

(** ** Signatures

    Keys sign with the hash of the message; [li_ok] and [repr_ok] are the
    messages a key is known to have signed. *)
Definition checked_crypto {T} (hash : T -> HashValue.t) (ok : Z -> T -> bool) : CryptoHash T :=
  let check pk m sig := bool_decide (sig = (pk, hash m)) && ok pk m in
  Build_CryptoHash _ _ hash (fun sk m => (sk, hash m)) check (fun m ks => forallb (fun x => check x.1 m x.2) ks).

Lemma checked_batch_sound {T} (hash : T -> HashValue.t) ok :
  @batch_verify_sound _ _ (checked_crypto hash ok).
Proof. intros m ks Hks. by apply forallb_Forall in Hks. Qed.

Definition block_info_code (b : BlockInfo.t) : list Z := [BlockInfo.epoch b; BlockInfo.round b].

Definition toy_consensus (li_ok : Z -> LedgerInfo.t -> bool) (repr_ok : Z -> TimeoutSigningRepr.t -> bool)
    : ConsensusCrypto := {|
  crypto_vote_data := toy_crypto (fun vd => HashValue.mk
    (block_info_code (VoteData.proposed vd) ++ block_info_code (VoteData.parent vd)));
  crypto_ledger_info := checked_crypto (fun li => HashValue.mk
    (LedgerInfo.version li :: block_info_code (LedgerInfo.commit_info li)
     ++ HashValue.hash (LedgerInfo.consensus_data_hash li))) li_ok;
  crypto_timeout := toy_crypto (fun t => HashValue.mk [Timeout.epoch t; Timeout.round t]);
  crypto_signing_repr := checked_crypto (fun t => HashValue.mk
    [TimeoutSigningRepr.epoch t; TimeoutSigningRepr.round t; TimeoutSigningRepr.hqc_round t]) repr_ok;
  crypto_block_data := toy_crypto (fun b => HashValue.mk [BlockData.epoch b; BlockData.round b]);
  crypto_vote_proposal := toy_crypto (fun p => Block.id (VoteProposal.block p));
  crypto_converter := toy_crypto (fun c => HashValue.mk [Ledger2WaypointConverter.version c])
|}.

#[global] Instance toy_accumulator_hasher : MerkleHasher HashValue.t := transaction_accumulator_hasher toy_sha3.

(** ** Blocks of an epoch *)

Section blocks.
Context `{!@ConsensusCrypto toy_primitives} (epoch : Z).

Definition toy_genesis : BlockInfo.t := BlockInfo.new epoch 0 (HashValue.mk [epoch; 0]) HashValue.zero 0 0 None.

Definition toy_genesis_qc : QuorumCert.t :=
  let vd := VoteData.new toy_genesis toy_genesis in
  QuorumCert.new vd (LedgerInfoWithSignatures.new (LedgerInfo.new toy_genesis (crypto_hash vd)) ∅).

(** A block of validator 2, its proposal and the vote data. *)
Definition toy_block (round : Z) (qc : QuorumCert.t) : Block.t :=
  Block.new_proposal [] round round qc (ValidatorSigner.new 2 2).

Definition toy_proposal (round : Z) (qc : QuorumCert.t) : MaybeSignedVoteProposal.t :=
  MaybeSignedVoteProposal.mk
    (VoteProposal.new (AccumulatorExtensionProof.new [] 0 []) (toy_block round qc) None true) None.

Definition toy_vote_data (round : Z) (qc : QuorumCert.t) : VoteData.t :=
  VoteProposal.vote_data_ordering_only (MaybeSignedVoteProposal.vote_proposal (toy_proposal round qc)).

(** The ledger info the 2-chain rule signs, and a certificate of it by
    validators 2, 3 and 4. *)
Definition toy_ledger_info (round : Z) (qc : QuorumCert.t) : LedgerInfo.t :=
  LedgerInfo.new
    (if round =? BlockInfo.round (QuorumCert.certified_block qc) + 1
     then QuorumCert.certified_block qc else BlockInfo.empty)
    (crypto_hash (toy_vote_data round qc)).

Definition toy_qc (round : Z) (qc : QuorumCert.t) : QuorumCert.t :=
  let li := toy_ledger_info round qc in
  QuorumCert.new (toy_vote_data round qc)
    (LedgerInfoWithSignatures.new li (list_to_map (map (fun k => (k, sign k li)) [2; 3; 4]))).

Definition toy_timeout (round : Z) (qc : QuorumCert.t) : TwoChainTimeout.t :=
  TwoChainTimeout.new epoch round qc.

Definition toy_tc (round : Z) (qc : QuorumCert.t) : TwoChainTimeoutCertificate.t :=
  let t := toy_timeout round qc in
  TwoChainTimeoutCertificate.mk t (list_to_map (map (fun k =>
    (k, (TwoChainTimeout.hqc_round t, sign k (TwoChainTimeout.signing_format t)))) [2; 3; 4])).

(** The safety rules of validator [a] in this epoch, before any vote. *)
Definition toy_rules (a : Z) (faults : list fault) : SafetyRules.t toy_store :=
  SafetyRules.mk
    (PersistentSafetyStorage.new
       (mk_toy_store (Some (SafetyData.new epoch 0 0 0 None)) None (Some a) [(CONSENSUS_KEY, a)] faults) true)
    None true (Some (ConfigurableValidatorSigner.new_signer a a)) (Some (EpochState.new epoch four_verifier)).
End blocks.

Lemma toy_rules_coherent epoch a faults : coherent (toy_rules epoch a faults).
Proof. by left. Qed.

(** A vote whose write reports an error but was made. *)
Lemma safety_rules_refine_witness :
  let cc := toy_consensus (fun _ _ => true) (fun _ _ => true) in
  let o := ConstructAndSignVoteTwoChain (toy_proposal 1 (toy_genesis_qc 1)) 0 None in
  let s := toy_rules 1 3 [HiddenWrite] in
  stored (perform o s).1 <> stored s /\
  exists x x', stored s = Some x /\ stored (perform o s).1 = Some x' /\
    transition o (SafetyRules.epoch_state s) x x'.
Proof.
  intros cc o s.
  assert (stored (perform o s).1 <> stored s) as Hne by (by vm_compute). split; [exact Hne|].
  destruct (safety_rules_refine o s (toy_rules_coherent 1 3 [HiddenWrite])) as (_ & [Heq|Htr] & _);
    [contradiction | exact Htr].
Defined.

Lemma uncached_safety_data_unreadable_witness :
  let st := PersistentSafetyStorage.new (mk_toy_store None None None [] []) false in
  let x := SafetyData.new 1 0 0 0 None in
  (PersistentSafetyStorage.safety_data (PersistentSafetyStorage.set_safety_data x st).1).2 =
    Err (Error.SecureStorageUnexpectedError "Serialization error").
Proof.
  intros st x.
  refine (proj2 (uncached_safety_data_unreadable (S := toy_store) _ x st _ _ _)).
  - intros s [y Hy]. cbn in *. by rewrite Hy.
  - reflexivity.
  - reflexivity.
Defined.

(** ** Retrieval and execution of blocks *)

Lemma block_retrieval_chain_witness :
  let cc := toy_consensus (fun _ _ => true) (fun _ _ => true) in
  let b1 := toy_block 1 (toy_genesis_qc 1) in
  let b2 := toy_block 2 (toy_qc 1 (toy_genesis_qc 1)) in
  Block.id b1 = Block.parent_id b2.
Proof.
  intros cc b1 b2.
  destruct (block_retrieval_chain
    (BlockRetrievalResponse.new BlockRetrievalResponse.Succeeded [b2; b1])
    (BlockRetrievalRequest.new (Block.id b2) 2) four_verifier (fun _ => 0)) as (_ & Hl & _).
  - vm_compute. reflexivity.
  - exact (Hl 0%nat b2 b1 eq_refl eq_refl).
Defined.

#[local] Instance no_execution_types : ExecutionTypes := {|
  WriteSetPayload := unit; KeptVMStatus := unit; DiscardedVMStatus := unit; ContractEvent := unit
|}.

(** A block that adds two leaves to an accumulator of one. *)
Lemma executed_block_vote_data_witness :
  let cc := toy_consensus (fun _ _ => true) (fun _ _ => true) in
  let leaf n := HashValue.mk [n] in
  let parent := BlockInfo.new 1 0 (leaf 0) (merkle_root [leaf 1]) 0 0 None in
  let qc := QuorumCert.new (VoteData.new parent parent)
    (LedgerInfoWithSignatures.new (LedgerInfo.new parent (leaf 0)) ∅) in
  let ls := [leaf 1] in let ms := [leaf 2; leaf 3] in
  let b := ExecutedBlock.new (toy_block 1 qc)
    (StateComputeResult.new (merkle_root (ls ++ ms)) (frozen_roots (ls ++ ms)) 3 (frozen_roots ls) 1 None [] ms []) in
  VoteProposal.gen_vote_data
    (MaybeSignedVoteProposal.vote_proposal (ExecutedBlock.maybe_signed_vote_proposal b false))
  = Ok (VoteData.new (ExecutedBlock.block_info b) parent).
Proof.
  intros cc leaf parent qc ls ms b. apply (executed_block_vote_data ls ms b).
  - reflexivity.
  - unfold executes_to. split_and!; reflexivity.
  - reflexivity.
Defined.
