(* ===== verification/SafetyRuns.v ===== *)
(** * What a validator can have signed

    Runs of the safety rules: any sequence of operations, restarts included,
    over a storage whose accesses may fail. The theorems: a validator never
    returns two different votes of one round, and a timeout it signs carries a
    certificate at least as high as the parent of every vote of that round or
    an earlier one. *)
From stdpp Require Import prelude gmap strings.
From Stdlib Require Import ZArith Lia.
From S2P Require Import Prelude Bits Hash HashValues Primitives ValidatorVerifier LedgerInfo EpochChange ConsensusTypes Blocks SafetyRules SafetySpec ConsensusExample.

Section runs.
Context `{Primitives} `{!ConsensusCrypto} `{!MerkleHasher HashValue.t} {S : Type} `{!Storage S}.

(** The operations performed so far with their results. *)
Abbreviation history := (list (operation * outcome Error.t response)).

Fixpoint run (os : list operation) (s : SafetyRules.t S) : SafetyRules.t S * history :=
  match os with
  | [] => (s, [])
  | o :: os =>
      let (s', r) := perform o s in
      let (s'', h) := run os s' in (s'', (o, r) :: h)
  end.

Definition votes (h : history) : list Vote.t :=
  omap (fun '(o, r) => match r with Ok (RVote v) => Some v | _ => None end) h.

(** The 2-chain timeouts that were signed. *)
Definition timeouts (h : history) : list TwoChainTimeout.t :=
  omap (fun '(o, r) => match o, r with
    | SignTimeoutWithQC timeout _, Ok (RSignature _) => Some timeout | _, _ => None end) h.

Lemma votes_cons x (h : history) : votes (x :: h) = votes [x] ++ votes h.
Proof. destruct x as [o r]. unfold votes. cbn. by repeat case_match. Qed.

Lemma timeouts_cons x (h : history) : timeouts (x :: h) = timeouts [x] ++ timeouts h.
Proof. destruct x as [o r]. unfold timeouts. cbn. by repeat case_match. Qed.

(** [good] holds of every vote the operations may create. *)
Fixpoint permits (good : Vote.t -> Prop) (os : list operation) (s : SafetyRules.t S) : Prop :=
  match os with
  | [] => True
  | o :: os => (forall v, vote_allowed o (SafetyRules.epoch_state s) v -> good v) /\
               permits good os (perform o s).1
  end.
End runs.

Section invariant.
Context `{Primitives} `{!ConsensusCrypto} `{!MerkleHasher HashValue.t} (good : Vote.t -> Prop).
Import SafetyData (epoch, last_voted_round, preferred_round, one_chain_round, last_vote).
Implicit Types (x : SafetyData.t) (W : list Vote.t) (T : list TwoChainTimeout.t).

(** The safety data on its own: the last vote is of this epoch, not after the
    last voted round, and its parent was observed. *)
Definition data_ok x : Prop :=
  forall v, last_vote x = Some v ->
    vote_epoch v = epoch x /\ vote_round v <= last_voted_round x /\
    parent_round v <= one_chain_round x /\ good v.

(** The safety data against the votes [W] and timeouts [T] signed so far. *)
Record inv x W T : Prop := {
  inv_data : data_ok x;
  inv_good w : w ∈ W -> good w;
  inv_vote w : w ∈ W -> vote_epoch w < epoch x \/
    (vote_epoch w = epoch x /\ parent_round w <= one_chain_round x /\
     exists lv, last_vote x = Some lv /\ (lv = w \/ vote_round w < vote_round lv));
  inv_timeout t : t ∈ T -> TwoChainTimeout.epoch t < epoch x \/
    (TwoChainTimeout.epoch t = epoch x /\ TwoChainTimeout.round t <= last_voted_round x /\
     forall lv, last_vote x = Some lv -> vote_round lv <= TwoChainTimeout.round t ->
       parent_round lv <= TwoChainTimeout.hqc_round t);
  inv_unique w w' : w ∈ W -> w' ∈ W -> vote_epoch w = vote_epoch w' -> vote_round w = vote_round w' -> w = w';
  inv_hqc w t : w ∈ W -> t ∈ T -> vote_epoch w = TwoChainTimeout.epoch t ->
    vote_round w <= TwoChainTimeout.round t -> parent_round w <= TwoChainTimeout.hqc_round t
}.

Lemma inv_initial x : data_ok x -> inv x [] [].
Proof. intros Hx. split; [done|..]; intros; exfalso; by eapply not_elem_of_nil. Qed.

Lemma inv_transition o es x x' W T : (forall v, vote_allowed o es v -> good v) ->
  transition o es x x' -> inv x W T -> inv x' W T.
Proof.
  intros Hgood Htr [Hd Hg Hv Ht Hu Hh]. destruct Htr as [x' v Hal _ Hlv Hep Hve Hlt Hl Ho Hp|r Hlt|e Hlt].
  - split; try done.
    + intros v' Hv'. simplify_eq. rewrite Hep, Hl, Ho. split_and!; [done | lia | lia | by apply Hgood].
    + intros w Hw. rewrite Hep, Ho. destruct (Hv w Hw) as [|(He & Hpr & lv & Hlv' & Hor)]; [by left|right].
      destruct (Hd _ Hlv') as (_ & Hr & _). split_and!; [done | lia|]. exists v. split; [done|]. right.
      destruct Hor as [->|]; lia.
    + intros t Htin. rewrite Hep, Hl. destruct (Ht t Htin) as [|(He & Hr & _)]; [by left|right].
      split_and!; [done | lia|]. intros lv Hlv'. simplify_eq. lia.
  - split; try done.
    + intros v Hv'. destruct (Hd v Hv') as (? & ? & ? & ?). cbn. split_and!; (done || lia).
    + intros t Htin. destruct (Ht t Htin) as [|(He & Hr & Hlv)]; [by left|right]. cbn. split_and!; (done || lia).
  - split; try done; cbn.
    + intros w Hw. left. destruct (Hv w Hw) as [|[He _]]; lia.
    + intros t Htin. left. destruct (Ht t Htin) as [|[He _]]; lia.
Qed.

Lemma inv_add_vote x W T v : last_vote x = Some v -> inv x W T -> inv x (v :: W) T.
Proof.
  intros Hlv [Hd Hg Hv Ht Hu Hh]. destruct (Hd v Hlv) as (He & Hr & Ho & Hgv).
  assert (forall w, w ∈ W -> vote_epoch w = vote_epoch v -> vote_round w = vote_round v -> w = v) as Huv.
  { intros w Hw Hwe Hwr. destruct (Hv w Hw) as [|(_ & _ & lv & Hlv' & Hor)]; [lia|]. simplify_eq.
    destruct Hor as [->|]; [done | lia]. }
  split; try done.
  - intros w [->|Hw]%elem_of_cons; auto.
  - intros w [->|Hw]%elem_of_cons; [right; by eauto 10 | auto].
  - intros w w' [->|Hw]%elem_of_cons [->|Hw']%elem_of_cons ? ?; [done | symmetry; auto | auto | auto].
  - intros w t [->|Hw]%elem_of_cons Htin Hwe Hwr; [|auto].
    destruct (Ht t Htin) as [|(_ & _ & Hlv')]; [lia | auto].
Qed.

Lemma inv_add_timeout x W T t : TwoChainTimeout.epoch t = epoch x ->
  TwoChainTimeout.round t = last_voted_round x -> one_chain_round x <= TwoChainTimeout.hqc_round t ->
  inv x W T -> inv x W (t :: T).
Proof.
  intros He Hr Ho [Hd Hg Hv Ht Hu Hh]. split; try done.
  - intros t' [->|Htin]%elem_of_cons; [right | auto]. split_and!; [done | lia|].
    intros lv Hlv _. destruct (Hd lv Hlv) as (_ & _ & Hp & _). lia.
  - intros w t' Hw [->|Htin]%elem_of_cons Hwe Hwr; [|auto].
    destruct (Hv w Hw) as [|(_ & Hp & _)]; lia.
Qed.
End invariant.

Section run_safety.
Context `{Primitives} `{!ConsensusCrypto} `{!MerkleHasher HashValue.t} {S : Type} `{!Storage S} `{!StorageLaws S}.
Context (good : Vote.t -> Prop).

(** The invariant of a store that may hold no data yet. *)
Definition store_inv (d : option SafetyData.t) W T : Prop :=
  match d with Some x => inv good x W T | None => W = [] /\ T = [] end.

Lemma store_inv_advances o es d d' W T : (forall v, vote_allowed o es v -> good v) ->
  advances o es d d' -> store_inv d W T -> store_inv d' W T.
Proof.
  intros Hg [->|(x & x' & -> & -> & Htr)]; [done|]. by apply inv_transition with o es.
Qed.

(** An action followed by a fixed response. *)
Lemma respond_Ok {A} (m : action (SafetyRules.t S) Error.t A) (g : A -> response) s r :
  ((m ≫= fun a => mret (g a)) s).2 = Ok r -> exists a, r = g a.
Proof. unfold mbind, action_bind. destruct (m s) as [s' [a|e|]]; cbn; naive_solver. Qed.

(** Votes are only returned by the voting methods. *)
Lemma vote_response o (s : SafetyRules.t S) v : (perform o s).2 = Ok (RVote v) -> signs o = true.
Proof. destruct o; try done; cbn [perform]; by intros [a Ha]%respond_Ok. Qed.

(** One operation, with what it returned. *)
Lemma perform_inv o (s : SafetyRules.t S) W T : coherent s ->
  (forall v, vote_allowed o (SafetyRules.epoch_state s) v -> good v) -> store_inv (stored s) W T ->
  coherent (perform o s).1 /\
  store_inv (stored (perform o s).1) (votes [(o, (perform o s).2)] ++ W) (timeouts [(o, (perform o s).2)] ++ T).
Proof.
  intros Hc Hg HI. destruct (perform_refines o s Hc) as (Hc' & Hadv & Hout). split; [done|].
  apply (store_inv_advances _ _ _ _ W T Hg) in Hadv; [|done].
  destruct (perform o s) as [s' [r|e|]] eqn:Ho; cbn in *; [|by destruct o..].
  destruct r as [st| |v|sig]; [by destruct o.. | |].
  - destruct (Hout (RVote v)) as [_ Hv']; [done|].
    destruct Hv' as (x & Hx & Hv); [by apply (vote_response o s v); rewrite Ho|].
    rewrite Hx in *. apply inv_add_vote; [done|]. by destruct o.
  - destruct o; try done. destruct (proj2 (Hout _ eq_refl) eq_refl) as (x & Hx & He & Hr & Hq).
    rewrite Hx in *. by apply inv_add_timeout.
Qed.

Lemma run_inv os : forall (s : SafetyRules.t S) W T, coherent s -> permits good os s -> store_inv (stored s) W T ->
  exists W' T', store_inv (stored (run os s).1) W' T' /\
    (forall w, w ∈ votes (run os s).2 \/ w ∈ W -> w ∈ W') /\ (forall t, t ∈ timeouts (run os s).2 \/ t ∈ T -> t ∈ T').
Proof.
  induction os as [|o os IH]; intros s W T Hc Hp HI; [exists W, T; split; [done|]; set_solver|].
  cbn [permits] in Hp. destruct Hp as [Hg Hp]. destruct (perform_inv o s W T Hc Hg HI) as [Hc' HI'].
  destruct (IH _ _ _ Hc' Hp HI') as (W' & T' & HI'' & HW & HT). exists W', T'.
  cbn [run]. destruct (perform o s) as [s' r]. cbn [fst snd] in *.
  destruct (run os s') as [s'' h]. cbn [fst snd] in *.
  split; [done|]. rewrite votes_cons, timeouts_cons.
  split; intros w; rewrite elem_of_app; intros Hw; [apply HW | apply HT]; rewrite elem_of_app; tauto.
Qed.

(** What holds of everything signed during a run. *)
Lemma run_safe os (s : SafetyRules.t S) : coherent s -> permits good os s ->
  (forall x, stored s = Some x -> data_ok good x) ->
  let h := (run os s).2 in
  (forall w, w ∈ votes h -> good w) /\
  (forall w w', w ∈ votes h -> w' ∈ votes h -> vote_epoch w = vote_epoch w' ->
     vote_round w = vote_round w' -> w = w') /\
  (forall w t, w ∈ votes h -> t ∈ timeouts h -> vote_epoch w = TwoChainTimeout.epoch t ->
     vote_round w <= TwoChainTimeout.round t -> parent_round w <= TwoChainTimeout.hqc_round t).
Proof.
  intros Hc Hp Hd h.
  assert (store_inv (stored s) [] []) as HI.
  { destruct (stored s); [by apply inv_initial, Hd | done]. }
  destruct (run_inv os s [] [] Hc Hp HI) as (W & T & HI' & HW & HT). fold h in HW, HT.
  unfold store_inv in HI'. destruct (stored (run os s).1) as [x|].
  - destruct HI' as [_ Hg _ _ Hu Hh]. split_and!; intros; [apply Hg | apply Hu | eapply Hh]; auto.
  - destruct HI' as [-> ->]. split_and!; intros; exfalso; eapply not_elem_of_nil; eauto.
Qed.
End run_safety.

(** Everything is permitted when nothing is asked of the votes. *)
Lemma permits_True `{Primitives} `{!ConsensusCrypto} `{!MerkleHasher HashValue.t} {S} `{!Storage S} os :
  forall s : SafetyRules.t S, permits (fun _ => True) os s.
Proof. induction os as [|o os IH]; intros s; [done|]. by split. Qed.

(** The safety data a validator starts from. *)
Definition fresh `{Primitives} (d : option SafetyData.t) : Prop :=
  forall x, d = Some x -> SafetyData.last_vote x = None.

Section claims.
Context `{Primitives} `{!ConsensusCrypto} `{!MerkleHasher HashValue.t} {S : Type} `{!Storage S} `{!StorageLaws S}.

Lemma fresh_data_ok good d x : fresh d -> d = Some x -> data_ok good x.
Proof. intros Hf Hx v Hv. rewrite (Hf x Hx) in Hv. done. Qed.

(** C2: A validator never double-votes. In every run of the safety rules (any
    sequence of calls of either protocol, with restarts, with a storage that may
    fail at any access and may have persisted a write it reported as failed),
    two votes returned for the same epoch and round are the same vote. *)
Theorem no_double_vote (os : list operation) (s : SafetyRules.t S) : coherent s -> fresh (stored s) ->
  forall w w', w ∈ votes (run os s).2 -> w' ∈ votes (run os s).2 ->
    Vote.epoch w = Vote.epoch w' ->
    BlockInfo.round (VoteData.proposed (Vote.vote_data w)) = BlockInfo.round (VoteData.proposed (Vote.vote_data w')) ->
    w = w'.
Proof.
  intros Hc Hf. apply (run_safe (fun _ => True) os s Hc (permits_True os s)).
  intros x. by apply fresh_data_ok.
Qed.

(** C18: Timeouts carry what was voted for. In every run, if a validator returns
    a vote and signs a 2-chain timeout of the same epoch whose round is not
    before the round of the vote, in whichever order, then the highest
    certificate the timeout claims is not below the parent of the vote. *)
Theorem timeout_carries_votes (os : list operation) (s : SafetyRules.t S) : coherent s -> fresh (stored s) ->
  forall w t, w ∈ votes (run os s).2 -> t ∈ timeouts (run os s).2 ->
    Vote.epoch w = TwoChainTimeout.epoch t ->
    BlockInfo.round (VoteData.proposed (Vote.vote_data w)) <= TwoChainTimeout.round t ->
    BlockInfo.round (VoteData.parent (Vote.vote_data w)) <= TwoChainTimeout.hqc_round t.
Proof.
  intros Hc Hf. apply (run_safe (fun _ => True) os s Hc (permits_True os s)).
  intros x. by apply fresh_data_ok.
Qed.
End claims.

(** ** Timeout certificates of another epoch *)
Section stale.
Context `{Primitives} `{!ConsensusCrypto} `{!MerkleHasher HashValue.t} {S : Type} `{!Storage S}.
Import SafetyRules.

(** Actions that leave the epoch state. *)
Definition keeps {A} (m : action (SafetyRules.t S) Error.t A) : Prop :=
  forall s, SafetyRules.epoch_state (m s).1 = SafetyRules.epoch_state s.

Lemma keeps_bind {A B} (m : action (SafetyRules.t S) Error.t A) (f : A -> action (SafetyRules.t S) Error.t B) :
  keeps m -> (forall a, keeps (f a)) -> keeps (m ≫= f).
Proof.
  intros Hm Hf s. specialize (Hm s). unfold mbind, action_bind.
  destruct (m s) as [s' [a|e|]]; cbn in *; [|done..]. by rewrite (Hf a s').
Qed.

Lemma keeps_lift {A} (r : outcome Error.t A) : keeps (lift r).
Proof. done. Qed.

Lemma keeps_gets {A} (f : SafetyRules.t S -> A) : keeps (gets f).
Proof. done. Qed.

Lemma keeps_on_storage {A} (m : action (PersistentSafetyStorage.t S) Error.t A) : keeps (on_storage m).
Proof. intros s. unfold on_storage, zoom. by destruct (m (persistent_storage s)). Qed.

Lemma keeps_signer : keeps signer.
Proof. apply keeps_bind; [apply keeps_gets|intros]. apply keeps_lift. Qed.

Lemma keeps_get_epoch_state : keeps get_epoch_state.
Proof. apply keeps_bind; [apply keeps_gets|intros]. apply keeps_lift. Qed.

Lemma keeps_verify_proposal p now : keeps (verify_proposal p now).
Proof.
  unfold verify_proposal, verify_qc.
  repeat first [apply keeps_bind; [|intros ?] | apply keeps_get_epoch_state | apply keeps_lift | apply keeps_gets | apply keeps_on_storage | case_match | done].
Qed.

Lemma bind_head {A B} (m m' : action (SafetyRules.t S) Error.t A) (f : A -> action (SafetyRules.t S) Error.t B) s :
  m s = m' s -> (m ≫= f) s = (m' ≫= f) s.
Proof. intros E. unfold mbind, action_bind. by rewrite E. Qed.

(** Actions that agree from states with the same epoch state, after one that
    leaves it. *)
Lemma keeps_agree {A B} (m : action (SafetyRules.t S) Error.t A) (f g : A -> action (SafetyRules.t S) Error.t B) s :
  keeps m -> (forall a s', SafetyRules.epoch_state s' = SafetyRules.epoch_state s -> f a s' = g a s') ->
  (m ≫= f) s = (m ≫= g) s.
Proof.
  intros Hm Hf. specialize (Hm s). unfold mbind, action_bind. destruct (m s) as [s' [a|e|]]; cbn in *; [|done..]. by apply Hf.
Qed.

(** C38: The epoch of a timeout certificate has no influence on what is signed.
    Take any state of the safety rules and two 2-chain timeout certificates that
    verify against the current validators and have the same round and the same
    highest certified round, of whatever epochs. A request to vote or to sign a
    timeout has the same result, and leaves the same state, with the one as with
    the other: [verify_tc], [safe_to_vote] and [safe_to_timeout] never compare the
    epoch of the certificate with that of the safety data. *)
Theorem timeout_certificate_epoch_ignored (s : SafetyRules.t S) tc tc' :
  (forall es, SafetyRules.epoch_state s = Some es ->
     TwoChainTimeoutCertificate.verify tc (EpochState.verifier es) = Ok tt /\
     TwoChainTimeoutCertificate.verify tc' (EpochState.verifier es) = Ok tt) ->
  TwoChainTimeoutCertificate.round tc' = TwoChainTimeoutCertificate.round tc ->
  TwoChainTimeoutCertificate.highest_hqc_round tc' = TwoChainTimeoutCertificate.highest_hqc_round tc ->
  (forall p now, perform (ConstructAndSignVoteTwoChain p now (Some tc')) s =
     perform (ConstructAndSignVoteTwoChain p now (Some tc)) s) /\
  (forall t, perform (SignTimeoutWithQC t (Some tc')) s = perform (SignTimeoutWithQC t (Some tc)) s).
Proof.
  intros Hver Hr Hq.
  assert (forall B (k : action (SafetyRules.t S) Error.t B) s', SafetyRules.epoch_state s' = SafetyRules.epoch_state s ->
    (verify_maybe_tc (Some tc') ;; k) s' = (verify_maybe_tc (Some tc) ;; k) s') as Htc.
  { intros B k s' Hs. cbn [verify_maybe_tc]. unfold verify_tc, get_epoch_state, gets, lift, mbind, action_bind. rewrite Hs.
    destruct (SafetyRules.epoch_state s) as [es|]; [|done]. cbn. by destruct (Hver es eq_refl) as [-> ->]. }
  split; intros; cbn [perform].
  - apply bind_head. unfold guarded_construct_and_sign_vote_two_chain.
    apply keeps_agree; [apply keeps_signer|intros _ s1 H1]. apply keeps_agree; [apply keeps_verify_proposal|intros vd s2 H2].
    rewrite Htc by congruence. unfold safe_to_vote. cbn [from_option]. by rewrite Hr, Hq.
  - apply bind_head. unfold guarded_sign_timeout_with_qc.
    apply keeps_agree; [apply keeps_signer|intros _ s1 H1]. apply keeps_agree; [apply keeps_on_storage|intros sd s2 H2].
    apply keeps_agree; [apply keeps_lift|intros _ s3 H3]. apply keeps_agree; [apply keeps_get_epoch_state|intros es s4 H4].
    apply keeps_agree; [apply keeps_lift|intros _ s5 H5].
    rewrite Htc by congruence. unfold safe_to_timeout. cbn [from_option]. by rewrite Hr.
Qed.
End stale.

(** ** Concrete runs *)
#[local] Existing Instance toy_primitives.
#[local] Instance any_signature : ConsensusCrypto := toy_consensus (fun _ _ => true) (fun _ _ => true).

(** The write of the first vote is reported as failed; the second and the third
    proposal of that round get the recorded vote. *)
Definition example_votes : list operation :=
  let qc := toy_genesis_qc 1 in
  [ConstructAndSignVoteTwoChain (toy_proposal 1 qc) 0 None;
   ConstructAndSignVoteTwoChain (toy_proposal 1 qc) 0 None;
   ConstructAndSignVote (toy_proposal 1 qc) 0].

Lemma toy_rules_fresh epoch a faults : fresh (stored (toy_rules epoch a faults)).
Proof. by intros x [= <-]. Qed.

Lemma no_double_vote_witness : exists w w',
  votes (run example_votes (toy_rules 1 3 [HiddenWrite])).2 = [w; w'] /\ w = w'.
Proof.
  assert (exists w w', votes (run example_votes (toy_rules 1 3 [HiddenWrite])).2 = [w; w'] /\
    vote_epoch w = vote_epoch w' /\ vote_round w = vote_round w') as (w & w' & E & He & Hr).
  { eexists _, _. split; [vm_compute; reflexivity | by split]. }
  exists w, w'. split; [exact E|].
  apply (no_double_vote example_votes (toy_rules 1 3 [HiddenWrite])
    (toy_rules_coherent _ _ _) (toy_rules_fresh _ _ _)); [rewrite E; left | rewrite E; right; left | exact He | exact Hr].
Defined.

(** Votes in rounds 1 and 2, then a timeout of round 3. *)
Definition example_timeout : list operation :=
  let q0 := toy_genesis_qc 1 in let q1 := toy_qc 1 q0 in let q2 := toy_qc 2 q1 in
  [ConstructAndSignVoteTwoChain (toy_proposal 1 q0) 0 None;
   ConstructAndSignVoteTwoChain (toy_proposal 2 q1) 0 None;
   SignTimeoutWithQC (toy_timeout 1 3 q2) None].

Lemma timeout_carries_votes_witness : exists w t,
  last (votes (run example_timeout (toy_rules 1 3 [])).2) = Some w /\
  timeouts (run example_timeout (toy_rules 1 3 [])).2 = [t] /\
  BlockInfo.round (VoteData.parent (Vote.vote_data w)) = 1 /\
  BlockInfo.round (VoteData.parent (Vote.vote_data w)) <= TwoChainTimeout.hqc_round t.
Proof.
  assert (exists v w t, votes (run example_timeout (toy_rules 1 3 [])).2 = [v; w] /\
    timeouts (run example_timeout (toy_rules 1 3 [])).2 = [t] /\ parent_round w = 1 /\
    vote_epoch w = TwoChainTimeout.epoch t /\ vote_round w <= TwoChainTimeout.round t)
    as (v & w & t & Hv & Ht & Hp & He & Hr).
  { eexists _, _, _. split; [vm_compute; reflexivity|]. split; [vm_compute; reflexivity|].
    split_and!; by vm_compute. }
  exists w, t. rewrite Hv. split_and!; [reflexivity | exact Ht | exact Hp|].
  apply (timeout_carries_votes example_timeout (toy_rules 1 3 []) (toy_rules_coherent _ _ _)
    (toy_rules_fresh _ _ _)); [rewrite Hv; right; left | rewrite Ht; left | exact He | exact Hr].
Defined.

(** A timeout certificate of epoch 0 and one of epoch 1, with the same rounds. *)
Definition stale_tc : TwoChainTimeoutCertificate.t := toy_tc 0 2 (toy_genesis_qc 0).
Definition current_tc : TwoChainTimeoutCertificate.t := toy_tc 1 2 (toy_genesis_qc 1).

(** In epoch 1 a proposal of round 3 on the genesis block gets a vote on the
    strength of the certificate of epoch 0. *)
Lemma timeout_certificate_epoch_ignored_witness :
  let o tc := ConstructAndSignVoteTwoChain (toy_proposal 3 (toy_genesis_qc 1)) 0 (Some tc) in
  TwoChainTimeoutCertificate.epoch stale_tc = 0 /\
  (perform (o stale_tc) (toy_rules 1 3 [])).2 = (perform (o current_tc) (toy_rules 1 3 [])).2 /\
  is_ok (perform (o stale_tc) (toy_rules 1 3 [])).2 = true.
Proof.
  intros o. split_and!; [reflexivity | | vm_compute; reflexivity].
  refine (f_equal snd (proj1 (timeout_certificate_epoch_ignored (toy_rules 1 3 []) current_tc stale_tc _ _ _) _ _)).
  - intros es Hes. vm_compute in Hes. injection Hes as <-. split; vm_compute; reflexivity.
  - reflexivity.
  - reflexivity.
Defined.
