(* ===== verification/CommitSafety.v ===== *)
(** * Safety of 2-chain commits

    The validators of an epoch, the honest ones running the safety rules, and
    every certificate an observer may verify. The theorem: a block committed by
    the 2-chain rule is an ancestor of every block certified in the same or a
    later round, and so two committed blocks never conflict. *)
From stdpp Require Import prelude gmap strings.
From Stdlib Require Import ZArith Lia.
From S2P Require Import Prelude Bits Hash HashValues Primitives ValidatorVerifier LedgerInfo EpochChange ConsensusTypes Blocks SafetyRules SafetySpec ConsensusExample SafetyRuns.

Section environment.
Context `{Primitives} `{!ConsensusCrypto} `{!MerkleHasher HashValue.t} {S : Type} `{!Storage S}.
Context (e : Z) (ver : ValidatorVerifier.t) (seen : list VoteData.t).

(** How the safety rules are called: by a node of the 2-chain protocol without
    decoupled execution; in epoch [e] the epoch state has the validators [ver]
    and the timeout certificates are of this epoch. [seen] lists the vote data
    of the proposals and their certificates. *)
Definition operation_ok (o : operation) (s : SafetyRules.t S) : Prop :=
  match o with
  | ConstructAndSignVoteTwoChain p _ tc =>
      let vp := MaybeSignedVoteProposal.vote_proposal p in
      (Block.epoch (VoteProposal.block vp) = e ->
        (forall es, SafetyRules.epoch_state s = Some es -> EpochState.verifier es = ver) /\
        (forall c, tc = Some c -> TwoChainTimeoutCertificate.epoch c = e)) /\
      QuorumCert.vote_data (Block.quorum_cert (VoteProposal.block vp)) ∈ seen /\
      (forall vd, VoteProposal.gen_vote_data vp = Ok vd -> vd ∈ seen)
  | ConstructAndSignVote _ _ | SignCommitVote _ _ => False
  | _ => True
  end.

Fixpoint environment (os : list operation) (s : SafetyRules.t S) : Prop :=
  match os with
  | [] => True
  | o :: os => operation_ok o s /\ environment os (perform o s).1
  end.
End environment.

(** The validators of epoch [e]: at most a third of the voting power is
    faulty, and an honest validator's key verifies only what its safety rules
    returned. Hashes of vote data do not collide on [seen]. *)
Record network `{Primitives} `{!ConsensusCrypto} `{!MerkleHasher HashValue.t} (S : Type) `{!Storage S}
    `{!StorageLaws S} (e : Z) (ver : ValidatorVerifier.t) (faulty : list AccountAddress)
    (seen : list VoteData.t) := {
  start : AccountAddress -> SafetyRules.t S;
  ops : AccountAddress -> list operation;
  net_bft : bft ver faulty;
  net_start a : a ∉ faulty -> coherent (start a) /\ fresh (stored (start a));
  net_ops a : a ∉ faulty -> environment e ver seen (ops a) (start a);
  net_votes a (li : LedgerInfo.t) sig : a ∉ faulty -> signed_by ver li a sig ->
    exists v, v ∈ votes (run (ops a) (start a)).2 /\ Vote.ledger_info v = li;
  net_timeouts a (repr : TimeoutSigningRepr.t) sig : a ∉ faulty -> signed_by ver repr a sig ->
    exists t, t ∈ timeouts (run (ops a) (start a)).2 /\ TwoChainTimeout.signing_format t = repr;
  net_batch : batch_verify_sound (T := LedgerInfo.t);
  net_hash vd vd' : vd ∈ seen -> vd' ∈ seen -> crypto_hash vd = crypto_hash vd' -> vd = vd'
}.
Arguments start {_ _ _ _ _ _ _ _ _ _}.
Arguments ops {_ _ _ _ _ _ _ _ _ _}.

(** [a] is [b] or an ancestor of [b] through certified blocks. *)
Inductive extends `{Primitives} `{!ConsensusCrypto} (ver : ValidatorVerifier.t) (a : BlockInfo.t)
    : BlockInfo.t -> Prop :=
| extends_refl : extends ver a a
| extends_step qc : QuorumCert.verify qc ver = Ok tt -> extends ver a (QuorumCert.parent_block qc) ->
    extends ver a (QuorumCert.certified_block qc).

Section safety.
Context `{Primitives} `{!ConsensusCrypto} `{!MerkleHasher HashValue.t} {S : Type} `{!Storage S} `{!StorageLaws S}.
Context {e : Z} {ver : ValidatorVerifier.t} {faulty : list AccountAddress} {seen : list VoteData.t}.
Context (net : network S e ver faulty seen).

(** A certificate of epoch [e] that verifies. *)
Definition certificate (qc : QuorumCert.t) : Prop :=
  QuorumCert.verify qc ver = Ok tt /\ QuorumCert.vote_data qc ∈ seen /\
  BlockInfo.epoch (QuorumCert.certified_block qc) = e.

Abbreviation qc_round qc := (BlockInfo.round (QuorumCert.certified_block qc)).

(** Why an honest validator voted in epoch [e]. *)
Record justified (v : Vote.t) : Prop := {
  just_qc : exists qc, certificate qc /\ QuorumCert.certified_block qc = VoteData.parent (Vote.vote_data v);
  just_rule : vote_round v = parent_round v + 1 \/
    exists c, TwoChainTimeoutCertificate.verify c ver = Ok tt /\ TwoChainTimeoutCertificate.epoch c = e /\
      vote_round v = TwoChainTimeoutCertificate.round c + 1 /\
      TwoChainTimeoutCertificate.highest_hqc_round c <= parent_round v;
  just_round : parent_round v < vote_round v;
  just_commit : LedgerInfo.commit_info (Vote.ledger_info v) =
    if vote_round v =? parent_round v + 1 then VoteData.parent (Vote.vote_data v) else BlockInfo.empty
}.

(** What holds of every vote of an honest validator. *)
Definition honest_vote (v : Vote.t) : Prop :=
  Vote.vote_data v ∈ seen /\
  LedgerInfo.consensus_data_hash (Vote.ledger_info v) = crypto_hash (Vote.vote_data v) /\
  (vote_epoch v = e -> justified v).

Lemma operation_honest o (s : SafetyRules.t S) v : operation_ok e ver seen o s ->
  vote_allowed o (SafetyRules.epoch_state s) v -> honest_vote v.
Proof.
  destruct o as [| | | | | |p now tc| |]; try done. cbn [operation_ok vote_allowed].
  intros (Hep & Hqcs & Hseen) (es & Hes & [Hqc Hdata Hpar Hlt Hpe Hrule Hli]).
  split_and!; [by apply Hseen | by rewrite Hli|]. intros Hve.
  destruct (gen_vote_data_Ok _ _ Hdata) as (_ & Hbe & _ & _).
  destruct Hep as [Hver Htc]; [by rewrite <- Hbe|]. rewrite (Hver es Hes) in *.
  split; [|..|by rewrite Hli]; try done.
  - exists (Block.quorum_cert (VoteProposal.block (MaybeSignedVoteProposal.vote_proposal p))).
    split; [split_and!; [done..|] | done]. by rewrite <- Hpar, Hpe.
  - destruct Hrule as [|(c & -> & Hc & Hr)]; [by left|]. right. exists c. auto.
Qed.

Lemma environment_permits os : forall s : SafetyRules.t S,
  environment e ver seen os s -> permits honest_vote os s.
Proof.
  induction os as [|o os IH]; intros s; [done|]. intros [Ho Hos]. split; [|by apply IH].
  intros v. by apply operation_honest.
Qed.

(** Everything an honest validator signed. *)
Lemma honest_run a : a ∉ faulty -> let h := (run (ops net a) (start net a)).2 in
  (forall w, w ∈ votes h -> honest_vote w) /\
  (forall w w', w ∈ votes h -> w' ∈ votes h -> vote_epoch w = vote_epoch w' ->
     vote_round w = vote_round w' -> w = w') /\
  (forall w t, w ∈ votes h -> t ∈ timeouts h -> vote_epoch w = TwoChainTimeout.epoch t ->
     vote_round w <= TwoChainTimeout.round t -> parent_round w <= TwoChainTimeout.hqc_round t).
Proof.
  intros Ha. destruct (net_start _ _ _ _ _ net a Ha) as [Hc Hf]. apply run_safe; [done | |].
  - by apply environment_permits, (net_ops _ _ _ _ _ net).
  - intros x. by apply fresh_data_ok.
Qed.

(** ** Certificates *)

Lemma certificate_quorum qc : certificate qc -> qc_round qc <> 0 ->
  let sigs := LedgerInfoWithSignatures.signatures (QuorumCert.signed_ledger_info qc) in
  ValidatorVerifier.check_voting_power ver (btree_iter sigs).*1 = Ok tt /\
  forall a sig, sigs !! a = Some sig -> a ∉ faulty ->
    exists v, v ∈ votes (run (ops net a) (start net a)).2 /\ Vote.vote_data v = QuorumCert.vote_data qc /\
      Vote.ledger_info v = LedgerInfoWithSignatures.ledger_info (QuorumCert.signed_ledger_info qc) /\
      justified v.
Proof.
  intros (Hv & Hs & He) Hr sigs. unfold QuorumCert.verify in Hv. outcome_inv.
  apply bool_decide_eq_true in Ha. rewrite (proj2 (Z.eqb_neq _ _)) in Hv by lia. unfold context in Hv. outcome_inv.
  destruct a0. unfold LedgerInfoWithSignatures.verify_signatures in Ha0.
  apply verified_quorum in Ha0 as [Hq Hall]; [|apply (net_batch _ _ _ _ _ net)|apply (net_bft _ _ _ _ _ net)].
  split; [done|]. intros b sig Hsig Hb. apply Hall in Hsig.
  destruct (net_votes _ _ _ _ _ net b _ sig Hb Hsig) as (v & Hin & Hli). exists v.
  destruct (honest_run b Hb) as (Hg & _). destruct (Hg v Hin) as (Hvs & Hh & Hj).
  assert (Vote.vote_data v = QuorumCert.vote_data qc) as Hvd.
  { apply (net_hash _ _ _ _ _ net); [done..|]. rewrite <- Hh, Hli. exact Ha. }
  split_and!; [done..|]. apply Hj. unfold Vote.epoch. by rewrite Hvd.
Qed.

Abbreviation honest_votes a := (votes (run (ops net a) (start net a)).2).

(** [v] is a vote of an honest validator for the block [qc] certifies. *)
Definition voted_for (v : Vote.t) (qc : QuorumCert.t) : Prop :=
  Vote.vote_data v = QuorumCert.vote_data qc /\
  Vote.ledger_info v = LedgerInfoWithSignatures.ledger_info (QuorumCert.signed_ledger_info qc) /\ justified v.

Lemma quorums_meet l l' : NoDup l -> NoDup l' ->
  ValidatorVerifier.check_voting_power ver l = Ok tt -> ValidatorVerifier.check_voting_power ver l' = Ok tt ->
  exists a, a ∈ l /\ a ∈ l' /\ a ∉ faulty.
Proof. destruct (net_bft _ _ _ _ _ net). intros. by eapply quorum_honest. Qed.

Lemma certificates_meet qc qc' : certificate qc -> certificate qc' -> qc_round qc <> 0 -> qc_round qc' <> 0 ->
  exists a v v', a ∉ faulty /\ v ∈ honest_votes a /\ v' ∈ honest_votes a /\ voted_for v qc /\ voted_for v' qc'.
Proof.
  intros Hqc Hqc' Hr Hr'. destruct (certificate_quorum qc Hqc Hr) as [Hq Hv].
  destruct (certificate_quorum qc' Hqc' Hr') as [Hq' Hv'].
  destruct (quorums_meet _ _ (NoDup_btree_keys _) (NoDup_btree_keys _) Hq Hq')
    as (a & [s Hs]%elem_of_btree_keys & [s' Hs']%elem_of_btree_keys & Ha).
  destruct (Hv a s Hs Ha) as (v & Hin & Hvq). destruct (Hv' a s' Hs' Ha) as (v' & Hin' & Hvq').
  by exists a, v, v'.
Qed.

(** A round certifies one block. *)
Lemma certificate_unique qc qc' : certificate qc -> certificate qc' -> qc_round qc <> 0 ->
  qc_round qc = qc_round qc' -> QuorumCert.vote_data qc = QuorumCert.vote_data qc'.
Proof.
  intros Hqc Hqc' Hr Heq. destruct (certificates_meet qc qc') as (a & v & v' & Ha & Hv & Hv' & [Hd _] & [Hd' _]);
    [done..|lia|]. destruct (honest_run a Ha) as (_ & Hu & _).
  assert (v = v') as ->; [|congruence].
  destruct Hqc as (_ & _ & He), Hqc' as (_ & _ & He'). unfold QuorumCert.certified_block in *.
  apply Hu; unfold Vote.epoch; rewrite ?Hd, ?Hd'; congruence.
Qed.

(** A certificate with a commit commits the parent, one round below. *)
Lemma commit_parent qc : certificate qc -> qc_round qc <> 0 ->
  QuorumCert.commit_info qc <> BlockInfo.empty ->
  QuorumCert.commit_info qc = QuorumCert.parent_block qc /\
  qc_round qc = BlockInfo.round (QuorumCert.parent_block qc) + 1 /\
  exists qc', certificate qc' /\ QuorumCert.certified_block qc' = QuorumCert.parent_block qc.
Proof.
  intros Hqc Hr Hne. destruct (certificates_meet qc qc) as (a & v & _ & Ha & Hv & _ & (Hd & Hli & Hj) & _); [done..|].
  destruct Hj as [Hp _ _ Hc]. unfold QuorumCert.commit_info, QuorumCert.parent_block, QuorumCert.certified_block, QuorumCert.ledger_info in *.
  rewrite Hli, Hd in Hc. rewrite Hd in Hp. case_match eqn:E; [|done]. apply Z.eqb_eq in E. auto.
Qed.

(** ** Timeout certificates *)

Lemma tc_verify_loop c acc entries r :
  TwoChainTimeoutCertificate.verify_loop c ver acc entries = Ok r -> acc <= r /\
  forall a q sig, (a, (q, sig)) ∈ entries -> q <= r /\
    signed_by ver (TimeoutSigningRepr.mk (TwoChainTimeoutCertificate.epoch c)
                     (TwoChainTimeoutCertificate.round c) q) a sig.
Proof.
  revert acc. induction entries as [|[b [q' sig']] entries IH]; intros acc Hl; cbn in Hl.
  - outcome_inv. split; [lia|]. by intros ? ? ? ?%elem_of_nil.
  - unfold context in Hl. outcome_inv. destruct a. apply verify_Ok in Ha.
    apply IH in Hl as [Hle Hall]. split; [lia|].
    intros a q sig [[= -> -> ->]|Hin]%elem_of_cons; [split; [lia | done] | by apply Hall].
Qed.

Lemma timeout_quorum c : TwoChainTimeoutCertificate.verify c ver = Ok tt ->
  ValidatorVerifier.check_voting_power ver (btree_iter (TwoChainTimeoutCertificate.signatures c)).*1 = Ok tt /\
  forall a q sig, TwoChainTimeoutCertificate.signatures c !! a = Some (q, sig) ->
    q <= TwoChainTimeoutCertificate.highest_hqc_round c /\
    signed_by ver (TimeoutSigningRepr.mk (TwoChainTimeoutCertificate.epoch c)
                     (TwoChainTimeoutCertificate.round c) q) a sig.
Proof.
  unfold TwoChainTimeoutCertificate.verify. intros Hv. outcome_inv. destruct a0. split; [done|].
  apply Z.eqb_eq in Hv. unfold TwoChainTimeoutCertificate.highest_hqc_round. rewrite Hv.
  intros b q sig Hin. eapply tc_verify_loop; [done|]. by apply elem_of_btree_iter.
Qed.

(** A timeout certificate of a later round reports at least the parent of a
    certified block. *)
Lemma timeout_reports qc c : certificate qc -> qc_round qc <> 0 ->
  TwoChainTimeoutCertificate.verify c ver = Ok tt -> TwoChainTimeoutCertificate.epoch c = e ->
  qc_round qc <= TwoChainTimeoutCertificate.round c ->
  BlockInfo.round (QuorumCert.parent_block qc) <= TwoChainTimeoutCertificate.highest_hqc_round c.
Proof.
  intros Hqc Hr Hc He Hle. destruct (certificate_quorum qc Hqc Hr) as [Hq Hv].
  destruct (timeout_quorum c Hc) as [Hq' Ht].
  destruct (quorums_meet _ _ (NoDup_btree_keys _) (NoDup_btree_keys _) Hq Hq')
    as (a & [s Hs]%elem_of_btree_keys & [[q s'] Hs']%elem_of_btree_keys & Ha).
  destruct (Hv a s Hs Ha) as (v & Hin & Hd & _). destruct (Ht a q s' Hs') as [Hmax Hsig].
  destruct (net_timeouts _ _ _ _ _ net a _ s' Ha Hsig) as (t & Htin & Hrepr).
  injection Hrepr as Hte Htr Hth. destruct (honest_run a Ha) as (_ & _ & Hh).
  specialize (Hh v t Hin Htin). unfold Vote.epoch, QuorumCert.parent_block, QuorumCert.certified_block in *.
  rewrite Hd in Hh. destruct Hqc as (_ & _ & Hqe). unfold QuorumCert.certified_block in Hqe.
  assert (BlockInfo.round (VoteData.parent (QuorumCert.vote_data qc)) <= TwoChainTimeout.hqc_round t); [|lia].
  apply Hh; [congruence | lia].
Qed.

(** ** Commits *)

(** The parent of a block certified above a committed block is certified at
    the round of the committed block or above. *)
Lemma parent_above qc qc' : certificate qc -> certificate qc' ->
  QuorumCert.commit_info qc <> BlockInfo.empty -> 0 < BlockInfo.round (QuorumCert.commit_info qc) ->
  qc_round qc <> 0 -> qc_round qc < qc_round qc' ->
  exists p, certificate p /\ QuorumCert.certified_block p = QuorumCert.parent_block qc' /\
    BlockInfo.round (QuorumCert.commit_info qc) <= qc_round p < qc_round qc'.
Proof.
  intros Hqc Hqc' Hne Hpos Hr Hlt. destruct (commit_parent qc Hqc Hr Hne) as (Hc & Hround & _).
  destruct (certificates_meet qc' qc') as (a & v & _ & Ha & Hv & _ & (Hd & Hli & Hj) & _);
    [done | done | rewrite Hc in Hpos; lia | rewrite Hc in Hpos; lia|].
  destruct Hj as [(p & Hp & Hpar) Hrule Hvr _]. exists p. unfold QuorumCert.parent_block in *.
  rewrite Hd in Hpar, Hrule, Hvr. split_and!; [done | done | | by rewrite Hpar].
  rewrite Hpar, Hc. fold (QuorumCert.certified_block qc') in *.
  destruct Hrule as [Hn|(c & Hcv & Hce & Hcr & Hch)]; [lia|].
  pose proof (timeout_reports qc c Hqc Hr Hcv Hce ltac:(lia)) as Hrep.
  unfold QuorumCert.parent_block in Hrep. lia.
Qed.

Lemma certified_extends qc : certificate qc -> QuorumCert.commit_info qc <> BlockInfo.empty ->
  0 < BlockInfo.round (QuorumCert.commit_info qc) -> qc_round qc <> 0 ->
  forall (n : nat) qc', certificate qc' -> qc_round qc' <= Z.of_nat n ->
    BlockInfo.round (QuorumCert.commit_info qc) <= qc_round qc' ->
    extends ver (QuorumCert.commit_info qc) (QuorumCert.certified_block qc').
Proof.
  intros Hqc Hne Hpos Hr. destruct (commit_parent qc Hqc Hr Hne) as (Hc & Hround & q0 & Hq0 & Hq0p).
  induction n as [|n IH]; intros qc' Hqc' Hn Hle; [lia|].
  destruct (Z.lt_trichotomy (qc_round qc') (qc_round qc)) as [Hlt|[Heq|Hgt]].
  - assert (QuorumCert.vote_data q0 = QuorumCert.vote_data qc') as Hd.
    { apply certificate_unique; [done | done | rewrite Hq0p, <- Hc; lia | rewrite Hq0p]. rewrite <- Hc in *. lia. }
    rewrite Hc, <- Hq0p. unfold QuorumCert.certified_block. rewrite Hd. constructor.
  - assert (QuorumCert.vote_data qc = QuorumCert.vote_data qc') as Hd by (by apply certificate_unique).
    apply extends_step; [apply Hqc'|]. rewrite Hc. unfold QuorumCert.parent_block. rewrite Hd. constructor.
  - destruct (parent_above qc qc') as (p & Hp & Hpar & Hge & Hplt); [done..|].
    apply extends_step; [apply Hqc'|]. rewrite <- Hpar. apply IH; [done | lia | lia].
Qed.

(** Only the certificates of the genesis block have round 0. *)
Lemma commit_certified_round qc : certificate qc -> 0 < BlockInfo.round (QuorumCert.commit_info qc) ->
  qc_round qc <> 0.
Proof.
  intros (Hv & _ & _) Hpos Hz. unfold QuorumCert.verify in Hv. outcome_inv.
  rewrite (proj2 (Z.eqb_eq _ _) Hz) in Hv. outcome_inv. apply bool_decide_eq_true in Ha1. rewrite <- Ha1 in Hpos. lia.
Qed.

Lemma committed_extends qc qc' : certificate qc -> certificate qc' ->
  QuorumCert.commit_info qc <> BlockInfo.empty -> 0 < BlockInfo.round (QuorumCert.commit_info qc) ->
  BlockInfo.round (QuorumCert.commit_info qc) <= qc_round qc' ->
  extends ver (QuorumCert.commit_info qc) (QuorumCert.certified_block qc').
Proof.
  intros Hqc Hqc' Hne Hpos Hle.
  apply (certified_extends qc Hqc Hne Hpos (commit_certified_round qc Hqc Hpos) (Z.to_nat (qc_round qc'))); [done | lia | done].
Qed.

Lemma commits_ordered qc qc' : certificate qc -> certificate qc' ->
  QuorumCert.commit_info qc <> BlockInfo.empty -> 0 < BlockInfo.round (QuorumCert.commit_info qc) ->
  QuorumCert.commit_info qc' <> BlockInfo.empty ->
  BlockInfo.round (QuorumCert.commit_info qc) <= BlockInfo.round (QuorumCert.commit_info qc') ->
  extends ver (QuorumCert.commit_info qc) (QuorumCert.commit_info qc').
Proof.
  intros Hqc Hqc' Hne Hpos Hne' Hle.
  destruct (commit_parent qc' Hqc') as (Hc & _ & p & Hp & Hpp); [apply commit_certified_round; [done | lia] | done|].
  rewrite Hc in Hle |- *. rewrite <- Hpp in Hle |- *. by apply committed_extends.
Qed.

(** C1: Commits of the 2-chain protocol are safe. Consider an epoch with a
    non-empty validator set whose total power can be doubled in a u64. Assume that
    at most a third of the voting power is faulty; that the keys of the honest
    validators verify only what their safety rules returned, in runs that start
    without a vote, with arbitrary proposals, timeouts, restarts and storage
    failures, under the 2-chain rules (no 3-chain votes, no commit votes) and with
    timeout certificates of this epoch, which the code does not check; and that the
    vote data of the proposals and certificates do not collide. If a verified
    certificate [qc] commits a block after genesis, every block certified by a
    verified certificate in the same or a later round extends it; and the blocks
    committed by two verified certificates are on one chain. *)
Theorem two_chain_commit_safety qc qc' : certificate qc -> certificate qc' ->
  QuorumCert.commit_info qc <> BlockInfo.empty -> 0 < BlockInfo.round (QuorumCert.commit_info qc) ->
  (BlockInfo.round (QuorumCert.commit_info qc) <= BlockInfo.round (QuorumCert.certified_block qc') ->
   extends ver (QuorumCert.commit_info qc) (QuorumCert.certified_block qc')) /\
  (QuorumCert.commit_info qc' <> BlockInfo.empty -> 0 < BlockInfo.round (QuorumCert.commit_info qc') ->
   extends ver (QuorumCert.commit_info qc) (QuorumCert.commit_info qc') \/
   extends ver (QuorumCert.commit_info qc') (QuorumCert.commit_info qc)).
Proof.
  intros Hqc Hqc' Hne Hpos. split; [by apply committed_extends|]. intros Hne' Hpos'.
  destruct (Z.le_ge_cases (BlockInfo.round (QuorumCert.commit_info qc)) (BlockInfo.round (QuorumCert.commit_info qc')));
    [left | right]; by apply commits_ordered.
Qed.
End safety.

(** ** A concrete network

    Validators 2, 3 and 4 vote in rounds 1 and 2, time out in round 3 and vote
    in round 4; validator 1 is faulty. *)
#[local] Existing Instance toy_primitives.
#[local] Instance base_crypto : ConsensusCrypto := toy_consensus (fun _ _ => true) (fun _ _ => true).

Definition example_q0 : QuorumCert.t := toy_genesis_qc 1.
Definition example_q1 : QuorumCert.t := toy_qc 1 example_q0.
Definition example_q2 : QuorumCert.t := toy_qc 2 example_q1.
Definition example_q4 : QuorumCert.t := toy_qc 4 example_q2.

Definition example_ops : list operation :=
  [ConstructAndSignVoteTwoChain (toy_proposal 1 example_q0) 0 None;
   ConstructAndSignVoteTwoChain (toy_proposal 2 example_q1) 0 None;
   SignTimeoutWithQC (toy_timeout 1 3 example_q2) None;
   ConstructAndSignVoteTwoChain (toy_proposal 4 example_q2) 0 (Some (toy_tc 1 3 example_q2))].

Definition example_seen : list VoteData.t :=
  QuorumCert.vote_data <$> [example_q0; example_q1; example_q2; example_q4].

Definition example_signed : list LedgerInfo.t :=
  [toy_ledger_info 1 example_q0; toy_ledger_info 2 example_q1; toy_ledger_info 4 example_q2].

(** The honest keys verify the ledger infos and the timeout of the run. *)
#[local] Instance honest_crypto : ConsensusCrypto := toy_consensus
  (fun pk li => (pk =? 1) || bool_decide (li ∈ example_signed))
  (fun pk repr => (pk =? 1) || bool_decide (repr = TwoChainTimeout.signing_format (toy_timeout 1 3 example_q2))).

Lemma four_members a i : four !! a = Some i -> a ∈ [1; 2; 3; 4] /\ ValidatorConsensusInfo.public_key i = a.
Proof.
  unfold four. intros Hi%elem_of_list_to_map_2. apply list_elem_of_fmap in Hi as (k & [= -> ->] & Hk). done.
Qed.

Lemma example_environment a : environment 1 four_verifier example_seen example_ops (toy_rules 1 a []).
Proof.
  assert (forall vd, bool_decide (vd ∈ example_seen) = true -> vd ∈ example_seen) as Hseen
    by (intros vd Hvd; by apply bool_decide_eq_true in Hvd).
  cbn [environment example_ops operation_ok]. split_and!; try exact I.
  all: try (intros _; split; [intros es Hes; vm_compute in Hes; injection Hes as <-; vm_compute; reflexivity
                             | intros c Hc; try discriminate Hc; injection Hc as <-; reflexivity]).
  all: try (apply Hseen; vm_compute; reflexivity).
  all: intros vd Hvd; apply Hseen; injection Hvd as <-; vm_compute; reflexivity.
Qed.

Lemma example_votes_signed a (li : LedgerInfo.t) sig : a ∉ [1] -> signed_by four_verifier li a sig ->
  exists v, v ∈ votes (run example_ops (toy_rules 1 a [])).2 /\ Vote.ledger_info v = li.
Proof.
  intros Ha (i & Hi & Hv). apply four_members in Hi as [Hin Hk]. cbn in Hv. rewrite Hk in Hv.
  apply andb_true_iff in Hv as [_ Hv]. apply orb_true_iff in Hv as [->%Z.eqb_eq|Hv%bool_decide_eq_true];
    [set_solver|]. clear i Hk sig.
  assert (li ∈ Vote.ledger_info <$> votes (run example_ops (toy_rules 1 a [])).2) as Hli.
  { replace (Vote.ledger_info <$> _) with example_signed; [done|]. vm_compute. reflexivity. }
  apply list_elem_of_fmap in Hli as (v & -> & Hin'). by exists v.
Qed.

Lemma example_timeouts_signed a (repr : TimeoutSigningRepr.t) sig : a ∉ [1] -> signed_by four_verifier repr a sig ->
  exists t, t ∈ timeouts (run example_ops (toy_rules 1 a [])).2 /\ TwoChainTimeout.signing_format t = repr.
Proof.
  intros Ha (i & Hi & Hv). apply four_members in Hi as [Hin Hk]. cbn in Hv. rewrite Hk in Hv.
  apply andb_true_iff in Hv as [_ Hv]. apply orb_true_iff in Hv as [->%Z.eqb_eq|Hv%bool_decide_eq_true];
    [set_solver|]. clear i Hk sig.
  exists (toy_timeout 1 3 example_q2). split; [|done].
  replace (timeouts _) with [toy_timeout 1 3 example_q2]; [left|]. vm_compute. reflexivity.
Qed.

Definition example_network : network toy_store 1 four_verifier [1] example_seen.
Proof.
  refine {| start a := toy_rules 1 a []; ops _ := example_ops |}.
  - apply four_bft.
  - intros a _. split; [apply toy_rules_coherent | apply toy_rules_fresh].
  - intros a _. apply example_environment.
  - apply example_votes_signed.
  - apply example_timeouts_signed.
  - apply checked_batch_sound.
  - assert (NoDup (crypto_hash <$> example_seen)) as Hn by (apply (bool_decide_unpack _); vm_compute; exact I).
    intros vd vd' Hvd Hvd' Heq. apply list_elem_of_lookup in Hvd as [k Hk], Hvd' as [k' Hk'].
    assert (k = k') as ->; [|congruence].
    eapply (NoDup_lookup _ _ _ (crypto_hash vd) Hn); rewrite list_lookup_fmap, ?Hk, ?Hk'; cbn [fmap option_fmap option_map]; congruence.
Defined.

Lemma two_chain_commit_safety_witness :
  BlockInfo.round (QuorumCert.commit_info example_q2) = 1 /\
  extends four_verifier (QuorumCert.commit_info example_q2) (QuorumCert.certified_block example_q4).
Proof.
  split; [vm_compute; reflexivity|].
  assert (forall q, QuorumCert.verify q four_verifier = Ok tt -> bool_decide (QuorumCert.vote_data q ∈ example_seen) = true ->
    BlockInfo.epoch (QuorumCert.certified_block q) = 1 -> certificate (e := 1) (ver := four_verifier) (seen := example_seen) q) as Hq.
  { intros q Hv Hs%bool_decide_eq_true He. by split_and!. }
  apply (two_chain_commit_safety example_network example_q2 example_q4).
  - apply Hq; vm_compute; reflexivity.
  - apply Hq; vm_compute; reflexivity.
  - vm_compute. discriminate.
  - vm_compute. reflexivity.
  - vm_compute. discriminate.
Defined.
