(* ===== verification/PendingVotes.v ===== *)
(** * Pending votes (consensus/src/pending_votes.rs)

    The votes of one round, aggregated into quorum and timeout certificates.
    The theorems: certificates formed from verified votes verify, and the votes
    of a quorum for one ledger info form a quorum certificate. *)
From stdpp Require Import prelude gmap strings.
From Stdlib Require Import ZArith Lia.
From S2P Require Import Prelude Bits HashValues Primitives ValidatorVerifier LedgerInfo EpochChange ConsensusTypes Blocks SafetyRules ConsensusExample.

Module PendingVotes.
Section votes.
Context `{Primitives} `{!CryptoHash VoteData.t} `{!CryptoHash LedgerInfo.t}.
Context `{!CryptoHash Timeout.t} `{!CryptoHash TimeoutSigningRepr.t}.

Inductive VoteReceptionResult :=
| VoteAdded (voting_power : Z)
| DuplicateVote
| EquivocateVote
| NewQuorumCertificate (qc : QuorumCert.t)
| NewTimeoutCertificate (tc : TimeoutCertificate.t)
| New2ChainTimeoutCertificate (tc : TwoChainTimeoutCertificate.t)
| ErrorAddingVote (error : VerifyError.t)
| UnexpectedRound (round current_round : Z).

Record t := mk {
  li_digest_to_votes : gmap HashValue.t LedgerInfoWithSignatures.t;
  maybe_partial_tc : option TimeoutCertificate.t;
  maybe_partial_2chain_tc : option TwoChainTimeoutCertificate.t;
  author_to_vote : gmap AccountAddress Vote.t
}.

Definition new : t := mk ∅ None None ∅.

(** The early returns of the check for a previous vote of the author. *)
Definition previous_vote (self : t) (vote : Vote.t) : option VoteReceptionResult :=
  match author_to_vote self !! Vote.author vote with
  | Some previously_seen_vote =>
      if bool_decide (crypto_hash (Vote.ledger_info vote) = crypto_hash (Vote.ledger_info previously_seen_vote))
      then
        let new_timeout_vote := Vote.is_timeout vote && negb (Vote.is_timeout previously_seen_vote) in
        if negb new_timeout_vote then Some DuplicateVote else None
      else Some EquivocateVote
  | None => None
  end.

(** What a call of [check_voting_power] leads to: the certificate, the power
    so far, or an error. *)
Inductive quorum_check :=
| Reached
| Missing (voting_power : Z)
| Failed (error : VerifyError.t)
| Panicked.

Definition check_quorum (validator_verifier : ValidatorVerifier.t) (authors : list AccountAddress)
    : quorum_check :=
  match ValidatorVerifier.check_voting_power validator_verifier authors with
  | Ok _ => Reached
  | Err (VerifyError.TooLittleVotingPower voting_power _) => Missing voting_power
  | Err error => Failed error
  | Panic => Panicked
  end.

(** Step 4.1: the 2-chain timeout. *)
Definition insert_2chain_timeout (self : t) (vote : Vote.t) (validator_verifier : ValidatorVerifier.t)
    (voting_power : Z) : t * outcome VerifyError.t VoteReceptionResult :=
  match Vote.two_chain_timeout vote with
  | Some (timeout, signature) =>
      let partial_tc := default (TwoChainTimeoutCertificate.new timeout) (maybe_partial_2chain_tc self) in
      let partial_tc := TwoChainTimeoutCertificate.add partial_tc (Vote.author vote) timeout signature in
      let self := mk (li_digest_to_votes self) (maybe_partial_tc self) (Some partial_tc) (author_to_vote self) in
      match check_quorum validator_verifier (TwoChainTimeoutCertificate.signers partial_tc) with
      | Reached => (self, Ok (New2ChainTimeoutCertificate partial_tc))
      | Missing _ => (self, Ok (VoteAdded voting_power))
      | Failed error => (self, Ok (ErrorAddingVote error))
      | Panicked => (self, Panic)
      end
  | None => (self, Ok (VoteAdded voting_power))
  end.

(** Step 4: the timeout certificates. *)
Definition insert_timeout (self : t) (vote : Vote.t) (validator_verifier : ValidatorVerifier.t)
    (voting_power : Z) : t * outcome VerifyError.t VoteReceptionResult :=
  match Vote.timeout_signature vote with
  | Some timeout_signature =>
      let timeout := Vote.generate_timeout vote in
      let partial_tc := default (TimeoutCertificate.new timeout) (maybe_partial_tc self) in
      let partial_tc := TimeoutCertificate.add_signature partial_tc (Vote.author vote) timeout_signature in
      let self := mk (li_digest_to_votes self) (Some partial_tc) (maybe_partial_2chain_tc self)
        (author_to_vote self) in
      match check_quorum validator_verifier (btree_iter (TimeoutCertificate.signatures partial_tc)).*1 with
      | Reached => (self, Ok (NewTimeoutCertificate partial_tc))
      | Missing _ => insert_2chain_timeout self vote validator_verifier voting_power
      | Failed error => (self, Ok (ErrorAddingVote error))
      | Panicked => (self, Panic)
      end
  | None => insert_2chain_timeout self vote validator_verifier voting_power
  end.

Definition insert_vote (self : t) (vote : Vote.t) (validator_verifier : ValidatorVerifier.t)
    : t * outcome VerifyError.t VoteReceptionResult :=
  let li_digest := crypto_hash (Vote.ledger_info vote) in
  match previous_vote self vote with
  | Some result => (self, Ok result)
  | None =>
      let author_to_vote := <[Vote.author vote := vote]> (author_to_vote self) in
      let li_with_sig := default (LedgerInfoWithSignatures.new (Vote.ledger_info vote) ∅)
        (li_digest_to_votes self !! li_digest) in
      let li_with_sig := LedgerInfoWithSignatures.add_signature li_with_sig (Vote.author vote)
        (Vote.signature vote) in
      let self := mk (<[li_digest := li_with_sig]> (li_digest_to_votes self)) (maybe_partial_tc self)
        (maybe_partial_2chain_tc self) author_to_vote in
      match check_quorum validator_verifier (btree_iter (LedgerInfoWithSignatures.signatures li_with_sig)).*1 with
      | Reached => (self, Ok (NewQuorumCertificate (QuorumCert.new (Vote.vote_data vote) li_with_sig)))
      | Missing voting_power => insert_timeout self vote validator_verifier voting_power
      | Failed error => (self, Ok (ErrorAddingVote error))
      | Panicked => (self, Panic)
      end
  end.
End votes.
Arguments t {_}.
Arguments VoteReceptionResult {_}.
End PendingVotes.

(** ** Certificates of verified votes *)
Section soundness.
Context `{Primitives} `{!CryptoHash VoteData.t} `{!CryptoHash LedgerInfo.t}.
Context `{!CryptoHash Timeout.t} `{!CryptoHash TimeoutSigningRepr.t}.
Context (ver : ValidatorVerifier.t) (Hver : well_formed ver) (Hbatch : batch_verify_sound (T := LedgerInfo.t)).
(** The epoch and round, and the ledger infos that are voted for. *)
Context (e r : Z) (seen : list LedgerInfo.t).
Import PendingVotes.

(** A vote as [RoundManager] and [RoundState] let it through: verified, of the
    current epoch and round. Rounds are unsigned. *)
Record valid_vote (v : Vote.t) : Prop := {
  valid_verify : Vote.verify v ver = Ok tt;
  valid_epoch : Vote.epoch v = e;
  valid_round : BlockInfo.round (VoteData.proposed (Vote.vote_data v)) = r;
  valid_seen : Vote.ledger_info v ∈ seen;
  valid_hqc t s : Vote.two_chain_timeout v = Some (t, s) -> 0 <= TwoChainTimeout.hqc_round t
}.

(** What [Vote::verify] guarantees. *)
Lemma vote_verified v : Vote.verify v ver = Ok tt ->
  LedgerInfo.consensus_data_hash (Vote.ledger_info v) = crypto_hash (Vote.vote_data v) /\
  signed_by ver (Vote.ledger_info v) (Vote.author v) (Vote.signature v) /\
  (forall s, Vote.timeout_signature v = Some s -> signed_by ver (Vote.generate_timeout v) (Vote.author v) s) /\
  (forall t s, Vote.two_chain_timeout v = Some (t, s) ->
     TwoChainTimeout.epoch t = Vote.epoch v /\
     TwoChainTimeout.round t = BlockInfo.round (VoteData.proposed (Vote.vote_data v)) /\
     TwoChainTimeout.verify t ver = Ok tt /\
     signed_by ver (TwoChainTimeout.signing_format t) (Vote.author v) s) /\
  VoteData.verify (Vote.vote_data v) = Ok tt.
Proof.
  unfold Vote.verify, context. intros Hv. outcome_inv. apply bool_decide_eq_true in Ha. destruct a1. 
  apply verify_Ok in Ha1. split_and!; [done | done | | | done].
  - intros s Hs. rewrite Hs in Ha2. outcome_inv. destruct a2. by apply verify_Ok.
  - intros t s Hts. rewrite Hts in Ha3. outcome_inv. destruct a3, a4. apply verify_Ok in Ha3.
    apply andb_true_iff in Ha4 as [?%Z.eqb_eq ?%Z.eqb_eq]. done.
Qed.

(** *** Timeout certificates of the 2-chain protocol *)

(** A partial certificate: the highest of the signed rounds is that of the
    timeout it carries. *)
Record partial_ok (tc : TwoChainTimeoutCertificate.t) : Prop := {
  partial_epoch : TwoChainTimeoutCertificate.epoch tc = e;
  partial_round : TwoChainTimeoutCertificate.round tc = r;
  partial_timeout : TwoChainTimeout.verify (TwoChainTimeoutCertificate.timeout tc) ver = Ok tt;
  partial_hqc : 0 <= TwoChainTimeoutCertificate.highest_hqc_round tc;
  partial_signed a q s : TwoChainTimeoutCertificate.signatures tc !! a = Some (q, s) ->
    q <= TwoChainTimeoutCertificate.highest_hqc_round tc /\ signed_by ver (TimeoutSigningRepr.mk e r q) a s;
  partial_max : exists a s, TwoChainTimeoutCertificate.signatures tc !! a
    = Some (TwoChainTimeoutCertificate.highest_hqc_round tc, s)
}.

Lemma verify_loop_max tc m entries : forall acc, acc <= m ->
  (forall a q s, (a, (q, s)) ∈ entries -> q <= m /\
     signed_by ver (TimeoutSigningRepr.mk (TwoChainTimeoutCertificate.epoch tc)
                      (TwoChainTimeoutCertificate.round tc) q) a s) ->
  (acc = m \/ exists a s, (a, (m, s)) ∈ entries) ->
  TwoChainTimeoutCertificate.verify_loop tc ver acc entries = Ok m.
Proof.
  induction entries as [|[b [q s]] entries IH]; intros acc Hacc Hall Hmax; cbn.
  - destruct Hmax as [->|(a & s & Hin)]; [done | by apply not_elem_of_nil in Hin].
  - destruct (Hall b q s) as [Hq Hs]; [left|]. apply verify_Ok in Hs.
    unfold TwoChainTimeoutCertificate.epoch, TwoChainTimeoutCertificate.round in Hs. rewrite Hs. cbn.
    apply IH; [lia | intros; apply Hall; by right|].
    destruct Hmax as [->|(a & s' & [[= -> -> ->]|Hin]%elem_of_cons)]; [left; lia | left; lia | right; eauto].
Qed.

Lemma partial_verifies tc : partial_ok tc ->
  ValidatorVerifier.check_voting_power ver (TwoChainTimeoutCertificate.signers tc) = Ok tt ->
  TwoChainTimeoutCertificate.verify tc ver = Ok tt.
Proof.
  intros [He Hr Ht Hh Hs (a & s & Ha)] Hq. unfold TwoChainTimeoutCertificate.verify.
  rewrite Ht. cbn [mbind outcome_bind].
  unfold TwoChainTimeoutCertificate.signers in Hq. rewrite Hq. cbn [mbind outcome_bind map_err].
  rewrite (verify_loop_max tc (TwoChainTimeoutCertificate.highest_hqc_round tc)).
  - cbn. unfold TwoChainTimeoutCertificate.highest_hqc_round. by rewrite Z.eqb_refl.
  - done.
  - intros b q s' Hin%elem_of_btree_iter. rewrite He, Hr. by eapply Hs.
  - right. exists a, s. by apply elem_of_btree_iter.
Qed.

(** Adding the verified timeout of a new author. *)
Lemma partial_add otc v t s : valid_vote v -> Vote.two_chain_timeout v = Some (t, s) ->
  (forall tc, otc = Some tc -> partial_ok tc /\ TwoChainTimeoutCertificate.signatures tc !! Vote.author v = None) ->
  partial_ok (TwoChainTimeoutCertificate.add (default (TwoChainTimeoutCertificate.new t) otc) (Vote.author v) t s).
Proof.
  intros [Hv He Hr _ Hq] Hts Hotc. specialize (Hq t s Hts).
  destruct (vote_verified v Hv) as (_ & _ & _ & H2 & _). destruct (H2 t s Hts) as (Hte & Htr & Htv & Hsig). clear H2.
  assert (signed_by ver (TimeoutSigningRepr.mk e r (TwoChainTimeout.hqc_round t)) (Vote.author v) s) as Hsig'.
  { unfold TwoChainTimeout.signing_format in Hsig. by rewrite Hte, Htr, He, Hr in Hsig. }
  destruct otc as [tc|]; cbn.
  - destruct (Hotc tc eq_refl) as [[Pe Pr Pt Ph Ps (b & sb & Pm)] Pn]. unfold TwoChainTimeoutCertificate.add, TwoChainTimeoutCertificate.epoch,
      TwoChainTimeoutCertificate.round, TwoChainTimeoutCertificate.highest_hqc_round in *.
    destruct (Z.ltb_spec (TwoChainTimeout.hqc_round (TwoChainTimeoutCertificate.timeout tc)) (TwoChainTimeout.hqc_round t)) as [Hlt|Hge].
    + split; unfold TwoChainTimeoutCertificate.epoch, TwoChainTimeoutCertificate.round, TwoChainTimeoutCertificate.highest_hqc_round; cbn;
        [congruence | congruence | done | done | |].
      * intros c q sc [[<- [= <- <-]]|[_ Hc]]%lookup_insert_Some; [done|]. destruct (Ps c q sc Hc). split; [lia | done].
      * exists (Vote.author v), s. by rewrite lookup_insert_eq.
    + split; unfold TwoChainTimeoutCertificate.epoch, TwoChainTimeoutCertificate.round, TwoChainTimeoutCertificate.highest_hqc_round; cbn; [done.. | |].
      * intros c q sc [[<- [= <- <-]]|[_ Hc]]%lookup_insert_Some; [split; [lia | done] | by apply (Ps c)].
      * exists b, sb. rewrite lookup_insert_ne; [done | congruence].
  - unfold TwoChainTimeoutCertificate.add. cbn. rewrite Z.ltb_irrefl.
    split; unfold TwoChainTimeoutCertificate.epoch, TwoChainTimeoutCertificate.round, TwoChainTimeoutCertificate.highest_hqc_round; cbn;
      [congruence | congruence | done | done | |].
    + intros c q sc [[<- [= <- <-]]|[_ Hc]]%lookup_insert_Some; [split; [done|done] | by rewrite lookup_empty in Hc].
    + exists (Vote.author v), s. by rewrite lookup_insert_eq.
Qed.

(** *** The invariant *)

Record pending_ok (p : t) : Prop := {
  pending_li d l : li_digest_to_votes p !! d = Some l ->
    crypto_hash (LedgerInfoWithSignatures.ledger_info l) = d /\
    LedgerInfoWithSignatures.ledger_info l ∈ seen /\
    map_Forall (signed_by ver (LedgerInfoWithSignatures.ledger_info l)) (LedgerInfoWithSignatures.signatures l);
  pending_tc tc : maybe_partial_tc p = Some tc ->
    TimeoutCertificate.timeout tc = Timeout.new e r /\
    map_Forall (signed_by ver (Timeout.new e r)) (TimeoutCertificate.signatures tc);
  pending_2chain tc : maybe_partial_2chain_tc p = Some tc -> partial_ok tc /\
    forall a, is_Some (TwoChainTimeoutCertificate.signatures tc !! a) ->
      exists v, author_to_vote p !! a = Some v /\ Vote.is_timeout v = true
}.

(** The certificates that are returned verify. *)
Definition result_ok (res : outcome VerifyError.t VoteReceptionResult) : Prop :=
  match res with
  | Ok (NewQuorumCertificate qc) => QuorumCert.verify qc ver = Ok tt
  | Ok (NewTimeoutCertificate tc) => TimeoutCertificate.verify tc ver = Ok tt
  | Ok (New2ChainTimeoutCertificate tc) => TwoChainTimeoutCertificate.verify tc ver = Ok tt
  | _ => True
  end.

(** The vote is recorded as the last one of its author, who is not yet among
    the signers of the 2-chain timeouts. *)
Definition recorded (p : t) (v : Vote.t) : Prop :=
  author_to_vote p !! Vote.author v = Some v /\
  forall tc, maybe_partial_2chain_tc p = Some tc ->
    TwoChainTimeoutCertificate.signatures tc !! Vote.author v = None.

Lemma check_quorum_Reached authors : check_quorum ver authors = Reached ->
  ValidatorVerifier.check_voting_power ver authors = Ok tt.
Proof.
  unfold check_quorum. by destruct (ValidatorVerifier.check_voting_power ver authors) as [[]|[]|].
Qed.

Lemma insert_2chain_ok p v n : pending_ok p -> valid_vote v -> recorded p v ->
  let res := insert_2chain_timeout p v ver n in pending_ok res.1 /\ result_ok res.2.
Proof.
  intros [Hli Htc H2] Hv [Hrec Hnew]. unfold insert_2chain_timeout.
  destruct (Vote.two_chain_timeout v) as [[t s]|] eqn:Hts; [|done].
  assert (partial_ok (TwoChainTimeoutCertificate.add
    (default (TwoChainTimeoutCertificate.new t) (maybe_partial_2chain_tc p)) (Vote.author v) t s)) as Hp.
  { apply partial_add; [done | done|]. intros tc Hp. split; [by apply H2 | by apply Hnew]. }
  set (tc := TwoChainTimeoutCertificate.add _ _ _ _) in *.
  assert (pending_ok (mk (li_digest_to_votes p) (maybe_partial_tc p) (Some tc) (author_to_vote p))) as Hok.
  { split; cbn; [done | done|]. intros ? [= <-]. split; [done|]. intros a.
    unfold tc, TwoChainTimeoutCertificate.add. cbn.
    destruct (decide (Vote.author v = a)) as [<-|Hne].
    - intros _. exists v. split; [done|]. unfold Vote.is_timeout. rewrite Hts. apply orb_true_r.
    - rewrite lookup_insert_ne by done. destruct (maybe_partial_2chain_tc p) as [tc'|] eqn:E; cbn.
      + by apply H2.
      + rewrite lookup_empty. by intros [? ?]. }
  case_match eqn:Hc; (split; [exact Hok | try done]). apply partial_verifies; [done|].
  by apply check_quorum_Reached.
Qed.

Lemma insert_timeout_ok p v n : pending_ok p -> valid_vote v -> recorded p v ->
  let res := insert_timeout p v ver n in pending_ok res.1 /\ result_ok res.2.
Proof.
  intros Hp Hv Hrec. unfold insert_timeout. destruct (Vote.timeout_signature v) as [s|] eqn:Hs;
    [|by apply insert_2chain_ok]. cbv zeta.
  assert (Vote.generate_timeout v = Timeout.new e r) as Hg.
  { destruct Hv as [_ He Hr _ _]. unfold Vote.generate_timeout, Vote.epoch in *. by rewrite He, Hr. }
  assert (signed_by ver (Timeout.new e r) (Vote.author v) s) as Hsig.
  { rewrite <- Hg. by apply (vote_verified v), Hs; apply Hv. }
  set (tc := TimeoutCertificate.add_signature _ _ _).
  assert (TimeoutCertificate.timeout tc = Timeout.new e r /\
    map_Forall (signed_by ver (Timeout.new e r)) (TimeoutCertificate.signatures tc)) as [Ht Hall].
  { assert (TimeoutCertificate.timeout (default (TimeoutCertificate.new (Vote.generate_timeout v)) (maybe_partial_tc p)) = Timeout.new e r /\
      map_Forall (signed_by ver (Timeout.new e r))
        (TimeoutCertificate.signatures (default (TimeoutCertificate.new (Vote.generate_timeout v)) (maybe_partial_tc p)))) as [Ht Hall].
    { destruct (maybe_partial_tc p) as [tc'|] eqn:E; cbn; [by apply Hp|]. rewrite Hg. split; [done | by apply map_Forall_empty]. }
    unfold tc, TimeoutCertificate.add_signature. cbn. split; [done|]. case_match; [done|]. by apply map_Forall_insert_2. }
  assert (pending_ok (mk (li_digest_to_votes p) (Some tc) (maybe_partial_2chain_tc p) (author_to_vote p))) as Hok.
  { destruct Hp. split; cbn; [done | by intros ? [= <-] | done]. }
  case_match eqn:Hc; [|by apply insert_2chain_ok | split; [exact Hok | done]..].
  split; [exact Hok|]. cbn. unfold TimeoutCertificate.verify, context. rewrite Ht.
  apply check_quorum_Reached, check_voting_power_Ok in Hc as [_ Hc]; [|done | apply NoDup_btree_keys].
  by rewrite (proj2 (verify_aggregated_Ok ver (Timeout.new e r) _ Hver)).
Qed.

Context (Hround : r <> 0).
Context (Hinj : forall li li', li ∈ seen -> li' ∈ seen -> crypto_hash li = crypto_hash li' -> li = li').

Lemma previous_vote_None p v prev : previous_vote p v = None ->
  author_to_vote p !! Vote.author v = Some prev -> Vote.is_timeout prev = false.
Proof.
  unfold previous_vote. intros Hn Hp. rewrite Hp in Hn. case_match; [|done].
  destruct (Vote.is_timeout prev); [|done]. by rewrite andb_false_r in Hn.
Qed.

(** The ledger info with the signatures of its votes so far. *)
Definition collected (p : t) (v : Vote.t) : LedgerInfoWithSignatures.t :=
  LedgerInfoWithSignatures.add_signature
    (default (LedgerInfoWithSignatures.new (Vote.ledger_info v) ∅)
       (li_digest_to_votes p !! crypto_hash (Vote.ledger_info v))) (Vote.author v) (Vote.signature v).

Lemma collected_ok p v : pending_ok p -> valid_vote v ->
  LedgerInfoWithSignatures.ledger_info (collected p v) = Vote.ledger_info v /\
  map_Forall (signed_by ver (Vote.ledger_info v)) (LedgerInfoWithSignatures.signatures (collected p v)).
Proof.
  intros Hp Hv. destruct (vote_verified v (valid_verify v Hv)) as (_ & Hsig & _).
  unfold collected. destruct (li_digest_to_votes p !! _) as [l|] eqn:El; cbn.
  - apply (pending_li p Hp) in El as (Hd & Hin & Hall). apply Hinj in Hd; [|done | apply Hv]. rewrite Hd in *.
    split; [done|]. case_match; [done|]. by apply map_Forall_insert_2.
  - split; [done|]. rewrite lookup_empty. by apply map_Forall_insert_2, map_Forall_empty.
Qed.

Lemma quorum_cert_verifies v l : valid_vote v ->
  LedgerInfoWithSignatures.ledger_info l = Vote.ledger_info v ->
  map_Forall (signed_by ver (Vote.ledger_info v)) (LedgerInfoWithSignatures.signatures l) ->
  ValidatorVerifier.check_voting_power ver (btree_iter (LedgerInfoWithSignatures.signatures l)).*1 = Ok tt ->
  QuorumCert.verify (QuorumCert.new (Vote.vote_data v) l) ver = Ok tt.
Proof.
  intros Hv Hl Hall Hq. destruct (vote_verified v (valid_verify v Hv)) as (Hh & _ & _ & _ & Hd).
  unfold QuorumCert.verify, QuorumCert.ledger_info, QuorumCert.certified_block. cbn. rewrite Hl.
  rewrite (bool_decide_eq_true_2 _ Hh). cbn.
  rewrite (proj2 (Z.eqb_neq _ _)) by (rewrite (valid_round v Hv); done).
  unfold LedgerInfoWithSignatures.verify_signatures, context. rewrite Hl.
  rewrite batch_verify_aggregated_eq by done. apply check_voting_power_Ok in Hq as [_ Hq]; [|done | apply NoDup_btree_keys].
  by rewrite (proj2 (verify_aggregated_Ok ver (Vote.ledger_info v) _ Hver)).
Qed.

Lemma insert_vote_ok p v : pending_ok p -> valid_vote v ->
  let res := insert_vote p v ver in pending_ok res.1 /\ result_ok res.2.
Proof.
  intros Hp Hv. unfold insert_vote. destruct (previous_vote p v) as [res|] eqn:Hprev.
  { split; [done|]. unfold previous_vote in Hprev. repeat case_match; by simplify_eq. }
  cbv zeta. fold (collected p v). destruct (collected_ok p v Hp Hv) as [Hl Hall].
  set (p' := mk (<[_ := collected p v]> _) _ _ _).
  assert (forall tc, maybe_partial_2chain_tc p = Some tc ->
    TwoChainTimeoutCertificate.signatures tc !! Vote.author v = None) as Hnew.
  { intros tc Htc. destruct (TwoChainTimeoutCertificate.signatures tc !! Vote.author v) eqn:Es; [|done].
    destruct (pending_2chain p Hp tc Htc) as [_ Hto]. destruct (Hto (Vote.author v)) as (prev & Hpr & Ht); [by eexists|].
    apply (previous_vote_None p v prev Hprev) in Hpr. congruence. }
  assert (pending_ok p') as Hp'.
  { destruct Hp as [Hli Htc H2]. split; cbn; [|done|].
    - intros d l [[<- <-]|[_ Hd]]%lookup_insert_Some; [|by apply Hli]. rewrite Hl. split_and!; [done | apply Hv | done].
    - intros tc Etc. destruct (H2 tc Etc) as [Hok Hto]. split; [done|]. intros a Ha.
      rewrite lookup_insert_ne; [by apply Hto|]. intros <-. rewrite (Hnew tc Etc) in Ha. by destruct Ha. }
  assert (recorded p' v) as Hrec by (split; [apply lookup_insert_eq | done]).
  case_match eqn:Hc; [|by apply insert_timeout_ok | by split..].
  split; [done|]. cbn. apply quorum_cert_verifies; [done..|]. by apply check_quorum_Reached.
Qed.
End soundness.

(** Inserting votes one after the other. *)
Fixpoint insert_votes `{Primitives} `{!CryptoHash VoteData.t} `{!CryptoHash LedgerInfo.t}
    `{!CryptoHash Timeout.t} `{!CryptoHash TimeoutSigningRepr.t}
    (p : PendingVotes.t) (ver : ValidatorVerifier.t) (vs : list Vote.t)
    : PendingVotes.t * list (outcome VerifyError.t PendingVotes.VoteReceptionResult) :=
  match vs with
  | [] => (p, [])
  | v :: vs =>
      let (p, res) := PendingVotes.insert_vote p v ver in
      let (p, rs) := insert_votes p ver vs in (p, res :: rs)
  end.

Section claims.
Context `{Primitives} `{!CryptoHash VoteData.t} `{!CryptoHash LedgerInfo.t}.
Context `{!CryptoHash Timeout.t} `{!CryptoHash TimeoutSigningRepr.t}.
Import PendingVotes.

Lemma new_ok ver e r seen : pending_ok ver e r seen new.
Proof. split; cbn; [|done..]. intros d l. by rewrite lookup_empty. Qed.

Lemma insert_votes_ok ver e r (seen : list LedgerInfo.t) vs : forall p, well_formed ver -> batch_verify_sound (T := LedgerInfo.t) ->
  r <> 0 -> (forall li li', li ∈ seen -> li' ∈ seen -> crypto_hash li = crypto_hash li' -> li = li') ->
  Forall (valid_vote ver e r seen) vs -> pending_ok ver e r seen p ->
  pending_ok ver e r seen (insert_votes p ver vs).1 /\ Forall (result_ok ver) (insert_votes p ver vs).2.
Proof.
  induction vs as [|v vs IH]; intros p Hver Hb Hr Hinj Hvs Hp; [done|]. apply Forall_cons in Hvs as [Hv Hvs].
  cbn [insert_votes].
  destruct (insert_vote_ok ver Hver Hb e r seen Hr Hinj p v Hp Hv) as [Hp' Hres].
  destruct (insert_vote p v ver) as [p' res]. specialize (IH p' Hver Hb Hr Hinj Hvs Hp').
  destruct (insert_votes p' ver vs) as [p'' rs]. cbn in *. split; [apply IH | constructor; [done | apply IH]].
Qed.

(** C14: Certificates formed from verified votes verify. When every vote that is
    inserted passed [Vote::verify], is of the current epoch and round, and the
    ledger infos voted for have distinct digests, then every quorum
    certificate, timeout certificate and 2-chain timeout certificate
    [insert_vote] returns passes its own [verify], in whatever order votes,
    timeout votes, duplicates and equivocations arrive. *)
Theorem pending_votes_sound ver e r (seen : list LedgerInfo.t) vs : well_formed ver -> batch_verify_sound (T := LedgerInfo.t) ->
  r <> 0 -> (forall li li', li ∈ seen -> li' ∈ seen -> crypto_hash li = crypto_hash li' -> li = li') ->
  Forall (valid_vote ver e r seen) vs ->
  forall res, Ok res ∈ (insert_votes new ver vs).2 ->
    (forall qc, res = NewQuorumCertificate qc -> QuorumCert.verify qc ver = Ok tt) /\
    (forall tc, res = NewTimeoutCertificate tc -> TimeoutCertificate.verify tc ver = Ok tt) /\
    (forall tc, res = New2ChainTimeoutCertificate tc -> TwoChainTimeoutCertificate.verify tc ver = Ok tt).
Proof.
  intros Hver Hb Hr Hinj Hvs res Hin.
  destruct (insert_votes_ok ver e r seen vs new Hver Hb Hr Hinj Hvs (new_ok ver e r seen)) as [_ Hall].
  rewrite Forall_forall in Hall. apply Hall in Hin. split_and!; by intros ? ->.
Qed.

(** *** Votes reach a certificate *)

(** The authors that voted for a ledger info. *)
Definition voters (li : LedgerInfo.t) (vs : list Vote.t) : list AccountAddress :=
  Vote.author <$> filter (fun v => Vote.ledger_info v = li) vs.

(** The signatures collected for the digest of a ledger info. *)
Definition signatures_for (p : t) (li : LedgerInfo.t) : gmap AccountAddress Signature :=
  from_option LedgerInfoWithSignatures.signatures ∅ (li_digest_to_votes p !! crypto_hash li).

(** The votes [vs] are in: every author is recorded and every ledger info has
    the signatures of its voters. *)
Definition holds (seen : list LedgerInfo.t) (p : t) (vs : list Vote.t) : Prop :=
  (forall a, is_Some (author_to_vote p !! a) <-> a ∈ Vote.author <$> vs) /\
  (forall li, li ∈ seen -> forall a, is_Some (signatures_for p li !! a) <-> a ∈ voters li vs).

Lemma insert_timeout_frame p v ver n : let p' := (insert_timeout p v ver n).1 in
  li_digest_to_votes p' = li_digest_to_votes p /\ author_to_vote p' = author_to_vote p.
Proof. unfold insert_timeout, insert_2chain_timeout. repeat case_match; done. Qed.

(** A first vote of an author is recorded with its signature. *)
Lemma insert_vote_frame p v ver : author_to_vote p !! Vote.author v = None ->
  let p' := (insert_vote p v ver).1 in
  author_to_vote p' = <[Vote.author v := v]> (author_to_vote p) /\
  li_digest_to_votes p' = <[crypto_hash (Vote.ledger_info v) := collected p v]> (li_digest_to_votes p).
Proof.
  intros Hn. unfold insert_vote, previous_vote. rewrite Hn. cbv zeta. fold (collected p v).
  case_match; try done. by destruct (insert_timeout_frame (mk (<[crypto_hash (Vote.ledger_info v) := collected p v]> (li_digest_to_votes p))
    (maybe_partial_tc p) (maybe_partial_2chain_tc p) (<[Vote.author v := v]> (author_to_vote p))) v ver voting_power).
Qed.

Lemma collected_signers p v a :
  is_Some (LedgerInfoWithSignatures.signatures (collected p v) !! a) <->
  a = Vote.author v \/ is_Some (signatures_for p (Vote.ledger_info v) !! a).
Proof.
  unfold collected, signatures_for. destruct (li_digest_to_votes p !! _) as [l|]; cbn.
  - case_match eqn:E.
    + split; [auto|]. intros [->|?]; [by rewrite E | done].
    + rewrite lookup_insert_is_Some. destruct (decide (a = Vote.author v)); naive_solver.
  - rewrite lookup_empty. rewrite lookup_insert_is_Some. destruct (decide (a = Vote.author v)); naive_solver.
Qed.

Lemma voters_app li vs vs' : voters li (vs ++ vs') = voters li vs ++ voters li vs'.
Proof. unfold voters. by rewrite filter_app, fmap_app. Qed.

Lemma elem_of_voters li vs a : a ∈ voters li vs -> a ∈ Vote.author <$> vs.
Proof.
  unfold voters. intros (v & -> & [_ Hv]%list_elem_of_filter)%list_elem_of_fmap. by apply list_elem_of_fmap_2.
Qed.

Lemma NoDup_voters li vs : NoDup (Vote.author <$> vs) -> NoDup (voters li vs).
Proof.
  induction vs as [|v vs IH]; [constructor|]. rewrite fmap_cons. intros [Hv Hn]%NoDup_cons. specialize (IH Hn).
  unfold voters. rewrite filter_cons. case_decide; [|done]. rewrite fmap_cons. constructor; [|done].
  by intros ?%elem_of_voters.
Qed.

Section reach.
Context (ver : ValidatorVerifier.t) (seen : list LedgerInfo.t).
Context (Hinj : forall li li', li ∈ seen -> li' ∈ seen -> crypto_hash li = crypto_hash li' -> li = li').

Lemma holds_insert p vs v : holds seen p vs -> Vote.author v ∉ Vote.author <$> vs -> Vote.ledger_info v ∈ seen ->
  author_to_vote p !! Vote.author v = None /\ holds seen (insert_vote p v ver).1 (vs ++ [v]).
Proof.
  intros [Ha Hs] Hnew Hseen.
  assert (author_to_vote p !! Vote.author v = None) as Hn.
  { apply eq_None_not_Some. by rewrite Ha. }
  split; [done|]. destruct (insert_vote_frame p v ver Hn) as [Hauth Hli]. split.
  - intros a. rewrite Hauth, lookup_insert_is_Some, fmap_app, elem_of_app, <- Ha. cbn.
    rewrite list_elem_of_singleton. destruct (decide (a = Vote.author v)); naive_solver.
  - intros li Hin a. rewrite voters_app, elem_of_app, <- Hs by done.
    unfold signatures_for at 1. rewrite Hli. destruct (decide (Vote.ledger_info v = li)) as [<-|Hne].
    + rewrite lookup_insert_eq. cbn [from_option]. rewrite collected_signers. unfold voters.
      rewrite filter_cons_True by done. cbn. rewrite list_elem_of_singleton. naive_solver.
    + rewrite lookup_insert_ne by (intros Heq; apply Hne; by apply Hinj).
      unfold voters. rewrite filter_cons_False by done. cbn. rewrite elem_of_nil.
      fold (signatures_for p li). naive_solver.
Qed.

Lemma insert_votes_app p vs vs' :
  insert_votes p ver (vs ++ vs') =
  let (p', rs) := insert_votes p ver vs in let (p'', rs') := insert_votes p' ver vs' in (p'', rs ++ rs').
Proof.
  revert p. induction vs as [|v vs IH]; intros p; cbn [insert_votes app].
  - by destruct (insert_votes p ver vs').
  - destruct (insert_vote p v ver) as [p1 res]. rewrite IH.
    destruct (insert_votes p1 ver vs) as [p2 rs]. by destruct (insert_votes p2 ver vs').
Qed.

Lemma holds_votes vs : NoDup (Vote.author <$> vs) -> Forall (fun v => Vote.ledger_info v ∈ seen) vs ->
  holds seen (insert_votes new ver vs).1 vs.
Proof.
  induction vs as [|v vs IH] using rev_ind; intros Hn Hs.
  - split; [intros a | intros li _ a]; unfold signatures_for; cbn; rewrite lookup_empty, elem_of_nil;
      (split; [by intros [] | done]).
  - rewrite fmap_app in Hn. apply NoDup_app in Hn as (Hn & Hd & _). apply Forall_app in Hs as [Hs Hv].
    apply Forall_cons in Hv as [Hv _]. rewrite insert_votes_app. specialize (IH Hn Hs).
    destruct (insert_votes new ver vs) as [p rs]. cbn in IH.
    assert (Vote.author v ∉ Vote.author <$> vs) as Hnew by (intros Hin; apply (Hd _ Hin); left).
    destruct (holds_insert p vs v IH Hnew Hv) as [_ Hh]. cbn.
    by destruct (insert_vote p v ver).
Qed.

(** With the voters of its ledger info the signers reach the quorum. *)
Lemma last_vote_certifies p vs v : well_formed ver -> holds seen p vs ->
  Vote.author v ∉ Vote.author <$> vs -> Vote.ledger_info v ∈ seen ->
  Forall (fun a => is_Some (ValidatorVerifier.address_to_validator_info ver !! a)) (voters (Vote.ledger_info v) (vs ++ [v])) ->
  ValidatorVerifier.quorum_voting_power ver
    <= power (ValidatorVerifier.address_to_validator_info ver) (voters (Vote.ledger_info v) (vs ++ [v])) ->
  NoDup (voters (Vote.ledger_info v) (vs ++ [v])) ->
  (insert_vote p v ver).2 = Ok (NewQuorumCertificate (QuorumCert.new (Vote.vote_data v) (collected p v))).
Proof.
  intros Hver Hh Hnew Hseen Hk Hq Hn. destruct (holds_insert p vs v Hh Hnew Hseen) as [Hnone [_ Hs]].
  destruct (insert_vote_frame p v ver Hnone) as [_ Hli].
  specialize (Hs _ Hseen). unfold signatures_for in Hs. rewrite Hli, lookup_insert_eq in Hs. cbn [from_option] in Hs.
  assert ((btree_iter (LedgerInfoWithSignatures.signatures (collected p v))).*1 ≡ₚ voters (Vote.ledger_info v) (vs ++ [v])) as Hperm.
  { apply NoDup_Permutation; [apply NoDup_btree_keys | done|]. intros a. by rewrite elem_of_btree_keys. }
  unfold insert_vote, previous_vote. rewrite Hnone. cbv zeta. fold (collected p v). unfold check_quorum.
  rewrite (proj2 (check_voting_power_Ok ver (btree_iter (LedgerInfoWithSignatures.signatures (collected p v))).*1 Hver (NoDup_btree_keys _))); [done|].
  by rewrite Hperm.
Qed.
End reach.

(** C26: The votes of a quorum form a quorum certificate. If authors vote once
    each, for whichever ledger infos with distinct digests and in any order,
    and with the last vote the known voters of its ledger info reach the quorum
    voting power, then inserting that vote returns [NewQuorumCertificate] for
    its ledger info and vote data. *)
Theorem quorum_votes_certify ver (seen : list LedgerInfo.t) vs v : well_formed ver ->
  (forall li li', li ∈ seen -> li' ∈ seen -> crypto_hash li = crypto_hash li' -> li = li') ->
  Forall (fun w => Vote.ledger_info w ∈ seen) (vs ++ [v]) -> NoDup (Vote.author <$> vs ++ [v]) ->
  let voted := voters (Vote.ledger_info v) (vs ++ [v]) in
  Forall (fun a => is_Some (ValidatorVerifier.address_to_validator_info ver !! a)) voted ->
  ValidatorVerifier.quorum_voting_power ver <= power (ValidatorVerifier.address_to_validator_info ver) voted ->
  exists l, last (insert_votes new ver (vs ++ [v])).2
              = Some (Ok (NewQuorumCertificate (QuorumCert.new (Vote.vote_data v) l))) /\
    forall a, is_Some (LedgerInfoWithSignatures.signatures l !! a) <-> a ∈ voted.
Proof.
  intros Hver Hinj Hs Hn voted Hk Hq. pose proof (NoDup_voters (Vote.ledger_info v) _ Hn) as Hnv.
  rewrite fmap_app in Hn. apply NoDup_app in Hn as (Hn & Hd & _). apply Forall_app in Hs as [Hs Hv].
  apply Forall_cons in Hv as [Hv _].
  assert (Vote.author v ∉ Vote.author <$> vs) as Hnew by (intros Hin; apply (Hd _ Hin); left).
  pose proof (holds_votes ver seen Hinj vs Hn Hs) as Hh. rewrite insert_votes_app.
  destruct (insert_votes new ver vs) as [p rs]. cbn in Hh.
  pose proof (last_vote_certifies ver seen Hinj p vs v Hver Hh Hnew Hv Hk Hq Hnv) as Hres.
  destruct (holds_insert ver seen Hinj p vs v Hh Hnew Hv) as [Hnone [_ Hsig]].
  destruct (insert_vote_frame p v ver Hnone) as [_ Hli].
  exists (collected p v). split.
  - cbn. destruct (insert_vote p v ver) as [p' res]. cbn in *. by rewrite last_snoc, Hres.
  - specialize (Hsig _ Hv). unfold signatures_for in Hsig. by rewrite Hli, lookup_insert_eq in Hsig.
Qed.
End claims.

(** ** Concrete votes *)
#[local] Existing Instance toy_primitives.
#[local] Instance any_signature : ConsensusCrypto := toy_consensus (fun _ _ => true) (fun _ _ => true).

(** The vote of validator [a] in round 1; validators from 3 on also time out. *)
Definition sample_vote (a : Z) : Vote.t :=
  let li := toy_ledger_info 1 (toy_genesis_qc 1) in
  let timeout := toy_timeout 1 1 (toy_genesis_qc 1) in
  Vote.mk (toy_vote_data 1 (toy_genesis_qc 1)) a li (sign (T := LedgerInfo.t) a li) None
    (if 3 <=? a then Some (timeout, sign (T := TimeoutSigningRepr.t) a (TwoChainTimeout.signing_format timeout)) else None).

Definition sample_seen : list LedgerInfo.t := [toy_ledger_info 1 (toy_genesis_qc 1)].

Lemma sample_distinct (li li' : LedgerInfo.t) : li ∈ sample_seen -> li' ∈ sample_seen ->
  crypto_hash (T := LedgerInfo.t) li = crypto_hash li' -> li = li'.
Proof. unfold sample_seen. rewrite !list_elem_of_singleton. congruence. Qed.

Lemma sample_valid : Forall (valid_vote four_verifier 1 1 sample_seen) (sample_vote <$> [2; 3; 4]).
Proof.
  repeat constructor; try (vm_compute; reflexivity).
  all: intros t s Hts; vm_compute in Hts; try discriminate Hts; injection Hts as <- _; vm_compute; discriminate.
Qed.

Lemma pending_votes_sound_witness : exists qc,
  last (insert_votes PendingVotes.new four_verifier (sample_vote <$> [2; 3; 4])).2
    = Some (Ok (PendingVotes.NewQuorumCertificate qc)) /\
  QuorumCert.verify qc four_verifier = Ok tt.
Proof.
  assert (exists r1 r2 qc, (insert_votes PendingVotes.new four_verifier (sample_vote <$> [2; 3; 4])).2
    = [r1; r2; Ok (PendingVotes.NewQuorumCertificate qc)]) as (r1 & r2 & qc & E).
  { eexists _, _, _. vm_compute. reflexivity. }
  assert (Ok (PendingVotes.NewQuorumCertificate qc)
    ∈ (insert_votes PendingVotes.new four_verifier (sample_vote <$> [2; 3; 4])).2) as Hin
    by (rewrite E; right; right; left).
  exists qc. rewrite E. split; [reflexivity|].
  refine (proj1 (pending_votes_sound four_verifier 1 1 sample_seen (sample_vote <$> [2; 3; 4])
    four_well_formed (checked_batch_sound _ _) _ sample_distinct sample_valid
    (PendingVotes.NewQuorumCertificate qc) Hin) qc eq_refl).
  discriminate.
Defined.

Lemma quorum_votes_certify_witness : exists l,
  last (insert_votes PendingVotes.new four_verifier ((sample_vote <$> [2; 3]) ++ [sample_vote 4])).2
    = Some (Ok (PendingVotes.NewQuorumCertificate (QuorumCert.new (Vote.vote_data (sample_vote 4)) l))).
Proof.
  destruct (quorum_votes_certify four_verifier sample_seen (sample_vote <$> [2; 3]) (sample_vote 4)
    four_well_formed sample_distinct) as (l & Hl & _).
  - eapply Forall_impl; [exact sample_valid|]. intros w Hw. exact (valid_seen _ _ _ _ w Hw).
  - apply (bool_decide_unpack _). vm_compute. exact I.
  - apply (bool_decide_unpack _). vm_compute. exact I.
  - vm_compute. discriminate.
  - exists l. exact Hl.
Defined.
