(* ===== verification/RoundState.v ===== *)
(** * Rounds (consensus/src/liveness/round_state.rs)

    The current round of a validator: it starts when a certificate of the
    round before arrives, collects the votes of the round and times out. The
    theorems: rounds only grow, each new round is announced once, and the
    certificates formed in a round are of that round and verify. *)
From stdpp Require Import prelude gmap strings sorting.
From Stdlib Require Import ZArith Lia.
From S2P Require Import Prelude Bits HashValues Primitives ValidatorVerifier LedgerInfo EpochChange ConsensusTypes Blocks ConsensusMsgs SafetyRules ConsensusExample PendingVotes.

(** Durations and points in time are in milliseconds and unbounded: the panic of
    the addition of two [Duration]s of more than 2^64 seconds together is not in
    the model. The interval a round lasts is a trait object
    ([RoundTimeInterval]). *)
Module RoundState.
Section state.
Context `{Primitives} `{!CryptoHash VoteData.t} `{!CryptoHash LedgerInfo.t}.
Context `{!CryptoHash Timeout.t} `{!CryptoHash TimeoutSigningRepr.t}.

Inductive NewRoundReason := QCReady | TimeoutReason.

Record NewRoundEvent := mk_NewRoundEvent {
  event_round : Z;
  event_reason : NewRoundReason;
  event_timeout : Z
}.

(** [abort_handle] stands for the timer task that is pending: when it fires
    and for which round it sends a timeout. *)
Record t := mk {
  time_interval : Z -> Z;
  highest_committed_round : Z;
  current_round : Z;
  current_round_deadline : Z;
  pending_votes : PendingVotes.t;
  vote_sent : option Vote.t;
  abort_handle : option (Z * Z)
}.

Definition new (time_interval : Z -> Z) (now : Z) : t :=
  mk time_interval 0 0 now PendingVotes.new None None.

Definition round_index_after_committed_round (self : t) : Z :=
  if highest_committed_round self =? 0 then (current_round self - 1)%u64
  else if current_round self <? (highest_committed_round self + 3)%u64 then 0
  else (current_round self - highest_committed_round self - 3)%u64.

Definition setup_deadline (self : t) (now : Z) : t * Z :=
  let timeout := time_interval self (round_index_after_committed_round self) in
  (mk (time_interval self) (highest_committed_round self) (current_round self) (now + timeout)
     (pending_votes self) (vote_sent self) (abort_handle self), timeout).

(** The previous timer task is replaced and aborted. *)
Definition setup_timeout (self : t) (now : Z) : t * Z :=
  let '(self, timeout) := setup_deadline self now in
  (mk (time_interval self) (highest_committed_round self) (current_round self) (current_round_deadline self)
     (pending_votes self) (vote_sent self) (Some (now + timeout, current_round self)), timeout).

Definition process_local_timeout (self : t) (round now : Z) : t * bool :=
  if negb (round =? current_round self) then (self, false)
  else let '(self, _) := setup_timeout self now in (self, true).

Definition process_certificates (self : t) (sync_info : SyncInfo.t) (now : Z) : t * option NewRoundEvent :=
  let self :=
    if highest_committed_round self <? SyncInfo.highest_ordered_round sync_info
    then mk (time_interval self) (SyncInfo.highest_ordered_round sync_info) (current_round self)
           (current_round_deadline self) (pending_votes self) (vote_sent self) (abort_handle self)
    else self in
  let new_round := (SyncInfo.highest_round sync_info + 1)%u64 in
  if current_round self <? new_round then
    let self := mk (time_interval self) (highest_committed_round self) new_round (current_round_deadline self)
      PendingVotes.new None (abort_handle self) in
    let '(self, timeout) := setup_timeout self now in
    let new_round_reason :=
      if (SyncInfo.highest_certified_round sync_info + 1)%u64 =? new_round then QCReady else TimeoutReason in
    (self, Some (mk_NewRoundEvent (current_round self) new_round_reason timeout))
  else (self, None).

Definition insert_vote (self : t) (vote : Vote.t) (verifier : ValidatorVerifier.t)
    : t * outcome VerifyError.t PendingVotes.VoteReceptionResult :=
  if BlockInfo.round (VoteData.proposed (Vote.vote_data vote)) =? current_round self then
    let (votes, result) := PendingVotes.insert_vote (pending_votes self) vote verifier in
    (mk (time_interval self) (highest_committed_round self) (current_round self) (current_round_deadline self)
       votes (vote_sent self) (abort_handle self), result)
  else (self, Ok (PendingVotes.UnexpectedRound (BlockInfo.round (VoteData.proposed (Vote.vote_data vote)))
                    (current_round self))).

Definition record_vote (self : t) (vote : Vote.t) : t :=
  if BlockInfo.round (VoteData.proposed (Vote.vote_data vote)) =? current_round self then
    mk (time_interval self) (highest_committed_round self) (current_round self) (current_round_deadline self)
      (pending_votes self) (Some vote) (abort_handle self)
  else self.
End state.
Arguments t {_}.
End RoundState.

(** ** Runs *)
Section runs.
Context `{Primitives} `{!CryptoHash VoteData.t} `{!CryptoHash LedgerInfo.t}.
Context `{!CryptoHash Timeout.t} `{!CryptoHash TimeoutSigningRepr.t}.
Import RoundState.

(** What reaches the round state, with the time it arrives. *)
Inductive input :=
| LocalTimeout (round now : Z)
| Certificates (sync_info : SyncInfo.t) (now : Z)
| ReceivedVote (vote : Vote.t)
| SentVote (vote : Vote.t).

Inductive output :=
| TimedOut (fired : bool)
| NewRound (event : option NewRoundEvent)
| Reception (result : outcome VerifyError.t PendingVotes.VoteReceptionResult)
| Recorded.

Definition react (ver : ValidatorVerifier.t) (i : input) (s : t) : t * output :=
  match i with
  | LocalTimeout round now => let (s, b) := process_local_timeout s round now in (s, TimedOut b)
  | Certificates sync_info now => let (s, e) := process_certificates s sync_info now in (s, NewRound e)
  | ReceivedVote vote => let (s, r) := insert_vote s vote ver in (s, Reception r)
  | SentVote vote => (record_vote s vote, Recorded)
  end.

(** The states and outputs of a sequence of inputs. *)
Fixpoint trace (ver : ValidatorVerifier.t) (inputs : list input) (s : t) : list (t * output) :=
  match inputs with
  | [] => []
  | i :: inputs => let (s', o) := react ver i s in (s', o) :: trace ver inputs s'
  end.

Definition announced (o : output) : option Z :=
  match o with NewRound (Some event) => Some (event_round event) | _ => None end.

(** The new round an input offers. *)
Definition offered (i : input) : option Z :=
  match i with Certificates sync_info _ => Some (SyncInfo.highest_round sync_info + 1)%u64 | _ => None end.

(** An input keeps the round, or starts a higher one and announces it. *)
Lemma react_round ver i s : let (s', o) := react ver i s in
  current_round s' = from_option (Z.max (current_round s)) (current_round s) (offered i) /\
  ((current_round s' = current_round s /\ announced o = None) \/
   (current_round s < current_round s' /\ announced o = Some (current_round s'))).
Proof.
  destruct i as [round now|sync now|vote|vote]; cbn.
  - unfold process_local_timeout, setup_timeout, setup_deadline. destruct (negb _); cbn; auto.
  - unfold process_certificates, setup_timeout, setup_deadline. set (r := (_ + 1)%u64). cbv zeta.
    destruct (highest_committed_round s <? _); cbn [current_round];
      (destruct (Z.ltb_spec (current_round s) r); cbn; (split; [lia | auto])).
  - unfold insert_vote. destruct (_ =? _); [|cbn; auto]. destruct (PendingVotes.insert_vote _ _ _). cbn. auto.
  - unfold record_vote. destruct (_ =? _); cbn; auto.
Qed.

(** What holds of every state: the timer, the vote sent and the votes received
    are of the current round. *)
Record round_ok (s : t) : Prop := {
  ok_timer deadline round : abort_handle s = Some (deadline, round) ->
    round = current_round s /\ deadline = current_round_deadline s;
  ok_sent v : vote_sent s = Some v -> BlockInfo.round (VoteData.proposed (Vote.vote_data v)) = current_round s;
  ok_votes a v : PendingVotes.author_to_vote (pending_votes s) !! a = Some v ->
    BlockInfo.round (VoteData.proposed (Vote.vote_data v)) = current_round s
}.

(** The recorded votes after an insertion are those before and the new one. *)
Lemma insert_vote_authors p v ver a w :
  PendingVotes.author_to_vote (PendingVotes.insert_vote p v ver).1 !! a = Some w ->
  w = v \/ PendingVotes.author_to_vote p !! a = Some w.
Proof.
  unfold PendingVotes.insert_vote. destruct (PendingVotes.previous_vote p v); [by auto|]. cbv zeta.
  assert (forall q n, PendingVotes.author_to_vote q = <[Vote.author v := v]> (PendingVotes.author_to_vote p) ->
    PendingVotes.author_to_vote (PendingVotes.insert_timeout q v ver n).1 !! a = Some w ->
    w = v \/ PendingVotes.author_to_vote p !! a = Some w) as Hq.
  { intros q n Hq. destruct (insert_timeout_frame q v ver n) as [_ ->]. rewrite Hq.
    intros [[_ ->]|[_ ?]]%lookup_insert_Some; auto. }
  case_match; [| by apply Hq | |]; cbn; intros [[_ ->]|[_ ?]]%lookup_insert_Some; auto.
Qed.

Lemma round_ok_new interval now : round_ok (new interval now).
Proof. split; cbn; [done | done|]. intros a v. by rewrite lookup_empty. Qed.

Lemma round_ok_react ver i s : round_ok s -> round_ok (react ver i s).1.
Proof.
  intros [Ht Hs Hv]. destruct i as [round now|sync now|vote|vote]; cbn.
  - unfold process_local_timeout, setup_timeout, setup_deadline. destruct (negb _); cbn; [done|].
    split; cbn; [by intros ? ? [= <- <-] | done..].
  - unfold process_certificates, setup_timeout, setup_deadline. cbv zeta.
    destruct (highest_committed_round s <? _); cbn [current_round];
      (destruct (current_round s <? _); cbn;
       [split; cbn; [by intros ? ? [= <- <-] | done | intros a v; by rewrite lookup_empty] | done]).
  - unfold insert_vote. destruct (Z.eqb_spec (BlockInfo.round (VoteData.proposed (Vote.vote_data vote))) (current_round s)) as [Hr|]; [|done].
    pose proof (insert_vote_authors (pending_votes s) vote ver) as Ha.
    destruct (PendingVotes.insert_vote _ _ _) as [p res]. split; cbn; [done | done|].
    intros a v [->|]%Ha; [done | by eapply Hv].
  - unfold record_vote. destruct (Z.eqb_spec (BlockInfo.round (VoteData.proposed (Vote.vote_data vote))) (current_round s)); [|done].
    split; cbn; [done | by intros ? [= <-] | done].
Qed.

Lemma trace_round_ok ver inputs : forall s, round_ok s -> Forall (fun x => round_ok x.1) (trace ver inputs s).
Proof.
  induction inputs as [|i inputs IH]; intros s Hs; cbn; [constructor|].
  apply (round_ok_react ver i) in Hs. destruct (react ver i s) as [s' o]. constructor; auto.
Qed.

(** The announced rounds grow from the current one. *)
Lemma trace_announced ver inputs : forall s,
  StronglySorted Z.lt (current_round s :: omap (fun x => announced x.2) (trace ver inputs s)).
Proof.
  induction inputs as [|i inputs IH]; intros s; cbn; [by repeat constructor|].
  pose proof (react_round ver i s) as Hr. destruct (react ver i s) as [s' o].
  destruct Hr as [_ [[Hr Ho]|[Hr Ho]]]; cbn; rewrite Ho; specialize (IH s'); [by rewrite Hr in IH|].
  constructor; [done|]. apply StronglySorted_inv in IH as [_ Hall].
  constructor; [done|]. eapply Forall_impl; [exact Hall|]. cbn. lia.
Qed.

(** The state after the inputs. *)
Definition final (ver : ValidatorVerifier.t) (inputs : list input) (s : t) : t :=
  foldl (fun s i => (react ver i s).1) s inputs.

Lemma final_round ver inputs : forall s,
  current_round (final ver inputs s) = foldl Z.max (current_round s) (omap offered inputs).
Proof.
  induction inputs as [|i inputs IH]; intros s; cbn; [done|].
  fold (final ver inputs (react ver i s).1). rewrite IH. pose proof (react_round ver i s) as Hr.
  destruct (react ver i s) as [s' o]. destruct Hr as [Hr _]. cbn. rewrite Hr. by destruct (offered i).
Qed.

(** C27: Rounds are monotone, and the round state stays of one round. Over any
    sequence of certificates, votes and timer events, from the initial state:
    the announced rounds ([NewRoundEvent]) strictly increase; the current round
    is the highest round offered by the certificates so far, one more than that
    of the highest certificate; and in every state the pending timer, the vote
    sent and the votes received are of the current round. *)
Theorem round_state_monotone ver interval start inputs :
  let s := new interval start in
  StronglySorted Z.lt (omap (fun x => announced x.2) (trace ver inputs s)) /\
  current_round (final ver inputs s) = foldl Z.max 0 (omap offered inputs) /\
  Forall (fun x => round_ok x.1) (trace ver inputs s).
Proof.
  intros s. split_and!.
  - by pose proof (StronglySorted_inv (trace_announced ver inputs s)) as [? _].
  - apply final_round.
  - apply trace_round_ok, round_ok_new.
Qed.

(** *** Certificates *)

(** The round of the certificate that a vote completes. *)
Definition certificate_round (res : outcome VerifyError.t PendingVotes.VoteReceptionResult) : option Z :=
  match res with
  | Ok (PendingVotes.NewQuorumCertificate qc) => Some (BlockInfo.round (QuorumCert.certified_block qc))
  | Ok (PendingVotes.NewTimeoutCertificate tc) => Some (TimeoutCertificate.round tc)
  | Ok (PendingVotes.New2ChainTimeoutCertificate tc) => Some (TwoChainTimeoutCertificate.round tc)
  | _ => None
  end.

(** A certificate that is returned is the partial certificate in the state, or
    certifies the proposal of the vote. *)
Lemma returned_certificate p v ver : let res := PendingVotes.insert_vote p v ver in
  match res.2 with
  | Ok (PendingVotes.NewQuorumCertificate qc) => QuorumCert.vote_data qc = Vote.vote_data v
  | Ok (PendingVotes.NewTimeoutCertificate tc) => PendingVotes.maybe_partial_tc res.1 = Some tc
  | Ok (PendingVotes.New2ChainTimeoutCertificate tc) => PendingVotes.maybe_partial_2chain_tc res.1 = Some tc
  | _ => True
  end.
Proof.
  unfold PendingVotes.insert_vote, PendingVotes.previous_vote, PendingVotes.insert_timeout,
    PendingVotes.insert_2chain_timeout.
  repeat (case_match; simplify_eq/=; try done).
Qed.

Section certificates.
Context (ver : ValidatorVerifier.t) (Hver : well_formed ver) (Hbatch : batch_verify_sound (T := LedgerInfo.t)).
Context (e : Z) (seen : list LedgerInfo.t).
Context (Hinj : forall li li', li ∈ seen -> li' ∈ seen -> crypto_hash li = crypto_hash li' -> li = li').

(** The votes among the inputs are verified, of the epoch; their rounds are
    those of proposals, after genesis. *)
Definition vote_input_ok (i : input) : Prop :=
  match i with
  | ReceivedVote v =>
      let r := BlockInfo.round (VoteData.proposed (Vote.vote_data v)) in r <> 0 /\ valid_vote ver e r seen v
  | _ => True
  end.

Definition votes_ok (s : t) : Prop := pending_ok ver e (current_round s) seen (pending_votes s).

Lemma certificate_of_round r p v : r <> 0 -> pending_ok ver e r seen p -> valid_vote ver e r seen v ->
  let res := PendingVotes.insert_vote p v ver in
  forall r', certificate_round res.2 = Some r' -> r' = r.
Proof.
  intros Hr Hp Hv res r'. destruct (insert_vote_ok ver Hver Hbatch e r seen Hr Hinj p v Hp Hv) as [Hp' _].
  pose proof (returned_certificate p v ver) as Hret. fold res in Hp', Hret. cbv zeta in Hret.
  destruct res as [p' [[]| |]]; cbn in *; intros [= <-]; [|by destruct (pending_tc _ _ _ _ _ Hp' _ Hret) as [Ht _]; unfold TimeoutCertificate.round; rewrite Ht|].
  - unfold QuorumCert.certified_block. rewrite Hret. apply Hv.
  - by destruct (pending_2chain _ _ _ _ _ Hp' _ Hret) as [[] _].
Qed.

Lemma votes_ok_react i s : votes_ok s -> vote_input_ok i ->
  votes_ok (react ver i s).1 /\
  forall res, (react ver i s).2 = Reception res ->
    result_ok ver res /\ forall r, certificate_round res = Some r -> r = current_round (react ver i s).1.
Proof.
  intros Hs Hi. destruct i as [round now|sync now|v|v]; cbn.
  - unfold process_local_timeout, setup_timeout, setup_deadline. destruct (negb _); cbn; (split; [done | by intros ? ?]).
  - split; [|by destruct (process_certificates s sync now)].
    unfold process_certificates, setup_timeout, setup_deadline. cbv zeta.
    destruct (highest_committed_round s <? _); cbn [current_round];
      (destruct (current_round s <? _); cbn; [apply new_ok | done]).
  - unfold insert_vote. destruct (Z.eqb_spec (BlockInfo.round (VoteData.proposed (Vote.vote_data v))) (current_round s)) as [Hr|Hr].
    + destruct Hi as [H0 Hv]. rewrite Hr in H0, Hv. unfold votes_ok in *.
      pose proof (insert_vote_ok ver Hver Hbatch e _ seen H0 Hinj _ v Hs Hv) as [Hp Hres].
      pose proof (certificate_of_round _ _ v H0 Hs Hv) as Hc. cbv zeta in *.
      destruct (PendingVotes.insert_vote _ _ _) as [p res]. cbn in *. split; [done|]. by intros ? [= <-].
    + cbn. split; [done|]. by intros ? [= <-].
  - split; [|done]. unfold record_vote. by case_match.
Qed.

Lemma trace_votes_ok inputs : forall s, votes_ok s -> Forall vote_input_ok inputs ->
  Forall (fun x => forall res, x.2 = Reception res ->
    result_ok ver res /\ forall r, certificate_round res = Some r -> r = current_round x.1) (trace ver inputs s).
Proof.
  induction inputs as [|i inputs IH]; intros s Hs Hin; cbn; [constructor|].
  apply Forall_cons in Hin as [Hi Hin]. destruct (votes_ok_react i s Hs Hi) as [Hs' Ho].
  destruct (react ver i s) as [s' o]. constructor; auto.
Qed.
End certificates.

(** C15: The certificates of a run verify and are of its rounds. Votes that pass
    [Vote::verify] may arrive for any round, interleaved with certificates and
    timeouts that move the round; every certificate a vote completes passes its
    [verify] and is of the round that is current when it is formed: votes of
    different rounds are never aggregated. *)
Theorem round_state_certificates ver e (seen : list LedgerInfo.t) interval start inputs :
  well_formed ver -> batch_verify_sound (T := LedgerInfo.t) ->
  (forall li li', li ∈ seen -> li' ∈ seen -> crypto_hash li = crypto_hash li' -> li = li') ->
  Forall (vote_input_ok ver e seen) inputs ->
  forall s res, (s, Reception (Ok res)) ∈ trace ver inputs (new interval start) ->
    (forall qc, res = PendingVotes.NewQuorumCertificate qc -> QuorumCert.verify qc ver = Ok tt /\
       BlockInfo.round (QuorumCert.certified_block qc) = current_round s) /\
    (forall tc, res = PendingVotes.NewTimeoutCertificate tc -> TimeoutCertificate.verify tc ver = Ok tt /\
       TimeoutCertificate.round tc = current_round s) /\
    (forall tc, res = PendingVotes.New2ChainTimeoutCertificate tc ->
       TwoChainTimeoutCertificate.verify tc ver = Ok tt /\ TwoChainTimeoutCertificate.round tc = current_round s).
Proof.
  intros Hver Hb Hinj Hin s res Hs.
  assert (votes_ok ver e seen (new interval start)) as H0 by apply new_ok.
  pose proof (trace_votes_ok ver Hver Hb e seen Hinj inputs _ H0 Hin) as Hall.
  rewrite Forall_forall in Hall. destruct (Hall _ Hs _ eq_refl) as [Hok Hr].
  split_and!; intros ? ->; (split; [exact Hok | by apply Hr]).
Qed.
End runs.

(** ** A concrete round *)
#[local] Existing Instance toy_primitives.
#[local] Instance round_signature : ConsensusCrypto := toy_consensus (fun _ _ => true) (fun _ _ => true).

Definition genesis_sync_info : SyncInfo.t := SyncInfo.mk (toy_genesis_qc 1) None None None None.

(** A vote that is early, the certificate that starts round 1, a timeout and
    the votes of round 1. *)
Definition round_inputs : list input :=
  [ReceivedVote (sample_vote 2); Certificates genesis_sync_info 10; LocalTimeout 1 1010] ++
  (ReceivedVote ∘ sample_vote <$> [2; 3; 4]).

Lemma round_inputs_ok : Forall (vote_input_ok four_verifier 1 sample_seen) round_inputs.
Proof.
  pose proof (proj1 (Forall_fmap sample_vote _ _) sample_valid) as Hv. unfold round_inputs. apply Forall_app. split.
  - rewrite !Forall_cons. split_and!; [|done..]. split; [discriminate|].
    apply Forall_cons in Hv as [Hv _]. exact Hv.
  - apply Forall_fmap. eapply Forall_impl; [exact Hv|]. intros a Ha. split; [discriminate | exact Ha].
Qed.

Lemma round_inputs_certify : exists s qc,
  last (trace four_verifier round_inputs (RoundState.new (fun _ => 1000) 0))
    = Some (s, Reception (Ok (PendingVotes.NewQuorumCertificate qc))) /\
  (RoundState.current_round s, RoundState.current_round_deadline s) = (1, 2010).
Proof.
  assert (match last (trace four_verifier round_inputs (RoundState.new (fun _ => 1000) 0)) with
    | Some (s, Reception (Ok (PendingVotes.NewQuorumCertificate _))) =>
        (RoundState.current_round s =? 1) && (RoundState.current_round_deadline s =? 2010)
    | _ => false
    end = true) as E by (vm_compute; reflexivity).
  destruct (last _) as [[s [| |[[]| |]|]]|]; try discriminate E.
  apply andb_true_iff in E as [Hr%Z.eqb_eq Hd%Z.eqb_eq]. exists s, qc. by rewrite Hr, Hd.
Qed.

Lemma round_state_certificates_witness : exists s qc,
  last (trace four_verifier round_inputs (RoundState.new (fun _ => 1000) 0))
    = Some (s, Reception (Ok (PendingVotes.NewQuorumCertificate qc))) /\
  (RoundState.current_round s, RoundState.current_round_deadline s) = (1, 2010) /\
  QuorumCert.verify qc four_verifier = Ok tt /\
  BlockInfo.round (QuorumCert.certified_block qc) = RoundState.current_round s.
Proof.
  destruct round_inputs_certify as (s & qc & E & Hr). exists s, qc. split; [exact E|]. split; [exact Hr|].
  exact (proj1 (round_state_certificates four_verifier 1 sample_seen (fun _ => 1000) 0 round_inputs
    four_well_formed (checked_batch_sound _ _) sample_distinct round_inputs_ok s
    (PendingVotes.NewQuorumCertificate qc) (last_Some_elem_of _ _ E)) qc eq_refl).
Defined.
