(* ===== verification/ProposerElection.v ===== *)
(** * Leader election (consensus/src/liveness)

    [ProposerElection] is the trait of proposer_election.rs; its implementations
    are a rotation (rotating_proposer_election.rs), a fixed map
    (round_proposer_election.rs) and [LeaderReputation] (leader_reputation.rs),
    which picks a validator at random, weighted by its part in the recent blocks,
    and accepts one proposal of it per round. *)
From stdpp Require Import prelude gmap strings.
From Stdlib Require Import ZArith Lia.
From S2P Require Import Prelude Bits HashValues Primitives LedgerInfo ConsensusTypes Blocks.

(** [NewBlockEvent] of types/src/block_metadata.rs *)
Module NewBlockEvent.
Section event.
Context `{Primitives}.
Record t := new {
  round : Z;
  proposer : AccountAddress;
  votes : list AccountAddress;
  timestamp : Z
}.
End event.
Arguments t {_}.
End NewBlockEvent.

(** ** proposer_election.rs *)

(** The methods take the state of the implementation, which may read the
    database. *)
Class ProposerElection `{Primitives} (P : Type) := {
  get_valid_proposer : Z -> action P string AccountAddress
}.

Definition is_valid_proposer `{ProposerElection P} (author : AccountAddress) (round : Z) : action P string bool :=
  proposer ← get_valid_proposer round;
  mret (bool_decide (proposer = author)).

(** The provided [is_valid_proposal]. *)
Definition is_valid_proposal `{ProposerElection P} (block : Block.t) : action P string bool :=
  match Block.author block with
  | None => mret false
  | Some author => is_valid_proposer author (Block.round block)
  end.

(** [u64::to_le_bytes] and [u64::from_le_bytes] *)
Definition to_le_bytes (x : Z) : list Z := (fun i => Z.shiftr x (8 * Z.of_nat i) mod 256) <$> seq 0 8.

Definition from_le_bytes (bytes : list Z) : Z := foldr (fun b x => b + 256 * x) 0 bytes.

(** Returns the new state and the index. *)
Definition next (sha3_256 : list Z -> HashValue.t) (state : list Z) : outcome string (list Z * Z) :=
  let state := HashValue.hash (sha3_256 state) in
  assert_ (8 <=? length state)%nat ;;
  Ok (state, from_le_bytes (take 8 state)).

(** ** rotating_proposer_election.rs *)

Module RotatingProposer.
Section proposer.
Context `{Primitives}.

Record t := new { proposers : list AccountAddress; contiguous_rounds : Z }.

(** Division by zero and an index out of range panic. *)
Definition proposer_of (self : t) (round : Z) : outcome string AccountAddress :=
  let len := Z.of_nat (length (proposers self)) in
  assert_ (negb (contiguous_rounds self =? 0)) ;;
  assert_ (negb (len =? 0)) ;;
  expect (proposers self !! Z.to_nat ((round / contiguous_rounds self) mod len)).

#[global] Instance rotating_election : ProposerElection t := {|
  get_valid_proposer round := fun self => (self, proposer_of self round)
|}.
End proposer.
Arguments t {_}.
End RotatingProposer.

(** [peers.into_iter().min()] *)
Definition choose_leader `{Primitives} (peers : list AccountAddress) : outcome string AccountAddress :=
  match peers with
  | [] => Panic
  | peer :: peers => Ok (foldl (fun x y => if decide (address_le x y) then x else y) peer peers)
  end.

(** ** round_proposer_election.rs *)

Module RoundProposer.
Section proposer.
Context `{Primitives}.

Record t := new { proposers : gmap Z AccountAddress; default_proposer : AccountAddress }.

Definition proposer_of (self : t) (round : Z) : AccountAddress :=
  match proposers self !! round with
  | None => default_proposer self
  | Some round_proposer => round_proposer
  end.

#[global] Instance round_election : ProposerElection t := {|
  get_valid_proposer round := fun self => (self, Ok (proposer_of self round))
|}.
End proposer.
Arguments t {_}.
End RoundProposer.

(** ** leader_reputation.rs *)

(** [trait MetadataBackend], with its state. *)
Class MetadataBackend `{Primitives} (B : Type) := {
  get_block_metadata : Z -> action B string (list NewBlockEvent.t)
}.

(** [trait ReputationHeuristic] *)
Class ReputationHeuristic `{Primitives} (W : Type) := {
  get_weights : W -> list AccountAddress -> list NewBlockEvent.t -> list Z
}.

(** What [DiemDBBackend] uses of the trait [DbReader]: the latest events of new
    blocks with their versions, in descending order, the decoding of an event, and
    the latest version. *)
Class EventReader `{Primitives} (D : Type) := {
  Event : Type;
  get_events : D -> Z -> outcome string (list (Z * Event));
  decode_event : Event -> outcome string NewBlockEvent.t;
  get_latest_version : D -> outcome string Z
}.

Module DiemDBBackend.
Section backend.
Context `{Primitives} {D : Type} `{!EventReader D}.

Record t := mk { window_size : Z; diem_db : D; window : list (Z * NewBlockEvent.t) }.

Definition new (window_size : Z) (diem_db : D) : t := mk window_size diem_db [].

(** The loop of [refresh_window]. *)
Fixpoint select (window_size target_round : Z) (result : list (Z * NewBlockEvent.t)) (events : list (Z * Event))
    : outcome string (list (Z * NewBlockEvent.t)) :=
  match events with
  | [] => Ok result
  | (v, e) :: events =>
      e ← decode_event e;
      select window_size target_round
        (if (NewBlockEvent.round e <=? target_round) && (Z.of_nat (length result) <? window_size)
         then result ++ [(v, e)] else result) events
  end.

Definition refresh_window (target_round : Z) : action t string unit := fun self =>
  match (events ← get_events (diem_db self) (window_size self + 10)%u64;
         select (window_size self) target_round [] events) with
  | Ok result => (mk (window_size self) (diem_db self) result, Ok tt)
  | Err e => (self, Err e)
  | Panic => (self, Panic)
  end.

(** The latest version is read only when the round is not the known one; when
    the refresh fails the answer is empty and the window is kept. *)
Definition block_metadata (target_round : Z) : action t string (list NewBlockEvent.t) := fun self =>
  let '(known_version, known_round) :=
    match window self with [] => (0, 0) | (v, e) :: _ => (v, NewBlockEvent.round e) end in
  let known :=
    if known_round =? target_round then Ok true
    else match get_latest_version (diem_db self) with
         | Ok version => Ok (known_version =? version)
         | Err _ => Ok (known_version =? 0)
         | Panic => Panic
         end in
  match known with
  | Ok false =>
      match refresh_window target_round self with
      | (self, Ok _) => (self, Ok (window self).*2)
      | (self, Err _) => (self, Ok [])
      | (self, Panic) => (self, Panic)
      end
  | Ok true => (self, Ok (window self).*2)
  | Err e => (self, Err e)
  | Panic => (self, Panic)
  end.

#[global] Instance db_backend : MetadataBackend t := {| get_block_metadata := block_metadata |}.
End backend.
Arguments t {_} D.
End DiemDBBackend.

Module ActiveInactiveHeuristic.
Section heuristic.
Context `{Primitives}.

Record t := new { author : AccountAddress; active_weight : Z; inactive_weight : Z }.

(** The proposers and voters of the history; the numbers of proposals and votes
    of [author] only go to counters. *)
Definition active (history : list NewBlockEvent.t) : gset AccountAddress :=
  foldl (fun set meta => list_to_set (NewBlockEvent.votes meta) ∪ ({[NewBlockEvent.proposer meta]} ∪ set)) ∅ history.

Definition weights (self : t) (candidates : list AccountAddress) (history : list NewBlockEvent.t) : list Z :=
  (fun author => if decide (author ∈ active history) then active_weight self else inactive_weight self) <$> candidates.

#[global] Instance active_inactive : ReputationHeuristic t := {| get_weights := weights |}.
End heuristic.
Arguments t {_}.
End ActiveInactiveHeuristic.

(** The loop that makes the weights cumulative. *)
Fixpoint accumulate (total_weight : Z) (weights : list Z) : Z * list Z :=
  match weights with
  | [] => (total_weight, [])
  | w :: weights =>
      let total_weight := (total_weight + w)%u64 in
      let '(total, weights) := accumulate total_weight weights in
      (total, total_weight :: weights)
  end.

(** [slice::binary_search_by] of the toolchain's standard library (Rust 1.56.1)
    with a comparison that is never [Equal]: the insertion point. The weights may
    have wrapped around, and the slice need not be sorted. *)
Fixpoint search_loop (fuel : nat) (less : Z -> bool) (l : list Z) (left right : nat) : outcome string nat :=
  if (left <? right)%nat then
    match fuel with
    | O => Panic
    | S fuel =>
        let mid := (left + (right - left) / 2)%nat in
        w ← expect (l !! mid);
        if less w then search_loop fuel less l (S mid) right else search_loop fuel less l left mid
    end
  else Ok left.

Definition binary_search (less : Z -> bool) (l : list Z) : outcome string nat :=
  search_loop (length l) less l 0 (length l).

Module LeaderReputation.
Section reputation.
Context (sha3_256 : list Z -> HashValue.t) `{Primitives} {B W : Type} `{!MetadataBackend B} `{!ReputationHeuristic W}.

Record t := mk {
  proposers : list AccountAddress;
  backend : B;
  heuristic : W;
  already_proposed : Z * gmap AccountAddress HashValue.t;
  exclude_round : Z
}.

Definition new (proposers : list AccountAddress) (backend : B) (heuristic : W) (exclude_round : Z) : t :=
  mk proposers backend heuristic (0, ∅) exclude_round.

Definition set_backend (self : t) (backend : B) : t :=
  mk (proposers self) backend (heuristic self) (already_proposed self) (exclude_round self).
Definition set_already_proposed (self : t) (already_proposed : Z * gmap AccountAddress HashValue.t) : t :=
  mk (proposers self) (backend self) (heuristic self) already_proposed (exclude_round self).

(** The choice, given the weights of the proposers. *)
Definition choose (self : t) (round : Z) (weights : list Z) : outcome string AccountAddress :=
  assert_ (length weights =? length (proposers self))%nat ;;
  let '(total_weight, weights) := accumulate 0 weights in
  '(_, index) ← next sha3_256 (to_le_bytes round);
  assert_ (negb (total_weight =? 0)) ;;
  let chosen_weight := index mod total_weight in
  chosen_index ← binary_search (fun w => w <=? chosen_weight) weights;
  expect (proposers self !! chosen_index).

Definition valid_proposer (round : Z) : action t string AccountAddress :=
  self ← gets id;
  let target_round := saturating_sub round (exclude_round self) in
  sliding_window ← zoom backend set_backend (get_block_metadata target_round);
  lift (choose self round (get_weights (heuristic self) (proposers self) sliding_window)).

#[global] Instance reputation_election : ProposerElection t := {| get_valid_proposer := valid_proposer |}.

(** Overrides the provided method. *)
Definition valid_proposal (block : Block.t) : action t string bool :=
  match Block.author block with
  | None => mret false
  | Some author =>
      valid ← is_valid_proposer author (Block.round block);
      already ← gets already_proposed;
      if negb valid then mret false
      else
        match Z.compare (Block.round block) already.1 with
        | Gt =>
            modify (fun self => set_already_proposed self (Block.round block, {[author := Block.id block]})) ;;
            mret true
        | Eq =>
            if match already.2 !! author with Some id => negb (bool_decide (id = Block.id block)) | None => false end
            then mret false
            else
              modify (fun self => set_already_proposed self (already.1, <[author := Block.id block]> already.2)) ;;
              mret true
        | Lt => mret false
        end
  end.
End reputation.
Arguments t {_} B W.
End LeaderReputation.

(** ** The weighted choice *)

Definition sum (weights : list Z) : Z := foldr Z.add 0 weights.

Lemma sum_nonneg ws : Forall (fun w => 0 <= w) ws -> 0 <= sum ws.
Proof. induction 1; simpl; lia. Qed.

Lemma accumulate_spec t ws : Forall (fun w => 0 <= w) ws -> 0 <= t -> t + sum ws < 2 ^ 64 ->
  exists cum, accumulate t ws = (t + sum ws, cum) /\ length cum = length ws /\
    forall i, (i < length ws)%nat -> cum !! i = Some (t + sum (take (S i) ws)).
Proof.
  intros Hws. revert t. induction Hws as [|w ws Hw Hws IH]; intros t Ht Hb; simpl in *.
  - exists []. split; [f_equal; lia | split; [done | lia]].
  - pose proof (sum_nonneg ws Hws) as Hs.
    assert (Hadd : (t + w)%u64 = t + w) by (unfold u64_add; apply wrap64_small; red; lia).
    rewrite Hadd. destruct (IH (t + w)) as (cum & -> & Hlen & Hcum); [lia.. |].
    exists ((t + w) :: cum). split; [f_equal; lia | split; [simpl; lia|]].
    intros [|i] Hi; simpl; [f_equal; lia|]. rewrite Hcum by lia. f_equal. simpl. lia.
Qed.

(** The search finds the boundary of a predicate that is never true again once it
    is false; the length of the slice is enough fuel. *)
Lemma search_loop_spec less l fuel left right :
  (forall i j a b, (i <= j)%nat -> l !! i = Some a -> l !! j = Some b -> less b = true -> less a = true) ->
  (left <= right <= length l)%nat -> (right - left <= fuel)%nat ->
  exists k, search_loop fuel less l left right = Ok k /\ (left <= k <= right)%nat /\
    (forall i w, (left <= i < k)%nat -> l !! i = Some w -> less w = true) /\
    (forall i w, (k <= i < right)%nat -> l !! i = Some w -> less w = false).
Proof.
  intros Hmono. revert left right. induction fuel as [|fuel IH]; intros left right Hle Hf; cbn [search_loop].
  - destruct (Nat.ltb_spec left right); [lia|]. exists left. repeat split; intros; lia.
  - destruct (Nat.ltb_spec left right) as [Hlt|]; [|exists left; repeat split; intros; lia].
    assert (Hmid : (left <= left + (right - left) / 2 < right)%nat)
      by (pose proof (Nat.div_lt (right - left) 2); lia).
    set (mid := (left + (right - left) / 2)%nat) in *.
    destruct (lookup_lt_is_Some_2 l mid) as [w Hw]; [lia|]. rewrite Hw. cbn [expect]. rewrite bind_Ok.
    destruct (less w) eqn:Hless.
    + destruct (IH (S mid) right) as (k & Hk & Hr & Hlo & Hhi); [lia..|].
      exists k. split; [done|]. split; [lia|]. split; [|done].
      intros i x Hi Hx. destruct (decide (S mid <= i)%nat); [apply (Hlo i); [lia|done]|].
      apply (Hmono i mid x w); [lia|done..].
    + destruct (IH left mid) as (k & Hk & Hr & Hlo & Hhi); [lia..|].
      exists k. split; [done|]. split; [lia|]. split; [done|].
      intros i x Hi Hx. destruct (decide (i < mid)%nat); [apply (Hhi i); [lia|done]|].
      destruct (less x) eqn:Hlx; [|done].
      by rewrite (Hmono mid i w x) in Hless by (done || lia).
Qed.

Lemma sum_take_mono ws i j : Forall (fun w => 0 <= w) ws -> (i <= j)%nat -> sum (take i ws) <= sum (take j ws).
Proof.
  intros Hws. revert i j. induction Hws as [|w ws Hw Hws IH]; intros i j Hij; [by rewrite !take_nil|].
  destruct i as [|i], j as [|j]; simpl; [lia| |lia|specialize (IH i j); lia].
  pose proof (sum_nonneg (take j ws) (Forall_take _ _ _ Hws)). lia.
Qed.

Lemma sum_take_S ws i w : ws !! i = Some w -> sum (take (S i) ws) = sum (take i ws) + w.
Proof.
  revert i. induction ws as [|x ws IH]; intros [|i] Hi; simplify_eq/=; [lia|].
  rewrite (IH i Hi). lia.
Qed.

Section reputation.
Context (sha3_256 : list Z -> HashValue.t) `{Primitives} {B W : Type} `{!MetadataBackend B} `{!ReputationHeuristic W}.
Implicit Types self : LeaderReputation.t B W.

(** A digest of SHA3-256 has 32 bytes. *)
Context (Hsha : forall bytes, length (HashValue.hash (sha3_256 bytes)) = 32%nat).

(** C13: When the weights are as many as the proposers, and their sum is positive
    and fits a u64, [LeaderReputation] picks a proposer without a panic: the one in
    whose interval of the cumulative weights the drawn index, modulo the total,
    lies. So a validator of weight w is picked for exactly w of the total's
    residues, and one of weight 0 never. *)
Theorem choose_weighted self round weights :
  Forall (fun w => 0 <= w) weights -> 0 < sum weights < 2 ^ 64 ->
  length weights = length (LeaderReputation.proposers self) ->
  exists state index i w leader,
    next sha3_256 (to_le_bytes round) = Ok (state, index) /\
    weights !! i = Some w /\ LeaderReputation.proposers self !! i = Some leader /\
    LeaderReputation.choose sha3_256 self round weights = Ok leader /\
    sum (take i weights) <= index mod sum weights < sum (take i weights) + w.
Proof.
  intros Hws Hsum Hlen.
  destruct (accumulate_spec 0 weights Hws) as (cum & Hacc & Hcl & Hcum); [lia..|]. rewrite Z.add_0_l in Hacc.
  unfold LeaderReputation.choose, next. rewrite Hsha, Hacc, Hlen, Nat.eqb_refl. simpl.
  set (index := from_le_bytes _). replace (sum weights =? 0) with false by lia. simpl.
  pose proof (Z.mod_pos_bound index (sum weights)) as Hidx.
  unfold binary_search.
  destruct (search_loop_spec (fun w => w <=? index mod sum weights) cum (length cum) 0 (length cum))
    as (k & -> & Hk & Hlo & Hhi); [|lia..|].
  { intros i j a b Hij Ha Hb ?%Z.leb_le. apply Z.leb_le.
    pose proof (lookup_lt_Some _ _ _ Hb). rewrite Hcum in Ha, Hb by lia. simplify_eq.
    pose proof (sum_take_mono weights (S i) (S j) Hws). lia. }
  assert (Hlt : (k < length weights)%nat).
  { destruct (decide (k < length weights)%nat) as [|Hge]; [done|]. exfalso.
    destruct weights as [|w0 ws0] eqn:Ew; [simpl in Hsum; lia|]. rewrite <- Ew in *.
    assert (0 < length weights)%nat by (rewrite Ew; simpl; lia).
    pose proof (Hcum (pred (length weights)) ltac:(lia)) as Hl.
    rewrite Nat.succ_pred, take_ge in Hl by lia.
    pose proof (Hlo (pred (length weights)) _ ltac:(lia) Hl) as ?%Z.leb_le. lia. }
  destruct (lookup_lt_is_Some_2 weights k Hlt) as [w Hw].
  destruct (lookup_lt_is_Some_2 (LeaderReputation.proposers self) k) as [leader Hl]; [lia|].
  eexists _, index, k, w, leader. repeat split; [done..| by rewrite bind_Ok, Hl | |].
  - destruct k as [|k]; [simpl; lia|].
    by pose proof (Hlo k _ ltac:(lia) (Hcum k ltac:(lia))) as ?%Z.leb_le; lia.
  - pose proof (Hhi k _ ltac:(lia) (Hcum k Hlt)) as Hgt%Z.leb_gt.
    rewrite (sum_take_S _ _ _ Hw) in Hgt. lia.
Qed.

(** ** One proposal per round *)

(** The proposals offered one after the other, with the answers; a panic ends the
    sequence. *)
Fixpoint answers self (blocks : list Block.t) : list (Block.t * bool) :=
  match blocks with
  | [] => []
  | block :: blocks =>
      match LeaderReputation.valid_proposal sha3_256 block self with
      | (self, Ok answer) => (block, answer) :: answers self blocks
      | (_, _) => []
      end
  end.

(** [block] was accepted and is not forgotten while its round can come again. *)
Definition remembers self (block : Block.t) : Prop :=
  let already := LeaderReputation.already_proposed self in
  Block.round block < already.1 \/
  Block.round block = already.1 /\
    exists author, Block.author block = Some author /\ already.2 !! author = Some (Block.id block).

#[local] Instance election : ProposerElection (LeaderReputation.t B W) := LeaderReputation.reputation_election sha3_256.

Lemma is_valid_proposer_already author round self :
  LeaderReputation.already_proposed (is_valid_proposer author round self).1 =
  LeaderReputation.already_proposed self.
Proof.
  unfold is_valid_proposer, get_valid_proposer, election, LeaderReputation.reputation_election, LeaderReputation.valid_proposer.
  unfold mbind, action_bind, gets, zoom, lift. simpl.
  destruct (get_block_metadata _ _) as [b [l|e|]]; simpl; [|done..].
  by destruct (LeaderReputation.choose _ _ _ _).
Qed.

(** What one call does to the memory, by its answer. *)
Lemma valid_proposal_memory block self self' r :
  LeaderReputation.valid_proposal sha3_256 block self = (self', r) ->
  (forall b, remembers self b -> remembers self' b) /\
  (r = Ok true -> remembers self' block /\
     forall b, remembers self b -> Block.round b = Block.round block -> Block.author b = Block.author block ->
       Block.id b = Block.id block).
Proof.
  unfold LeaderReputation.valid_proposal. destruct (Block.author block) as [author|] eqn:Ha;
    [|intros [= <- <-]; split; [auto | discriminate]].
  unfold mbind, action_bind.
  pose proof (is_valid_proposer_already author (Block.round block) self) as Hal.
  destruct (is_valid_proposer _ _ self) as [s1 [valid|e|]]; simpl in Hal;
    [|intros [= <- <-]; split; [unfold remembers; rewrite Hal; auto | discriminate]..].
  unfold gets, modify, remembers. rewrite <- Hal.
  destruct valid; simpl; [|intros [= <- <-]; split; [auto | discriminate]].
  destruct (Z.compare_spec (Block.round block) (LeaderReputation.already_proposed s1).1) as [Heq|Hlt|Hgt].
  - destruct ((LeaderReputation.already_proposed s1).2 !! author) as [id|] eqn:Hid;
      [destruct (bool_decide_reflect (id = Block.id block)) as [->|]|]; simpl; intros [= <- <-]; simpl;
      (split; [|try discriminate]).
    + intros b [?|(? & a & ? & Hb)]; [by left|right; split; [done|]; exists a; split; [done|]].
      destruct (decide (a = author)) as [->|]; [rewrite lookup_insert_eq; congruence | by rewrite lookup_insert_ne].
    + intros _. split; [right; split; [done|]; exists author; by rewrite lookup_insert_eq|].
      intros b [?|(? & a & ? & Hb)] ??; [lia | congruence].
    + auto.
    + intros b [?|(? & a & ? & Hb)]; [by left|right; split; [done|]; exists a; split; [done|]].
      rewrite lookup_insert_ne; congruence.
    + intros _. split; [right; split; [done|]; exists author; by rewrite lookup_insert_eq|].
      intros b [?|(? & a & ? & Hb)] ??; [lia | congruence].
  - intros [= <- <-]. split; [auto | discriminate].
  - intros [= <- <-]. simpl. split; [intros b [?|(? & _)]; left; lia|]. intros _. split.
    + right. split; [done|]. exists author. by rewrite lookup_singleton_eq.
    + intros b [?|(? & _)] ??; lia.
Qed.

Lemma answers_remembered self blocks b0 : remembers self b0 ->
  forall b, (b, true) ∈ answers self blocks -> Block.round b0 = Block.round b ->
    Block.author b0 = Block.author b -> Block.id b0 = Block.id b.
Proof.
  revert self. induction blocks as [|x blocks IH]; intros self Hrem b; simpl; [by intros ?%not_elem_of_nil|].
  destruct (LeaderReputation.valid_proposal _ x self) as [s1 [answer|e|]] eqn:Hx; [|by intros ?%not_elem_of_nil..].
  apply valid_proposal_memory in Hx as [Hkeep Hacc].
  intros [[= <- <-]|Hin]%elem_of_cons Hr Ha; [by apply Hacc | by apply (IH s1); [apply Hkeep|..]].
Qed.

(** C9: In any sequence of proposals offered to [LeaderReputation], from any state
    and whatever the database answers in between, two accepted proposals of the same
    author and round have the same id: the second proposal of a leader that
    equivocates is refused. *)
Theorem one_proposal_per_round self blocks i j b1 b2 :
  answers self blocks !! i = Some (b1, true) -> answers self blocks !! j = Some (b2, true) ->
  Block.author b1 = Block.author b2 -> Block.round b1 = Block.round b2 -> Block.id b1 = Block.id b2.
Proof.
  revert self i j b1 b2. induction blocks as [|x blocks IH]; intros self i j b1 b2; simpl; [done|].
  destruct (LeaderReputation.valid_proposal _ x self) as [s1 [answer|e|]] eqn:Hx; [|done..].
  apply valid_proposal_memory in Hx as [_ Hacc].
  destruct i as [|i], j as [|j]; simpl; intros Hi Hj Ha Hr; simplify_eq; [done| | |by eapply IH].
  - destruct Hacc as [Hrem _]; [done|]. eapply answers_remembered; [done|by eapply list_elem_of_lookup_2|done..].
  - destruct Hacc as [Hrem _]; [done|]. symmetry.
    eapply answers_remembered; [done|by eapply list_elem_of_lookup_2|done..].
Qed.
End reputation.
