(* ===== verification/BlockTree.v ===== *)
(** * The block tree (consensus/src/block_storage/block_tree.rs)

    The tree of the blocks a validator knows: insertion, the highest
    certificates, the path from a root to a block and pruning at a commit. The
    theorems of this file are about the operations one by one: which blocks are
    pruned, and which path is returned. BlockTreeInv.v has the
    invariant that the operations preserve. *)
From stdpp Require Import prelude gmap strings sorting.
From Stdlib Require Import ZArith Lia.
From S2P Require Import Prelude Bits Hash HashValues Primitives LedgerInfo ConsensusTypes Blocks.

(** The iteration orders of a [HashSet] and of the values of a [HashMap] are
    unspecified: any order of the elements. *)
Class HashSetOrder := {
  iter : gset HashValue.t -> list HashValue.t;
  values {A} : gmap HashValue.t A -> list A;
  iter_perm s : iter s ≡ₚ elements s;
  values_perm {A} (m : gmap HashValue.t A) : values m ≡ₚ (map_to_list m).*2
}.

Module LinkableBlock.
Section block.
Context `{Primitives} `{ExecutionTypes}.

Record t := mk {
  executed_block : ExecutedBlock.t;
  children : gset HashValue.t
}.

Definition new (block : ExecutedBlock.t) : t := mk block ∅.

Definition add_child (self : t) (child_id : HashValue.t) : outcome string t :=
  assert_ (bool_decide (child_id ∉ children self)) ;;
  Ok (mk (executed_block self) ({[child_id]} ∪ children self)).

Definition id (self : t) : HashValue.t := ExecutedBlock.id (executed_block self).
End block.
Arguments t {_ _}.
End LinkableBlock.

Module BlockTree.
Section tree.
Context `{Primitives} `{ExecutionTypes} `{!EqDecision StateComputeResult.t} `{HashSetOrder}.

Record t := mk {
  id_to_block : gmap HashValue.t LinkableBlock.t;
  ordered_root_id : HashValue.t;
  commit_root_id : HashValue.t;
  highest_certified_block_id : HashValue.t;
  highest_quorum_cert : QuorumCert.t;
  highest_timeout_cert : option TimeoutCertificate.t;
  highest_2chain_timeout_cert : option TwoChainTimeoutCertificate.t;
  highest_ordered_cert : QuorumCert.t;
  highest_ledger_info : LedgerInfoWithSignatures.t;
  id_to_quorum_cert : gmap HashValue.t QuorumCert.t;
  pruned_block_ids : list HashValue.t;
  max_pruned_blocks_in_mem : nat
}.

Definition new (root : ExecutedBlock.t) (root_quorum_cert root_ordered_cert : QuorumCert.t)
    (root_commit_ledger_info : LedgerInfoWithSignatures.t) (max_pruned_blocks_in_mem : nat)
    (highest_timeout_cert : option TimeoutCertificate.t)
    (highest_2chain_timeout_cert : option TwoChainTimeoutCertificate.t) : outcome string t :=
  assert_ (bool_decide (ExecutedBlock.id root = BlockInfo.id (QuorumCert.commit_info root_ordered_cert))) ;;
  let root_id := ExecutedBlock.id root in
  Ok (mk {[root_id := LinkableBlock.new root]} root_id root_id root_id root_quorum_cert highest_timeout_cert
        highest_2chain_timeout_cert root_ordered_cert root_commit_ledger_info
        {[BlockInfo.id (QuorumCert.certified_block root_quorum_cert) := root_quorum_cert]}
        [] max_pruned_blocks_in_mem).

Definition get_linkable_block (self : t) (block_id : HashValue.t) : option LinkableBlock.t :=
  id_to_block self !! block_id.

Definition get_all_quorum_certs_with_commit_info (self : t) : list QuorumCert.t :=
  filter (fun qc => QuorumCert.commit_info qc <> BlockInfo.empty) (values (id_to_quorum_cert self)).

Definition linkable_root (self : t) : outcome string LinkableBlock.t :=
  expect (get_linkable_block self (commit_root_id self)).

(** [self] with other blocks and certificates. *)
Definition set_blocks (self : t) (blocks : gmap HashValue.t LinkableBlock.t)
    (certs : gmap HashValue.t QuorumCert.t) : t :=
  mk blocks (ordered_root_id self) (commit_root_id self) (highest_certified_block_id self)
    (highest_quorum_cert self) (highest_timeout_cert self) (highest_2chain_timeout_cert self)
    (highest_ordered_cert self) (highest_ledger_info self) certs (pruned_block_ids self)
    (max_pruned_blocks_in_mem self).

Definition remove_block (self : t) (block_id : HashValue.t) : t :=
  set_blocks self (delete block_id (id_to_block self)) (delete block_id (id_to_quorum_cert self)).

Definition block_exists (self : t) (block_id : HashValue.t) : bool :=
  bool_decide (is_Some (id_to_block self !! block_id)).

Definition get_block (self : t) (block_id : HashValue.t) : option ExecutedBlock.t :=
  LinkableBlock.executed_block <$> get_linkable_block self block_id.

Definition ordered_root (self : t) : outcome string ExecutedBlock.t :=
  expect (get_block self (ordered_root_id self)).

Definition commit_root (self : t) : outcome string ExecutedBlock.t :=
  expect (get_block self (commit_root_id self)).

Definition highest_certified_block (self : t) : outcome string ExecutedBlock.t :=
  expect (get_block self (highest_certified_block_id self)).

Definition replace_2chain_timeout_cert (self : t) (tc : TwoChainTimeoutCertificate.t) : t :=
  mk (id_to_block self) (ordered_root_id self) (commit_root_id self) (highest_certified_block_id self)
    (highest_quorum_cert self) (highest_timeout_cert self) (Some tc) (highest_ordered_cert self)
    (highest_ledger_info self) (id_to_quorum_cert self) (pruned_block_ids self) (max_pruned_blocks_in_mem self).

Definition replace_timeout_cert (self : t) (tc : TimeoutCertificate.t) : t :=
  mk (id_to_block self) (ordered_root_id self) (commit_root_id self) (highest_certified_block_id self)
    (highest_quorum_cert self) (Some tc) (highest_2chain_timeout_cert self) (highest_ordered_cert self)
    (highest_ledger_info self) (id_to_quorum_cert self) (pruned_block_ids self) (max_pruned_blocks_in_mem self).

Definition get_quorum_cert_for_block (self : t) (block_id : HashValue.t) : option QuorumCert.t :=
  id_to_quorum_cert self !! block_id.

Definition insert_block (self : t) (block : ExecutedBlock.t) : outcome string (t * ExecutedBlock.t) :=
  let block_id := ExecutedBlock.id block in
  match get_block self block_id with
  | Some existing_block =>
      assert_ (bool_decide (ExecutedBlock.state_compute_result existing_block
                            = ExecutedBlock.state_compute_result block)) ;;
      Ok (self, existing_block)
  | None =>
      match get_linkable_block self (ExecutedBlock.parent_id block) with
      | Some parent_block =>
          parent_block ← LinkableBlock.add_child parent_block block_id;
          let blocks := <[ExecutedBlock.parent_id block := parent_block]> (id_to_block self) in
          assert_ (bool_decide (blocks !! block_id = None)) ;;
          Ok (set_blocks self (<[block_id := LinkableBlock.new block]> blocks) (id_to_quorum_cert self), block)
      | None => Err "Parent block not found"%string
      end
  end.

Definition update_ordered_root (self : t) (root_id : HashValue.t) : outcome string t :=
  assert_ (block_exists self root_id) ;;
  Ok (mk (id_to_block self) root_id (commit_root_id self) (highest_certified_block_id self)
        (highest_quorum_cert self) (highest_timeout_cert self) (highest_2chain_timeout_cert self)
        (highest_ordered_cert self) (highest_ledger_info self) (id_to_quorum_cert self) (pruned_block_ids self)
        (max_pruned_blocks_in_mem self)).

Definition update_commit_root (self : t) (root_id : HashValue.t) : outcome string t :=
  assert_ (block_exists self root_id) ;;
  Ok (mk (id_to_block self) (ordered_root_id self) root_id (highest_certified_block_id self)
        (highest_quorum_cert self) (highest_timeout_cert self) (highest_2chain_timeout_cert self)
        (highest_ordered_cert self) (highest_ledger_info self) (id_to_quorum_cert self) (pruned_block_ids self)
        (max_pruned_blocks_in_mem self)).

Definition update_highest_ledger_info (self : t) (new_ledger_info_with_sig : LedgerInfoWithSignatures.t)
    : outcome string t :=
  if BlockInfo.round (LedgerInfoWithSignatures.commit_info (highest_ledger_info self))
     <? BlockInfo.round (LedgerInfoWithSignatures.commit_info new_ledger_info_with_sig)
  then
    let self := mk (id_to_block self) (ordered_root_id self) (commit_root_id self)
      (highest_certified_block_id self) (highest_quorum_cert self) (highest_timeout_cert self)
      (highest_2chain_timeout_cert self) (highest_ordered_cert self) new_ledger_info_with_sig
      (id_to_quorum_cert self) (pruned_block_ids self) (max_pruned_blocks_in_mem self) in
    update_commit_root self (BlockInfo.id (LedgerInfoWithSignatures.commit_info (highest_ledger_info self)))
  else Ok self.

(** The [precondition!] of the source is an annotation for a static analyser
    and has no effect when the code runs. *)
Definition insert_quorum_cert (self : t) (qc : QuorumCert.t) : outcome string t :=
  let block_id := BlockInfo.id (QuorumCert.certified_block qc) in
  match get_block self block_id with
  | Some block =>
      highest ← highest_certified_block self;
      let '(certified_id, certified_qc) :=
        if ExecutedBlock.round highest <? ExecutedBlock.round block
        then (ExecutedBlock.id block, qc)
        else (highest_certified_block_id self, highest_quorum_cert self) in
      let certs := match id_to_quorum_cert self !! block_id with
        | Some _ => id_to_quorum_cert self
        | None => <[block_id := qc]> (id_to_quorum_cert self)
        end in
      let ordered_cert :=
        if BlockInfo.round (QuorumCert.commit_info (highest_ordered_cert self))
           <? BlockInfo.round (QuorumCert.commit_info qc)
        then qc else highest_ordered_cert self in
      Ok (mk (id_to_block self) (ordered_root_id self) (commit_root_id self) certified_id certified_qc
            (highest_timeout_cert self) (highest_2chain_timeout_cert self) ordered_cert
            (highest_ledger_info self) certs (pruned_block_ids self) (max_pruned_blocks_in_mem self))
  | None => Err "Block not found"%string
  end.

(** The inner loop: the children to visit are pushed on the stack, whose top is
    the head of the list. *)
Fixpoint push_children (self : t) (next_root_id : HashValue.t) (children : list HashValue.t)
    (stack : list LinkableBlock.t) : outcome string (list LinkableBlock.t) :=
  match children with
  | [] => Ok stack
  | child_id :: children =>
      if bool_decide (next_root_id = child_id) then push_children self next_root_id children stack
      else
        child ← expect (get_linkable_block self child_id);
        push_children self next_root_id children (child :: stack)
  end.

(** The outer loop. [Panic] also stands for a loop that does not end within the
    fuel. *)
Fixpoint prune_loop (fuel : nat) (self : t) (next_root_id : HashValue.t)
    (blocks_to_be_pruned : list LinkableBlock.t) (blocks_pruned : list HashValue.t)
    : outcome string (list HashValue.t) :=
  match blocks_to_be_pruned with
  | [] => Ok blocks_pruned
  | block_to_remove :: stack =>
      match fuel with
      | O => Panic
      | S fuel =>
          stack ← push_children self next_root_id (iter (LinkableBlock.children block_to_remove)) stack;
          prune_loop fuel self next_root_id stack (blocks_pruned ++ [LinkableBlock.id block_to_remove])
      end
  end.

(** Every block is visited at most once. *)
Definition find_blocks_to_prune (self : t) (next_root_id : HashValue.t) : outcome string (list HashValue.t) :=
  if bool_decide (next_root_id = commit_root_id self) then Ok []
  else
    root ← linkable_root self;
    prune_loop (size (id_to_block self)) self next_root_id [root] [].

(** [self] with other pruned blocks. *)
Definition set_pruned (self : t) (pruned : list HashValue.t) : t :=
  mk (id_to_block self) (ordered_root_id self) (commit_root_id self) (highest_certified_block_id self)
    (highest_quorum_cert self) (highest_timeout_cert self) (highest_2chain_timeout_cert self)
    (highest_ordered_cert self) (highest_ledger_info self) (id_to_quorum_cert self) pruned
    (max_pruned_blocks_in_mem self).

(** The loop that removes the [n] oldest pruned blocks. *)
Fixpoint remove_oldest (self : t) (n : nat) : t :=
  match n with
  | O => self
  | S n =>
      match pruned_block_ids self with
      | id :: rest => remove_oldest (remove_block (set_pruned self rest) id) n
      | [] => remove_oldest self n
      end
  end.

Definition process_pruned_blocks (self : t) (newly_pruned_blocks : list HashValue.t) : t :=
  let self := set_pruned self (pruned_block_ids self ++ newly_pruned_blocks) in
  if bool_decide (max_pruned_blocks_in_mem self < length (pruned_block_ids self))%nat then
    let num_blocks_to_remove := (length (pruned_block_ids self) - max_pruned_blocks_in_mem self)%nat in
    remove_oldest self num_blocks_to_remove
  else self.

(** The loop over the parents; [res] is in the order of the pushes, latest
    first. [Panic] stands for a loop that does not end within the fuel. *)
Fixpoint path_loop (fuel : nat) (self : t) (root_round : Z) (cur_block_id : HashValue.t)
    (res : list ExecutedBlock.t) : outcome string (option (HashValue.t * list ExecutedBlock.t)) :=
  match get_block self cur_block_id with
  | Some block =>
      if ExecutedBlock.round block <=? root_round then Ok (Some (cur_block_id, res))
      else
        match fuel with
        | O => Panic
        | S fuel => path_loop fuel self root_round (ExecutedBlock.parent_id block) (block :: res)
        end
  | None => Ok None
  end.

(** A path visits every block at most once. *)
Definition path_from_root_to_block (self : t) (block_id root_id : HashValue.t) (root_round : Z)
    : outcome string (option (list ExecutedBlock.t)) :=
  found ← path_loop (size (id_to_block self)) self root_round block_id [];
  Ok (match found with
      | Some (cur_block_id, res) => if negb (bool_decide (cur_block_id = root_id)) then None else Some res
      | None => None
      end).

Definition path_from_ordered_root (self : t) (block_id : HashValue.t)
    : outcome string (option (list ExecutedBlock.t)) :=
  root ← ordered_root self;
  path_from_root_to_block self block_id (ordered_root_id self) (ExecutedBlock.round root).

Definition path_from_commit_root (self : t) (block_id : HashValue.t)
    : outcome string (option (list ExecutedBlock.t)) :=
  root ← commit_root self;
  path_from_root_to_block self block_id (commit_root_id self) (ExecutedBlock.round root).

Definition get_all_block_id (self : t) : list HashValue.t := iter (dom (id_to_block self)).

(** [prune_tree] is the operation of the persistent storage; its error is only
    logged. *)
Definition commit_callback {S} (prune_tree : S -> list HashValue.t -> S * outcome string unit)
    (self : t) (storage : S) (blocks_to_commit : list ExecutedBlock.t)
    (commit_proof : LedgerInfoWithSignatures.t) : outcome string (S * t) :=
  block_to_commit ← expect (last blocks_to_commit);
  _ ← commit_root self;
  id_to_remove ← find_blocks_to_prune self (ExecutedBlock.id block_to_commit);
  let (storage, _) := prune_tree storage id_to_remove in
  let self := process_pruned_blocks self id_to_remove in
  self ← update_highest_ledger_info self commit_proof;
  Ok (storage, self).
End tree.
Arguments t {_ _}.
End BlockTree.

(** ** Links *)
Section links.
Context `{Primitives} `{ExecutionTypes}.
Import BlockTree.

(** [c] is in the children of the block [p]. *)
Definition child (self : t) (p c : HashValue.t) : Prop :=
  exists b, id_to_block self !! p = Some b /\ c ∈ LinkableBlock.children b.

(** The blocks below a block, itself included. *)
Definition descends (self : t) : relation HashValue.t := rtc (child self).

Definition block_round (b : LinkableBlock.t) : Z := ExecutedBlock.round (LinkableBlock.executed_block b).
Definition block_parent (b : LinkableBlock.t) : HashValue.t :=
  ExecutedBlock.parent_id (LinkableBlock.executed_block b).

(** Blocks are stored under their ids; a child link leads to a block of the
    tree of a higher round, whose parent link leads back; for all parent links
    within the tree, a child link exists. *)
Record links_ok (self : t) : Prop := {
  links_id i b : id_to_block self !! i = Some b -> LinkableBlock.id b = i;
  links_child p pb c : id_to_block self !! p = Some pb -> c ∈ LinkableBlock.children pb ->
    exists cb, id_to_block self !! c = Some cb /\ block_parent cb = p /\ block_round pb < block_round cb;
  links_parent c cb pb : id_to_block self !! c = Some cb ->
    id_to_block self !! block_parent cb = Some pb -> c ∈ LinkableBlock.children pb
}.

Section facts.
Context (self : t) (Hok : links_ok self).

Lemma child_parent p c : child self p c ->
  exists pb cb, id_to_block self !! p = Some pb /\ id_to_block self !! c = Some cb /\
    block_parent cb = p /\ block_round pb < block_round cb.
Proof.
  intros (pb & Hp & Hc). destruct (links_child self Hok p pb c Hp Hc) as (cb & ? & ? & ?). eauto 10.
Qed.

Lemma child_unique p q c : child self p c -> child self q c -> p = q.
Proof.
  intros (? & cb & _ & Hc & <- & _)%child_parent (? & cb' & _ & Hc' & <- & _)%child_parent. by simplify_eq.
Qed.

Lemma descends_in a b : descends self a b -> is_Some (id_to_block self !! a) -> is_Some (id_to_block self !! b).
Proof.
  intros Hd Ha. apply rtc_inv_r in Hd as [->|(p & _ & Hc)]; [done|].
  apply child_parent in Hc as (? & cb & _ & Hc & _). by eexists.
Qed.

Lemma descends_round a b ba bb : descends self a b -> id_to_block self !! a = Some ba ->
  id_to_block self !! b = Some bb -> a = b \/ block_round ba < block_round bb.
Proof.
  intros Hd Ha. revert b Hd bb.
  refine (rtc_ind_r (fun b => forall bb, id_to_block self !! b = Some bb -> a = b \/ block_round ba < block_round bb) a _ _);
    [by left|]. intros p b _ Hc IH bb Hb.
  apply child_parent in Hc as (pb & cb & Hp & Hb' & _ & Hr). simplify_eq.
  destruct (IH pb Hp) as [->|?]; simplify_eq; right; lia.
Qed.

Lemma descends_antisymm a b : descends self a b -> descends self b a -> a = b.
Proof.
  intros Hab Hba. destruct (decide (a = b)) as [|Hne]; [done|].
  assert (is_Some (id_to_block self !! a)) as [ba Ha].
  { apply rtc_inv in Hab as [->|(c & (? & ? & ?) & _)]; [done | by eexists]. }
  destruct (descends_in a b Hab) as [bb Hb]; [by eexists|].
  destruct (descends_round a b ba bb Hab Ha Hb) as [?|?]; [done|].
  destruct (descends_round b a bb ba Hba Hb Ha) as [?|?]; [done | lia].
Qed.

(** The parent of a block strictly below [a] is below [a]. *)
Lemma descends_parent a p c : descends self a c -> child self p c -> a <> c -> descends self a p.
Proof.
  intros Hd Hc Hne. apply rtc_inv_r in Hd as [?|(q & Hd & Hq)]; [done|]. by rewrite (child_unique p q c Hc Hq).
Qed.
End facts.
End links.

(** ** Pruning *)
Section prune.
Context `{Primitives} `{ExecutionTypes} `{!EqDecision StateComputeResult.t} `{HashSetOrder}.
Import BlockTree.

(** Parents come before their children, the first block apart. *)
Definition parents_first (self : t) (root : HashValue.t) (ids : list HashValue.t) : Prop :=
  forall l1 x l2 p, ids = l1 ++ x :: l2 -> child self p x -> x = root \/ p ∈ l1.

Lemma parents_first_snoc self root ids x : parents_first self root ids ->
  (forall p, child self p x -> x = root \/ p ∈ ids) -> parents_first self root (ids ++ [x]).
Proof.
  intros Hids Hx l1 y l2 p Heq Hc. destruct l2 as [|z l2 _] using rev_ind.
  - apply app_inj_tail in Heq as [-> ->]. by apply Hx.
  - rewrite app_comm_cons, app_assoc in Heq. apply app_inj_tail in Heq as [-> _]. by eapply Hids.
Qed.

Section loop.
Context (self : t) (Hok : links_ok self) (next : HashValue.t).
Context (Hroot : is_Some (id_to_block self !! commit_root_id self)).
Abbreviation root := (commit_root_id self).
Abbreviation ids := (fmap LinkableBlock.id).

Lemma push_children_Ok cs : forall stack, (forall c, c ∈ cs -> is_Some (id_to_block self !! c)) ->
  exists new, push_children self next cs stack = Ok (new ++ stack) /\
    ids new ≡ₚ filter (fun c => c <> next) cs /\
    Forall (fun b => id_to_block self !! LinkableBlock.id b = Some b) new.
Proof.
  induction cs as [|c cs IH]; intros stack Hcs; cbn [push_children].
  - exists []. by split_and!.
  - destruct (bool_decide_reflect (next = c)) as [<-|Hne].
    + rewrite filter_cons_False by naive_solver. apply IH. intros c Hc. apply Hcs. by right.
    + destruct (Hcs c) as [b Hb]; [left|]. unfold get_linkable_block. rewrite Hb. cbn [expect mbind outcome_bind].
      destruct (IH (b :: stack)) as (new & -> & Hp & Hall); [intros; apply Hcs; by right|].
      pose proof (links_id self Hok c b Hb) as Hid.
      exists (new ++ [b]). rewrite <- app_assoc. split_and!; [done | |].
      * rewrite fmap_app, filter_cons_True by congruence. cbn. rewrite Hp, Hid. symmetry. apply Permutation_cons_append.
      * apply Forall_app. split; [done|]. apply Forall_singleton. by rewrite Hid.
Qed.

(** What holds when the loop has visited [acc] and has [stack] to visit. *)
Record visiting (acc : list HashValue.t) (stack : list LinkableBlock.t) : Prop := {
  v_stack : Forall (fun b => id_to_block self !! LinkableBlock.id b = Some b) stack;
  v_below x : x ∈ acc ++ ids stack -> descends self root x;
  v_nodup : NoDup (acc ++ ids stack);
  v_root : root ∈ acc ++ ids stack;
  v_next : next ∉ acc ++ ids stack;
  v_parent x : x ∈ acc ++ ids stack -> x = root \/ exists p, p ∈ acc /\ child self p x;
  v_closed p x : p ∈ acc -> child self p x -> x <> next -> x ∈ acc ++ ids stack;
  v_order : parents_first self root acc
}.

(** Visiting a block replaces it by its children on the stack. *)
Lemma visiting_step acc b stack new : visiting acc (b :: stack) ->
  ids new ≡ₚ filter (fun c => c <> next) (iter (LinkableBlock.children b)) ->
  Forall (fun b => id_to_block self !! LinkableBlock.id b = Some b) new ->
  visiting (acc ++ [LinkableBlock.id b]) (new ++ stack).
Proof.
  intros [Hst Hbel Hnd Hr Hn Hpar Hcl Hord] Hnew Hall. apply Forall_cons in Hst as [Hb Hst].
  set (x := LinkableBlock.id b) in *.
  assert (forall c, c ∈ ids new <-> c <> next /\ child self x c) as Hc.
  { intros c. rewrite Hnew, list_elem_of_filter, iter_perm, elem_of_elements. unfold child.
    rewrite Hb. naive_solver. }
  assert (NoDup (ids new)) as Hnd'.
  { rewrite Hnew. apply NoDup_filter. rewrite iter_perm. apply NoDup_elements. }
  assert ((acc ++ [x]) ++ ids (new ++ stack) ≡ₚ (acc ++ ids (b :: stack)) ++ ids new) as Hperm.
  { rewrite fmap_app, fmap_cons, <- !app_assoc. cbn. rewrite (Permutation_app_comm (ids new)). done. }
  assert (forall c, c ∈ ids new -> c ∉ acc ++ ids (b :: stack)) as Hfresh.
  { intros c [_ Hxc]%Hc Hin. destruct (Hpar c Hin) as [->|(p & Hp & Hpc)].
    - assert (descends self root x) as Hrx by (apply Hbel, elem_of_app; right; left).
      assert (descends self x root) as Hxr by (by apply rtc_once).
      destruct (child_parent self Hok x root Hxc) as (pb & cb & Hpb & Hcb & _ & Hlt).
      rewrite (descends_antisymm self Hok _ _ Hrx Hxr) in Hcb. simplify_eq. lia.
    - rewrite (child_unique self Hok p x c Hpc Hxc) in Hp. apply NoDup_app in Hnd as (_ & Hd & _).
      apply (Hd x Hp). left. }
  split.
  - by apply Forall_app.
  - intros y. rewrite Hperm, elem_of_app. intros [Hy|[_ Hy]%Hc]; [by apply Hbel|].
    eapply rtc_r; [|exact Hy]. apply Hbel, elem_of_app. right. left.
  - rewrite Hperm. apply NoDup_app. split_and!; [done | | done]. intros y Hy Hy'. by apply (Hfresh y).
  - rewrite Hperm, elem_of_app. by left.
  - rewrite Hperm, elem_of_app. intros [?|[? _]%Hc]; done.
  - intros y. rewrite Hperm, elem_of_app. intros [Hy|[_ Hy]%Hc].
    + destruct (Hpar y Hy) as [?|(p & Hp & Hpc)]; [by left|]. right. exists p. rewrite elem_of_app. auto.
    + right. exists x. rewrite elem_of_app, list_elem_of_singleton. auto.
  - intros p y. rewrite Hperm, !elem_of_app, list_elem_of_singleton. intros [Hp | ->] Hpy Hy.
    + left. apply elem_of_app. by apply (Hcl p).
    + right. by apply Hc.
  - apply parents_first_snoc; [done|]. intros p Hpx. destruct (Hpar x) as [?|(q & Hq & Hqx)].
    + apply elem_of_app. right. left.
    + by left.
    + right. by rewrite (child_unique self Hok p q x Hpx Hqx).
Qed.

Lemma prune_loop_Ok fuel : forall acc stack, visiting acc stack ->
  (size (id_to_block self) <= fuel + length acc)%nat ->
  exists res, prune_loop fuel self next stack acc = Ok res /\ visiting res [].
Proof.
  induction fuel as [|fuel IH]; intros acc [|b stack] Hv Hf; cbn [prune_loop]; [by exists acc | | by exists acc |].
  - exfalso. assert (length (acc ++ ids (b :: stack)) <= size (id_to_block self))%nat as Hl.
    { apply NoDup_length_size; [apply Hv|]. intros x Hx%Hv. by apply (descends_in self Hok _ _ Hx). }
    rewrite length_app in Hl. cbn in Hl. lia.
  - destruct (push_children_Ok (iter (LinkableBlock.children b)) stack) as (new & -> & Hp & Hall).
    { intros c. rewrite iter_perm, elem_of_elements. intros Hc. apply v_stack, Forall_cons in Hv as [Hb _].
      destruct (links_child self Hok _ b c Hb Hc) as (cb & Hcb & _). by eexists. }
    cbn. apply IH; [by apply visiting_step|]. rewrite length_app. cbn. lia.
Qed.

Lemma visiting_start b : id_to_block self !! root = Some b -> next <> root -> visiting [] [b].
Proof.
  intros Hb Hne. pose proof (links_id self Hok _ _ Hb) as Hid. split; cbn; rewrite ?Hid.
  - apply Forall_singleton. by rewrite Hid.
  - intros x ->%list_elem_of_singleton. apply rtc_refl.
  - apply NoDup_singleton.
  - by apply list_elem_of_singleton.
  - by rewrite list_elem_of_singleton.
  - intros x ->%list_elem_of_singleton. by left.
  - intros p x Hp. by apply elem_of_nil in Hp.
  - intros l1 x l2 p Heq. by destruct l1.
Qed.

(** When nothing is left to visit, the blocks visited are those below the root
    and not below [next]. *)
Lemma visited_exact acc : visiting acc [] -> descends self root next ->
  forall x, x ∈ acc <-> descends self root x /\ ~ descends self next x.
Proof.
  intros [_ Hbel _ Hr Hn Hpar Hcl _]. cbn in *. rewrite app_nil_r in *. intros Hnext x. split.
  - intros Hx. split; [by apply Hbel|]. intros Hd. revert x Hd Hx.
    refine (rtc_ind_r (fun x => x ∈ acc -> False) next Hn _). intros p x Hp Hpx IH Hx.
    destruct (Hpar x Hx) as [->|(q & Hq & Hqx)].
    + apply Hn. by rewrite (descends_antisymm self Hok next root (rtc_r _ _ _ Hp Hpx) Hnext).
    + apply IH. by rewrite (child_unique self Hok p q x Hpx Hqx).
  - intros [Hd Hnd]. revert x Hd Hnd.
    refine (rtc_ind_r (fun x => ~ descends self next x -> x ∈ acc) root (fun _ => Hr) _).
    intros p x Hp Hpx IH Hnd. apply (Hcl p); [|done|].
    + apply IH. intros Hd. apply Hnd. by eapply rtc_r.
    + intros ->. apply Hnd, rtc_refl.
Qed.
End loop.

Lemma find_blocks_to_prune_Ok self next : links_ok self -> is_Some (id_to_block self !! commit_root_id self) ->
  descends self (commit_root_id self) next ->
  exists ids, find_blocks_to_prune self next = Ok ids /\ NoDup ids /\
    (forall x, x ∈ ids <-> descends self (commit_root_id self) x /\ ~ descends self next x) /\
    parents_first self (commit_root_id self) ids.
Proof.
  intros Hok [b Hb] Hnext. unfold find_blocks_to_prune.
  destruct (bool_decide_reflect (next = commit_root_id self)) as [->|Hne].
  - exists []. split_and!; [done | constructor | | by intros []]. intros x. rewrite elem_of_nil. tauto.
  - unfold linkable_root, get_linkable_block. rewrite Hb. cbn [expect mbind outcome_bind].
    destruct (prune_loop_Ok self Hok next (mk_is_Some _ _ Hb) (size (id_to_block self)) [] [b]) as (ids & Hids & Hv).
    + by apply visiting_start.
    + lia.
    + exists ids. split_and!; [done | | by apply visited_exact | apply Hv].
      pose proof (v_nodup _ _ _ _ Hv) as Hnd. cbn in Hnd. by rewrite app_nil_r in Hnd.
Qed.

(** A new root outside of the tree: all blocks below the commit root are found,
    the root included. *)
Lemma find_blocks_to_prune_outside self next : links_ok self -> is_Some (id_to_block self !! commit_root_id self) ->
  id_to_block self !! next = None ->
  exists ids, find_blocks_to_prune self next = Ok ids /\
    forall x, x ∈ ids <-> descends self (commit_root_id self) x.
Proof.
  intros Hok [b Hb] Hnext. unfold find_blocks_to_prune. rewrite bool_decide_false by congruence.
  unfold linkable_root, get_linkable_block. rewrite Hb. cbn [expect mbind outcome_bind].
  destruct (prune_loop_Ok self Hok next (mk_is_Some _ _ Hb) (size (id_to_block self)) [] [b]) as (ids & Hids & [_ Hbel _ Hr _ _ Hcl _]).
  - apply visiting_start; [done | done | congruence].
  - lia.
  - exists ids. split; [done|]. cbn in *. rewrite app_nil_r in *. intros x. split; [by apply Hbel|]. revert x.
    refine (rtc_ind_r (fun x => x ∈ ids) _ Hr _). intros p x _ Hc Hp. apply (Hcl p); [done | done|].
    intros ->. destruct (child_parent self Hok p next Hc) as (_ & ? & _ & ? & _). congruence.
Qed.

(** C28: Pruning finds exactly the blocks that the new root leaves behind. In a
    tree with consistent links, for a new root below the commit root and
    whatever the iteration order of the sets of children, the search ends
    without a panic; it returns, each once, the blocks below the commit root
    that are not below the new root, every block after its parent. *)
Theorem find_blocks_to_prune_exact self next : links_ok self ->
  is_Some (id_to_block self !! commit_root_id self) -> descends self (commit_root_id self) next ->
  exists ids, find_blocks_to_prune self next = Ok ids /\ NoDup ids /\
    (forall x, x ∈ ids <-> descends self (commit_root_id self) x /\ ~ descends self next x) /\
    parents_first self (commit_root_id self) ids.
Proof. apply find_blocks_to_prune_Ok. Qed.
End prune.

(** ** Paths *)
Section path.
Context `{Primitives} `{ExecutionTypes} `{!EqDecision StateComputeResult.t} `{HashSetOrder}.
Import BlockTree.

(** The blocks after [cur] down to the block [last], linked by parents. *)
Fixpoint is_path (self : t) (cur : HashValue.t) (path : list ExecutedBlock.t) (last : HashValue.t) : Prop :=
  match path with
  | [] => cur = last
  | b :: path =>
      get_block self (ExecutedBlock.id b) = Some b /\ ExecutedBlock.parent_id b = cur /\
      is_path self (ExecutedBlock.id b) path last
  end.

Section loop.
Context (self : t) (Hok : links_ok self).

Lemma get_block_Some i b : get_block self i = Some b ->
  exists lb, id_to_block self !! i = Some lb /\ LinkableBlock.executed_block lb = b /\ ExecutedBlock.id b = i.
Proof.
  unfold get_block, get_linkable_block. intros (lb & Hlb & ->)%fmap_Some. pose proof (links_id self Hok _ _ Hlb). eauto.
Qed.

Lemma path_in path cur last b : is_path self cur path last -> b ∈ path -> get_block self (ExecutedBlock.id b) = Some b.
Proof.
  revert cur. induction path as [|x path IH]; intros cur Hp Hin; [by apply elem_of_nil in Hin|].
  destruct Hp as (Hx & _ & Hp). apply elem_of_cons in Hin as [->|Hin]; [done | by eapply IH].
Qed.

Lemma parent_child c b pb : get_block self c = Some b -> get_block self (ExecutedBlock.parent_id b) = Some pb ->
  child self (ExecutedBlock.parent_id b) c /\ ExecutedBlock.round pb < ExecutedBlock.round b.
Proof.
  intros (lb & Hlb & <- & _)%get_block_Some (lp & Hlp & <- & _)%get_block_Some.
  pose proof (links_parent self Hok c lb lp Hlb Hlp) as Hc.
  destruct (links_child self Hok _ lp c Hlp Hc) as (cb & Hcb & _ & Hlt). simplify_eq.
  split; [by exists lp | done].
Qed.

(** Along a path from a block of the tree the rounds grow. *)
Lemma path_rounds path : forall cur b last, get_block self cur = Some b -> is_path self cur path last ->
  StronglySorted Z.lt (ExecutedBlock.round <$> b :: path).
Proof.
  induction path as [|x path IH]; intros cur b last Hcur Hp; [by repeat constructor|].
  destruct Hp as (Hx & <- & Hp). specialize (IH _ _ _ Hx Hp).
  destruct (parent_child _ _ _ Hx Hcur) as [_ Hlt]. constructor; [done|].
  apply StronglySorted_inv in IH as [_ Hall]. constructor; [done|]. eapply Forall_impl; [exact Hall|]. cbn. lia.
Qed.

(** So a path visits a block once. *)
Lemma path_length path cur b last : get_block self cur = Some b -> is_path self cur path last ->
  (length path < size (id_to_block self))%nat.
Proof.
  intros Hcur Hp. pose proof (path_rounds path cur b last Hcur Hp) as Hr.
  enough (length (ExecutedBlock.id <$> b :: path) <= size (id_to_block self))%nat as Hl
    by (rewrite length_fmap in Hl; cbn in Hl; lia).
  assert (forall x, x ∈ b :: path -> get_block self (ExecutedBlock.id x) = Some x) as Hin.
  { intros x [->|Hx]%elem_of_cons; [|by eapply path_in].
    by destruct (get_block_Some _ _ Hcur) as (_ & _ & _ & ->). }
  apply NoDup_length_size.
  - clear Hcur Hp. induction (b :: path) as [|x l IH]; [constructor|]. rewrite fmap_cons.
    change (StronglySorted Z.lt (ExecutedBlock.round x :: (ExecutedBlock.round <$> l))) in Hr.
    apply StronglySorted_inv in Hr as [Hr Hall]. constructor; [|apply IH; [done | intros; apply Hin; by right]].
    intros (y & Hy & Hyl)%list_elem_of_fmap. rewrite Forall_fmap, Forall_forall in Hall. specialize (Hall y Hyl). cbn in Hall.
    pose proof (Hin x (list_elem_of_here _ _)) as Hx. rewrite Hy, (Hin y) in Hx by (by right). simplify_eq. lia.
  - intros i (x & -> & Hx)%list_elem_of_fmap. apply Hin, get_block_Some in Hx as (lx & Hlx & _). by eexists.
Qed.

Lemma path_descends path : forall cur b last, get_block self cur = Some b -> is_path self cur path last ->
  descends self cur last.
Proof.
  induction path as [|x path IH]; intros cur b last Hcur Hp; [by rewrite <- Hp|].
  destruct Hp as (Hx & <- & Hp). eapply rtc_l; [|by eapply IH]. by eapply parent_child.
Qed.

Context (root : HashValue.t) (rb : ExecutedBlock.t) (Hroot : get_block self root = Some rb).

Lemma path_loop_Ok last fuel : forall cur path, is_path self cur path last ->
  (descends self root last -> descends self root cur) ->
  (size (id_to_block self) <= fuel + length path)%nat ->
  exists found, path_loop fuel self (ExecutedBlock.round rb) cur path = Ok found /\
    match found with
    | Some (stop, path) => is_path self stop path last /\ (stop <> root -> ~ descends self root last)
    | None => ~ descends self root last
    end.
Proof.
  destruct (get_block_Some _ _ Hroot) as (lr & Hlr & Hlr' & _).
  induction fuel as [|fuel IH]; intros cur path Hp Hd Hf; cbn [path_loop];
    (destruct (get_block self cur) as [b|] eqn:Hb;
     [|exists None; split; [done|]; intros Hl%Hd; apply (descends_in self Hok) in Hl as [lc Hc]; [|by eexists];
       unfold get_block, get_linkable_block in Hb; by rewrite Hc in Hb]);
    destruct (get_block_Some _ _ Hb) as (lb & Hlb & Hlb' & Hid);
    (destruct (Z.leb_spec (ExecutedBlock.round b) (ExecutedBlock.round rb)) as [Hle|Hgt];
     [exists (Some (cur, path)); split; [done|]; split; [done|]; intros Hne Hl%Hd;
      destruct (descends_round self Hok root cur lr lb Hl Hlr Hlb) as [?|Hlt]; [congruence|];
      unfold block_round in Hlt; rewrite Hlr', Hlb' in Hlt; lia|]).
  - pose proof (path_length path cur b last Hb Hp). lia.
  - apply IH; [| |cbn; lia].
    + cbn. by rewrite Hid.
    + intros Hl%Hd. apply rtc_inv_r in Hl as [<-|(p & Hl & Hc)]; [simplify_eq; lia|].
      destruct (child_parent self Hok p cur Hc) as (_ & cb & _ & Hcb & <- & _). simplify_eq. done.
Qed.
End loop.

Lemma path_from_root_Ok self block_id root rb : links_ok self -> get_block self root = Some rb ->
  exists res, path_from_root_to_block self block_id root (ExecutedBlock.round rb) = Ok res /\
    match res with
    | Some path => is_path self root path block_id
    | None => ~ descends self root block_id
    end.
Proof.
  intros Hok Hroot. unfold path_from_root_to_block.
  destruct (path_loop_Ok self Hok root rb Hroot block_id (size (id_to_block self)) block_id []) as (found & -> & Hf).
  - done.
  - done.
  - lia.
  - cbn. destruct found as [[stop path]|]; eexists; (split; [done|]); cbn; [|done].
    destruct (bool_decide_reflect (stop = root)) as [->|Hne]; cbn; [apply Hf | by apply Hf].
Qed.

(** C29: The path to a block is the chain of its ancestors. From a root of the
    tree, with the root's round, the walk over the parents ends, and returns
    the blocks from the one after the root to the given one, each the parent of
    the next; it returns none exactly when the block is not below the root. *)
Theorem path_from_root_to_block_chain self block_id root rb : links_ok self -> get_block self root = Some rb ->
  exists res, path_from_root_to_block self block_id root (ExecutedBlock.round rb) = Ok res /\
    (forall path, res = Some path -> is_path self root path block_id /\ descends self root block_id) /\
    (res = None -> ~ descends self root block_id).
Proof.
  intros Hok Hroot. destruct (path_from_root_Ok self block_id root rb Hok Hroot) as (res & Hres & Hm).
  exists res. split_and!; [done | | by intros ->]. intros path ->. split; [done|].
  by eapply path_descends.
Qed.
End path.
