(* ===== verification/ProposalGenerator.v ===== *)
(** * Proposal generation (consensus/src/liveness/proposal_generator.rs)

    [ProposalGenerator] makes the block a leader proposes. The theorems: no round
    is proposed twice, and a generated proposal extends the highest certified
    block, passes the checks of the receivers and repeats no transaction of the
    branch it extends. *)
From stdpp Require Import prelude gmap strings sorting.
From Stdlib Require Import ZArith Lia.
From S2P Require Import Prelude Bits Hash HashValues Primitives LedgerInfo ConsensusTypes Blocks BlockTree.

Module ProposalGenerator.
Section generator.
Context `{Primitives} `{!CryptoHash VoteData.t} `{!CryptoHash LedgerInfo.t} `{!CryptoHash BlockData.t}.
Context `{ExecutionTypes} `{!EqDecision StateComputeResult.t} `{HashSetOrder}.

(** The block store, the transaction manager and the clock are shared with other
    components: they are arguments of the calls. *)
Record t := mk { author : AccountAddress; max_block_size : Z; last_round_generated : Z }.

Definition new (author : AccountAddress) (max_block_size : Z) : t := mk author max_block_size 0.

Definition set_last_round (self : t) (round : Z) : t := mk (author self) (max_block_size self) round.

(** What a call reads: the tree of the block store, which does not change between
    the reads of one call, the clock in microseconds and [pull_txns]. *)
Record env := mk_env {
  tree : BlockTree.t;
  now : Z;
  pull_txns : Z -> list (list SignedTransaction) -> bool -> outcome string (list SignedTransaction)
}.

Definition ensure_highest_quorum_cert (block_store : BlockTree.t) (round : Z) : outcome string QuorumCert.t :=
  let hqc := BlockTree.highest_quorum_cert block_store in
  ensure (BlockInfo.round (QuorumCert.certified_block hqc) <? round) "Given round is lower than hqc round" ;;
  ensure (negb (QuorumCert.ends_epoch hqc)) "The epoch has already ended,a proposal is not allowed to generated" ;;
  Ok hqc.

Definition generate_nil_block (block_store : BlockTree.t) (round : Z) : outcome string Block.t :=
  hqc ← ensure_highest_quorum_cert block_store round;
  Ok (Block.new_nil round hqc).

Definition payload_of (block : ExecutedBlock.t) : option (list SignedTransaction) :=
  Block.payload (ExecutedBlock.block block).

(** The payload and the timestamp when the parent is not a reconfiguration. *)
Definition pull (self : t) (e : env) (hqc : QuorumCert.t) : outcome string (list SignedTransaction * Z) :=
  let id := BlockInfo.id (QuorumCert.certified_block hqc) in
  path ← BlockTree.path_from_commit_root (tree e) id;
  pending_blocks ← ok_or path "HQC already pruned";
  root ← BlockTree.commit_root (tree e);
  let pending_blocks := pending_blocks ++ [root] in
  let exclude_payload := omap payload_of pending_blocks in
  path ← BlockTree.path_from_ordered_root (tree e) id;
  ordering ← ok_or path "HQC already pruned";
  let pending_ordering :=
    existsb (fun block => negb (match payload_of block with None => true | Some txns => bool_decide (txns = []) end))
      ordering in
  payload ← map_err (fun _ => "Fail to retrieve txn"%string)
    (pull_txns e (max_block_size self) exclude_payload pending_ordering);
  Ok (payload, wrap64 (now e)).

Definition generate_proposal (e : env) (round : Z) : action t string BlockData.t :=
  last_round_generated ← gets last_round_generated;
  (if last_round_generated <? round then modify (fun self => set_last_round self round)
   else lift (Err "Already proposed in the round"%string)) ;;
  self ← gets id;
  lift (hqc ← ensure_highest_quorum_cert (tree e) round;
        '(payload, timestamp) ←
          (if BlockInfo.has_reconfiguration (QuorumCert.certified_block hqc) then
             Ok ([], BlockInfo.timestamp_usecs (QuorumCert.certified_block hqc))
           else pull self e hqc);
        Ok (BlockData.new_proposal payload (author self) round timestamp hqc)).
End generator.
Arguments t {_}.
Arguments env {_ _}.
End ProposalGenerator.

Section theorems.
Context `{Primitives} `{!CryptoHash VoteData.t} `{!CryptoHash LedgerInfo.t} `{!CryptoHash BlockData.t}.
Context `{ExecutionTypes} `{!EqDecision StateComputeResult.t} `{HashSetOrder}.
Import ProposalGenerator.
Implicit Types self : ProposalGenerator.t.

(** ** No round twice *)

(** The rounds asked for one after the other, in changing environments, with the
    proposals made. *)
Fixpoint generated self (calls : list (env * Z)) : list BlockData.t :=
  match calls with
  | [] => []
  | (e, round) :: calls =>
      match generate_proposal e round self with
      | (self, Ok data) => data :: generated self calls
      | (self, _) => generated self calls
      end
  end.

Lemma ensure_highest_quorum_cert_Ok block_store round hqc :
  ensure_highest_quorum_cert block_store round = Ok hqc ->
  hqc = BlockTree.highest_quorum_cert block_store /\
  BlockInfo.round (QuorumCert.certified_block hqc) < round /\ QuorumCert.ends_epoch hqc = false.
Proof.
  unfold ensure_highest_quorum_cert. intros Hq. outcome_inv. subst.
  split_and!; [done | lia | by apply negb_true_iff].
Qed.

(** A call by its parts: the round is taken first, whatever the rest answers. *)
Lemma generate_proposal_run e round self self' r : generate_proposal e round self = (self', r) ->
  last_round_generated self <= last_round_generated self' /\
  forall data, r = Ok data ->
    last_round_generated self < round /\ last_round_generated self' = round /\
    exists hqc payload timestamp,
      ensure_highest_quorum_cert (tree e) round = Ok hqc /\
      (if BlockInfo.has_reconfiguration (QuorumCert.certified_block hqc) then
         payload = [] /\ timestamp = BlockInfo.timestamp_usecs (QuorumCert.certified_block hqc)
       else pull (set_last_round self round) e hqc = Ok (payload, timestamp)) /\
      data = BlockData.new_proposal payload (author self) round timestamp hqc.
Proof.
  unfold generate_proposal. rewrite bind_gets.
  destruct (Z.ltb_spec (last_round_generated self) round) as [Hlt|Hge].
  - rewrite bind_modify, bind_gets. unfold lift. intros [= <- <-]. split; [simpl; lia|].
    intros data Hd. split_and!; [done..|]. outcome_inv. destruct a0 as [payload timestamp]. outcome_inv.
    exists a, payload, timestamp. split_and!; [done| |done].
    destruct (BlockInfo.has_reconfiguration _); by simplify_eq.
  - intros [= <- <-]. split; [lia | discriminate].
Qed.

Lemma generated_above self calls :
  Forall (fun data => last_round_generated self < BlockData.round data) (generated self calls).
Proof.
  revert self. induction calls as [|[e round] calls IH]; intros self; simpl; [constructor|].
  destruct (generate_proposal e round self) as [self' r] eqn:Hg.
  apply generate_proposal_run in Hg as [Hle Hr].
  assert (Forall (fun data => last_round_generated self < BlockData.round data) (generated self' calls))
    by (eapply Forall_impl; [apply IH | simpl; lia]).
  destruct r as [data|err|]; [|done..]. constructor; [|done].
  by destruct (Hr data eq_refl) as (? & _ & ? & ? & ? & _ & _ & ->).
Qed.

(** C12: A leader does not equivocate: whatever rounds it is asked to propose in,
    and whatever the block store, the clock and the mempool answer in between, the
    proposals it generates have strictly increasing rounds. *)
Theorem proposals_increase self calls : StronglySorted Z.lt (BlockData.round <$> generated self calls).
Proof.
  revert self. induction calls as [|[e round] calls IH]; intros self; simpl; [constructor|].
  destruct (generate_proposal e round self) as [self' [data|err|]] eqn:Hg; [|apply IH..].
  apply generate_proposal_run in Hg as [_ Hr].
  destruct (Hr data eq_refl) as (_ & Hlast & hqc & payload & ts & _ & _ & ->).
  constructor; [apply IH|]. apply Forall_fmap. rewrite <- Hlast. apply generated_above.
Qed.

(** ** The proposal *)

Lemma is_path_snoc tree cur path b last : is_path tree cur (path ++ [b]) last ->
  is_path tree cur path (ExecutedBlock.parent_id b) /\ ExecutedBlock.id b = last /\
  BlockTree.get_block tree (ExecutedBlock.id b) = Some b.
Proof.
  revert cur. induction path as [|x path IH]; intros cur; simpl.
  - by intros (? & <- & <-).
  - intros (? & ? & Hp). apply IH in Hp as (? & ? & ?). done.
Qed.

(** A path has all blocks between its ends. *)
Lemma path_between tree root x last path rb : links_ok tree -> BlockTree.get_block tree root = Some rb ->
  is_path tree root path last -> descends tree root x -> descends tree x last ->
  x = root \/ x ∈ ExecutedBlock.id <$> path.
Proof.
  intros Hok Hroot Hp Hrx Hxl. revert path Hp. pattern last.
  refine (rtc_ind_r _ x _ _ last Hxl); clear last Hxl.
  - intros path Hp. destruct path as [|b path _] using rev_ind; [by left|].
    apply is_path_snoc in Hp as (_ & <- & _). right. rewrite fmap_app. set_solver.
  - intros y z Hxy Hyz IH path Hp. destruct path as [|b path _] using rev_ind.
    + simpl in Hp. subst z. left.
      destruct (child_parent tree Hok y root Hyz) as (yb & zb & Hy & Hz & _ & Hlt).
      assert (descends tree root y) as Hry by (by etrans).
      destruct (descends_round tree Hok root y zb yb Hry Hz Hy) as [->|]; simplify_eq; lia.
    + apply is_path_snoc in Hp as (Hp & <- & Hb).
      apply (get_block_Some tree Hok) in Hb as (lb & Hlb & Hb & _).
      destruct (child_parent tree Hok y _ Hyz) as (_ & cb & _ & Hcb & Hpar & _). simplify_eq.
      destruct (IH path Hp) as [?|?]; [by left | right; rewrite fmap_app; set_solver].
Qed.

(** [pull] excludes the payload of every block from the commit root to the
    certified one. *)
Lemma pull_excludes self e hqc payload timestamp :
  links_ok (tree e) ->
  (forall max exclude ordering txns, pull_txns e max exclude ordering = Ok txns ->
     forall txn p, txn ∈ txns -> p ∈ exclude -> txn ∉ p) ->
  pull self e hqc = Ok (payload, timestamp) ->
  timestamp = wrap64 (now e) /\
  forall x b p txn, BlockTree.get_block (tree e) x = Some b -> descends (tree e) (BlockTree.commit_root_id (tree e)) x ->
    descends (tree e) x (BlockInfo.id (QuorumCert.certified_block hqc)) ->
    payload_of b = Some p -> txn ∈ payload -> txn ∉ p.
Proof.
  intros Hok Hpull. unfold pull. intros Hp. outcome_inv. simplify_eq. split; [done|].
  intros x b p txn Hx Hrx Hxl Hb Htxn. eapply Hpull; [done..|].
  unfold BlockTree.path_from_commit_root in Ha. outcome_inv.
  unfold BlockTree.commit_root in *. outcome_inv. simplify_eq.
  match goal with Hr : BlockTree.get_block _ (BlockTree.commit_root_id _) = Some ?rb |- _ => rename Hr into Hroot end.
  destruct (path_from_root_Ok _ (BlockInfo.id (QuorumCert.certified_block hqc)) _ _ Hok Hroot) as (res & Hres & Hpath).
  rewrite Ha in Hres. injection Hres as <-. apply list_elem_of_omap. exists b. split; [|done].
  destruct (path_between _ _ x _ _ _ Hok Hroot Hpath Hrx Hxl) as [->|Hin]; [simplify_eq; set_solver|].
  apply list_elem_of_fmap in Hin as (y & -> & Hy). pose proof (path_in _ _ _ _ y Hpath Hy). simplify_eq. set_solver.
Qed.

(** C10: A proposal that is generated is one the other validators accept. It is of
    the generator and of the round asked for, extends the block of the highest
    quorum certificate, and, signed, passes the well-formedness check of every
    receiver whose clock is not more than five minutes behind, provided the clock
    has passed the parent's timestamp. It repeats no transaction of a block from
    the commit root to the parent, provided the mempool honours the excluded
    payloads; after a reconfiguration it has no transactions at all. *)
Theorem generated_proposal_valid self self' e round data signature current_ts :
  links_ok (tree e) ->
  (forall max exclude ordering txns, pull_txns e max exclude ordering = Ok txns ->
     forall txn p, txn ∈ txns -> p ∈ exclude -> txn ∉ p) ->
  in_u64 (now e) -> now e <= saturating_add current_ts Block.TIMEBOUND ->
  let parent := QuorumCert.certified_block (BlockTree.highest_quorum_cert (tree e)) in
  BlockInfo.timestamp_usecs parent < now e ->
  generate_proposal e round self = (self', Ok data) ->
  BlockData.author data = Some (author self) /\ BlockData.round data = round /\
  BlockData.parent_id data = BlockInfo.id parent /\
  Block.verify_well_formed (Block.new_proposal_from_block_data_and_signature data signature) current_ts = Ok tt /\
  forall x b p payload txn, BlockTree.get_block (tree e) x = Some b ->
    descends (tree e) (BlockTree.commit_root_id (tree e)) x -> descends (tree e) x (BlockInfo.id parent) ->
    payload_of b = Some p -> BlockData.payload data = Some payload -> txn ∈ payload -> txn ∉ p.
Proof.
  intros Hok Hpull Hnow Hbound parent Hclock Hg.
  apply generate_proposal_run in Hg as [_ Hr].
  destruct (Hr data eq_refl) as (_ & _ & hqc & payload & timestamp & Hhqc & Hpt & ->).
  apply ensure_highest_quorum_cert_Ok in Hhqc as (-> & Hround & Hend).
  split_and!; [done..| |].
  - unfold Block.verify_well_formed, Block.quorum_cert, Block.round, Block.epoch, Block.payload, Block.timestamp_usecs.
    cbn -[Z.ltb Z.eqb Z.leb]. fold parent in Hround, Hpt |- *. rewrite Hend, Z.eqb_refl.
    replace (BlockInfo.round parent <? round) with true by lia. cbn -[Z.ltb Z.eqb Z.leb].
    destruct (BlockInfo.has_reconfiguration parent).
    + destruct Hpt as [-> ->]. by rewrite Z.eqb_refl.
    + apply (pull_excludes _ _ _ _ _ Hok Hpull) in Hpt as [-> _]. rewrite wrap64_small by done.
      cbn -[Z.ltb Z.leb]. replace (BlockInfo.timestamp_usecs parent <? now e) with true by lia.
      cbn -[Z.leb]. by replace (now e <=? saturating_add current_ts Block.TIMEBOUND) with true by lia.
  - intros x b p payload' txn Hx Hrx Hxl Hb [= <-] Htxn. fold parent in Hpt.
    destruct (BlockInfo.has_reconfiguration parent); [destruct Hpt as [-> _]; set_solver|].
    apply (pull_excludes _ _ _ _ _ Hok Hpull) in Hpt as [_ Hex]. by eapply Hex.
Qed.
End theorems.
