(* ===== verification/BlockTreeInv.v ===== *)
(** * The invariant of the block tree

    What every operation of the block tree preserves: consistent links, the
    order of the pruned blocks that are kept in memory, and certificates of
    blocks of the tree. From it follows that no [expect] or [assert!] of the
    operations fails. *)
From stdpp Require Import prelude gmap strings sorting.
From Stdlib Require Import ZArith Lia.
From S2P Require Import Prelude Bits Hash HashValues Primitives LedgerInfo ConsensusTypes Blocks BlockTree.

Section inv.
Context `{Primitives} `{ExecutionTypes} `{!EqDecision StateComputeResult.t} `{HashSetOrder}.
Import BlockTree.

(** The pruned blocks that are in memory come in an order in which every block
    follows its parent, and are outside of the tree of the commit root, whose
    parent is among them. *)
Record pruned_ok (self : t) : Prop := {
  pruned_nodup : NoDup (pruned_block_ids self);
  pruned_in x : x ∈ pruned_block_ids self -> is_Some (id_to_block self !! x);
  pruned_order l1 x l2 p : pruned_block_ids self = l1 ++ x :: l2 -> child self p x -> p ∈ l1;
  pruned_root p : child self p (commit_root_id self) -> p ∈ pruned_block_ids self;
  pruned_outside x : x ∈ pruned_block_ids self -> ~ descends self (commit_root_id self) x
}.

(** The certificates are of blocks of the tree; the highest certified block is
    below [tip], has the highest round among the certified blocks, and the
    highest quorum certificate is its own. *)
Record certs_ok (self : t) (tip : HashValue.t) : Prop := {
  certs_id i qc : id_to_quorum_cert self !! i = Some qc ->
    BlockInfo.id (QuorumCert.certified_block qc) = i /\ is_Some (id_to_block self !! i);
  certs_tip : descends self tip (highest_certified_block_id self);
  certs_highest : BlockInfo.id (QuorumCert.certified_block (highest_quorum_cert self)) = highest_certified_block_id self;
  certs_round i qc b hb : id_to_quorum_cert self !! i = Some qc -> id_to_block self !! i = Some b ->
    id_to_block self !! highest_certified_block_id self = Some hb -> block_round b <= block_round hb
}.

Record tree_ok (self : t) (tip : HashValue.t) : Prop := {
  ok_links : links_ok self;
  ok_pruned : pruned_ok self;
  ok_certs : certs_ok self tip;
  ok_root : is_Some (id_to_block self !! commit_root_id self);
  ok_tip : descends self (commit_root_id self) tip
}.

Lemma tip_in self tip : tree_ok self tip -> is_Some (id_to_block self !! tip).
Proof. intros Hok. exact (descends_in self (ok_links _ _ Hok) _ _ (ok_tip _ _ Hok) (ok_root _ _ Hok)). Qed.

Lemma certified_in self tip : tree_ok self tip -> is_Some (id_to_block self !! highest_certified_block_id self).
Proof.
  intros Hok. exact (descends_in self (ok_links _ _ Hok) _ _ (certs_tip _ _ (ok_certs _ _ Hok)) (tip_in _ _ Hok)).
Qed.

(** ** A new tree *)

Lemma new_Ok root qc oc li n tc tc2 self : new root qc oc li n tc tc2 = Ok self ->
  BlockInfo.id (QuorumCert.certified_block qc) = ExecutedBlock.id root ->
  ExecutedBlock.parent_id root <> ExecutedBlock.id root ->
  tree_ok self (ExecutedBlock.id root) /\ commit_root_id self = ExecutedBlock.id root /\
  ordered_root_id self = ExecutedBlock.id root /\ highest_ledger_info self = li /\
  get_block self (ExecutedBlock.id root) = Some root.
Proof.
  unfold new. intros Hnew Hqc Hpar. outcome_inv. cbn.
  set (self := mk _ _ _ _ _ _ _ _ _ _ _ _).
  assert (forall i b, id_to_block self !! i = Some b -> i = ExecutedBlock.id root /\ b = LinkableBlock.new root) as Hin.
  { intros i b Hi. cbn in Hi. by apply lookup_singleton_Some in Hi as [<- <-]. }
  assert (forall p c, ~ child self p c) as Hchild.
  { intros p c (b & [_ ->]%Hin & Hc). by apply elem_of_empty in Hc. }
  split_and!; [|done | done | done | unfold get_block, get_linkable_block; cbn; by rewrite lookup_singleton_eq].
  split.
  - split.
    + by intros i b [-> ->]%Hin.
    + intros p pb c Hp Hc. by destruct (Hchild p c); exists pb.
    + by intros c cb pb [-> ->]%Hin [Heq _]%Hin.
  - split; cbn; try (by intros ? ?%elem_of_nil).
    + constructor.
    + by intros [].
    + by intros p ?%Hchild.
  - split; cbn.
    + intros i q [<- <-]%lookup_singleton_Some. split; [done|]. rewrite Hqc. by rewrite lookup_singleton_eq.
    + apply rtc_refl.
    + done.
    + intros i q b hb _ [_ ->]%Hin [_ ->]%Hin. done.
  - cbn. by rewrite lookup_singleton_eq.
  - apply rtc_refl.
Qed.

(** ** Insertion *)

Section insert.
Context (self : t) (Hl : links_ok self) (block : ExecutedBlock.t) (parent : LinkableBlock.t).
Abbreviation block_id := (ExecutedBlock.id block).
Abbreviation parent_id := (ExecutedBlock.parent_id block).
Context (Hnew : id_to_block self !! block_id = None) (Hparent : id_to_block self !! parent_id = Some parent).

(** The tree with the block and the link to it. *)
Definition inserted : t :=
  set_blocks self
    (<[block_id := LinkableBlock.new block]>
      (<[parent_id := LinkableBlock.mk (LinkableBlock.executed_block parent) ({[block_id]} ∪ LinkableBlock.children parent)]>
        (id_to_block self)))
    (id_to_quorum_cert self).

(** The assertions of [add_child] and of the insertion hold. *)
Lemma insert_block_new : insert_block self block = Ok (inserted, block).
Proof.
  unfold insert_block, get_block, get_linkable_block. rewrite Hnew. cbn. rewrite Hparent.
  unfold LinkableBlock.add_child. rewrite bool_decide_true.
  - cbn. rewrite bool_decide_true; [done|]. rewrite lookup_insert_ne by congruence. done.
  - intros Hc. destruct (links_child self Hl _ _ _ Hparent Hc) as (cb & Hcb & _). congruence.
Qed.

Lemma inserted_lookup i b : id_to_block inserted !! i = Some b ->
  (i = block_id /\ b = LinkableBlock.new block) \/
  (i <> block_id /\ exists b', id_to_block self !! i = Some b' /\
    LinkableBlock.executed_block b = LinkableBlock.executed_block b' /\
    forall c, c ∈ LinkableBlock.children b <-> c ∈ LinkableBlock.children b' \/ (i = parent_id /\ c = block_id)).
Proof.
  cbn. intros [[<- <-]|[Hne Hi]]%lookup_insert_Some; [by left|]. right. split; [done|].
  apply lookup_insert_Some in Hi as [[<- <-]|[Hne' Hi]].
  - exists parent. split_and!; [done | done|]. intros c. cbn. rewrite elem_of_union, elem_of_singleton. naive_solver.
  - exists b. split_and!; [done | done|]. naive_solver.
Qed.

Lemma inserted_old i b : id_to_block self !! i = Some b -> exists b', id_to_block inserted !! i = Some b' /\
  LinkableBlock.executed_block b' = LinkableBlock.executed_block b.
Proof.
  intros Hi. cbn. rewrite lookup_insert_ne by congruence.
  destruct (decide (parent_id = i)) as [<-|Hne].
  - rewrite lookup_insert_eq. simplify_eq. eauto.
  - rewrite lookup_insert_ne by done. eauto.
Qed.

Lemma inserted_child p c : child inserted p c <-> child self p c \/ (p = parent_id /\ c = block_id).
Proof.
  split.
  - intros (b & Hb & Hc). apply inserted_lookup in Hb as [[_ ->]|(_ & b' & Hb' & _ & Hch)].
    + by apply elem_of_empty in Hc.
    + apply Hch in Hc as [Hc|?]; [left; by exists b' | by right].
  - assert (block_id <> parent_id) as Hne by congruence.
    intros [(b & Hb & Hc)|[-> ->]].
    + destruct (decide (parent_id = p)) as [<-|Hp].
      * eexists. cbn. rewrite lookup_insert_ne, lookup_insert_eq by done. split; [done|]. cbn. simplify_eq. set_solver.
      * exists b. cbn. by rewrite !lookup_insert_ne by congruence.
    + eexists. cbn. rewrite lookup_insert_ne, lookup_insert_eq by done. split; [done|]. cbn. set_solver.
Qed.

Lemma inserted_descends a x : descends self a x -> descends inserted a x.
Proof. apply rtc_subrel. intros p c Hc. apply inserted_child. by left. Qed.

Lemma inserted_descends_inv a x : descends inserted a x -> x <> block_id -> descends self a x.
Proof.
  intros Hd. revert x Hd.
  refine (rtc_ind_r (fun x => x <> block_id -> descends self a x) a _ _); [intros; apply rtc_refl|].
  intros p x _ [Hc|[_ ->]]%inserted_child IH Hne; [|done]. eapply rtc_r; [|exact Hc]. apply IH.
  intros ->. destruct Hc as (b & Hb & _). congruence.
Qed.

Context (Hround : block_round parent < ExecutedBlock.round block).
Context (Horphan : forall i b, id_to_block self !! i = Some b -> block_parent b <> block_id).

Lemma inserted_links : links_ok inserted.
Proof.
  split.
  - intros i b [[-> ->]|(_ & b' & Hb' & He & _)]%inserted_lookup; [done|].
    unfold LinkableBlock.id. rewrite He. by apply (links_id self Hl).
  - intros p pb c Hpb Hc. assert (child inserted p c) as [(pb' & Hpb' & Hc')|[-> ->]]%inserted_child by (by exists pb).
    + destruct (links_child self Hl p pb' c Hpb' Hc') as (cb & Hcb & Hpar & Hlt).
      destruct (inserted_old c cb Hcb) as (cb' & Hcb'' & He). destruct (inserted_old p pb' Hpb') as (pb'' & Hpb'' & He').
      simplify_eq. exists cb'. unfold block_parent, block_round in *. rewrite He, He'. done.
    + exists (LinkableBlock.new block). split_and!; [cbn; by rewrite lookup_insert_eq | done|].
      destruct (inserted_old _ _ Hparent) as (pb' & Hpb' & He). simplify_eq. unfold block_round in *. by rewrite He.
  - intros c cb pb Hc Hp. apply inserted_lookup in Hc as [[-> ->]|(Hne & cb' & Hcb' & He & _)].
    + assert (child inserted parent_id block_id) as (pb' & Hpb' & ?) by (apply inserted_child; by right).
      change (id_to_block inserted !! parent_id = Some pb) in Hp. by simplify_eq.
    + unfold block_parent in Hp. rewrite He in Hp. fold (block_parent cb') in Hp.
      pose proof (Horphan c cb' Hcb') as Hno.
      apply inserted_lookup in Hp as [[? _]|(_ & pb' & Hpb' & _ & Hch)]; [done|]. apply Hch. left.
      by apply (links_parent self Hl c cb' pb').
Qed.

Lemma inserted_tree_ok tip : tree_ok self tip -> tree_ok inserted tip.
Proof.
  intros Hok. pose proof (ok_pruned _ _ Hok) as [Pn Pi Po Pr Px]. pose proof (ok_certs _ _ Hok) as [Ci Ct Ch Cr].
  assert (forall i, is_Some (id_to_block self !! i) -> is_Some (id_to_block inserted !! i)) as Hin.
  { intros i [b Hb]. destruct (inserted_old i b Hb) as (b' & Hb' & _). by eexists. }
  assert (forall i, is_Some (id_to_block self !! i) -> i <> block_id) as Hne.
  { intros i [b Hb] ->. congruence. }
  split.
  - apply inserted_links.
  - split; [done | intros x Hx; by apply Hin, Pi | | |].
    + intros l1 x l2 p Heq [Hc|[_ ->]]%inserted_child; [by eapply Po|]. exfalso.
      apply (Hne block_id); [|done]. apply Pi. change (pruned_block_ids self = l1 ++ block_id :: l2) in Heq.
      rewrite Heq. apply elem_of_app. right. left.
    + intros p [Hc|[_ Heq]]%inserted_child; [by apply Pr|]. by destruct (Hne _ (ok_root _ _ Hok)).
    + intros x Hx Hd. apply (Px x Hx). apply inserted_descends_inv; [done | by apply Hne, Pi].
  - split.
    + intros i qc Hqc. destruct (Ci i qc Hqc) as [? ?]. auto.
    + by apply inserted_descends.
    + done.
    + intros i qc b hb Hqc Hb Hhb. pose proof (certified_in _ _ Hok) as [hb' Hhb'].
      destruct (Ci i qc Hqc) as [_ [b' Hb']]. specialize (Cr i qc b' hb' Hqc Hb' Hhb').
      destruct (inserted_old _ _ Hb') as (b2 & Hb2 & He). destruct (inserted_old _ _ Hhb') as (hb2 & Hhb2 & He').
      change (highest_certified_block_id inserted) with (highest_certified_block_id self) in Hhb.
      simplify_eq. unfold block_round in *. by rewrite He, He'.
  - apply Hin. exact (ok_root _ _ Hok).
  - apply inserted_descends. exact (ok_tip _ _ Hok).
Qed.
End insert.

(** ** Certificates *)

Lemma insert_quorum_cert_Ok self tip qc : tree_ok self tip ->
  (forall b hb, id_to_block self !! BlockInfo.id (QuorumCert.certified_block qc) = Some b ->
     id_to_block self !! highest_certified_block_id self = Some hb -> block_round hb < block_round b ->
     descends self tip (BlockInfo.id (QuorumCert.certified_block qc))) ->
  match insert_quorum_cert self qc with
  | Ok self' => tree_ok self' tip /\ id_to_block self' = id_to_block self /\
      ordered_root_id self' = ordered_root_id self /\ commit_root_id self' = commit_root_id self /\
      highest_ledger_info self' = highest_ledger_info self
  | Err _ => True
  | Panic => False
  end.
Proof.
  intros Hok Hsafe. unfold insert_quorum_cert, highest_certified_block, get_block, get_linkable_block.
  set (i := BlockInfo.id (QuorumCert.certified_block qc)) in *.
  destruct (id_to_block self !! i) as [b|] eqn:Hb; [|done].
  destruct (certified_in _ _ Hok) as [hb Hhb]. rewrite Hhb. cbn.
  pose proof (ok_certs _ _ Hok) as [Ci Ct Ch Cr].
  pose proof (links_id _ (ok_links _ _ Hok) _ _ Hb) as Hid. unfold LinkableBlock.id in Hid.
  assert (forall j q, (match id_to_quorum_cert self !! i with Some _ => id_to_quorum_cert self
    | None => <[i := qc]> (id_to_quorum_cert self) end) !! j = Some q ->
    id_to_quorum_cert self !! j = Some q \/ (j = i /\ q = qc)) as Hcert.
  { intros j q. case_match; [by left|]. intros [[<- <-]|[_ ?]]%lookup_insert_Some; auto. }
  specialize (Hsafe b hb eq_refl Hhb). unfold block_round in Hsafe.
  destruct (Z.ltb_spec (ExecutedBlock.round (LinkableBlock.executed_block hb)) (ExecutedBlock.round (LinkableBlock.executed_block b))) as [Hlt|Hle];
    (split_and!; [|done..]);
    (split; [by destruct (ok_links _ _ Hok) | by destruct (ok_pruned _ _ Hok) | | exact (ok_root _ _ Hok) | exact (ok_tip _ _ Hok)]);
    split; cbn; rewrite ?Hid.
  - intros j q [Hq|[-> ->]]%Hcert; [by apply Ci | by rewrite Hb].
  - by apply Hsafe.
  - done.
  - intros j q b' hb' Hq Hb' Hhb'. simplify_eq. apply Hcert in Hq as [Hq|[-> ->]]; [|by simplify_eq].
    specialize (Cr j q b' hb Hq Hb' Hhb). unfold block_round in *. lia.
  - intros j q [Hq|[-> ->]]%Hcert; [by apply Ci | by rewrite Hb].
  - done.
  - done.
  - intros j q b' hb' Hq Hb' Hhb'. simplify_eq. apply Hcert in Hq as [Hq|[-> ->]]; [by eapply Cr | by simplify_eq].
Qed.

(** ** Commits *)

Lemma remove_oldest_eq self n : exists blocks certs,
  remove_oldest self n = set_pruned (set_blocks self blocks certs) (drop n (pruned_block_ids self)) /\
  (forall i, blocks !! i = if decide (i ∈ take n (pruned_block_ids self)) then None else id_to_block self !! i) /\
  (forall i, certs !! i = if decide (i ∈ take n (pruned_block_ids self)) then None else id_to_quorum_cert self !! i).
Proof.
  revert self. induction n as [|n IH]; intros self; cbn [remove_oldest].
  - exists (id_to_block self), (id_to_quorum_cert self). rewrite drop_0, take_0. split; [by destruct self|].
    split; intros i; (case_decide as Hi; [by apply elem_of_nil in Hi | done]).
  - destruct (pruned_block_ids self) as [|x rest] eqn:Hp.
    + destruct (IH self) as (bs & cs & -> & Hb & Hc). exists bs, cs. rewrite Hp in *. rewrite drop_nil, take_nil in *. done.
    + destruct (IH (remove_block (set_pruned self rest) x)) as (bs & cs & -> & Hb & Hc). exists bs, cs.
      cbn in *. split; [done|].
      split; intros i; [rewrite Hb | rewrite Hc]; rewrite lookup_delete;
        repeat case_decide; simplify_eq; try done; set_solver.
Qed.

(** [self] with another commit root. *)
Definition set_commit_root (self : t) (root_id : HashValue.t) : t :=
  mk (id_to_block self) (ordered_root_id self) root_id (highest_certified_block_id self)
    (highest_quorum_cert self) (highest_timeout_cert self) (highest_2chain_timeout_cert self)
    (highest_ordered_cert self) (highest_ledger_info self) (id_to_quorum_cert self) (pruned_block_ids self)
    (max_pruned_blocks_in_mem self).

(** The blocks that a new root leaves behind join the pruned ones. *)
Lemma pruned_ok_next self next ids : links_ok self -> pruned_ok self -> descends self (commit_root_id self) next ->
  NoDup ids -> (forall x, x ∈ ids <-> descends self (commit_root_id self) x /\ ~ descends self next x) ->
  parents_first self (commit_root_id self) ids -> is_Some (id_to_block self !! commit_root_id self) ->
  pruned_ok (set_commit_root (set_pruned self (pruned_block_ids self ++ ids)) next).
Proof.
  intros Hl [Pn Pi Po Pr Px] Hnext Hn Hids Hpf Hroot. split; cbn.
  - apply NoDup_app. split_and!; [done | | done]. intros x Hx [Hd _]%Hids. by apply (Px x).
  - intros x [Hx|[Hd _]%Hids]%elem_of_app; [by apply Pi | by apply (descends_in self Hl _ _ Hd)].
  - intros l1 x l2 p Heq Hc. change (child self p x) in Hc.
    apply app_eq_inv in Heq as [(k & Hk & Heq)|(k & Hk & Heq)].
    + destruct k as [|y k].
      * rewrite app_nil_r in Hk. cbn in Heq. destruct (Hpf [] x l2 p) as [->|Hp]; [done | done | | by apply elem_of_nil in Hp].
        rewrite <- Hk. by apply Pr.
      * injection Heq as <- ->. by apply (Po l1 x k p).
    + rewrite Hk. apply elem_of_app. destruct (Hpf k x l2 p) as [->|Hp]; [done | done | left; by apply Pr | by right].
  - intros p Hc. change (child self p next) in Hc. apply elem_of_app.
    destruct (decide (commit_root_id self = next)) as [<-|Hne]; [left; by apply Pr|]. right. apply Hids. split.
    + by apply (descends_parent self Hl _ _ next).
    + intros Hd. destruct (child_parent self Hl p next Hc) as (pb & nb & Hpb & Hnb & _ & Hlt).
      destruct (descends_round self Hl next p nb pb Hd Hnb Hpb) as [<-|?]; [simplify_eq|]; lia.
  - intros x [Hx|[_ Hx]%Hids]%elem_of_app Hd; [|done]. apply (Px x Hx). by etrans.
Qed.

(** Removing the oldest pruned blocks leaves consistent links, and the tree of
    the commit root as it was. *)
Section remove.
Context (self self' : t) (n : nat) (Hl : links_ok self) (Hp : pruned_ok self).
Context (Hblocks : forall i, id_to_block self' !! i =
  if decide (i ∈ take n (pruned_block_ids self)) then None else id_to_block self !! i).
Context (Hpruned : pruned_block_ids self' = drop n (pruned_block_ids self)).
Context (Hroot : commit_root_id self' = commit_root_id self).

Lemma removed_Some i b : id_to_block self' !! i = Some b ->
  id_to_block self !! i = Some b /\ i ∉ take n (pruned_block_ids self).
Proof. rewrite Hblocks. by case_decide. Qed.

Lemma removed_child p c : child self' p c <-> child self p c /\ p ∉ take n (pruned_block_ids self).
Proof.
  split.
  - intros (b & [Hb Hn]%removed_Some & Hc). split; [by exists b | done].
  - intros [(b & Hb & Hc) Hn]. exists b. rewrite Hblocks, decide_False by done. done.
Qed.

(** The child of a block that stays, stays. *)
Lemma removed_stays p c : child self p c -> p ∉ take n (pruned_block_ids self) -> c ∉ take n (pruned_block_ids self).
Proof.
  intros Hc Hn (l1 & l2 & Heq)%list_elem_of_split. apply Hn. rewrite Heq. apply elem_of_app. left.
  apply (pruned_order self Hp l1 c (l2 ++ drop n (pruned_block_ids self))); [|done].
  by rewrite app_comm_cons, app_assoc, <- Heq, take_drop.
Qed.

Lemma removed_links : links_ok self'.
Proof.
  split.
  - intros i b [Hb _]%removed_Some. by apply (links_id self Hl).
  - intros p pb c [Hpb Hn]%removed_Some Hc. destruct (links_child self Hl p pb c Hpb Hc) as (cb & Hcb & ? & ?).
    exists cb. rewrite Hblocks, decide_False; [done|]. apply (removed_stays p); [by exists pb | done].
  - intros c cb pb [Hcb _]%removed_Some [Hpb _]%removed_Some. by apply (links_parent self Hl c cb pb).
Qed.

Lemma removed_below x : descends self (commit_root_id self) x -> x ∉ take n (pruned_block_ids self).
Proof.
  intros Hd Hx. apply (pruned_outside self Hp x); [|done].
  rewrite <- (take_drop n (pruned_block_ids self)). apply elem_of_app. by left.
Qed.

Lemma removed_descends_inv a x : descends self' a x -> descends self a x.
Proof. apply rtc_subrel. by intros p c [Hc _]%removed_child. Qed.

Lemma removed_descends a x : descends self (commit_root_id self) a -> descends self a x -> descends self' a x.
Proof.
  intros Ha Hd. revert x Hd. refine (rtc_ind_r (fun x => descends self' a x) a _ _); [apply rtc_refl|].
  intros p c Hd Hc IH. eapply rtc_r; [exact IH|]. apply removed_child. split; [done|].
  apply removed_below. by etrans.
Qed.

Lemma removed_pruned : pruned_ok self'.
Proof.
  destruct Hp as [Pn Pi Po Pr Px]. pose proof (take_drop n (pruned_block_ids self)) as Htd.
  assert (NoDup (take n (pruned_block_ids self) ++ drop n (pruned_block_ids self))) as Hnd by by rewrite Htd.
  apply NoDup_app in Hnd as (_ & Hdis & Hnd). split; rewrite ?Hpruned, ?Hroot.
  - done.
  - intros x Hx. rewrite Hblocks, decide_False; [|by intros ?%Hdis]. apply Pi. rewrite <- Htd. apply elem_of_app. by right.
  - intros l1 x l2 p Heq [Hc Hn]%removed_child.
    assert (p ∈ take n (pruned_block_ids self) ++ l1) as [?|?]%elem_of_app; [|done|done].
    apply (Po _ x l2 p); [|done]. by rewrite <- app_assoc, <- Heq, Htd.
  - intros p [Hc Hn]%removed_child. apply Pr in Hc. rewrite <- Htd in Hc. by apply elem_of_app in Hc as [?|?].
  - intros x Hx Hd%removed_descends_inv. apply (Px x); [|done]. rewrite <- Htd. apply elem_of_app. by right.
Qed.
End remove.

(** What [process_pruned_blocks] does to the blocks that are pruned. *)
Lemma process_pruned_eq self ids : exists n blocks certs, let q := pruned_block_ids self ++ ids in
  process_pruned_blocks self ids = set_pruned (set_blocks self blocks certs) (drop n q) /\
  n = (length q - max_pruned_blocks_in_mem self)%nat /\
  (forall i, blocks !! i = if decide (i ∈ take n q) then None else id_to_block self !! i) /\
  (forall i, certs !! i = if decide (i ∈ take n q) then None else id_to_quorum_cert self !! i).
Proof.
  set (q := pruned_block_ids self ++ ids). set (n := (length q - max_pruned_blocks_in_mem self)%nat).
  destruct (remove_oldest_eq (set_pruned self q) n) as (bs & cs & Hrem & Hbs & Hcs). exists n, bs, cs. cbv zeta.
  split_and!; [|done..]. unfold process_pruned_blocks. fold q. cbv zeta.
  cbn [pruned_block_ids set_pruned max_pruned_blocks_in_mem]. fold n. case_bool_decide; [by rewrite Hrem|].
  assert (n = 0%nat) as Hn0 by lia. rewrite Hn0 in Hrem |- *. exact Hrem.
Qed.

Lemma process_pruned_roots self ids : commit_root_id (process_pruned_blocks self ids) = commit_root_id self.
Proof. by destruct (process_pruned_eq self ids) as (n & bs & cs & -> & _). Qed.

Lemma process_pruned_ledger_info self ids :
  highest_ledger_info (process_pruned_blocks self ids) = highest_ledger_info self.
Proof. by destruct (process_pruned_eq self ids) as (n & bs & cs & -> & _). Qed.

Lemma process_pruned_gone self ids x : x ∈ pruned_block_ids self ++ ids ->
  x ∈ pruned_block_ids (process_pruned_blocks self ids) \/ id_to_block (process_pruned_blocks self ids) !! x = None.
Proof.
  destruct (process_pruned_eq self ids) as (n & bs & cs & -> & _ & Hbs & _). cbn. intros Hx.
  rewrite <- (take_drop n (pruned_block_ids self ++ ids)) in Hx. apply elem_of_app in Hx as [Hx|Hx]; [|by left].
  right. by rewrite Hbs, decide_True.
Qed.

Section commit.
Context {S} (prune_tree : S -> list HashValue.t -> S * outcome string unit).

(** A commit of a block between the root and the tip: it becomes the root, what
    is below it stays, and the storage is told to prune the blocks that are
    left behind. *)
Lemma commit_callback_Ok self tip storage blocks block proof : tree_ok self tip ->
  last blocks = Some block ->
  descends self (commit_root_id self) (ExecutedBlock.id block) -> descends self (ExecutedBlock.id block) tip ->
  BlockInfo.id (LedgerInfoWithSignatures.commit_info proof) = ExecutedBlock.id block ->
  BlockInfo.round (LedgerInfoWithSignatures.commit_info (highest_ledger_info self))
    < BlockInfo.round (LedgerInfoWithSignatures.commit_info proof) ->
  exists ids self', commit_callback prune_tree self storage blocks proof = Ok ((prune_tree storage ids).1, self') /\
    find_blocks_to_prune self (ExecutedBlock.id block) = Ok ids /\
    tree_ok self' tip /\ commit_root_id self' = ExecutedBlock.id block /\
    ordered_root_id self' = ordered_root_id self /\ highest_ledger_info self' = proof /\
    (forall a x, descends self (ExecutedBlock.id block) a -> descends self a x -> descends self' a x) /\
    (forall x, descends self (ExecutedBlock.id block) x -> id_to_block self' !! x = id_to_block self !! x) /\
    highest_certified_block_id self' = highest_certified_block_id self /\
    (forall x b, id_to_block self' !! x = Some b -> id_to_block self !! x = Some b) /\
    (length (pruned_block_ids self') <= max_pruned_blocks_in_mem self)%nat.
Proof.
  intros Hok Hlast Hnext Htip Hid Hround. set (next := ExecutedBlock.id block) in *.
  pose proof Hok as [Hl Hp [Ci Ct Ch Cr] Hroot _].
  destruct (find_blocks_to_prune_Ok self next Hl Hroot Hnext) as (ids & Hfind & Hn & Hids & Hpf).
  pose proof (pruned_ok_next self next ids Hl Hp Hnext Hn Hids Hpf Hroot) as Hp1.
  set (q := pruned_block_ids self ++ ids) in *. set (self1 := set_commit_root (set_pruned self q) next) in *.
  assert (links_ok self1) as Hl1 by (by destruct Hl).
  destruct (process_pruned_eq self ids) as (n & bs & cs & Hproc & Hlen & Hbs & Hcs). fold q in Hproc, Hlen, Hbs, Hcs.
  set (self2 := mk bs (ordered_root_id self) next (highest_certified_block_id self)
    (highest_quorum_cert self) (highest_timeout_cert self) (highest_2chain_timeout_cert self)
    (highest_ordered_cert self) proof cs (drop n q) (max_pruned_blocks_in_mem self)).
  pose proof (removed_links self1 self2 n Hl1 Hp1 Hbs) as Hl2.
  pose proof (removed_pruned self1 self2 n Hp1 Hbs eq_refl eq_refl) as Hp2.
  pose proof (removed_below self1 n Hp1) as Hbel.
  pose proof (removed_descends self1 self2 n Hp1 Hbs) as Hdesc.
  cbn in Hbel, Hdesc.
  assert (forall x, descends self next x -> bs !! x = id_to_block self !! x) as Hsame.
  { intros x Hx. rewrite Hbs, decide_False; [done|]. by apply Hbel. }
  assert (is_Some (bs !! next)) as Hin.
  { rewrite Hsame by apply rtc_refl. by apply (descends_in self Hl _ _ Hnext). }
  exists ids, self2. split_and!; try done.
  - unfold commit_callback, commit_root, get_block, get_linkable_block. rewrite Hlast. cbn. destruct Hroot as [rb ->]. cbn.
    fold next. rewrite Hfind. cbn. destruct (prune_tree storage ids) as [storage' r]. rewrite Hproc.
    unfold update_highest_ledger_info, update_commit_root, block_exists. cbn. rewrite Hid.
    rewrite (proj2 (Z.ltb_lt _ _) Hround), (bool_decide_eq_true_2 _ Hin). done.
  - split; [done | done | | done | by apply Hdesc; [apply rtc_refl|]].
    assert (descends self next (highest_certified_block_id self)) as Hcert by (by etrans).
    split; cbn.
    + intros i qc. rewrite Hcs, Hbs. case_decide; [done | apply Ci].
    + by apply Hdesc.
    + done.
    + intros i qc b hb. rewrite Hcs, Hbs. rewrite (Hsame _ Hcert). case_decide; [done | apply Cr].
  - intros x b. cbn. rewrite Hbs. by case_decide.
  - cbn. rewrite length_drop. lia.
Qed.

(** C39: A callback that comes too late prunes the live tree. If the block of a
    commit callback is not in the tree, because the tree was rebuilt after the
    commit was sent, and its commit proof is not newer than the one of the tree,
    then [commit_callback] succeeds, keeps the commit root, and yet tells the
    storage to delete every block below the commit root, the root included, and
    puts all of them among the pruned blocks or removes them from memory. *)
Theorem late_callback_prunes_tree self tip storage blocks block proof : tree_ok self tip ->
  last blocks = Some block -> id_to_block self !! ExecutedBlock.id block = None ->
  BlockInfo.round (LedgerInfoWithSignatures.commit_info proof)
    <= BlockInfo.round (LedgerInfoWithSignatures.commit_info (highest_ledger_info self)) ->
  exists ids self', commit_callback prune_tree self storage blocks proof = Ok ((prune_tree storage ids).1, self') /\
    commit_root_id self' = commit_root_id self /\
    (forall x, x ∈ ids <-> descends self (commit_root_id self) x) /\
    (forall x, x ∈ ids -> x ∈ pruned_block_ids self' \/ id_to_block self' !! x = None).
Proof.
  intros [Hl _ _ Hroot _] Hlast Hout Hround.
  destruct (find_blocks_to_prune_outside self (ExecutedBlock.id block) Hl Hroot Hout) as (ids & Hfind & Hids).
  exists ids, (process_pruned_blocks self ids). split_and!; [| | done|].
  - unfold commit_callback, commit_root, get_block, get_linkable_block. rewrite Hlast. cbn. destruct Hroot as [rb ->]. cbn.
    rewrite Hfind. cbn. destruct (prune_tree storage ids) as [storage' r]. unfold update_highest_ledger_info.
    rewrite (process_pruned_ledger_info self ids), (proj2 (Z.ltb_ge _ _) Hround). done.
  - apply process_pruned_roots.
  - intros x Hx. apply process_pruned_gone, elem_of_app. by right.
Qed.
End commit.
End inv.
