(* ===== verification/BlockStore.v ===== *)
(** * The block store (consensus/src/block_storage/block_store.rs and
    sync_manager.rs, consensus/src/state_computer.rs)

    The block tree together with the executor and the persistent storage:
    execution and insertion of blocks, certificates, and commits, whose
    callback runs later in a task of its own. The operations are here as they run
    when nothing comes in between; BlockStoreTasks.v cuts them into the steps
    between which the callback can run. *)
From stdpp Require Import prelude gmap strings sorting.
From Stdlib Require Import ZArith Lia.
From S2P Require Import Prelude Bits Hash HashValues Primitives LedgerInfo ConsensusTypes Blocks ConsensusMsgs BlockTree.

(** ** The executor and the storage *)

(** execution/executor-types/src/error.rs *)
Module ExecutionError.
Inductive t :=
| BlockNotFound (id : HashValue.t)
| BadNumTxnsToCommit (first_version to_commit target_version : Z)
| InternalError (error : string)
| SerializationError (error : string)
| EmptyBlocks.
End ExecutionError.

(** The operations of the trait [ExecutionCorrectness] that the block store
    uses; [X] is the state of the executor. *)
Class ExecutionCorrectness `{Primitives} `{ExecutionTypes} (X : Type) := {
  execute_block : Block.t -> HashValue.t -> action X ExecutionError.t StateComputeResult.t;
  commit_blocks : list HashValue.t -> LedgerInfoWithSignatures.t -> action X ExecutionError.t unit
}.

(** The operations of the trait [PersistentLivenessStorage] that the block store
    uses. *)
Class LivenessStorage `{Primitives} (S : Type) := {
  save_tree : list Block.t -> list QuorumCert.t -> action S string unit;
  prune_tree : list HashValue.t -> action S string unit;
  save_highest_timeout_cert : TimeoutCertificate.t -> action S string unit;
  save_highest_2chain_timeout_cert : TwoChainTimeoutCertificate.t -> action S string unit
}.

(** ** persistent_liveness_storage.rs *)

Module RootInfo.
Record t `{Primitives} := mk {
  block : Block.t;
  quorum_cert : QuorumCert.t;
  ordered_cert : QuorumCert.t;
  ledger_info : LedgerInfoWithSignatures.t
}.
End RootInfo.

Module RootMetadata.
Record t := mk { accu_hash : HashValue.t; frozen_root_hashes : list HashValue.t; num_leaves : Z }.

Definition new (num_leaves : Z) (accu_hash : HashValue.t) (frozen_root_hashes : list HashValue.t) : t :=
  mk accu_hash frozen_root_hashes num_leaves.

Definition version (self : t) : Z := Z.max (num_leaves self) 1 - 1.
End RootMetadata.

Module BlockStore.
Section store.
Context `{Primitives} `{!CryptoHash VoteData.t} `{!CryptoHash LedgerInfo.t} `{!CryptoHash BlockData.t}.
Context `{ExecutionTypes} `{!MerkleHasher HashValue.t} `{!EqDecision StateComputeResult.t} `{HashSetOrder}.
Context {X S : Type} `{!ExecutionCorrectness X} `{!LivenessStorage S}.

Inductive Error := Message (msg : string) | Execution (error : ExecutionError.t).

(** What [ExecutionProxy] sends to the task that notifies the state
    synchronizer and then runs the callback: the arguments of the callback, the
    transactions and the events. *)
Record Notification := mk_Notification {
  blocks : list ExecutedBlock.t;
  finality_proof : LedgerInfoWithSignatures.t;
  txns : list Transaction;
  reconfig_events : list ContractEvent
}.

Record t := mk {
  inner : BlockTree.t;
  executor : X;
  storage : S;
  notifications : list Notification;
  back_pressure_limit : Z
}.

Definition set_inner (self : t) (inner : BlockTree.t) : t :=
  mk inner (executor self) (storage self) (notifications self) (back_pressure_limit self).
Definition set_executor (self : t) (executor : X) : t :=
  mk (inner self) executor (storage self) (notifications self) (back_pressure_limit self).
Definition set_storage (self : t) (storage : S) : t :=
  mk (inner self) (executor self) storage (notifications self) (back_pressure_limit self).
Definition set_notifications (self : t) (notifications : list Notification) : t :=
  mk (inner self) (executor self) (storage self) notifications (back_pressure_limit self).

(** [self.inner.read()] and [self.inner.write()] *)
Definition reading {A} (f : BlockTree.t -> outcome string A) : action t Error A := fun self =>
  (self, map_err Message (f (inner self))).

Definition writing {A} (f : BlockTree.t -> outcome string (BlockTree.t * A)) : action t Error A := fun self =>
  match f (inner self) with
  | Ok (tree, a) => (set_inner self tree, Ok a)
  | Err e => (self, Err (Message e))
  | Panic => (self, Panic)
  end.

(** A call of the storage whose error gets a context. *)
Definition storing (m : action S string unit) (context : string) : action t Error unit :=
  map_error (fun _ => Message context) (zoom storage set_storage m).

(** [res.expect(..)] and [res.unwrap_or_else(|e| panic!(..))] *)
Definition or_panic {E A} (m : action t E A) : action t Error A := fun self =>
  match m self with
  | (self, Ok a) => (self, Ok a)
  | (self, _) => (self, Panic)
  end.

(** *** [ExecutionProxy] (state_computer.rs) *)

(** The mempool is notified of the failed transactions; its errors are logged. *)
Definition compute (block : Block.t) (parent_block_id : HashValue.t)
    : action t ExecutionError.t StateComputeResult.t :=
  zoom executor set_executor (execute_block block parent_block_id).

(** The loop over the blocks: the transactions and the events to commit. *)
Fixpoint collect_txns (blocks : list ExecutedBlock.t) : outcome ExecutionError.t (list Transaction * list ContractEvent) :=
  match blocks with
  | [] => Ok ([], [])
  | block :: blocks =>
      txns ← map_err ExecutionError.InternalError (ExecutedBlock.transactions_to_commit block);
      rest ← collect_txns blocks;
      Ok (txns ++ rest.1, ExecutedBlock.reconfig_event block ++ rest.2)
  end.

Definition proxy_commit (blocks : list ExecutedBlock.t) (finality_proof : LedgerInfoWithSignatures.t)
    : action t ExecutionError.t unit :=
  collected ← lift (collect_txns blocks);
  zoom executor set_executor (commit_blocks (ExecutedBlock.id <$> blocks) finality_proof) ;;
  modify (fun self => set_notifications self
    (notifications self ++ [mk_Notification blocks finality_proof collected.1 collected.2])).

(** *** [BlockStore] *)

Definition execute (block : Block.t) : action t ExecutionError.t ExecutedBlock.t :=
  state_compute_result ← compute block (Block.parent_id block);
  mret (ExecutedBlock.new block state_compute_result).

Fixpoint reexecute (blocks : list ExecutedBlock.t) : action t Error unit :=
  match blocks with
  | [] => mret tt
  | block :: blocks => map_error Execution (execute (ExecutedBlock.block block)) ;; reexecute blocks
  end.

(** The [match] on the result of the execution: an unknown parent is recovered
    by executing its ancestors again. *)
Definition execute_or_recover (block : Block.t) : action t Error ExecutedBlock.t := fun self =>
  match execute block self with
  | (self, Err (ExecutionError.BlockNotFound parent_block_id)) =>
      (blocks_to_reexecute ← reading (fun tree => BlockTree.path_from_ordered_root tree parent_block_id);
       reexecute (default [] blocks_to_reexecute) ;;
       map_error Execution (execute block)) self
  | (self, res) => (self, map_err Execution res)
  end.

(** The wait until the local time is past the block time does not touch the
    store; what can happen meanwhile is in BlockStoreTasks.v. *)
Definition execute_and_insert_block (block : Block.t) : action t Error ExecutedBlock.t :=
  existing ← gets (fun self => BlockTree.get_block (inner self) (Block.id block));
  match existing with
  | Some existing_block => mret existing_block
  | None =>
      root ← reading BlockTree.ordered_root;
      lift (ensure (ExecutedBlock.round root <? Block.round block) (Message "Block with old round")) ;;
      executed_block ← execute_or_recover block;
      storing (save_tree [ExecutedBlock.block executed_block] []) "Insert block failed when saving block" ;;
      writing (fun tree => BlockTree.insert_block tree executed_block)
  end.

Definition insert_single_quorum_cert (qc : QuorumCert.t) : action t Error unit :=
  existing ← gets (fun self => BlockTree.get_block (inner self) (BlockInfo.id (QuorumCert.certified_block qc)));
  match existing with
  | Some executed_block =>
      lift (ensure (BlockInfo.match_ordered_only (ExecutedBlock.block_info executed_block)
                      (QuorumCert.certified_block qc))
              (Message "QC has a different block info than local")) ;;
      storing (save_tree [] [qc]) "Insert block failed when saving quorum" ;;
      writing (fun tree => tree ← BlockTree.insert_quorum_cert tree qc; Ok (tree, tt))
  | None => lift (Err (Message "Insert QC without having the block in store first"))
  end.

(** The round it is compared with is that of the 2-chain certificate, as in the
    source. *)
Definition insert_timeout_certificate (tc : TimeoutCertificate.t) : action t Error unit :=
  current ← gets (fun self => BlockTree.highest_2chain_timeout_cert (inner self));
  let cur_tc_round := from_option TwoChainTimeoutCertificate.round 0 current in
  if TimeoutCertificate.round tc <=? cur_tc_round then mret tt
  else
    storing (save_highest_timeout_cert tc) "Timeout certificate insert failed when persisting to DB" ;;
    modify (fun self => set_inner self (BlockTree.replace_timeout_cert (inner self) tc)).

Definition insert_2chain_timeout_certificate (tc : TwoChainTimeoutCertificate.t) : action t Error unit :=
  current ← gets (fun self => BlockTree.highest_2chain_timeout_cert (inner self));
  let cur_tc_round := from_option TwoChainTimeoutCertificate.round 0 current in
  if TwoChainTimeoutCertificate.round tc <=? cur_tc_round then mret tt
  else
    storing (save_highest_2chain_timeout_cert tc) "Timeout certificate insert failed when persisting to DB" ;;
    modify (fun self => set_inner self (BlockTree.replace_2chain_timeout_cert (inner self) tc)).

(** [self.inner.write().update_ordered_root(..)] *)
Definition update_ordered_root (block_id : HashValue.t) : action t Error unit :=
  writing (fun tree => tree ← BlockTree.update_ordered_root tree block_id; Ok (tree, tt)).

Definition commit (finality_proof : LedgerInfoWithSignatures.t) : action t Error unit :=
  let block_id_to_commit :=
    LedgerInfo.consensus_block_id (LedgerInfoWithSignatures.ledger_info finality_proof) in
  found ← gets (fun self => BlockTree.get_block (inner self) block_id_to_commit);
  block_to_commit ← lift (ok_or found (Message "Committed block id not found"));
  root ← reading BlockTree.ordered_root;
  lift (ensure (ExecutedBlock.round root <? ExecutedBlock.round block_to_commit)
          (Message "Committed block round lower than root")) ;;
  path ← reading (fun tree => BlockTree.path_from_ordered_root tree block_id_to_commit);
  let blocks_to_commit := default [] path in
  lift (assert_ (negb (bool_decide (length blocks_to_commit = 0%nat)))) ;;
  or_panic (proxy_commit blocks_to_commit finality_proof) ;;
  update_ordered_root (ExecutedBlock.id block_to_commit).

(** The task started in [ExecutionProxy::new]: the oldest notification. *)
Definition run_callback : action t Error unit := fun self =>
  match notifications self with
  | [] => (self, Ok tt)
  | n :: rest =>
      let self := set_notifications self rest in
      match BlockTree.commit_callback (fun s ids => prune_tree ids s) (inner self) (storage self) (blocks n)
              (finality_proof n) with
      | Ok (storage, tree) => (set_storage (set_inner self tree) storage, Ok tt)
      | Err e => (self, Err (Message e))
      | Panic => (self, Panic)
      end
  end.

Definition sync_info (self : t) : outcome string SyncInfo.t :=
  SyncInfo.new_decoupled (BlockTree.highest_quorum_cert (inner self)) (BlockTree.highest_ordered_cert (inner self))
    (Some (BlockTree.highest_ledger_info (inner self))) (BlockTree.highest_timeout_cert (inner self))
    (BlockTree.highest_2chain_timeout_cert (inner self)).

(** *** Recovery *)

(** [sort_unstable_by_key]: equal keys come in any order, that of [values]. *)
Definition by_commit_round (qc1 qc2 : QuorumCert.t) : Prop :=
  BlockInfo.round (QuorumCert.commit_info qc1) <= BlockInfo.round (QuorumCert.commit_info qc2).

#[global] Instance by_commit_round_dec : RelDecision by_commit_round.
Proof. intros qc1 qc2. unfold by_commit_round. apply _. Defined.

Fixpoint try_commit_loop (certs : list QuorumCert.t) : action t Error unit :=
  match certs with
  | [] => mret tt
  | qc :: certs =>
      root ← reading BlockTree.commit_root;
      (if ExecutedBlock.round root <? BlockInfo.round (QuorumCert.commit_info qc)
       then catch (commit (QuorumCert.ledger_info qc)) (fun _ => mret tt)
       else mret tt) ;;
      try_commit_loop certs
  end.

Definition try_commit : action t Error unit := fun self =>
  try_commit_loop (merge_sort by_commit_round (BlockTree.get_all_quorum_certs_with_commit_info (inner self))) self.

(** The loops of [build]. *)
Fixpoint for_each_or_panic {A B} (f : A -> action t Error B) (l : list A) : action t Error unit :=
  match l with
  | [] => mret tt
  | x :: l => or_panic (f x) ;; for_each_or_panic f l
  end.

(** The executor and the storage are shared with the caller. *)
Definition build (root : RootInfo.t) (root_metadata : RootMetadata.t) (blocks : list Block.t)
    (quorum_certs : list QuorumCert.t) (highest_timeout_cert : option TimeoutCertificate.t)
    (highest_2chain_timeout_cert : option TwoChainTimeoutCertificate.t) (state_computer : X) (storage : S)
    (notifications : list Notification) (max_pruned_blocks_in_mem : nat) (back_pressure_limit : Z)
    : outcome Error t :=
  let root_qc := RootInfo.quorum_cert root in
  assert_ ((BlockInfo.version (QuorumCert.certified_block root_qc) =? 0)
           || (BlockInfo.version (QuorumCert.certified_block root_qc) =? RootMetadata.version root_metadata)) ;;
  assert_ (bool_decide (BlockInfo.executed_state_id (QuorumCert.certified_block root_qc) = ACCUMULATOR_PLACEHOLDER)
           || bool_decide (BlockInfo.executed_state_id (QuorumCert.certified_block root_qc)
                           = RootMetadata.accu_hash root_metadata)) ;;
  let result := StateComputeResult.new (RootMetadata.accu_hash root_metadata)
    (RootMetadata.frozen_root_hashes root_metadata) (RootMetadata.num_leaves root_metadata) [] 0 None [] [] [] in
  let executed_root_block := ExecutedBlock.new (RootInfo.block root) result in
  tree ← map_err Message (BlockTree.new executed_root_block root_qc (RootInfo.ordered_cert root)
    (RootInfo.ledger_info root) max_pruned_blocks_in_mem highest_timeout_cert highest_2chain_timeout_cert);
  let block_store := mk tree state_computer storage notifications back_pressure_limit in
  match (for_each_or_panic execute_and_insert_block blocks ;;
         for_each_or_panic insert_single_quorum_cert quorum_certs) block_store with
  | (block_store, Ok _) => _ ← map_err Message (BlockTree.ordered_root (inner block_store)); Ok block_store
  | (_, Err e) => Err e
  | (_, Panic) => Panic
  end.

(** The callbacks that are pending keep pointing at the tree of [self], which
    is replaced in place. *)
Definition rebuild (root : RootInfo.t) (root_metadata : RootMetadata.t) (blocks : list Block.t)
    (quorum_certs : list QuorumCert.t) : action t Error unit := fun self =>
  match build root root_metadata blocks quorum_certs (BlockTree.highest_timeout_cert (inner self))
          (BlockTree.highest_2chain_timeout_cert (inner self)) (executor self) (storage self) (notifications self)
          (BlockTree.max_pruned_blocks_in_mem (inner self)) (back_pressure_limit self) with
  | Ok built =>
      let to_remove := BlockTree.get_all_block_id (inner self) in
      let (storage, _) := prune_tree to_remove (storage built) in
      try_commit (set_storage built storage)
  | Err e => (self, Err e)
  | Panic => (self, Panic)
  end.

(** *** sync_manager.rs *)

Inductive NeedFetchResult := QCRoundBeforeRoot | QCAlreadyExist | QCBlockExist | NeedFetch.

Definition need_sync_for_ledger_info (self : t) (li : LedgerInfoWithSignatures.t) : outcome string bool :=
  root ← BlockTree.ordered_root (inner self);
  Ok ((ExecutedBlock.round root + back_pressure_limit self)%u64
      <? BlockInfo.round (LedgerInfoWithSignatures.commit_info li)).

Definition need_fetch_for_quorum_cert (self : t) (qc : QuorumCert.t) : outcome string NeedFetchResult :=
  root ← BlockTree.ordered_root (inner self);
  Ok (if BlockInfo.round (QuorumCert.certified_block qc) <? ExecutedBlock.round root then QCRoundBeforeRoot
      else if bool_decide (is_Some (BlockTree.get_quorum_cert_for_block (inner self)
                                      (BlockInfo.id (QuorumCert.certified_block qc)))) then QCAlreadyExist
      else if BlockTree.block_exists (inner self) (BlockInfo.id (QuorumCert.certified_block qc)) then QCBlockExist
      else NeedFetch).
End store.
Arguments t {_ _} X S.
Arguments Notification {_ _}.
End BlockStore.
