(* ===== verification/BlockStoreTasks.v ===== *)
(** * The operations of the block store as interruptible tasks

    The operations of the consensus task lock the tree anew for every access and
    await the executor and the storage, and the task of the commit callbacks can
    run at each of these points. Here each operation is a task: a sequence of
    atomic accesses to the store. A task that runs without an interruption is the
    operation of BlockStore.v. *)
From stdpp Require Import prelude gmap strings sorting.
From Stdlib Require Import ZArith Lia.
From S2P Require Import Prelude Bits Hash HashValues Primitives LedgerInfo ConsensusTypes Blocks ConsensusMsgs BlockTree BlockStore.

Section tasks.
Context `{Primitives} `{!CryptoHash VoteData.t} `{!CryptoHash LedgerInfo.t} `{!CryptoHash BlockData.t}.
Context `{ExecutionTypes} `{!MerkleHasher HashValue.t} `{!EqDecision StateComputeResult.t} `{HashSetOrder}.
Context {X S : Type} `{!ExecutionCorrectness X} `{!LivenessStorage S}.
Import BlockStore.

(** [Step] is one access to the store: the store after it, and what follows.
    [Persist] hands blocks to the state
    computer, a failure of which is a panic, and then makes [id] the ordered
    root, in an access of its own. *)
Inductive task (A : Type) :=
| Done (r : outcome Error A)
| Step (after : BlockStore.t X S -> BlockStore.t X S) (rest : BlockStore.t X S -> task A)
| Persist (blocks : list ExecutedBlock.t) (proof : LedgerInfoWithSignatures.t) (id : HashValue.t) (rest : task A).
#[global] Arguments Done {_} _.
#[global] Arguments Step {_} _ _.
#[global] Arguments Persist {_} _ _ _ _.

#[global] Instance task_ret : MRet task := fun A a => Done (Ok a).
#[global] Instance task_bind : MBind task := fun A B k =>
  fix bind (t : task A) : task B :=
    match t with
    | Done (Ok a) => k a
    | Done (Err e) => Done (Err e)
    | Done Panic => Done Panic
    | Step after rest => Step after (fun st => bind (rest st))
    | Persist blocks proof id rest => Persist blocks proof id (bind rest)
    end.

(** One access, and a computation that accesses nothing. *)
Definition atomic {A} (m : action (BlockStore.t X S) Error A) : task A :=
  Step (fun st => (m st).1) (fun st => Done (m st).2).

Definition pure {A} (r : outcome Error A) : task A := Done r.

(** A task without interruptions. *)
Fixpoint run {A} (t : task A) (st : BlockStore.t X S) : BlockStore.t X S * outcome Error A :=
  match t with
  | Done r => (st, r)
  | Step after rest => run (rest st) (after st)
  | Persist blocks proof id rest =>
      (or_panic (proxy_commit blocks proof) ;; update_ordered_root id ;; run rest) st
  end.

(** ** The operations *)

Fixpoint reexecute_task (blocks : list ExecutedBlock.t) : task unit :=
  match blocks with
  | [] => mret tt
  | block :: blocks => atomic (map_error Execution (execute (ExecutedBlock.block block))) ;; reexecute_task blocks
  end.

(** The result of the first execution is a value, for the [match]. *)
Definition execute_or_recover_task (block : Block.t) : task ExecutedBlock.t :=
  executed ← atomic (fun self => let (self, r) := execute block self in (self, Ok r));
  match executed with
  | Err (ExecutionError.BlockNotFound parent_block_id) =>
      blocks_to_reexecute ← atomic (reading (fun tree => BlockTree.path_from_ordered_root tree parent_block_id));
      reexecute_task (default [] blocks_to_reexecute) ;;
      atomic (map_error Execution (execute block))
  | res => pure (map_err Execution res)
  end.

Definition insert_task (block : Block.t) : task ExecutedBlock.t :=
  existing ← atomic (gets (fun self => BlockTree.get_block (inner self) (Block.id block)));
  match existing with
  | Some existing_block => mret existing_block
  | None =>
      root ← atomic (reading BlockTree.ordered_root);
      pure (ensure (ExecutedBlock.round root <? Block.round block) (Message "Block with old round")) ;;
      executed_block ← execute_or_recover_task block;
      atomic (storing (save_tree [ExecutedBlock.block executed_block] []) "Insert block failed when saving block") ;;
      atomic (writing (fun tree => BlockTree.insert_block tree executed_block))
  end.

Definition insert_qc_task (qc : QuorumCert.t) : task unit :=
  existing ← atomic (gets (fun self => BlockTree.get_block (inner self) (BlockInfo.id (QuorumCert.certified_block qc))));
  match existing with
  | Some executed_block =>
      pure (ensure (BlockInfo.match_ordered_only (ExecutedBlock.block_info executed_block)
                      (QuorumCert.certified_block qc))
              (Message "QC has a different block info than local")) ;;
      atomic (storing (save_tree [] [qc]) "Insert block failed when saving quorum") ;;
      atomic (writing (fun tree => tree ← BlockTree.insert_quorum_cert tree qc; Ok (tree, tt)))
  | None => pure (Err (Message "Insert QC without having the block in store first"))
  end.

Definition insert_tc_task (tc : TimeoutCertificate.t) : task unit :=
  current ← atomic (gets (fun self => BlockTree.highest_2chain_timeout_cert (inner self)));
  let cur_tc_round := from_option TwoChainTimeoutCertificate.round 0 current in
  if TimeoutCertificate.round tc <=? cur_tc_round then mret tt
  else
    atomic (storing (save_highest_timeout_cert tc) "Timeout certificate insert failed when persisting to DB") ;;
    atomic (modify (fun self => set_inner self (BlockTree.replace_timeout_cert (inner self) tc))).

Definition insert_2chain_tc_task (tc : TwoChainTimeoutCertificate.t) : task unit :=
  current ← atomic (gets (fun self => BlockTree.highest_2chain_timeout_cert (inner self)));
  let cur_tc_round := from_option TwoChainTimeoutCertificate.round 0 current in
  if TwoChainTimeoutCertificate.round tc <=? cur_tc_round then mret tt
  else
    atomic (storing (save_highest_2chain_timeout_cert tc) "Timeout certificate insert failed when persisting to DB") ;;
    atomic (modify (fun self => set_inner self (BlockTree.replace_2chain_timeout_cert (inner self) tc))).

Definition commit_task (finality_proof : LedgerInfoWithSignatures.t) : task unit :=
  let block_id_to_commit :=
    LedgerInfo.consensus_block_id (LedgerInfoWithSignatures.ledger_info finality_proof) in
  found ← atomic (gets (fun self => BlockTree.get_block (inner self) block_id_to_commit));
  block_to_commit ← pure (ok_or found (Message "Committed block id not found"));
  root ← atomic (reading BlockTree.ordered_root);
  pure (ensure (ExecutedBlock.round root <? ExecutedBlock.round block_to_commit)
          (Message "Committed block round lower than root")) ;;
  path ← atomic (reading (fun tree => BlockTree.path_from_ordered_root tree block_id_to_commit));
  let blocks_to_commit := default [] path in
  pure (assert_ (negb (bool_decide (length blocks_to_commit = 0%nat)))) ;;
  Persist blocks_to_commit finality_proof (ExecutedBlock.id block_to_commit) (mret tt).

(** ** Tasks without interruptions *)

Lemma run_bind {A B} (t : task A) (k : A -> task B) st :
  run (t ≫= k) st = ((run t : action _ _ A) ≫= fun a => (run (k a) : action _ _ B)) st.
Proof.
  revert st. induction t as [[a|e|]|after rest IH|blocks proof id rest IH]; intros st; try done.
  - exact (IH st (after st)).
  - cbn [run]. change (Persist blocks proof id rest ≫= k) with (Persist blocks proof id (rest ≫= k)). cbn [run].
    unfold mbind at 1 2 4 5 6, action_bind. destruct (or_panic _ _) as [st1 [[]|e|]]; [|done..].
    destruct (update_ordered_root id st1) as [st2 [[]|e|]]; [|done..]. apply IH.
Qed.

(** A task implements an operation. *)
Definition implements {A} (t : task A) (m : action (BlockStore.t X S) Error A) : Prop := forall st, run t st = m st.

Lemma implements_atomic {A} (m : action (BlockStore.t X S) Error A) : implements (atomic m) m.
Proof. intros st. cbn. by destruct (m st). Qed.

Lemma implements_pure {A} (r : outcome Error A) : implements (pure r) (lift r).
Proof. done. Qed.

Lemma implements_ret {A} (a : A) : implements (mret a) (mret a).
Proof. done. Qed.

Lemma implements_bind {A B} (t : task A) m (k : A -> task B) f : implements t m ->
  (forall a, implements (k a) (f a)) -> implements (t ≫= k) (m ≫= f).
Proof.
  intros Ht Hk st. rewrite run_bind. unfold mbind, action_bind. rewrite (Ht st).
  destruct (m st) as [st' [a|e|]]; [apply Hk | done..].
Qed.

Lemma implements_persist blocks proof id :
  implements (Persist blocks proof id (mret tt)) (or_panic (proxy_commit blocks proof) ;; update_ordered_root id).
Proof.
  intros st. cbn [run]. unfold mbind, action_bind. destruct (or_panic _ _) as [st1 [[]|e|]]; [|done..].
  by destruct (update_ordered_root id st1) as [st2 [[]|e|]].
Qed.

#[local] Hint Resolve implements_atomic implements_pure implements_ret implements_bind implements_persist : core.

Lemma reexecute_implements blocks : implements (reexecute_task blocks) (reexecute blocks).
Proof. induction blocks; cbn [reexecute_task reexecute]; auto. Qed.

Lemma execute_or_recover_implements block : implements (execute_or_recover_task block) (execute_or_recover block).
Proof.
  intros st. unfold execute_or_recover_task, execute_or_recover. rewrite run_bind. unfold mbind at 1, action_bind at 1.
  rewrite implements_atomic. destruct (execute block st) as [st' [b|[] |]]; try done.
  revert st'. change (implements ?t ?m) with (forall st, run t st = m st).
  apply implements_bind; [auto|]. intros path. apply implements_bind; [apply reexecute_implements | auto].
Qed.

(** Tasks without interruptions are the operations of the block store. *)
Theorem tasks_implement :
  (forall block, implements (insert_task block) (execute_and_insert_block block)) /\
  (forall qc, implements (insert_qc_task qc) (insert_single_quorum_cert qc)) /\
  (forall tc, implements (insert_tc_task tc) (insert_timeout_certificate tc)) /\
  (forall tc, implements (insert_2chain_tc_task tc) (insert_2chain_timeout_certificate tc)) /\
  (forall proof, implements (commit_task proof) (commit proof)).
Proof.
  split_and!; intros; [unfold insert_task, execute_and_insert_block | unfold insert_qc_task, insert_single_quorum_cert
    | unfold insert_tc_task, insert_timeout_certificate | unfold insert_2chain_tc_task, insert_2chain_timeout_certificate
    | unfold commit_task, commit];
    repeat first [apply implements_bind; [by auto using execute_or_recover_implements | intros ?] | case_match | by auto].
Qed.
End tasks.
