(* ===== verification/BlockStoreRuns.v ===== *)
(** * Runs of the block store

    The block store as a state machine: the consensus task, which runs one
    operation after the other, access by access, and the task of the commit
    callbacks, which can run between any two accesses. The theorem: in every such
    run the tree stays consistent, pruning never reaches a block that is still
    needed, and no [expect], [unwrap] or [assert!] fails but the one for a state
    computer that cannot persist a commit. *)
From stdpp Require Import prelude gmap strings sorting.
From Stdlib Require Import ZArith Lia.
From S2P Require Import Prelude Bits Hash HashValues Primitives LedgerInfo ConsensusTypes Blocks ConsensusMsgs BlockTree BlockTreeInv BlockStore BlockStoreTasks.

(** What the store relies on: the executor and the storage report their
    failures as errors. *)
Class ServicesTotal `{Primitives} `{ExecutionTypes} (X S : Type)
    `{!ExecutionCorrectness X} `{!LivenessStorage S} : Prop := {
  execute_total b p (x : X) : (execute_block b p x).2 <> Panic;
  save_tree_total bs qcs (s : S) : (save_tree bs qcs s).2 <> Panic;
  save_tc_total tc (s : S) : (save_highest_timeout_cert tc s).2 <> Panic;
  save_2chain_tc_total tc (s : S) : (save_highest_2chain_timeout_cert tc s).2 <> Panic
}.

Section system.
Context `{Primitives} `{!CryptoHash VoteData.t} `{!CryptoHash LedgerInfo.t} `{!CryptoHash BlockData.t}.
Context `{ExecutionTypes} `{!MerkleHasher HashValue.t} `{!EqDecision StateComputeResult.t} `{HashSetOrder}.
Context {X S : Type} `{!ExecutionCorrectness X} `{!LivenessStorage S}.
Import BlockStore.

Inductive op :=
| Insert (block : Block.t)
| InsertQC (qc : QuorumCert.t)
| InsertTC (tc : TimeoutCertificate.t)
| Insert2ChainTC (tc : TwoChainTimeoutCertificate.t)
| Commit (proof : LedgerInfoWithSignatures.t).

Definition task_of (o : op) : task (X := X) (S := S) unit :=
  match o with
  | Insert block => insert_task block ;; mret tt
  | InsertQC qc => insert_qc_task qc
  | InsertTC tc => insert_tc_task tc
  | Insert2ChainTC tc => insert_2chain_tc_task tc
  | Commit proof => commit_task proof
  end.

(** The consensus task: what is left of its operation. It is [Updating] between
    the two halves of a commit, when the state computer has the blocks and the
    ordered root is not yet updated. *)
Inductive thread :=
| Running (t : task (X := X) (S := S) unit)
| Updating (id : HashValue.t) (rest : task (X := X) (S := S) unit).

Record system := mk_system { store : BlockStore.t X S; running : thread }.

(** An operation starts with its first access to the store. The task of the
    callbacks runs the oldest one. *)
Inductive event := Start (o : op) | Advance | Callback.

Definition step (t : task unit) (st : BlockStore.t X S) : BlockStore.t X S * thread :=
  match t with
  | Done r => (st, Running (Done r))
  | Step after rest => (after st, Running (rest st))
  | Persist blocks proof id rest =>
      match or_panic (proxy_commit blocks proof) st with
      | (st, Ok _) => (st, Updating id rest)
      | (st, Err e) => (st, Running (Done (Err e)))
      | (st, Panic) => (st, Running (Done Panic))
      end
  end.

Definition advance (th : thread) (st : BlockStore.t X S) : BlockStore.t X S * thread :=
  match th with
  | Running t => step t st
  | Updating id rest =>
      match update_ordered_root id st with
      | (st, Ok _) => (st, Running rest)
      | (st, Err e) => (st, Running (Done (Err e)))
      | (st, Panic) => (st, Running (Done Panic))
      end
  end.

(** The result of an operation that has come to its end. *)
Definition result (th : thread) : outcome Error unit :=
  match th with
  | Running (Done r) => r
  | _ => Ok tt
  end.

Definition perform (e : event) (s : system) : system * outcome Error unit :=
  match e with
  | Start o => let (st, th) := step (task_of o) (store s) in (mk_system st th, result th)
  | Advance => let (st, th) := advance (running s) (store s) in (mk_system st th, result th)
  | Callback => let (st, r) := run_callback (store s) in (mk_system st (running s), r)
  end.

Abbreviation tree s := (inner (store s)).

(** What the rest of consensus guarantees of an operation when it starts. A block
    follows its parent in round, and is not the parent of a block that arrived
    before it, ids being hashes. Safety: a block that is certified with a higher
    round than any before extends the last committed block; a block to commit
    extends it as well, and the highest certified block extends the block to
    commit. The quorum signed its true round. *)
Definition op_ok (o : op) (st : BlockStore.t X S) : Prop :=
  match o with
  | Insert block =>
      (forall pb, BlockTree.get_block (inner st) (Block.parent_id block) = Some pb ->
         ExecutedBlock.round pb < Block.round block) /\
      (forall i b, BlockTree.get_block (inner st) i = Some b -> ExecutedBlock.parent_id b = Block.id block ->
         is_Some (BlockTree.get_block (inner st) (Block.id block)))
  | InsertQC qc =>
      let i := BlockInfo.id (QuorumCert.certified_block qc) in
      forall b hb, BlockTree.get_block (inner st) i = Some b ->
        BlockTree.get_block (inner st) (BlockTree.highest_certified_block_id (inner st)) = Some hb ->
        ExecutedBlock.round hb < ExecutedBlock.round b ->
        descends (inner st) (BlockTree.ordered_root_id (inner st)) i
  | Commit proof =>
      let i := LedgerInfo.consensus_block_id (LedgerInfoWithSignatures.ledger_info proof) in
      forall b rb, BlockTree.get_block (inner st) i = Some b ->
        BlockTree.get_block (inner st) (BlockTree.ordered_root_id (inner st)) = Some rb ->
        ExecutedBlock.round rb < ExecutedBlock.round b ->
        descends (inner st) (BlockTree.ordered_root_id (inner st)) i /\
        descends (inner st) i (BlockTree.highest_certified_block_id (inner st)) /\
        BlockInfo.round (LedgerInfoWithSignatures.commit_info proof) = ExecutedBlock.round b
  | InsertTC _ | Insert2ChainTC _ => True
  end.

(** The consensus task starts an operation when the one before has come to its
    end, and has not panicked. A callback can run at any time. *)
Definition admissible (e : event) (s : system) : Prop :=
  match e with
  | Start o => (exists r, running s = Running (Done r) /\ r <> Panic) /\ op_ok o (store s)
  | Advance => forall r, running s <> Running (Done r)
  | Callback => True
  end.

(** Reachable from a start state by admissible events. *)
Inductive reachable (s0 : system) : system -> Prop :=
| reachable_start : reachable s0 s0
| reachable_step s e : reachable s0 s -> admissible e s -> reachable s0 (perform e s).1.

(** The state computer fails to persist the commit that the event hands to it. *)
Definition persist_fails (e : event) (s : system) : Prop :=
  e = Advance /\ exists blocks proof id rest, running s = Running (Persist blocks proof id rest) /\
    (proxy_commit blocks proof (store s)).2 <> Ok tt.

(** The latest block that is committed or about to be. *)
Definition in_flight (th : thread) : option HashValue.t :=
  match th with Running _ => None | Updating id _ => Some id end.

Definition tip (st : BlockStore.t X S) (fl : option HashValue.t) : HashValue.t :=
  default (BlockTree.ordered_root_id (inner st)) fl.

(** The pending callbacks commit blocks of a chain from [cur] to [last]. *)
Fixpoint pending_ok (tr : BlockTree.t) (cur : HashValue.t) (ns : list Notification) (last_id : HashValue.t) : Prop :=
  match ns with
  | [] => cur = last_id
  | n :: ns => exists b, last (blocks n) = Some b /\
      BlockTree.get_block tr (ExecutedBlock.id b) = Some b /\ descends tr cur (ExecutedBlock.id b) /\
      cur <> ExecutedBlock.id b /\
      BlockInfo.id (LedgerInfoWithSignatures.commit_info (finality_proof n)) = ExecutedBlock.id b /\
      BlockInfo.round (LedgerInfoWithSignatures.commit_info (finality_proof n)) = ExecutedBlock.round b /\
      pending_ok tr (ExecutedBlock.id b) ns last_id
  end.

Record store_ok (st : BlockStore.t X S) (fl : option HashValue.t) : Prop := {
  sys_tree : tree_ok (inner st) (tip st fl);
  sys_pending : pending_ok (inner st) (BlockTree.commit_root_id (inner st)) (notifications st) (tip st fl);
  sys_ledger_info rb : BlockTree.get_block (inner st) (BlockTree.commit_root_id (inner st)) = Some rb ->
    BlockInfo.round (LedgerInfoWithSignatures.commit_info (BlockTree.highest_ledger_info (inner st)))
      <= ExecutedBlock.round rb
}.

(** ** Pending callbacks *)

Lemma pending_descends tr cur ns last_id : pending_ok tr cur ns last_id -> descends tr cur last_id.
Proof.
  revert cur. induction ns as [|n ns IH]; intros cur; cbn; [intros ->; apply rtc_refl|].
  intros (b & _ & _ & Hd & _ & _ & _ & Hp). etrans; [exact Hd | by apply IH].
Qed.

Lemma pending_mono tr tr' ns last_id : forall cur, pending_ok tr cur ns last_id ->
  (forall a x, descends tr cur a -> descends tr a x -> descends tr' a x) ->
  (forall x b, descends tr cur x -> BlockTree.get_block tr x = Some b -> BlockTree.get_block tr' x = Some b) ->
  pending_ok tr' cur ns last_id.
Proof.
  induction ns as [|n ns IH]; intros cur; cbn; [done|].
  intros (b & Hl & Hb & Hd & Hne & Hi & Hr & Hp) Hdesc Hget. exists b. split_and!; try done.
  - by apply Hget.
  - apply Hdesc; [apply rtc_refl | done].
  - apply IH; [done | |].
    + intros a x Ha. apply Hdesc. by etrans.
    + intros x b' Hx. apply Hget. by etrans.
Qed.

Lemma pending_snoc tr ns n b : forall cur last_id, pending_ok tr cur ns last_id ->
  last (blocks n) = Some b -> BlockTree.get_block tr (ExecutedBlock.id b) = Some b ->
  descends tr last_id (ExecutedBlock.id b) -> last_id <> ExecutedBlock.id b ->
  BlockInfo.id (LedgerInfoWithSignatures.commit_info (finality_proof n)) = ExecutedBlock.id b ->
  BlockInfo.round (LedgerInfoWithSignatures.commit_info (finality_proof n)) = ExecutedBlock.round b ->
  pending_ok tr cur (ns ++ [n]) (ExecutedBlock.id b).
Proof.
  induction ns as [|m ns IH]; intros cur last_id; cbn.
  - intros ->. intros. exists b. by split_and!.
  - intros (b' & Hl' & Hb' & Hd' & Hne' & Hi' & Hr' & Hp). intros. exists b'. split_and!; try done. by eapply IH.
Qed.

(** ** Actions that leave the tree *)

(** [r] comes from [st], with the same tree and callbacks, and is no panic. *)
Definition frame {E A} (st : BlockStore.t X S) (r : BlockStore.t X S * outcome E A) (Q : A -> Prop) : Prop :=
  inner r.1 = inner st /\ notifications r.1 = notifications st /\
  match r.2 with Ok a => Q a | Err _ => True | Panic => False end.

Lemma frame_bind {E A B} (m : action (BlockStore.t X S) E A) (f : A -> action (BlockStore.t X S) E B) st P Q :
  frame st (m st) P ->
  (forall a st', inner st' = inner st -> notifications st' = notifications st -> P a -> frame st' (f a st') Q) ->
  frame st ((m ≫= f) st) Q.
Proof.
  intros (Hi & Hn & Hm) Hf. unfold mbind, action_bind. destruct (m st) as [st' [a|e|]]; cbn in *; [|done..].
  destruct (Hf a st' Hi Hn Hm) as (Hi' & Hn' & Hq). unfold frame. by rewrite Hi', Hn'.
Qed.

Lemma frame_map_error {E F A} (g : E -> F) (m : action (BlockStore.t X S) E A) st Q :
  frame st (m st) Q -> frame st (map_error g m st) Q.
Proof. intros (Hi & Hn & Hm). unfold map_error, frame. destruct (m st) as [st' [a|e|]]; by cbn in *. Qed.

Context `{!ServicesTotal X S}.

Lemma frame_execute block st : frame st (execute block st) (fun b => ExecutedBlock.block b = block).
Proof.
  unfold execute. eapply (frame_bind _ _ _ (fun _ => True)); [|done].
  unfold compute, zoom, frame. pose proof (execute_total block (Block.parent_id block) (executor st)).
  destruct (execute_block _ _ _) as [x [r|e|]]; by cbn in *.
Qed.

Lemma frame_storing m msg st : (m (storage st)).2 <> Panic -> frame st (storing m msg st) (fun _ => True).
Proof. unfold storing, map_error, zoom, frame. intros Hm. destruct (m (storage st)) as [s [a|e|]]; by cbn in *. Qed.

Lemma store_ok_frame fl st st' : store_ok st fl -> inner st' = inner st ->
  notifications st' = notifications st -> store_ok st' fl.
Proof.
  intros [Ht Hp Hr] Hi Hn. unfold tip in *.
  split; unfold tip; rewrite Hi; [done | by rewrite Hn | done].
Qed.

(** ** The operations *)

Lemma get_block_lookup tr i lb : BlockTree.id_to_block tr !! i = Some lb ->
  BlockTree.get_block tr i = Some (LinkableBlock.executed_block lb).
Proof. intros Hlb. unfold BlockTree.get_block, BlockTree.get_linkable_block. by rewrite Hlb. Qed.

(** An operation that ends in a state that is fine, without a panic. *)
Definition fine {E A} (fl : option HashValue.t) (r : BlockStore.t X S * outcome E A) : Prop :=
  store_ok r.1 fl /\ r.2 <> Panic.

Lemma fine_error {E A} fl st st' (e : E) : store_ok st fl -> inner st' = inner st ->
  notifications st' = notifications st -> fine (A := A) fl (st', Err e).
Proof. intros Hs Hi Hn. split; [by apply (store_ok_frame fl st) | done]. Qed.

Lemma ordered_root_Ok st : store_ok st None -> exists rb,
  BlockTree.get_block (inner st) (BlockTree.ordered_root_id (inner st)) = Some rb /\
  BlockTree.ordered_root (inner st) = Ok rb.
Proof.
  intros Hs. destruct (tip_in _ _ (sys_tree _ _ Hs)) as [lb Hlb]. unfold tip in Hlb. cbn in Hlb.
  exists (LinkableBlock.executed_block lb).
  unfold BlockTree.ordered_root, BlockTree.get_block, BlockTree.get_linkable_block. by rewrite Hlb.
Qed.

Lemma path_from_ordered_root_Ok st i rb : store_ok st None ->
  BlockTree.get_block (inner st) (BlockTree.ordered_root_id (inner st)) = Some rb ->
  exists res, BlockTree.path_from_ordered_root (inner st) i = Ok res /\
    match res with
    | Some path => is_path (inner st) (BlockTree.ordered_root_id (inner st)) path i
    | None => ~ descends (inner st) (BlockTree.ordered_root_id (inner st)) i
    end.
Proof.
  intros Hs Hrb. unfold BlockTree.path_from_ordered_root, BlockTree.ordered_root. rewrite Hrb. cbn.
  apply path_from_root_Ok; [|done]. apply (ok_links _ _ (sys_tree _ _ Hs)).
Qed.

Lemma tree_ok_store fl st tr : store_ok st fl ->
  tree_ok tr (default (BlockTree.ordered_root_id (inner st)) fl) ->
  BlockTree.ordered_root_id tr = BlockTree.ordered_root_id (inner st) ->
  BlockTree.commit_root_id tr = BlockTree.commit_root_id (inner st) ->
  BlockTree.highest_ledger_info tr = BlockTree.highest_ledger_info (inner st) ->
  (forall a x, descends (inner st) a x -> descends tr a x) ->
  (forall x b, BlockTree.get_block (inner st) x = Some b -> BlockTree.get_block tr x = Some b) ->
  store_ok (set_inner st tr) fl.
Proof.
  intros [Ht Hp Hr] Hok Ho Hc Hl Hd Hg. unfold tip in *. cbn in *. split; unfold tip; cbn; rewrite ?Ho, ?Hc, ?Hl.
  - done.
  - eapply pending_mono; [exact Hp | intros a x _; apply Hd | intros x b _; apply Hg].
  - intros rb Hrb. destruct (ok_root _ _ Ht) as [lb Hlb].
    assert (BlockTree.get_block (inner st) (BlockTree.commit_root_id (inner st)) = Some (LinkableBlock.executed_block lb)) as Hlb'
      by (by apply get_block_lookup).
    rewrite (Hg _ _ Hlb') in Hrb. injection Hrb as <-. by apply Hr.
Qed.

Lemma insert_block_fine st eb : store_ok st None ->
  BlockTree.get_block (inner st) (ExecutedBlock.id eb) = None ->
  (forall pb, BlockTree.get_block (inner st) (ExecutedBlock.parent_id eb) = Some pb ->
     ExecutedBlock.round pb < ExecutedBlock.round eb) ->
  (forall i b, BlockTree.get_block (inner st) i = Some b -> ExecutedBlock.parent_id b <> ExecutedBlock.id eb) ->
  fine None (writing (fun tree => BlockTree.insert_block tree eb) st).
Proof.
  intros Hs Hb Hround Horphan. pose proof (sys_tree _ _ Hs) as Hok. unfold tip in Hok. cbn in Hok.
  assert (BlockTree.id_to_block (inner st) !! ExecutedBlock.id eb = None) as Hnew.
  { unfold BlockTree.get_block, BlockTree.get_linkable_block in Hb. by apply fmap_None in Hb. }
  unfold writing. destruct (BlockTree.id_to_block (inner st) !! ExecutedBlock.parent_id eb) as [parent|] eqn:Hp.
  - rewrite (insert_block_new (inner st) (ok_links _ _ Hok) eb parent Hnew Hp). split; [|done]. cbn.
    apply tree_ok_store; [done | | done | done | done | |].
    + apply inserted_tree_ok; [apply (ok_links _ _ Hok) | done | done | | | done].
      * by apply Hround, get_block_lookup.
      * intros i b Hi. by apply (Horphan i (LinkableBlock.executed_block b)), get_block_lookup.
    + intros a x. apply (inserted_descends (inner st) (ok_links _ _ Hok) eb parent Hnew Hp).
    + intros x b. unfold BlockTree.get_block, BlockTree.get_linkable_block. intros (lb & Hlb & ->)%fmap_Some.
      destruct (inserted_old (inner st) eb parent Hnew Hp x lb Hlb) as (lb' & Hlb' & <-). by rewrite Hlb'.
  - unfold BlockTree.insert_block. rewrite Hb. unfold BlockTree.get_linkable_block. rewrite Hp. by apply (fine_error None st).
Qed.

Lemma insert_qc_fine qc st : store_ok st None -> op_ok (InsertQC qc) st ->
  fine None (writing (fun tree => tree ← BlockTree.insert_quorum_cert tree qc; Ok (tree, tt)) st).
Proof.
  intros Hs Hsafe. cbn in Hsafe.
  assert (forall lb hb, BlockTree.id_to_block (inner st) !! BlockInfo.id (QuorumCert.certified_block qc) = Some lb ->
    BlockTree.id_to_block (inner st) !! BlockTree.highest_certified_block_id (inner st) = Some hb ->
    block_round hb < block_round lb ->
    descends (inner st) (BlockTree.ordered_root_id (inner st)) (BlockInfo.id (QuorumCert.certified_block qc))) as Hsafe'.
  { intros lb hb Hlb Hhb. apply Hsafe; by apply get_block_lookup. }
  clear Hsafe. pose proof (insert_quorum_cert_Ok (inner st) _ qc (sys_tree _ _ Hs)) as Hq. unfold tip in Hq. cbn in Hq.
  unfold writing. destruct (BlockTree.insert_quorum_cert (inner st) qc) as [tr|e|]; cbn.
  - destruct (Hq Hsafe') as (Hok & Hblocks & Ho & Hc & Hl).
    split; [|done]. apply tree_ok_store; try done.
    + intros a x. unfold descends. apply rtc_subrel. intros p c (pb & Hpb & Hpc). exists pb. by rewrite Hblocks.
    + intros x b'. unfold BlockTree.get_block, BlockTree.get_linkable_block. by rewrite Hblocks.
  - by apply (fine_error None st).
  - by destruct (Hq Hsafe').
Qed.

(** Trees that differ in the timeout certificates only. *)
Lemma replace_tc_ok fl st tr : store_ok st fl ->
  (exists tc, tr = BlockTree.replace_timeout_cert (inner st) tc) \/
  (exists tc, tr = BlockTree.replace_2chain_timeout_cert (inner st) tc) ->
  store_ok (set_inner st tr) fl.
Proof.
  intros Hs Htr. apply tree_ok_store; [done | | by destruct Htr as [[tc ->]|[tc ->]]..].
  destruct Hs as [[Hl Hp Hc Hr Ht] _ _]. unfold tip in *. cbn in *.
  destruct Htr as [[tc ->]|[tc ->]]; (split; [by destruct Hl | by destruct Hp | by destruct Hc | done | done]).
Qed.

(** ** Callbacks *)

(** What callbacks do to a store with the ordered root as its tip: they remove
    blocks, and none from the ordered root on. *)
Record later (st st' : BlockStore.t X S) : Prop := {
  later_root : BlockTree.ordered_root_id (inner st') = BlockTree.ordered_root_id (inner st);
  later_certified : BlockTree.highest_certified_block_id (inner st') = BlockTree.highest_certified_block_id (inner st);
  later_old x b : BlockTree.get_block (inner st') x = Some b -> BlockTree.get_block (inner st) x = Some b;
  later_below x : descends (inner st) (BlockTree.ordered_root_id (inner st)) x ->
    BlockTree.get_block (inner st') x = BlockTree.get_block (inner st) x;
  later_descends a x : descends (inner st) (BlockTree.ordered_root_id (inner st)) a -> descends (inner st) a x ->
    descends (inner st') a x
}.

Lemma later_same st st' : inner st' = inner st -> later st st'.
Proof. intros E. split; rewrite ?E; done. Qed.

#[global] Instance later_preorder : PreOrder later.
Proof.
  split; [intros st; by apply later_same|]. intros st st' st'' [R C O B D] [R' C' O' B' D'].
  assert (forall x, descends (inner st) (BlockTree.ordered_root_id (inner st)) x ->
    descends (inner st') (BlockTree.ordered_root_id (inner st')) x) as Hx
    by (intros x Hx; rewrite R; apply D; [apply rtc_refl | done]).
  split; [congruence | congruence | auto | |].
  - intros x Hd. rewrite B' by auto. auto.
  - intros a x Ha Hd. apply D'; auto.
Qed.

(** The oldest callback removes blocks, and none from its own on. *)
Lemma callback_Ok fl st n rest : store_ok st fl -> notifications st = n :: rest -> exists b st',
  run_callback st = (st', Ok tt) /\ store_ok st' fl /\
  BlockTree.ordered_root_id (inner st') = BlockTree.ordered_root_id (inner st) /\
  BlockTree.highest_certified_block_id (inner st') = BlockTree.highest_certified_block_id (inner st) /\
  descends (inner st) (ExecutedBlock.id b) (tip st fl) /\
  (forall a x, descends (inner st) (ExecutedBlock.id b) a -> descends (inner st) a x -> descends (inner st') a x) /\
  (forall x, descends (inner st) (ExecutedBlock.id b) x -> BlockTree.id_to_block (inner st') !! x = BlockTree.id_to_block (inner st) !! x) /\
  (forall x lb, BlockTree.id_to_block (inner st') !! x = Some lb -> BlockTree.id_to_block (inner st) !! x = Some lb).
Proof.
  intros [Ht Hp Hr] Hn. unfold run_callback. rewrite Hn in *.
  destruct Hp as (b & Hlast & Hb & Hd & Hne & Hid & Hround & Hp). destruct (ok_root _ _ Ht) as [rlb Hrlb].
  destruct (get_block_Some _ (ok_links _ _ Ht) _ _ Hb) as (lb & Hlb & Hlb' & _).
  destruct (descends_round _ (ok_links _ _ Ht) _ _ rlb lb Hd Hrlb Hlb) as [?|Hlt]; [done|].
  specialize (Hr _ (get_block_lookup _ _ _ Hrlb)). unfold block_round in Hlt. rewrite Hlb' in Hlt.
  destruct (commit_callback_Ok (fun s ids => prune_tree ids s) (inner st) _ (storage st) (blocks n) b (finality_proof n)
    Ht Hlast Hd (pending_descends _ _ _ _ Hp) Hid) as (ids & tr & Hrun & _ & Hok & Hc & Ho & Hl & Hdesc & Hsame & Hh & Hold & _); [lia|].
  exists b. eexists. cbn [inner storage set_notifications]. rewrite Hrun. split; [reflexivity|]. cbn [inner set_storage set_inner set_notifications].
  split_and!; [|done|done|by apply pending_descends in Hp|done..].
  unfold tip in *. split; unfold tip; cbn; rewrite ?Hc, ?Ho, ?Hl.
  - done.
  - eapply pending_mono; [exact Hp | done|]. intros x b' Hx.
    unfold BlockTree.get_block, BlockTree.get_linkable_block. by rewrite (Hsame x Hx).
  - unfold BlockTree.get_block, BlockTree.get_linkable_block. rewrite (Hsame _ (rtc_refl _ _)), Hlb. cbn.
    intros rb [= <-]. rewrite Hround, Hlb'. done.
Qed.

Lemma callback_fine fl st : store_ok st fl -> fine fl (run_callback st).
Proof.
  intros Hs. destruct (notifications st) as [|n rest] eqn:Hn; [unfold run_callback; by rewrite Hn|].
  by destruct (callback_Ok fl st n rest Hs Hn) as (b & st' & -> & Hs' & _).
Qed.

Lemma callback_later st : store_ok st None -> later st (run_callback st).1.
Proof.
  intros Hs. destruct (notifications st) as [|n rest] eqn:Hn; [unfold run_callback; by rewrite Hn|].
  destruct (callback_Ok None st n rest Hs Hn) as (b & st' & -> & _ & Ho & Hh & Htip & Hdesc & Hsame & Hold).
  unfold tip in Htip. cbn in *. split; [done | done | | |].
  - intros x eb (lb & Hlb & ->)%fmap_Some. by apply get_block_lookup, Hold.
  - intros x Hx. unfold BlockTree.get_block, BlockTree.get_linkable_block. rewrite Hsame; [done | by etrans].
  - intros a x Ha. apply Hdesc. by etrans.
Qed.

(** ** Commits *)

Lemma finish_fine id st : store_ok st (Some id) -> fine None (update_ordered_root id st).
Proof.
  intros Hs. pose proof Hs as [[Hl Hp Hc Hr Ht] Hpend Hli]. destruct (tip_in _ _ (sys_tree _ _ Hs)) as [lb Hlb].
  unfold tip in *. cbn in *. unfold update_ordered_root, writing, BlockTree.update_ordered_root, BlockTree.block_exists.
  rewrite bool_decide_true by by rewrite Hlb. cbn. split; [|done].
  split; unfold tip; cbn; [|eapply pending_mono; [exact Hpend | done | done] | done].
  split; [by destruct Hl | by destruct Hp | by destruct Hc | done | done].
Qed.

Lemma path_snoc tr path x i : forall cur, is_path tr cur (path ++ [x]) i ->
  ExecutedBlock.id x = i /\ BlockTree.get_block tr i = Some x.
Proof.
  induction path as [|y path IH]; intros cur; cbn.
  - by intros (Hx & _ & <-).
  - intros (_ & _ & Hp). by eapply IH.
Qed.

(** The blocks of a path end in its last block. *)
Lemma path_last tr cur path i b : is_path tr cur path i -> BlockTree.get_block tr i = Some b -> cur <> i ->
  last path = Some b.
Proof.
  intros Hp Hb Hne. destruct path as [|x path _] using rev_ind; [done|].
  apply path_snoc in Hp as [_ Hx]. rewrite last_snoc. congruence.
Qed.

Lemma proxy_commit_Ok path proof (st st' : BlockStore.t X S) : proxy_commit path proof st = (st', Ok tt) ->
  inner st' = inner st /\ exists n, notifications st' = notifications st ++ [n] /\
    blocks n = path /\ finality_proof n = proof.
Proof.
  unfold proxy_commit, lift, zoom, modify, mbind, action_bind. destruct (collect_txns path) as [[txns evs]| |]; [|done..].
  destruct (commit_blocks _ _ _) as [x [[]| |]]; cbn; [|done..]. intros [= <-]. cbn. eauto.
Qed.

Lemma proxy_commit_frame path proof (st : BlockStore.t X S) : (proxy_commit path proof st).2 <> Ok tt ->
  inner (proxy_commit path proof st).1 = inner st /\
  notifications (proxy_commit path proof st).1 = notifications st.
Proof.
  unfold proxy_commit, lift, zoom, modify, mbind, action_bind. destruct (collect_txns path) as [[txns evs]| |]; [|done..].
  by destruct (commit_blocks _ _ _) as [x [[]| |]].
Qed.

(** The block [b] can be committed with [proof]. *)
Record committable (proof : LedgerInfoWithSignatures.t) (b : ExecutedBlock.t) (st : BlockStore.t X S) : Prop := {
  com_block : BlockTree.get_block (inner st) (BlockInfo.id (LedgerInfoWithSignatures.commit_info proof)) = Some b;
  com_below : descends (inner st) (BlockTree.ordered_root_id (inner st)) (BlockInfo.id (LedgerInfoWithSignatures.commit_info proof));
  com_new : BlockTree.ordered_root_id (inner st) <> BlockInfo.id (LedgerInfoWithSignatures.commit_info proof);
  com_certified : descends (inner st) (BlockInfo.id (LedgerInfoWithSignatures.commit_info proof))
    (BlockTree.highest_certified_block_id (inner st));
  com_round : BlockInfo.round (LedgerInfoWithSignatures.commit_info proof) = ExecutedBlock.round b
}.

Lemma committable_later proof b st st' : later st st' -> committable proof b st -> committable proof b st'.
Proof.
  intros [R C O B D] [Hb Hbel Hn Hc Hr]. split; [by rewrite B | rewrite R; apply D | by rewrite R | rewrite C; by apply D | done].
  - apply rtc_refl.
  - done.
Qed.

(** The blocks of a commit are sent with a callback for the new tip. *)
Lemma persist_ok path proof b (st st' : BlockStore.t X S) : store_ok st None -> committable proof b st ->
  last path = Some b -> proxy_commit path proof st = (st', Ok tt) -> store_ok st' (Some (ExecutedBlock.id b)).
Proof.
  intros [[Hl Hpr Hc Hr Ht] Hpend Hli] [Hb Hd Hne Hcert Hround] Hlast Hp.
  destruct (proxy_commit_Ok _ _ _ _ Hp) as (Hi & n & Hn & Hblocks & Hproof). unfold tip in *. cbn in *.
  destruct (get_block_Some _ Hl _ _ Hb) as (_ & _ & _ & Hid). rewrite <- Hid in *.
  split; unfold tip; cbn; rewrite Hi, ?Hn.
  - split; [done | done | | done | by etrans]. by destruct Hc.
  - apply (pending_snoc _ _ _ b _ _ Hpend); rewrite ?Hblocks, ?Hproof; done.
  - done.
Qed.

(** ** Tasks *)

(** The task [t] is safe from the store [st0] on, whatever callbacks run before
    each of its accesses, and ends in a result with [Q]. *)
Fixpoint wp {A} (st0 : BlockStore.t X S) (t : task A) (Q : BlockStore.t X S -> A -> Prop) : Prop :=
  match t with
  | Done (Ok a) => Q st0 a
  | Done (Err _) => True
  | Done Panic => False
  | Step after rest => forall st, later st0 st -> store_ok st None ->
      store_ok (after st) None /\ wp (after st) (rest st) Q
  | Persist blocks proof id rest => forall st st', later st0 st -> store_ok st None ->
      proxy_commit blocks proof st = (st', Ok tt) ->
      store_ok st' (Some id) /\ forall st'', wp st'' rest Q
  end.

Lemma wp_bind {A B} (t : task A) (k : A -> task B) Q : forall st0,
  wp st0 t (fun st a => wp st (k a) Q) -> wp st0 (t ≫= k) Q.
Proof.
  induction t as [[a|e|]|after rest IH|blocks proof id rest IH]; intros st0; try done.
  - intros Hw st Hl Hs. destruct (Hw st Hl Hs). split; [done | by apply IH].
  - intros Hw st st' Hl Hs Hp. destruct (Hw st st' Hl Hs Hp) as [? Hr]. split; [done|]. intros st''. apply IH, Hr.
Qed.

Lemma wp_later {A} (t : task A) st0 st1 : later st0 st1 -> wp st0 t (fun _ _ => True) -> wp st1 t (fun _ _ => True).
Proof.
  intros Hl. destruct t as [[a|e|]|after rest|blocks proof id rest]; try done.
  - intros Hw st Hl'. apply Hw. by etrans.
  - intros Hw st st' Hl'. apply Hw. by etrans.
Qed.

Lemma wp_pure {A} (r : outcome Error A) st0 Q :
  match r with Ok a => Q st0 a | Err _ => True | Panic => False end -> wp st0 (pure r) Q.
Proof. by destruct r. Qed.

Lemma wp_fine {A} (m : action (BlockStore.t X S) Error A) st0 :
  (forall st, later st0 st -> store_ok st None -> fine None (m st)) -> wp st0 (atomic m) (fun _ _ => True).
Proof. intros Hm st Hl Hs. destruct (Hm st Hl Hs) as [? Hr]. split; [done|]. cbn. by destruct (m st).2. Qed.

(** A task that leaves the tree, first in a sequence. *)
Definition quiet {A} (st0 : BlockStore.t X S) (t : task A) (P : A -> Prop) : Prop :=
  wp st0 t (fun st a => later st0 st /\ P a).

Lemma wp_mono {A} (t : task A) (Q Q' : BlockStore.t X S -> A -> Prop) : (forall st a, Q st a -> Q' st a) ->
  forall st0, wp st0 t Q -> wp st0 t Q'.
Proof.
  intros HQ. induction t as [[a|e|]|after rest IH|blocks proof id rest IH]; intros st0; cbn; auto.
  - intros Hw st Hl Hs. destruct (Hw st Hl Hs). auto.
  - intros Hw st st' Hl Hs Hp. destruct (Hw st st' Hl Hs Hp). auto.
Qed.

Lemma quiet_bind {A B} (t : task A) (k : A -> task B) st0 P Q : quiet st0 t P ->
  (forall st a, later st0 st -> P a -> wp st (k a) Q) -> wp st0 (t ≫= k) Q.
Proof. intros Ht Hk. apply wp_bind. eapply wp_mono; [|exact Ht]. intros st a [? ?]. by apply Hk. Qed.

Lemma quiet_then {A B} (t : task A) (k : A -> task B) st0 P R : quiet st0 t P ->
  (forall st a, later st0 st -> P a -> quiet st (k a) R) -> quiet st0 (t ≫= k) R.
Proof.
  intros Ht Hk. eapply quiet_bind; [exact Ht|]. intros st a Hl Ha. eapply wp_mono; [|by apply Hk].
  intros st' b [? ?]. split; [by etrans | done].
Qed.

Lemma quiet_atomic {A} (m : action (BlockStore.t X S) Error A) st0 P :
  (forall st, later st0 st -> store_ok st None -> frame st (m st) P) -> quiet st0 (atomic m) P.
Proof.
  intros Hm st Hl Hs. destruct (Hm st Hl Hs) as (Hi & Hn & Hr). cbn. split; [by apply (store_ok_frame None st)|].
  destruct (m st).2; try done. split; [|done]. etrans; [exact Hl | by apply later_same].
Qed.

Lemma quiet_pure {A} (r : outcome Error A) st0 (P : A -> Prop) :
  match r with Ok a => P a | Err _ => True | Panic => False end -> quiet st0 (pure r) P.
Proof. by destruct r. Qed.

Lemma quiet_storing m msg st0 : (forall s, (m s).2 <> Panic) -> quiet st0 (atomic (storing m msg)) (fun _ => True).
Proof. intros Hm. apply quiet_atomic. intros st _ _. by apply frame_storing. Qed.

Lemma quiet_execute block st0 :
  quiet st0 (atomic (map_error Execution (execute block))) (fun b => ExecutedBlock.block b = block).
Proof. apply quiet_atomic. intros st _ _. apply frame_map_error, frame_execute. Qed.

Lemma quiet_reexecute bs : forall st0, quiet st0 (reexecute_task bs) (fun _ => True).
Proof.
  induction bs as [|b bs IH]; intros st0; cbn [reexecute_task]; [by split|].
  eapply quiet_then; [apply quiet_execute|]. intros. apply IH.
Qed.

Lemma quiet_path i st0 : quiet st0
  (atomic (reading (fun tree => BlockTree.path_from_ordered_root tree i)))
  (fun res => exists st, later st0 st /\
    match res with
    | Some path => is_path (inner st) (BlockTree.ordered_root_id (inner st)) path i
    | None => ~ descends (inner st) (BlockTree.ordered_root_id (inner st)) i
    end).
Proof.
  apply quiet_atomic. intros st Hl Hs. destruct (ordered_root_Ok st Hs) as (rb & Hrb & _).
  destruct (path_from_ordered_root_Ok st i rb Hs Hrb) as (res & Hres & Hp). unfold reading, frame. rewrite Hres. cbn. eauto.
Qed.

Lemma quiet_root st0 : quiet st0 (atomic (reading BlockTree.ordered_root))
  (fun rb => BlockTree.get_block (inner st0) (BlockTree.ordered_root_id (inner st0)) = Some rb).
Proof.
  apply quiet_atomic. intros st Hl Hs. destruct (ordered_root_Ok st Hs) as (rb & Hrb & Hroot).
  unfold reading, frame. rewrite Hroot. cbn. split_and!; [done..|].
  apply (later_old _ _ Hl) in Hrb. by rewrite (later_root _ _ Hl) in Hrb.
Qed.

Lemma quiet_execute_or_recover block st0 :
  quiet st0 (execute_or_recover_task block) (fun b => ExecutedBlock.block b = block).
Proof.
  apply (quiet_then _ _ _ (fun r => match r with Ok b => ExecutedBlock.block b = block | Err _ => True | Panic => False end)).
  - apply quiet_atomic. intros st _ _. pose proof (frame_execute block st) as (Hi & Hn & Hr).
    unfold frame. destruct (execute block st) as [st' r]. done.
  - intros st r _ Hr. destruct r as [b|[]|]; try (by apply quiet_pure).
    eapply quiet_then; [apply quiet_path|]. intros st1 path _ _. eapply quiet_then; [apply quiet_reexecute|].
    intros. apply quiet_execute.
Qed.

(** ** The operations *)

(** The state after the first access of an operation, or at any later point. *)
Definition thread_ok (st : BlockStore.t X S) (th : thread) : Prop :=
  store_ok st (in_flight th) /\
  match th with
  | Running t => t = Done Panic \/ wp st t (fun _ _ => True)
  | Updating id rest => forall st'', wp st'' rest (fun _ _ => True)
  end.

Lemma first_access {A} (f : BlockStore.t X S -> A) (k : A -> task unit) st :
  step (atomic (gets f) ≫= k) st = (st, Running (k (f st))).
Proof. done. Qed.

Lemma first_access_bind {A B} (f : BlockStore.t X S -> A) (k : A -> task B) (k' : B -> task unit) st :
  step ((atomic (gets f) ≫= k) ≫= k') st = (st, Running (k (f st) ≫= k')).
Proof. done. Qed.

(** A new block. *)
Definition fresh_block (block : Block.t) (st : BlockStore.t X S) : Prop :=
  BlockTree.get_block (inner st) (Block.id block) = None /\
  (forall pb, BlockTree.get_block (inner st) (Block.parent_id block) = Some pb ->
     ExecutedBlock.round pb < Block.round block) /\
  (forall i b, BlockTree.get_block (inner st) i = Some b -> ExecutedBlock.parent_id b <> Block.id block).

Lemma fresh_block_later block st st' : later st st' -> fresh_block block st -> fresh_block block st'.
Proof.
  intros [_ _ O _ _] (Hn & Hp & Ho). split_and!.
  - apply eq_None_not_Some. intros [b Hb%O]. congruence.
  - intros pb Hpb%O. by apply Hp.
  - intros i b Hb%O. by apply (Ho i).
Qed.

Lemma insert_wp block st : store_ok st None -> op_ok (Insert block) st ->
  wp st (match BlockTree.get_block (inner st) (Block.id block) with
         | Some existing_block => mret existing_block
         | None =>
             root ← atomic (reading BlockTree.ordered_root);
             pure (ensure (ExecutedBlock.round root <? Block.round block) (Message "Block with old round")) ;;
             executed_block ← execute_or_recover_task block;
             atomic (storing (save_tree [ExecutedBlock.block executed_block] []) "Insert block failed when saving block") ;;
             atomic (writing (fun tree => BlockTree.insert_block tree executed_block))
         end) (fun _ _ => True).
Proof.
  intros Hs [Hround Horphan]. destruct (BlockTree.get_block (inner st) (Block.id block)) as [b|] eqn:Hb; [done|].
  assert (fresh_block block st) as Hins.
  { split_and!; [done..|]. intros i b Hgb Hpar. by destruct (Horphan i b Hgb Hpar). }
  clear Hround Horphan Hb. eapply quiet_bind; [apply quiet_root|]. intros st1 rb L1 _.
  eapply quiet_bind; [apply (quiet_pure _ _ (fun _ => True)); by destruct (_ <? _)|]. intros st2 _ L2 _.
  eapply quiet_bind; [apply quiet_execute_or_recover|]. intros st3 eb L3 <-.
  eapply quiet_bind; [apply quiet_storing, save_tree_total|]. intros st4 _ L4 _.
  apply wp_fine. intros st5 L5 Hs5.
  assert (later st st5) as L by (by repeat (etrans; [eassumption|])).
  destruct (fresh_block_later _ _ _ L Hins) as (? & ? & ?). by apply insert_block_fine.
Qed.

Lemma insert_qc_later qc st st' : later st st' -> op_ok (InsertQC qc) st -> op_ok (InsertQC qc) st'.
Proof.
  intros [R C O B D] Hok b hb Hb Hhb Hlt. rewrite R. apply D; [apply rtc_refl|].
  rewrite C in Hhb. by apply (Hok b hb); [apply O..|].
Qed.

Lemma insert_qc_wp qc st : op_ok (InsertQC qc) st ->
  wp st (match BlockTree.get_block (inner st) (BlockInfo.id (QuorumCert.certified_block qc)) with
         | Some executed_block =>
             pure (ensure (BlockInfo.match_ordered_only (ExecutedBlock.block_info executed_block)
                             (QuorumCert.certified_block qc))
                     (Message "QC has a different block info than local")) ;;
             atomic (storing (save_tree [] [qc]) "Insert block failed when saving quorum") ;;
             atomic (writing (fun tree => tree ← BlockTree.insert_quorum_cert tree qc; Ok (tree, tt)))
         | None => pure (Err (Message "Insert QC without having the block in store first"))
         end) (fun _ _ => True).
Proof.
  intros Hok. destruct (BlockTree.get_block _ _) as [b|]; [|done].
  eapply quiet_bind; [apply (quiet_pure _ _ (fun _ => True)); by destruct (BlockInfo.match_ordered_only _ _)|].
  intros st1 _ L1 _. eapply quiet_bind; [apply quiet_storing, save_tree_total|]. intros st2 _ L2 _.
  apply wp_fine. intros st3 L3 Hs3. apply insert_qc_fine; [done|].
  eapply insert_qc_later; [|exact Hok]. by repeat (etrans; [eassumption|]).
Qed.

Lemma replace_wp m msg f st : (forall s, (m s).2 <> Panic) ->
  (forall tr, (exists tc, f tr = BlockTree.replace_timeout_cert tr tc) \/
              (exists tc, f tr = BlockTree.replace_2chain_timeout_cert tr tc)) ->
  wp st (atomic (storing m msg) ;; atomic (modify (fun self => set_inner self (f (inner self))))) (fun _ _ => True).
Proof.
  intros Hm Hf. eapply quiet_bind; [by apply quiet_storing|]. intros st1 _ _ _. apply wp_fine.
  intros st2 _ Hs. split; [|done]. apply replace_tc_ok; [done | apply Hf].
Qed.

Lemma commit_wp proof b st : store_ok st None -> op_ok (Commit proof) st ->
  BlockTree.get_block (inner st) (BlockInfo.id (LedgerInfoWithSignatures.commit_info proof)) = Some b ->
  wp st (root ← atomic (reading BlockTree.ordered_root);
         pure (ensure (ExecutedBlock.round root <? ExecutedBlock.round b) (Message "Committed block round lower than root")) ;;
         path ← atomic (reading (fun tree => BlockTree.path_from_ordered_root tree
                                   (BlockInfo.id (LedgerInfoWithSignatures.commit_info proof))));
         let blocks_to_commit := default [] path in
         pure (assert_ (negb (bool_decide (length blocks_to_commit = 0%nat)))) ;;
         Persist blocks_to_commit proof (ExecutedBlock.id b) (mret tt)) (fun _ _ => True).
Proof.
  intros Hs Hok Hb. eapply quiet_bind; [apply quiet_root|]. intros st1 rb L1 Hrb. cbn beta in Hrb.
  eapply quiet_bind; [apply (quiet_pure _ _ (fun _ => ExecutedBlock.round rb < ExecutedBlock.round b))|].
  { by destruct (Z.ltb_spec (ExecutedBlock.round rb) (ExecutedBlock.round b)). }
  intros st2 [] L2 Hlt. cbn beta in Hlt. destruct (Hok b rb Hb Hrb Hlt) as (Hd & Hcert & Hround).
  assert (committable proof b st) as Hcom.
  { split; [done | done | | done | done]. intros E. change (BlockTree.ordered_root_id (inner st)
      = LedgerInfo.consensus_block_id (LedgerInfoWithSignatures.ledger_info proof)) in E.
    rewrite E in Hrb. change (LedgerInfo.consensus_block_id _) with (BlockInfo.id (LedgerInfoWithSignatures.commit_info proof)) in Hrb.
    rewrite Hb in Hrb. injection Hrb as <-. lia. }
  eapply quiet_bind; [apply quiet_path|]. intros st4 res L4 (st3 & L3 & Hpath).
  assert (committable proof b st3) as [Hb3 Hd3 Hne3 _ _]
    by (eapply committable_later; [|exact Hcom]; by repeat (etrans; [eassumption|])).
  destruct res as [path|]; [|done]. cbn [default]. pose proof (path_last _ _ _ _ b Hpath Hb3 Hne3) as Hlast.
  apply wp_bind, wp_pure. destruct path as [|x path]; [done|]. rewrite bool_decide_false by done. cbn [negb assert_].
  intros st5 st6 L5 Hs5 Hp. split; [|done]. eapply persist_ok; [exact Hs5| |exact Hlast|exact Hp].
  apply (committable_later proof b st); [|done]. etrans; [exact L1|]. etrans; [exact L2|]. etrans; [exact L4 | exact L5].
Qed.

(** The first access of an operation reads, and what follows is safe. *)
Lemma start_wp o st : store_ok st None -> op_ok o st ->
  exists t, step (task_of o) st = (st, Running t) /\ wp st t (fun _ _ => True).
Proof.
  intros Hs Ho. destruct o as [block|qc|tc|tc|proof]; unfold task_of.
  - eexists. split; [apply first_access_bind|]. apply wp_bind. eapply wp_mono; [|by apply insert_wp]. done.
  - eexists. split; [apply first_access|]. by apply insert_qc_wp.
  - eexists. split; [apply first_access|]. cbv zeta. case_match; [done|].
    apply (replace_wp _ _ (fun tr => BlockTree.replace_timeout_cert tr tc)); [apply save_tc_total | eauto].
  - eexists. split; [apply first_access|]. cbv zeta. case_match; [done|].
    apply (replace_wp _ _ (fun tr => BlockTree.replace_2chain_timeout_cert tr tc)); [apply save_2chain_tc_total | eauto].
  - eexists. split; [apply first_access|]. apply wp_bind, wp_pure.
    destruct (BlockTree.get_block _ _) as [b|] eqn:Hb; [by apply commit_wp | done].
Qed.

(** A commit that the state computer does not persist. *)
Lemma persist_failed blocks proof fl (st st' : BlockStore.t X S) r : store_ok st fl -> r <> Ok tt ->
  proxy_commit blocks proof st = (st', r) -> store_ok st' fl.
Proof.
  intros Hs Hr E. pose proof (proxy_commit_frame blocks proof st) as Hf. rewrite E in Hf.
  destruct (Hf Hr). by apply (store_ok_frame fl st).
Qed.

(** Safe tasks that run without an interruption. *)
Lemma wp_run {A} (t : task A) Q : forall st, store_ok st None -> wp st t Q -> store_ok (run t st).1 None.
Proof.
  induction t as [r|after rest IH|blocks proof id rest IH]; intros st Hs Hw; [done| |].
  - destruct (Hw st) as [Hs' Hw']; [done..|]. by apply IH.
  - cbn [run]. unfold or_panic, mbind, action_bind.
    destruct (proxy_commit blocks proof st) as [st' [[]|e|]] eqn:E; [|eapply persist_failed; [exact Hs | | exact E]; done..].
    destruct (Hw st st') as [Hs' Hr]; [done..|]. destruct (finish_fine id st' Hs') as [Hs2 _].
    destruct (update_ordered_root id st') as [st2 [[]|e|]]; [|done..]. apply IH; [done | apply Hr].
Qed.

Lemma op_run o st : store_ok st None -> op_ok o st -> store_ok (run (task_of o) st).1 None.
Proof.
  intros Hs Ho. destruct (start_wp o st Hs Ho) as (t & Hstep & Hw).
  destruct (task_of o) as [r|after rest|blocks proof id rest]; cbn in Hstep.
  - done.
  - injection Hstep as Ha Ht. cbn [run]. rewrite Ha, Ht. by eapply wp_run.
  - unfold or_panic in Hstep. by destruct (proxy_commit _ _ _) as [? [[]|e|]]; simplify_eq.
Qed.

Lemma insert_ok block st : store_ok st None -> op_ok (Insert block) st ->
  store_ok (execute_and_insert_block block st).1 None.
Proof.
  intros Hs Ho%op_run; [|done]. rewrite <- (proj1 tasks_implement block st). unfold task_of in Ho. rewrite run_bind in Ho.
  unfold mbind, action_bind in Ho. by destruct (run (insert_task block) st) as [st' [a|e|]].
Qed.

Lemma insert_qc_ok qc st : store_ok st None -> op_ok (InsertQC qc) st ->
  store_ok (insert_single_quorum_cert qc st).1 None.
Proof. intros Hs Ho%op_run; [|done]. by rewrite <- (proj1 (proj2 tasks_implement) qc st). Qed.

(** ** Runs *)

Lemma start_event o s : store_ok (store s) None -> op_ok o (store s) ->
  thread_ok (store (perform (Start o) s).1) (running (perform (Start o) s).1) /\ (perform (Start o) s).2 <> Panic.
Proof.
  intros Hs Ho. cbn [perform]. destruct (start_wp o (store s) Hs Ho) as (t & -> & Hw). cbn.
  split; [split; [done | by right]|]. destruct t as [[a|e|]| |]; done.
Qed.

Lemma advance_running t st : thread_ok st (Running t) -> (forall r, t <> Done r) ->
  thread_ok (step t st).1 (step t st).2 /\
  (result (step t st).2 = Panic -> exists blocks proof id rest, t = Persist blocks proof id rest /\
     (proxy_commit blocks proof st).2 <> Ok tt).
Proof.
  intros [Hs Hw] Hd. cbn in Hs. destruct t as [r|after rest|blocks proof id rest]; [by destruct (Hd r)|..];
    (destruct Hw as [?|Hw]; [done|]); cbn [step].
  - destruct (Hw st) as [Hs' Hw']; [done..|]. split; [split; [done | by right]|].
    cbn. destruct (rest st) as [[a|e|]| |]; done.
  - unfold or_panic. destruct (proxy_commit blocks proof st) as [st' [[]|e|]] eqn:E.
    + destruct (Hw st st') as [Hs' Hr]; [done..|]. by split.
    + split; [split; [eapply persist_failed; [exact Hs | | exact E]; done | by left]|]. intros _. exists blocks, proof, id, rest. by rewrite E.
    + split; [split; [eapply persist_failed; [exact Hs | | exact E]; done | by left]|]. intros _. exists blocks, proof, id, rest. by rewrite E.
Qed.

Lemma advance_updating id rest st : thread_ok st (Updating id rest) ->
  thread_ok (advance (Updating id rest) st).1 (advance (Updating id rest) st).2 /\
  result (advance (Updating id rest) st).2 <> Panic.
Proof.
  intros [Hs Hw]. cbn in Hs. cbn [advance]. destruct (finish_fine id st Hs) as [Hs' Hr].
  destruct (update_ordered_root id st) as [st' [[]|e|]]; cbn in *; [|by split; [split; [|right]|]|done].
  specialize (Hw st'). split; [split; [done | by right]|]. by destruct rest as [[a|e|]| |].
Qed.

Lemma callback_event th st : thread_ok st th -> thread_ok (run_callback st).1 th /\ (run_callback st).2 <> Panic.
Proof.
  intros [Hs Hw]. destruct (callback_fine _ _ Hs) as [Hs' Hr]. split; [|done]. split; [done|].
  destruct th as [t|id rest]; [|done]. destruct Hw as [->|Hw]; [by left|]. right.
  eapply wp_later; [|exact Hw]. by apply callback_later.
Qed.

Lemma perform_ok e s : thread_ok (store s) (running s) -> admissible e s ->
  thread_ok (store (perform e s).1) (running (perform e s).1) /\ ((perform e s).2 = Panic -> persist_fails e s).
Proof.
  destruct s as [st th]. destruct e as [o| |]; cbn [perform store running].
  - intros [Hs _] [(r & Hr & _) Ho]. cbn in Hr, Ho. subst th.
    destruct (start_event o (mk_system st (Running (Done r))) Hs Ho) as [? ?]. done.
  - intros Hok Ha. cbn in Ha. destruct th as [t|id rest].
    + destruct (advance_running t st Hok) as [Hok' Hp]; [intros r ->; by apply (Ha r)|]. cbn [advance].
      destruct (step t st) as [st' th']. cbn in *. split; [done|]. intros HP.
      destruct (Hp HP) as (blocks & proof & id & rest & -> & Hf). split; [done|]. by exists blocks, proof, id, rest.
    + destruct (advance_updating id rest st Hok) as [Hok' Hp].
      by destruct (advance (Updating id rest) st) as [st' th'].
  - intros Hok _. destruct (callback_event th st Hok). by destruct (run_callback st).
Qed.

Lemma reachable_ok s0 s : thread_ok (store s0) (running s0) -> reachable s0 s -> thread_ok (store s) (running s).
Proof. intros Hs0. induction 1 as [|s e _ IH He]; [done|]. by apply perform_ok. Qed.

(** A store with no operation under way. *)
Definition idle (st : BlockStore.t X S) : system := mk_system st (Running (Done (Ok tt))).

Lemma idle_ok st : store_ok st None -> thread_ok (store (idle st)) (running (idle st)).
Proof. intros Hs. split; [done | by right]. Qed.

(** The store at the start. *)
Definition start (tr : BlockTree.t) (x : X) (st : S) (limit : Z) : system := idle (BlockStore.mk tr x st [] limit).

Lemma start_ok root qc oc li n tc tc2 tr x st limit : BlockTree.new root qc oc li n tc tc2 = Ok tr ->
  BlockInfo.id (QuorumCert.certified_block qc) = ExecutedBlock.id root ->
  ExecutedBlock.parent_id root <> ExecutedBlock.id root ->
  BlockInfo.round (LedgerInfoWithSignatures.commit_info li) <= ExecutedBlock.round root ->
  store_ok (BlockStore.mk tr x st [] limit) None.
Proof.
  intros Hnew Hqc Hpar Hround. destruct (new_Ok _ _ _ _ _ _ _ _ Hnew Hqc Hpar) as (Hok & Hc & Ho & Hl & Hg).
  split; unfold tip; cbn; rewrite ?Ho, ?Hc, ?Hl; [done | done|]. rewrite Hg. by intros rb [= <-].
Qed.

(** C6: The block store does not panic and keeps what is needed. Start from a
    tree with a certified root, with an executor and a storage that report their
    failures as errors. The consensus task inserts blocks and certificates and
    commits, one operation after the other, each in its single accesses to the
    store; between any two accesses any number of the pending callbacks run.
    When an operation starts, blocks follow their parents, a newly certified
    block and a block to commit extend the last committed one, and the quorum
    signed the round of the block. Then the only [expect], [unwrap] or [assert!]
    of the block store and the block tree that can fail is the [expect] on a state
    computer that does not persist a commit. Links, pruned blocks and certificates
    stay consistent; the commit root, the last block that is committed or being
    committed and the highest certified block are in the tree, each below the one
    before. *)
Theorem block_store_never_panics root qc oc li n tc tc2 tr x st limit s e :
  BlockTree.new root qc oc li n tc tc2 = Ok tr ->
  BlockInfo.id (QuorumCert.certified_block qc) = ExecutedBlock.id root ->
  ExecutedBlock.parent_id root <> ExecutedBlock.id root ->
  BlockInfo.round (LedgerInfoWithSignatures.commit_info li) <= ExecutedBlock.round root ->
  reachable (start tr x st limit) s -> admissible e s ->
  ((perform e s).2 = Panic -> persist_fails e s) /\
  (let s' := (perform e s).1 in let last_commit := tip (store s') (in_flight (running s')) in
   links_ok (tree s') /\ pruned_ok (tree s') /\ certs_ok (tree s') last_commit /\
   is_Some (BlockTree.get_block (tree s') (BlockTree.commit_root_id (tree s'))) /\
   descends (tree s') (BlockTree.commit_root_id (tree s')) last_commit /\
   descends (tree s') last_commit (BlockTree.highest_certified_block_id (tree s'))).
Proof.
  intros Hnew Hqc Hpar Hround Hs He.
  pose proof (reachable_ok _ _ (idle_ok _ (start_ok _ _ _ _ _ _ _ _ x st limit Hnew Hqc Hpar Hround)) Hs) as Hok.
  destruct (perform_ok e s Hok He) as [[[[Hl Hp Hc [lb Hlb] Ht] _ _] _] Hn]. split; [done|]. cbv zeta.
  split_and!; [done | done | done | | done | apply Hc]. rewrite (get_block_lookup _ _ _ Hlb). by eexists.
Qed.

(** C40: The highest timeout certificate can go back to a lower round.
    [insert_timeout_certificate] compares the new certificate with the 2-chain
    one: without a 2-chain certificate of its round, a certificate of a lower
    round replaces the highest timeout certificate, in memory and in storage.
    The round of the 2-chain certificate never goes back. *)
Theorem timeout_certificate_regresses (st : BlockStore.t X S) tc old :
  BlockTree.highest_timeout_cert (inner st) = Some old ->
  TimeoutCertificate.round tc < TimeoutCertificate.round old ->
  from_option TwoChainTimeoutCertificate.round 0 (BlockTree.highest_2chain_timeout_cert (inner st))
    < TimeoutCertificate.round tc ->
  (save_highest_timeout_cert tc (storage st)).2 = Ok tt ->
  (let (st', r) := insert_timeout_certificate tc st in
   r = Ok tt /\ BlockTree.highest_timeout_cert (inner st') = Some tc /\
   storage st' = (save_highest_timeout_cert tc (storage st)).1) /\
  forall tc2, from_option TwoChainTimeoutCertificate.round 0 (BlockTree.highest_2chain_timeout_cert (inner st))
    <= from_option TwoChainTimeoutCertificate.round 0
         (BlockTree.highest_2chain_timeout_cert (inner (insert_2chain_timeout_certificate tc2 st).1)).
Proof.
  intros Hold Hlt H2 Hsave. split.
  - unfold insert_timeout_certificate, gets, storing, map_error, zoom, modify, mbind, action_bind. cbn.
    rewrite (proj2 (Z.leb_gt _ _) H2). destruct (save_highest_timeout_cert tc (storage st)) as [s' r]. cbn in Hsave. by subst r.
  - intros tc2. unfold insert_2chain_timeout_certificate, gets, storing, map_error, zoom, modify, mbind, action_bind. cbn.
    destruct (Z.leb_spec (TwoChainTimeoutCertificate.round tc2)
      (from_option TwoChainTimeoutCertificate.round 0 (BlockTree.highest_2chain_timeout_cert (inner st)))); cbn; [lia|].
    destruct (save_highest_2chain_timeout_cert tc2 (storage st)) as [s' [[]|e|]]; cbn; lia.
Qed.
End system.
