(* ===== verification/Recovery.v ===== *)
(** * Recovery (consensus/src/persistent_liveness_storage.rs)

    What consensus starts from after a restart: [LedgerRecoveryData::find_root]
    finds the last committed block among the persisted blocks, [RecoveryData]
    keeps the blocks below it, in an order in which a block comes after its
    parent, and [BlockStore::new] builds the store from them. The theorems: the
    recovered data is exactly what is below the root, and a store can be built
    from it that is fit for consensus to continue. *)
From stdpp Require Import prelude gmap strings sorting.
From Stdlib Require Import ZArith Lia.
From S2P Require Import Prelude Bits Hash HashValues Primitives LedgerInfo ConsensusTypes Blocks ConsensusMsgs.
From S2P Require Import BlockTree BlockTreeInv BlockStore BlockStoreRuns.

(** [sort_by_key(|b| (b.epoch(), b.round()))] *)
Definition by_epoch_round `{Primitives} (b1 b2 : Block.t) : Prop :=
  Block.epoch b1 < Block.epoch b2 \/ Block.epoch b1 = Block.epoch b2 /\ Block.round b1 <= Block.round b2.

#[global] Instance by_epoch_round_dec `{Primitives} : RelDecision by_epoch_round.
Proof. intros b1 b2. unfold by_epoch_round. apply _. Defined.

Module LedgerRecoveryData.
Section recovery.
Context `{Primitives} `{!CryptoHash VoteData.t} `{!CryptoHash BlockData.t}.

Record t := new { storage_ledger : LedgerInfoWithSignatures.t }.

(** The first part of [find_root]: the id and the ledger info of the root, and
    the blocks and certificates, with those of the virtual genesis block if the
    ledger is at the end of an epoch. *)
Definition starting_point (self : t) (blocks : list Block.t) (quorum_certs : list QuorumCert.t)
    : outcome string (HashValue.t * LedgerInfoWithSignatures.t * list Block.t * list QuorumCert.t) :=
  let ledger_info := LedgerInfoWithSignatures.ledger_info (storage_ledger self) in
  if LedgerInfo.ends_epoch ledger_info then
    genesis ← Block.make_genesis_block_from_ledger_info ledger_info;
    genesis_qc ← QuorumCert.certificate_for_genesis_from_ledger_info ledger_info (Block.id genesis);
    Ok (Block.id genesis, QuorumCert.ledger_info genesis_qc, blocks ++ [genesis], quorum_certs ++ [genesis_qc])
  else Ok (LedgerInfo.consensus_block_id ledger_info, storage_ledger self, blocks, quorum_certs).

(** Returns [blocks] and [quorum_certs] as it leaves them. *)
Definition find_root (self : t) (blocks : list Block.t) (quorum_certs : list QuorumCert.t)
    : outcome string (RootInfo.t * list Block.t * list QuorumCert.t) :=
  '(root_id, latest_ledger_info_sig, blocks, quorum_certs) ← starting_point self blocks quorum_certs;
  let blocks := merge_sort by_epoch_round blocks in
  '(root_idx, root_block) ← ok_or (list_find (fun block => Block.id block = root_id) blocks) "unable to find root"%string;
  let blocks := delete root_idx blocks in
  '(_, root_quorum_cert) ←
    ok_or (list_find (fun qc => BlockInfo.id (QuorumCert.certified_block qc) = Block.id root_block) quorum_certs)
      "No QC found for root"%string;
  '(_, root_ordered_cert) ←
    ok_or (list_find (fun qc => BlockInfo.id (QuorumCert.commit_info qc) = Block.id root_block) quorum_certs)
      "No LI found for root"%string;
  Ok (RootInfo.mk _ root_block root_quorum_cert root_ordered_cert latest_ledger_info_sig, blocks, quorum_certs).
End recovery.
Arguments t {_}.
End LedgerRecoveryData.

Module RecoveryData.
Section recovery.
Context `{Primitives} `{!CryptoHash VoteData.t} `{!CryptoHash BlockData.t}.

Record t := mk {
  last_vote : option Vote.t;
  root : RootInfo.t;
  root_metadata : RootMetadata.t;
  blocks : list Block.t;
  quorum_certs : list QuorumCert.t;
  blocks_to_prune : option (list HashValue.t);
  highest_timeout_certificate : option TimeoutCertificate.t;
  highest_2chain_timeout_certificate : option TwoChainTimeoutCertificate.t
}.

(** [blocks.retain(..)]: the ids of the tree, the blocks that stay and the ids of
    the others. *)
Fixpoint retain_blocks (tree : gset HashValue.t) (blocks : list Block.t)
    : gset HashValue.t * list Block.t * list HashValue.t :=
  match blocks with
  | [] => (tree, [], [])
  | block :: blocks =>
      if decide (Block.parent_id block ∈ tree) then
        let '(tree, blocks, to_remove) := retain_blocks ({[Block.id block]} ∪ tree) blocks in
        (tree, block :: blocks, to_remove)
      else
        let '(tree, blocks, to_remove) := retain_blocks tree blocks in
        (tree, blocks, Block.id block :: to_remove)
  end.

Definition find_blocks_to_prune (root_id : HashValue.t) (blocks : list Block.t) (quorum_certs : list QuorumCert.t)
    : list Block.t * list QuorumCert.t * list HashValue.t :=
  let '(tree, blocks, to_remove) := retain_blocks {[root_id]} blocks in
  (blocks, filter (fun qc => BlockInfo.id (QuorumCert.certified_block qc) ∈ tree) quorum_certs, to_remove).

(** [match x { Some(v) if v.epoch() == epoch => Some(v), _ => None }] *)
Definition of_epoch {A} (get_epoch : A -> Z) (epoch : Z) (x : option A) : option A :=
  match x with
  | Some v => if get_epoch v =? epoch then Some v else None
  | None => None
  end.

Definition new (last_vote : option Vote.t) (ledger_recovery_data : LedgerRecoveryData.t) (blocks : list Block.t)
    (root_metadata : RootMetadata.t) (quorum_certs : list QuorumCert.t)
    (highest_timeout_certificate : option TimeoutCertificate.t)
    (highest_2chain_timeout_cert : option TwoChainTimeoutCertificate.t) : outcome string t :=
  '(root, blocks, quorum_certs) ←
    map_err (fun _ => "Root id, Blocks in db, Quorum Certs in db"%string)
      (LedgerRecoveryData.find_root ledger_recovery_data blocks quorum_certs);
  let '(blocks, quorum_certs, blocks_to_prune) :=
    find_blocks_to_prune (Block.id (RootInfo.block root)) blocks quorum_certs in
  let epoch := Block.epoch (RootInfo.block root) in
  Ok (mk (of_epoch Vote.epoch epoch last_vote) root root_metadata blocks quorum_certs
        (Some blocks_to_prune)
        (of_epoch TimeoutCertificate.epoch epoch highest_timeout_certificate)
        (of_epoch TwoChainTimeoutCertificate.epoch epoch highest_2chain_timeout_cert)).

Definition take (self : t) : RootInfo.t * RootMetadata.t * list Block.t * list QuorumCert.t :=
  (root self, root_metadata self, blocks self, quorum_certs self).

Definition take_blocks_to_prune (self : t) : outcome string (t * list HashValue.t) :=
  ids ← expect (blocks_to_prune self);
  Ok (mk (last_vote self) (root self) (root_metadata self) (blocks self) (quorum_certs self) None
        (highest_timeout_certificate self) (highest_2chain_timeout_certificate self), ids).
End recovery.
Arguments t {_}.
End RecoveryData.

(** [BlockStore::new] *)
Definition BlockStore_new `{Primitives} `{!CryptoHash VoteData.t} `{!CryptoHash LedgerInfo.t} `{!CryptoHash BlockData.t}
    `{ExecutionTypes} `{!MerkleHasher HashValue.t} `{!EqDecision StateComputeResult.t} `{HashSetOrder}
    {X S : Type} `{!ExecutionCorrectness X} `{!LivenessStorage S}
    (storage : S) (initial_data : RecoveryData.t) (state_computer : X) (max_pruned_blocks_in_mem : nat)
    (back_pressure_limit : Z) : outcome BlockStore.Error (BlockStore.t X S) :=
  let highest_tc := RecoveryData.highest_timeout_certificate initial_data in
  let highest_2chain_tc := RecoveryData.highest_2chain_timeout_certificate initial_data in
  let '(root, root_metadata, blocks, quorum_certs) := RecoveryData.take initial_data in
  block_store ← BlockStore.build root root_metadata blocks quorum_certs highest_tc highest_2chain_tc state_computer
    storage [] max_pruned_blocks_in_mem back_pressure_limit;
  match BlockStore.try_commit block_store with
  | (block_store, Ok _) => Ok block_store
  | (_, Err e) => Err e
  | (_, Panic) => Panic
  end.

(** ** The blocks below the root *)

Section exact.
Context `{Primitives} `{!CryptoHash VoteData.t} `{!CryptoHash BlockData.t}.
Implicit Types (b p : Block.t) (bs : list Block.t) (tree : gset HashValue.t).

(** The blocks of [bs] that descend from the block with the id [root_id]. *)
Inductive extends bs (root_id : HashValue.t) : Block.t -> Prop :=
| extends_root b : b ∈ bs -> Block.parent_id b = root_id -> extends bs root_id b
| extends_step p b : extends bs root_id p -> b ∈ bs -> Block.parent_id b = Block.id p -> extends bs root_id b.

(** Persisted blocks: ids are distinct, and a block is of the epoch of its parent
    and of a later round, which is checked before a block is inserted. *)
Record linked bs : Prop := {
  linked_ids : NoDup (Block.id <$> bs);
  linked_parent b p : b ∈ bs -> p ∈ bs -> Block.id p = Block.parent_id b ->
    Block.epoch p = Block.epoch b /\ Block.round p < Block.round b
}.

#[local] Instance by_epoch_round_total : Total by_epoch_round.
Proof. intros b1 b2. unfold by_epoch_round. lia. Qed.

#[local] Instance by_epoch_round_trans : Transitive by_epoch_round.
Proof. intros b1 b2 b3. unfold by_epoch_round. lia. Qed.

Lemma extends_in bs root_id b : extends bs root_id b -> b ∈ bs.
Proof. by destruct 1. Qed.

Lemma linked_eq bs b p : linked bs -> b ∈ bs -> p ∈ bs -> Block.id b = Block.id p -> b = p.
Proof.
  intros Hl Hb Hp E. apply list_elem_of_lookup in Hb as [i Hi], Hp as [j Hj].
  assert (i = j) as <-; [|congruence]. apply (NoDup_lookup (Block.id <$> bs) i j (Block.id b) (linked_ids _ Hl));
    rewrite list_lookup_fmap; [by rewrite Hi | by rewrite Hj, E].
Qed.

Lemma linked_perm bs bs' : bs ≡ₚ bs' -> linked bs -> linked bs'.
Proof.
  intros E [Hn Hp]. split; [by rewrite <- E|]. intros b p. rewrite <- E. apply Hp.
Qed.

Lemma linked_weaken bs b : linked (b :: bs) -> linked bs.
Proof.
  intros [Hn Hp]. cbn in Hn. apply NoDup_cons in Hn as [_ Hn]. split; [done|].
  intros b' p Hb Hp'. by apply Hp; right.
Qed.

Lemma sublist_in {A} (k l : list A) x : k `sublist_of` l -> x ∈ k -> x ∈ l.
Proof. intros Hs Hx. eapply elem_of_submseteq; [exact Hx | by apply sublist_submseteq]. Qed.

Lemma retain_app l1 : forall tree l2, RecoveryData.retain_blocks tree (l1 ++ l2) =
  (let '(t1, k1, r1) := RecoveryData.retain_blocks tree l1 in
   let '(t2, k2, r2) := RecoveryData.retain_blocks t1 l2 in (t2, k1 ++ k2, r1 ++ r2)).
Proof.
  induction l1 as [|b l1 IH]; intros tree l2; cbn [app RecoveryData.retain_blocks].
  - by destruct (RecoveryData.retain_blocks tree l2) as [[t k] r].
  - case_decide; rewrite IH; repeat (destruct (RecoveryData.retain_blocks _ _) as [[? ?] ?]); done.
Qed.

(** Blocks are kept or removed, and the tree is what is kept. *)
Lemma retain_perm bs : forall tree t k r, RecoveryData.retain_blocks tree bs = (t, k, r) ->
  (exists rb, r = Block.id <$> rb /\ k ++ rb ≡ₚ bs) /\ k `sublist_of` bs /\
  forall i, i ∈ t <-> i ∈ tree \/ i ∈ Block.id <$> k.
Proof.
  induction bs as [|b bs IH]; intros tree t k r; cbn [RecoveryData.retain_blocks].
  - intros [= <- <- <-]. split; [by exists []|]. split; [done|]. intros i. cbn. rewrite elem_of_nil. tauto.
  - case_decide; destruct (RecoveryData.retain_blocks _ bs) as [[t' k'] r'] eqn:E; intros [= <- <- <-];
      destruct (IH _ _ _ _ E) as ((rb & -> & Hp) & Hs & Ht).
    + split; [exists rb; split; [done|]; cbn; by rewrite Hp|]. split; [by apply sublist_skip|].
      intros i. rewrite Ht, elem_of_union, elem_of_singleton. cbn. rewrite elem_of_cons. tauto.
    + split; [exists (b :: rb); split; [done|]; by rewrite <- Permutation_middle, Hp|]. split; [by apply sublist_cons|done].
Qed.

(** A block that is kept comes after its parent. *)
Lemma retain_order bs tree t k r : RecoveryData.retain_blocks tree bs = (t, k, r) -> forall l1 b l2,
  k = l1 ++ b :: l2 -> Block.parent_id b ∈ tree \/ Block.parent_id b ∈ Block.id <$> l1.
Proof.
  revert tree t k r. induction bs as [|x bs IH]; intros tree t k r; cbn [RecoveryData.retain_blocks].
  - intros [= <- <- <-] [] b l2; done.
  - case_decide as Hx; destruct (RecoveryData.retain_blocks _ bs) as [[t' k'] r'] eqn:E; intros [= <- <- <-] l1 b l2.
    + destruct l1 as [|y l1]; intros [= -> Hk]; [by left|]. cbn. rewrite elem_of_cons.
      destruct (IH _ _ _ _ E l1 b l2 Hk) as [Hin|Hin]; [|tauto].
      apply elem_of_union in Hin as [->%elem_of_singleton|]; tauto.
    + intros Hk. by apply (IH _ _ _ _ E l1 b l2).
Qed.

Lemma retain_sound bs root_id t k r : RecoveryData.retain_blocks {[root_id]} bs = (t, k, r) ->
  forall b, b ∈ k -> extends bs root_id b.
Proof.
  intros E. destruct (retain_perm _ _ _ _ _ E) as (_ & Hsub & _).
  assert (forall b, b ∈ k -> b ∈ bs) as Hin by (intros b; by apply sublist_in).
  assert (forall n b, k !! n = Some b -> extends bs root_id b) as H'.
  { intros n. induction n as [n IH] using lt_wf_ind. intros b Hn.
    pose proof (take_drop_middle k n b Hn) as Hk. symmetry in Hk.
    destruct (retain_order _ _ _ _ _ E _ _ _ Hk) as [Hpar%elem_of_singleton|(p & Hp & Hpin)%list_elem_of_fmap].
    - apply extends_root; [|done]. by apply Hin, (list_elem_of_lookup_2 _ n).
    - apply list_elem_of_lookup in Hpin as [j Hj]. apply lookup_take_Some in Hj as [Hj Hlt].
      apply (extends_step _ _ p); [by apply (IH j)| |done]. by apply Hin, (list_elem_of_lookup_2 _ n). }
  intros b [n Hn]%list_elem_of_lookup. by apply (H' n).
Qed.

Lemma retain_complete bs root_id t k r : linked bs -> StronglySorted by_epoch_round bs ->
  RecoveryData.retain_blocks {[root_id]} bs = (t, k, r) -> forall b, extends bs root_id b -> b ∈ k.
Proof.
  intros Hl Hs E b Hb.
  assert (forall b, b ∈ bs -> (Block.parent_id b = root_id \/ exists p, p ∈ k /\ Block.parent_id b = Block.id p) -> b ∈ k) as Hkeep.
  { clear b Hb. intros b Hb Hpar. apply list_elem_of_split in Hb as (l1 & l2 & ->). rewrite retain_app in E.
    destruct (RecoveryData.retain_blocks {[root_id]} l1) as [[t1 k1] r1] eqn:E1. cbn [RecoveryData.retain_blocks] in E.
    destruct (retain_perm _ _ _ _ _ E1) as (_ & Hsub1 & Ht1).
    assert (Block.parent_id b ∈ t1) as Hin.
    { apply Ht1. destruct Hpar as [->|(p & Hp & Hpar)]; [left; by apply elem_of_singleton|]. right. rewrite Hpar.
      apply list_elem_of_fmap. exists p. split; [done|].
      destruct (RecoveryData.retain_blocks t1 (b :: l2)) as [[t2 k2] r2] eqn:E2. cbn [RecoveryData.retain_blocks] in E2.
      assert (k = k1 ++ k2) as ->.
      { case_decide; destruct (RecoveryData.retain_blocks _ l2) as [[? ?] ?]; simplify_eq; done. }
      apply elem_of_app in Hp as [|Hp]; [done|]. exfalso.
      assert (p ∈ b :: l2) as Hp'.
      { destruct (retain_perm (b :: l2) t1 t2 k2 r2 E2) as (_ & Hsub & _). by eapply sublist_in. }
      destruct (linked_parent _ Hl b p) as [He Hr]; [by apply elem_of_app; right; left|by apply elem_of_app; right|done|].
      apply elem_of_cons in Hp' as [->|Hp']; [lia|]. apply StronglySorted_app_1_r in Hs.
      inversion Hs as [|? ? _ Hall]; subst. rewrite Forall_forall in Hall. apply Hall in Hp'. unfold by_epoch_round in Hp'. lia. }
    rewrite decide_True in E by done. destruct (RecoveryData.retain_blocks _ l2) as [[? ?] ?]. simplify_eq.
    apply elem_of_app. right. left. }
  induction Hb as [b Hb Hpar|p b Hp IH Hb Hpar]; apply Hkeep; [done|by left|done|]. right. by exists p.
Qed.

(** ** [find_root] *)

Lemma list_find_in {A} (P : A -> Prop) `{!forall x, Decision (P x)} l i x : list_find P l = Some (i, x) -> x ∈ l /\ P x.
Proof. intros (Hi & Hx & _)%list_find_Some. split; [by eapply list_elem_of_lookup_2 | done]. Qed.

Lemma find_root_Ok lrd blocks qcs root_id li bs qs root bs' qs' :
  LedgerRecoveryData.starting_point lrd blocks qcs = Ok (root_id, li, bs, qs) ->
  LedgerRecoveryData.find_root lrd blocks qcs = Ok (root, bs', qs') ->
  qs' = qs /\ RootInfo.ledger_info root = li /\ Block.id (RootInfo.block root) = root_id /\
  RootInfo.block root :: bs' ≡ₚ bs /\ StronglySorted by_epoch_round bs' /\
  BlockInfo.id (QuorumCert.certified_block (RootInfo.quorum_cert root)) = root_id /\
  BlockInfo.id (QuorumCert.commit_info (RootInfo.ordered_cert root)) = root_id.
Proof.
  intros Es. unfold LedgerRecoveryData.find_root. rewrite Es, bind_Ok. cbv beta iota zeta.
  intros ([i rb] & Hr%ok_or_Ok_inv & ([i1 qc] & Hq%ok_or_Ok_inv & ([i2 oc] & Ho%ok_or_Ok_inv & [= <- <- <-])%bind_Ok_inv)%bind_Ok_inv)%bind_Ok_inv.
  cbn [RootInfo.block RootInfo.quorum_cert RootInfo.ordered_cert RootInfo.ledger_info].
  apply list_find_in in Hq as [_ Hq], Ho as [_ Ho]. apply list_find_Some in Hr as (Hi & Hid & _). rewrite Hq, Ho.
  split_and!; [done..| | |done|done].
  - etransitivity; [|apply (merge_sort_Permutation by_epoch_round bs)]. symmetry. by apply delete_Permutation.
  - pose proof (StronglySorted_merge_sort by_epoch_round bs) as Hs. rewrite <- (take_drop_middle _ _ _ Hi) in Hs.
    rewrite delete_take_drop. apply StronglySorted_app_2.
    + intros x y Hx Hy. by eapply StronglySorted_app_1_elem_of; [exact Hs|done|right].
    + by eapply StronglySorted_app_1_l.
    + apply StronglySorted_app_1_r in Hs. by inversion Hs.
Qed.

(** ** Exactness *)

(** The rounds grow along a chain, so that the root is not below itself. *)
Lemma extends_round bs root b : linked bs -> root ∈ bs -> extends bs (Block.id root) b ->
  Block.epoch root = Block.epoch b /\ Block.round root < Block.round b.
Proof.
  intros Hl Hr. induction 1 as [b Hb Hp|p b Hp IH Hb Hpar].
  - by apply (linked_parent _ Hl).
  - destruct (linked_parent _ Hl b p Hb (extends_in _ _ _ Hp)) as [? ?]; [done|]. lia.
Qed.

Lemma extends_rest bs bs' root b : linked bs -> root :: bs' ≡ₚ bs ->
  extends bs (Block.id root) b <-> extends bs' (Block.id root) b.
Proof.
  intros Hl Hperm. assert (root ∈ bs) as Hroot by (rewrite <- Hperm; left). split.
  - assert (forall b, extends bs (Block.id root) b -> b ∈ bs') as Hin.
    { intros x Hx. pose proof (extends_round _ _ _ Hl Hroot Hx) as [_ Hlt]. apply extends_in in Hx.
      rewrite <- Hperm in Hx. apply elem_of_cons in Hx as [->|]; [lia|done]. }
    intros Hb. pose proof (Hin b Hb) as Hb'. induction Hb as [b _ Hp|p b Hp IH Hb Hpar]; [by apply extends_root|].
    apply (extends_step _ _ p); [by apply IH, Hin|done|done].
  - induction 1 as [b Hb Hp|p b Hp IH Hb Hpar].
    + apply extends_root; [|done]. rewrite <- Hperm. by right.
    + apply (extends_step _ _ p); [done| |done]. rewrite <- Hperm. by right.
Qed.

(** What a recovery from the blocks [bs] and the certificates [qs] has found. *)
Record recovered (root_id : HashValue.t) (li : LedgerInfoWithSignatures.t) bs (qs : list QuorumCert.t)
    (rd : RecoveryData.t) : Prop := {
  rec_root : RootInfo.block (RecoveryData.root rd) ∈ bs;
  rec_root_id : Block.id (RootInfo.block (RecoveryData.root rd)) = root_id;
  rec_ledger_info : RootInfo.ledger_info (RecoveryData.root rd) = li;
  rec_certified : BlockInfo.id (QuorumCert.certified_block (RootInfo.quorum_cert (RecoveryData.root rd))) = root_id;
  rec_ordered : BlockInfo.id (QuorumCert.commit_info (RootInfo.ordered_cert (RecoveryData.root rd))) = root_id;
  rec_blocks b : b ∈ RecoveryData.blocks rd <-> extends bs root_id b;
  rec_distinct : NoDup (Block.id <$> RecoveryData.blocks rd);
  rec_order l1 b l2 : RecoveryData.blocks rd = l1 ++ b :: l2 ->
    Block.parent_id b = root_id \/ Block.parent_id b ∈ Block.id <$> l1;
  rec_pruned : exists ids, RecoveryData.blocks_to_prune rd = Some ids /\
    forall i, i ∈ ids <-> exists b, b ∈ bs /\ Block.id b = i /\
      b <> RootInfo.block (RecoveryData.root rd) /\ ~ extends bs root_id b;
  rec_certs qc : qc ∈ RecoveryData.quorum_certs rd <-> qc ∈ qs /\
    (BlockInfo.id (QuorumCert.certified_block qc) = root_id \/
     exists b, b ∈ RecoveryData.blocks rd /\ Block.id b = BlockInfo.id (QuorumCert.certified_block qc))
}.

Lemma recovery_recovered last_vote lrd blocks md qcs tc tc2 root_id li bs qs rd :
  LedgerRecoveryData.starting_point lrd blocks qcs = Ok (root_id, li, bs, qs) -> linked bs ->
  RecoveryData.new last_vote lrd blocks md qcs tc tc2 = Ok rd -> recovered root_id li bs qs rd.
Proof.
  intros Es Hl. unfold RecoveryData.new. intros ([[root bs'] qs'] & Hf%map_err_Ok_inv & Hrd)%bind_Ok_inv.
  destruct (find_root_Ok _ _ _ _ _ _ _ _ _ _ Es Hf) as (-> & Hli & Hid & Hperm & Hsort & Hqc & Hoc).
  unfold RecoveryData.find_blocks_to_prune in Hrd. rewrite Hid in Hrd.
  destruct (RecoveryData.retain_blocks {[root_id]} bs') as [[t k] r] eqn:E. injection Hrd as <-.
  assert (linked bs') as Hl' by (apply (linked_weaken _ (RootInfo.block root)); by apply (linked_perm bs)).
  assert (forall b, b ∈ k <-> extends bs root_id b) as Hk.
  { intros b. rewrite <- Hid, (extends_rest bs bs' _ b Hl Hperm), Hid. split; [by eapply retain_sound | by eapply retain_complete]. }
  destruct (retain_perm _ _ _ _ _ E) as ((rb & -> & Hrb) & Hsub & Ht).
  assert (NoDup (Block.id <$> k ++ rb)) as Hnd by (rewrite Hrb; apply (linked_ids _ Hl')).
  split; cbn; try done.
  - rewrite <- Hperm. left.
  - rewrite fmap_app in Hnd. by apply NoDup_app in Hnd as [? _].
  - intros l1 b l2 Hk'. destruct (retain_order _ _ _ _ _ E _ _ _ Hk') as [?%elem_of_singleton|?]; [by left|by right].
  - eexists. split; [done|]. intros i. rewrite list_elem_of_fmap. split.
    + intros (b & -> & Hb). assert (b ∈ bs') as Hb' by (rewrite <- Hrb; apply elem_of_app; by right).
      exists b. split_and!; [rewrite <- Hperm; by right|done| |].
      * intros Heq. destruct (linked_perm _ _ (Permutation_sym Hperm) Hl) as [Hn _]. cbn in Hn.
        apply NoDup_cons in Hn as [Hn _]. rewrite <- Heq in Hn. by apply Hn, list_elem_of_fmap_2.
      * rewrite <- Hk. intros Hin. rewrite fmap_app in Hnd. apply NoDup_app in Hnd as (_ & Hno & _).
        by apply (Hno (Block.id b)); apply list_elem_of_fmap_2.
    + intros (b & Hb & <- & Hne & Hno). exists b. split; [done|]. rewrite <- Hperm in Hb.
      apply elem_of_cons in Hb as [|Hb]; [done|]. rewrite <- Hrb in Hb. apply elem_of_app in Hb as [Hb|]; [|done].
      by apply Hk in Hb.
  - intros qc. rewrite list_elem_of_filter, Ht, elem_of_singleton, list_elem_of_fmap.
    split; [intros [[?|(b & ? & ?)] ?]; eauto | intros [? [?|(b & ? & ?)]]; eauto].
Qed.
End exact.

(** ** Building the store *)

Section restart.
Context `{Primitives} `{!CryptoHash VoteData.t} `{!CryptoHash LedgerInfo.t} `{!CryptoHash BlockData.t}.
Context `{ExecutionTypes} `{!MerkleHasher HashValue.t} `{!EqDecision StateComputeResult.t} `{HashSetOrder}.
Context {X S : Type} `{!ExecutionCorrectness X} `{!LivenessStorage S} `{!ServicesTotal X S}.
Import BlockStore.

(** The services work: a block can be executed once its parent is, and blocks and
    certificates can be saved. *)
Record services_work (known : X -> HashValue.t -> Prop) : Prop := {
  work_execute b x : known x (Block.parent_id b) -> exists x' result,
    execute_block b (Block.parent_id b) x = (x', Ok result) /\ known x' (Block.id b) /\
    forall i, known x i -> known x' i;
  work_save bs qcs (s : S) : (save_tree bs qcs s).2 = Ok tt
}.

Context (known : X -> HashValue.t -> Prop) (Hwork : services_work known).
Context (root : Block.t).

(** The store after the blocks [bs] have been inserted. *)
Record built (bs : list Block.t) (st : BlockStore.t X S) : Prop := {
  built_ok : store_ok st None;
  built_root : BlockTree.ordered_root_id (inner st) = Block.id root;
  built_blocks i eb : BlockTree.get_block (inner st) i = Some eb ->
    ExecutedBlock.block eb ∈ root :: bs /\ ExecutedBlock.id eb = i;
  built_in b : b ∈ root :: bs -> exists eb, BlockTree.get_block (inner st) (Block.id b) = Some eb /\ ExecutedBlock.block eb = b;
  built_known b : b ∈ root :: bs -> known (executor st) (Block.id b);
  built_below b : b ∈ root :: bs -> descends (inner st) (Block.id root) (Block.id b)
}.

(** A block that can be inserted next. *)
Record insertable (bs : list Block.t) (b : Block.t) : Prop := {
  ins_new : Block.id b ∉ Block.id <$> root :: bs;
  ins_parent : exists p, p ∈ root :: bs /\ Block.id p = Block.parent_id b /\ Block.round p < Block.round b;
  ins_round : Block.round root < Block.round b;
  ins_orphan x : x ∈ root :: bs -> Block.parent_id x <> Block.id b
}.

(** The run of [execute_and_insert_block] on a block whose parent is in the tree. *)
Lemma insert_runs b (st : BlockStore.t X S) reb parent : links_ok (inner st) ->
  BlockTree.get_block (inner st) (Block.id b) = None -> BlockTree.ordered_root (inner st) = Ok reb ->
  ExecutedBlock.round reb < Block.round b -> BlockTree.id_to_block (inner st) !! Block.parent_id b = Some parent ->
  known (executor st) (Block.parent_id b) -> exists st' eb,
    execute_and_insert_block b st = (st', Ok eb) /\ ExecutedBlock.block eb = b /\
    inner st' = inserted (inner st) eb parent /\ known (executor st') (Block.id b) /\
    forall i, known (executor st) i -> known (executor st') i.
Proof.
  intros Hl Hnone Hroot Hround Hparent Hknown. destruct (work_execute _ Hwork b _ Hknown) as (x' & result & Ex & Hk & Hmono).
  set (eb := ExecutedBlock.new b result). pose proof (work_save _ Hwork [b] [] (storage st)) as Hsave.
  destruct (save_tree [b] [] (storage st)) as [s' o] eqn:Es. cbn in Hsave. subst o.
  assert (BlockTree.id_to_block (inner st) !! ExecutedBlock.id eb = None) as Hnew.
  { unfold BlockTree.get_block, BlockTree.get_linkable_block in Hnone. by apply fmap_None in Hnone. }
  exists (set_inner (set_storage (set_executor st x') s') (inserted (inner st) eb parent)), eb. split_and!; [|done..].
  unfold execute_and_insert_block. rewrite bind_gets, Hnone, (bind_run _ _ _ st reb) by (unfold reading; by rewrite Hroot).
  rewrite (bind_lift _ _ _ tt) by (by rewrite (proj2 (Z.ltb_lt _ _) Hround)).
  rewrite (bind_run _ _ _ (set_executor st x') eb).
  2: { unfold execute_or_recover, execute, compute, zoom, mbind, action_bind. by rewrite Ex. }
  rewrite (bind_run _ _ _ (set_storage (set_executor st x') s') tt).
  2: { unfold storing, map_error, zoom. cbn [storage set_executor]. change (ExecutedBlock.block eb) with b. by rewrite Es. }
  unfold writing. cbn [inner set_storage set_executor]. by rewrite (insert_block_new (inner st) Hl eb parent Hnew Hparent).
Qed.

Lemma get_linkable tr i eb : BlockTree.get_block tr i = Some eb ->
  exists lb, BlockTree.id_to_block tr !! i = Some lb /\ LinkableBlock.executed_block lb = eb.
Proof. intros (lb & Hlb & ->)%fmap_Some. by exists lb. Qed.

Lemma built_step bs b st : built bs st -> insertable bs b ->
  exists st' eb, execute_and_insert_block b st = (st', Ok eb) /\ built (bs ++ [b]) st'.
Proof.
  intros Hb Hi. destruct (ins_parent _ _ Hi) as (p & Hp & Hpid & Hpr).
  destruct (built_in _ _ Hb p Hp) as (peb & Hpeb & Hpb). destruct (built_in _ _ Hb root ltac:(left)) as (reb & Hreb & Hrb).
  assert (BlockTree.get_block (inner st) (Block.id b) = None) as Hnone.
  { apply eq_None_not_Some. intros [eb Heb]. destruct (built_blocks _ _ Hb _ _ Heb) as [Hin Hid].
    apply (ins_new _ _ Hi). rewrite <- Hid. by apply (list_elem_of_fmap_2 Block.id). }
  assert (store_ok (execute_and_insert_block b st).1 None) as Hok.
  { apply (insert_ok b st (built_ok _ _ Hb)). split.
    - intros pb. rewrite <- Hpid, Hpeb. intros [= <-]. unfold ExecutedBlock.round. by rewrite Hpb.
    - intros i eb Heb Hpar. exfalso. destruct (built_blocks _ _ Hb _ _ Heb) as [Hin _]. by apply (ins_orphan _ _ Hi _ Hin). }
  pose proof (ok_links _ _ (sys_tree _ _ (built_ok _ _ Hb))) as Hl. cbn in Hl.
  destruct (get_linkable _ _ _ Hpeb) as (parent & Hparent & _). rewrite Hpid in Hparent.
  destruct (insert_runs b st reb parent) as (st' & eb & E & Heb & Hinner & Hk & Hmono); [done|done| | |done| |].
  { unfold BlockTree.ordered_root. by rewrite (built_root _ _ Hb), Hreb. }
  { unfold ExecutedBlock.round. rewrite Hrb. apply (ins_round _ _ Hi). }
  { rewrite <- Hpid. by apply (built_known _ _ Hb). }
  exists st', eb. split; [done|]. rewrite E in Hok. cbn in Hok.
  assert (ExecutedBlock.id eb = Block.id b) as Hid by (unfold ExecutedBlock.id; by rewrite Heb).
  assert (ExecutedBlock.parent_id eb = Block.parent_id b) as Hpar by (by rewrite <- Heb).
  assert (BlockTree.id_to_block (inner st) !! ExecutedBlock.id eb = None) as Hnew.
  { rewrite Hid. unfold BlockTree.get_block, BlockTree.get_linkable_block in Hnone. by apply fmap_None in Hnone. }
  rewrite <- Hpar in Hparent.
  assert (forall x, x ∈ root :: bs ++ [b] <-> x ∈ root :: bs \/ x = b) as Hin.
  { intros x. rewrite app_comm_cons, elem_of_app, list_elem_of_singleton. done. }
  split; [done|by rewrite Hinner; apply (built_root _ _ Hb)|..].
  - rewrite Hinner. intros i eb' (lb & Hlb & <-)%get_linkable. rewrite Hin.
    apply (inserted_lookup (inner st) eb parent Hparent) in Hlb as [[-> ->]|(_ & lb' & Hlb' & -> & _)]; [by split; [right|]|].
    destruct (built_blocks _ _ Hb i (LinkableBlock.executed_block lb')) as [? ?]; [by apply get_block_lookup|].
    by split; [left|].
  - rewrite Hinner. intros x [Hx| ->]%Hin.
    + destruct (built_in _ _ Hb x Hx) as (xeb & Hxeb & Hxb). destruct (get_linkable _ _ _ Hxeb) as (lb & Hlb & He).
      destruct (inserted_old (inner st) eb parent Hnew Hparent _ _ Hlb) as (lb' & Hlb' & He').
      exists xeb. split; [|done]. rewrite <- He, <- He'. by apply get_block_lookup.
    + exists eb. split; [|done]. rewrite <- Hid. unfold inserted, BlockTree.get_block, BlockTree.get_linkable_block. cbn.
      by rewrite lookup_insert_eq.
  - intros x [Hx| ->]%Hin; [|done]. by apply Hmono, (built_known _ _ Hb).
  - rewrite Hinner. intros x [Hx| ->]%Hin.
    + by apply (inserted_descends (inner st) Hl eb parent Hnew Hparent), (built_below _ _ Hb).
    + eapply rtc_r; [apply (inserted_descends (inner st) Hl eb parent Hnew Hparent), (built_below _ _ Hb p Hp)|].
      apply (inserted_child (inner st) Hl eb parent Hnew Hparent). right. by rewrite Hpar, Hid.
Qed.

(** A certificate of a block of the tree. *)
Definition describes (qc : QuorumCert.t) (b : Block.t) : Prop :=
  let info := QuorumCert.certified_block qc in
  BlockInfo.id info = Block.id b /\ BlockInfo.epoch info = Block.epoch b /\ BlockInfo.round info = Block.round b /\
  BlockInfo.timestamp_usecs info = Block.timestamp_usecs b.

Lemma describes_match qc b eb : describes qc b -> ExecutedBlock.block eb = b ->
  BlockInfo.match_ordered_only (ExecutedBlock.block_info eb) (QuorumCert.certified_block qc) = true.
Proof.
  intros (Hid & He & Hr & Ht) <-. unfold BlockInfo.match_ordered_only, ExecutedBlock.block_info, Block.gen_block_info.
  cbn [BlockInfo.epoch BlockInfo.round BlockInfo.id BlockInfo.timestamp_usecs].
  by rewrite Hid, He, Hr, Ht, !Z.eqb_refl, bool_decide_true by done.
Qed.

Lemma built_cert bs qc b st : built bs st -> b ∈ root :: bs -> describes qc b ->
  exists st', insert_single_quorum_cert qc st = (st', Ok tt) /\ built bs st'.
Proof.
  intros Hb Hin Hd. destruct (built_in _ _ Hb b Hin) as (eb & Heb & Hbeb). pose proof Hd as (Hid & _).
  assert (store_ok (insert_single_quorum_cert qc st).1 None) as Hfine.
  { apply (insert_qc_ok qc st (built_ok _ _ Hb)). intros b' hb' _ _ _.
    rewrite (built_root _ _ Hb), Hid. by apply (built_below _ _ Hb). }
  pose proof (work_save _ Hwork [] [qc] (storage st)) as Hsave.
  destruct (save_tree [] [qc] (storage st)) as [s' o] eqn:Es. cbn in Hsave. subst o.
  destruct (certified_in _ _ (sys_tree _ _ (built_ok _ _ Hb))) as [hb Hhb]. cbn in Hhb.
  assert (exists tr, BlockTree.insert_quorum_cert (inner st) qc = Ok tr /\
    BlockTree.id_to_block tr = BlockTree.id_to_block (inner st) /\
    BlockTree.ordered_root_id tr = BlockTree.ordered_root_id (inner st)) as (tr & Etr & Hblocks & Hroot).
  { unfold BlockTree.insert_quorum_cert, BlockTree.highest_certified_block. rewrite Hid, Heb, (get_block_lookup _ _ _ Hhb).
    cbn [expect]. rewrite bind_Ok. case_match; by eexists. }
  assert (insert_single_quorum_cert qc st = (set_inner (set_storage st s') tr, Ok tt)) as E.
  { unfold insert_single_quorum_cert. rewrite bind_gets, Hid, Heb, (bind_lift _ _ _ tt).
    2: { by rewrite (describes_match qc b eb Hd Hbeb). }
    rewrite (bind_run _ _ _ (set_storage st s') tt) by (unfold storing, map_error, zoom; by rewrite Es).
    unfold writing. cbn [inner set_storage]. by rewrite Etr. }
  rewrite E in Hfine. eexists. split; [exact E|].
  assert (forall i, BlockTree.get_block tr i = BlockTree.get_block (inner st) i) as Hget.
  { intros i. unfold BlockTree.get_block, BlockTree.get_linkable_block. by rewrite Hblocks. }
  split; cbn [inner set_inner executor set_storage]; [done|by rewrite Hroot; apply (built_root _ _ Hb)|..].
  - intros i x. rewrite Hget. apply (built_blocks _ _ Hb).
  - intros x. rewrite Hget. apply (built_in _ _ Hb).
  - apply (built_known _ _ Hb).
  - intros x Hx. pose proof (built_below _ _ Hb x Hx) as Hdesc. revert Hdesc. unfold descends. apply rtc_subrel.
    intros p c (pb & Hpb & Hpc). exists pb. by rewrite Hblocks.
Qed.

(** The loops of [build]. *)
Lemma insert_loop l : forall bs st, built bs st ->
  (forall l1 b l2, l = l1 ++ b :: l2 -> insertable (bs ++ l1) b) ->
  exists st', for_each_or_panic execute_and_insert_block l st = (st', Ok tt) /\ built (bs ++ l) st'.
Proof.
  induction l as [|b l IH]; intros bs st Hb Hl; [exists st; by rewrite app_nil_r|].
  destruct (built_step bs b st Hb) as (st1 & eb & E & Hb1).
  { rewrite <- (app_nil_r bs). by apply (Hl [] b l). }
  destruct (IH (bs ++ [b]) st1 Hb1) as (st' & E' & Hb').
  { intros l1 x l2 ->. rewrite <- app_assoc. by apply (Hl (b :: l1) x l2). }
  exists st'. rewrite <- app_assoc in Hb'. split; [|done]. cbn [for_each_or_panic].
  by rewrite (bind_run _ _ _ st1 eb) by (unfold or_panic; by rewrite E).
Qed.

Lemma cert_loop bs l : forall st, built bs st -> (forall qc, qc ∈ l -> exists b, b ∈ root :: bs /\ describes qc b) ->
  exists st', for_each_or_panic insert_single_quorum_cert l st = (st', Ok tt) /\ built bs st'.
Proof.
  induction l as [|qc l IH]; intros st Hb Hl; [by exists st|].
  destruct (Hl qc ltac:(left)) as (b & Hin & Hd). destruct (built_cert bs qc b st Hb Hin Hd) as (st1 & E & Hb1).
  destruct (IH st1 Hb1) as (st' & E' & Hb'); [intros q Hq; apply Hl; by right|].
  exists st'. split; [|done]. cbn [for_each_or_panic].
  by rewrite (bind_run _ _ _ st1 tt) by (unfold or_panic; by rewrite E).
Qed.
End restart.

(** ** Restart *)

Section theorems.
Context `{Primitives} `{!CryptoHash VoteData.t} `{!CryptoHash LedgerInfo.t} `{!CryptoHash BlockData.t}.
Context `{ExecutionTypes} `{!MerkleHasher HashValue.t} `{!EqDecision StateComputeResult.t} `{HashSetOrder}.
Context {X S : Type} `{!ExecutionCorrectness X} `{!LivenessStorage S} `{!ServicesTotal X S}.
Import BlockStore.

(** The ledger is at the version of the root. *)
Definition metadata_ok (root : RootInfo.t) (md : RootMetadata.t) : Prop :=
  let info := QuorumCert.certified_block (RootInfo.quorum_cert root) in
  (BlockInfo.version info = 0 \/ BlockInfo.version info = RootMetadata.version md) /\
  (BlockInfo.executed_state_id info = ACCUMULATOR_PLACEHOLDER \/ BlockInfo.executed_state_id info = RootMetadata.accu_hash md).

Lemma either_eqb a b : a = 0 \/ a = b -> (a =? 0) || (a =? b) = true.
Proof. rewrite orb_true_iff, !Z.eqb_eq. done. Qed.

Lemma either_bool {A} `{!EqDecision A} (a b c : A) : a = b \/ a = c -> bool_decide (a = b) || bool_decide (a = c) = true.
Proof. rewrite orb_true_iff, !bool_decide_eq_true. done. Qed.

Lemma recovered_insertable root_id li bs qs rd l1 b l2 : linked bs -> recovered root_id li bs qs rd ->
  RecoveryData.blocks rd = l1 ++ b :: l2 -> insertable (RootInfo.block (RecoveryData.root rd)) l1 b.
Proof.
  intros Hl Hrec Heq. set (root := RootInfo.block (RecoveryData.root rd)).
  pose proof (rec_root _ _ _ _ _ Hrec) as Hroot. pose proof (rec_root_id _ _ _ _ _ Hrec) as Hid. fold root in Hroot, Hid.
  assert (forall x, x ∈ l1 ++ b :: l2 -> x ∈ bs /\ Block.round root < Block.round x) as Hin.
  { intros x Hx. rewrite <- Heq in Hx. apply (rec_blocks _ _ _ _ _ Hrec) in Hx. split; [by eapply extends_in|].
    rewrite <- Hid in Hx. by apply (extends_round _ _ _ Hl Hroot) in Hx as [_ ?]. }
  destruct (Hin b) as [Hbin Hbr]; [by apply elem_of_app; right; left|].
  pose proof (rec_distinct _ _ _ _ _ Hrec) as Hnd. rewrite Heq, fmap_app in Hnd.
  apply NoDup_app in Hnd as (Hnd1 & Hdisj & Hnd2).
  assert (Block.id b ∉ Block.id <$> l1) as Hb1 by (intros Hx; apply (Hdisj _ Hx); left).
  assert (Block.id b <> root_id) as Hbroot.
  { intros E. rewrite <- Hid in E. apply (linked_eq bs) in E; [subst b; lia|done..]. }
  split.
  - cbn. rewrite elem_of_cons. fold root. rewrite Hid. tauto.
  - destruct (rec_order _ _ _ _ _ Hrec l1 b l2 Heq) as [Hp|(p & Hp & Hpin)%list_elem_of_fmap].
    + exists root. split; [left|]. split; [by rewrite Hid|]. done.
    + exists p. split; [by right|]. split; [done|]. destruct (Hin p) as [Hp' _]; [by apply elem_of_app; left|].
      by destruct (linked_parent _ Hl b p Hbin Hp') as [_ ?].
  - done.
  - intros x [->|Hx]%elem_of_cons E.
    + destruct (linked_parent _ Hl root b Hroot Hbin) as [_ ?]; [done|]. lia.
    + apply list_elem_of_split in Hx as (la & lb & ->). rewrite <- app_assoc in Heq.
      destruct (rec_order _ _ _ _ _ Hrec la x (lb ++ b :: l2) Heq) as [Hp|Hp]; [congruence|]. rewrite E in Hp.
      apply Hb1. rewrite fmap_app. apply elem_of_app. by left.
Qed.

Lemma built_start (known : X -> HashValue.t -> Prop) (root : RootInfo.t) result n tc tc2 tr x (st : S) limit :
  let eb := ExecutedBlock.new (RootInfo.block root) result in
  BlockTree.new eb (RootInfo.quorum_cert root) (RootInfo.ordered_cert root) (RootInfo.ledger_info root) n tc tc2 = Ok tr ->
  BlockInfo.id (QuorumCert.certified_block (RootInfo.quorum_cert root)) = Block.id (RootInfo.block root) ->
  Block.parent_id (RootInfo.block root) <> Block.id (RootInfo.block root) ->
  BlockInfo.round (LedgerInfoWithSignatures.commit_info (RootInfo.ledger_info root)) <= Block.round (RootInfo.block root) ->
  known x (Block.id (RootInfo.block root)) ->
  built known (RootInfo.block root) [] (BlockStore.mk tr x st [] limit).
Proof.
  intros eb Hnew Hqc Hpar Hround Hk.
  pose proof (start_ok eb _ _ _ _ _ _ _ x st limit Hnew Hqc Hpar Hround) as Hok.
  destruct (new_Ok _ _ _ _ _ _ _ _ Hnew Hqc Hpar) as (_ & _ & Ho & _ & Hg).
  split; cbn; [exact Hok|exact Ho|..].
  - intros i x' Hx. unfold BlockTree.new in Hnew. outcome_inv. cbn in Hx.
    unfold BlockTree.get_block, BlockTree.get_linkable_block in Hx. cbn in Hx.
    apply fmap_Some in Hx as (lb & [<- <-]%lookup_singleton_Some & ->). split; [left|done].
  - intros b ->%list_elem_of_singleton. exists eb. by split.
  - by intros b ->%list_elem_of_singleton.
  - intros b ->%list_elem_of_singleton. apply rtc_refl.
Qed.

(** C7: A restart resumes where consensus stopped. If the persisted blocks have
    distinct ids and follow their parents in the same epoch, and
    [RecoveryData::new] succeeds, its root is the last committed block with its
    certificates; it keeps exactly the blocks below the root, each after its
    parent, and the certificates of these blocks, and prunes exactly the other
    blocks. Suppose moreover that the executor has the state of the root and
    executes what follows a block it has, that the storage saves, that the
    metadata is that of the root, that the committed round is not above the root,
    and that the certificates describe their blocks. Then [build] succeeds on this
    data: every block that was below the root is in the tree again, below the
    root, and in every run from there on, with callbacks at any time, only a state
    computer that does not persist a commit makes the store panic. *)
Theorem restart_resumes (known : X -> HashValue.t -> Prop) last_vote lrd blocks md qcs tc tc2 root_id li bs qs rd x (st : S) n limit :
  LedgerRecoveryData.starting_point lrd blocks qcs = Ok (root_id, li, bs, qs) -> linked bs ->
  RecoveryData.new last_vote lrd blocks md qcs tc tc2 = Ok rd ->
  let root := RecoveryData.root rd in
  services_work (S := S) known -> known x root_id -> metadata_ok root md ->
  BlockInfo.round (LedgerInfoWithSignatures.commit_info li) <= Block.round (RootInfo.block root) ->
  (forall qc b, qc ∈ RecoveryData.quorum_certs rd -> b ∈ RootInfo.block root :: RecoveryData.blocks rd ->
     BlockInfo.id (QuorumCert.certified_block qc) = Block.id b -> describes qc b) ->
  recovered root_id li bs qs rd /\
  exists store, BlockStore.build root md (RecoveryData.blocks rd) (RecoveryData.quorum_certs rd)
      (RecoveryData.highest_timeout_certificate rd) (RecoveryData.highest_2chain_timeout_certificate rd) x st [] n limit = Ok store /\
    (forall b, extends bs root_id b -> exists eb, BlockTree.get_block (inner store) (Block.id b) = Some eb /\
       ExecutedBlock.block eb = b /\ descends (inner store) root_id (Block.id b)) /\
    forall s e, reachable (idle store) s -> admissible e s -> (perform e s).2 = Panic -> persist_fails e s.
Proof.
  intros Es Hl Erd root Hwork Hk [Hver Hstate] Hround Hdesc.
  pose proof (recovery_recovered _ _ _ _ _ _ _ _ _ _ _ _ Es Hl Erd) as Hrec. split; [done|].
  pose proof (rec_root _ _ _ _ _ Hrec) as Hroot. pose proof (rec_root_id _ _ _ _ _ Hrec) as Hid. fold root in Hroot, Hid.
  unfold BlockStore.build. rewrite (either_eqb _ _ Hver), (either_bool _ _ _ Hstate). cbn [assert_]. rewrite !bind_Ok.
  set (eb := ExecutedBlock.new (RootInfo.block root) _).
  destruct (BlockTree.new eb _ _ _ _ _ _) as [tr|e|] eqn:Enew.
  2, 3: unfold BlockTree.new in Enew; rewrite bool_decide_true in Enew; [done|];
    transitivity root_id; [exact Hid | symmetry; apply (rec_ordered _ _ _ _ _ Hrec)].
  cbn [map_err]. rewrite bind_Ok.
  assert (built known (RootInfo.block root) [] (BlockStore.mk tr x st [] limit)) as Hb0.
  { eapply (built_start known root _ n); [exact Enew| | | |].
    - rewrite Hid. apply (rec_certified _ _ _ _ _ Hrec).
    - intros E. destruct (linked_parent _ Hl (RootInfo.block root) (RootInfo.block root)) as [_ ?]; [done..|]. lia.
    - pose proof (rec_ledger_info _ _ _ _ _ Hrec) as Hli. fold root in Hli. by rewrite Hli.
    - by rewrite Hid. }
  destruct (insert_loop known Hwork (RootInfo.block root) (RecoveryData.blocks rd) [] _ Hb0) as (st1 & E1 & Hb1).
  { intros l1 b l2 Heq. by eapply recovered_insertable. }
  destruct (cert_loop known Hwork (RootInfo.block root) (RecoveryData.blocks rd) (RecoveryData.quorum_certs rd) st1 Hb1)
    as (st2 & E2 & Hb2).
  { intros qc Hqc. pose proof Hqc as [_ [E|(b & Hb & E)]]%(rec_certs _ _ _ _ _ Hrec).
    - exists (RootInfo.block root). split; [left|]. apply Hdesc; [done|left|by rewrite Hid].
    - exists b. split; [by right|]. apply Hdesc; [done|by right|done]. }
  rewrite (bind_run _ _ _ _ _ E1), E2.
  destruct (built_in _ _ _ _ Hb2 (RootInfo.block root) ltac:(left)) as (reb & Hreb & _).
  unfold BlockTree.ordered_root. rewrite (built_root _ _ _ _ Hb2), Hreb. cbn [expect map_err]. rewrite bind_Ok.
  exists st2. split; [done|]. split.
  - intros b Hb%(rec_blocks _ _ _ _ _ Hrec). destruct (built_in _ _ _ _ Hb2 b ltac:(by right)) as (beb & ? & ?).
    exists beb. split_and!; [done..|]. rewrite <- Hid. apply (built_below _ _ _ _ Hb2). by right.
  - intros s e Hs He. apply perform_ok; [|done]. eapply reachable_ok; [|exact Hs]. apply idle_ok, (built_ok _ _ _ _ Hb2).
Qed.
End theorems.
