(* ===== verification/BlockStoreExample.v ===== *)
(** * A concrete block store

    An executor and a storage, a tree of four blocks, and a run of the store in
    which a callback comes between the two halves of a commit. *)
From stdpp Require Import prelude gmap strings sorting.
From Stdlib Require Import ZArith Lia.
From S2P Require Import Prelude Bits Hash HashValues Primitives ValidatorVerifier LedgerInfo ConsensusTypes Blocks ConsensusMsgs SafetyRules ConsensusExample BlockTree BlockTreeInv BlockStore BlockStoreTasks BlockStoreRuns Recovery.

#[local] Existing Instance toy_primitives.
#[local] Instance store_signatures : ConsensusCrypto := toy_consensus (fun _ _ => true) (fun _ _ => true).

#[local] Instance unit_execution_types : ExecutionTypes := {|
  WriteSetPayload := unit; KeptVMStatus := unit; DiscardedVMStatus := unit; ContractEvent := unit
|}.

#[local] Instance result_eq_dec : EqDecision StateComputeResult.t.
Proof.
  assert (EqDecision TransactionStatus) by solve_decision. assert (EqDecision ContractEvent) by (cbn; apply _). solve_decision.
Defined.

#[local] Instance sorted_order : HashSetOrder.
Proof. refine {| iter := elements; values A m := (map_to_list m).*2 |}; done. Defined.

(** An executor that keeps the one transaction of a block without payload. *)
#[local] Instance unit_executor : ExecutionCorrectness unit := {|
  execute_block _ _ x := (x, Ok (StateComputeResult.new HashValue.zero [] 0 [] 0 None [Keep tt] [] []));
  commit_blocks _ _ x := (x, Ok tt)
|}.

(** A storage that remembers what it was told to prune. *)
#[local] Instance log_storage : LivenessStorage (list HashValue.t) := {|
  save_tree _ _ s := (s, Ok tt);
  prune_tree ids s := (s ++ ids, Ok tt);
  save_highest_timeout_cert _ s := (s, Ok tt);
  save_highest_2chain_timeout_cert _ s := (s, Ok tt)
|}.

#[local] Instance unit_total : ServicesTotal unit (list HashValue.t).
Proof. by split. Qed.

(** The chain 1 - 2 - 3 and the fork 1 - 4. *)
Definition qc0 : QuorumCert.t := toy_genesis_qc 1.
Definition qc1 : QuorumCert.t := toy_qc 1 qc0.
Definition qc2 : QuorumCert.t := toy_qc 2 qc1.
Definition qc3 : QuorumCert.t := toy_qc 3 qc2.
Definition block1 : Block.t := toy_block 1 qc0.
Definition block2 : Block.t := toy_block 2 qc1.
Definition block3 : Block.t := toy_block 3 qc2.
Definition block4 : Block.t := toy_block 4 qc1.
Definition root_block : ExecutedBlock.t :=
  ExecutedBlock.new block1 (StateComputeResult.new HashValue.zero [] 0 [] 0 None [Keep tt] [] []).

Definition new_tree (max : nat) : outcome string BlockTree.t :=
  BlockTree.new root_block qc1 qc2 (QuorumCert.ledger_info qc2) max None None.

(** The tree, with room for pruned blocks in memory, or none. *)
Definition tree_of (max : nat) : BlockTree.t :=
  match new_tree max with Ok tr => tr | _ => BlockTree.mk ∅ (Block.id block1) (Block.id block1) (Block.id block1) qc1 None None qc2
    (QuorumCert.ledger_info qc2) ∅ [] 0 end.

Abbreviation toy_system := (system (X := unit) (S := list HashValue.t)).
Definition s0 (max : nat) : toy_system := start (tree_of max) tt ([] : list HashValue.t) 10.

(** The rest of the operation that is under way, and a whole operation. *)
Fixpoint finish (n : nat) (s : toy_system) : toy_system :=
  match n, running s with
  | O, _ | _, Running (Done _) => s
  | Datatypes.S n, _ => finish n (perform Advance s).1
  end.
Definition then_ (s : toy_system) (o : op) : toy_system := finish 20 (perform (Start o) s).1.
Definition after (s : toy_system) (e : event) : toy_system := (perform e s).1.

Definition s3 (max : nat) : toy_system := then_ (then_ (then_ (s0 max) (Insert block2)) (Insert block3)) (Insert block4).
Definition s5 (max : nat) : toy_system := then_ (then_ (s3 max) (InsertQC qc2)) (InsertQC qc3).

(** The commit of block 2 up to the point where the blocks are handed over, and
    the callback. *)
Definition s6 (max : nat) : toy_system :=
  after (after (after (after (s5 max) (Start (Commit (QuorumCert.ledger_info qc3)))) Advance) Advance) Advance.
Definition s7 (max : nat) : toy_system := after (s6 max) Callback.

(** ** Evaluating the conditions *)

Lemma child_check (tr : BlockTree.t) p c :
  from_option (fun b => bool_decide (c ∈ LinkableBlock.children b)) false (BlockTree.id_to_block tr !! p) = true ->
  child tr p c.
Proof.
  unfold child. destruct (BlockTree.id_to_block tr !! p) as [b|]; [|done]. intros Hc%bool_decide_eq_true. eauto.
Qed.

Lemma parent_check (tr : BlockTree.t) i :
  bool_decide (map_Forall (fun _ b => block_parent b <> i) (BlockTree.id_to_block tr)) = true ->
  forall j b, BlockTree.get_block tr j = Some b -> ExecutedBlock.parent_id b <> i.
Proof.
  intros Hall%bool_decide_eq_true j b (lb & Hlb & ->)%fmap_Some. exact (Hall j lb Hlb).
Qed.

Definition ready (s : toy_system) : bool :=
  match running s with Running (Done (Ok _ | Err _)) => true | _ => false end.

Lemma start_check (s : toy_system) o : ready s = true -> op_ok o (store s) -> admissible (Start o) s.
Proof.
  unfold ready. intros Hr Ho. split; [|done].
  destruct (running s) as [[[a|e|]| |]|]; [by eexists | by eexists | done..].
Qed.

Definition busy (s : toy_system) : bool :=
  match running s with Running (Done _) => false | _ => true end.

Lemma advance_check (s : toy_system) : busy s = true -> admissible Advance s.
Proof. unfold busy. intros Hb r Hr. by rewrite Hr in Hb. Qed.

Lemma finish_reachable s0 n : forall s : toy_system, reachable s0 s -> reachable s0 (finish n s).
Proof.
  induction n as [|n IH]; intros s Hs; [done|]. cbn [finish].
  assert (busy s = true -> reachable s0 (finish n (perform Advance s).1)) as Hb
    by (intros Hb; apply IH, reachable_step; [done | by apply advance_check]).
  unfold busy in Hb. destruct (running s) as [[r| |]|]; auto.
Qed.

Lemma then_reachable s0 (s : toy_system) o : reachable s0 s -> ready s = true -> op_ok o (store s) ->
  reachable s0 (then_ s o).
Proof. intros Hs Hr Ho. apply finish_reachable, reachable_step; [done | by apply start_check]. Qed.

Lemma insert_check (s : toy_system) block :
  from_option (fun b => ExecutedBlock.round b <? Block.round block) true
    (BlockTree.get_block (BlockStore.inner (store s)) (Block.parent_id block)) = true ->
  bool_decide (map_Forall (fun _ b => block_parent b <> Block.id block)
    (BlockTree.id_to_block (BlockStore.inner (store s)))) = true ->
  op_ok (Insert block) (store s).
Proof.
  intros Hround Hpar. split.
  - intros pb Hpb. rewrite Hpb in Hround. by apply Z.ltb_lt.
  - intros i b Hb Heq. by destruct (parent_check _ _ Hpar i b Hb).
Qed.

Lemma inserted_reachable max : reachable (s0 max) (s3 max).
Proof.
  unfold s3. do 3 (apply then_reachable; [|vm_compute; reflexivity | apply insert_check; vm_compute; reflexivity]).
  apply reachable_start.
Qed.

Lemma certified_reachable : reachable (s0 0) (s5 0).
Proof.
  unfold s5. apply then_reachable; [apply then_reachable; [apply inserted_reachable | vm_compute; reflexivity |] | vm_compute; reflexivity |];
    intros b hb _ _ _.
  - apply rtc_once, child_check. vm_compute. reflexivity.
  - apply (rtc_l _ _ (Block.id block2)); [|apply rtc_once]; (apply child_check; vm_compute; reflexivity).
Qed.

Lemma commit_check : op_ok (Commit (QuorumCert.ledger_info qc3)) (store (s5 0)).
Proof.
  intros b rb Hb _ _. split_and!.
  - apply rtc_once, child_check. vm_compute. reflexivity.
  - apply rtc_once, child_check. vm_compute. reflexivity.
  - assert (from_option ExecutedBlock.round 0 (BlockTree.get_block (BlockStore.inner (store (s5 0)))
      (LedgerInfo.consensus_block_id (LedgerInfoWithSignatures.ledger_info (QuorumCert.ledger_info qc3)))) = 2) as Hr
      by (vm_compute; reflexivity).
    rewrite Hb in Hr. cbn in Hr. rewrite Hr. vm_compute. reflexivity.
Qed.

Lemma callback_reachable : reachable (s0 0) (s7 0).
Proof.
  unfold s7, s6, after. apply reachable_step; [|exact I].
  do 3 (apply reachable_step; [|apply advance_check; vm_compute; reflexivity]).
  apply reachable_step; [exact certified_reachable|]. apply start_check; [vm_compute; reflexivity | exact commit_check].
Qed.

(** ** Witnesses *)

Lemma tree_of_new max : new_tree max = Ok (tree_of max).
Proof. unfold tree_of, new_tree, BlockTree.new. rewrite bool_decide_true by (vm_compute; reflexivity). reflexivity. Qed.

(** The second half of the commit, after the callback removed the ordered
    root from memory. *)
Lemma block_store_never_panics_witness :
  BlockTree.get_block (BlockStore.inner (store (s7 0))) (BlockTree.ordered_root_id (BlockStore.inner (store (s7 0)))) = None /\
  (perform Advance (s7 0)).2 <> Panic /\
  links_ok (BlockStore.inner (store (perform Advance (s7 0)).1)).
Proof.
  split; [vm_compute; reflexivity|].
  destruct (block_store_never_panics root_block qc1 qc2 (QuorumCert.ledger_info qc2) 0 None None (tree_of 0) tt [] 10
    (s7 0) Advance) as (Hn & Hl & _).
  - exact (tree_of_new 0).
  - vm_compute. reflexivity.
  - vm_compute. discriminate.
  - vm_compute. discriminate.
  - exact callback_reachable.
  - apply advance_check. vm_compute. reflexivity.
  - split; [|exact Hl]. intros Hp. destruct (Hn Hp) as (_ & blocks & proof & id & rest & Hr & _).
    vm_compute in Hr. discriminate Hr.
Defined.

Lemma inserted_ok : tree_ok (BlockStore.inner (store (s3 5))) (Block.id block1).
Proof.
  assert (tip (store (s3 5)) (in_flight (running (s3 5))) = Block.id block1) as E by (vm_compute; reflexivity).
  rewrite <- E. apply sys_tree, (reachable_ok (s0 5)); [|apply inserted_reachable]. apply idle_ok.
  refine (start_ok _ _ _ _ _ _ _ _ _ _ _ (tree_of_new 5) _ _ _); vm_compute; congruence.
Qed.

Lemma find_blocks_to_prune_exact_witness : exists l,
  BlockTree.find_blocks_to_prune (BlockStore.inner (store (s3 5))) (Block.id block2) = Ok l /\ Block.id block4 ∈ l.
Proof.
  destruct (find_blocks_to_prune_exact (BlockStore.inner (store (s3 5))) (Block.id block2)) as (l & Hl & _ & Hin & _).
  - exact (ok_links _ _ inserted_ok).
  - exact (ok_root _ _ inserted_ok).
  - apply rtc_once, child_check. vm_compute. reflexivity.
  - exists l. split; [exact Hl|]. vm_compute in Hl. injection Hl as <-. apply (bool_decide_unpack _). vm_compute. exact I.
Defined.

Lemma path_from_root_to_block_chain_witness : exists path,
  BlockTree.path_from_root_to_block (BlockStore.inner (store (s3 5))) (Block.id block3) (Block.id block1) 1
    = Ok (Some path) /\
  is_path (BlockStore.inner (store (s3 5))) (Block.id block1) path (Block.id block3).
Proof.
  destruct (path_from_root_to_block_chain (BlockStore.inner (store (s3 5))) (Block.id block3) (Block.id block1) root_block)
    as (res & Hres & Hpath & _).
  - exact (ok_links _ _ inserted_ok).
  - vm_compute. reflexivity.
  - change (ExecutedBlock.round root_block) with 1 in Hres. destruct res as [path|].
    + exists path. split; [exact Hres | exact (proj1 (Hpath path eq_refl))].
    + assert (match BlockTree.path_from_root_to_block (BlockStore.inner (store (s3 5))) (Block.id block3) (Block.id block1) 1
        with Ok (Some _) => true | _ => false end = true) as Hok by (vm_compute; reflexivity).
      rewrite Hres in Hok. discriminate Hok.
Defined.

(** A callback for a block that is not in the tree. *)
Lemma late_callback_prunes_tree_witness : exists l tr,
  BlockTree.commit_callback (fun s l => prune_tree l s) (BlockStore.inner (store (s3 5))) []
    [ExecutedBlock.new (toy_block 0 qc0) (ExecutedBlock.state_compute_result root_block)] (QuorumCert.ledger_info qc1)
  = Ok (l, tr) /\ BlockTree.commit_root_id tr = Block.id block1 /\
  (Block.id block1 ∈ BlockTree.pruned_block_ids tr \/ BlockTree.id_to_block tr !! Block.id block1 = None).
Proof.
  destruct (late_callback_prunes_tree (fun s l => prune_tree l s) (BlockStore.inner (store (s3 5))) (Block.id block1) []
    [ExecutedBlock.new (toy_block 0 qc0) (ExecutedBlock.state_compute_result root_block)]
    (ExecutedBlock.new (toy_block 0 qc0) (ExecutedBlock.state_compute_result root_block)) (QuorumCert.ledger_info qc1)
    inserted_ok) as (l & tr & Hc & Hroot & Hin & Hp).
  - reflexivity.
  - vm_compute. reflexivity.
  - vm_compute. discriminate.
  - exists (prune_tree l []).1, tr. split; [exact Hc|]. split; [exact Hroot|].
    apply (Hp (Block.id block1)), Hin, rtc_refl.
Defined.

(** Timeout certificates of rounds 7 and then 5. *)
Lemma timeout_certificate_regresses_witness :
  let tc r := TimeoutCertificate.new (Timeout.new 1 r) in
  let st := BlockStore.set_inner (store (s3 5)) (BlockTree.replace_timeout_cert (BlockStore.inner (store (s3 5))) (tc 7)) in
  let st' := (BlockStore.insert_timeout_certificate (tc 5) st).1 in
  TimeoutCertificate.round <$> BlockTree.highest_timeout_cert (BlockStore.inner st') = Some 5.
Proof.
  intros tc st st'.
  destruct (timeout_certificate_regresses st (tc 5) (tc 7)) as [Hreg _]; [vm_compute; reflexivity..|].
  unfold st'. destruct (BlockStore.insert_timeout_certificate (tc 5) st) as [st1 r]. destruct Hreg as (_ & Htc & _).
  cbn [fst]. rewrite Htc. reflexivity.
Defined.

(** ** A restart *)

(** The chain 1 - 2 - 3 out of order, with a block of another branch. *)
Definition stray_block : Block.t := toy_block 9 (toy_qc 8 qc0).
Definition saved_blocks : list Block.t := [block3; stray_block; block1; block2].
Definition saved_certs : list QuorumCert.t := [qc3; qc2; qc1].
Definition saved_ledger : LedgerRecoveryData.t := LedgerRecoveryData.new (QuorumCert.ledger_info qc2).
Definition saved_metadata : RootMetadata.t := RootMetadata.new 0 HashValue.zero [].
Definition recovery : outcome string RecoveryData.t :=
  RecoveryData.new None saved_ledger saved_blocks saved_metadata saved_certs None None.
Definition recovery_data : RecoveryData.t :=
  match recovery with
  | Ok rd => rd
  | _ => RecoveryData.mk None (RootInfo.mk _ block1 qc1 qc2 (QuorumCert.ledger_info qc2)) saved_metadata [] [] None None None
  end.

Lemma saved_linked : linked saved_blocks.
Proof.
  split.
  - apply (bool_decide_unpack _). vm_compute. exact I.
  - assert (Forall (fun b => Forall (fun p => Block.id p = Block.parent_id b ->
      Block.epoch p = Block.epoch b /\ Block.round p < Block.round b) saved_blocks) saved_blocks) as Hall
      by (apply (bool_decide_unpack _); vm_compute; exact I).
    intros b p Hb Hp. rewrite Forall_forall in Hall. specialize (Hall b Hb). rewrite Forall_forall in Hall. by apply Hall.
Qed.

Lemma saved_described qc b : qc ∈ RecoveryData.quorum_certs recovery_data ->
  b ∈ RootInfo.block (RecoveryData.root recovery_data) :: RecoveryData.blocks recovery_data ->
  BlockInfo.id (QuorumCert.certified_block qc) = Block.id b -> describes qc b.
Proof.
  assert (Forall (fun qc => Forall (fun b => BlockInfo.id (QuorumCert.certified_block qc) = Block.id b -> describes qc b)
    (RootInfo.block (RecoveryData.root recovery_data) :: RecoveryData.blocks recovery_data))
    (RecoveryData.quorum_certs recovery_data)) as Hall.
  { unfold describes. apply (bool_decide_unpack _). vm_compute. exact I. }
  intros Hqc Hb. rewrite Forall_forall in Hall. specialize (Hall qc Hqc). rewrite Forall_forall in Hall. by apply Hall.
Qed.

Lemma restart_resumes_witness :
  RecoveryData.blocks recovery_data = [block2; block3] /\
  exists store : BlockStore.t unit (list HashValue.t),
    BlockStore.build (RecoveryData.root recovery_data) saved_metadata (RecoveryData.blocks recovery_data)
      (RecoveryData.quorum_certs recovery_data) None None tt [] [] 5 10 = Ok store /\
    forall s e, reachable (idle store) s -> admissible e s -> (perform e s).2 = Panic -> persist_fails e s.
Proof.
  split; [vm_compute; reflexivity|].
  destruct (restart_resumes (X := unit) (S := list HashValue.t) (fun _ _ => True) None saved_ledger saved_blocks saved_metadata
    saved_certs None None (Block.id block1) (QuorumCert.ledger_info qc2) saved_blocks saved_certs recovery_data tt [] 5 10)
    as (_ & store & E & _ & Hsafe).
  - vm_compute. reflexivity.
  - exact saved_linked.
  - vm_compute. reflexivity.
  - split; [|reflexivity]. intros b x _. cbn. eexists _, _. split; [reflexivity|]. by split.
  - exact I.
  - split; left; vm_compute; reflexivity.
  - vm_compute. discriminate.
  - exact saved_described.
  - exists store. split; [exact E|exact Hsafe].
Defined.
