(* ===== verification/LivenessExample.v ===== *)
(** * Concrete elections and proposals

    A hash, a history and three validators for leader reputation, and a generator
    on the tree of BlockStoreExample.v. *)
From stdpp Require Import prelude gmap strings sorting.
From Stdlib Require Import ZArith Lia.
From S2P Require Import Prelude Bits Hash HashValues Primitives LedgerInfo ConsensusTypes Blocks SafetyRules ConsensusExample.
From S2P Require Import ProposerElection BlockTree BlockTreeInv ProposalGenerator BlockStore BlockStoreRuns BlockStoreExample.

#[local] Existing Instance toy_primitives.
#[local] Existing Instance store_signatures.
#[local] Existing Instance unit_execution_types.
#[local] Existing Instance result_eq_dec.
#[local] Existing Instance sorted_order.
#[local] Existing Instance unit_executor.
#[local] Existing Instance log_storage.
#[local] Existing Instance unit_total.

(** ** Leader reputation *)

(** 32 bytes, the first the sum of the input. *)
Definition sum_hash (bytes : list Z) : HashValue.t := HashValue.mk (ProposerElection.sum bytes :: replicate 31 0).

(** A fixed history in which validator 2 proposed and 3 voted. *)
#[local] Instance fixed_history : MetadataBackend unit := {|
  get_block_metadata _ := mret [NewBlockEvent.new 1 (2 : AccountAddress) [(3 : AccountAddress)] 0]
|}.

Definition toy_reputation : LeaderReputation.t unit ActiveInactiveHeuristic.t :=
  LeaderReputation.new [1; 2; 3] tt (ActiveInactiveHeuristic.new (1 : AccountAddress) 99 1) 4.

Lemma choose_weighted_witness : exists leader,
  LeaderReputation.choose sum_hash toy_reputation 5 [1; 99; 99] = Ok leader /\ leader = 2.
Proof.
  destruct (choose_weighted sum_hash (fun _ => eq_refl) toy_reputation 5 [1; 99; 99])
    as (state & index & i & w & leader & _ & _ & _ & Hc & _).
  - apply (bool_decide_unpack _). vm_compute. exact I.
  - vm_compute. split; reflexivity.
  - reflexivity.
  - exists leader. split; [exact Hc|]. vm_compute in Hc. congruence.
Defined.

(** The leader of round 5 proposes, repeats the proposal and equivocates. *)
Definition offer (timestamp : Z) : Block.t :=
  Block.mk (HashValue.mk [timestamp]) (BlockData.new_proposal [] (2 : AccountAddress) 5 timestamp qc3) None.
Definition offers : list Block.t := [offer 10; offer 10; offer 11].

Lemma one_proposal_per_round_witness :
  (answers sum_hash toy_reputation offers).*2 = [true; true; false] /\ Block.id (offer 10) = Block.id (offer 10).
Proof.
  split; [vm_compute; reflexivity|].
  apply (one_proposal_per_round sum_hash toy_reputation offers 0 1 (offer 10) (offer 10));
    vm_compute; reflexivity.
Defined.

(** ** A proposal *)

(** The chain 1 - 2 - 3 where block 2 carries transaction 7. *)
Definition paying_block : Block.t := Block.new_proposal [(7 : SignedTransaction)] 2 2 qc1 (ValidatorSigner.new 2 2).
Definition p2 : toy_system := then_ (then_ (s0 5) (Insert paying_block)) (Insert block3).
Definition p4 : toy_system := then_ (then_ p2 (InsertQC qc2)) (InsertQC qc3).
Definition branch : BlockTree.t := BlockStore.inner (store p4).

Lemma branch_reachable : reachable (s0 5) p4.
Proof.
  assert (reachable (s0 5) p2) as H2.
  { unfold p2. do 2 (apply then_reachable; [|vm_compute; reflexivity | apply insert_check; vm_compute; reflexivity]).
    apply reachable_start. }
  unfold p4. apply then_reachable; [apply then_reachable; [exact H2 | vm_compute; reflexivity |] | vm_compute; reflexivity |];
    intros b hb _ _ _.
  - apply rtc_once, child_check. vm_compute. reflexivity.
  - apply (rtc_l _ _ (Block.id block2)); [|apply rtc_once]; (apply child_check; vm_compute; reflexivity).
Qed.

Lemma branch_links : links_ok branch.
Proof.
  pose proof (reachable_ok (s0 5) p4) as Hok. destruct Hok as [Hok _]; [|exact branch_reachable | exact (ok_links _ _ (sys_tree _ _ Hok))].
  apply idle_ok.
  refine (start_ok _ _ _ _ _ _ _ _ _ _ _ (tree_of_new 5) _ _ _); vm_compute; congruence.
Qed.

(** A mempool with the transactions 7 and 8. *)
Definition mempool (max : Z) (exclude : list (list Z)) (ordering : bool) : outcome string (list Z) :=
  Ok (take (Z.to_nat max) (filter (fun txn => txn ∉ concat exclude) [7; 8])).

Definition toy_env : ProposalGenerator.env := ProposalGenerator.mk_env branch 1000 mempool.

Definition toy_generator : ProposalGenerator.t := ProposalGenerator.new (H := toy_primitives) 2 10.
Definition toy_signature : Signature := (2, HashValue.zero).

Lemma mempool_excludes max exclude ordering txns : mempool max exclude ordering = Ok txns ->
  forall txn p, txn ∈ txns -> p ∈ exclude -> txn ∉ p.
Proof.
  intros [= <-] txn p Hin Hp Htp.
  apply (subseteq_take _ _) in Hin. apply list_elem_of_filter in Hin as [Hin _]. apply Hin.
  apply list_elem_of_In, in_concat. exists p. by rewrite <- !list_elem_of_In.
Qed.

Lemma generated_proposal_valid_witness : exists self data,
  ProposalGenerator.generate_proposal toy_env 4 toy_generator = (self, Ok data) /\
  BlockData.payload data = Some [(8 : SignedTransaction)] /\ BlockData.parent_id data = Block.id block3 /\
  Block.verify_well_formed (Block.new_proposal_from_block_data_and_signature data toy_signature) 1000 = Ok tt.
Proof.
  set (r := ProposalGenerator.generate_proposal toy_env 4 toy_generator).
  assert (exists self data, r = (self, Ok data) /\ BlockData.payload data = Some [8]) as (self & data & Hr & Hp)
    by (eexists _, _; vm_compute; split; reflexivity).
  exists self, data. split; [exact Hr|]. split; [exact Hp|].
  destruct (generated_proposal_valid toy_generator self toy_env 4 data toy_signature 1000)
    as (_ & _ & Hparent & Hwf & _).
  - exact branch_links.
  - exact mempool_excludes.
  - vm_compute. split; discriminate.
  - vm_compute. discriminate.
  - vm_compute. reflexivity.
  - exact Hr.
  - split; [|exact Hwf]. rewrite Hparent. vm_compute. reflexivity.
Defined.
